(* ===== verification/_CoqProject ===== *)
-Q . S2P
Prelude.v
Health.v
GoStrings.v
Float64.v
JsonString.v
JsonNumber.v
JsonText.v
Reflect.v
Calendar.v
Model.v
Codec.v
Metrics.v
Retry.v
RetryProps.v
Registry.v
Strategies.v
StrategyProps.v
Latency.v
Sha256.v
Lua.v
Redis.v
RateLimit.v
RateLimitWindow.v
Fleet.v
RateLimitProps.v
RateLimitTokens.v
Config.v
Router.v
RouterProps.v
Http.v
Store.v
Connect.v
Auth.v
AdminKeys.v
AuthProps.v
Capture.v
Middleware.v
MiddlewareProps.v
Handlers.v
HandlerProps.v
Integration.v
Server.v
System.v
Telemetry.v
Upstream.v
Pipeline.v
OpenAI.v
Anthropic.v
Google.v
PipelineProps.v
AdapterProps.v
Wire.v
WireProps.v
KeyDocs.v
OpenaiCompat.v
Billing.v
Startup.v
Lifecycle.v
