(* ===== verification/Prelude.v ===== *)
(** * llm-gateway: a verification development

    llm-gateway is an HTTP gateway in Go that exposes an OpenAI-compatible
    chat API and forwards requests to several LLM providers.  This library
    models its own code, component by component, and proves what each
    component promises.

    ** The program and how its parts interact

    A request to [/v1/chat/completions] passes the outer middleware (access
    log, debug body log, metrics), then [RequireAPIKey], which asks an
    [Authenticator] (a cache in front of the Postgres store), then the rate
    limiter middleware, which asks Redis through two Lua scripts, and reaches
    the chat handler.  The handler decodes the body, asks the router for a
    candidate (provider and model), and calls the provider.  The router
    expands a model group into candidates, drops those whose provider is
    unhealthy, and lets the group's strategy choose.  A provider is an adapter
    (OpenAI, Anthropic, Google) wrapped in a decorator that retries, backs off
    and records successes and failures in the provider's health object, which
    the router reads.  On the way back the rate-limit middleware captures the
    response's token usage and charges it to the key.  Keys are created and
    revoked through admin handlers on the same store.  [main] builds all this
    from the configuration.

    ** Files and the code they model

    - [Prelude]: outcomes of fallible calls, 64-bit wrap-around, durations,
      tactics.  [GoStrings], [Float64], [Sha256]: what the code uses of Go's
      standard library: strings, strconv, sort, IEEE doubles (through
      [SpecFloat], with rounding lemmas), SHA-256 and hex.
    - [JsonString], [JsonNumber], [JsonText], [Reflect]: what the code uses of
      encoding/json: string literals and UTF-8, numbers (the shortest decimal
      of a double, correctly rounded parsing), the scanner as a state machine
      over bytes, and encoding and decoding driven by Go types with their
      tags, for whole texts ([Unmarshal]) and streams ([Decode]).
    - [Model]: src/internal/model, chat types, provider errors, Retry-After.
      [Codec]: the JSON tags of these types, as values of type [kind] whose
      laws (round trip, well-formedness of what is decoded, reading one type's
      documents as another) are proved once per way of building a type.
    - [Metrics]: src/internal/metrics, the collectors and the recorded
      operations as a log.  [Latency]: reading the provider latency histogram
      back ([ProviderLatencyTotals]) and the poller of
      src/internal/router/strategy/latency.go, its goroutine and [Stop] as a
      transition system; Prometheus' histogram vector is a class ([HistVec],
      [HistLaws]).
    - [Health]: src/internal/provider/health.go; state [ProviderHealth],
      operations [RecordSuccess], [RecordFailure], [IsHealthy],
      [HealthyStrict], [Status]; abstract specification [Breaker].
    - [Retry], [RetryProps]: src/internal/provider/health_decorator.go; state
      [World] (health object, metrics, trace of attempts and waits).
    - [Registry]: src/internal/provider/registry.go.
    - [Strategies], [StrategyProps]: src/internal/router/strategy, the five
      strategies, their generator and constructors, the memoizing builder and
      the latency poller's step.
    - [Router], [RouterProps]: src/internal/router; [NewRouter], [Route] over
      the state [RouteState].
    - [Lua]: the numbers of the scripts, IEEE doubles.  [Redis]: the sorted-set
      commands as a class ([RedisOps], [RedisLaws]) with an executable
      instance.  [RateLimit], [RateLimitProps],
      [RateLimitWindow], [RateLimitTokens]: src/internal/ratelimit, the two
      Lua scripts and the Go limiter over that class.  [Fleet]: several
      processes sharing one Redis, each with the instance id that [New] draws
      for it and with a clock that may be off.
    - [Config]: src/internal/config.
    - [Store]: src/internal/store, tables as finite maps and the queries on
      them.  [Connect]: its connections and migrations, as the handles they
      open and close over the class [ConnLib].  [Auth], [AuthProps]: src/internal/auth over the store, with the
      expiring LRU library as a class ([LRUOps], [LRULaws]).  [AdminKeys]:
      src/internal/handler/admin_keys.go.
    - [Http]: response writers ([Writer]) as the effect of a list of
      operations ([WOp]), and src/internal/apierr.
    - [Capture]: the usage-capturing writer of
      src/internal/middleware/ratelimit.go.  [Middleware], [MiddlewareProps]:
      the rest of src/internal/middleware; a middleware maps handlers to
      handlers, and the rate limiter is reached through the record [Reserver].
    - [Handlers], [HandlerProps]: src/internal/handler; routing and provider
      calls are reached through the class [Gateway].  [Integration]
      instantiates [Gateway] with [Router] and [Retry].
    - [Server]: src/internal/server, the routes with their middleware chains.
      [System]: the server with the key cache, the store, the Redis limiter,
      the admin endpoints and the routing gateway on one shared state, many
      requests at a time ([sys_step]).  [Telemetry]: the metrics of all its
      handler chains.
    - [Upstream], [OpenAI], [Anthropic], [Google], [AdapterProps]:
      src/internal/provider/{openai,anthropic,google}; the shared shape of an
      exchange, of the line scanner and of the stream goroutine is in
      [Upstream].
    - [Pipeline], [PipelineProps]: the three goroutines of a streaming request
      (the adapter's reader, [trackStreamHealth], [handleStream]) and the two
      buffered channels between them, as a transition system in which the
      client may leave at any step; [Upstream.pump], [Retry.forward] and
      [Handlers.stream_loop] are the same loops run one after the other.
    - [Calendar]: [time.Date], the text of a [time.Time] in JSON (an instance
      of [TimeText] for each time zone of the process), and the HTTP dates of
      Retry-After headers.
    - [Wire], [WireProps]: the JSON documents of the handlers and the adapters
      and the size-limited request bodies: the codec that [Handlers],
      [Middleware] and the adapter files take as arguments.  [KeyDocs]: the
      endpoint that creates keys, over the wire.  [OpenaiCompat]:
      src/pkg/openaicompat, the types for clients.  [Billing]: [System] with
      this codec and these adapters, and what each execution should charge.
    - [Startup]: src/cmd/gateway/main.go, [buildProviders], [buildAuth],
      [buildRateLimiter], [setupLogger].  [Lifecycle]: [main] itself, booting,
      waiting for listeners and signals, shutting down.

    ** What the theorems show

    - Rate limiting: in every execution of any number of processes (any
      interleaving of calls, key expiry, and network errors after which a
      script may or may not have run) no key is admitted more than its RPM in
      any sliding minute ([Fleet.fleet_window_bound]), less the amount by which
      the processes' stamps and the server's clock disagree, when the processes
      drew different instance ids; the TPM test compares exactly the tokens
      recorded in the last minute for limits up to 2^53, where Lua's numbers
      are exact; one call's decision, effect and retry hint.
    - The whole gateway: with requests, key creation, revocations and expiry
      interleaved, what reaches a [/v1] handler carries a stored key's
      identity and stays within its limit ([System.gateway_rate_limited]), a
      key is throttled for tokens exactly by what the providers' responses to
      it report ([Billing.tokens_billed_exactly]), and no request makes a
      metric operation fail ([Telemetry.metrics_well_typed]).
    - Authentication: an accepted key belongs to an unexpired row, active or
      revoked elsewhere at most one cache TTL ago; completeness; a created key
      authenticates; the shape of generated keys; the store's key life cycle.
    - Providers: the health object refines a circuit breaker; the retry loops
      return the deciding attempt and record one outcome; bounds of the
      back-off in floating point; the adapters' error classification,
      request and response translation and event streams.
    - Routing: every strategy against a reference definition of its choice;
      [Route] and [NewRouter] on all branches; registry resolution; start-up
      invariants and independence of Go's map order.  The latency averages:
      what a poll contributes, their range in floating point, and the
      protocol of [Stop].
    - The process: once something stops it, it ends within the shutdown timeout
      and the time its connections take to close, with the exit code of what it
      was told first, and leaks no connection
      ([Lifecycle.process_lifecycle], [Lifecycle.connections_no_leak]).
    - HTTP: the gates of the middleware, invisibility of the capturing writer
      to handlers that set their headers first, exact usage recording, the streamed response as a client reads it, and
      whole requests, streaming or not, from body to response through router,
      retries and health ([Integration.chat_end_to_end],
      [Integration.stream_end_to_end]).
    - Streaming: every interleaving of the goroutines implements the sequential
      model ([PipelineProps.stream_refines_sequential]), for each adapter
      ([PipelineProps.adapter_streams_delivered]); every run has a
      bounded number of steps, waits for nothing but the service while the
      client is there, and ends without panic, leaked goroutine or open body
      ([PipelineProps.stream_terminates]); and what a client that leaves does
      to the health record ([PipelineProps.disconnect_outcomes]).
    - The bytes on the wire: which bodies are accepted as requests, that every
      accepted request can be sent to every provider and every answer passed
      on ([WireProps.requests_sendable], [WireProps.answers_printable]), that
      the tokens charged are those of the response sent
      ([WireProps.usage_charged]), what a client reads
      ([OpenaiCompat.client_answered]), that a created key reaches its
      administrator ([KeyDocs.key_delivered]), and that gateways compose: requests,
      streams and errors pass through another gateway's OpenAI adapter ([WireProps.stream_relayed], [WireProps.error_relayed]).

    Some places where the code does not do what a comment says are computed
    as examples next to the theorems ([RetryProps.backoff_overflow],
    [AuthProps.revoke_race_accepts], [Registry.alias_of_alias] and others).

    ** Modelling conventions

    Integers are [Z] with the wrap-around written where the code can reach it
    ([wrap64], [wrapu64]); a [time.Duration] counts nanoseconds and a
    [time.Time] nanoseconds since the zero time.  Go maps are [gmap]; where
    the iteration order matters it is an argument.  A pointer that is shared
    (a health object, a strategy instance) is an index into a heap.  Clocks
    (one reading for each [time.Now()], also within a stream), random draws, outcomes of network calls and [ctx.Done()] are arguments.
    Mutexes and the atomicity of Lua scripts make each operation one step, so
    a concurrent execution is a sequence of steps; where two calls of one
    operation can interleave with another ([cache_probe] and [cache_fill];
    the two halves of a request, [System.enter] and [System.leave]), the
    operation is split.  A limiter call of one process reads the clock and runs
    its script in one step; [Fleet] takes these apart as well.

    Fuel: [Retry.attempts] gets [loop_fuel], one more than MaxRetries, which
    is the number of iterations the loop condition allows; its theorem shows a
    result is reached.  [AdminKeys.generate_body] recurses on the list of
    random bytes and is shown to finish once that holds enough accepted bytes.
    [RateLimit.digits36] gets 13, the digits of an [int64] in base 36.
    [JsonNumber.shortest_from] tries up to 1500 digits, more than the exact
    decimal expansion of any double has ([shortest_spec]: a decimal that reads
    back is found).  Everything else is structural recursion.  [Pipeline] needs
    no fuel: a run is a sequence of steps, and [stream_terminates] bounds it.

    ** What is not modelled

    The embedded migration files are data.  Libraries are classes or
    arguments: Redis, the LRU, Prometheus' collectors, the database drivers
    and the migration library, koanf, the HTTP client and server, [math.Exp],
    Postgres' UUID parser, chi's matching of routes, its request ids and its
    panic recovery.  The handlers and adapters are generic in the JSON codec
    ([encode], [marshal], [decode_...]), which [Wire] supplies; of
    encoding/json only the texts of its errors ([jerr_text]) and the time zone
    of the process ([TimeText], [Calendar.rfc3339], and [nt_lookupName] for
    the zone of an HTTP date) are arguments.  When the service sends the next line of a
    stream is up to the environment ([LArrive] in [Pipeline]).  The data race of concurrent [Weighted] selections on their generator is not
    modelled (a draw is one step).  Write errors of the client connection are not
    modelled: a client that leaves is a cancelled context. *)

From stdpp Require Export base tactics strings list gmap numbers pretty.
From Stdlib Require Export ZArith Lia.

(** ** Scope and notations *)

Declare Scope gw_scope.
Delimit Scope gw_scope with gw.

(** A Go call that returns [(T, error)] and may also panic: the three ways
    such a call ends. *)
Inductive outcome (E A : Type) : Type :=
| Ret (a : A)
| Error (e : E)
| Panic.
Arguments Ret {E A} a.
Arguments Error {E A} e.
Arguments Panic {E A}.

Definition obind {E A B} (c : outcome E A) (k : A → outcome E B) : outcome E B :=
  match c with Ret a => k a | Error e => Error e | Panic => Panic end.

Notation "'let!' x := c 'in' k" := (obind c (λ x, k))
  (at level 10, x pattern, c at level 100, k at level 200) : gw_scope.

Open Scope gw_scope.
Open Scope Z_scope.

#[global] Arguments Z.of_nat : simpl never.
#[global] Arguments Z.mul : simpl never.
#[global] Arguments Z.pow : simpl never.

(** ** Machine integers

    Go's [int] on the supported platforms is [int64]; [time.Duration] is an
    [int64] count of nanoseconds.  Values are kept in [Z] and the wrap-around
    is written where the source computes. *)

Definition min64 : Z := - 2 ^ 63.
Definition max64 : Z := 2 ^ 63 - 1.
Definition in64 (z : Z) : Prop := min64 ≤ z ≤ max64.
Definition wrap64 (z : Z) : Z := (z + 2 ^ 63) `mod` 2 ^ 64 - 2 ^ 63.
Definition wrapu64 (z : Z) : Z := z `mod` 2 ^ 64.
Definition clamp64 (z : Z) : Z := Z.max min64 (Z.min max64 z).

Lemma wrap64_id z : in64 z → wrap64 z = z.
Proof.
  unfold in64, wrap64, min64, max64. intros H.
  rewrite Z.mod_small; lia.
Qed.

Lemma wrap64_in64 z : in64 (wrap64 z).
Proof.
  unfold in64, wrap64, min64, max64.
  pose proof (Z.mod_pos_bound (z + 2 ^ 63) (2 ^ 64) ltac:(lia)). lia.
Qed.

Lemma clamp64_id z : in64 z → clamp64 z = z.
Proof. unfold in64, clamp64. lia. Qed.

Lemma clamp64_in64 z : in64 (clamp64 z).
Proof. unfold in64, clamp64, min64, max64. lia. Qed.

Lemma clamp64_ge c z : min64 < c ≤ max64 → (c ≤ clamp64 z ↔ c ≤ z).
Proof. unfold clamp64, min64, max64. lia. Qed.

Lemma wrapu64_id z : 0 ≤ z < 2 ^ 64 → wrapu64 z = z.
Proof. intros. unfold wrapu64. by apply Z.mod_small. Qed.

(** ** [time.Duration] and [time.Time]

    A [time.Time] is the count of nanoseconds since the zero [time.Time];
    [Sub] saturates at the [int64] bounds, as Go documents. *)

Definition Millisecond : Z := 1000000.
Definition Second : Z := 1000000000.

Definition time_IsZero (t : Z) : bool := t =? 0.
Definition time_Sub (t u : Z) : Z := clamp64 (t - u).

(** ** Decision support *)

Create HintDb gw.
#[export] Hint Resolve wrap64_in64 clamp64_in64 : gw.

(** Case analysis on the boolean tests of the goal, with the arithmetic
    meaning of each branch. *)
Ltac case_ztest :=
  match goal with
  | |- context [?a <? ?b] => destruct (Z.ltb_spec a b)
  | |- context [?a <=? ?b] => destruct (Z.leb_spec a b)
  | |- context [?a =? ?b] => destruct (Z.eqb_spec a b)
  | |- context [?a >? ?b] => rewrite (Z.gtb_ltb a b)
  | |- context [?a >=? ?b] => rewrite (Z.geb_leb a b)
  end.
Ltac ztests := repeat (case_ztest; simpl in *; try lia); try lia.

(** ** Counting in lists *)

(** Elements that satisfy [P], counted through a filter and a map. *)
Lemma filter_length_through {A B} (P C : A → Prop) (Q : B → Prop) (f : A → B)
    `{!∀ x, Decision (P x), !∀ x, Decision (C x), !∀ x, Decision (Q x)} (l : list A) :
  (∀ x, x ∈ l → P x → C x ∧ Q (f x)) →
  (length (filter P l) ≤ length (filter Q (f <$> filter C l)))%nat.
Proof.
  induction l as [|x l IH]; intros Himp; [done|].
  assert (∀ y, y ∈ l → P y → C y ∧ Q (f y)) as Htl by (intros y Hy; apply Himp; by right).
  specialize (IH Htl). rewrite (filter_cons P), (filter_cons C).
  destruct (decide (P x)) as [Hp|Hp].
  - destruct (Himp x ltac:(left) Hp) as [Hc Hq]. rewrite decide_True by done. csimpl.
    rewrite filter_cons, decide_True by done. simpl. lia.
  - case_decide; [|done]. csimpl. rewrite filter_cons. case_decide; simpl; lia.
Qed.

Lemma filter_sublist {A} (P : A → Prop) `{!∀ x, Decision (P x)} (l k : list A) :
  l `sublist_of` k → filter P l `sublist_of` filter P k.
Proof.
  induction 1 as [|x l k _ IH|x l k _ IH]; [done| |]; rewrite !filter_cons; case_decide; try done;
    by constructor.
Qed.

Lemma filter_fmap_length {A B} (P : A → Prop) (Q : B → Prop) (f : A → B)
    `{!∀ x, Decision (P x), !∀ x, Decision (Q x)} (l : list A) :
  (∀ x, x ∈ l → Q (f x) → P x) → (length (filter Q (f <$> l)) ≤ length (filter P l))%nat.
Proof.
  induction l as [|x l IH]; intros Himp; [done|]. csimpl. rewrite !filter_cons.
  assert (∀ y, y ∈ l → Q (f y) → P y) as Htl by (intros y Hy; apply Himp; by right).
  specialize (IH Htl). destruct (decide (Q (f x))) as [Hq|Hq].
  - rewrite (decide_True (P := P x)) by (apply Himp; [left|done]). simpl. lia.
  - case_decide; simpl; lia.
Qed.
