(* ===== verification/Health.v ===== *)
(** * Provider health tracking

    Models src/internal/provider/health.go: the mutable [ProviderHealth]
    object that every [HealthTrackingProvider] owns, its constructor, the two
    recording operations and the three read operations.  The clock
    ([h.now()]) is an argument of each operation that reads it; the mutex makes
    each operation one atomic step, so an execution is a sequence of steps.

    [Breaker] is the abstract specification: the three-state circuit breaker
    (closed, open, half-open after the cooldown) that docs/routing-strategies.md
    and ADR 006 describe.  [health_refines_breaker] relates the two. *)

From S2P Require Import Prelude.

(** ** Data *)

Record HealthConfig := mkHealthConfig {
  FailureThreshold : Z;
  CooldownPeriod : Z;
}.

Record HealthStatus := mkHealthStatus {
  Healthy : bool;
  ConsecutiveFails : Z;
  LastSuccess : option Z;
  LastFailure : option Z;
  LastError : string;
}.

Record ProviderHealth := mkProviderHealth {
  consecutiveFails : Z;
  lastSuccess : Z;
  lastFailure : Z;
  lastError : string;
  healthy : bool;
  failureThreshold : Z;
  cooldownPeriod : Z;
}.

#[export] Instance ProviderHealth_eq_dec : EqDecision ProviderHealth.
Proof. solve_decision. Defined.

(** ** Operations *)

Definition NewProviderHealth (cfg : HealthConfig) : ProviderHealth :=
  let threshold := if FailureThreshold cfg <=? 0 then 5 else FailureThreshold cfg in
  let cooldown := if CooldownPeriod cfg <=? 0 then 30 * Second else CooldownPeriod cfg in
  {| consecutiveFails := 0;
     lastSuccess := 0;
     lastFailure := 0;
     lastError := "";
     healthy := true;
     failureThreshold := threshold;
     cooldownPeriod := cooldown |}.

Definition RecordSuccess (now : Z) (h : ProviderHealth) : ProviderHealth :=
  {| consecutiveFails := 0;
     lastSuccess := now;
     lastFailure := lastFailure h;
     lastError := lastError h;
     healthy := true;
     failureThreshold := failureThreshold h;
     cooldownPeriod := cooldownPeriod h |}.

(** [err] is [Some (err.Error())], or [None] for a nil error. *)
Definition RecordFailure (now : Z) (err : option string) (h : ProviderHealth)
    : bool * ProviderHealth :=
  let fails := wrap64 (consecutiveFails h + 1) in
  let hl := if failureThreshold h <=? fails then false else healthy h in
  (hl,
   {| consecutiveFails := fails;
      lastSuccess := lastSuccess h;
      lastFailure := now;
      lastError := match err with Some m => m | None => lastError h end;
      healthy := hl;
      failureThreshold := failureThreshold h;
      cooldownPeriod := cooldownPeriod h |}).

Definition IsHealthy (now : Z) (h : ProviderHealth) : bool :=
  if healthy h then true
  else cooldownPeriod h <=? time_Sub now (lastFailure h).

Definition HealthyStrict (h : ProviderHealth) : bool := healthy h.

Definition Status (now : Z) (h : ProviderHealth) : HealthStatus :=
  let hl :=
    if negb (healthy h) && (cooldownPeriod h <=? time_Sub now (lastFailure h))
    then true else healthy h in
  {| Healthy := hl;
     ConsecutiveFails := consecutiveFails h;
     LastError := lastError h;
     LastSuccess := if time_IsZero (lastSuccess h) then None else Some (lastSuccess h);
     LastFailure := if time_IsZero (lastFailure h) then None else Some (lastFailure h) |}.

(** ** Executions: sequences of recorded outcomes *)

Inductive Outcome :=
| OSuccess (at_ : Z)
| OFailure (at_ : Z) (err : option string).

Definition record (h : ProviderHealth) (o : Outcome) : ProviderHealth :=
  match o with
  | OSuccess t => RecordSuccess t h
  | OFailure t e => (RecordFailure t e h).2
  end.

Definition record_all (h : ProviderHealth) (os : list Outcome) : ProviderHealth :=
  foldl record h os.

(** ** The abstract circuit breaker *)

Module Breaker.
(** [Closed n]: traffic flows, [n] failures since the last success.
    [Open t]: tripped, [t] is the instant of the last failure. *)
Inductive state :=
| Closed (fails : Z)
| Open (since : Z).

Definition step (threshold : Z) (s : state) (o : Outcome) : state :=
  match o, s with
  | OSuccess _, _ => Closed 0
  | OFailure t _, Closed n => if threshold <=? n + 1 then Open t else Closed (n + 1)
  | OFailure t _, Open _ => Open t
  end.

Definition run (threshold : Z) (os : list Outcome) : state :=
  foldl (step threshold) (Closed 0) os.

(** Half-open is the open state once the cooldown has elapsed: the
    provider may be probed again. *)
Definition admits (cooldown now : Z) (s : state) : bool :=
  match s with
  | Closed _ => true
  | Open t => cooldown <=? now - t
  end.
End Breaker.

Definition breaker_of (h : ProviderHealth) : Breaker.state :=
  if healthy h then Breaker.Closed (consecutiveFails h) else Breaker.Open (lastFailure h).

(** ** Invariant *)

Definition health_wf (h : ProviderHealth) : Prop :=
  0 < failureThreshold h ≤ max64 ∧
  0 < cooldownPeriod h ≤ max64 ∧
  (healthy h = true → 0 ≤ consecutiveFails h < failureThreshold h).

Definition cfg_in64 (cfg : HealthConfig) : Prop :=
  in64 (FailureThreshold cfg) ∧ in64 (CooldownPeriod cfg).

Lemma NewProviderHealth_wf cfg : cfg_in64 cfg → health_wf (NewProviderHealth cfg).
Proof.
  unfold cfg_in64, health_wf, in64, min64, max64. intros [??].
  unfold NewProviderHealth, Second.
  cbn [failureThreshold cooldownPeriod healthy consecutiveFails]. repeat split; ztests.
Qed.

Lemma RecordSuccess_wf now h : health_wf h → health_wf (RecordSuccess now h).
Proof. unfold health_wf. simpl. intuition lia. Qed.

Lemma fails_wrap h :
  health_wf h → healthy h = true →
  wrap64 (consecutiveFails h + 1) = consecutiveFails h + 1.
Proof.
  intros (?&?&Hh) Ht. specialize (Hh Ht).
  apply wrap64_id. unfold in64, min64, max64 in *. lia.
Qed.

Lemma RecordFailure_wf now err h : health_wf h → health_wf (RecordFailure now err h).2.
Proof.
  intros Hwf. pose proof Hwf as (?&?&Hh). split; [done|]. split; [done|]. simpl.
  destruct (Z.leb_spec (failureThreshold h) (wrap64 (consecutiveFails h + 1))); [done|].
  intros Ht. rewrite fails_wrap in * by done. specialize (Hh Ht). lia.
Qed.

#[export] Hint Resolve NewProviderHealth_wf RecordSuccess_wf RecordFailure_wf : gw.

Lemma record_wf h o : health_wf h → health_wf (record h o).
Proof. destruct o; unfold record; eauto with gw. Qed.

Lemma record_all_wf h os : health_wf h → health_wf (record_all h os).
Proof. revert h. induction os as [|o os IH]; simpl; eauto using record_wf. Qed.

(** Configuration is never changed by an outcome. *)
Lemma record_cfg h o :
  failureThreshold (record h o) = failureThreshold h ∧
  cooldownPeriod (record h o) = cooldownPeriod h.
Proof. by destruct o. Qed.

Lemma record_all_cfg h os :
  failureThreshold (record_all h os) = failureThreshold h ∧
  cooldownPeriod (record_all h os) = cooldownPeriod h.
Proof.
  revert h. induction os as [|o os IH]; intros h; [done|]. simpl.
  destruct (IH (record h o)) as [-> ->]. apply record_cfg.
Qed.

(** ** Refinement *)

Lemma record_simulates h o :
  health_wf h →
  breaker_of (record h o) = Breaker.step (failureThreshold h) (breaker_of h) o.
Proof.
  intros Hwf. destruct o as [t|t e]; [done|].
  unfold breaker_of, record, RecordFailure. simpl.
  destruct (healthy h) eqn:Hh; simpl; [|by destruct (_ <=? _)].
  rewrite fails_wrap by done. by destruct (_ <=? _).
Qed.

Lemma record_all_simulates h os :
  health_wf h →
  breaker_of (record_all h os) = foldl (Breaker.step (failureThreshold h)) (breaker_of h) os.
Proof.
  revert h. induction os as [|o os IH]; intros h Hwf; [done|]. simpl.
  rewrite IH by (by apply record_wf). rewrite (proj1 (record_cfg h o)).
  by rewrite record_simulates.
Qed.

Lemma IsHealthy_admits now h :
  health_wf h →
  IsHealthy now h = Breaker.admits (cooldownPeriod h) now (breaker_of h).
Proof.
  intros (_&Hc&_). unfold IsHealthy, breaker_of. destruct (healthy h); [done|]. simpl.
  apply Bool.eq_iff_eq_true. rewrite !Z.leb_le. unfold time_Sub.
  apply clamp64_ge. unfold min64. lia.
Qed.

(** C12: the health tracker implements the three-state circuit breaker: after
    any sequence of recorded successes and failures the tracked state is the
    breaker's state, and [IsHealthy] answers exactly whether the breaker admits
    traffic at that instant (closed, or open with the cooldown elapsed). *)
Theorem health_refines_breaker (cfg : HealthConfig) (os : list Outcome) (now : Z)
    (Hcfg : cfg_in64 cfg) :
  let h0 := NewProviderHealth cfg in
  let h := record_all h0 os in
  breaker_of h = Breaker.run (failureThreshold h0) os ∧
  IsHealthy now h = Breaker.admits (cooldownPeriod h0) now (breaker_of h).
Proof.
  intros h0 h. assert (health_wf h0) as Hwf by eauto with gw. split.
  - by apply record_all_simulates.
  - rewrite IsHealthy_admits by (by apply record_all_wf).
    unfold h. by rewrite (proj2 (record_all_cfg h0 os)).
Qed.

Lemma health_refines_breaker_witness :
  let cfg := mkHealthConfig 2 (30 * Second) in
  let os := [OFailure 10 None; OFailure 20 None] in
  breaker_of (record_all (NewProviderHealth cfg) os) = Breaker.Open 20 ∧
  IsHealthy 21 (record_all (NewProviderHealth cfg) os) = false.
Proof.
  destruct (health_refines_breaker (mkHealthConfig 2 (30 * Second))
              [OFailure 10 None; OFailure 20 None] 21) as [H1 H2].
  - split; vm_compute; split; discriminate.
  - rewrite H1 in H2. split; [rewrite H1; reflexivity | rewrite H2; reflexivity].
Defined.

(** ** Exact trip condition *)

(** Failures since the last success (or since the start). *)
Fixpoint trailing_failures (n : Z) (os : list Outcome) : Z :=
  match os with
  | [] => n
  | OSuccess _ :: os => trailing_failures 0 os
  | OFailure _ _ :: os => trailing_failures (n + 1) os
  end.

Lemma breaker_open_iff thr os s n :
  0 < thr → 0 ≤ n →
  (match s with Breaker.Closed k => k = n ∧ n < thr | Breaker.Open _ => thr ≤ n end) →
  match foldl (Breaker.step thr) s os with
  | Breaker.Closed k => k = trailing_failures n os ∧ k < thr
  | Breaker.Open _ => thr ≤ trailing_failures n os
  end.
Proof.
  intros Hthr. revert s n. induction os as [|[t|t e] os IH]; intros s n Hn Hs; simpl;
    [by destruct s; simpl in *; intuition lia|..].
  - apply IH; lia.
  - apply IH; [lia|]. destruct s as [k|u]; simpl; [|lia].
    destruct (Z.leb_spec thr (k + 1)); lia.
Qed.

(** The strict health flag is lost exactly when the failures recorded since
    the last success reach the threshold, and [RecordFailure] returns that very
    flag, so the gauge it feeds agrees with [HealthyStrict]. *)
Theorem unhealthy_iff_threshold_reached (cfg : HealthConfig) (os : list Outcome)
    (now : Z) (err : option string) (Hcfg : cfg_in64 cfg) :
  let h0 := NewProviderHealth cfg in
  let h := record_all h0 os in
  (HealthyStrict h = false ↔ failureThreshold h0 ≤ trailing_failures 0 os) ∧
  (RecordFailure now err h).1 = HealthyStrict (RecordFailure now err h).2 ∧
  ((RecordFailure now err h).1 = false ↔ failureThreshold h0 ≤ trailing_failures 0 os + 1).
Proof.
  intros h0 h. assert (health_wf h0) as Hwf by eauto with gw.
  assert (∀ os', HealthyStrict (record_all h0 os') = false ↔
            failureThreshold h0 ≤ trailing_failures 0 os') as Hflag.
  { intros os'.
    pose proof (record_all_simulates h0 os' Hwf) as Hsim.
    pose proof (breaker_open_iff (failureThreshold h0) os' (breaker_of h0) 0) as Hb.
    destruct Hwf as (Ht&_&_). rewrite <- Hsim in Hb.
    specialize (Hb (proj1 Ht) (Z.le_refl 0) (conj eq_refl (proj1 Ht))).
    unfold HealthyStrict. unfold breaker_of in Hb at 1.
    destruct (healthy (record_all h0 os')); split; intros; [done|lia|lia|done]. }
  split; [apply Hflag|]. split; [done|].
  specialize (Hflag (os ++ [OFailure now err])).
  assert (∀ l n, trailing_failures n (l ++ [OFailure now err]) = trailing_failures n l + 1) as Htf.
  { induction l as [|[]]; intros; simpl; auto. }
  rewrite Htf in Hflag. rewrite <- Hflag.
  unfold record_all, HealthyStrict. by rewrite foldl_app.
Qed.

Lemma unhealthy_iff_threshold_reached_witness :
  HealthyStrict (record_all (NewProviderHealth (mkHealthConfig 0 0))
    (replicate 5 (OFailure 7 None))) = false.
Proof.
  apply (unhealthy_iff_threshold_reached (mkHealthConfig 0 0) (replicate 5 (OFailure 7 None))
           8 None); [split; vm_compute; split; discriminate | vm_compute; discriminate].
Defined.

(** [Status] is the snapshot [IsHealthy] would give, and reports an instant iff
    one was recorded. *)
Lemma Status_Healthy now h : Healthy (Status now h) = IsHealthy now h.
Proof. unfold Status, IsHealthy. simpl. by destruct (healthy h), (_ <=? _). Qed.
