(* ===== verification/GoStrings.v ===== *)
(** * Go strings

    The functions of Go's [strings], [strconv], [sort] and [fmt] packages that
    the gateway calls, on byte strings ([string] is a list of 8-bit
    characters, as a Go string is a list of bytes), and the lemmas the
    components share: decimal printing contains digits only, the part after
    the last separator of a formatted identifier can be recovered, sorting
    yields the sorted permutation. *)

From S2P Require Import Prelude.
From stdpp Require Import sorting.
From Stdlib Require Import Ascii.
Local Open Scope Z_scope.

(** ** Characters of a string *)

Fixpoint str_all (P : ascii → bool) (s : string) : bool :=
  match s with
  | EmptyString => true
  | String a s => P a && str_all P s
  end.

Definition is_digit (a : ascii) : bool :=
  (48 <=? Z.of_N (N_of_ascii a)) && (Z.of_N (N_of_ascii a) <=? 57).

Definition not_char (c a : ascii) : bool := negb (Ascii.eqb a c).

Lemma str_all_cons P a s : str_all P (String a s) = P a && str_all P s.
Proof. done. Qed.

Lemma str_all_app P s t : str_all P (s +:+ t) = str_all P s && str_all P t.
Proof.
  induction s as [|a s IH]; [done|].
  change (String a s +:+ t) with (String a (s +:+ t)).
  rewrite !str_all_cons, IH. by rewrite andb_assoc.
Qed.

Lemma str_all_impl (P Q : ascii → bool) s :
  (∀ a, P a = true → Q a = true) → str_all P s = true → str_all Q s = true.
Proof.
  intros HPQ. induction s as [|a s IH]; [done|].
  rewrite !str_all_cons, !andb_true_iff. naive_solver.
Qed.

Lemma app_length s t : String.length (s +:+ t) = (String.length s + String.length t)%nat.
Proof.
  induction s as [|a s IH]; [done|].
  change (String a s +:+ t) with (String a (s +:+ t)). simpl. by rewrite IH.
Qed.

Lemma app_inj_r_str s s' t : s +:+ t = s' +:+ t → s = s'.
Proof.
  revert s'. induction s as [|a s IH]; intros [|b s'] Heq; [done| | |].
  - apply (f_equal String.length) in Heq. rewrite !app_length in Heq. simpl in Heq. lia.
  - apply (f_equal String.length) in Heq. rewrite !app_length in Heq. simpl in Heq. lia.
  - injection Heq as -> Heq%IH. by f_equal.
Qed.

Lemma app_nil_r_str s : s +:+ "" = s.
Proof.
  induction s as [|a s IH]; [done|].
  change (String a s +:+ "") with (String a (s +:+ "")). by rewrite IH.
Qed.

Lemma app_assoc_str (s t u : string) : (s +:+ t) +:+ u = s +:+ (t +:+ u).
Proof.
  induction s as [|a s IH]; [done|].
  change (String a s +:+ t) with (String a (s +:+ t)).
  change (String a (s +:+ t) +:+ u) with (String a ((s +:+ t) +:+ u)).
  by rewrite IH.
Qed.

(** ** [strconv.Itoa] and the [%d] verb *)

Definition Itoa (z : Z) : string := pretty z.

Lemma pretty_N_char_digit x : is_digit (pretty_N_char x) = true.
Proof. unfold pretty_N_char. by repeat case_match. Qed.

Lemma pretty_N_go_digits x s :
  str_all is_digit s = true → str_all is_digit (pretty_N_go x s) = true.
Proof.
  revert s. induction (N.lt_wf_0 x) as [x _ IH]; intros s Hs.
  assert (x = 0 ∨ 0 < x)%N as [->|?] by lia; [by rewrite pretty_N_go_0|].
  rewrite pretty_N_go_step by done. apply IH; [by apply N.div_lt|].
  by rewrite str_all_cons, pretty_N_char_digit.
Qed.

Lemma Itoa_digits z : 0 ≤ z → str_all is_digit (Itoa z) = true.
Proof.
  intros Hz. destruct z as [|p|p]; [done| |lia].
  unfold Itoa, pretty, pretty_Z, pretty, pretty_positive, pretty, pretty_N.
  case_decide; [done|]. by apply pretty_N_go_digits.
Qed.

Lemma Itoa_inj z z' : Itoa z = Itoa z' → z = z'.
Proof. apply pretty_Z_inj. Qed.

Lemma digit_not_char c a :
  is_digit c = false → is_digit a = true → not_char c a = true.
Proof.
  intros Hc Ha. unfold not_char. destruct (Ascii.eqb_spec a c); [congruence|done].
Qed.

(** A printed non-negative number contains no separator. *)
Lemma Itoa_no_sep c z :
  0 ≤ z → is_digit c = false → str_all (not_char c) (Itoa z) = true.
Proof.
  intros Hz Hc. eapply str_all_impl, Itoa_digits; [|done].
  intros a. by apply digit_not_char.
Qed.

(** ** The part after the last separator *)

Fixpoint after_last (c : ascii) (s : string) : option string :=
  match s with
  | EmptyString => None
  | String a s =>
      match after_last c s with
      | Some t => Some t
      | None => if Ascii.eqb a c then Some s else None
      end
  end.

Lemma after_last_None c t : str_all (not_char c) t = true → after_last c t = None.
Proof.
  induction t as [|a t IH]; [done|]. rewrite str_all_cons, andb_true_iff.
  unfold not_char at 1. intros [Ha Ht]. simpl. rewrite IH by done.
  by destruct (Ascii.eqb a c).
Qed.

Lemma after_last_app c s t :
  str_all (not_char c) t = true → after_last c (s +:+ String c t) = Some t.
Proof.
  intros Ht. induction s as [|a s IH].
  - change ("" +:+ String c t) with (String c t). simpl.
    by rewrite after_last_None, Ascii.eqb_refl.
  - change (String a s +:+ String c t) with (String a (s +:+ String c t)).
    simpl. by rewrite IH.
Qed.

(** ** [strconv.Atoi]: optional sign, one or more decimal digits, [int64]
    range; anything else is an error *)

Definition digit_val (a : ascii) : Z := Z.of_N (N_of_ascii a) - 48.

Fixpoint digits_val (acc : Z) (s : string) : option Z :=
  match s with
  | EmptyString => Some acc
  | String a s => if is_digit a then digits_val (acc * 10 + digit_val a) s else None
  end.

Definition parse_digits (s : string) : option Z :=
  match s with EmptyString => None | _ => digits_val 0 s end.

Definition Atoi (s : string) : option Z :=
  let v := match s with
           | String "-" t => Z.opp <$> parse_digits t
           | String "+" t => parse_digits t
           | _ => parse_digits s
           end in
  match v with
  | Some z => if (min64 <=? z) && (z <=? max64) then Some z else None
  | None => None
  end.

Lemma digit_val_char x : (x < 10)%N → digit_val (pretty_N_char x) = Z.of_N x.
Proof.
  intros Hx. assert (x = 0 ∨ x = 1 ∨ x = 2 ∨ x = 3 ∨ x = 4 ∨ x = 5 ∨ x = 6 ∨ x = 7
    ∨ x = 8 ∨ x = 9)%N as Hc by lia.
  repeat destruct Hc as [->|Hc]; try reflexivity. by rewrite Hc.
Qed.

Lemma digits_val_pretty_N_go x s :
  digits_val 0 (pretty_N_go x s) = digits_val (Z.of_N x) s.
Proof.
  revert s. induction (N.lt_wf_0 x) as [x _ IH]; intros s.
  assert (x = 0 ∨ 0 < x)%N as [->|?] by lia; [by rewrite pretty_N_go_0|].
  rewrite pretty_N_go_step, IH by (done || by apply N.div_lt).
  simpl. rewrite pretty_N_char_digit, digit_val_char by (by apply N.mod_lt).
  f_equal. pose proof (N.div_mod x 10 ltac:(done)). lia.
Qed.

Lemma pretty_N_go_nonempty x s : (0 < x)%N ∨ s ≠ "" → pretty_N_go x s ≠ "".
Proof.
  revert s. induction (N.lt_wf_0 x) as [x _ IH]; intros s Hor.
  assert (x = 0 ∨ 0 < x)%N as [->|?] by lia.
  - rewrite pretty_N_go_0. destruct Hor; [lia|done].
  - rewrite pretty_N_go_step by done. apply IH; [by apply N.div_lt|]. by right.
Qed.

Lemma Itoa_pos_eq p : Itoa (Zpos p) = pretty_N_go (Npos p) "".
Proof.
  unfold Itoa, pretty, pretty_Z, pretty, pretty_positive, pretty, pretty_N. by case_decide.
Qed.

Lemma parse_digits_Itoa n : 0 ≤ n → parse_digits (Itoa n) = Some n.
Proof.
  intros Hn. destruct n as [|p|p]; [done| |lia]. rewrite Itoa_pos_eq.
  unfold parse_digits. pose proof (pretty_N_go_nonempty (Npos p) "") as Hne.
  destruct (pretty_N_go (Npos p) "") eqn:E; [by destruct Hne; [left|]|].
  rewrite <- E. by rewrite digits_val_pretty_N_go.
Qed.

(** ** Prefixes *)

Fixpoint CutPrefix (p s : string) : option string :=
  match p, s with
  | EmptyString, _ => Some s
  | String a p, String b s => if Ascii.eqb a b then CutPrefix p s else None
  | String _ _, EmptyString => None
  end.

Definition HasPrefix (s p : string) : bool :=
  match CutPrefix p s with Some _ => true | None => false end.

Definition TrimPrefix (s p : string) : string :=
  match CutPrefix p s with Some t => t | None => s end.

Lemma CutPrefix_Some p s t : CutPrefix p s = Some t ↔ s = p +:+ t.
Proof.
  revert s. induction p as [|a p IH]; intros s; simpl.
  - change ("" +:+ t) with t. naive_solver.
  - change (String a p +:+ t) with (String a (p +:+ t)).
    destruct s as [|b s]; [done|].
    destruct (Ascii.eqb_spec a b) as [<-|Hne]; rewrite ?IH; naive_solver.
Qed.

Lemma HasPrefix_true s p : HasPrefix s p = true ↔ ∃ t, s = p +:+ t.
Proof.
  unfold HasPrefix. destruct (CutPrefix p s) as [t|] eqn:E; split; try done.
  - intros _. exists t. by apply CutPrefix_Some.
  - intros [t Ht]. apply CutPrefix_Some in Ht. congruence.
Qed.

(** ** [strings.Join] *)

Fixpoint Join (ss : list string) (sep : string) : string :=
  match ss with
  | [] => ""
  | [s] => s
  | s :: ss => s +:+ sep +:+ Join ss sep
  end.

(** ** [sort.Strings] (byte-wise lexicographic order) *)

Definition sort_Strings (l : list string) : list string := merge_sort String.le l.

Lemma sort_Strings_perm l : sort_Strings l ≡ₚ l.
Proof. apply merge_sort_Permutation. Qed.

Lemma sort_Strings_sorted l : StronglySorted String.le (sort_Strings l).
Proof. apply StronglySorted_merge_sort; apply _. Qed.

(** Sorting forgets the order of its input. *)
Lemma sort_Strings_proper l1 l2 : l1 ≡ₚ l2 → sort_Strings l1 = sort_Strings l2.
Proof.
  intros Hp. apply (StronglySorted_unique String.le).
  - apply sort_Strings_sorted.
  - apply sort_Strings_sorted.
  - by rewrite !sort_Strings_perm.
Qed.

(** ** [strings.TrimSpace]: the UTF-8 encodings of Unicode's white space *)

Definition chr (n : N) : ascii := ascii_of_N n.
Definition bytes (l : list N) : string := foldr (λ n s, String (chr n) s) "" l.

Definition space_runes : list string :=
  bytes <$> ([[9]; [10]; [11]; [12]; [13]; [32]; [194; 133]; [194; 160]; [225; 154; 128];
    [226; 128; 128]; [226; 128; 129]; [226; 128; 130]; [226; 128; 131]; [226; 128; 132];
    [226; 128; 133]; [226; 128; 134]; [226; 128; 135]; [226; 128; 136]; [226; 128; 137];
    [226; 128; 138]; [226; 128; 168]; [226; 128; 169]; [226; 128; 175]; [226; 129; 159];
    [227; 128; 128]]%N).

(** The first pattern that is a prefix of [s], with the rest. *)
Fixpoint cut_any (ps : list string) (s : string) : option string :=
  match ps with
  | [] => None
  | p :: ps => match CutPrefix p s with Some t => Some t | None => cut_any ps s end
  end.

Fixpoint trim_front (ps : list string) (fuel : nat) (s : string) : string :=
  match fuel with
  | O => s
  | S fuel => match cut_any ps s with Some t => trim_front ps fuel t | None => s end
  end.

Definition TrimLeftSpace (s : string) : string :=
  trim_front space_runes (String.length s) s.

Definition TrimRightSpace (s : string) : string :=
  String.rev (trim_front (String.rev <$> space_runes) (String.length s) (String.rev s)).

Definition TrimSpace (s : string) : string := TrimRightSpace (TrimLeftSpace s).

(** ** Reversal *)

Lemma rev_app_acc s t : String.rev_app s t = String.rev s +:+ t.
Proof.
  revert t. induction s as [|a s IH]; intros t; [done|]. unfold String.rev. simpl.
  rewrite IH, (IH (String a "")), app_assoc_str. done.
Qed.
Lemma rev_cons a s : String.rev (String a s) = String.rev s +:+ String a "".
Proof. unfold String.rev. simpl. apply rev_app_acc. Qed.
Lemma rev_app s t : String.rev (s +:+ t) = String.rev t +:+ String.rev s.
Proof.
  induction s as [|a s IH]; simpl; [by rewrite app_nil_r_str|].
  change (String.rev (String a (s +:+ t)) = String.rev t +:+ String.rev (String a s)).
  by rewrite !rev_cons, IH, app_assoc_str.
Qed.
Lemma rev_rev s : String.rev (String.rev s) = s.
Proof. induction s as [|a s IH]; [done|]. by rewrite rev_cons, rev_app, IH. Qed.
Lemma rev_length s : String.length (String.rev s) = String.length s.
Proof.
  induction s as [|a s IH]; [done|]. rewrite rev_cons, app_length, IH. simpl. lia.
Qed.

(** ** [strings.EqualFold] against an ASCII string without [k] and [s] (the
    letters that have non-ASCII case variants) *)

Definition to_lower (a : ascii) : ascii :=
  let n := N_of_ascii a in
  if (65 <=? Z.of_N n) && (Z.of_N n <=? 90) then ascii_of_N (n + 32) else a.

Fixpoint str_map (f : ascii → ascii) (s : string) : string :=
  match s with EmptyString => "" | String a s => String (f a) (str_map f s) end.

Definition ToLower (s : string) : string := str_map to_lower s.

Lemma ToLower_app s t : ToLower (s +:+ t) = ToLower s +:+ ToLower t.
Proof.
  induction s as [|a s IH]; [done|].
  change (String a s +:+ t) with (String a (s +:+ t)). unfold ToLower in *. simpl. by rewrite IH.
Qed.

Definition EqualFold (s t : string) : bool := String.eqb (ToLower s) (ToLower t).

(** ** Byte slices of a string: [s[:n]] and [s[n:]] *)

Fixpoint str_take (n : nat) (s : string) : string :=
  match n, s with
  | S n, String a s => String a (str_take n s)
  | _, _ => ""
  end.

Fixpoint str_drop (n : nat) (s : string) : string :=
  match n, s with
  | S n, String _ s => str_drop n s
  | _, _ => s
  end.

Lemma str_take_drop n s : str_take n s +:+ str_drop n s = s.
Proof.
  revert s. induction n as [|n IH]; intros [|a s]; try done. simpl.
  change (String a (str_take n s) +:+ str_drop n s)
    with (String a (str_take n s +:+ str_drop n s)). by rewrite IH.
Qed.

Lemma str_take_length n s : (String.length (str_take n s) = n `min` String.length s)%nat.
Proof. revert s. induction n as [|n IH]; intros [|a s]; simpl; try done. by rewrite IH. Qed.

Lemma str_take_all n s : (String.length s ≤ n)%nat → str_take n s = s.
Proof. revert n. induction s as [|a s IH]; intros [|n] Hn; simpl in *; try done; [lia|]. rewrite IH by lia. done. Qed.

Lemma str_take_take n m s : (n ≤ m)%nat → str_take n (str_take m s) = str_take n s.
Proof.
  revert m s. induction n as [|n IH]; intros [|m] [|a s] Hn; simpl; try done; [lia|]. rewrite IH by lia. done.
Qed.

(** ** [strconv.Quote] ([%q])

    Printable ASCII is kept, the quote and the backslash are escaped, control
    characters take Go's escapes.  Bytes from 0x80 on are kept, which is what
    Go does for well-formed printable UTF-8 text. *)

Definition byte_ (n : nat) : ascii := ascii_of_nat n.
Definition hex_digit (n : nat) : ascii := byte_ (if (n <? 10)%nat then 48 + n else 87 + n).

Definition quote_byte (a : ascii) : string :=
  let n := nat_of_ascii a in
  let esc c := String (byte_ 92) (String c EmptyString) in
  if (n =? 34)%nat then esc (byte_ 34)
  else if (n =? 92)%nat then esc (byte_ 92)
  else if (n =? 7)%nat then esc "a"%char
  else if (n =? 8)%nat then esc "b"%char
  else if (n =? 12)%nat then esc "f"%char
  else if (n =? 10)%nat then esc "n"%char
  else if (n =? 13)%nat then esc "r"%char
  else if (n =? 9)%nat then esc "t"%char
  else if (n =? 11)%nat then esc "v"%char
  else if (n <? 32)%nat || (n =? 127)%nat then
    String (byte_ 92) (String "x" (String (hex_digit (n / 16)) (String (hex_digit (n mod 16)) EmptyString)))
  else String a EmptyString.

Fixpoint quote_body (s : string) : string :=
  match s with
  | EmptyString => EmptyString
  | String a s => quote_byte a +:+ quote_body s
  end.

Definition Quote (s : string) : string :=
  String (byte_ 34) (quote_body s +:+ String (byte_ 34) EmptyString).

(** ** [strings.Contains] *)

Fixpoint Contains (s sub : string) : bool :=
  HasPrefix s sub || match s with EmptyString => false | String _ t => Contains t sub end.
