(* ===== verification/Float64.v ===== *)
(** * IEEE-754 double precision

    Go's [float64] arithmetic, through the executable specification of the
    standard library ([SpecFloat], precision 53, maximal exponent 1024).  The
    routing strategies and the retry back-off compute with it.

    [units x] is the exact value of [x] in multiples of [2^-1074], the
    smallest positive double; every finite double is a whole number of units,
    so statements about values need no rationals.  The main facts are that
    rounding is monotone with respect to representable bounds
    ([f64_mul_le], [f64_mul_ge]) and exact on representable results
    ([f64_add_exact], [f64_of_Z_exact]). *)

From S2P Require Import Prelude.
From Stdlib Require Import SpecFloat.
Local Open Scope Z_scope.

Abbreviation f64 := spec_float.

Definition f64_add : f64 → f64 → f64 := SFadd 53 1024.
Definition f64_sub : f64 → f64 → f64 := SFsub 53 1024.
Definition f64_mul : f64 → f64 → f64 := SFmul 53 1024.
Definition f64_div : f64 → f64 → f64 := SFdiv 53 1024.
Definition f64_neg : f64 → f64 := SFopp.
Definition f64_ltb : f64 → f64 → bool := SFltb.
Definition f64_eqb : f64 → f64 → bool := SFeqb.

(** [float64(n)] for an integer [n]. *)
Definition f64_of_Z (n : Z) : f64 := binary_normalize 53 1024 n 0 false.
(** [m * 2^e], rounded. *)
Definition f64_dyadic (m e : Z) : f64 := binary_normalize 53 1024 m e false.
(** [math.Pow(2, float64(n))]. *)
Definition f64_pow2 (n : Z) : f64 := f64_dyadic 1 n.
Definition f64_inf : f64 := S754_infinity false.
Definition f64_zero : f64 := S754_zero false.
Definition f64_IsNaN (x : f64) : bool := match x with S754_nan => true | _ => false end.
Definition f64_IsInf (x : f64) : bool := match x with S754_infinity _ => true | _ => false end.

#[export] Instance f64_eq_dec : EqDecision f64.
Proof. solve_decision. Defined.

(** [int64(x)]: truncation toward zero.  Go leaves a conversion whose value
    does not fit to the implementation; the value here is amd64's. *)
Definition f64_trunc (x : f64) : Z :=
  match x with
  | S754_finite s m e =>
      let a := if 0 <=? e then Z.pos m * 2 ^ e else Z.pos m / 2 ^ (- e) in
      let v := if s then - a else a in
      if (min64 <=? v) && (v <=? max64) then v else min64
  | S754_zero _ => 0
  | _ => min64
  end.

Definition units (x : f64) : Z :=
  match x with
  | S754_finite s m e => (if s then -1 else 1) * (Z.pos m * 2 ^ (e + 1074))
  | _ => 0
  end.

Definition one_unit : Z := 2 ^ 1074.

(** Finite, non-negative and in canonical form. *)
Definition nonneg_fin (x : f64) : Prop :=
  match x with
  | S754_zero false => True
  | S754_finite false m e =>
      e = fexp 53 1024 (Z.log2 (Z.pos m) + 1 + e) ∧ e ≤ 971
  | _ => False
  end.

(** ** Digits and shifts *)

Lemma digits2_log2 m : Z.pos (digits2_pos m) = Z.log2 (Z.pos m) + 1.
Proof.
  induction m as [p IH|p IH|]; [| |reflexivity]; simpl digits2_pos; rewrite Pos2Z.inj_succ, IH.
  - rewrite Pos2Z.inj_xI, Z.log2_succ_double by lia. lia.
  - rewrite Pos2Z.inj_xO, Z.log2_double by lia. lia.
Qed.

Lemma pow2_pos k : 0 ≤ k → 0 < 2 ^ k.
Proof. intros. by apply Z.pow_pos_nonneg. Qed.

Lemma iter_pos_nat {A} (f : A → A) p x : iter_pos f p x = Nat.iter (Pos.to_nat p) f x.
Proof.
  revert x. induction p as [p IH|p IH|]; intros x; simpl iter_pos; [| |reflexivity].
  - rewrite !IH, Pos2Nat.inj_xI. rewrite <-Nat.iter_succ_r, <-Nat.iter_add. f_equal. lia.
  - rewrite !IH, Pos2Nat.inj_xO, <-Nat.iter_add. f_equal. lia.
Qed.

(** Shifting right by [k] keeps the quotient, and records inexactness. *)
Lemma shr_1_iter M (k : nat) :
  0 ≤ M →
  let r := Nat.iter k shr_1 (Build_shr_record M false false) in
  shr_m r = M / 2 ^ Z.of_nat k ∧
  (shr_r r = false ∧ shr_s r = false ↔ M mod 2 ^ Z.of_nat k = 0).
Proof.
  intros HM. induction k as [|k IH]; cbn zeta.
  { simpl. change (2 ^ Z.of_nat 0) with 1. by rewrite Z.div_1_r, Z.mod_1_r. }
  rewrite Nat.iter_succ.
  destruct (Nat.iter k shr_1 _) as [m r s]. cbn [shr_m shr_r shr_s] in IH.
  destruct IH as [Hm Hex].
  assert (2 ^ Z.of_nat (S k) = 2 ^ Z.of_nat k * 2) as Hp
    by (rewrite Nat2Z.inj_succ, Z.pow_succ_r; lia).
  pose proof (pow2_pos (Z.of_nat k) ltac:(lia)) as Hpos.
  assert (0 ≤ m) by (rewrite Hm; apply Z.div_pos; lia).
  assert (M / 2 ^ Z.of_nat (S k) = m / 2) as Hd by (rewrite Hp, Hm, Z.div_div by lia; done).
  assert (M mod 2 ^ Z.of_nat (S k) = M mod 2 ^ Z.of_nat k + 2 ^ Z.of_nat k * (m mod 2)) as Hmod
    by (rewrite Hp, Hm, Z.rem_mul_r by lia; done).
  rewrite Hd, Hmod.
  pose proof (Z.mod_pos_bound M (2 ^ Z.of_nat k) Hpos).
  assert (∀ b, M mod 2 ^ Z.of_nat k + 2 ^ Z.of_nat k * b = 0 ↔
    M mod 2 ^ Z.of_nat k = 0 ∧ b = 0 ∨ b < 0 ∧ M mod 2 ^ Z.of_nat k = 2 ^ Z.of_nat k * - b) as Hb
    by (intros b; nia).
  rewrite Hb, <-Hex. clear Hb Hex Hmod Hd.
  destruct m as [|[p|p|]|p]; try lia; cbn [shr_1 shr_m shr_r shr_s]; rewrite orb_false_iff.
  - change (0 mod 2) with 0. split; [done|]. naive_solver lia.
  - rewrite Pos2Z.inj_xI. assert ((2 * Z.pos p + 1) mod 2 = 1) as ->
      by (symmetry; apply Z.mod_unique with (Z.pos p); lia).
    split; [apply Z.div_unique with 1; lia|]. naive_solver lia.
  - rewrite Pos2Z.inj_xO. assert ((2 * Z.pos p) mod 2 = 0) as ->
      by (symmetry; apply Z.mod_unique with (Z.pos p); lia).
    split; [apply Z.div_unique with 0; lia|]. naive_solver lia.
  - change (1 mod 2) with 1. split; [done|]. naive_solver lia.
Qed.

(** The mantissa and exponent after rounding, before the final carry. *)
Definition pack (s : bool) (m1 e1 : Z) : f64 :=
  if m1 =? 0 then S754_zero s
  else if m1 =? 2 ^ 53 then
    (if e1 + 1 <=? 971 then S754_finite s (2 ^ 52) (e1 + 1) else S754_infinity s)
  else if e1 <=? 971 then S754_finite s (Z.to_pos m1) e1 else S754_infinity s.

(** Rounding a mantissa [M] whose exponent does not exceed the canonical one:
    the result is the quotient at the canonical exponent or its successor,
    and the quotient itself when it is exact. *)
Lemma shr_fexp_exact M e :
  0 ≤ M → fexp 53 1024 (Zdigits2 M + e) ≤ e →
  shr_fexp 53 1024 M e loc_Exact = (Build_shr_record M false false, e).
Proof.
  intros HM Hf. unfold shr_fexp, shr. simpl shr_record_of_loc.
  destruct (fexp 53 1024 (Zdigits2 M + e) - e) eqn:E; [done|lia|done].
Qed.

Lemma shr_fexp_spec M e :
  0 < M → e ≤ fexp 53 1024 (Z.log2 M + 1 + e) →
  let e1 := fexp 53 1024 (Z.log2 M + 1 + e) in
  ∃ r, shr_fexp 53 1024 M e loc_Exact = (r, e1) ∧ shr_m r = M / 2 ^ (e1 - e) ∧
    (loc_of_shr_record r = loc_Exact ↔ M mod 2 ^ (e1 - e) = 0).
Proof.
  intros HM He e1. unfold shr_fexp. destruct M as [|p|p]; try lia. cbn [Zdigits2].
  rewrite digits2_log2. fold e1. simpl shr_record_of_loc. unfold shr.
  destruct (e1 - e) as [|k|k] eqn:Ek; try lia.
  - eexists. split; [f_equal; lia|]. change (2 ^ 0) with 1. simpl shr_m.
    by rewrite Z.div_1_r, Z.mod_1_r.
  - rewrite iter_pos_nat. pose proof (shr_1_iter (Z.pos p) (Pos.to_nat k) ltac:(lia)) as [H1 H2].
    rewrite positive_nat_Z in H1, H2.
    eexists. split; [f_equal; lia|]. split; [done|].
    rewrite <-H2. destruct (Nat.iter _ _ _) as [m [] []]; simpl; naive_solver.
Qed.

Lemma round_nearest_even_between q l :
  q ≤ round_nearest_even q l ≤ q + 1 ∧ (l = loc_Exact → round_nearest_even q l = q).
Proof. destruct l as [|[]]; simpl; try (split; [lia|done]). destruct (Z.even q); split; [lia|done|lia|done]. Qed.

Lemma fexp_max x : fexp 53 1024 x = Z.max (x - 53) (-1074).
Proof. reflexivity. Qed.

Lemma round_form s M e :
  0 < M → e ≤ fexp 53 1024 (Z.log2 M + 1 + e) →
  let e1 := fexp 53 1024 (Z.log2 M + 1 + e) in
  ∃ m1, binary_round_aux 53 1024 s M e loc_Exact = pack s m1 e1 ∧
    M / 2 ^ (e1 - e) ≤ m1 ≤ M / 2 ^ (e1 - e) + 1 ∧ 0 ≤ m1 ≤ 2 ^ 53 ∧
    (M mod 2 ^ (e1 - e) = 0 → m1 = M / 2 ^ (e1 - e)).
Proof.
  intros HM He e1. unfold binary_round_aux.
  destruct (shr_fexp_spec M e HM He) as (r&->&Hq&Hloc). fold e1 in Hq, Hloc |- *.
  destruct (round_nearest_even_between (shr_m r) (loc_of_shr_record r)) as [Hbt Hex].
  set (m1 := round_nearest_even _ _) in *. rewrite Hq in Hbt, Hex.
  assert (0 < 2 ^ (e1 - e)) by (apply pow2_pos; lia).
  assert (0 ≤ M / 2 ^ (e1 - e)) by (apply Z.div_pos; lia).
  assert (M / 2 ^ (e1 - e) < 2 ^ 53) as Hlt.
  { apply Z.div_lt_upper_bound; [done|]. rewrite <-Z.pow_add_r by lia.
    eapply Z.lt_le_trans; [apply Z.log2_spec, HM|]. apply Z.pow_le_mono_r; [lia|].
    unfold e1. rewrite fexp_max. lia. }
  exists m1. split; [|split; [done|split; [lia|intros; by apply Hex, Hloc]]].
  assert (-1074 ≤ e1) by (unfold e1; rewrite fexp_max; lia).
  clearbody e1. unfold pack. destruct (Z.eqb_spec m1 0) as [E0|E0].
  { rewrite shr_fexp_exact; rewrite E0; [done|lia|]. rewrite fexp_max.
    change (Zdigits2 0) with 0. lia. }
  destruct (Z.eqb_spec m1 (2 ^ 53)) as [E1|E1].
  { rewrite E1. unfold shr_fexp. rewrite fexp_max. change (Zdigits2 (2 ^ 53)) with 54.
    replace (Z.max (54 + e1 - 53) (-1074) - e1) with 1 by lia. reflexivity. }
  rewrite shr_fexp_exact; [|lia|].
  - destruct m1 as [|p|p]; [lia|reflexivity|lia].
  - destruct m1 as [|p|p]; [lia| |lia]. cbn [Zdigits2]. rewrite digits2_log2, fexp_max.
    assert (Z.log2 (Z.pos p) < 53) by (apply Z.log2_lt_pow2; lia). lia.
Qed.

(** ** Monotonicity with respect to representable bounds

    [S] shifts every exponent in use to a non-negative one. *)

Definition S_ : Z := 2200.

Lemma round_le M e c E :
  0 < M → - S_ ≤ e → e ≤ fexp 53 1024 (Z.log2 M + 1 + e) →
  0 < c < 2 ^ 53 → -1074 ≤ E → M * 2 ^ (e + S_) ≤ c * 2 ^ (E + S_) →
  let e1 := fexp 53 1024 (Z.log2 M + 1 + e) in
  ∀ m1, m1 ≤ M / 2 ^ (e1 - e) + 1 → (M mod 2 ^ (e1 - e) = 0 → m1 = M / 2 ^ (e1 - e)) →
    e1 ≤ E ∧ m1 ≤ c * 2 ^ (E - e1).
Proof.
  intros HM HeS He Hc HE Hle e1 m1 Hbt Hex.
  assert (e1 ≤ E) as HeE.
  { unfold e1. rewrite fexp_max. apply Z.max_lub; [|done].
    destruct (Z.le_gt_cases (Z.log2 M + 1 + e - 53) E) as [|Hgt]; [done|exfalso].
    assert (2 ^ (Z.log2 M) ≤ M) by (apply Z.log2_spec; done).
    assert (c * 2 ^ (E + S_) < 2 ^ (53 + (E + S_))).
    { rewrite (Z.pow_add_r 2 53) by (unfold S_ in *; lia). apply Z.mul_lt_mono_pos_r; [|lia].
      apply pow2_pos. unfold S_. lia. }
    assert (2 ^ (53 + (E + S_)) ≤ 2 ^ (Z.log2 M + (e + S_))).
    { apply Z.pow_le_mono_r; lia. }
    assert (2 ^ (Z.log2 M + (e + S_)) ≤ M * 2 ^ (e + S_)).
    { pose proof (Z.log2_nonneg M). rewrite (Z.pow_add_r 2 (Z.log2 M)) by (unfold S_ in *; lia).
      apply Z.mul_le_mono_nonneg_r; [|done]. pose proof (pow2_pos (e + S_)). unfold S_ in *. lia. }
    lia. }
  split; [done|].
  assert (0 < 2 ^ (e1 - e)) as Hk by (apply pow2_pos; lia).
  assert (M ≤ c * 2 ^ (E - e1) * 2 ^ (e1 - e)) as HMc.
  { rewrite <-Z.mul_assoc, <-Z.pow_add_r by lia. replace (E - e1 + (e1 - e)) with (E - e) by lia.
    apply (Z.mul_le_mono_pos_r _ _ (2 ^ (e + S_))); [apply pow2_pos; lia|].
    rewrite <-Z.mul_assoc, <-Z.pow_add_r by (unfold S_ in *; lia).
    by replace (E - e + (e + S_)) with (E + S_) by lia. }
  destruct (Z.eq_dec (M mod 2 ^ (e1 - e)) 0) as [H0|H0].
  - rewrite (Hex H0). apply Z.div_le_upper_bound; lia.
  - assert (M / 2 ^ (e1 - e) < c * 2 ^ (E - e1)); [|lia].
    pose proof (Z.mod_pos_bound M _ Hk). pose proof (Z.div_mod M (2 ^ (e1 - e)) ltac:(lia)). nia.
Qed.

Lemma round_ge M e c E :
  0 < M → - S_ ≤ e → e ≤ fexp 53 1024 (Z.log2 M + 1 + e) →
  0 < c < 2 ^ 53 → -1074 ≤ E → c * 2 ^ (E + S_) ≤ M * 2 ^ (e + S_) →
  let e1 := fexp 53 1024 (Z.log2 M + 1 + e) in
  ∀ m1, M / 2 ^ (e1 - e) ≤ m1 → c * 2 ^ (E + S_) ≤ m1 * 2 ^ (e1 + S_).
Proof.
  intros HM HeS He Hc HE Hle e1 m1 Hm1.
  assert (0 < 2 ^ (e1 - e)) as Hk by (apply pow2_pos; lia).
  assert (0 < 2 ^ (e1 + S_)) as Hs by (apply pow2_pos; lia).
  destruct (Z.le_gt_cases e1 E) as [HeE|HeE].
  - assert (c * 2 ^ (E - e1) ≤ M / 2 ^ (e1 - e)) as Hq.
    { apply Z.div_le_lower_bound; [done|].
      apply (Z.mul_le_mono_pos_r _ _ (2 ^ (e + S_))); [apply pow2_pos; lia|].
      etrans; [|exact Hle]. apply Z.eq_le_incl.
      replace (2 ^ (E + S_)) with (2 ^ (E - e1) * 2 ^ (e1 - e) * 2 ^ (e + S_)); [lia|].
      rewrite <-!Z.pow_add_r by (unfold S_ in *; lia). f_equal. lia. }
    replace (2 ^ (E + S_)) with (2 ^ (E - e1) * 2 ^ (e1 + S_));
      [nia|]. rewrite <-Z.pow_add_r by (unfold S_ in *; lia). f_equal. lia.
  - assert (e1 = Z.log2 M + 1 + e - 53) as He1 by (unfold e1 in *; rewrite fexp_max in *; lia).
    assert (2 ^ 52 ≤ M / 2 ^ (e1 - e)).
    { apply Z.div_le_lower_bound; [done|]. rewrite <-Z.pow_add_r by lia.
      etrans; [|apply Z.log2_spec; done]. apply Z.pow_le_mono_r; lia. }
    assert (2 ^ (E + S_) * 2 ≤ 2 ^ (e1 + S_)).
    { change 2 with (2 ^ 1) at 2. rewrite <-Z.pow_add_r by (unfold S_ in *; lia).
      apply Z.pow_le_mono_r; lia. }
    pose proof (pow2_pos (E + S_) ltac:(unfold S_ in *; lia)).
    change (2 ^ 53) with (2 * 2 ^ 52) in Hc. nia.
Qed.

(** ** From mantissas to floats *)

Definition US : Z := 2 ^ (S_ - 1074).

Lemma US_pos : 0 < US.
Proof. apply pow2_pos. unfold S_. lia. Qed.

Lemma US_units e : -1074 ≤ e → 2 ^ (e + 1074) * US = 2 ^ (e + S_).
Proof.
  intros. unfold US. rewrite <-Z.pow_add_r by (unfold S_; lia). f_equal. lia.
Qed.

Lemma pack_units m1 e1 :
  0 ≤ m1 ≤ 2 ^ 53 → -1074 ≤ e1 → e1 + (if m1 =? 2 ^ 53 then 1 else 0) ≤ 971 →
  (e1 = -1074 ∨ 2 ^ 52 ≤ m1) →
  nonneg_fin (pack false m1 e1) ∧ units (pack false m1 e1) = m1 * 2 ^ (e1 + 1074).
Proof.
  intros Hm He Hov Hcan. unfold pack.
  destruct (Z.eqb_spec m1 0) as [->|H0]; [done|].
  destruct (Z.eqb_spec m1 (2 ^ 53)) as [->|H1].
  - destruct (Z.leb_spec (e1 + 1) 971); [|lia]. unfold nonneg_fin, units. split.
    + change (Z.log2 (Z.pos (2 ^ 52))) with 52. rewrite fexp_max. lia.
    + change (Z.pos (2 ^ 52)) with (2 ^ 52). replace (e1 + 1 + 1074) with (1 + (e1 + 1074)) by lia.
      rewrite (Z.pow_add_r 2 1) by lia. lia.
  - destruct (Z.leb_spec e1 971); [|lia]. unfold nonneg_fin, units.
    rewrite Z2Pos.id by lia. split; [|lia]. split; [|lia]. rewrite fexp_max.
    assert (Z.log2 m1 < 53) by (apply Z.log2_lt_pow2; lia).
    destruct Hcan as [Hc|Hc]; [lia|].
    assert (52 ≤ Z.log2 m1) by (by apply Z.log2_le_pow2; lia). lia.
Qed.

Section Rounding.
Context (M e : Z).
Context (HM : 0 < M) (HeS : - S_ ≤ e) (He : e ≤ fexp 53 1024 (Z.log2 M + 1 + e)).
Let r := binary_round_aux 53 1024 false M e loc_Exact.

Lemma round_canonical :
  let e1 := fexp 53 1024 (Z.log2 M + 1 + e) in
  e1 = -1074 ∨ 2 ^ 52 ≤ M / 2 ^ (e1 - e).
Proof using HM He.
  intros e1. unfold e1. rewrite fexp_max in *.
  destruct (Z.le_gt_cases (Z.log2 M + 1 + e - 53) (-1074)); [left; lia|right].
  rewrite Z.max_l by lia. apply Z.div_le_lower_bound; [apply pow2_pos; lia|].
  rewrite <-Z.pow_add_r by lia. etrans; [|apply Z.log2_spec; done].
  apply Z.pow_le_mono_r; lia.
Qed.

Lemma round_units_le c E :
  0 < c < 2 ^ 53 → -1074 ≤ E ≤ 971 → M * 2 ^ (e + S_) ≤ c * 2 ^ (E + S_) →
  nonneg_fin r ∧ units r * US ≤ c * 2 ^ (E + S_).
Proof using HM HeS He.
  intros Hc HE Hle. unfold r.
  destruct (round_form false M e HM He) as (m1&->&Hbt&Hm1&Hex).
  destruct (round_le M e c E HM HeS He Hc ltac:(lia) Hle m1 ltac:(lia) Hex) as [HeE Hup].
  assert (-1074 ≤ fexp 53 1024 (Z.log2 M + 1 + e)) as Hemin by (rewrite fexp_max; lia).
  pose proof round_canonical as Hcan. cbn zeta in Hcan.
  set (e1 := fexp 53 1024 (Z.log2 M + 1 + e)) in *.
  assert (0 < 2 ^ (E - e1)) by (apply pow2_pos; lia).
  destruct (pack_units m1 e1) as [Hnf Hu]; [done|done| |destruct Hcan; [by left|right; lia]|].
  { destruct (Z.eqb_spec m1 (2 ^ 53)) as [E2|]; [|lia].
    destruct (Z.eq_dec e1 E) as [<-|]; [|lia]. rewrite Z.sub_diag in Hup. lia. }
  split; [done|]. rewrite Hu, <-Z.mul_assoc, US_units by done.
  replace (E + S_) with ((E - e1) + (e1 + S_)) by lia.
  rewrite (Z.pow_add_r 2 (E - e1)) by (unfold S_ in *; lia).
  pose proof (pow2_pos (e1 + S_) ltac:(unfold S_ in *; lia)). nia.
Qed.

Lemma round_units_ge c E :
  nonneg_fin r → 0 < c < 2 ^ 53 → -1074 ≤ E → c * 2 ^ (E + S_) ≤ M * 2 ^ (e + S_) →
  c * 2 ^ (E + S_) ≤ units r * US.
Proof using HM HeS He.
  unfold r. intros Hnf Hc HE Hle.
  destruct (round_form false M e HM He) as (m1&Hr&Hbt&Hm1&_). rewrite Hr in *.
  pose proof (round_ge M e c E HM HeS He Hc HE Hle m1 ltac:(lia)) as Hge.
  assert (-1074 ≤ fexp 53 1024 (Z.log2 M + 1 + e)) as Hemin by (rewrite fexp_max; lia).
  pose proof round_canonical as Hcan. cbn zeta in Hcan.
  set (e1 := fexp 53 1024 (Z.log2 M + 1 + e)) in *.
  destruct (pack_units m1 e1) as [_ Hu]; [done|done| |destruct Hcan; [by left|right; lia]|].
  { unfold pack in Hnf. destruct (Z.eqb_spec m1 0) as [E0|E0].
    - exfalso. rewrite E0 in Hge. pose proof (pow2_pos (E + S_) ltac:(unfold S_; lia)). lia.
    - destruct (m1 =? 2 ^ 53).
      + by destruct (Z.leb_spec (e1 + 1) 971).
      + destruct (Z.leb_spec e1 971); [lia|done]. }
  by rewrite Hu, <-Z.mul_assoc, US_units.
Qed.

Lemma round_units_exact c E :
  0 < c < 2 ^ 53 → -1074 ≤ E ≤ 971 → M * 2 ^ (e + S_) = c * 2 ^ (E + S_) →
  nonneg_fin r ∧ units r = c * 2 ^ (E + 1074).
Proof using HM HeS He.
  intros Hc HE Heq. destruct (round_units_le c E Hc HE ltac:(lia)) as [Hnf Hle].
  split; [done|]. pose proof (round_units_ge c E Hnf Hc ltac:(lia) ltac:(lia)) as Hge.
  rewrite <-US_units in Hle, Hge by lia. pose proof US_pos. nia.
Qed.
End Rounding.

(** ** Arithmetic on non-negative doubles *)

Lemma nonneg_fin_finite m e :
  nonneg_fin (S754_finite false m e) →
  Z.pos m < 2 ^ 53 ∧ -1074 ≤ e ≤ 971 ∧ e = fexp 53 1024 (Z.log2 (Z.pos m) + 1 + e) ∧
  units (S754_finite false m e) * US = Z.pos m * 2 ^ (e + S_).
Proof.
  unfold nonneg_fin, units. intros [Hc He]. rewrite fexp_max in Hc |- *.
  split; [apply Z.log2_lt_pow2; lia|]. split; [lia|]. split; [done|].
  rewrite <-US_units by lia. lia.
Qed.

(** A non-negative double is zero or a positive mantissa with its exponent. *)
Lemma nonneg_fin_inv x :
  nonneg_fin x →
  (x = S754_zero false ∧ units x = 0) ∨
  (∃ m e, x = S754_finite false m e ∧ 0 < Z.pos m < 2 ^ 53 ∧ -1074 ≤ e ≤ 971 ∧
     e = fexp 53 1024 (Z.log2 (Z.pos m) + 1 + e) ∧
     0 < units x ∧ units x * US = Z.pos m * 2 ^ (e + S_)).
Proof.
  intros Hx. destruct x as [[]|[]| |[] m e]; try done; [by left|right].
  destruct (nonneg_fin_finite m e Hx) as (?&?&?&?).
  exists m, e. repeat (split; [done || lia|]). split; [|done].
  unfold units. pose proof (pow2_pos (e + 1074) ltac:(lia)). lia.
Qed.

Lemma units_nonneg x : nonneg_fin x → 0 ≤ units x.
Proof. intros [[_ ->]|(?&?&_&_&_&_&?&_)]%nonneg_fin_inv; lia. Qed.

(** The unrounded product of two canonical doubles has an exponent no
    greater than its canonical one. *)
Lemma mul_exponent mx ex my ey :
  ex = fexp 53 1024 (Z.log2 (Z.pos mx) + 1 + ex) → ey = fexp 53 1024 (Z.log2 (Z.pos my) + 1 + ey) →
  ex + ey ≤ fexp 53 1024 (Z.log2 (Z.pos (mx * my)) + 1 + (ex + ey)).
Proof.
  rewrite !fexp_max. intros Hx Hy. rewrite Pos2Z.inj_mul.
  pose proof (Z.log2_mul_below (Z.pos mx) (Z.pos my) ltac:(lia) ltac:(lia)).
  pose proof (Z.log2_nonneg (Z.pos mx)). pose proof (Z.log2_nonneg (Z.pos my)). lia.
Qed.

Section Mul.
Context (x y : f64) (Hx : nonneg_fin x) (Hy : nonneg_fin y).

Lemma f64_mul_cases :
  (units x * units y = 0 ∧ f64_mul x y = S754_zero false) ∨
  (∃ M e, 0 < M ∧ - S_ ≤ e ∧ e ≤ fexp 53 1024 (Z.log2 M + 1 + e) ∧
    f64_mul x y = binary_round_aux 53 1024 false M e loc_Exact ∧
    units x * units y * US = M * 2 ^ (e + S_) * one_unit).
Proof using Hx Hy.
  destruct (nonneg_fin_inv x Hx) as [[-> ?]|(mx&ex&->&Hmx&Hex&Hcx&?&Hux)].
  { left. split; [done|].
    by destruct (nonneg_fin_inv y Hy) as [[-> ?]|(my&ey&->&_)]. }
  destruct (nonneg_fin_inv y Hy) as [[-> ?]|(my&ey&->&Hmy&Hey&Hcy&?&Huy)].
  { left. split; [simpl; lia|done]. }
  right. exists (Z.pos (mx * my)), (ex + ey). split; [done|]. split; [unfold S_; lia|].
  split; [by apply mul_exponent|]. split; [done|].
  unfold units. rewrite Pos2Z.inj_mul. rewrite <-!(Z.mul_assoc (Z.pos mx * Z.pos my)).
  replace (1 * (Z.pos mx * 2 ^ (ex + 1074)) * (1 * (Z.pos my * 2 ^ (ey + 1074))) * US)
    with (Z.pos mx * Z.pos my * (2 ^ (ex + 1074) * (2 ^ (ey + 1074) * US))) by lia.
  f_equal. rewrite US_units by lia. unfold one_unit. rewrite <-!Z.pow_add_r by (unfold S_; lia).
  f_equal. unfold S_. lia.
Qed.

(** Rounding the product cannot cross a representable upper bound; in
    particular the product does not overflow below one. *)
Lemma f64_mul_le c :
  nonneg_fin c → units x * units y ≤ units c * one_unit →
  nonneg_fin (f64_mul x y) ∧ units (f64_mul x y) ≤ units c.
Proof using Hx Hy.
  intros Hc Hle. pose proof US_pos.
  destruct f64_mul_cases as [[H0 ->]|(M&e&HM&HeS&He&->&Hu)].
  { split; [done|]. simpl. by apply units_nonneg. }
  assert (0 < one_unit) by (by apply pow2_pos).
  assert (0 < M * 2 ^ (e + S_)) by (pose proof (pow2_pos (e + S_)); nia).
  destruct (nonneg_fin_inv c Hc) as [[-> Hc0]|(mc&ec&->&Hmc&Hec&_&_&Huc)]; [rewrite Hc0 in Hle; nia|].
  destruct (round_units_le M e HM HeS He (Z.pos mc) ec Hmc Hec) as [Hnf Hr].
  { rewrite <-Huc. apply (Z.mul_le_mono_pos_r _ _ one_unit); [done|]. rewrite <-Hu. nia. }
  split; [done|]. rewrite <-Huc in Hr. by apply Z.mul_le_mono_pos_r in Hr.
Qed.

Lemma f64_mul_ge c :
  nonneg_fin c → nonneg_fin (f64_mul x y) → units c * one_unit ≤ units x * units y →
  units c ≤ units (f64_mul x y).
Proof using Hx Hy.
  intros Hc Hnf Hle. pose proof US_pos.
  assert (0 < one_unit) by (by apply pow2_pos).
  destruct (nonneg_fin_inv c Hc) as [[-> Hc0]|(mc&ec&->&Hmc&Hec&_&?&Huc)].
  { rewrite Hc0. by apply units_nonneg. }
  destruct f64_mul_cases as [[Hz ->]|(M&e&HM&HeS&He&Heq&Hu)]; [nia|]. rewrite Heq in *.
  pose proof (round_units_ge M e HM HeS He (Z.pos mc) ec Hnf Hmc ltac:(lia)) as Hr.
  rewrite <-Huc in Hr. apply (Z.mul_le_mono_pos_r _ _ US); [done|]. apply Hr.
  apply (Z.mul_le_mono_pos_r _ _ one_unit); [done|]. rewrite <-Hu. nia.
Qed.

(** An exactly representable product is computed exactly. *)
Lemma f64_mul_exact c :
  nonneg_fin c → units x * units y = units c * one_unit →
  nonneg_fin (f64_mul x y) ∧ units (f64_mul x y) = units c.
Proof using Hx Hy.
  intros Hc Heq. destruct (f64_mul_le c Hc ltac:(lia)) as [Hnf Hle]. split; [done|].
  pose proof (f64_mul_ge c Hc Hnf ltac:(lia)). lia.
Qed.
End Mul.

(** ** Normalisation, conversion and addition *)

Lemma shl_align_spec m e e' :
  (shl_align m e e').2 = Z.min e e' ∧
  Z.pos (shl_align m e e').1 = Z.pos m * 2 ^ (e - Z.min e e').
Proof.
  unfold shl_align. destruct (e' - e) as [|d|d] eqn:E.
  - rewrite Z.min_l, Z.sub_diag by lia. simpl. lia.
  - rewrite Z.min_l, Z.sub_diag by lia. simpl. lia.
  - simpl fst. simpl snd. rewrite Z.min_r by lia. split; [done|].
    replace (e - e') with (Z.pos d) by lia. clear E.
    replace (Pos.iter xO m d) with (m * 2 ^ d)%positive; [by rewrite Pos2Z.inj_mul, Pos2Z.inj_pow|].
    induction d as [|d IH] using Pos.peano_ind; [simpl; lia|].
    rewrite Pos.iter_succ, <-IH, Pos.pow_succ_r. lia.
Qed.

Lemma log2_shift m k : 0 < m → 0 ≤ k → Z.log2 (m * 2 ^ k) = Z.log2 m + k.
Proof. intros. rewrite Z.log2_mul_pow2 by lia. lia. Qed.

(** Normalisation is one rounding of the same value. *)
Lemma normalize_form m e :
  0 < m → - S_ ≤ e → - S_ ≤ fexp 53 1024 (Z.log2 m + 1 + e) →
  ∃ M e', 0 < M ∧ - S_ ≤ e' ∧ e' ≤ fexp 53 1024 (Z.log2 M + 1 + e') ∧
    binary_normalize 53 1024 m e false = binary_round_aux 53 1024 false M e' loc_Exact ∧
    M * 2 ^ (e' + S_) = m * 2 ^ (e + S_).
Proof.
  intros Hm HeS HfS. destruct m as [|p|p]; try lia. unfold binary_normalize, binary_round.
  rewrite digits2_log2.
  pose proof (shl_align_spec p e (fexp 53 1024 (Z.log2 (Z.pos p) + 1 + e))) as [H1 H2].
  destruct (shl_align _ _ _) as [mz ez]. cbn [fst snd] in H1, H2. rewrite H1. clear H1 ez.
  set (f := fexp 53 1024 (Z.log2 (Z.pos p) + 1 + e)) in *.
  assert (Z.log2 (Z.pos mz) + 1 + Z.min e f = Z.log2 (Z.pos p) + 1 + e) as Hlog.
  { rewrite H2, log2_shift by lia. lia. }
  exists (Z.pos mz), (Z.min e f). split; [done|]. split; [lia|]. split; [rewrite Hlog; fold f; lia|].
  split; [done|]. rewrite H2, <-Z.mul_assoc, <-Z.pow_add_r by lia. do 2 f_equal. lia.
Qed.

(** A positive dyadic number that some mantissa represents is converted
    exactly. *)
Lemma normalize_exact m e c E :
  0 < m → - S_ ≤ e → - S_ ≤ fexp 53 1024 (Z.log2 m + 1 + e) → 0 < c < 2 ^ 53 → -1074 ≤ E ≤ 971 →
  m * 2 ^ (e + S_) = c * 2 ^ (E + S_) →
  nonneg_fin (binary_normalize 53 1024 m e false) ∧
  units (binary_normalize 53 1024 m e false) = c * 2 ^ (E + 1074).
Proof.
  intros Hm HeS HfS Hc HE Heq. destruct (normalize_form m e Hm HeS HfS) as (M&e'&?&?&?&->&Hv).
  apply round_units_exact; auto. congruence.
Qed.

Lemma f64_dyadic_exact m e :
  0 < m < 2 ^ 53 → -1074 ≤ e ≤ 971 →
  nonneg_fin (f64_dyadic m e) ∧ units (f64_dyadic m e) = m * 2 ^ (e + 1074).
Proof.
  intros Hm He. apply normalize_exact; [lia|unfold S_; lia| |done|done|done].
  rewrite fexp_max. unfold S_. lia.
Qed.

Lemma f64_of_Z_exact n :
  0 ≤ n < 2 ^ 53 → nonneg_fin (f64_of_Z n) ∧ units (f64_of_Z n) = n * one_unit.
Proof.
  intros Hn. destruct (Z.eq_dec n 0) as [->|]; [done|].
  apply (f64_dyadic_exact n 0); lia.
Qed.

Section Add.
Context (x y : f64) (Hx : nonneg_fin x) (Hy : nonneg_fin y).

Lemma f64_add_cases :
  ((units x = 0 ∨ units y = 0) ∧ nonneg_fin (f64_add x y) ∧ units (f64_add x y) = units x + units y) ∨
  (∃ M e, 0 < M ∧ - S_ ≤ e ∧ e ≤ fexp 53 1024 (Z.log2 M + 1 + e) ∧
    f64_add x y = binary_round_aux 53 1024 false M e loc_Exact ∧
    (units x + units y) * US = M * 2 ^ (e + S_)).
Proof using Hx Hy.
  destruct (nonneg_fin_inv x Hx) as [[-> Hx0]|(mx&ex&->&Hmx&Hex&Hcx&Hxp&Hux)].
  { left. split; [by left|]. by destruct (nonneg_fin_inv y Hy) as [[-> ?]|(my&ey&->&_)]. }
  destruct (nonneg_fin_inv y Hy) as [[-> Hy0]|(my&ey&->&Hmy&Hey&Hcy&Hyp&Huy)].
  { left. split; [by right|]. split; [done|]. by rewrite Hy0, Z.add_0_r. }
  right. unfold f64_add, SFadd. cbn [cond_Zopp].
  destruct (shl_align_spec mx ex (Z.min ex ey)) as [_ Hax].
  destruct (shl_align_spec my ey (Z.min ex ey)) as [_ Hay].
  rewrite (Z.min_r ex (Z.min ex ey)) in Hax by lia.
  rewrite (Z.min_r ey (Z.min ex ey)) in Hay by lia.
  rewrite Hax, Hay. set (ez := Z.min ex ey) in *.
  pose proof (pow2_pos (ex - ez) ltac:(lia)). pose proof (pow2_pos (ey - ez) ltac:(lia)).
  destruct (normalize_form (Z.pos mx * 2 ^ (ex - ez) + Z.pos my * 2 ^ (ey - ez)) ez)
    as (M&e&?&?&?&->&Hv); [nia|unfold S_; lia|rewrite fexp_max; unfold S_; lia|].
  exists M, e. repeat (split; [done|]). rewrite Hv, Z.mul_add_distr_r, Hux, Huy.
  rewrite Z.mul_add_distr_r, <-!Z.mul_assoc, <-!Z.pow_add_r by (unfold S_; lia).
  do 3 f_equal; lia.
Qed.

Lemma f64_add_le c :
  nonneg_fin c → units x + units y ≤ units c →
  nonneg_fin (f64_add x y) ∧ units (f64_add x y) ≤ units c.
Proof using Hx Hy.
  intros Hc Hle. pose proof US_pos.
  destruct f64_add_cases as [(_&?&->)|(M&e&HM&HeS&He&->&Hu)]; [done|].
  assert (0 < M * 2 ^ (e + S_)) by (pose proof (pow2_pos (e + S_)); nia).
  destruct (nonneg_fin_inv c Hc) as [[-> Hc0]|(mc&ec&->&Hmc&Hec&_&_&Huc)]; [rewrite Hc0 in Hle; nia|].
  destruct (round_units_le M e HM HeS He (Z.pos mc) ec Hmc Hec) as [Hnf Hr]; [nia|].
  split; [done|]. rewrite <-Huc in Hr. by apply Z.mul_le_mono_pos_r in Hr.
Qed.

Lemma f64_add_ge c :
  nonneg_fin c → nonneg_fin (f64_add x y) → units c ≤ units x + units y →
  units c ≤ units (f64_add x y).
Proof using Hx Hy.
  intros Hc Hnf Hle. pose proof US_pos.
  destruct (nonneg_fin_inv c Hc) as [[-> Hc0]|(mc&ec&->&Hmc&Hec&_&?&Huc)].
  { rewrite Hc0. by apply units_nonneg. }
  destruct f64_add_cases as [(_&_&->)|(M&e&HM&HeS&He&Heq&Hu)]; [done|]. rewrite Heq in *.
  pose proof (round_units_ge M e HM HeS He (Z.pos mc) ec Hnf Hmc ltac:(lia)) as Hr.
  rewrite <-Huc in Hr. apply (Z.mul_le_mono_pos_r _ _ US); [done|]. apply Hr. nia.
Qed.

(** An exactly representable sum is computed exactly. *)
Lemma f64_add_exact c :
  nonneg_fin c → units x + units y = units c →
  nonneg_fin (f64_add x y) ∧ units (f64_add x y) = units x + units y.
Proof using Hx Hy.
  intros Hc Heq. destruct (f64_add_le c Hc ltac:(lia)) as [Hnf Hle]. split; [done|].
  pose proof (f64_add_ge c Hc Hnf ltac:(lia)). lia.
Qed.
End Add.

(** A positive difference that some double represents is computed exactly. *)
Lemma f64_sub_exact x y c :
  nonneg_fin x → nonneg_fin y → nonneg_fin c → 0 < units c → units x - units y = units c →
  nonneg_fin (f64_sub x y) ∧ units (f64_sub x y) = units c.
Proof.
  intros Hx Hy Hc Hpos Heq. pose proof US_pos.
  destruct (nonneg_fin_inv x Hx) as [[-> Hx0]|(mx&ex&->&Hmx&Hex&Hcx&Hxp&Hux)].
  { pose proof (units_nonneg y Hy). lia. }
  destruct (nonneg_fin_inv y Hy) as [[-> Hy0]|(my&ey&->&Hmy&Hey&Hcy&Hyp&Huy)].
  { rewrite Hy0, Z.sub_0_r in Heq. done. }
  destruct (nonneg_fin_inv c Hc) as [[-> Hc0]|(mc&ec&->&Hmc&Hec&_&_&Huc)]; [rewrite Hc0 in Hpos; lia|].
  unfold f64_sub, SFsub. cbn [cond_Zopp].
  destruct (shl_align_spec mx ex (Z.min ex ey)) as [_ Hax].
  destruct (shl_align_spec my ey (Z.min ex ey)) as [_ Hay].
  rewrite (Z.min_r ex (Z.min ex ey)) in Hax by lia.
  rewrite (Z.min_r ey (Z.min ex ey)) in Hay by lia.
  rewrite Hax, Hay. set (ez := Z.min ex ey) in *.
  assert ((Z.pos mx * 2 ^ (ex - ez) - Z.pos my * 2 ^ (ey - ez)) * 2 ^ (ez + S_) =
          Z.pos mc * 2 ^ (ec + S_)) as Hv.
  { rewrite Z.mul_sub_distr_r, <-!Z.mul_assoc, <-!Z.pow_add_r by (unfold S_; lia).
    replace (ex - ez + (ez + S_)) with (ex + S_) by lia.
    replace (ey - ez + (ez + S_)) with (ey + S_) by lia. nia. }
  pose proof (pow2_pos (ez + S_) ltac:(unfold S_; lia)). pose proof (pow2_pos (ec + S_) ltac:(unfold S_; lia)).
  destruct (normalize_exact (Z.pos mx * 2 ^ (ex - ez) - Z.pos my * 2 ^ (ey - ez)) ez (Z.pos mc) ec)
    as [Hnf Hu]; [nia|unfold S_; lia|rewrite fexp_max; unfold S_; lia|done|done|done|].
  split; [done|]. rewrite Hu. unfold units. lia.
Qed.

(** ** Comparison and truncation *)

Lemma f64_ltb_units x y :
  nonneg_fin x → nonneg_fin y → f64_ltb x y = (units x <? units y).
Proof.
  intros Hx Hy.
  destruct (nonneg_fin_inv x Hx) as [[-> Hx0]|(mx&ex&->&Hmx&Hex&Hcx&Hxp&Hux)];
  destruct (nonneg_fin_inv y Hy) as [[-> Hy0]|(my&ey&->&Hmy&Hey&Hcy&Hyp&Huy)].
  - done.
  - rewrite Hx0. symmetry. by apply Z.ltb_lt.
  - rewrite Hy0. symmetry. apply Z.ltb_ge. lia.
  - assert (∀ m e m' e', 0 < Z.pos m → Z.pos m < 2 ^ 53 → -1074 ≤ e →
      e' = fexp 53 1024 (Z.log2 (Z.pos m') + 1 + e') → e < e' →
      units (S754_finite false m e) < units (S754_finite false m' e')) as Hexp.
    { intros m e m' e' Hm Hm2 He Hc' Hee. rewrite fexp_max in Hc'. unfold units.
      assert (2 ^ 52 ≤ Z.pos m').
      { etrans; [|apply Z.log2_spec; lia]. apply Z.pow_le_mono_r; lia. }
      assert (2 ^ (e + 1074) * 2 ≤ 2 ^ (e' + 1074)).
      { change 2 with (2 ^ 1) at 2. rewrite <-Z.pow_add_r by lia. apply Z.pow_le_mono_r; lia. }
      pose proof (pow2_pos (e + 1074) ltac:(lia)). nia. }
    unfold f64_ltb, SFltb, SFcompare. destruct (Z.compare_spec ex ey) as [->|Hlt|Hgt].
    + unfold units. pose proof (pow2_pos (ey + 1074) ltac:(lia)).
      change (Pos.compare_cont Eq mx my) with (Pos.compare mx my).
      destruct (Pos.compare_spec mx my); symmetry; [subst; apply Z.ltb_irrefl|apply Z.ltb_lt|apply Z.ltb_ge]; nia.
    + symmetry. apply Z.ltb_lt. apply Hexp; lia || done.
    + symmetry. apply Z.ltb_ge, Z.lt_le_incl. apply Hexp; lia || done.
Qed.

Lemma f64_trunc_units x :
  nonneg_fin x → units x < 2 ^ 63 * one_unit → f64_trunc x = units x / one_unit.
Proof.
  intros Hx Hlt. destruct (nonneg_fin_inv x Hx) as [[-> Hx0]|(m&e&->&Hm&He&Hc&Hp&Hu)]; [done|].
  unfold f64_trunc, units in *. rewrite Z.mul_1_l in *.
  assert (0 ≤ Z.pos m * 2 ^ (e + 1074) / one_unit < 2 ^ 63) as Ha.
  { split; [apply Z.div_pos; [lia|by apply pow2_pos]|].
    apply Z.div_lt_upper_bound; [by apply pow2_pos|lia]. }
  revert Ha. assert (Z.pos m * 2 ^ (e + 1074) / one_unit =
    if 0 <=? e then Z.pos m * 2 ^ e else Z.pos m / 2 ^ (- e)) as ->.
  { unfold one_unit. destruct (Z.leb_spec 0 e).
    - rewrite Z.pow_add_r, Z.mul_assoc by lia. apply Z.div_mul. lia.
    - replace 1074 with ((- e) + (e + 1074)) at 2 by lia.
      rewrite (Z.pow_add_r 2 (- e)) by lia. pose proof (pow2_pos (- e)).
      pose proof (pow2_pos (e + 1074)). apply Z.div_mul_cancel_r; lia. }
  intros Ha. unfold min64, max64. set (a := if 0 <=? e then _ else _) in *.
  destruct (Z.leb_spec (- 2 ^ 63) a), (Z.leb_spec a (2 ^ 63 - 1)); cbn [andb]; lia.
Qed.

(** ** [<] is a strict weak order on the doubles that are not NaN *)

Definition lex_lt (a b : Z * Z * Z) : Prop :=
  a.1.1 < b.1.1 ∨ a.1.1 = b.1.1 ∧ (a.1.2 < b.1.2 ∨ a.1.2 = b.1.2 ∧ a.2 < b.2).

#[export] Instance lex_lt_dec a b : Decision (lex_lt a b).
Proof. unfold lex_lt. apply _. Defined.

Definition order_key (x : f64) : Z * Z * Z :=
  match x with
  | S754_infinity true => (-2, 0, 0)
  | S754_finite true m e => (-1, - e, - Z.pos m)
  | S754_zero _ | S754_nan => (0, 0, 0)
  | S754_finite false m e => (1, e, Z.pos m)
  | S754_infinity false => (2, 0, 0)
  end.

Lemma f64_ltb_key x y :
  f64_ltb x y = true ↔
  f64_IsNaN x = false ∧ f64_IsNaN y = false ∧ lex_lt (order_key x) (order_key y).
Proof.
  unfold lex_lt, f64_ltb, SFltb.
  destruct x as [[]|[]| |[] m e], y as [[]|[]| |[] m' e']; simpl;
    repeat match goal with
      | |- context [Z.compare ?a ?b] => destruct (Z.compare_spec a b)
      | |- context [Pos.compare_cont Eq ?a ?b] =>
          change (Pos.compare_cont Eq a b) with (Pos.compare a b); destruct (Pos.compare_spec a b)
      end; simpl; split; try done; try lia;
    intros; repeat split; try done; try lia.
Qed.

Lemma f64_ltb_irrefl x : f64_ltb x x = false.
Proof.
  apply not_true_iff_false. rewrite f64_ltb_key. unfold lex_lt. lia.
Qed.

Lemma f64_ltb_trans x y z : f64_ltb x y = true → f64_ltb y z = true → f64_ltb x z = true.
Proof.
  rewrite !f64_ltb_key. unfold lex_lt. intros (?&?&?) (?&?&?). repeat split; try done. lia.
Qed.

Lemma f64_ltb_split x y z :
  f64_IsNaN y = false → f64_ltb x z = true → f64_ltb x y = true ∨ f64_ltb y z = true.
Proof.
  rewrite !f64_ltb_key. intros Hy (?&?&Hlt).
  destruct (decide (lex_lt (order_key x) (order_key y))) as [|Hn];
    [left; done|right; repeat split; try done]. unfold lex_lt in *. lia.
Qed.

(** ** [rand.Float64]: a multiple of [2^-53] in [[0, 1)] *)

Definition rand_Float64 (k : Z) : f64 := f64_dyadic k (-53).

Lemma rand_Float64_units k :
  0 ≤ k < 2 ^ 53 → nonneg_fin (rand_Float64 k) ∧ units (rand_Float64 k) = k * 2 ^ 1021.
Proof.
  intros Hk. destruct (Z.eq_dec k 0) as [->|]; [done|]. apply f64_dyadic_exact; lia.
Qed.

(** ** Quotients of integers and ceilings

    [f64_ceil_int x] is [int(math.Ceil(x))]. *)

Definition f64_ceil_int (x : f64) : Z :=
  match x with
  | S754_finite s m e =>
      let a := if s then - Z.pos m else Z.pos m in
      let v := if 0 <=? e then a * 2 ^ e else - ((- a) / 2 ^ (- e)) in
      if (min64 <=? v) && (v <=? max64) then v else min64
  | S754_zero _ => 0
  | _ => min64
  end.

(** Rounding with an inexact tail: the quotient or its successor. *)
Lemma shr_1_iter_m M r s (k : nat) :
  0 ≤ M → shr_m (Nat.iter k shr_1 (Build_shr_record M r s)) = M / 2 ^ Z.of_nat k.
Proof.
  intros HM. induction k as [|k IH].
  { change (2 ^ Z.of_nat 0) with 1. by rewrite Z.div_1_r. }
  rewrite Nat.iter_succ. destruct (Nat.iter k shr_1 _) as [m r' s']. cbn [shr_m] in IH.
  assert (M / 2 ^ Z.of_nat (S k) = m / 2) as ->.
  { rewrite Nat2Z.inj_succ, Z.pow_succ_r, (Z.mul_comm 2), IH by lia.
    rewrite Z.div_div; [done| |lia]. pose proof (pow2_pos (Z.of_nat k)). lia. }
  assert (0 ≤ m) by (rewrite IH; apply Z.div_pos; [done|apply pow2_pos; lia]).
  destruct m as [|[p|p|]|p]; try lia; cbn [shr_1 shr_m]; try done.
  - rewrite Pos2Z.inj_xI. apply Z.div_unique with 1; lia.
  - rewrite Pos2Z.inj_xO. apply Z.div_unique with 0; lia.
Qed.

Lemma round_form_loc s M e l :
  0 < M → e ≤ fexp 53 1024 (Z.log2 M + 1 + e) →
  let e1 := fexp 53 1024 (Z.log2 M + 1 + e) in
  ∃ m1, binary_round_aux 53 1024 s M e l = pack s m1 e1 ∧
    M / 2 ^ (e1 - e) ≤ m1 ≤ M / 2 ^ (e1 - e) + 1 ∧ 0 ≤ m1 ≤ 2 ^ 53.
Proof.
  intros HM He e1. unfold binary_round_aux.
  assert (∃ r, shr_fexp 53 1024 M e l = (r, e1) ∧ shr_m r = M / 2 ^ (e1 - e)) as (r&->&Hq).
  { unfold shr_fexp. destruct M as [|p|p]; try lia. cbn [Zdigits2]. rewrite digits2_log2. fold e1.
    assert (∃ b c, shr_record_of_loc (Z.pos p) l = Build_shr_record (Z.pos p) b c) as (b&c&->)
      by (destruct l as [|[]]; eauto).
    unfold shr. destruct (e1 - e) as [|k|k] eqn:Ek; try lia.
    - eexists. split; [f_equal; lia|]. change (2 ^ 0) with 1. by rewrite Z.div_1_r.
    - rewrite iter_pos_nat. eexists. split; [f_equal; lia|].
      rewrite shr_1_iter_m, positive_nat_Z by lia. done. }
  destruct (round_nearest_even_between (shr_m r) (loc_of_shr_record r)) as [Hbt _].
  set (m1 := round_nearest_even _ _) in *. rewrite Hq in Hbt.
  assert (0 < 2 ^ (e1 - e)) by (apply pow2_pos; lia).
  assert (0 ≤ M / 2 ^ (e1 - e)) by (apply Z.div_pos; lia).
  assert (M / 2 ^ (e1 - e) < 2 ^ 53) as Hlt.
  { apply Z.div_lt_upper_bound; [done|]. rewrite <-Z.pow_add_r by lia.
    eapply Z.lt_le_trans; [apply Z.log2_spec, HM|]. apply Z.pow_le_mono_r; [lia|].
    unfold e1. rewrite fexp_max. lia. }
  exists m1. split; [|split; [done|lia]].
  assert (-1074 ≤ e1) by (unfold e1; rewrite fexp_max; lia).
  clearbody e1. unfold pack. destruct (Z.eqb_spec m1 0) as [E0|E0].
  { rewrite shr_fexp_exact; rewrite E0; [done|lia|]. rewrite fexp_max.
    change (Zdigits2 0) with 0. lia. }
  destruct (Z.eqb_spec m1 (2 ^ 53)) as [E1|E1].
  { rewrite E1. unfold shr_fexp. rewrite fexp_max. change (Zdigits2 (2 ^ 53)) with 54.
    replace (Z.max (54 + e1 - 53) (-1074) - e1) with 1 by lia. reflexivity. }
  rewrite shr_fexp_exact; [|lia|].
  - destruct m1 as [|p|p]; [lia|reflexivity|lia].
  - destruct m1 as [|p|p]; [lia| |lia]. cbn [Zdigits2]. rewrite digits2_log2, fexp_max.
    assert (Z.log2 (Z.pos p) < 53) by (apply Z.log2_lt_pow2; lia). lia.
Qed.

(** A positive integer as a double: its mantissa has 53 bits. *)
Lemma f64_of_Z_form n :
  0 < n < 2 ^ 53 →
  ∃ m, f64_of_Z n = S754_finite false m (Z.log2 n - 52) ∧
    Z.pos m = n * 2 ^ (52 - Z.log2 n) ∧ 2 ^ 52 ≤ Z.pos m < 2 ^ 53.
Proof.
  intros Hn. destruct (f64_of_Z_exact n) as [Hf Hu]; [lia|].
  assert (0 < one_unit) by (by apply pow2_pos).
  destruct (nonneg_fin_inv _ Hf) as [[_ H0]|(m&e&Heq&Hm&He&Hc&_&_)]; [nia|].
  rewrite Heq in Hu. exists m. unfold units in Hu. rewrite Z.mul_1_l in Hu.
  assert (0 ≤ Z.log2 n < 53) by (split; [apply Z.log2_nonneg|apply Z.log2_lt_pow2; lia]).
  assert (Z.log2 (Z.pos m) + (e + 1074) = Z.log2 n + 1074) as Hlog.
  { rewrite <-log2_shift, Hu by lia. unfold one_unit. apply log2_shift; lia. }
  rewrite fexp_max in Hc.
  assert (Z.log2 (Z.pos m) < 53) by (apply Z.log2_lt_pow2; lia).
  assert (Z.log2 (Z.pos m) = 52) as Hl by lia.
  replace e with (Z.log2 n - 52) in * by lia. split; [exact Heq|].
  assert (Z.pos m = n * 2 ^ (52 - Z.log2 n)) as Hmn.
  { apply (Z.mul_cancel_r _ _ (2 ^ (Z.log2 n - 52 + 1074))); [pose proof (pow2_pos (Z.log2 n - 52 + 1074)); lia|].
    rewrite Hu, <-Z.mul_assoc, <-Z.pow_add_r by lia. unfold one_unit. do 2 f_equal. lia. }
  split; [done|]. split; [|lia]. change 52 with (Z.log2 (2 ^ 52)) in Hl.
  destruct (Z.le_gt_cases (2 ^ 52) (Z.pos m)); [done|].
  assert (Z.log2 (Z.pos m) < 52) by (apply Z.log2_lt_pow2; lia). lia.
Qed.

(** ** Proper fractions of integers

    The quotient of two integers [0 < a < b] below [2^53]: dividing their
    53-bit mantissas gives [Q * 2^x] before rounding. *)

Section Fraction.
Context (a b : Z) (ma mb : positive).
Context (Hab : 0 < a < b) (Hb : b < 2 ^ 53).
Context (Hma : Z.pos ma = a * 2 ^ (52 - Z.log2 a)) (Hra : 2 ^ 52 ≤ Z.pos ma < 2 ^ 53).
Context (Hmb : Z.pos mb = b * 2 ^ (52 - Z.log2 b)) (Hrb : 2 ^ 52 ≤ Z.pos mb < 2 ^ 53).

#[local] Abbreviation x := (Z.log2 a - Z.log2 b - 53).
#[local] Abbreviation Q := (Z.pos ma * 2 ^ 53 / Z.pos mb).

Lemma fraction_logs : 0 ≤ Z.log2 a ≤ Z.log2 b ∧ Z.log2 b < 53.
Proof using Hab Hb Hma Hra Hmb Hrb.
  split; [split; [apply Z.log2_nonneg|apply Z.log2_le_mono; lia]|apply Z.log2_lt_pow2; lia].
Qed.

Lemma fraction_form :
  f64_of_Z a = S754_finite false ma (Z.log2 a - 52) → f64_of_Z b = S754_finite false mb (Z.log2 b - 52) →
  ∃ l, f64_div (f64_of_Z a) (f64_of_Z b) = binary_round_aux 53 1024 false Q x l.
Proof using Hab Hb Hma Hra Hmb Hrb.
  intros Hfa Hfb. pose proof fraction_logs. unfold f64_div. rewrite Hfa, Hfb.
  unfold SFdiv, SFdiv_core_binary. cbn [xorb Zdigits2]. rewrite !digits2_log2.
  assert (∀ m, 2 ^ 52 ≤ Z.pos m < 2 ^ 53 → Z.log2 (Z.pos m) = 52) as Hl.
  { intros m Hm. apply Z.log2_unique; [lia|]. change (Z.succ 52) with 53. lia. }
  rewrite (Hl ma Hra), (Hl mb Hrb), fexp_max.
  replace (Z.min _ _) with x by lia. replace (Z.log2 a - 52 - (Z.log2 b - 52) - x) with 53 by lia.
  rewrite Z.shiftl_mul_pow2 by lia.
  destruct (Z.div_eucl (Z.pos ma * 2 ^ 53) (Z.pos mb)) as [qq rr] eqn:Ed.
  exists (new_location (Z.pos mb) rr). f_equal. unfold Z.div. by rewrite Ed.
Qed.

Lemma fraction_Q : 2 ^ 52 ≤ Q < 2 ^ 54 ∧ 52 ≤ Z.log2 Q ≤ 53.
Proof using Hab Hb Hma Hra Hmb Hrb.
  assert (2 ^ 52 ≤ Q < 2 ^ 54).
  { split; [apply Z.div_le_lower_bound; nia|apply Z.div_lt_upper_bound; nia]. }
  assert (52 ≤ Z.log2 Q) by (apply Z.log2_le_pow2; lia).
  assert (Z.log2 Q < 54) by (apply Z.log2_lt_pow2; lia). lia.
Qed.

(** The unrounded value is below one. *)
Lemma fraction_upper : Q < 2 ^ (- x).
Proof using Hab Hb Hma Hra Hmb Hrb.
  pose proof fraction_logs. apply Z.div_lt_upper_bound; [lia|].
  replace (- x) with (53 + (Z.log2 b - Z.log2 a)) by lia. rewrite Z.pow_add_r by lia.
  assert (Z.pos ma < Z.pos mb * 2 ^ (Z.log2 b - Z.log2 a)) as Hlt; [|nia].
  rewrite Hma, Hmb, <-Z.mul_assoc, <-Z.pow_add_r by lia.
  replace (52 - Z.log2 b + (Z.log2 b - Z.log2 a)) with (52 - Z.log2 a) by lia.
  apply Z.mul_lt_mono_pos_r; [apply pow2_pos; lia|lia].
Qed.

(** It reaches every power of two that the exact fraction reaches. *)
Lemma fraction_lower j k :
  0 ≤ j → b ≤ a * 2 ^ j → 0 ≤ k ≤ 1 → 0 ≤ - j - (x + k) → 2 ^ (- j - (x + k)) ≤ Q / 2 ^ k.
Proof using Hab Hb Hma Hra Hmb Hrb.
  intros Hj Hlow Hk Hp. pose proof fraction_logs.
  apply Z.div_le_lower_bound; [apply pow2_pos; lia|]. rewrite <-Z.pow_add_r by lia.
  replace (k + (- j - (x + k))) with (53 - j + (Z.log2 b - Z.log2 a)) by lia.
  apply Z.div_le_lower_bound; [lia|]. rewrite Hma, Hmb.
  rewrite <-!Z.mul_assoc, <-!Z.pow_add_r by lia.
  replace (52 - Z.log2 b + (53 - j + (Z.log2 b - Z.log2 a))) with (105 - j - Z.log2 a) by lia.
  replace (52 - Z.log2 a + 53) with (j + (105 - j - Z.log2 a)) by lia.
  rewrite (Z.pow_add_r 2 j), Z.mul_assoc by lia.
  pose proof (pow2_pos (105 - j - Z.log2 a) ltac:(lia)). nia.
Qed.
End Fraction.

(** A mantissa and exponent that represent a value between [2^-j] and one. *)
Lemma pack_fraction m1 y j :
  0 ≤ j → -1074 ≤ y ≤ 0 → m1 ≤ 2 ^ (- y) → 1 ≤ m1 → (0 ≤ - j - y → 2 ^ (- j - y) ≤ m1) →
  2 ^ (1074 - j) ≤ m1 * 2 ^ (y + 1074) ≤ one_unit.
Proof.
  intros Hj Hy Hup Hone Hlo. pose proof (pow2_pos (y + 1074) ltac:(lia)). split.
  - destruct (Z.le_gt_cases 0 (- j - y)) as [Hp|Hp].
    + replace (1074 - j) with (- j - y + (y + 1074)) by lia.
      rewrite (Z.pow_add_r 2 (- j - y)) by lia. specialize (Hlo Hp). nia.
    + assert (2 ^ (1074 - j) ≤ 2 ^ (y + 1074)) by (apply Z.pow_le_mono_r; lia). nia.
  - assert (one_unit = 2 ^ (- y) * 2 ^ (y + 1074)) as ->; [|nia].
    rewrite <-Z.pow_add_r by lia. unfold one_unit. f_equal. lia.
Qed.

(** A proper fraction [a/b] of integers is positive, at most one, and not
    below any power of two the exact fraction reaches. *)
Lemma f64_div_fraction a b j :
  0 < a < b → b < 2 ^ 53 → 0 ≤ j ≤ 100 → b ≤ a * 2 ^ j →
  let q := f64_div (f64_of_Z a) (f64_of_Z b) in
  nonneg_fin q ∧ 2 ^ (1074 - j) ≤ units q ≤ one_unit.
Proof.
  intros Hab Hb Hj Hlow q.
  destruct (f64_of_Z_form a) as (ma&Hfa&Hma&Hra); [lia|].
  destruct (f64_of_Z_form b) as (mb&Hfb&Hmb&Hrb); [lia|].
  destruct (fraction_form a b ma mb Hab Hb Hma Hra Hmb Hrb Hfa Hfb) as [l Hq]. unfold q. rewrite Hq. clear q Hq.
  destruct (fraction_logs a b ma mb Hab Hb Hma Hra Hmb Hrb) as [Hla Hlb].
  destruct (fraction_Q a b ma mb Hab Hb Hma Hra Hmb Hrb) as [HQ HlQ].
  pose proof (fraction_upper a b ma mb Hab Hb Hma Hra Hmb Hrb) as HQ1.
  pose proof (λ k, fraction_lower a b ma mb Hab Hb Hma Hra Hmb Hrb j k ltac:(lia) Hlow) as HQ2.
  set (x := Z.log2 a - Z.log2 b - 53) in *. set (Q := Z.pos ma * 2 ^ 53 / Z.pos mb) in *. clearbody Q.
  assert (-106 ≤ x ≤ -53) as Hx by (unfold x; lia). clearbody x.
  assert (fexp 53 1024 (Z.log2 Q + 1 + x) = x + (Z.log2 Q - 52)) as He1 by (rewrite fexp_max; lia).
  destruct (round_form_loc false Q x l ltac:(lia)) as (m1&->&Hbt&Hm1); [lia|].
  rewrite He1 in *. set (k := Z.log2 Q - 52) in *. assert (0 ≤ k ≤ 1) as Hk by (unfold k; lia).
  assert (2 ^ (k + 52) ≤ Q) as HQp by (apply Z.log2_le_pow2; unfold k; lia). clearbody k.
  replace (x + k - x) with k in Hbt by lia.
  assert (0 < 2 ^ k) as Hpk by (apply pow2_pos; lia).
  assert (2 ^ 52 ≤ Q / 2 ^ k) as HQk.
  { apply Z.div_le_lower_bound; [done|]. by rewrite <-Z.pow_add_r by lia. }
  assert (Q / 2 ^ k < 2 ^ (- (x + k))) as Hup.
  { apply Z.div_lt_upper_bound; [done|]. rewrite <-Z.pow_add_r by lia.
    by replace (k + - (x + k)) with (- x) by lia. }
  destruct (pack_units m1 (x + k)) as [Hnf Hu]; [lia|lia|destruct (m1 =? 2 ^ 53); lia|right; lia|].
  split; [done|]. rewrite Hu. apply pack_fraction; [lia..|]. intros Hp. specialize (HQ2 k Hk Hp). lia.
Qed.

Lemma f64_ceil_units x :
  nonneg_fin x → units x < 2 ^ 62 * one_unit → f64_ceil_int x = - ((- units x) / one_unit).
Proof.
  intros Hx Hlt. destruct (nonneg_fin_inv x Hx) as [[-> Hx0]|(m&e&->&Hm&He&Hc&Hp&Hu)]; [done|].
  assert (0 < one_unit) as Hone by (by apply pow2_pos).
  unfold f64_ceil_int, units in *. rewrite Z.mul_1_l in *.
  assert (0 ≤ - ((- (Z.pos m * 2 ^ (e + 1074))) / one_unit) ≤ 2 ^ 62) as Ha.
  { split.
    - assert ((- (Z.pos m * 2 ^ (e + 1074))) / one_unit ≤ 0); [|lia].
      apply Z.div_le_upper_bound; lia.
    - assert (- 2 ^ 62 ≤ (- (Z.pos m * 2 ^ (e + 1074))) / one_unit); [|lia].
      apply Z.div_le_lower_bound; lia. }
  revert Ha. assert (- ((- (Z.pos m * 2 ^ (e + 1074))) / one_unit) =
    if 0 <=? e then Z.pos m * 2 ^ e else - ((- Z.pos m) / 2 ^ (- e))) as ->.
  { unfold one_unit. destruct (Z.leb_spec 0 e).
    - rewrite Z.pow_add_r, Z.mul_assoc, <-Z.mul_opp_l, Z.div_mul by lia. lia.
    - replace 1074 with ((- e) + (e + 1074)) at 2 by lia.
      rewrite (Z.pow_add_r 2 (- e)) by lia. pose proof (pow2_pos (- e)).
      pose proof (pow2_pos (e + 1074)). rewrite <-Z.mul_opp_l, Z.div_mul_cancel_r by lia. done. }
  intros Ha. unfold min64, max64. set (a := if 0 <=? e then _ else _) in *.
  destruct (Z.leb_spec (- 2 ^ 63) a), (Z.leb_spec a (2 ^ 63 - 1)); cbn [andb]; lia.
Qed.
