(* ===== verification/JsonString.v ===== *)
(** * JSON strings and UTF-8

    What the gateway uses of encoding/json and unicode/utf8 on strings: a Go
    string is a sequence of bytes; [json.Marshal] quotes it, replacing bytes
    that are not part of well-formed UTF-8 by U+FFFD and escaping the
    characters that are special in JSON or HTML; the decoder unquotes.

    The scanning functions walk the string byte by byte; the number [k] counts
    the bytes of the current multi-byte rune that are still to be copied (or
    dropped), so all of them are structural. *)

From S2P Require Import Prelude GoStrings.
From Stdlib Require Import Ascii.
Local Open Scope Z_scope.

Definition byte_val (a : ascii) : Z := Z.of_N (N_of_ascii a).
Definition byte_of (z : Z) : ascii := ascii_of_N (Z.to_N z).

Definition in_range (lo hi z : Z) : bool := (lo <=? z) && (z <=? hi).

(** ** Runes *)

(** The length announced by a lead byte, 0 when the byte cannot start a rune. *)
Definition lead_size (b : Z) : nat :=
  if b <? 128 then 1
  else if in_range 194 223 b then 2
  else if in_range 224 239 b then 3
  else if in_range 240 244 b then 4
  else 0.

(** The accepted values of the second byte. *)
Definition second_ok (b c : Z) : bool :=
  if b =? 224 then in_range 160 191 c
  else if b =? 237 then in_range 128 159 c
  else if b =? 240 then in_range 144 191 c
  else if b =? 244 then in_range 128 143 c
  else in_range 128 191 c.

Definition is_cont (a : ascii) : bool := in_range 128 191 (byte_val a).

(** [utf8.DecodeRuneInString]: the length of the well-formed rune that starts
    the string, 0 when there is none. *)
Definition rune_len (s : string) : nat :=
  match s with
  | "" => 0
  | String a s =>
      let b := byte_val a in
      match lead_size b with
      | 2%nat =>
          match s with String c _ => if second_ok b (byte_val c) then 2 else 0 | _ => 0 end
      | 3%nat =>
          match s with
          | String c (String d _) => if second_ok b (byte_val c) && is_cont d then 3 else 0
          | _ => 0
          end
      | 4%nat =>
          match s with
          | String c (String d (String e _)) =>
              if second_ok b (byte_val c) && is_cont d && is_cont e then 4 else 0
          | _ => 0
          end
      | n => n
      end
  end%nat.

(** The encoding of U+FFFD. *)
Definition replacement : string := bytes [239; 191; 189]%N.

(** Every byte that is not part of a well-formed rune becomes U+FFFD. *)
Fixpoint sanitize (k : nat) (s : string) : string :=
  match s with
  | "" => ""
  | String a t =>
      match k with
      | S k => String a (sanitize k t)
      | O =>
          match rune_len s with
          | O => replacement +:+ sanitize 0 t
          | S n => String a (sanitize n t)
          end
      end
  end.

(** [utf8.ValidString]. *)
Fixpoint utf8_valid (k : nat) (s : string) : bool :=
  match s with
  | "" => true
  | String a t =>
      match k with
      | S k => utf8_valid k t
      | O => match rune_len s with O => false | S n => utf8_valid n t end
      end
  end.

(** [utf8.EncodeRune] of a code point. *)
Definition EncodeRune (r : Z) : string :=
  if r <? 128 then String (byte_of r) ""
  else if r <? 2048 then
    String (byte_of (192 + r / 64)) (String (byte_of (128 + r mod 64)) "")
  else if r <? 65536 then
    String (byte_of (224 + r / 4096)) (String (byte_of (128 + (r / 64) mod 64))
      (String (byte_of (128 + r mod 64)) ""))
  else
    String (byte_of (240 + r / 262144)) (String (byte_of (128 + (r / 4096) mod 64))
      (String (byte_of (128 + (r / 64) mod 64)) (String (byte_of (128 + r mod 64)) ""))).

(** ** Quoting *)

Definition dquote : ascii := ascii_of_nat 34.
Definition backslash : ascii := ascii_of_nat 92.

Definition esc1 (c : ascii) : string := String backslash (String c "").
Definition hex_char (n : Z) : ascii := byte_of (if n <? 10 then 48 + n else 87 + n).

(** [appendString] with HTML escaping, for one ASCII byte. *)
Definition quote_ascii (a : ascii) : string :=
  let b := byte_val a in
  if b =? 34 then esc1 a
  else if b =? 92 then esc1 a
  else if b =? 8 then esc1 "b"
  else if b =? 12 then esc1 "f"
  else if b =? 10 then esc1 "n"
  else if b =? 13 then esc1 "r"
  else if b =? 9 then esc1 "t"
  else if (b <? 32) || (b =? 60) || (b =? 62) || (b =? 38) then
    esc1 "u" +:+ "00" +:+ String (hex_char (b / 16)) (String (hex_char (b mod 16)) "")
  else String a "".

(** U+2028 and U+2029: the last hexadecimal digit of the escape. *)
Definition line_sep (s : string) : option ascii :=
  match s with
  | String a (String b (String c _)) =>
      if (byte_val a =? 226) && (byte_val b =? 128) && in_range 168 169 (byte_val c)
      then Some (byte_of (byte_val c - 112)) else None
  | _ => None
  end.

Fixpoint quote_go (k : nat) (keep : bool) (s : string) : string :=
  match s with
  | "" => ""
  | String a t =>
      match k with
      | S k => if keep then String a (quote_go k keep t) else quote_go k keep t
      | O =>
          match rune_len s with
          | O => esc1 "u" +:+ "fffd" +:+ quote_go 0 true t
          | S O => quote_ascii a +:+ quote_go 0 true t
          | S n =>
              match line_sep s with
              | Some d => esc1 "u" +:+ "202" +:+ String d (quote_go n false t)
              | None => String a (quote_go n true t)
              end
          end
      end
  end.

Definition json_quote (s : string) : string := quote_go 0 true s.

(** ** Unquoting *)

Definition hex_val (a : ascii) : option Z :=
  let b := byte_val a in
  if in_range 48 57 b then Some (b - 48)
  else if in_range 97 102 b then Some (b - 87)
  else if in_range 65 70 b then Some (b - 55)
  else None.

(** [getu4], on the four characters after [\u]. *)
Definition hex4 (a b c d : ascii) : option Z :=
  x ← hex_val a; y ← hex_val b; z ← hex_val c; w ← hex_val d;
  Some (((x * 16 + y) * 16 + z) * 16 + w).

Definition simple_escape (a : ascii) : option ascii :=
  let b := byte_val a in
  if (b =? 34) || (b =? 92) || (b =? 47) then Some a
  else if b =? 98 then Some (byte_of 8)
  else if b =? 102 then Some (byte_of 12)
  else if b =? 110 then Some (byte_of 10)
  else if b =? 114 then Some (byte_of 13)
  else if b =? 116 then Some (byte_of 9)
  else None.

Definition is_surrogate (r : Z) : bool := in_range 55296 57343 r.

(** [utf16.DecodeRune] on a pair of halves. *)
Definition utf16_decode (r1 r2 : Z) : option Z :=
  if in_range 55296 56319 r1 && in_range 56320 57343 r2
  then Some ((r1 - 55296) * 1024 + (r2 - 56320) + 65536) else None.

(** The second half of a surrogate pair: the rune and the rest after it. *)
Definition low_half (r : Z) (a u g1 g2 g3 g4 : ascii) : option Z :=
  if Ascii.eqb a backslash && Ascii.eqb u "u" then hex4 g1 g2 g3 g4 ≫= utf16_decode r else None.

(** [unquoteBytes] on the text between the quotes, which the scanner has
    already checked; on text it would have refused the rest is dropped. *)
Fixpoint unquote (k : nat) (s : string) : string :=
  match s with
  | "" => ""
  | String a t =>
      match k with
      | S k => String a (unquote k t)
      | O =>
          if Ascii.eqb a backslash then
            match t with
            | "" => ""
            | String e t2 =>
                match simple_escape e with
                | Some c => String c (unquote 0 t2)
                | None =>
                    match t2 with
                    | String h1 (String h2 (String h3 (String h4 t3))) =>
                        match hex4 h1 h2 h3 h4 with
                        | None => ""
                        | Some r =>
                            if is_surrogate r then
                              match t3 with
                              | String x (String u (String g1 (String g2 (String g3 (String g4 t4))))) =>
                                  match low_half r x u g1 g2 g3 g4 with
                                  | Some r' => EncodeRune r' +:+ unquote 0 t4
                                  | None => replacement +:+ unquote 0 t3
                                  end
                              | _ => replacement +:+ unquote 0 t3
                              end
                            else EncodeRune r +:+ unquote 0 t3
                        end
                    | _ => ""
                    end
                end
            end
          else
            match rune_len s with
            | O => replacement +:+ unquote 0 t
            | S n => String a (unquote n t)
            end
      end
  end.

Example quote_ex :
  json_quote (bytes [60; 97; 34; 10; 195; 169; 255; 1]%N) =
    "\u003ca" +:+ String backslash (String dquote "") +:+ "\n" +:+ bytes [195; 169]%N +:+ "\ufffd\u0001".
Proof. vm_compute. reflexivity. Qed.
Example unquote_ex :
  unquote 0 "\u003ca\ud83d\ude00\ud800x" = "<a" +:+ bytes [240; 159; 152; 128]%N +:+ replacement +:+ "x".
Proof. vm_compute. reflexivity. Qed.

(** ** Well-formed runes *)

Lemma str_cons_app a s t : String a s +:+ t = String a (s +:+ t).
Proof. done. Qed.

Lemma byte_val_range a : 0 ≤ byte_val a < 256.
Proof. unfold byte_val. pose proof (N_ascii_bounded a). lia. Qed.

Lemma byte_val_of z : 0 ≤ z < 256 → byte_val (byte_of z) = z.
Proof. intros. unfold byte_val, byte_of. rewrite N_ascii_embedding; lia. Qed.

Lemma byte_val_inj a b : byte_val a = byte_val b → a = b.
Proof.
  unfold byte_val. intros H%N2Z.inj. by rewrite <-(ascii_N_embedding a), H, ascii_N_embedding.
Qed.

Lemma in_range_true lo hi z : in_range lo hi z = true ↔ lo ≤ z ≤ hi.
Proof. unfold in_range. rewrite andb_true_iff, !Z.leb_le. done. Qed.

(** A complete well-formed rune, whatever follows. *)
Definition rune (r : string) : Prop := r ≠ "" ∧ ∀ t, rune_len (r +:+ t) = String.length r.

Lemma rune_split s n :
  rune_len s = S n → ∃ r t, s = r +:+ t ∧ rune r ∧ String.length r = S n.
Proof.
  destruct s as [|a s]; [done|]. cbn [rune_len].
  assert (∀ r t, String a s = r +:+ t → String.length r = S n → (∀ t, rune_len (r +:+ t) = S n) →
    ∃ r t, String a s = r +:+ t ∧ rune r ∧ String.length r = S n) as Hex.
  { intros r t -> Hl Hr. exists r, t. split; [done|]. split; [|done]. split; [by destruct r|]. intros t'. by rewrite Hl. }
  destruct (lead_size (byte_val a)) as [|[|[|[|[|k]]]]] eqn:El; intros H; try done.
  - injection H as <-. apply (Hex (String a "") s); [done..|]. intros t. simpl. by rewrite El.
  - destruct s as [|c s]; [done|]. destruct (second_ok _ _) eqn:E2; [|done]. injection H as <-.
    apply (Hex (String a (String c "")) s); [done..|]. intros t. simpl. by rewrite El, E2.
  - destruct s as [|c [|d s]]; [done..|]. destruct (second_ok _ _ && _) eqn:E2; [|done]. injection H as <-.
    apply (Hex (String a (String c (String d ""))) s); [done..|]. intros t. simpl. by rewrite El, E2.
  - destruct s as [|c [|d [|e s]]]; [done..|]. destruct (second_ok _ _ && _ && _) eqn:E2; [|done].
    injection H as <-.
    apply (Hex (String a (String c (String d (String e "")))) s); [done..|].
    intros t. simpl. by rewrite El, E2.
  - exfalso. unfold lead_size in El. repeat case_match; done.
Qed.

(** A string is read rune by rune, or by one byte where there is none. *)
Lemma rune_ind (P : string → Prop) :
  P "" → (∀ a t, rune_len (String a t) = O → P t → P (String a t)) →
  (∀ r t, rune r → P t → P (r +:+ t)) → ∀ s, P s.
Proof.
  intros H0 Hbad Hrune s. remember (String.length s) as n eqn:Hn. revert s Hn.
  induction n as [n IH] using lt_wf_ind. intros s ->. destruct s as [|a s]; [done|].
  destruct (rune_len (String a s)) as [|k] eqn:E.
  - apply Hbad; [done|]. by apply (IH (String.length s)); [simpl; lia|].
  - destruct (rune_split _ _ E) as (r&t&Hs&Hr&Hl). rewrite Hs in *. apply Hrune; [done|].
    apply (IH (String.length t)); [rewrite app_length; lia|done].
Qed.

Lemma rune_cons r : rune r → ∃ a r', r = String a r' ∧ (∀ t, rune_len (String a (r' +:+ t)) = S (String.length r')).
Proof. intros [Hne Hr]. destruct r as [|a r']; [done|]. exists a, r'. split; [done|]. intros t. apply (Hr t). Qed.

(** Copying and dropping the rest of a rune. *)
Lemma sanitize_copy r t : sanitize (String.length r) (r +:+ t) = r +:+ sanitize 0 t.
Proof. induction r as [|a r IH]; simpl; [done|by rewrite IH]. Qed.
Lemma utf8_valid_copy r t : utf8_valid (String.length r) (r +:+ t) = utf8_valid 0 t.
Proof. by induction r. Qed.
Lemma unquote_copy r t : unquote (String.length r) (r +:+ t) = r +:+ unquote 0 t.
Proof. induction r as [|a r IH]; simpl; [done|by rewrite IH]. Qed.
Lemma quote_go_reset b s : quote_go 0 b s = quote_go 0 true s.
Proof. by destruct s. Qed.
Lemma quote_go_copy r t : quote_go (String.length r) true (r +:+ t) = r +:+ quote_go 0 true t.
Proof. induction r as [|a r IH]; simpl; [done|by rewrite IH]. Qed.
Lemma quote_go_drop r t : quote_go (String.length r) false (r +:+ t) = quote_go 0 true t.
Proof. induction r as [|a r IH]; simpl; [apply quote_go_reset|done]. Qed.

Lemma sanitize_rune r t : rune r → sanitize 0 (r +:+ t) = r +:+ sanitize 0 t.
Proof.
  intros (a&r'&->&Hl)%rune_cons. rewrite !str_cons_app. cbn [sanitize]. rewrite Hl. by rewrite sanitize_copy.
Qed.

Lemma utf8_valid_rune r t : rune r → utf8_valid 0 (r +:+ t) = utf8_valid 0 t.
Proof.
  intros (a&r'&->&Hl)%rune_cons. rewrite !str_cons_app. cbn [utf8_valid]. rewrite Hl. apply utf8_valid_copy.
Qed.

(** Well-formed text is left alone. *)
Lemma sanitize_valid s : utf8_valid 0 s = true → sanitize 0 s = s.
Proof.
  induction s as [|a t Hb IH|r t Hr IH] using rune_ind; [done| |].
  - cbn [utf8_valid]. by rewrite Hb.
  - intros Hv. rewrite utf8_valid_rune in Hv by done. by rewrite sanitize_rune, IH.
Qed.

(** The first byte of a longer rune is not an ASCII character. *)
Lemma rune_lead a r :
  (∀ t, rune_len (String a (r +:+ t)) = S (String.length r)) → r ≠ "" → 128 ≤ byte_val a.
Proof.
  intros Hr Hne. specialize (Hr ""). cbn [rune_len] in Hr. unfold lead_size in Hr.
  destruct (Z.ltb_spec (byte_val a) 128); [|lia]. destruct r; [done|]. simpl in Hr. lia.
Qed.

Lemma not_backslash a : byte_val a ≠ 92 → Ascii.eqb a backslash = false.
Proof. intros H. apply Ascii.eqb_neq. intros ->. by apply H. Qed.

Lemma unquote_rune r t :
  rune r → (∀ a r', r = String a r' → byte_val a ≠ 92) → unquote 0 (r +:+ t) = r +:+ unquote 0 t.
Proof.
  intros (a&r'&->&Hl)%rune_cons Hb. rewrite !str_cons_app. cbn [unquote].
  rewrite (not_backslash a) by (by eapply Hb). rewrite Hl. by rewrite unquote_copy.
Qed.

(** ** Quoting and unquoting *)

Lemma unquote_quote_ascii a t :
  byte_val a < 128 → unquote 0 (quote_ascii a +:+ t) = String a (unquote 0 t).
Proof. destruct a as [[] [] [] [] [] [] [] []]; intros H; try reflexivity; exfalso; revert H; by vm_compute. Qed.

Lemma line_sep_Some r t d :
  rune r → line_sep (r +:+ t) = Some d →
  (d = "8"%char ∧ r = EncodeRune 8232) ∨ (d = "9"%char ∧ r = EncodeRune 8233).
Proof.
  intros (a&r'&->&Hl)%rune_cons. specialize (Hl t). rewrite !str_cons_app in *.
  unfold line_sep. destruct (r' +:+ t) as [|b [|c u]] eqn:Er; [done..|].
  destruct ((_ =? 226) && (_ =? 128) && _) eqn:E; [|done].
  apply andb_true_iff in E as [[Ha%Z.eqb_eq Hb%Z.eqb_eq]%andb_true_iff Hc%in_range_true]. intros [= <-].
  cbn [rune_len] in Hl. rewrite Ha in Hl. simpl in Hl. rewrite Hb in Hl. simpl in Hl.
  destruct (is_cont c); [|done]. injection Hl as Hl.
  destruct r' as [|b' [|c' [|? ?]]]; try done. injection Er as -> -> _.
  assert (a = byte_of 226) as -> by (by apply byte_val_inj).
  assert (b = byte_of 128) as -> by (by apply byte_val_inj).
  assert (byte_val c = 168 ∨ byte_val c = 169) as [Hc'|Hc'] by lia; [left|right].
  - assert (c = byte_of 168) as -> by (by apply byte_val_inj). done.
  - assert (c = byte_of 169) as -> by (by apply byte_val_inj). done.
Qed.

(** A numeric escape outside the surrogate range. *)
Lemma unquote_u4 h1 h2 h3 h4 r t :
  hex4 h1 h2 h3 h4 = Some r → is_surrogate r = false →
  unquote 0 (String backslash (String "u" (String h1 (String h2 (String h3 (String h4 t)))))) =
    EncodeRune r +:+ unquote 0 t.
Proof. intros Hr Hs. cbn -[hex4 is_surrogate EncodeRune]. by rewrite Hr, Hs. Qed.

(** Unquoting a quoted string gives the string with malformed bytes replaced. *)
Lemma unquote_quote s : unquote 0 (json_quote s) = sanitize 0 s.
Proof.
  unfold json_quote. induction s as [|a t Hb IH|r t Hr IH] using rune_ind; [done| |].
  - cbn [quote_go sanitize]. rewrite Hb. rewrite <-IH. by apply (unquote_u4 "f" "f" "f" "d" 65533).
  - rewrite sanitize_rune by done. destruct (rune_cons r Hr) as (a&r'&->&Hl).
    rewrite !str_cons_app. cbn [quote_go]. rewrite Hl. destruct r' as [|b r'].
    + cbn [String.length]. change ("" +:+ t) with t. rewrite unquote_quote_ascii, IH; [done|].
      specialize (Hl ""). cbn in Hl. unfold lead_size in Hl.
      destruct (Z.ltb_spec (byte_val a) 128); [done|]. by repeat case_match.
    + assert (128 ≤ byte_val a) as Hge by (by eapply rune_lead). cbn [String.length].
      destruct (line_sep _) as [d|] eqn:Es.
      * change (String a (String b r' +:+ t)) with (String a (String b r') +:+ t) in Es.
        rewrite (quote_go_drop (String b r')).
        change (String a (String b r' +:+ sanitize 0 t)) with (String a (String b r') +:+ sanitize 0 t).
        apply line_sep_Some in Es as [[-> ->]|[-> ->]]; [| |done]; rewrite <-IH;
          [by apply (unquote_u4 "2" "0" "2" "8" 8232)|by apply (unquote_u4 "2" "0" "2" "9" 8233)].
      * rewrite (quote_go_copy (String b r')).
        change (String a (String b r' +:+ quote_go 0 true t)) with (String a (String b r') +:+ quote_go 0 true t).
        rewrite unquote_rune, IH; [done..|]. intros ? ? [= <- _]. lia.
Qed.

(** ** Decoded strings are well formed *)

Lemma rune_encode r : 0 ≤ r ≤ 1114111 → is_surrogate r = false → rune (EncodeRune r).
Proof.
  intros Hr Hs. assert (¬ 55296 ≤ r ≤ 57343) as Hs' by (intros H%in_range_true; unfold is_surrogate in Hs; congruence).
  unfold EncodeRune. split; [by repeat case_match|]. intros t.
  destruct (Z.ltb_spec r 128); [|destruct (Z.ltb_spec r 2048); [|destruct (Z.ltb_spec r 65536)]];
    rewrite !str_cons_app; cbn [rune_len String.length]; unfold is_cont; rewrite !byte_val_of by (Z.to_euclidean_division_equations; lia);
    unfold lead_size, second_ok, in_range;
    repeat match goal with
    | |- context [?x <? ?y] => destruct (Z.ltb_spec x y); try (exfalso; Z.to_euclidean_division_equations; lia)
    | |- context [?x <=? ?y] => destruct (Z.leb_spec x y); try (exfalso; Z.to_euclidean_division_equations; lia)
    | |- context [?x =? ?y] => destruct (Z.eqb_spec x y); try (exfalso; Z.to_euclidean_division_equations; lia)
    end; reflexivity.
Qed.

Lemma rune_ascii a : byte_val a < 128 → rune (String a "").
Proof.
  intros H. split; [done|]. intros t. rewrite str_cons_app. cbn [rune_len]. unfold lead_size.
  destruct (Z.ltb_spec (byte_val a) 128); [done|lia].
Qed.

Lemma utf8_valid_cons a s : byte_val a < 128 → utf8_valid 0 s = true → utf8_valid 0 (String a s) = true.
Proof. intros Ha Hs. change (String a s) with (String a "" +:+ s). by rewrite utf8_valid_rune by by apply rune_ascii. Qed.

Lemma hex_val_range a x : hex_val a = Some x → 0 ≤ x < 16.
Proof.
  unfold hex_val. intros H. repeat case_match; try done; injection H as <-;
    repeat match goal with H : in_range _ _ _ = true |- _ => apply in_range_true in H end; lia.
Qed.

Lemma hex4_range a b c d r : hex4 a b c d = Some r → 0 ≤ r < 65536.
Proof.
  unfold hex4. intros (x&Hx%hex_val_range&(y&Hy%hex_val_range&(z&Hz%hex_val_range&
    (w&Hw%hex_val_range&[= <-])%bind_Some)%bind_Some)%bind_Some)%bind_Some. lia.
Qed.

Lemma low_half_range r a u g1 g2 g3 g4 r' :
  low_half r a u g1 g2 g3 g4 = Some r' → 0 ≤ r' ≤ 1114111 ∧ is_surrogate r' = false.
Proof.
  unfold low_half. destruct (_ && _); [|done]. intros (r2&_&H)%bind_Some. revert H. unfold utf16_decode.
  destruct (in_range _ _ r && _) eqn:E; [|done].
  apply andb_true_iff in E as [H1%in_range_true H2%in_range_true]. intros [= <-]. split; [lia|].
  apply not_true_iff_false. intros H%in_range_true. lia.
Qed.

Lemma simple_escape_ascii a c : simple_escape a = Some c → byte_val c < 128.
Proof. unfold simple_escape. intros H. repeat case_match; simplify_eq; try done. lia. Qed.

(** Whatever the text between the quotes is, the decoded string is well-formed
    UTF-8. *)
Lemma unquote_valid s : utf8_valid 0 (unquote 0 s) = true.
Proof.
  remember (String.length s) as n eqn:Hn. revert s Hn. induction n as [n IH] using lt_wf_ind. intros s ->.
  assert (∀ r t, rune r → (String.length t < String.length s)%nat →
    utf8_valid 0 (r +:+ unquote 0 t) = true) as Hnext.
  { intros r t Hr Ht. rewrite utf8_valid_rune by done. by apply (IH _ Ht). }
  assert (rune replacement) as Hrep by (by apply (rune_encode 65533)).
  destruct s as [|a s]; [done|]. destruct (Ascii.eqb a backslash) eqn:Ea.
  2:{ destruct (rune_len (String a s)) as [|k] eqn:El.
      - cbn [unquote]. rewrite Ea, El. by apply Hnext; [|simpl; lia].
      - destruct (rune_split _ _ El) as (r&t&Hs&Hr&Hl). rewrite Hs in *. rewrite unquote_rune; [|done|].
        + apply Hnext; [done|]. rewrite app_length. lia.
        + intros a' r' ->. injection Hs as -> _. intros Hb. by rewrite (byte_val_inj a' backslash Hb) in Ea. }
  cbn [unquote]. rewrite Ea. destruct s as [|e s]; [done|].
  destruct (simple_escape e) as [c|] eqn:Ee.
  { apply (Hnext (String c "")); [|simpl; lia]. by eapply rune_ascii, simple_escape_ascii. }
  destruct s as [|h1 [|h2 [|h3 [|h4 s]]]]; try done. destruct (hex4 h1 h2 h3 h4) as [r|] eqn:Eh; [|done].
  apply hex4_range in Eh. destruct (is_surrogate r) eqn:Es.
  2:{ apply Hnext; [apply rune_encode; [lia|done]|simpl; lia]. }
  destruct s as [|x [|u [|g1 [|g2 [|g3 [|g4 s]]]]]]; try (apply Hnext; [done|simpl; lia]).
  destruct (low_half r x u g1 g2 g3 g4) as [r'|] eqn:Elow; (apply Hnext; [|simpl; lia]); [|done].
  apply low_half_range in Elow as [Hr1 Hr2]. by apply rune_encode.
Qed.
