(* ===== verification/JsonNumber.v ===== *)
(** * JSON numbers

    What the gateway uses of strconv through encoding/json: the scanner's
    states inside a number literal, [ParseInt] and [ParseFloat] on literals,
    and the printing of integers and of doubles.  [ParseFloat] rounds the
    exact decimal value ([f64_of_dec]); [json.Marshal] prints a double with
    the fewest digits that read back as the same double ([shortest]). *)

From S2P Require Import Prelude GoStrings Float64.
From Stdlib Require Import Ascii SpecFloat.
Local Open Scope Z_scope.

(** ** The scanner's number states *)

Inductive num_state := NNeg | NZero | NInt | NDot | NFrac | NExp | NExpSign | NExpInt.

Definition num_start (c : ascii) : option num_state :=
  if Ascii.eqb c "-" then Some NNeg
  else if Ascii.eqb c "0" then Some NZero
  else if is_digit c then Some NInt
  else None.

Definition is_e (c : ascii) : bool := Ascii.eqb c "e" || Ascii.eqb c "E".

(** One more character; [None]: it does not belong to the number. *)
Definition num_step (st : num_state) (c : ascii) : option num_state :=
  match st with
  | NNeg => if Ascii.eqb c "0" then Some NZero else if is_digit c then Some NInt else None
  | NZero =>
      if Ascii.eqb c "." then Some NDot else if is_e c then Some NExp else None
  | NInt =>
      if is_digit c then Some NInt
      else if Ascii.eqb c "." then Some NDot else if is_e c then Some NExp else None
  | NDot => if is_digit c then Some NFrac else None
  | NFrac => if is_digit c then Some NFrac else if is_e c then Some NExp else None
  | NExp =>
      if Ascii.eqb c "+" || Ascii.eqb c "-" then Some NExpSign
      else if is_digit c then Some NExpInt else None
  | NExpSign => if is_digit c then Some NExpInt else None
  | NExpInt => if is_digit c then Some NExpInt else None
  end.

(** The number may end here. *)
Definition num_final (st : num_state) : bool :=
  match st with NZero | NInt | NFrac | NExpInt => true | _ => false end.

Fixpoint num_run (st : num_state) (s : string) : option num_state :=
  match s with
  | "" => Some st
  | String c s => num_step st c ≫= λ st, num_run st s
  end.

(** A complete number literal. *)
Definition num_lit (s : string) : Prop :=
  ∃ c t st0 st, s = String c t ∧ num_start c = Some st0 ∧ num_run st0 t = Some st ∧ num_final st = true.

(** ** Reading literals *)

Fixpoint span_digits (s : string) : string * string :=
  match s with
  | String c t => if is_digit c then let '(d, r) := span_digits t in (String c d, r) else ("", s)
  | "" => ("", "")
  end.

(** strconv stops adding digits to an exponent once it has reached 10000. *)
Fixpoint exp_val (acc : Z) (s : string) : Z :=
  match s with
  | "" => acc
  | String c s => exp_val (if acc <? 10000 then acc * 10 + digit_val c else acc) s
  end.

Definition parse_exp (s : string) : option Z :=
  match s with
  | "" => Some 0
  | String c t =>
      if is_e c then
        let '(neg, t) :=
          match t with
          | String d u => if Ascii.eqb d "-" then (true, u) else if Ascii.eqb d "+" then (false, u) else (false, t)
          | "" => (false, t)
          end in
        let '(ds, rest) := span_digits t in
        if bool_decide (ds = "") || negb (bool_decide (rest = "")) then None
        else Some (if neg : bool then - exp_val 0 ds else exp_val 0 ds)
      else None
  end.

(** Sign, mantissa [m] and exponent [e] of a literal: its value is
    [m * 10^e]. *)
Definition parse_decimal (s : string) : option (bool * Z * Z) :=
  let '(neg, s) :=
    match s with
    | String c t => if Ascii.eqb c "-" then (true, t) else (false, s)
    | "" => (false, s)
    end in
  let '(i, s) := span_digits s in
  let '(f, s) :=
    match s with
    | String c t => if Ascii.eqb c "." then span_digits t else ("", s)
    | "" => ("", s)
    end in
  m ← parse_digits (i +:+ f); e ← parse_exp s;
  Some (neg, m, e - Z.of_nat (String.length f)).

(** [n/d], rounded to nearest even. *)
Definition f64_ratio (neg : bool) (n d : positive) : f64 :=
  let '(q, e, l) := SFdiv_core_binary 53 1024 (Z.pos n) 0 (Z.pos d) 0 in
  binary_round_aux 53 1024 neg q e l.

(** [m * 10^e], rounded. *)
Definition f64_of_dec (neg : bool) (m e : Z) : f64 :=
  match m with
  | Z.pos _ =>
      if 0 <=? e then f64_ratio neg (Z.to_pos (m * 10 ^ e)) 1
      else f64_ratio neg (Z.to_pos m) (Z.to_pos (10 ^ (- e)))
  | _ => S754_zero neg
  end.

(** [strconv.ParseFloat(s, 64)]; [None]: a malformed literal or one whose value
    overflows. *)
Definition ParseFloat (s : string) : option f64 :=
  '(neg, m, e) ← parse_decimal s;
  let x := f64_of_dec neg m e in
  if f64_IsInf x then None else Some x.

(** ** Printing doubles *)

(** Trailing zeros moved into the exponent. *)
Fixpoint trim10 (fuel : nat) (c e : Z) : Z * Z :=
  match fuel with
  | O => (c, e)
  | S fuel => if (c =? 0) || negb (c mod 10 =? 0) then (c, e) else trim10 fuel (c / 10) (e + 1)
  end.

Definition ndigits (z : Z) : Z := Z.of_nat (String.length (Itoa z)).

(** [k] with [10^(k-1) <= n/d < 10^k]. *)
Definition dec_point (n d : Z) : Z :=
  if d <=? n then ndigits (n / d) else 1 - ndigits ((d - 1) / n).

(** The decimals with [j] digits around [n/d]: quotient, remainder and divisor
    of [n/d * 10^(j-k)]. *)
Definition dec_quot (n d k j : Z) : Z * Z * Z :=
  let n' := n * 10 ^ (Z.max 0 (j - k)) in
  let d' := d * 10 ^ (Z.max 0 (k - j)) in
  (n' / d', n' mod d', d').

Section Shortest.
(** The double to print, its sign, and its magnitude [n/d]. *)
Context (x : f64) (neg : bool) (n d : Z).

(** [roundShortest]: with more and more digits, until the decimal below or the
    one above reads back as [x]; when both do, the nearer one. *)
Fixpoint shortest_from (fuel : nat) (j : Z) : Z * Z :=
  let k := dec_point n d in
  let '(lo, r, d') := dec_quot n d k j in
  let '(c0, e0) := trim10 (Z.to_nat j) lo (k - j) in
  let '(c1, e1) := trim10 (Z.to_nat j) (lo + 1) (k - j) in
  let okdown := bool_decide (f64_of_dec neg c0 e0 = x) in
  let okup := bool_decide (f64_of_dec neg c1 e1 = x) in
  if okdown && okup then
    (if (2 * r <? d') || ((2 * r =? d') && Z.even lo) then (c0, e0) else (c1, e1))
  else if okdown then (c0, e0)
  else if okup then (c1, e1)
  else match fuel with O => (c0, e0) | S fuel => shortest_from fuel (j + 1) end.
End Shortest.

(** Digits of a double: the first one that is enough.  A double has at most
    1400 significant digits. *)
Definition shortest (neg : bool) (m : positive) (e : Z) : Z * Z :=
  shortest_from (S754_finite neg m e) neg (Z.pos m * 2 ^ Z.max 0 e) (2 ^ Z.max 0 (- e)) 1500 1.

Definition zeros (n : Z) : string := bytes (repeat 48%N (Z.to_nat n)).

(** [%e] after the cleanup of the exponent, and [%f], for digits [c] and
    exponent [e]. *)
Definition format_e (c e : Z) : string :=
  let ds := Itoa c in
  let x := ndigits c + e - 1 in
  str_take 1 ds +:+ (if 1 <? ndigits c then "." +:+ str_drop 1 ds else "") +:+
  "e" +:+ (if x <? 0 then "-" else "+") +:+ Itoa (Z.abs x).

Definition format_f (c e : Z) : string :=
  let ds := Itoa c in
  let dp := ndigits c + e in
  if 0 <=? e then ds +:+ zeros e
  else if 0 <? dp then str_take (Z.to_nat dp) ds +:+ "." +:+ str_drop (Z.to_nat dp) ds
  else "0." +:+ zeros (- dp) +:+ ds.

(** [floatEncoder]; [None]: infinities and NaN are not supported. *)
Definition format_float (x : f64) : option string :=
  match x with
  | S754_zero neg => Some ((if neg then "-" else "") +:+ "0")
  | S754_finite neg m e =>
      let '(c, ex) := shortest neg m e in
      let abs := S754_finite false m e in
      Some ((if neg then "-" else "") +:+
            (if f64_ltb abs (f64_of_dec false 1 (-6)) || negb (f64_ltb abs (f64_of_dec false 1 21))
             then format_e c ex else format_f c ex))
  | _ => None
  end.

Example format_ex1 : format_float (f64_of_dec false 7 (-1)) = Some "0.7".
Proof. vm_compute. reflexivity. Qed.
Example format_ex2 : format_float (f64_div (f64_of_Z 1) (f64_of_Z 3)) = Some "0.3333333333333333".
Proof. vm_compute. reflexivity. Qed.
Example format_ex3 : format_float (f64_of_dec true 123456 20) = Some "-1.23456e+25".
Proof. vm_compute. reflexivity. Qed.
Example format_ex4 : format_float (f64_of_dec false 5 (-324)) = Some "5e-324".
Proof. vm_compute. reflexivity. Qed.
Example format_ex5 : ParseFloat "0.30000000000000004e0" = Some (f64_add (f64_of_dec false 1 (-1)) (f64_of_dec false 2 (-1))).
Proof. vm_compute. reflexivity. Qed.
Example format_ex6 : format_float (f64_of_dec false 9007199254740993 0) = Some "9007199254740992".
Proof. vm_compute. reflexivity. Qed.
Example format_ex7 : format_float (f64_of_dec false 17976931348623157 292) = Some "1.7976931348623157e+308".
Proof. vm_compute. reflexivity. Qed.

(** ** Decimal digits *)

Lemma pretty_N_go_head x s :
  (0 < x)%N → ∃ a t, pretty_N_go x s = String a (t +:+ s) ∧ is_digit a = true ∧ a ≠ "0"%char ∧
    str_all is_digit t = true.
Proof.
  revert s. induction (N.lt_wf_0 x) as [x _ IH]; intros s Hx. rewrite pretty_N_go_step by done.
  destruct (N.eq_0_gt_0_cases (x / 10)) as [H0|H0].
  - rewrite H0, pretty_N_go_0. exists (pretty_N_char (x mod 10)), "". split; [done|].
    split; [apply pretty_N_char_digit|]. split; [|done].
    assert (x mod 10 = x)%N as ->.
    { apply N.mod_small. by apply N.div_small_iff. }
    assert (x < 10)%N by (by apply N.div_small_iff).
    assert (x = 1 ∨ x = 2 ∨ x = 3 ∨ x = 4 ∨ x = 5 ∨ x = 6 ∨ x = 7 ∨ x = 8 ∨ x = 9)%N as Hc by lia.
    repeat destruct Hc as [->|Hc]; try done. by rewrite Hc.
  - destruct (IH (x / 10)%N ltac:(by apply N.div_lt) (String (pretty_N_char (x mod 10)) s) H0)
      as (a&t&->&Ha&Hne&Ht).
    exists a, (t +:+ String (pretty_N_char (x mod 10)) ""). split; [by rewrite app_assoc_str|].
    split; [done|]. split; [done|]. by rewrite str_all_app, Ht, str_all_cons, pretty_N_char_digit.
Qed.

Lemma Itoa_head c :
  0 < c → ∃ a t, Itoa c = String a t ∧ is_digit a = true ∧ a ≠ "0"%char ∧ str_all is_digit t = true.
Proof.
  intros Hc. destruct c as [|p|p]; try lia. rewrite Itoa_pos_eq.
  destruct (pretty_N_go_head (Npos p) "" ltac:(done)) as (a&t&->&H). exists a, t. by rewrite app_nil_r_str.
Qed.

Lemma pretty_N_go_length x s (b : nat) :
  (Z.of_N x < 10 ^ Z.of_nat b) → (String.length (pretty_N_go x s) ≤ b + String.length s)%nat.
Proof.
  revert x s. induction b as [|b IH]; intros x s Hx.
  - assert (x = 0)%N as -> by (change (10 ^ Z.of_nat 0) with 1 in Hx; lia). by rewrite pretty_N_go_0.
  - assert (x = 0 ∨ 0 < x)%N as [->|H0] by lia; [rewrite pretty_N_go_0; lia|].
    rewrite pretty_N_go_step by done. etrans; [apply IH|simpl; lia].
    rewrite Nat2Z.inj_succ, Z.pow_succ_r in Hx by lia. rewrite N2Z.inj_div.
    apply Z.div_lt_upper_bound; lia.
Qed.

Lemma ndigits_le z b : 0 ≤ z < 10 ^ b → 1 ≤ b → 1 ≤ ndigits z ≤ b.
Proof.
  intros Hz Hb. unfold ndigits. assert (z = 0 ∨ 0 < z) as [->|Hpos] by lia; [simpl; lia|].
  destruct (Itoa_head z Hpos) as (a&t&E&_). split; [rewrite E; simpl; lia|].
  destruct z as [|p|p]; try lia. rewrite Itoa_pos_eq in *.
  pose proof (pretty_N_go_length (Npos p) "" (Z.to_nat b)) as Hl. rewrite Z2Nat.id in Hl by lia.
  specialize (Hl ltac:(simpl; lia)). simpl in Hl. lia.
Qed.

Lemma span_digits_app d rest :
  str_all is_digit d = true → (∀ c t, rest = String c t → is_digit c = false) →
  span_digits (d +:+ rest) = (d, rest).
Proof.
  intros Hd Hr. induction d as [|a d IH].
  - destruct rest as [|c t]; [done|]. simpl. by rewrite (Hr c t).
  - rewrite str_all_cons in Hd. apply andb_true_iff in Hd as [Ha Hd]. simpl. by rewrite Ha, IH.
Qed.

Lemma span_digits_all d : str_all is_digit d = true → span_digits d = (d, "").
Proof. intros Hd. rewrite <-(app_nil_r_str d) at 1. by apply span_digits_app. Qed.

Lemma digits_val_app acc s t :
  digits_val acc (s +:+ t) = digits_val acc s ≫= λ v, digits_val v t.
Proof.
  revert acc. induction s as [|a s IH]; intros acc; [done|]. simpl. destruct (is_digit a); [apply IH|done].
Qed.

Lemma str_all_zeros n : str_all is_digit (zeros n) = true.
Proof. unfold zeros. by induction (Z.to_nat n). Qed.

Lemma zeros_length n : String.length (zeros n) = Z.to_nat n.
Proof. unfold zeros. induction (Z.to_nat n) as [|k IH]; simpl; [done|by rewrite IH]. Qed.

Lemma digits_val_zeros acc n : 0 ≤ n → digits_val acc (zeros n) = Some (acc * 10 ^ n).
Proof.
  intros Hn. unfold zeros. rewrite <-(Z2Nat.id n) at 2 by done. generalize (Z.to_nat n) as k.
  intros k. revert acc. induction k as [|k IH]; intros acc; [simpl; f_equal; lia|].
  change (digits_val acc (bytes (repeat 48%N (S k)))) with
    (digits_val (acc * 10 + 0) (bytes (repeat 48%N k))).
  rewrite IH. rewrite Nat2Z.inj_succ, Z.pow_succ_r by lia. f_equal. lia.
Qed.

(** ** Exact values are not rounded *)

Lemma SFdiv_core_form n d :
  ∃ e, SFdiv_core_binary 53 1024 (Z.pos n) 0 (Z.pos d) 0 =
    (Z.pos n * 2 ^ (- e) / Z.pos d, e, new_location (Z.pos d) ((Z.pos n * 2 ^ (- e)) mod Z.pos d)) ∧
    e = Z.min (fexp 53 1024 (Z.log2 (Z.pos n) - Z.log2 (Z.pos d))) 0.
Proof.
  eexists. split; [|reflexivity]. unfold SFdiv_core_binary. cbn [Zdigits2]. rewrite !digits2_log2.
  replace (Z.log2 (Z.pos n) + 1 + 0 - (Z.log2 (Z.pos d) + 1 + 0)) with (Z.log2 (Z.pos n) - Z.log2 (Z.pos d)) by lia.
  set (e := Z.min _ _). assert (e ≤ 0) as He by (unfold e; lia). clearbody e.
  replace (0 - 0 - e) with (- e) by lia.
  assert (match - e with Z.pos _ => Z.shiftl (Z.pos n) (- e) | Z0 => Z.pos n | Z.neg _ => 0 end
    = Z.pos n * 2 ^ (- e)) as ->.
  { destruct (- e) eqn:E; [lia| |lia]. rewrite Z.shiftl_mul_pow2; lia. }
  unfold Z.div, Z.modulo. by destruct (Z.div_eucl _ _).
Qed.

(** A quotient that is a canonical double is that double. *)
Lemma f64_ratio_exact s n d m e :
  nonneg_fin (S754_finite false m e) →
  Z.pos n * 2 ^ Z.max 0 (- e) = Z.pos m * 2 ^ Z.max 0 e * Z.pos d →
  f64_ratio s n d = S754_finite s m e.
Proof.
  intros (Hm&He&Hc&_)%nonneg_fin_finite Heq. unfold f64_ratio.
  destruct (SFdiv_core_form n d) as (e'&->&He').
  set (a := Z.max 0 (- e)) in *. set (b := Z.max 0 e) in *. assert (b - a = e) as Hba by lia.
  assert (Z.log2 (Z.pos n) + a ≤ Z.log2 (Z.pos m) + b + Z.log2 (Z.pos d) + 1) as Hlog.
  { rewrite <-!log2_shift by lia. rewrite Heq. apply Z.log2_mul_above; [|lia].
    pose proof (pow2_pos b ltac:(lia)). nia. }
  assert (e' ≤ e) as Hle by (rewrite fexp_max in *; lia).
  assert (Z.pos n * 2 ^ (- e') = Z.pos m * 2 ^ (e - e') * Z.pos d) as Hq.
  { assert (0 ≤ - e' - a) by lia. replace (- e') with (a + (- e' - a)) by lia.
    replace (e - e') with (b + (- e' - a)) by lia. rewrite !Z.pow_add_r by lia.
    rewrite !Z.mul_assoc, Heq. ring. }
  rewrite Hq, Z.div_mul, Z_mod_mult by lia.
  assert (new_location (Z.pos d) 0 = loc_Exact) as -> by (unfold new_location; by destruct (Z.even _)).
  pose proof (pow2_pos (e - e') ltac:(lia)) as Hpow.
  assert (Z.log2 (Z.pos m * 2 ^ (e - e')) + 1 + e' = Z.log2 (Z.pos m) + 1 + e) as Hl
    by (rewrite log2_shift; lia).
  destruct (round_form s (Z.pos m * 2 ^ (e - e')) e') as (m1&->&_&_&Hex); [nia|rewrite Hl; lia|].
  rewrite Hl, <-Hc in Hex |- *. rewrite Z_mod_mult, Z.div_mul in Hex by lia. specialize (Hex eq_refl).
  rewrite Hex. unfold pack. destruct (Z.eqb_spec (Z.pos m) 0); [lia|].
  destruct (Z.eqb_spec (Z.pos m) (2 ^ 53)); [lia|]. by destruct (Z.leb_spec e 971); [|lia].
Qed.

Lemma f64_of_dec_exact s c ec m e :
  nonneg_fin (S754_finite false m e) → 0 < c →
  c * 10 ^ Z.max 0 ec * 2 ^ Z.max 0 (- e) = Z.pos m * 2 ^ Z.max 0 e * 10 ^ Z.max 0 (- ec) →
  f64_of_dec s c ec = S754_finite s m e.
Proof.
  intros Hf Hc Heq. unfold f64_of_dec. destruct c as [|p|p]; try lia.
  pose proof (Z.pow_pos_nonneg 10 ec ltac:(lia)). pose proof (Z.pow_pos_nonneg 10 (- ec) ltac:(lia)).
  destruct (Z.leb_spec 0 ec); apply f64_ratio_exact; try done.
  - rewrite Z2Pos.id by nia. rewrite (Z.max_l 0 (- ec)), (Z.max_r 0 ec) in Heq by lia.
    change (Z.pos 1) with (10 ^ 0). lia.
  - rewrite !Z2Pos.id by lia. rewrite (Z.max_r 0 (- ec)), (Z.max_l 0 ec) in Heq by lia. lia.
Qed.

(** ** The shortest digits read back *)

Lemma trim10_spec fuel c e :
  0 ≤ c → let '(c', e') := trim10 fuel c e in
  0 ≤ c' ≤ c ∧ e ≤ e' ≤ e + Z.of_nat fuel ∧ c = c' * 10 ^ (e' - e).
Proof.
  revert c e. induction fuel as [|fuel IH]; intros c e Hc; cbn [trim10].
  { rewrite Z.sub_diag. lia. }
  destruct (Z.eqb_spec c 0) as [|H0]; simpl; [rewrite Z.sub_diag; lia|].
  destruct (Z.eqb_spec (c mod 10) 0) as [Hm|]; simpl; [|rewrite Z.sub_diag; lia].
  assert (c = 10 * (c / 10)) as Hc10 by (apply Z.div_exact; lia).
  specialize (IH (c / 10) (e + 1) ltac:(apply Z.div_pos; lia)).
  destruct (trim10 fuel (c / 10) (e + 1)) as [c' e']. destruct IH as (Hc'&He'&Heq).
  split; [lia|]. split; [lia|]. replace (e' - e) with (1 + (e' - (e + 1))) by lia.
  rewrite Z.pow_add_r by lia. lia.
Qed.

(** Powers of ten that bound the digits; definitions, so that [lia] does not
    compute them. *)
Definition n_max : Z := 10 ^ 309.
Definition d_max : Z := 10 ^ 324.
Definition c_max : Z := 10 ^ 2200.

Section ShortestSpec.
Context (neg : bool) (m : positive) (e : Z) (Hx : nonneg_fin (S754_finite false m e)).
Let x := S754_finite neg m e.
Let n := Z.pos m * 2 ^ Z.max 0 e.
Let d := 2 ^ Z.max 0 (- e).
Let k := dec_point n d.

Lemma magnitude_bounds : 0 < n < n_max ∧ 0 < d < d_max.
Proof using Hx.
  destruct (nonneg_fin_finite m e Hx) as (Hm&He&_). unfold n, d.
  pose proof (pow2_pos (Z.max 0 e) ltac:(lia)). pose proof (pow2_pos (Z.max 0 (- e)) ltac:(lia)).
  split; (split; [lia|]).
  - apply Z.le_lt_trans with (2 ^ 53 * 2 ^ 971); [|apply Z.ltb_lt; vm_compute; reflexivity].
    apply Z.mul_le_mono_nonneg; [lia|lia|lia|apply Z.pow_le_mono_r; lia].
  - apply Z.le_lt_trans with (2 ^ 1074); [|apply Z.ltb_lt; vm_compute; reflexivity].
    apply Z.pow_le_mono_r; lia.
Qed.

Lemma dec_point_bounds : -323 ≤ k ≤ 309.
Proof using Hx.
  destruct magnitude_bounds as [Hn Hd]. unfold k, dec_point. destruct (Z.leb_spec d n).
  - assert (1 ≤ ndigits (n / d) ≤ 309); [|lia]. apply ndigits_le; [|lia]. fold n_max.
    split; [apply Z.div_pos; lia|]. eapply Z.le_lt_trans; [apply Z.div_le_upper_bound; [lia|]|apply Hn]. nia.
  - assert (1 ≤ ndigits ((d - 1) / n) ≤ 324); [|lia]. apply ndigits_le; [|lia]. fold d_max.
    split; [apply Z.div_pos; lia|]. eapply Z.le_lt_trans; [apply Z.div_le_upper_bound; [lia|]|apply Hd]. nia.
Qed.

(** What a candidate must satisfy to be printed. *)
Definition reads_back (c ec : Z) : Prop :=
  f64_of_dec neg c ec = x ∧ 0 < c < c_max ∧ -1900 ≤ ec ≤ 309.

Lemma candidate_bounds j lo :
  1 ≤ j ≤ 1501 → 0 ≤ lo ≤ n * 10 ^ Z.max 0 (j - k) + 1 →
  let '(c, ec) := trim10 (Z.to_nat j) lo (k - j) in
  f64_of_dec neg c ec = x → reads_back c ec.
Proof using Hx.
  intros Hj Hlo. pose proof dec_point_bounds as Hk. destruct magnitude_bounds as [Hn _].
  pose proof (trim10_spec (Z.to_nat j) lo (k - j) ltac:(lia)) as Ht.
  destruct (trim10 (Z.to_nat j) lo (k - j)) as [c ec]. destruct Ht as (Hc&He&_). intros Hf.
  split; [done|]. split; [|lia]. split.
  - unfold f64_of_dec in Hf. by destruct c.
  - apply Z.le_lt_trans with (n_max * 10 ^ 1824 + 1); [|apply Z.ltb_lt; vm_compute; reflexivity].
    etrans; [apply Hc|]. etrans; [apply Hlo|]. apply Z.add_le_mono_r.
    apply Z.mul_le_mono_nonneg; [lia|lia|apply Z.pow_nonneg; lia|apply Z.pow_le_mono_r; lia].
Qed.

(** With enough digits the decimal below is exact. *)
Lemma candidate_exact j :
  1 ≤ j → k + Z.max 0 (- e) ≤ j →
  let '(lo, _, _) := dec_quot n d k j in
  let '(c, ec) := trim10 (Z.to_nat j) lo (k - j) in f64_of_dec neg c ec = x.
Proof using Hx.
  intros Hj Hjk. destruct magnitude_bounds as [Hn Hd]. unfold dec_quot.
  rewrite (Z.max_r 0 (j - k)), (Z.max_l 0 (k - j)) by lia. rewrite Z.mul_1_r.
  set (lo := n * 10 ^ (j - k) / d). set (t := j - k).
  assert (lo * d = n * 10 ^ t) as Hlo.
  { assert (Z.divide d (n * 10 ^ t)) as [q Hq].
    { apply Z.divide_mul_r. exists (2 ^ (t - Z.max 0 (- e)) * 5 ^ t). unfold d.
      replace 10 with (2 * 5) by lia. rewrite Z.pow_mul_l.
      replace (2 ^ t) with (2 ^ (t - Z.max 0 (- e)) * 2 ^ Z.max 0 (- e)); [ring|].
      rewrite <-Z.pow_add_r by (unfold t; lia). f_equal. lia. }
    unfold lo. fold t. rewrite Hq, Z.div_mul by lia. done. }
  pose proof (Z.pow_pos_nonneg 10 t ltac:(lia) ltac:(unfold t; lia)) as Hpt.
  pose proof (trim10_spec (Z.to_nat j) lo (k - j) ltac:(apply Z.div_pos; nia)) as Ht.
  destruct (trim10 (Z.to_nat j) lo (k - j)) as [c ec]. destruct Ht as (Hc&He&Heq).
  replace (ec - (k - j)) with (ec + t) in Heq by (unfold t; lia). rewrite Heq in Hlo.
  apply f64_of_dec_exact; [done|destruct (Z.eq_dec c 0) as [->|]; [nia|lia]|]. fold d n.
  destruct (Z.le_gt_cases 0 ec) as [Hec|Hec].
  - rewrite (Z.max_r 0 ec), (Z.max_l 0 (- ec)), Z.mul_1_r by lia.
    rewrite Z.pow_add_r in Hlo by (unfold t; lia).
    apply (Z.mul_cancel_r _ _ (10 ^ t)); [lia|]. rewrite <-Hlo. ring.
  - rewrite (Z.max_l 0 ec), (Z.max_r 0 (- ec)), Z.mul_1_r by lia.
    replace t with ((ec + t) + (- ec)) in Hlo at 2 by lia. rewrite (Z.pow_add_r 10 (ec + t)) in Hlo by (unfold t; lia).
    pose proof (Z.pow_pos_nonneg 10 (ec + t) ltac:(lia) ltac:(unfold t; lia)).
    apply (Z.mul_cancel_r _ _ (10 ^ (ec + t))); [lia|].
    transitivity (c * 10 ^ (ec + t) * d); [ring|]. rewrite Hlo. ring.
Qed.

Lemma dec_quot_bounds j :
  let '(lo, _, _) := dec_quot n d k j in 0 ≤ lo ≤ n * 10 ^ Z.max 0 (j - k).
Proof using Hx.
  destruct magnitude_bounds as [Hn Hd]. unfold dec_quot.
  pose proof (Z.pow_pos_nonneg 10 (Z.max 0 (j - k)) ltac:(lia) ltac:(lia)).
  pose proof (Z.pow_pos_nonneg 10 (Z.max 0 (k - j)) ltac:(lia) ltac:(lia)).
  assert (0 ≤ n * 10 ^ Z.max 0 (j - k)) by nia. assert (0 < d * 10 ^ Z.max 0 (k - j)) by nia.
  generalize dependent (n * 10 ^ Z.max 0 (j - k)). generalize dependent (d * 10 ^ Z.max 0 (k - j)).
  intros D HD N HN. split; [apply Z.div_pos; lia|]. apply Z.div_le_upper_bound; nia.
Qed.

Lemma shortest_from_spec fuel j :
  1 ≤ j → j + Z.of_nat fuel = 1501 →
  let '(c, ec) := shortest_from x neg n d fuel j in reads_back c ec.
Proof using Hx.
  revert j. induction fuel as [|fuel IH]; intros j Hj Hf; cbn [shortest_from]; fold k;
    pose proof (dec_quot_bounds j) as Hq; pose proof (candidate_exact j Hj) as Hex;
    destruct (dec_quot n d k j) as [[lo r] d'];
    pose proof (candidate_bounds j lo ltac:(lia) ltac:(lia)) as H0;
    pose proof (candidate_bounds j (lo + 1) ltac:(lia) ltac:(lia)) as H1;
    destruct (trim10 _ lo _) as [c0 e0], (trim10 _ (lo + 1) _) as [c1 e1];
    destruct (bool_decide_reflect (f64_of_dec neg c0 e0 = x)) as [Hd0|Hd0],
      (bool_decide_reflect (f64_of_dec neg c1 e1 = x)) as [Hd1|Hd1]; simpl; auto;
    try (by destruct (_ || _); auto).
  - destruct (nonneg_fin_finite m e Hx) as (_&He&_). pose proof dec_point_bounds.
    destruct Hd0. apply Hex. lia.
  - apply IH; lia.
Qed.

Lemma shortest_spec : let '(c, ec) := shortest neg m e in reads_back c ec.
Proof using Hx. apply shortest_from_spec; lia. Qed.
End ShortestSpec.

(** ** Literals of printed numbers *)

Definition sign (neg : bool) : string := if neg then "-" else "".

Lemma num_run_app st s t : num_run st (s +:+ t) = num_run st s ≫= λ st, num_run st t.
Proof.
  revert st. induction s as [|a s IH]; intros st; [done|]. change (String a s +:+ t) with (String a (s +:+ t)). simpl.
  destruct (num_step st a); [apply IH|done].
Qed.

Lemma num_run_digits st s :
  str_all is_digit s = true → st = NInt ∨ st = NFrac ∨ st = NExpInt → num_run st s = Some st.
Proof.
  intros Hs Hst. induction s as [|a s IH]; [done|]. rewrite str_all_cons in Hs.
  apply andb_true_iff in Hs as [Ha Hs]. simpl. destruct Hst as [->|[->| ->]]; simpl; rewrite Ha; simpl; auto.
Qed.

(** The parts of a literal: sign, integer digits, fraction, exponent. *)
Record lit_parts (i f : string) (x : string) (ev : Z) : Prop := {
  lp_int : str_all is_digit i = true ∧ (i = "0" ∨ ∃ a t, i = String a t ∧ a ≠ "0"%char);
  lp_frac : str_all is_digit f = true;
  lp_exp : (x = "" ∧ ev = 0) ∨
    ∃ sg ds, x = "e" +:+ sg +:+ ds ∧ (sg = "+" ∨ sg = "-") ∧ ds ≠ "" ∧ str_all is_digit ds = true ∧
      ev = if bool_decide (sg = "-") then - exp_val 0 ds else exp_val 0 ds;
}.

Definition lit_text (neg : bool) (i f x : string) : string :=
  sign neg +:+ i +:+ (if bool_decide (f = "") then "" else "." +:+ f) +:+ x.

Lemma lit_tail f x ev i :
  lit_parts i f x ev → ∀ c t, (if bool_decide (f = "") then "" else "." +:+ f) +:+ x = String c t →
  is_digit c = false.
Proof.
  intros [_ _ He] c t. case_bool_decide; [|by intros [= <- _]].
  destruct He as [[-> _]|(sg&ds&->&_)]; [done|]. by intros [= <- _].
Qed.

Lemma parse_exp_parts i f x ev : lit_parts i f x ev → parse_exp x = Some ev.
Proof.
  intros [_ _ [[-> ->]|(sg&ds&->&Hsg&Hne&Hd&->)]]; [done|].
  destruct Hsg as [-> | ->];
    [change ("e" +:+ "+" +:+ ds) with (String "e" (String "+" ds))
    |change ("e" +:+ "-" +:+ ds) with (String "e" (String "-" ds))];
    unfold parse_exp; cbn -[span_digits exp_val bool_decide];
    rewrite (span_digits_all ds Hd), !bool_decide_eq_false_2, bool_decide_eq_true_2 by done; done.
Qed.

Lemma parse_decimal_parts neg i f x ev m :
  lit_parts i f x ev → parse_digits (i +:+ f) = Some m →
  parse_decimal (lit_text neg i f x) = Some (neg, m, ev - Z.of_nat (String.length f)).
Proof.
  intros Hp Hm. pose proof (parse_exp_parts _ _ _ _ Hp) as Hex. pose proof (lit_tail _ _ _ _ Hp) as Ht.
  destruct Hp as [[Hi Hh] Hf He]. unfold parse_decimal, lit_text.
  set (rest := (if bool_decide (f = "") then "" else "." +:+ f) +:+ x) in *.
  assert (match sign neg +:+ i +:+ rest with
          | String c t => if Ascii.eqb c "-" then (true, t) else (false, sign neg +:+ i +:+ rest)
          | "" => (false, sign neg +:+ i +:+ rest) end = (neg, i +:+ rest)) as ->.
  { destruct neg; [done|]. destruct i as [|a i]; [by destruct Hh as [|(?&?&?&_)]|].
    rewrite str_all_cons in Hi. apply andb_true_iff in Hi as [Ha _].
    change (sign false +:+ String a i +:+ rest) with (String a (i +:+ rest)).
    assert (Ascii.eqb a "-" = false) as Hm1 by (apply Ascii.eqb_neq; by intros ->).
    cbv beta iota. by rewrite Hm1. }
  rewrite (span_digits_app i rest Hi Ht). unfold rest. case_bool_decide as Hf0.
  - subst f. rewrite app_nil_r_str in Hm. change ("" +:+ x) with x.
    assert (match x with String c t => if Ascii.eqb c "." then span_digits t else ("", x) | "" => ("", x) end
      = ("", x)) as ->.
    { destruct He as [[-> _]|(sg&ds&->&_)]; done. }
    rewrite app_nil_r_str, Hm. simpl. rewrite Hex. done.
  - change (("." +:+ f) +:+ x) with (String "." (f +:+ x)). simpl.
    rewrite (span_digits_app f x Hf); [rewrite Hm; simpl; by rewrite Hex|].
    destruct He as [[-> _]|(sg&ds&->&_)]; [done|]. by intros ? ? [= <- _].
Qed.

Lemma lit_text_lit neg i f x ev : lit_parts i f x ev → num_lit (lit_text neg i f x).
Proof.
  intros [[Hi Hh] Hf He]. unfold lit_text. set (fr := if bool_decide (f = "") then "" else "." +:+ f).
  assert (∃ st, (st = NZero ∨ st = NInt) ∧ ∃ a t, i = String a t ∧ num_start a = Some st ∧
    num_step NNeg a = Some st ∧ num_run st t = Some st) as (st&Hst&a&t&->&Hs&Hn&Hr).
  { destruct Hh as [->|(a&t&->&Ha)]; [exists NZero; split; [by left|]; by exists "0"%char, ""|].
    rewrite str_all_cons in Hi. apply andb_true_iff in Hi as [Hda Ht]. exists NInt. split; [by right|].
    exists a, t. split; [done|]. assert (Ascii.eqb a "0" = false) as H0 by (by apply Ascii.eqb_neq).
    assert (Ascii.eqb a "-" = false) as H1 by (apply Ascii.eqb_neq; by intros ->).
    unfold num_start, num_step. rewrite H0, H1, Hda. by rewrite num_run_digits by auto. }
  assert (∃ st', num_run st fr = Some st' ∧ (st' = st ∨ st' = NFrac)) as (st1&Hfr&Hst1).
  { unfold fr. case_bool_decide; [by exists st; auto|]. exists NFrac. split; [|auto].
    destruct f as [|b f]; [done|]. rewrite str_all_cons in Hf. apply andb_true_iff in Hf as [Hb Hf].
    destruct Hst as [->| ->]; simpl; rewrite Hb; simpl; apply num_run_digits; auto. }
  assert (∃ st', num_run st1 x = Some st' ∧ num_final st' = true) as (st2&Hx&Hfin).
  { destruct He as [[-> _]|(sg&ds&->&Hsg&Hne&Hd&_)].
    { exists st1. split; [done|]. destruct Hst1 as [->| ->], Hst as [->| ->]; done. }
    exists NExpInt. split; [|done]. destruct ds as [|b ds]; [done|]. rewrite str_all_cons in Hd.
    apply andb_true_iff in Hd as [Hb Hd]. 
    assert (num_step st1 "e" = Some NExp) as Hexp by (destruct Hst1 as [->| ->], Hst as [->| ->]; done).
    change ("e" +:+ sg +:+ String b ds) with (String "e" (sg +:+ String b ds)). cbn [num_run]. rewrite Hexp.
    destruct Hsg as [->| ->]; simpl; rewrite Hb; simpl; apply num_run_digits; auto. }
  assert (num_run st (t +:+ fr +:+ x) = Some st2) as Hrun.
  { rewrite num_run_app, Hr. simpl. rewrite num_run_app, Hfr. done. }
  destruct neg.
  - exists "-"%char, (String a (t +:+ fr +:+ x)), NNeg, st2. split; [done|]. split; [done|]. split; [|done].
    cbn [num_run]. by rewrite Hn.
  - by exists a, (t +:+ fr +:+ x), st, st2.
Qed.

(** ** Round trips *)

Lemma digit_val_range a : is_digit a = true → 0 ≤ digit_val a ≤ 9.
Proof.
  unfold is_digit, digit_val. intros [H1%Z.leb_le H2%Z.leb_le]%andb_true_iff. lia.
Qed.

Lemma digits_val_ge acc s v : 0 ≤ acc → digits_val acc s = Some v → acc ≤ v.
Proof.
  revert acc. induction s as [|a s IH]; intros acc Ha; simpl; [intros [= <-]; lia|].
  destruct (is_digit a) eqn:Ed; [|done]. intros Hv. pose proof (digit_val_range a Ed).
  apply IH in Hv; lia.
Qed.

(** Below the cap an exponent is its decimal value. *)
Lemma exp_val_digits acc s v :
  0 ≤ acc → digits_val acc s = Some v → v < 100000 → exp_val acc s = v.
Proof.
  revert acc. induction s as [|a s IH]; intros acc Ha; simpl; [by intros [= <-]|].
  destruct (is_digit a) eqn:Ed; [|done]. intros Hv Hlt. pose proof (digit_val_range a Ed).
  pose proof (digits_val_ge (acc * 10 + digit_val a) s v ltac:(lia) Hv). destruct (Z.ltb_spec acc 10000); [|lia].
  apply IH; [lia|done|done].
Qed.

Lemma parse_digits_cons a s : parse_digits (String a s) = digits_val 0 (String a s).
Proof. done. Qed.

Lemma Itoa_digits_val c : 0 ≤ c → digits_val 0 (Itoa c) = Some c ∧ Itoa c ≠ "".
Proof.
  intros Hc. pose proof (parse_digits_Itoa c Hc) as H. unfold parse_digits in H.
  by destruct (Itoa c) as [|a s].
Qed.

Lemma str_drop_ne (n : nat) s : (n < String.length s)%nat → str_drop n s ≠ "".
Proof. revert s. induction n as [|n IH]; intros [|a s] H; simpl in *; try lia; [done|]. apply IH. lia. Qed.

Lemma str_drop_length n s : String.length (str_drop n s) = (String.length s - n)%nat.
Proof. revert s. induction n as [|n IH]; intros [|a s]; simpl; try done. Qed.

Lemma str_all_split P n s : str_all P s = true → str_all P (str_take n s) = true ∧ str_all P (str_drop n s) = true.
Proof. intros H. rewrite <-(str_take_drop n s), str_all_app in H. by apply andb_true_iff in H. Qed.

Section Format.
Context (c e : Z) (Hc : 0 < c < c_max) (He : -1900 ≤ e ≤ 309).

Lemma ndigits_bounds : 1 ≤ ndigits c ≤ 2200.
Proof using Hc. apply ndigits_le; [fold c_max; lia|lia]. Qed.

Lemma format_e_lit :
  ∃ f x ev, (∀ neg, sign neg +:+ format_e c e = lit_text neg (str_take 1 (Itoa c)) f x) ∧
    lit_parts (str_take 1 (Itoa c)) f x ev ∧ str_take 1 (Itoa c) +:+ f = Itoa c ∧
    ev - Z.of_nat (String.length f) = e.
Proof using Hc He.
  destruct (Itoa_head c) as (a&t&Ea&Ha&Hne&Ht); [lia|]. pose proof ndigits_bounds as Hn.
  assert (ndigits c = 1 + Z.of_nat (String.length t)) as Hnd by (unfold ndigits; rewrite Ea; simpl; lia).
  set (xv := ndigits c + e - 1).
  exists t, ("e" +:+ (if xv <? 0 then "-" else "+") +:+ Itoa (Z.abs xv)), xv.
  destruct (Itoa_digits_val (Z.abs xv) ltac:(lia)) as [Hxd Hxne].
  assert (exp_val 0 (Itoa (Z.abs xv)) = Z.abs xv) as Hxv by (apply exp_val_digits; [lia|done|lia]).
  split; [|split; [|split]].
  - intros neg. unfold format_e, lit_text. fold xv. rewrite Ea. simpl str_take. simpl str_drop.
    rewrite Hnd. destruct t as [|b t]; [done|].
    assert ((1 <? 1 + Z.of_nat (String.length (String b t))) = true) as -> by (apply Z.ltb_lt; simpl; lia).
    by rewrite bool_decide_eq_false_2.
  - rewrite Ea. simpl str_take. split; [|done|].
    + split; [by rewrite str_all_cons, Ha|]. right. by exists a, "".
    + right. exists (if xv <? 0 then "-" else "+"), (Itoa (Z.abs xv)). split; [done|].
      split; [destruct (xv <? 0); auto|]. split; [done|]. split; [apply Itoa_digits; lia|]. rewrite Hxv.
      destruct (Z.ltb_spec xv 0); [rewrite bool_decide_eq_true_2|rewrite bool_decide_eq_false_2]; done || lia.
  - by rewrite Ea.
  - unfold xv. lia.
Qed.

Lemma format_f_lit :
  ∃ i f m, (∀ neg, sign neg +:+ format_f c e = lit_text neg i f "") ∧ lit_parts i f "" 0 ∧
    parse_digits (i +:+ f) = Some m ∧
    (m, 0 - Z.of_nat (String.length f)) = if 0 <=? e then (c * 10 ^ e, 0) else (c, e).
Proof using Hc He.
  destruct (Itoa_head c) as (a&t&Ea&Ha&Hne&Ht); [lia|]. pose proof ndigits_bounds as Hn.
  pose proof (Itoa_digits c ltac:(lia)) as Hd. destruct (Itoa_digits_val c ltac:(lia)) as [Hv _].
  assert (∀ s, (s = "0" ∨ ∃ a t, s = String a t ∧ a ≠ "0"%char) → str_all is_digit s = true →
    ∀ f, str_all is_digit f = true → lit_parts s f "" 0) as Hlp by (intros; split; auto).
  unfold format_f, lit_text, ndigits in *. destruct (Z.leb_spec 0 e).
  - exists (Itoa c +:+ zeros e), "", (c * 10 ^ e). split; [intros; by rewrite app_nil_r_str|].
    split; [apply Hlp; [right; rewrite Ea; by exists a, (t +:+ zeros e)| |done]|].
    { by rewrite str_all_app, Hd, str_all_zeros. }
    split; [|done]. rewrite app_nil_r_str, Ea. change (String a t +:+ zeros e) with (String a (t +:+ zeros e)).
    rewrite parse_digits_cons. change (String a (t +:+ zeros e)) with (String a t +:+ zeros e).
    rewrite <-Ea, digits_val_app, Hv. simpl. by apply digits_val_zeros.
  - destruct (Z.ltb_spec 0 (Z.of_nat (String.length (Itoa c)) + e)) as [Hdp|Hdp].
    + set (p := Z.to_nat _). assert (0 < p < String.length (Itoa c))%nat as Hp by (unfold p; lia).
      exists (str_take p (Itoa c)), (str_drop p (Itoa c)), c. split; [|split; [|split]].
      * intros. rewrite bool_decide_eq_false_2 by (apply str_drop_ne; lia). by rewrite app_nil_r_str.
      * destruct (str_all_split _ p _ Hd). apply Hlp; [|done|done]. right. rewrite Ea.
        destruct p as [|p]; [lia|]. simpl. by eexists _, _.
      * rewrite str_take_drop. apply parse_digits_Itoa. lia.
      * rewrite str_drop_length. f_equal. unfold p in *. lia.
    + exists "0", (zeros (- (Z.of_nat (String.length (Itoa c)) + e)) +:+ Itoa c), c.
      set (z := zeros _). split; [|split; [|split]].
      * intros. rewrite bool_decide_eq_false_2; [by rewrite app_nil_r_str|]. rewrite Ea. by destruct z.
      * apply Hlp; [by left|done|]. unfold z. by rewrite str_all_app, str_all_zeros, Hd.
      * change ("0" +:+ z +:+ Itoa c) with (String "0" (z +:+ Itoa c)). rewrite parse_digits_cons. simpl.
        unfold z. rewrite digits_val_app, digits_val_zeros by lia. done.
      * rewrite app_length. unfold z. rewrite zeros_length. f_equal. lia.
Qed.
End Format.

(** A finite double in canonical form. *)
Definition f64_wf (x : f64) : Prop :=
  match x with
  | S754_zero _ => True
  | S754_finite _ m e => nonneg_fin (S754_finite false m e)
  | _ => False
  end.

Lemma f64_of_dec_pos s c e : 0 < c → 0 ≤ e → f64_of_dec s c e = f64_ratio s (Z.to_pos (c * 10 ^ e)) 1.
Proof. intros Hc He. unfold f64_of_dec. destruct c as [|p|p]; try lia. by destruct (Z.leb_spec 0 e); [|lia]. Qed.

Lemma f64_of_dec_shift s c e :
  0 < c → 0 ≤ e → f64_of_dec s (c * 10 ^ e) 0 = f64_of_dec s c e.
Proof.
  intros Hc He. pose proof (Z.pow_pos_nonneg 10 e ltac:(lia) He).
  rewrite !f64_of_dec_pos by nia. do 2 f_equal. lia.
Qed.

(** A printed double is a number literal and reads back as itself. *)
Theorem format_float_roundtrip (x : f64) (Hx : f64_wf x) :
  ∃ s, format_float x = Some s ∧ num_lit s ∧ ParseFloat s = Some x.
Proof.
  destruct x as [neg|neg| |neg m e]; try done.
  { exists (sign neg +:+ "0"). split; [by destruct neg|].
    assert (lit_parts "0" "" "" 0) as Hp by (split; auto).
    pose proof (lit_text_lit neg _ _ _ _ Hp) as Hl. by destruct neg. }
  pose proof (shortest_spec neg m e Hx) as Hs. unfold format_float.
  destruct (shortest neg m e) as [c ec]. destruct Hs as (Hrb&Hc&Hec).
  set (b := _ || _). destruct b.
  - destruct (format_e_lit c ec Hc Hec) as (f&y&ev&Htext&Hp&Hcat&Hev).
    exists (sign neg +:+ format_e c ec). split; [done|]. rewrite Htext.
    split; [by eapply lit_text_lit|]. unfold ParseFloat.
    rewrite (parse_decimal_parts neg _ f y ev c Hp) by (rewrite Hcat; apply parse_digits_Itoa; lia).
    simpl. by rewrite Hev, Hrb.
  - destruct (format_f_lit c ec Hc Hec) as (i&f&mm&Htext&Hp&Hcat&Hev).
    exists (sign neg +:+ format_f c ec). split; [done|]. rewrite Htext.
    split; [by eapply lit_text_lit|]. unfold ParseFloat.
    rewrite (parse_decimal_parts neg i f "" 0 mm Hp Hcat). simpl.
    assert (f64_of_dec neg mm (0 - Z.of_nat (String.length f)) = S754_finite neg m e) as ->; [|done].
    destruct (Z.leb_spec 0 ec); injection Hev as -> Hl; [|by rewrite Hl].
    rewrite Hl, f64_of_dec_shift; [done|lia|done].
Qed.

(** ** What parsing yields *)

Lemma pack_wf s m1 e1 :
  0 ≤ m1 ≤ 2 ^ 53 → -1074 ≤ e1 → (e1 = -1074 ∨ 2 ^ 52 ≤ m1) →
  f64_wf (pack s m1 e1) ∨ f64_IsInf (pack s m1 e1) = true.
Proof.
  intros Hm He Hcan. destruct (Z.le_gt_cases (e1 + (if m1 =? 2 ^ 53 then 1 else 0)) 971) as [Hov|Hov].
  - left. destruct (pack_units m1 e1 Hm He Hov Hcan) as [Hf _]. revert Hf. unfold pack.
    repeat case_match; done.
  - unfold pack. destruct (m1 =? 0); [by left|]. right.
    destruct (m1 =? 2 ^ 53); [destruct (Z.leb_spec (e1 + 1) 971)|destruct (Z.leb_spec e1 971)]; done || lia.
Qed.

(** Rounding a zero mantissa at the smallest exponent. *)
Lemma round_zero_wf s l : f64_wf (binary_round_aux 53 1024 s 0 (-1074) l).
Proof. destruct l as [|[]]; try done; vm_compute; repeat split; discriminate. Qed.

Lemma f64_ratio_wf s n d : f64_wf (f64_ratio s n d) ∨ f64_IsInf (f64_ratio s n d) = true.
Proof.
  unfold f64_ratio. destruct (SFdiv_core_form n d) as (e&->&He).
  set (ln := Z.log2 (Z.pos n)) in *. set (ld := Z.log2 (Z.pos d)) in *.
  pose proof (Z.log2_spec (Z.pos n) ltac:(lia)) as [Hn _]. fold ln in Hn.
  pose proof (Z.log2_spec (Z.pos d) ltac:(lia)) as [_ Hd]. fold ld in Hd.
  assert (0 ≤ ln) as Hln by apply Z.log2_nonneg. assert (0 ≤ ld) as Hld by apply Z.log2_nonneg.
  rewrite fexp_max in He. pose proof (pow2_pos (- e) ltac:(lia)) as Hpe.
  set (q := Z.pos n * 2 ^ (- e) / Z.pos d). set (l := new_location _ _). clearbody l.
  assert (0 ≤ ln - e - ld - 1 → 2 ^ (ln - e - ld - 1) ≤ q) as Hq.
  { intros Hge. apply Z.div_le_lower_bound; [lia|].
    assert (2 ^ Z.succ ld * 2 ^ (ln - e - ld - 1) = 2 ^ ln * 2 ^ (- e)) as Hp.
    { rewrite <-!Z.pow_add_r by lia. f_equal. lia. }
    pose proof (pow2_pos (ln - e - ld - 1) Hge). nia. }
  assert (0 ≤ q) as Hq0 by (apply Z.div_pos; nia).
  destruct (Z.eq_dec q 0) as [Hz|Hz].
  { rewrite Hz. destruct (Z.le_gt_cases 0 (ln - e - ld - 1)) as [Hge|Hge].
    - specialize (Hq Hge). pose proof (pow2_pos _ Hge). lia.
    - assert (e = -1074) as -> by lia. left. apply round_zero_wf. }
  assert (e ≤ fexp 53 1024 (Z.log2 q + 1 + e)) as Hfe.
  { rewrite fexp_max. destruct (Z.le_gt_cases 0 (ln - e - ld - 1)) as [Hge|Hge]; [|lia].
    assert (ln - e - ld - 1 ≤ Z.log2 q) by (apply Z.log2_le_pow2; [lia|auto]). lia. }
  destruct (round_form_loc s q e l ltac:(lia) Hfe) as (m1&->&Hbt&Hm1).
  apply pack_wf; [done|rewrite fexp_max; lia|].
  destruct (round_canonical q e ltac:(lia) Hfe); [by left|right; lia].
Qed.

Lemma ParseFloat_wf s x : ParseFloat s = Some x → f64_wf x.
Proof.
  unfold ParseFloat. intros ([[neg m] e]&_&H)%bind_Some. revert H.
  assert (f64_wf (f64_of_dec neg m e) ∨ f64_IsInf (f64_of_dec neg m e) = true) as [Hw| ->]; [|by destruct (f64_IsInf _); [|intros [= <-]]|done].
  unfold f64_of_dec. destruct m; [by left| |by left]. destruct (0 <=? e); apply f64_ratio_wf.
Qed.

(** ** Integers *)

Lemma Itoa_neg n : n < 0 → Itoa n = "-" +:+ Itoa (- n).
Proof. intros Hn. destruct n as [|p|p]; try lia. done. Qed.

Lemma Atoi_Itoa_all n : in64 n → Atoi (Itoa n) = Some n.
Proof.
  intros Hn. unfold Atoi. assert (match Itoa n with
    | String "-" t => Z.opp <$> parse_digits t
    | String "+" t => parse_digits t
    | _ => parse_digits (Itoa n) end = Some n) as ->.
  { destruct (Z.le_gt_cases 0 n) as [H0|H0].
    - pose proof (parse_digits_Itoa n H0) as Hp. pose proof (Itoa_digits n H0) as Hd.
      destruct (Itoa n) as [|a s]; [done|]. rewrite str_all_cons in Hd. apply andb_true_iff in Hd as [Hd _].
      by destruct a as [[] [] [] [] [] [] [] []].
    - rewrite Itoa_neg by done. change ("-" +:+ Itoa (- n)) with (String "-" (Itoa (- n))). cbv iota beta.
      rewrite parse_digits_Itoa by lia. simpl. f_equal. lia. }
  unfold in64 in Hn. destruct (Z.leb_spec min64 n), (Z.leb_spec n max64); done || lia.
Qed.

Lemma Itoa_lit n : num_lit (Itoa n).
Proof.
  assert (∀ neg k, 0 ≤ k → num_lit (sign neg +:+ Itoa k)) as Hall.
  { intros neg k Hk. assert (lit_parts (Itoa k) "" "" 0) as Hp.
    { split; [|done|by left]. split; [by apply Itoa_digits|].
      assert (k = 0 ∨ 0 < k) as [-> |Hpos] by lia; [by left|right].
      destruct (Itoa_head k Hpos) as (a&t&E&_&Hne&_). by exists a, t. }
    pose proof (lit_text_lit neg _ _ _ _ Hp) as Hl. unfold lit_text in Hl.
    rewrite bool_decide_eq_true_2, !app_nil_r_str in Hl by done. done. }
  destruct (Z.le_gt_cases 0 n) as [H0|H0]; [by apply (Hall false)|].
  rewrite Itoa_neg by done. apply (Hall true). lia.
Qed.

Lemma Atoi_in64 s n : Atoi s = Some n → in64 n.
Proof.
  unfold Atoi. destruct (match s with "" => _ | _ => _ end) as [z|]; [|done].
  destruct (_ && _) eqn:E; [|done]. intros [= <-]. apply andb_true_iff in E as [?%Z.leb_le ?%Z.leb_le]. done.
Qed.
