(* ===== verification/JsonText.v ===== *)
(** * JSON text

    JSON documents ([json]; a string value is the text between its quotes, as
    the decoder receives it), the compact text that [json.Marshal] produces for
    them ([json_print]), and encoding/json's scanner as the state machine it
    is: one step per byte, a stack of open objects and arrays, at most 10000
    of them.  [parse_json] runs it over an input; [Unmarshal] reads a whole
    input, [Decode] the first value of a stream that may also fail.

    The main result is that the scanner reads back what was printed, with
    malformed UTF-8 replaced ([parse_print_top]). *)

From S2P Require Import Prelude GoStrings JsonString JsonNumber.
From Stdlib Require Import Ascii.
Local Open Scope Z_scope.

#[warnings="-register-all"]
Inductive json :=
| JNull
| JBool (b : bool)
| JNum (lit : string)
| JStr (raw : string)
| JArr (l : list json)
| JObj (l : list (string * json)).

(** Induction through the lists. *)
Lemma json_ind' (P : json → Prop) :
  P JNull → (∀ b, P (JBool b)) → (∀ s, P (JNum s)) → (∀ s, P (JStr s)) →
  (∀ l, Forall P l → P (JArr l)) → (∀ l, Forall (λ kv, P kv.2) l → P (JObj l)) → ∀ v, P v.
Proof.
  intros Hn Hb Hm Hs Ha Ho. fix IH 1. intros [|b|s|s|l|l]; [exact Hn|exact (Hb b)|exact (Hm s)|exact (Hs s)| |].
  - apply Ha. induction l as [|v l IHl]; constructor; [apply IH|exact IHl].
  - apply Ho. induction l as [|[k v] l IHl]; constructor; [apply IH|exact IHl].
Qed.

(** ** Printing *)

Definition quoted (s : string) : string := String dquote (json_quote s +:+ String dquote "").

Fixpoint json_print (v : json) : string :=
  match v with
  | JNull => "null"
  | JBool b => if b then "true" else "false"
  | JNum s => s
  | JStr raw => String dquote (raw +:+ String dquote "")
  | JArr l => "[" +:+ Join (map json_print l) "," +:+ "]"
  | JObj l => "{" +:+ Join (map (λ kv, quoted kv.1 +:+ ":" +:+ json_print kv.2) l) "," +:+ "}"
  end.

(** ** The scanner *)

Definition is_space (c : ascii) : bool :=
  (byte_val c =? 32) || (byte_val c =? 9) || (byte_val c =? 13) || (byte_val c =? 10).

(** Inside a string: plain, after a backslash, or [n] hexadecimal digits of a
    [\u] escape to come. *)
Inductive str_state := SPlain | SEsc | SHex (n : nat).

(** One character of a string that is not its closing quote. *)
Definition str_step (st : str_state) (c : ascii) : option str_state :=
  match st with
  | SPlain => if byte_val c =? 92 then Some SEsc else if byte_val c <? 32 then None else Some SPlain
  | SEsc =>
      if bool_decide (is_Some (simple_escape c)) then Some SPlain
      else if byte_val c =? 117 then Some (SHex 3) else None
  | SHex n =>
      if bool_decide (is_Some (hex_val c))
      then Some (match n with O => SPlain | S n => SHex n end) else None
  end.

(** An open container: the elements read so far, last first. *)
#[warnings="-register-all"]
Inductive frame :=
| FArr (l : list json)
| FObj (l : list (string * json))
| FVal (l : list (string * json)) (key : string).

Inductive mode :=
| MValue
| MArrStart
| MObjStart
| MKey
| MColon (key : string)
| MAfter
| MStr (is_key : bool) (st : str_state) (raw : string)
| MNum (st : num_state) (raw : string)
| MWord (rest : string) (v : json)
| MDone (v : json).

(** What one byte does: go on, complete the top-level value with this byte or
    just before it, or fail. *)
Inductive move :=
| Next (m : mode) (k : list frame)
| Complete (v : json)
| Before (v : json)
| Bad.

Definition maxNestingDepth : nat := N.to_nat 10000.

Definition push (f : frame) (m : mode) (k : list frame) : move :=
  if (S (length k) <=? maxNestingDepth)%nat then Next m (f :: k) else Bad.

(** A value is complete. *)
Definition deliver (v : json) (k : list frame) : mode * list frame :=
  match k with
  | FArr l :: k => (MAfter, FArr (v :: l) :: k)
  | FVal l key :: k => (MAfter, FObj ((key, v) :: l) :: k)
  | _ => (MDone v, k)
  end.

(** A container is complete with its closing bracket. *)
Definition close (v : json) (k : list frame) : move :=
  match k with [] => Complete v | _ => let '(m, k) := deliver v k in Next m k end.

Definition begin_value (c : ascii) (k : list frame) : move :=
  if Ascii.eqb c "{" then push (FObj []) MObjStart k
  else if Ascii.eqb c "[" then push (FArr []) MArrStart k
  else if Ascii.eqb c dquote then Next (MStr false SPlain "") k
  else if Ascii.eqb c "t" then Next (MWord "rue" (JBool true)) k
  else if Ascii.eqb c "f" then Next (MWord "alse" (JBool false)) k
  else if Ascii.eqb c "n" then Next (MWord "ull" JNull) k
  else match num_start c with Some st => Next (MNum st (String c "")) k | None => Bad end.

(** [stateEndValue] inside a container. *)
Definition end_value (c : ascii) (k : list frame) : move :=
  if is_space c then Next MAfter k
  else match k with
  | FArr l :: k' =>
      if Ascii.eqb c "," then Next MValue k
      else if Ascii.eqb c "]" then close (JArr (rev l)) k' else Bad
  | FObj l :: k' =>
      if Ascii.eqb c "," then Next MKey k
      else if Ascii.eqb c "}" then close (JObj (rev l)) k' else Bad
  | _ => Bad
  end.

Definition begin_key (c : ascii) (k : list frame) : move :=
  if Ascii.eqb c dquote then Next (MStr true SPlain "") k else Bad.

(** A complete object key waits for its colon. *)
Definition string_end (is_key : bool) (raw : string) (k : list frame) : move :=
  if is_key then Next (MColon (unquote 0 raw)) k
  else let '(m, k) := deliver (JStr raw) k in Next m k.

Definition scan_step (m : mode) (k : list frame) (c : ascii) : move :=
  match m with
  | MValue => if is_space c then Next MValue k else begin_value c k
  | MArrStart =>
      if is_space c then Next MArrStart k
      else if Ascii.eqb c "]" then
        match k with FArr l :: k => close (JArr (rev l)) k | _ => Bad end
      else begin_value c k
  | MObjStart =>
      if is_space c then Next MObjStart k
      else if Ascii.eqb c "}" then
        match k with FObj l :: k => close (JObj (rev l)) k | _ => Bad end
      else begin_key c k
  | MKey => if is_space c then Next MKey k else begin_key c k
  | MColon key =>
      if is_space c then Next (MColon key) k
      else if Ascii.eqb c ":" then
        match k with FObj l :: k => Next MValue (FVal l key :: k) | _ => Bad end
      else Bad
  | MAfter => end_value c k
  | MStr is_key st raw =>
      if Ascii.eqb c dquote && match st with SPlain => true | _ => false end then string_end is_key raw k
      else match str_step st c with
      | Some st => Next (MStr is_key st (raw +:+ String c "")) k
      | None => Bad
      end
  | MNum st raw =>
      match num_step st c with
      | Some st => Next (MNum st (raw +:+ String c "")) k
      | None =>
          if num_final st then
            match deliver (JNum raw) k with
            | (MAfter, k) => end_value c k
            | _ => Before (JNum raw)
            end
          else Bad
      end
  | MWord rest v =>
      match rest with
      | "" => Bad
      | String a rest =>
          if Ascii.eqb c a then
            match rest with
            | "" => let '(m, k) := deliver v k in Next m k
            | _ => Next (MWord rest v) k
            end
          else Bad
      end
  | MDone v => Before v
  end.

(** At the end of the input: the value that is complete if nothing follows. *)
Definition at_eof (m : mode) (k : list frame) : option json :=
  match m, k with
  | MDone v, [] => Some v
  | MNum st raw, [] => if num_final st then Some (JNum raw) else None
  | _, _ => None
  end.

Inductive presult :=
| POk (v : json) (rest : string)
| PMore (v : option json)
| PSyntax.

Fixpoint parse (m : mode) (k : list frame) (s : string) : presult :=
  match s with
  | "" => PMore (at_eof m k)
  | String c t =>
      match scan_step m k c with
      | Next m k => parse m k t
      | Complete v => POk v t
      | Before v => POk v s
      | Bad => PSyntax
      end
  end.

Definition parse_json (s : string) : presult := parse MValue [] s.

(** ** The two entry points *)

Inductive jerr :=
| ESyntax
| EEof
| EUnexpectedEof
| EType.

(** [json.Unmarshal]'s check of a whole input. *)
Definition text_value (s : string) : jerr + json :=
  match parse_json s with
  | POk v rest => if str_all is_space rest then inr v else inl ESyntax
  | PMore (Some v) => inr v
  | PMore None => inl EUnexpectedEof
  | PSyntax => inl ESyntax
  end.

(** [json.Decoder.Decode] on a reader that yields [data] and then ends, or
    fails with [err]. *)
Definition stream_value {E} (data : string) (err : option E) : (E + jerr) + json :=
  match parse_json data with
  | POk v _ => inr v
  | PSyntax => inl (inr ESyntax)
  | PMore v =>
      match err, v with
      | Some e, _ => inl (inl e)
      | None, Some v => inr v
      | None, None => inl (inr (if str_all is_space data then EEof else EUnexpectedEof))
      end
  end.

(** ** Unfinished texts *)

(** A value that is complete stays complete when more text follows. *)
Lemma parse_more m k s v rest t : parse m k s = POk v rest → parse m k (s +:+ t) = POk v (rest +:+ t).
Proof.
  revert m k. induction s as [|c s IH]; intros m k; [done|]. rewrite str_cons_app. cbn [parse].
  destruct (scan_step m k c) as [m' k'|w|w|]; [apply IH|by intros [= <- <-]..|done].
Qed.

Lemma deliver_nonempty v k : k ≠ [] → (deliver v k).2 ≠ [].
Proof. by destruct k as [|[|?|] ?]. Qed.

(** Inside a container only its last bracket completes the text. *)
Lemma scan_step_inside m k c m' k' : k ≠ [] → scan_step m k c = Next m' k' → k' ≠ [].
Proof.
  assert (∀ v k, (∃ w, close v k = Complete w) ∨ (∃ m k', close v k = Next m k' ∧ k' ≠ [])) as Hclose.
  { intros v [|f l]; [left; by exists v|right]. unfold close. pose proof (deliver_nonempty v (f :: l) ltac:(done)) as Hd.
    destruct (deliver v (f :: l)) as [m1 k1]. eauto. }
  assert (∀ v k, k ≠ [] → ∀ m1 k1, deliver v k = (m1, k1) → k1 ≠ []) as Hdel.
  { intros v l Hl m1 k1 E. pose proof (deliver_nonempty v l Hl) as Hd. by rewrite E in Hd. }
  assert (∀ l, l ≠ [] → ∀ m1 k1, begin_value c l = Next m1 k1 → k1 ≠ []) as Hbegin.
  { intros l Hl m1 k1. unfold begin_value, push. repeat case_match; try done; by intros [= <- <-]. }
  assert (∀ l, l ≠ [] → ∀ m1 k1, begin_key c l = Next m1 k1 → k1 ≠ []) as Hkey.
  { intros l Hl m1 k1. unfold begin_key. case_match; [|done]. by intros [= <- <-]. }
  assert (∀ l, l ≠ [] → ∀ m1 k1, end_value c l = Next m1 k1 → k1 ≠ []) as Hend.
  { intros l Hl m1 k1. unfold end_value. repeat case_match; try done; try (by intros [= <- <-]);
      subst; intros E; by match goal with H : close ?v ?q = Next _ _ |- _ =>
        destruct (Hclose v q) as [[w Hw]|(m2&k2&Hw&Hk)]; rewrite Hw in H; [done|]; injection H as <- <- end. }
  intros Hk. destruct m; cbn [scan_step]; unfold string_end.
  all: repeat (case_match; try done); try (intros [= <- <-]; by eauto); eauto.
  all: intros E; subst; match goal with H : close ?v ?q = Next _ _ |- _ =>
        destruct (Hclose v q) as [[w Hw]|(m2&k2&Hw&Hq)]; rewrite Hw in H; [done|]; by injection H as <- <- end.
Qed.

Lemma parse_inside m k s v : k ≠ [] → parse m k s ≠ PMore (Some v).
Proof.
  revert m k. induction s as [|c s IH]; intros m k Hk; cbn [parse].
  - by destruct m, k.
  - destruct (scan_step m k c) as [m' k'|w|w|] eqn:E; try done. apply IH. by eapply scan_step_inside.
Qed.

(** A text cut off inside an object is not read as a value, unless what is
    missing follows the object. *)
Lemma cut_object s t v rest :
  parse_json (String "{" s +:+ t) = POk v rest → (String.length rest < String.length t)%nat →
  ∃ e, text_value (String "{" s) = inl e.
Proof.
  intros Hp Hlt. unfold text_value. destruct (parse_json (String "{" s)) as [w r|[w|]|] eqn:E; [|exfalso|by eexists..].
  - apply parse_more with (t := t) in E. unfold parse_json in Hp. rewrite E in Hp. injection Hp as _ Hr.
    apply (f_equal String.length) in Hr. rewrite app_length in Hr. lia.
  - revert E. unfold parse_json. cbn [parse]. change (scan_step MValue [] "{") with (push (FObj []) MObjStart []).
    by apply parse_inside.
Qed.

(** ** Reading back what was printed *)

(** Object keys as they come back: malformed bytes replaced. *)
Fixpoint json_san (v : json) : json :=
  match v with
  | JArr l => JArr (map json_san l)
  | JObj l => JObj (map (λ kv, (sanitize 0 kv.1, json_san kv.2)) l)
  | v => v
  end.

Fixpoint json_depth (v : json) : nat :=
  match v with
  | JArr l => S (foldr (λ v, Nat.max (json_depth v)) 0%nat l)
  | JObj l => S (foldr (λ kv, Nat.max (json_depth kv.2)) 0%nat l)
  | _ => 0%nat
  end.

Fixpoint str_run (st : str_state) (s : string) : option str_state :=
  match s with
  | "" => Some st
  | String c t =>
      if Ascii.eqb c dquote && match st with SPlain => true | _ => false end then None
      else str_step st c ≫= λ st, str_run st t
  end.

(** Every number and every string is a literal. *)
Fixpoint json_lits (v : json) : Prop :=
  match v with
  | JNum s => num_lit s
  | JStr s => str_run SPlain s = Some SPlain
  | JArr l => foldr (λ v P, json_lits v ∧ P) True l
  | JObj l => foldr (λ kv P, json_lits kv.2 ∧ P) True l
  | _ => True
  end.

Lemma str_run_app st s t : str_run st (s +:+ t) = str_run st s ≫= λ st, str_run st t.
Proof.
  revert st. induction s as [|c s IH]; intros st; [done|]. rewrite str_cons_app. simpl.
  destruct (_ && _); [done|]. destruct (str_step st c); [apply IH|done].
Qed.

Lemma parse_str key st st' raw k s t :
  str_run st s = Some st' → parse (MStr key st raw) k (s +:+ t) = parse (MStr key st' (raw +:+ s)) k t.
Proof.
  revert st raw. induction s as [|c s IH]; intros st raw; cbn [str_run].
  { intros [= <-]. by rewrite app_nil_r_str. }
  rewrite str_cons_app. cbn [parse scan_step]. destruct (Ascii.eqb c dquote && _); [done|].
  destruct (str_step st c) as [st1|]; [|done]. simpl. intros Hr. rewrite (IH _ _ Hr).
  by rewrite app_assoc_str.
Qed.

Lemma str_run_high c : 128 ≤ byte_val c → str_run SPlain (String c "") = Some SPlain.
Proof.
  intros Hc. simpl. assert (Ascii.eqb c dquote = false) as ->.
  { apply Ascii.eqb_neq. intros ->. by vm_compute in Hc. }
  simpl. destruct (Z.eqb_spec (byte_val c) 92); [lia|]. destruct (Z.ltb_spec (byte_val c) 32); [lia|done].
Qed.

Lemma str_run_quote_ascii a : byte_val a < 128 → str_run SPlain (quote_ascii a) = Some SPlain.
Proof. destruct a as [[] [] [] [] [] [] [] []]; intros H; try reflexivity; exfalso; revert H; by vm_compute. Qed.

Lemma rune_high r : rune r → (1 < String.length r)%nat → str_run SPlain r = Some SPlain.
Proof.
  intros [_ Hr] Hl. specialize (Hr ""). rewrite app_nil_r_str in Hr.
  assert (∀ s, str_all (λ a, 128 <=? byte_val a) s = true → str_run SPlain s = Some SPlain) as Hall.
  { induction s as [|c s IH]; [done|]. rewrite str_all_cons. intros [Hc%Z.leb_le Hs]%andb_true_iff.
    change (String c s) with (String c "" +:+ s). rewrite str_run_app, str_run_high by done. simpl. auto. }
  apply Hall. destruct r as [|a r]; [done|]. cbn [rune_len] in Hr.
  assert (128 ≤ byte_val a) as Ha.
  { unfold lead_size in Hr. destruct (Z.ltb_spec (byte_val a) 128); [simpl in *; lia|lia]. }
  assert (∀ b c, second_ok b (byte_val c) = true → 128 ≤ byte_val c) as H2.
  { intros b c. unfold second_ok. repeat case_match; intros Hin%in_range_true; lia. }
  assert (∀ c, is_cont c = true → 128 ≤ byte_val c) as H3 by (intros c H%in_range_true; lia).
  apply Z.leb_le in Ha. simpl in Hl.
  destruct (lead_size (byte_val a)) as [|[|[|[|[|n]]]]] eqn:El; try (simpl in Hr; lia).
  - destruct r as [|b r]; [done|]. destruct (second_ok _ _) eqn:E; [|done]. destruct r; [|done].
    simpl. rewrite Ha. by apply H2, Z.leb_le in E as ->.
  - destruct r as [|b [|c r]]; [done..|]. destruct (_ && _) eqn:E; [|done]. destruct r; [|done].
    apply andb_true_iff in E as [E1%H2%Z.leb_le E2%H3%Z.leb_le]. simpl. by rewrite Ha, E1, E2.
  - destruct r as [|b [|c [|d r]]]; [done..|]. destruct (_ && _) eqn:E; [|done]. destruct r; [|done].
    apply andb_true_iff in E as [[E1%H2%Z.leb_le E2%H3%Z.leb_le]%andb_true_iff E3%H3%Z.leb_le].
    simpl. by rewrite Ha, E1, E2, E3.
  - exfalso. unfold lead_size in El. by repeat case_match.
Qed.

(** The scanner accepts what the printer writes between quotes. *)
Lemma str_run_quote s : str_run SPlain (json_quote s) = Some SPlain.
Proof.
  unfold json_quote. induction s as [|a t Hb IH|r t Hr IH] using rune_ind; [done| |].
  - cbn [quote_go]. rewrite Hb. by rewrite !str_run_app.
  - destruct (rune_cons r Hr) as (a&r'&->&Hl). rewrite str_cons_app. cbn [quote_go]. rewrite Hl.
    destruct r' as [|b r'].
    + cbn [String.length]. change ("" +:+ t) with t. rewrite str_run_app, str_run_quote_ascii; [done|].
      specialize (Hl ""). cbn in Hl. unfold lead_size in Hl.
      destruct (Z.ltb_spec (byte_val a) 128); [done|]. by repeat case_match.
    + cbn [String.length]. destruct (line_sep _) as [d|] eqn:Es.
      * change (String a (String b r' +:+ t)) with (String a (String b r') +:+ t) in Es.
        rewrite (quote_go_drop (String b r')).
        apply line_sep_Some in Es as [[-> _]|[-> _]]; [| |done]; rewrite !str_run_app; simpl; exact IH.
      * rewrite (quote_go_copy (String b r')).
        change (String a (String b r' +:+ quote_go 0 true t)) with (String a (String b r') +:+ quote_go 0 true t).
        rewrite str_run_app, rune_high; [exact IH|done|simpl; lia].
Qed.

Lemma begin_value_num a st k :
  num_start a = Some st → is_space a = false ∧ begin_value a k = Next (MNum st (String a "")) k.
Proof. destruct a as [[] [] [] [] [] [] [] []]; intros [= <-]; by split. Qed.

Lemma parse_num_run st st' raw k s t :
  num_run st s = Some st' → parse (MNum st raw) k (s +:+ t) = parse (MNum st' (raw +:+ s)) k t.
Proof.
  revert st raw. induction s as [|c s IH]; intros st raw; cbn [num_run].
  { intros [= <-]. by rewrite app_nil_r_str. }
  rewrite str_cons_app. cbn [parse scan_step]. destruct (num_step st c) as [st1|]; [|done]. simpl.
  intros Hr. rewrite (IH _ _ Hr). by rewrite app_assoc_str.
Qed.

(** What can follow a printed value. *)
Definition delim (c : ascii) : Prop := c = ","%char ∨ c = "]"%char ∨ c = "}"%char.

Lemma delim_num c st : delim c → num_step st c = None.
Proof. by intros [->|[-> | ->]]; destruct st. Qed.

(** A stack in which a value is expected. *)
Definition open (k : list frame) : Prop :=
  ∃ k', (∃ l, k = FArr l :: k') ∨ (∃ l key, k = FVal l key :: k').

Definition delivered (v : json) (k : list frame) (t : string) : presult :=
  parse (deliver v k).1 (deliver v k).2 t.

Lemma deliver_open v k : open k → (deliver v k).1 = MAfter.
Proof. by intros (k'&[(l&->)|(l&key&->)]). Qed.

Lemma parse_num lit k c t :
  num_lit lit → open k → delim c → parse MValue k (lit +:+ String c t) = delivered (JNum lit) k (String c t).
Proof.
  intros (a&s&st0&st&->&Hs&Hr&Hf) Hk Hc. rewrite str_cons_app. cbn [parse scan_step].
  destruct (begin_value_num a st0 k Hs) as [-> ->]. rewrite (parse_num_run st0 st (String a "") k s _ Hr).
  change (String a "" +:+ s) with (String a s). cbn [parse scan_step].
  rewrite (delim_num c st Hc), Hf. unfold delivered. pose proof (deliver_open (JNum (String a s)) k Hk) as Hd.
  destruct (deliver (JNum (String a s)) k) as [m k']. simpl in *. by subst m.
Qed.

Lemma parse_string key raw k t :
  str_run SPlain raw = Some SPlain →
  parse (MStr key SPlain "") k (raw +:+ String dquote t) =
    (if key then parse (MColon (unquote 0 raw)) k t else delivered (JStr raw) k t).
Proof.
  intros Hr. rewrite (parse_str key SPlain SPlain) by done. cbn [parse scan_step].
  change ("" +:+ raw) with raw. cbn [andb Ascii.eqb]. unfold string_end.
  destruct key; [done|]. unfold delivered. by destruct (deliver _ k).
Qed.

Lemma quoted_app s t : quoted s +:+ t = String dquote (json_quote s +:+ String dquote t).
Proof. unfold quoted. rewrite str_cons_app, app_assoc_str. done. Qed.

Lemma parse_key s l k t :
  parse MKey (FObj l :: k) (quoted s +:+ ":" +:+ t) = parse MValue (FVal l (sanitize 0 s) :: k) t ∧
  parse MObjStart (FObj l :: k) (quoted s +:+ ":" +:+ t) = parse MValue (FVal l (sanitize 0 s) :: k) t.
Proof.
  rewrite quoted_app. pose proof (parse_string true (json_quote s) (FObj l :: k) (":" +:+ t) (str_run_quote s)) as H.
  rewrite unquote_quote in H.
  by split; (transitivity (parse (MStr true SPlain "") (FObj l :: k) (json_quote s +:+ String dquote (":" +:+ t)));
    [|rewrite H]).
Qed.

Lemma parse_word k w v t :
  w ≠ "" → parse (MWord w v) k (w +:+ t) = delivered v k t.
Proof.
  intros Hw. induction w as [|a w IH]; [done|]. rewrite str_cons_app. cbn [parse scan_step].
  rewrite Ascii.eqb_refl. destruct w as [|b w]; [|by apply IH]. unfold delivered. by destruct (deliver v k).
Qed.

(** Closing a container and going on. *)
Definition run_close (v : json) (k : list frame) (t : string) : presult :=
  match k with [] => POk v t | _ => delivered v k t end.

Lemma parse_close v k t t' :
  match close v k with Next m k => parse m k t | Complete v => POk v t | Before v => POk v t' | Bad => PSyntax end
  = run_close v k t.
Proof. destruct k as [|f k]; [done|]. unfold close, run_close, delivered. by destruct (deliver v (f :: k)). Qed.

Lemma print_head v :
  json_lits v → ∃ a t, json_print v = String a t ∧ is_space a = false ∧ Ascii.eqb a "]" = false.
Proof.
  destruct v as [|[]|s|s|l|l]; simpl; intros Hv; try (by eexists _, _).
  destruct Hv as (c&t&st0&st&->&Hs&_). exists c, t. split; [done|].
  by destruct c as [[] [] [] [] [] [] [] []].
Qed.

(** The statement for one value. *)
Definition reads (v : json) : Prop :=
  ∀ k c t, open k → delim c → json_lits v → (length k + json_depth v ≤ maxNestingDepth)%nat →
  parse MValue k (json_print v +:+ String c t) = delivered (json_san v) k (String c t).

Lemma Join_cons2 s s' ss sep : Join (s :: s' :: ss) sep = s +:+ sep +:+ Join (s' :: ss) sep.
Proof. done. Qed.

Lemma parse_elems l acc k t :
  Forall reads l → l ≠ [] → json_lits (JArr l) → (length k + json_depth (JArr l) ≤ maxNestingDepth)%nat →
  parse MValue (FArr acc :: k) (Join (map json_print l) "," +:+ "]" +:+ t) =
    run_close (JArr (rev acc ++ map json_san l)) k t.
Proof.
  intros Hl. revert acc. induction Hl as [|v l Hv Hl IH]; intros acc Hne Hn Hd; [done|]. destruct Hn as [Hnv Hn].
  cbn [json_depth foldr] in Hd. assert (open (FArr acc :: k)) as Hopen by (eexists; eauto).
  destruct l as [|v' l].
  - cbn [map Join]. change (json_print v +:+ "]" +:+ t) with (json_print v +:+ String "]" t).
    rewrite Hv; [|done|by right; left|done|simpl; lia]. unfold delivered. cbn [deliver fst snd parse scan_step].
    change (end_value "]" (FArr (json_san v :: acc) :: k)) with (close (JArr (rev (json_san v :: acc))) k).
    by rewrite parse_close.
  - cbn [map]. rewrite Join_cons2, !app_assoc_str. change (json_print v +:+ "," +:+ ?x) with (json_print v +:+ String "," x).
    rewrite Hv; [|done|by left|done|simpl in *; lia].
    unfold delivered. cbn [deliver fst snd parse scan_step].
    change (end_value "," (FArr (json_san v :: acc) :: k)) with (Next MValue (FArr (json_san v :: acc) :: k)).
    cbv beta iota. etrans; [apply (IH (json_san v :: acc)); [done|done|simpl in *; lia]|].
    simpl. by rewrite <-app_assoc.
Qed.

Lemma parse_members l acc k t :
  Forall (λ kv, reads kv.2) l → l ≠ [] → json_lits (JObj l) →
  (length k + json_depth (JObj l) ≤ maxNestingDepth)%nat →
  ∀ m, m = MKey ∨ m = MObjStart →
  parse m (FObj acc :: k)
    (Join (map (λ kv, quoted kv.1 +:+ ":" +:+ json_print kv.2) l) "," +:+ "}" +:+ t) =
    run_close (JObj (rev acc ++ map (λ kv, (sanitize 0 kv.1, json_san kv.2)) l)) k t.
Proof.
  intros Hl. revert acc. induction Hl as [|[key v] l Hv Hl IH]; intros acc Hne Hn Hd m Hm; [done|]. destruct Hn as [Hnv Hn].
  cbn [json_depth foldr snd] in Hd, Hv, Hnv.
  assert (open (FVal acc (sanitize 0 key) :: k)) as Hopen by (eexists; eauto).
  assert (∀ u, parse m (FObj acc :: k) (quoted key +:+ ":" +:+ u) =
    parse MValue (FVal acc (sanitize 0 key) :: k) u) as Hkey.
  { intros u. destruct (parse_key key acc k u). by destruct Hm as [-> | ->]. }
  destruct l as [|kv' l].
  - cbn [map Join fst snd]. rewrite !app_assoc_str, Hkey.
    change (json_print v +:+ "}" +:+ t) with (json_print v +:+ String "}" t).
    rewrite Hv; [|done|by right; right|done|simpl in *; lia]. unfold delivered.
    cbn [deliver fst snd parse scan_step].
    change (end_value "}" (FObj ((sanitize 0 key, json_san v) :: acc) :: k)) with
      (close (JObj (rev ((sanitize 0 key, json_san v) :: acc))) k).
    by rewrite parse_close.
  - cbn [map fst snd]. rewrite Join_cons2, !app_assoc_str, Hkey.
    change (json_print v +:+ "," +:+ ?x) with (json_print v +:+ String "," x).
    rewrite Hv; [|done|by left|done|simpl in *; lia]. unfold delivered. cbn [deliver fst snd parse scan_step].
    change (end_value "," (FObj ((sanitize 0 key, json_san v) :: acc) :: k)) with
      (Next MKey (FObj ((sanitize 0 key, json_san v) :: acc) :: k)).
    cbv beta iota.
    etrans; [apply (IH ((sanitize 0 key, json_san v) :: acc)); [done|done|simpl in *; lia|by left]|].
    simpl. by rewrite <-app_assoc.
Qed.

(** A container, from its opening bracket. *)
Lemma parse_array l k t :
  Forall reads l → json_lits (JArr l) → (length k + json_depth (JArr l) ≤ maxNestingDepth)%nat →
  parse MValue k (json_print (JArr l) +:+ t) = run_close (json_san (JArr l)) k t.
Proof.
  intros Hl Hn Hd. cbn [json_print]. rewrite !app_assoc_str. cbn [json_san].
  change ("[" +:+ ?x) with (String "[" x). cbn [parse scan_step].
  change (is_space "[") with false. cbv iota. unfold begin_value. cbn [Ascii.eqb Bool.eqb]. unfold push.
  assert ((S (length k) <=? maxNestingDepth)%nat = true) as -> by (apply Nat.leb_le; simpl in Hd; lia).
  destruct l as [|v l].
  { cbn [map Join]. change ("" +:+ "]" +:+ t) with (String "]" t). cbn [parse scan_step].
    change (is_space "]") with false. cbn [Ascii.eqb Bool.eqb]. by rewrite parse_close. }
  etrans; [|exact (parse_elems (v :: l) [] k t Hl ltac:(done) Hn Hd)]. cbn [map].
  destruct Hn as [Hnv _]. destruct (print_head v Hnv) as (a&u&Ha&Hsp&Hbr).
  assert (∃ u', Join (json_print v :: map json_print l) "," +:+ "]" +:+ t = String a u') as [u' ->].
  { destruct l as [|v' l]; cbn [map]; rewrite ?Join_cons2, ?app_assoc_str; cbn [Join]; rewrite Ha;
      by eexists. }
  cbn [parse scan_step]. by rewrite Hsp, Hbr.
Qed.

Lemma parse_object l k t :
  Forall (λ kv, reads kv.2) l → json_lits (JObj l) → (length k + json_depth (JObj l) ≤ maxNestingDepth)%nat →
  parse MValue k (json_print (JObj l) +:+ t) = run_close (json_san (JObj l)) k t.
Proof.
  intros Hl Hn Hd. cbn [json_print]. rewrite !app_assoc_str. cbn [json_san].
  change ("{" +:+ ?x) with (String "{" x). cbn [parse scan_step].
  change (is_space "{") with false. cbv iota. unfold begin_value. cbn [Ascii.eqb Bool.eqb]. unfold push.
  assert ((S (length k) <=? maxNestingDepth)%nat = true) as -> by (apply Nat.leb_le; simpl in Hd; lia).
  destruct l as [|kv l].
  { cbn [map Join]. change ("" +:+ "}" +:+ t) with (String "}" t). cbn [parse scan_step].
    change (is_space "}") with false. cbn [Ascii.eqb Bool.eqb]. by rewrite parse_close. }
  apply (parse_members (kv :: l) []); [done|done|done|done|by right].
Qed.

Lemma json_reads v : reads v.
Proof.
  induction v as [|b|s|s|l IH|l IH] using json_ind'; intros k c t Hk Hc Hn Hd.
  - by apply (parse_word k "ull" JNull).
  - destruct b; [by apply (parse_word k "rue" (JBool true))|by apply (parse_word k "alse" (JBool false))].
  - by apply parse_num.
  - cbn [json_print json_san]. rewrite str_cons_app, app_assoc_str. by apply (parse_string false).
  - rewrite parse_array by done. by destruct Hk as (k'&[(l'&->)|(l'&key&->)]).
  - rewrite parse_object by done. by destruct Hk as (k'&[(l'&->)|(l'&key&->)]).
Qed.

(** At top level a printed object is complete with its brace, whatever
    follows. *)
Lemma parse_print_top l t :
  json_lits (JObj l) → (json_depth (JObj l) ≤ maxNestingDepth)%nat →
  parse_json (json_print (JObj l) +:+ t) = POk (json_san (JObj l)) t.
Proof. intros Hn Hd. apply (parse_object l []); [|done|done]. apply Forall_true. intros. apply json_reads. Qed.

(** ** What the scanner yields *)

(** Literals, and object keys of well-formed UTF-8. *)
Fixpoint json_clean (v : json) : Prop :=
  match v with
  | JNum s => num_lit s
  | JStr s => str_run SPlain s = Some SPlain
  | JArr l => foldr (λ v P, json_clean v ∧ P) True l
  | JObj l => foldr (λ kv P, (utf8_valid 0 kv.1 = true ∧ json_clean kv.2) ∧ P) True l
  | _ => True
  end.

Definition elems_clean (l : list json) : Prop := Forall json_clean l.
Definition members_clean (l : list (string * json)) : Prop :=
  Forall (λ kv, utf8_valid 0 kv.1 = true ∧ json_clean kv.2) l.

Lemma clean_arr l : elems_clean l → json_clean (JArr (rev l)).
Proof. intros H%Forall_rev. simpl. induction H; simpl; auto. Qed.

Lemma clean_obj l : members_clean l → json_clean (JObj (rev l)).
Proof. intros H%Forall_rev. simpl. induction H; simpl; auto. Qed.

Definition frame_ok (f : frame) : Prop :=
  match f with
  | FArr l => elems_clean l
  | FObj l => members_clean l
  | FVal l key => members_clean l ∧ utf8_valid 0 key = true
  end.

Definition mode_ok (m : mode) : Prop :=
  match m with
  | MColon key => utf8_valid 0 key = true
  | MStr _ st raw => str_run SPlain raw = Some st
  | MNum st raw => ∃ c t st0, raw = String c t ∧ num_start c = Some st0 ∧ num_run st0 t = Some st
  | MWord _ v | MDone v => json_clean v
  | _ => True
  end.

Definition move_ok (mv : move) : Prop :=
  match mv with
  | Next m k => mode_ok m ∧ Forall frame_ok k
  | Complete v | Before v => json_clean v
  | Bad => True
  end.

Lemma deliver_ok v k :
  json_clean v → Forall frame_ok k → mode_ok (deliver v k).1 ∧ Forall frame_ok (deliver v k).2.
Proof.
  intros Hv Hk. destruct Hk as [|[l|l|l key] k Hf Hk]; simpl; try done.
  - split; [done|]. constructor; [by constructor|done].
  - split; [done|]. by constructor.
  - destruct Hf as [Hl Hkey]. split; [done|]. constructor; [by constructor|done].
Qed.

Lemma close_ok v k : json_clean v → Forall frame_ok k → move_ok (close v k).
Proof.
  intros Hv Hk. destruct k as [|f k]; [done|]. unfold close. pose proof (deliver_ok v _ Hv Hk).
  by destruct (deliver v (f :: k)).
Qed.

Lemma push_ok f m k : frame_ok f → mode_ok m → Forall frame_ok k → move_ok (push f m k).
Proof. intros Hf Hm Hk. unfold push. case_match; [|done]. split; [done|by constructor]. Qed.

Lemma begin_value_ok c k : Forall frame_ok k → move_ok (begin_value c k).
Proof.
  intros Hk. unfold begin_value. repeat (case_match; [try (by apply push_ok; [constructor| |])|]); try done.
  - split; [|done]. by exists c, "", n.
Qed.

Lemma end_value_ok c k : Forall frame_ok k → move_ok (end_value c k).
Proof.
  intros Hk. unfold end_value. destruct (is_space c); [done|].
  destruct k as [|[l|l|l key] k]; try done; inversion_clear Hk as [|? ? Hf Hk'].
  - destruct (Ascii.eqb c ","); [split; [done|by constructor]|]. destruct (Ascii.eqb c "]"); [|done].
    apply close_ok; [by apply clean_arr|done].
  - destruct (Ascii.eqb c ","); [split; [done|by constructor]|]. destruct (Ascii.eqb c "}"); [|done].
    apply close_ok; [by apply clean_obj|done].
Qed.

Lemma scan_step_ok m k c : mode_ok m → Forall frame_ok k → move_ok (scan_step m k c).
Proof.
  intros Hm Hk. pose proof (begin_value_ok c k Hk) as Hb. pose proof (end_value_ok c k Hk) as He.
  destruct m as [| | | |key| |key st raw|st raw|rest v|v]; cbn [scan_step]; try (case_match; [done|]); auto.
  - case_match; [|done]. destruct k as [|[l|l|l key] k]; try done. inversion_clear Hk.
    apply close_ok; [by apply clean_arr|done].
  - case_match; [|unfold begin_key; by case_match]. destruct k as [|[l|l|l key] k]; try done.
    inversion_clear Hk. apply close_ok; [by apply clean_obj|done].
  - unfold begin_key. by case_match.
  - case_match; [|done]. destruct k as [|[l|l|l key'] k]; try done. inversion_clear Hk.
    split; [done|]. by constructor.
  - simpl in Hm. destruct (Ascii.eqb c dquote && _) eqn:Eq.
    + apply andb_true_iff in Eq as [_ Eq]. destruct st; try done. unfold string_end.
      destruct key; [split; [apply unquote_valid|done]|]. pose proof (deliver_ok (JStr raw) k Hm Hk).
      by destruct (deliver (JStr raw) k).
    + destruct (str_step st c) as [st'|] eqn:Es; [|done]. split; [|done]. simpl.
      rewrite str_run_app, Hm. simpl. by rewrite Eq, Es.
  - destruct Hm as (a&t&st0&->&Hs&Hr). destruct (num_step st c) as [st'|] eqn:En.
    + split; [|done]. exists a, (t +:+ String c ""), st0. split; [done|]. split; [done|].
      rewrite num_run_app, Hr. simpl. by rewrite En.
    + destruct (num_final st) eqn:Ef; [|done].
      assert (json_clean (JNum (String a t))) as Hv by (by exists a, t, st0, st).
      pose proof (deliver_ok _ k Hv Hk) as [_ Hd]. destruct (deliver _ k) as [[] k']; try done.
      by apply end_value_ok.
  - destruct (Ascii.eqb c _); [|done].
    destruct s; [|by split]. pose proof (deliver_ok v k Hm Hk). by destruct (deliver v k).
Qed.

Lemma parse_clean m k s :
  mode_ok m → Forall frame_ok k →
  (∀ v rest, parse m k s = POk v rest → json_clean v) ∧ (∀ v, parse m k s = PMore (Some v) → json_clean v).
Proof.
  revert m k. induction s as [|c s IH]; intros m k Hm Hk; cbn [parse].
  - split; [done|]. intros v [= Hv]. unfold at_eof in Hv. destruct m, k; try done.
    + destruct (num_final st) eqn:Ef; [|done]. injection Hv as <-. destruct Hm as (a&t&st0&->&?&?).
      by exists a, t, st0, st.
    + by injection Hv as <-.
  - pose proof (scan_step_ok m k c Hm Hk) as Hs.
    destruct (scan_step m k c) as [m' k'|v'|v'|]; [apply IH; apply Hs|..]; split; try done; by intros ? ? [= <- <-].
Qed.

(** Whatever bytes come in, a decoded document is made of literals and has
    well-formed keys. *)
Lemma text_value_clean s v : text_value s = inr v → json_clean v.
Proof.
  destruct (parse_clean MValue [] s I (Forall_nil_2 _)) as [H1 H2]. unfold text_value, parse_json.
  destruct (parse MValue [] s) as [v' rest|[v'|]|]; try done; [destruct (str_all _ _); [|done]|];
    intros [= <-]; eauto.
Qed.

Lemma stream_value_clean {E} s (err : option E) v : stream_value s err = inr v → json_clean v.
Proof.
  destruct (parse_clean MValue [] s I (Forall_nil_2 _)) as [H1 H2]. unfold stream_value, parse_json.
  destruct (parse MValue [] s) as [v' rest|[v'|]|]; destruct err; try done; intros [= <-]; eauto.
Qed.

(** A clean document is its own normal form. *)
Lemma json_san_clean v : json_clean v → json_san v = v.
Proof.
  induction v as [|b|s|s|l IH|l IH] using json_ind'; intros Hv; cbn [json_san]; try done.
  - f_equal. simpl in Hv. induction IH as [|v l Hvl _ IHl]; [done|]. destruct Hv. simpl. f_equal; auto.
  - f_equal. simpl in Hv. induction IH as [|[key v] l Hvl _ IHl]; [done|]. destruct Hv as [[Hk Hv] Hl].
    simpl in *. f_equal; [|auto]. by rewrite sanitize_valid, Hvl.
Qed.

(** ** Printed text fits on a line *)

Definition graphic (a : ascii) : bool := 32 <=? byte_val a.

Lemma str_step_graphic st c st' : str_step st c = Some st' → graphic c = true.
Proof.
  destruct st as [| |n]; unfold str_step.
  - unfold graphic. destruct (Z.eqb_spec (byte_val c) 92) as [->|]; [done|].
    destruct (Z.ltb_spec (byte_val c) 32); [done|]. intros _. by apply Z.leb_le.
  - destruct c as [[] [] [] [] [] [] [] []]; by vm_compute.
  - destruct (bool_decide _) eqn:E; [|done]. intros _. revert E. destruct c as [[] [] [] [] [] [] [] []]; by vm_compute.
Qed.

Lemma str_run_graphic st s st' : str_run st s = Some st' → str_all graphic s = true.
Proof.
  revert st. induction s as [|c s IH]; intros st; [done|]. cbn [str_run]. destruct (_ && _); [done|].
  intros (st1&Hs&Hr)%bind_Some. rewrite str_all_cons, (str_step_graphic _ _ _ Hs). by eapply IH.
Qed.

Lemma num_step_graphic st c st' : num_step st c = Some st' → graphic c = true.
Proof. destruct st, c as [[] [] [] [] [] [] [] []]; by vm_compute. Qed.

Lemma num_run_graphic st s st' : num_run st s = Some st' → str_all graphic s = true.
Proof.
  revert st. induction s as [|c s IH]; intros st; [done|]. cbn [num_run].
  intros (st1&Hs&Hr)%bind_Some. rewrite str_all_cons, (num_step_graphic _ _ _ Hs). by eapply IH.
Qed.

Lemma num_start_graphic c st : num_start c = Some st → graphic c = true.
Proof. destruct c as [[] [] [] [] [] [] [] []]; by vm_compute. Qed.

Lemma num_lit_graphic s : num_lit s → str_all graphic s = true.
Proof.
  intros (c&t&st&st'&->&Hc&Hr&_). by rewrite str_all_cons, (num_start_graphic _ _ Hc), (num_run_graphic _ _ _ Hr).
Qed.

Lemma Join_all P ss sep :
  Forall (λ s, str_all P s = true) ss → str_all P sep = true → str_all P (Join ss sep) = true.
Proof.
  intros Hss Hsep. induction Hss as [|s [|s' ss] Hs _ IH]; [done|done|].
  rewrite Join_cons2, !str_all_app. by rewrite Hs, Hsep.
Qed.

Lemma quoted_graphic s : str_all graphic (quoted s) = true.
Proof.
  unfold quoted. rewrite str_all_cons, str_all_app, (str_run_graphic _ _ _ (str_run_quote s)). reflexivity.
Qed.

Lemma json_print_graphic v : json_lits v → str_all graphic (json_print v) = true.
Proof.
  induction v as [|[]|s|s|l IH|l IH] using json_ind'; intros Hv; try done.
  - by apply num_lit_graphic.
  - cbn [json_print]. rewrite str_all_cons, str_all_app, (str_run_graphic _ _ _ Hv). reflexivity.
  - cbn [json_print]. rewrite !str_all_app. rewrite Join_all; [done| |done].
    induction IH as [|v l Hp _ IHl]; [constructor|]. destruct Hv as [Hv Hl].
    constructor; [by apply Hp|by apply IHl].
  - cbn [json_print]. rewrite !str_all_app. rewrite Join_all; [done| |done].
    induction IH as [|[k v] l Hp _ IHl]; [constructor|]. destruct Hv as [Hv Hl].
    constructor; [|by apply IHl]. cbn [fst snd] in *. rewrite !str_all_app, quoted_graphic. by apply Hp.
Qed.
