(* ===== verification/Reflect.v ===== *)
(** * Encoding and decoding Go values

    encoding/json works on Go values through reflection: a type ([gty]: the
    kinds the gateway uses, a struct as its list of JSON names, [omitempty]
    flags and field types) drives the encoder ([to_json]) and the decoder
    ([unmarshal]), which stores into an existing value.  A decoded slice
    reuses the elements of the old one, also those beyond its length
    ([VSlice]'s second argument is the capacity that is left); this is visible
    when a document repeats a key.

    [unmarshal_to_json] is the round trip for every type. *)

From S2P Require Import Prelude GoStrings Float64 JsonString JsonNumber JsonText.
From Stdlib Require Import Ascii SpecFloat.
Local Open Scope Z_scope.

#[warnings="-register-all"]
Inductive gty :=
| TString
| TInt
| TFloat
| TBool
| TTime
| TPtr (t : gty)
| TSlice (t : gty)
| TStruct (fs : list (string * bool * gty)).

#[warnings="-register-all"]
Inductive gval :=
| VString (s : string)
| VInt (z : Z)
| VFloat (x : f64)
| VBool (b : bool)
| VTime (t : Z)
| VPtr (o : option gval)
| VSlice (o : option (list gval)) (spare : list gval)
| VStruct (l : list gval).

(** [time.Time]'s text: [MarshalText] (which refuses years past 9999) and
    [parseStrictRFC3339].  An encoded time depends on the time zone of the
    process, so both are given by an instance. *)
Class TimeText := {
  fmt_time : Z → option string;
  parse_time : string → option Z;
}.

(** The text of a time is a plain string literal and reads back. *)
Class TimeLaws `{TimeText} : Prop := {
  time_lit t s : fmt_time t = Some s → str_run SPlain s = Some SPlain;
  time_roundtrip t s : fmt_time t = Some s → parse_time s = Some t;
}.

Fixpoint zero_val (t : gty) : gval :=
  match t with
  | TString => VString ""
  | TInt => VInt 0
  | TFloat => VFloat f64_zero
  | TBool => VBool false
  | TTime => VTime 0
  | TPtr _ => VPtr None
  | TSlice _ => VSlice None []
  | TStruct fs => VStruct (map (λ f, zero_val f.2) fs)
  end.

(** [isEmptyValue]. *)
Definition is_empty (v : gval) : bool :=
  match v with
  | VString s => bool_decide (s = "")
  | VInt z => z =? 0
  | VFloat x => bool_decide (x = f64_zero)
  | VBool b => negb b
  | VPtr o => match o with None => true | Some _ => false end
  | VSlice o _ => match o with None | Some [] => true | _ => false end
  | VTime _ | VStruct _ => false
  end.

Section Codec.
Context `{TimeText}.

(** The members of an encoded struct: [encs] encodes the fields. *)
Fixpoint members (fs : list (string * bool * gty)) (encs : list (gval → option json)) (vs : list gval)
    : option (list (string * json)) :=
  match fs, encs, vs with
  | f :: fs, enc :: encs, v :: vs =>
      rest ← members fs encs vs;
      if f.1.2 && is_empty v then Some rest else j ← enc v; Some ((f.1.1, j) :: rest)
  | _, _, _ => Some []
  end.

(** The document [json.Marshal] writes; [None]: an unsupported value. *)
Fixpoint to_json (t : gty) (v : gval) : option json :=
  match t, v with
  | TString, VString s => Some (JStr (json_quote s))
  | TInt, VInt z => Some (JNum (Itoa z))
  | TFloat, VFloat x => JNum <$> format_float x
  | TBool, VBool b => Some (JBool b)
  | TTime, VTime t => JStr <$> fmt_time t
  | TPtr t, VPtr o => match o with None => Some JNull | Some v => to_json t v end
  | TSlice t, VSlice o _ =>
      match o with None => Some JNull | Some l => JArr <$> mapM (to_json t) l end
  | TStruct fs, VStruct vs => JObj <$> members fs (map (λ f, to_json f.2) fs) vs
  | _, _ => None
  end.

(** ** Decoding *)

Definition upper (a : ascii) : ascii :=
  if in_range 97 122 (byte_val a) then byte_of (byte_val a - 32) else a.

(** [foldName] on well-formed text, as far as it can meet an ASCII name: ASCII
    letters, and the two other runes that fold to one (U+017F and U+212A). *)
Fixpoint fold_name (s : string) : string :=
  match s with
  | "" => ""
  | String a t =>
      match t with
      | String b u =>
          if (byte_val a =? 197) && (byte_val b =? 191) then String "S" (fold_name u)
          else match u with
          | String c w =>
              if (byte_val a =? 226) && (byte_val b =? 132) && (byte_val c =? 170)
              then String "K" (fold_name w) else String (upper a) (fold_name t)
          | "" => String (upper a) (fold_name t)
          end
      | "" => String (upper a) (fold_name t)
      end
  end.

(** The field a key addresses: the one of that name, else the first one that
    is equal up to case. *)
Definition find_field (names : list string) (key : string) : option nat :=
  match list_find (λ n, n = key) names with
  | Some (i, _) => Some i
  | None => fst <$> list_find (λ n, fold_name n = fold_name key) names
  end.

(** The elements of an array, over the old elements. *)
Fixpoint elements (dec : json → gval → option gval) (z : gval) (l : list json) (old : list gval)
    : option (list gval) :=
  match l with
  | [] => Some []
  | j :: l => v ← dec j (default z (head old)); vs ← elements dec z l (tail old); Some (v :: vs)
  end.

(** The members of an object, in order. *)
Fixpoint set_fields (names : list string) (decs : list (json → gval → option gval))
    (ms : list (string * json)) (vs : list gval) : option (list gval) :=
  match ms with
  | [] => Some vs
  | (key, j) :: ms =>
      match find_field names key with
      | None => set_fields names decs ms vs
      | Some i =>
          match decs !! i, vs !! i with
          | Some dec, Some cur => v ← dec j cur; set_fields names decs ms (<[i := v]> vs)
          | _, _ => None
          end
      end
  end.

(** Store a document into a value; [None]: an [UnmarshalTypeError] (or another
    one).  [null] clears pointers and slices and leaves everything else. *)
Fixpoint unmarshal (t : gty) (j : json) (cur : gval) : option gval :=
  match t with
  | TPtr t =>
      match j with
      | JNull => Some (VPtr None)
      | _ => (λ v, VPtr (Some v)) <$>
               unmarshal t j (match cur with VPtr (Some v) => v | _ => zero_val t end)
      end
  | TSlice t =>
      match j with
      | JNull => Some (VSlice None [])
      | JArr [] => Some (VSlice (Some []) [])
      | JArr l =>
          let old := match cur with VSlice o spare => default [] o ++ spare | _ => [] end in
          (λ vs, VSlice (Some vs) (drop (length l) old)) <$> elements (unmarshal t) (zero_val t) l old
      | _ => None
      end
  | TStruct fs =>
      match j, cur with
      | JNull, _ => Some cur
      | JObj ms, VStruct vs =>
          VStruct <$> set_fields (map (λ f, f.1.1) fs) (map (λ f, unmarshal f.2) fs) ms vs
      | _, _ => None
      end
  | _ =>
      match j with
      | JNull => Some cur
      | _ =>
          match t, j with
          | TString, JStr raw => Some (VString (unquote 0 raw))
          | TInt, JNum lit => VInt <$> Atoi lit
          | TFloat, JNum lit => VFloat <$> ParseFloat lit
          | TBool, JBool b => Some (VBool b)
          | TTime, JStr raw => VTime <$> parse_time raw
          | _, _ => None
          end
      end
  end.

(** ** [Marshal], [Encode], [Unmarshal] and [Decode] *)

Definition Marshal (t : gty) (v : gval) : option string := json_print <$> to_json t v.

(** [json.NewEncoder(w).Encode(v)]: the bytes written, none on an error. *)
Definition Encode (t : gty) (v : gval) : string :=
  match Marshal t v with Some s => s +:+ String (ascii_of_nat 10) "" | None => "" end.

Definition Unmarshal (t : gty) (s : string) : jerr + gval :=
  match text_value s with
  | inl e => inl e
  | inr j => match unmarshal t j (zero_val t) with Some v => inr v | None => inl EType end
  end.

Definition Decode {E} (t : gty) (data : string) (err : option E) : (E + jerr) + gval :=
  match stream_value data err with
  | inl e => inl e
  | inr j => match unmarshal t j (zero_val t) with Some v => inr v | None => inl (inr EType) end
  end.
End Codec.

(** ** Well-formed types and values *)

Lemma gty_ind' (P : gty → Prop) :
  P TString → P TInt → P TFloat → P TBool → P TTime → (∀ t, P t → P (TPtr t)) →
  (∀ t, P t → P (TSlice t)) → (∀ fs, Forall (λ f, P f.2) fs → P (TStruct fs)) → ∀ t, P t.
Proof.
  intros H1 H2 H3 H4 H5 Hp Hs Hst. fix IH 1. intros [| | | | |t|t|fs]; [done..|apply Hp, IH|apply Hs, IH|].
  apply Hst. induction fs as [|[? t] fs IHl]; constructor; [apply IH|exact IHl].
Qed.

Definition nullable (t : gty) : bool := match t with TPtr _ | TSlice _ => true | _ => false end.

(** A pointer does not point to something that is itself printed as [null];
    the names of a struct are distinct and well formed. *)
Fixpoint gty_ok (t : gty) : bool :=
  match t with
  | TPtr t => negb (nullable t) && gty_ok t
  | TSlice t => gty_ok t
  | TStruct fs =>
      bool_decide (NoDup (map (λ f, f.1.1) fs)) && forallb (λ f, utf8_valid 0 f.1.1) fs &&
      forallb (λ f, gty_ok f.2) fs
  | _ => true
  end.

Fixpoint gty_depth (t : gty) : nat :=
  match t with
  | TPtr t => gty_depth t
  | TSlice t => S (gty_depth t)
  | TStruct fs => S (foldr (λ f, Nat.max (gty_depth f.2)) 0%nat fs)
  | _ => 0%nat
  end.

Section Laws.
Context `{TimeLaws}.

(** A value of the type that the encoding represents: an empty [omitempty]
    field is the zero value, and there is no left-over capacity. *)
Fixpoint fields_ok (fs : list (string * bool * gty)) (oks : list (gval → Prop)) (vs : list gval) : Prop :=
  match fs, oks, vs with
  | [], [], [] => True
  | f :: fs, ok :: oks, v :: vs =>
      ok v ∧ (f.1.2 = true → is_empty v = true → v = zero_val f.2) ∧ fields_ok fs oks vs
  | _, _, _ => False
  end.

Fixpoint val_ok (t : gty) (v : gval) : Prop :=
  match t, v with
  | TString, VString s => utf8_valid 0 s = true
  | TInt, VInt z => in64 z
  | TFloat, VFloat x => f64_wf x
  | TBool, VBool _ => True
  | TTime, VTime t => is_Some (fmt_time t)
  | TPtr t, VPtr o => match o with None => True | Some v => val_ok t v end
  | TSlice t, VSlice o spare =>
      spare = [] ∧ match o with None => True | Some l => Forall (val_ok t) l end
  | TStruct fs, VStruct vs => fields_ok fs (map (λ f, val_ok f.2) fs) vs
  | _, _ => False
  end.

(** What the encoder produces for such a value. *)
Record encodes (t : gty) (v : gval) (j : json) : Prop := {
  en_json : to_json t v = Some j;
  en_back : unmarshal t j (zero_val t) = Some v;
  en_clean : json_clean j;
  en_depth : (json_depth j ≤ gty_depth t)%nat;
  en_null : nullable t = false → j ≠ JNull;
}.

Lemma find_field_exact names i n :
  NoDup names → names !! i = Some n → find_field names n = Some i.
Proof.
  intros Hnd Hi. unfold find_field.
  assert (list_find (λ m, m = n) names = Some (i, n)) as ->; [|done].
  apply list_find_Some. split; [done|]. split; [done|]. intros k m Hk Hlt ->.
  pose proof (NoDup_lookup _ _ _ _ Hnd Hi Hk). lia.
Qed.

Lemma elements_zero t l vs :
  Forall2 (λ j v, unmarshal t j (zero_val t) = Some v) l vs →
  elements (unmarshal t) (zero_val t) l [] = Some vs.
Proof.
  induction 1 as [|j v l vs Hj Hl IH]; [done|]. simpl. rewrite Hj. simpl in *. by rewrite IH.
Qed.

Lemma encodes_slice t l :
  gty_ok t = true → (∀ v, val_ok t v → ∃ j, encodes t v j) → Forall (val_ok t) l →
  ∃ js, mapM (to_json t) l = Some js ∧ Forall2 (λ j v, encodes t v j) js l.
Proof.
  intros Ht Hv. induction 1 as [|v l Hvl _ (js&Hm&Hf)]; [by exists []|].
  destruct (Hv v Hvl) as [j Hj]. exists (j :: js). split; [|by constructor].
  simpl. rewrite (en_json _ _ _ Hj). simpl. by rewrite Hm.
Qed.

Lemma clean_depth_arr t js l d :
  Forall2 (λ j v, encodes t v j) js l → (gty_depth t ≤ d)%nat →
  json_clean (JArr js) ∧ (json_depth (JArr js) ≤ S d)%nat.
Proof.
  intros Hf Hd. simpl. induction Hf as [|j v js l Hj _ IH]; simpl; [split; [done|lia]|].
  pose proof (en_depth _ _ _ Hj). destruct IH as [Hc Hl]. split; [|lia]. split; [apply Hj|done].
Qed.

(** The members of a struct and what decoding them gives, from field
    [length pre] on. *)
Lemma encodes_fields pre fs names decs done_ vs :
  names = pre ++ map (λ f, f.1.1) fs → NoDup names →
  (∀ i f, fs !! i = Some f → decs !! (length pre + i)%nat = Some (unmarshal f.2)) →
  length done_ = length pre →
  Forall (λ f, utf8_valid 0 f.1.1 = true ∧ ∀ v, val_ok f.2 v → ∃ j, encodes f.2 v j) fs →
  fields_ok fs (map (λ f, val_ok f.2) fs) vs →
  ∃ ms, members fs (map (λ f, to_json f.2) fs) vs = Some ms ∧
    set_fields names decs ms (done_ ++ map (λ f, zero_val f.2) fs) = Some (done_ ++ vs) ∧
    json_clean (JObj ms) ∧
    (json_depth (JObj ms) ≤ S (foldr (λ f, Nat.max (gty_depth f.2)) 0%nat fs))%nat.
Proof.
  intros Hnames Hnd. revert pre done_ vs Hnames.
  induction fs as [|f fs IH]; intros pre done_ vs Hnames Hdecs Hlen Hfs Hok.
  { destruct vs as [|? ?]; [|done]. exists []. simpl. split; [done|]. split; [done|]. split; [done|lia]. }
  destruct vs as [|v vs]; [done|]. destruct Hok as (Hv&Hom&Hok). inversion_clear Hfs as [|? ? [Hkey Hf] Hfs'].
  destruct (Hf v Hv) as [j Hj].
  assert (names !! length pre = Some f.1.1) as Hn by (rewrite Hnames; by rewrite lookup_app_r, Nat.sub_diag).
  destruct (IH (pre ++ [f.1.1]) (done_ ++ [v]) vs) as (ms&Hm&Hset&Hc&Hd); clear IH.
  { rewrite Hnames. by rewrite <-app_assoc. }
  { intros i g Hg. rewrite length_app. simpl. rewrite <-Nat.add_assoc. by apply Hdecs. }
  { rewrite !length_app. simpl. lia. }
  { done. }
  { done. }
  cbn [members map]. rewrite Hm. cbn [mbind option_bind].
  rewrite <-app_assoc in Hset. destruct (f.1.2 && is_empty v) eqn:Eo.
  - apply andb_true_iff in Eo as [Ho He]. rewrite (Hom Ho He) in Hset |- *. exists ms. split; [done|].
    split; [by rewrite <-app_assoc in Hset|]. split; [done|]. simpl in *. lia.
  - exists ((f.1.1, j) :: ms). rewrite (en_json _ _ _ Hj). split; [done|]. split; [|split].
    + cbn [set_fields]. rewrite (find_field_exact _ _ _ Hnd Hn).
      assert (decs !! length pre = Some (unmarshal f.2)) as ->.
      { rewrite <-(Nat.add_0_r (length pre)). by apply Hdecs. }
      rewrite lookup_app_r, <-Hlen, Nat.sub_diag by lia. cbn [lookup list_lookup map].
      rewrite (en_back _ _ _ Hj). cbn [mbind option_bind]. rewrite insert_app_r_alt, Nat.sub_diag by lia.
      simpl. by rewrite <-app_assoc in Hset.
    + split; [split; [done|apply Hj]|done].
    + pose proof (en_depth _ _ _ Hj). simpl in *. lia.
Qed.

Lemma unmarshal_to_json t v : gty_ok t = true → val_ok t v → ∃ j, encodes t v j.
Proof.
  revert v. induction t as [| | | | |t IH|t IH|fs IH] using gty_ind'; intros v Ht Hv.
  - destruct v as [s| | | | | | |]; try done. exists (JStr (json_quote s)).
    split; [done| |apply str_run_quote|done|done]. simpl. by rewrite unquote_quote, sanitize_valid.
  - destruct v as [|z| | | | | |]; try done. exists (JNum (Itoa z)).
    split; [done| |apply Itoa_lit|done|done]. simpl. by rewrite Atoi_Itoa_all.
  - destruct v as [| |x| | | | |]; try done. destruct (format_float_roundtrip x Hv) as (s&Hs&Hl&Hp).
    exists (JNum s). split; [simpl; by rewrite Hs| |done|done|done]. simpl. by rewrite Hp.
  - destruct v as [| | |b| | | |]; try done. by exists (JBool b).
  - destruct v as [| | | |tm| | |]; try done. destruct Hv as [s Hs]. exists (JStr s).
    split; [simpl; by rewrite Hs| |by eapply time_lit|done|done]. simpl. by rewrite (time_roundtrip tm s Hs).
  - destruct v as [| | | | |o| |]; try done. simpl in Ht. apply andb_true_iff in Ht as [Hn%negb_true_iff Ht].
    destruct o as [v|]; [|exists JNull; by split; [..|simpl; lia|]]. destruct (IH v Ht Hv) as [j [Hj Hb Hc Hd Hnull]].
    exists j. split; [done| |done|done|done]. simpl. rewrite Hb. by destruct j; [destruct (Hnull Hn)|..].
  - destruct v as [| | | | | |o spare|]; try done. destruct Hv as [-> Hv]. destruct o as [l|]; [|exists JNull; by split; [..|simpl; lia|]].
    destruct (encodes_slice t l Ht (λ v, IH v Ht) Hv) as (js&Hm&Hf). exists (JArr js).
    destruct (clean_depth_arr t js l (gty_depth t) Hf ltac:(lia)) as [Hc Hd].
    split; [simpl; by rewrite Hm| |done|done|done].
    assert (elements (unmarshal t) (zero_val t) js [] = Some l) as He.
    { apply elements_zero. eapply Forall2_impl; [exact Hf|]. intros j v Hj. apply Hj. }
    destruct js as [|j js]; [by inversion Hf|]. cbn [unmarshal zero_val default app]. rewrite He. by destruct js.
  - destruct v as [| | | | | | |vs]; try done. simpl in Ht.
    apply andb_true_iff in Ht as [[Hnd%bool_decide_eq_true Hutf]%andb_true_iff Hall].
    destruct (encodes_fields [] fs (map (λ f, f.1.1) fs) (map (λ f, unmarshal f.2) fs) [] vs)
      as (ms&Hm&Hset&Hc&Hd); [done|done| |done| |done|].
    { intros i f Hf. simpl. by rewrite list_lookup_fmap, Hf. }
    { rewrite forallb_forall in Hutf, Hall. apply Forall_forall. intros f Hf.
      split; [by apply Hutf, list_elem_of_In|]. rewrite Forall_forall in IH. intros v Hvf.
      apply (IH f Hf); [|done]. by apply Hall, list_elem_of_In. }
    exists (JObj ms). split; [simpl; by rewrite Hm| |done|done|done]. simpl in Hset |- *. by rewrite Hset.
Qed.

Lemma clean_lits j : json_clean j → json_lits j.
Proof.
  induction j as [| | | |l IH|l IH] using json_ind'; try done; simpl; intros Hc;
    induction IH as [|? ? ? ? IHl]; try done; simpl in *; naive_solver.
Qed.


(** ** Text *)

(** A struct is printed as an object, which the scanner reads to its closing
    brace, whatever follows. *)
Lemma Marshal_text fs v :
  gty_ok (TStruct fs) = true → (gty_depth (TStruct fs) ≤ maxNestingDepth)%nat → val_ok (TStruct fs) v →
  ∃ ms, encodes (TStruct fs) v (JObj ms) ∧ ∀ t, parse_json (json_print (JObj ms) +:+ t) = POk (JObj ms) t.
Proof.
  intros Ht Hdepth Hv. destruct (unmarshal_to_json _ _ Ht Hv) as [j Henc]. pose proof Henc as [Hj Hb Hc Hd _].
  assert (∃ l, j = JObj l) as [l ->].
  { simpl in Hj. destruct v as [| | | | | | |vs]; try done. simpl in Hj.
    destruct (members fs _ vs) as [ms|]; [|done]. injection Hj as <-. by exists ms. }
  exists l. split; [done|]. intros t. rewrite parse_print_top; [|by apply clean_lits|lia]. by rewrite json_san_clean.
Qed.

(** It is read back by both entry points; the decoder of a stream ignores what
    follows. *)
Lemma Marshal_roundtrip fs v :
  gty_ok (TStruct fs) = true → (gty_depth (TStruct fs) ≤ maxNestingDepth)%nat → val_ok (TStruct fs) v →
  ∃ s, Marshal (TStruct fs) v = Some s ∧
    (∀ sp, str_all is_space sp = true → Unmarshal (TStruct fs) (s +:+ sp) = inr v) ∧
    (∀ E rest (err : option E), Decode (TStruct fs) (s +:+ rest) err = inr v).
Proof.
  intros Ht Hdepth Hv. destruct (Marshal_text fs v Ht Hdepth Hv) as (ms&[Hj Hb _ _ _]&Hp).
  exists (json_print (JObj ms)). unfold Marshal. rewrite Hj. split; [done|]. split.
  - intros sp Hsp. unfold Unmarshal, text_value. by rewrite Hp, Hsp, Hb.
  - intros E rest err. unfold Decode, stream_value. by rewrite Hp, Hb.
Qed.

(** Reading a document as another struct: the fields it knows are set to the
    values written, wherever they stand in it; the others are ignored. *)
Definition put (names : list string) (cur : list gval) (kv : string * gval) : list gval :=
  match find_field names kv.1 with Some i => <[i := kv.2]> cur | None => cur end.

(** [f] is unknown to the reader, or is the field [i] there, of the same type
    and not set yet. *)
Definition fits (names : list string) (decs : list (json → gval → option gval)) (cur : list gval)
    (f : string * bool * gty) : Prop :=
  match find_field names f.1.1 with
  | Some i => decs !! i = Some (unmarshal f.2) ∧ cur !! i = Some (zero_val f.2)
  | None => True
  end.

Lemma set_fields_put fs vs ms names decs cur :
  members fs (map (λ f, to_json f.2) fs) vs = Some ms →
  fields_ok fs (map (λ f, val_ok f.2) fs) vs → forallb (λ f, gty_ok f.2) fs = true →
  NoDup (omap (λ f, find_field names f.1.1) fs) → Forall (fits names decs cur) fs →
  set_fields names decs ms cur = Some (foldl (put names) cur (zip (map (λ f, f.1.1) fs) vs)).
Proof.
  revert vs ms cur. induction fs as [|f fs IH]; intros [|v vs] ms cur; cbn [members map]; try done.
  { by intros [= <-]. }
  intros (rest&Hr&Hms)%bind_Some (Hv&Hom&Hvs) [Ht Hts]%andb_true_iff Hnd [Hf Hfs]%Forall_cons.
  destruct (unmarshal_to_json f.2 v Ht Hv) as [j [Hj Hb _ _ _]]. cbn [zip zip_with foldl].
  change (foldl _ _ (zip_with pair _ vs)) with
    (foldl (put names) (put names cur (f.1.1, v)) (zip (map (λ f, f.1.1) fs) vs)).
  unfold fits in Hf. unfold put at 2. cbn [fst snd].
  change (omap ?g (f :: fs)) with (match g f with Some y => y :: omap g fs | None => omap g fs end) in Hnd.
  destruct (find_field names f.1.1) as [i|] eqn:Ef.
  - destruct Hf as [Hdec Hcur]. apply NoDup_cons in Hnd as [Hni Hnd].
    assert (Forall (fits names decs (<[i := v]> cur)) fs) as Hfs'.
    { apply Forall_forall. intros g Hg. pose proof (proj1 (Forall_forall _ _) Hfs g Hg) as Hfg. unfold fits in *.
      destruct (find_field names g.1.1) as [i'|] eqn:Eg; [|done]. rewrite list_lookup_insert_ne; [done|].
      intros <-. apply Hni, list_elem_of_omap. by exists g. }
    rewrite <-(IH vs rest _ Hr Hvs Hts Hnd Hfs'). destruct (f.1.2 && is_empty v) eqn:Eo.
    + injection Hms as <-. apply andb_true_iff in Eo as [Ho He]. rewrite (Hom Ho He).
      by rewrite list_insert_id.
    + rewrite Hj in Hms. injection Hms as <-. cbn [set_fields]. by rewrite Ef, Hdec, Hcur, Hb.
  - rewrite <-(IH vs rest _ Hr Hvs Hts Hnd Hfs). destruct (f.1.2 && is_empty v); [by injection Hms as <-|].
    rewrite Hj in Hms. injection Hms as <-. cbn [set_fields]. by rewrite Ef.
Qed.
End Laws.

(** ** Decoded values *)

Section Sane.
Context `{TimeText}.

(** Whatever is decoded holds well-formed strings, 64-bit integers and finite
    doubles. *)
Fixpoint all_sane (sane : list (gval → Prop)) (vs : list gval) : Prop :=
  match sane, vs with
  | [], [] => True
  | P :: sane, v :: vs => P v ∧ all_sane sane vs
  | _, _ => False
  end.

Fixpoint val_sane (t : gty) (v : gval) : Prop :=
  match t, v with
  | TString, VString s => utf8_valid 0 s = true
  | TInt, VInt z => in64 z
  | TFloat, VFloat x => f64_wf x
  | TBool, VBool _ => True
  | TTime, VTime _ => True
  | TPtr t, VPtr o => match o with None => True | Some v => val_sane t v end
  | TSlice t, VSlice o spare => Forall (val_sane t) (default [] o ++ spare)
  | TStruct fs, VStruct vs => all_sane (map (λ f, val_sane f.2) fs) vs
  | _, _ => False
  end.

Lemma zero_sane t : val_sane t (zero_val t).
Proof.
  induction t as [| | | | |t IH|t IH|fs IH] using gty_ind'; try done; [by constructor|].
  simpl. induction IH; simpl; auto.
Qed.

Lemma all_sane_lookup sane vs i P v :
  all_sane sane vs → sane !! i = Some P → vs !! i = Some v → P v.
Proof.
  revert sane vs. induction i as [|i IH]; intros [|Q sane] [|w vs] Hall; try done; simpl in *.
  - intros [= <-] [= <-]. apply Hall.
  - apply IH, Hall.
Qed.

Lemma all_sane_insert sane vs i P v :
  all_sane sane vs → sane !! i = Some P → P v → all_sane sane (<[i := v]> vs).
Proof.
  revert sane vs. induction i as [|i IH]; intros [|Q sane] [|w vs] Hall; try done; simpl in *.
  - intros [= <-] Hv. by destruct Hall as [_ Hall].
  - destruct Hall as [Hw Hall]. split; [done|]. by eapply IH.
Qed.

Lemma map_lookup_Some {A B} (g : A → B) l i y : map g l !! i = Some y → ∃ x, l !! i = Some x ∧ y = g x.
Proof. revert i. induction l as [|x l IH]; intros [|i]; try done; simpl; [intros [= <-]; eauto|apply IH]. Qed.

Lemma elements_sane t l old vs :
  (∀ j cur v, json_clean j → val_sane t cur → unmarshal t j cur = Some v → val_sane t v) →
  json_clean (JArr l) → Forall (val_sane t) old → elements (unmarshal t) (zero_val t) l old = Some vs →
  Forall (val_sane t) vs.
Proof.
  intros IH. revert old vs. induction l as [|j l IHl]; intros old vs Hl Hold; simpl; [by intros [= <-]|].
  destruct Hl as [Hj Hl]. intros (v&Hv&(vs'&Hvs&[= <-])%bind_Some)%bind_Some. constructor.
  - eapply IH; [done| |done]. destruct Hold; [apply zero_sane|done].
  - eapply IHl; [done| |done]. by destruct Hold.
Qed.

Lemma set_fields_sane names (decs : list (json → gval → option gval)) sane ms vs vs' :
  (∀ i dec P j cur v, decs !! i = Some dec → sane !! i = Some P → json_clean j → P cur → dec j cur = Some v → P v) →
  length decs = length sane → json_clean (JObj ms) → all_sane sane vs →
  set_fields names decs ms vs = Some vs' → all_sane sane vs'.
Proof.
  intros Hdec Hlen. revert vs. induction ms as [|[key j] ms IH]; intros vs Hms Hvs; simpl; [by intros [= <-]|].
  destruct Hms as [[_ Hj] Hms]. destruct (find_field names key) as [i|]; [|by apply IH].
  destruct (decs !! i) as [dec|] eqn:Ed; [|done]. destruct (vs !! i) as [cur|] eqn:Ec; [|done].
  destruct (lookup_lt_is_Some_2 sane i) as [P HP]; [rewrite <-Hlen; by eapply lookup_lt_Some|].
  intros (v&Hv&Hrest)%bind_Some. eapply IH; [done| |done]. eapply all_sane_insert; [done|done|].
  eapply Hdec; [done|done|done|by eapply all_sane_lookup|done].
Qed.

Lemma unmarshal_sane t j cur v :
  json_clean j → val_sane t cur → unmarshal t j cur = Some v → val_sane t v.
Proof.
  revert j cur v. induction t as [| | | | |t IH|t IH|fs IH] using gty_ind'; intros j cur v Hj Hc.
  - destruct j; try done; simpl; intros [= <-]; [done|]. apply unquote_valid.
  - destruct j as [| |lit| | |]; try done; simpl; [by intros [= <-]|]. intros (z&Hz&->)%fmap_Some.
    by apply Atoi_in64 in Hz.
  - destruct j as [| |lit| | |]; try done; simpl; [by intros [= <-]|]. intros (z&Hz&->)%fmap_Some.
    by apply ParseFloat_wf in Hz.
  - destruct j; try done; simpl; by intros [= <-].
  - destruct j as [| | |raw| |]; try done; simpl; [by intros [= <-]|]. by intros (z&Hz&->)%fmap_Some.
  - assert (val_sane t (match cur with VPtr (Some v) => v | _ => zero_val t end)) as Hcur.
    { destruct cur as [| | | | |[w|]| |]; try done; apply zero_sane. }
    destruct j; simpl; [by intros [= <-]|..]; intros (w&Hw&->)%fmap_Some; simpl; by eapply IH.
  - destruct j as [| | | |l|]; try done; simpl; [by intros [= <-]; constructor|].
    destruct l as [|j l]; [intros [= <-]; by constructor|].
    set (old := match cur with VSlice o spare => default [] o ++ spare | _ => [] end).
    assert (Forall (val_sane t) old) as Hold by (by destruct cur).
    intros (vs&Hvs&->)%fmap_Some. simpl. apply Forall_app. split; [by eapply elements_sane|].
    by apply Forall_drop.
  - destruct j as [| | | | |ms]; try done; destruct cur as [| | | | | | |vs]; try done; simpl; [by intros [= <-]|].
    intros (vs'&Hvs&->)%fmap_Some. simpl.
    eapply (set_fields_sane _ _ (map (λ f, val_sane f.2) fs)); [| |done|done|done]; [|by rewrite !length_map].
    intros i dec P j c w (f&Ef&->)%map_lookup_Some (f'&Ef'&->)%map_lookup_Some Hcj Hpc Hw. simplify_eq.
    rewrite Forall_lookup in IH. by eapply (IH i f).
Qed.

Lemma Unmarshal_sane t s v : Unmarshal t s = inr v → val_sane t v.
Proof.
  unfold Unmarshal. destruct (text_value s) as [e|j] eqn:E; [done|]. apply text_value_clean in E.
  destruct (unmarshal t j _) eqn:Eu; [|done]. intros [= <-]. eapply unmarshal_sane; [done|apply zero_sane|done].
Qed.

Lemma Decode_sane {E} t s (err : option E) v : Decode t s err = inr v → val_sane t v.
Proof.
  unfold Decode. destruct (stream_value s err) as [e|j] eqn:Ej; [done|]. apply stream_value_clean in Ej.
  destruct (unmarshal t j _) eqn:Eu; [|done]. intros [= <-]. eapply unmarshal_sane; [done|apply zero_sane|done].
Qed.
End Sane.
