(* ===== verification/Calendar.v ===== *)
(** * The text of a time

    [time.Time] in JSON documents (the expiry and creation time of a key in
    admin_keys.go, the last success and failure of a provider in health.go):
    [time.Date] and its inverse on the proleptic Gregorian calendar, the text
    [MarshalJSON] writes and the texts [UnmarshalJSON] reads; and the dates
    [time.Parse] reads in a Retry-After header (errors.go).  An instant is in nanoseconds since [time.Time{}], 1 January of year 1, UTC.

    [rfc3339] is the instance of [TimeText] for a process whose time zone is
    [zone] (the offset in seconds east of UTC in force at a second);
    [rfc3339_laws]: in a zone with offsets in whole minutes, every text written
    is read as the same instant; [http_date_parsed]: so is every
    HTTP date. *)

From S2P Require Import Prelude GoStrings JsonString JsonNumber JsonText Reflect.
From Stdlib Require Import Ascii.
Local Open Scope Z_scope.
#[local] Ltac Zify.zify_post_hook ::= Z.to_euclidean_division_equations.

(** ** Days and dates *)

Definition daysPer400Years : Z := 146097.
Definition daysPer100Years : Z := 36524.
Definition daysPer4Years : Z := 1461.

Definition isLeap (year : Z) : bool :=
  (year mod 4 =? 0) && (negb (year mod 100 =? 0) || (year mod 400 =? 0)).

(** The days of a common year before each month, and after the last. *)
Definition daysBefore (m : Z) : Z :=
  default 365 ([0; 31; 59; 90; 120; 151; 181; 212; 243; 273; 304; 334] !! Z.to_nat m).

Definition daysIn (m year : Z) : Z :=
  if (m =? 2) && isLeap year then 29 else daysBefore m - daysBefore (m - 1).

Definition daysSinceEpoch (year : Z) : Z :=
  let y := year - 1 in
  let n := y / 400 in
  let y := y - 400 * n in
  let d := daysPer400Years * n in
  let n := y / 100 in
  let y := y - 100 * n in
  let d := d + daysPer100Years * n in
  let n := y / 4 in
  let y := y - 4 * n in
  let d := d + daysPer4Years * n in
  d + 365 * y.

(** The day of a date, from 1 January of year 1. *)
Definition days_of (year month day : Z) : Z :=
  daysSinceEpoch year + daysBefore (month - 1) +
  (if isLeap year && (3 <=? month) then 1 else 0) + (day - 1).

(** The year of a day, and the day within it from 0: 400-, 100-, 4- and
    1-year cycles are cut off; the last 100-year cycle of 400 years and the
    last year of four are a day longer, hence the correction by a quarter. *)
Definition year_of (d : Z) : Z * Z :=
  let n := d / daysPer400Years in
  let y := 400 * n in
  let d := d - daysPer400Years * n in
  let n := d / daysPer100Years in
  let n := n - Z.shiftr n 2 in
  let y := y + 100 * n in
  let d := d - daysPer100Years * n in
  let n := d / daysPer4Years in
  let y := y + 4 * n in
  let d := d - daysPer4Years * n in
  let n := d / 365 in
  let n := n - Z.shiftr n 2 in
  (y + n + 1, d - 365 * n).

(** The month and the day within it, guessing that every month has 31 days. *)
Definition month_of (leap : bool) (yday : Z) : Z * Z :=
  if leap && (yday =? 31 + 29 - 1) then (2, 29)
  else
    let day := if leap && (31 + 29 - 1 <? yday) then yday - 1 else yday in
    let month := day / 31 in
    let close := daysBefore (month + 1) in
    let '(month, begin) := if close <=? day then (month + 1, close) else (month, daysBefore month) in
    (month + 1, day - begin + 1).

Definition date (d : Z) : Z * Z * Z :=
  let '(year, yday) := year_of d in
  let '(month, day) := month_of (isLeap year) yday in
  (year, month, day).

(** A day within its year. *)
Lemma year_of_ok d year yday :
  year_of d = (year, yday) →
  daysSinceEpoch year + yday = d ∧ 0 ≤ yday ≤ (if isLeap year then 365 else 364).
Proof.
  unfold year_of, daysPer400Years, daysPer100Years, daysPer4Years. rewrite !Z.shiftr_div_pow2 by lia.
  change (2 ^ 2) with 4.
  set (a := d / 146097). set (d1 := d - 146097 * a). assert (0 ≤ d1 < 146097) by (unfold d1, a; lia).
  set (b := d1 / 36524 - d1 / 36524 / 4). set (d2 := d1 - 36524 * b).
  assert (0 ≤ b ≤ 3 ∧ 0 ≤ d2 ≤ 36524 ∧ (d2 = 36524 → b = 3)) as (Hb&Hd2&Hb3) by (unfold d2, b; lia).
  set (c := d2 / 1461). set (d3 := d2 - 1461 * c).
  assert (0 ≤ c ≤ 24 ∧ 0 ≤ d3 < 1461) as (Hc&Hd3) by (unfold d3, c; lia).
  assert (c = 24 → b ≠ 3 → d3 < 1460) as Hc24 by (unfold d3, c; lia).
  set (e := d3 / 365 - d3 / 365 / 4).
  assert (0 ≤ e ≤ 3 ∧ 0 ≤ d3 - 365 * e ≤ 365 ∧ (d3 - 365 * e = 365 → e = 3)) as (He&Hr&He3) by (unfold e; lia).
  intros [= <- <-]. set (r := d3 - 365 * e) in *. split.
  - unfold daysSinceEpoch, daysPer400Years, daysPer100Years, daysPer4Years.
    assert ((400 * a + 100 * b + 4 * c + e + 1 - 1) / 400 = a) as -> by lia.
    assert ((400 * a + 100 * b + 4 * c + e + 1 - 1 - 400 * a) / 100 = b) as -> by lia.
    assert ((400 * a + 100 * b + 4 * c + e + 1 - 1 - 400 * a - 100 * b) / 4 = c) as -> by lia.
    unfold r, d3, d2, d1. lia.
  - split; [lia|]. unfold isLeap.
    destruct (Z.eqb_spec ((400 * a + 100 * b + 4 * c + e + 1) mod 4) 0);
      destruct (Z.eqb_spec ((400 * a + 100 * b + 4 * c + e + 1) mod 100) 0);
      destruct (Z.eqb_spec ((400 * a + 100 * b + 4 * c + e + 1) mod 400) 0); simpl; lia.
Qed.

(** Every day of a year is a day of a month of it. *)
Definition month_check (leap : bool) (yday : Z) : bool :=
  let '(month, day) := month_of leap yday in
  let len := if (month =? 2) && leap then 29 else daysBefore month - daysBefore (month - 1) in
  (1 <=? month) && (month <=? 12) && (1 <=? day) && (day <=? len) &&
  (daysBefore (month - 1) + (if leap && (3 <=? month) then 1 else 0) + (day - 1) =? yday).

Lemma month_of_ok (leap : bool) yday month day :
  0 ≤ yday ≤ (if leap then 365 else 364) → month_of leap yday = (month, day) →
  1 ≤ month ≤ 12 ∧ 1 ≤ day ≤ (if (month =? 2) && leap then 29 else daysBefore month - daysBefore (month - 1)) ∧
  daysBefore (month - 1) + (if leap && (3 <=? month) then 1 else 0) + (day - 1) = yday.
Proof.
  assert (Forall (λ n, month_check true (Z.of_nat n) = true) (seq 0 366) ∧
          Forall (λ n, month_check false (Z.of_nat n) = true) (seq 0 365)) as [H1 H2].
  { split; apply Forall_forall; intros n Hn;
      [assert (forallb (λ n, month_check true (Z.of_nat n)) (seq 0 366) = true) as Hall by (vm_compute; reflexivity)
      |assert (forallb (λ n, month_check false (Z.of_nat n)) (seq 0 365) = true) as Hall by (vm_compute; reflexivity)];
      rewrite forallb_forall in Hall; apply Hall; by apply list_elem_of_In. }
  intros Hy E. assert (month_check leap yday = true) as Hc.
  { rewrite <-(Z2Nat.id yday) by lia.
    destruct leap; [rewrite Forall_forall in H1; apply H1|rewrite Forall_forall in H2; apply H2]; apply elem_of_seq; lia. }
  unfold month_check in Hc. rewrite E in Hc. rewrite !andb_true_iff in Hc. ztests.
Qed.

(** [time.Date] inverts the calendar, and the calendar yields dates. *)
Lemma date_ok d year month day :
  date d = (year, month, day) →
  days_of year month day = d ∧ 1 ≤ month ≤ 12 ∧ 1 ≤ day ≤ daysIn month year.
Proof.
  unfold date. destruct (year_of d) as [y yday] eqn:Ey. destruct (month_of (isLeap y) yday) as [m dd] eqn:Em.
  intros [= <- <- <-]. apply year_of_ok in Ey as [Hd Hy]. apply month_of_ok in Em as (Hm&Hdd&Hs); [|done].
  unfold days_of, daysIn. split; [lia|]. done.
Qed.

Lemma daysIn_31 month year : 1 ≤ month ≤ 12 → daysIn month year ≤ 31.
Proof.
  intros Hm. unfold daysIn. destruct (_ && _); [lia|].
  assert (month = 1 ∨ month = 2 ∨ month = 3 ∨ month = 4 ∨ month = 5 ∨ month = 6 ∨ month = 7 ∨ month = 8 ∨
    month = 9 ∨ month = 10 ∨ month = 11 ∨ month = 12) as Hc by lia.
  repeat (destruct Hc as [->|Hc]; [vm_compute; discriminate|]). subst month. vm_compute. discriminate.
Qed.

(** ** Writing *)

Definition digit (n : Z) : ascii := pretty_N_char (Z.to_N n).

Fixpoint digits (w : nat) (u : Z) : string :=
  match w with
  | O => ""
  | S w => digits w (u / 10) +:+ String (digit (u mod 10)) ""
  end.

(** [appendInt]: at least [w] digits. *)
Definition appendInt (x : Z) (w : nat) : string :=
  let u := if x <? 0 then - x else x in
  (if x <? 0 then "-" else "") +:+ (if u <? 10 ^ Z.of_nat w then digits w u else Itoa u).

Fixpoint trim_zeros (s : string) : string :=
  match s with
  | "" => ""
  | String c t => let t := trim_zeros t in if Ascii.eqb c "0" && bool_decide (t = "") then "" else String c t
  end.

(** [appendNano] with at most nine digits. *)
Definition appendNano (nsec : Z) : string :=
  if nsec =? 0 then "" else "." +:+ trim_zeros (appendInt nsec 9).

(** The zone, which must be within 24 hours. *)
Definition fmt_zone (offset : Z) : option string :=
  if offset =? 0 then Some "Z"
  else
    let zone := Z.quot offset 60 in
    let '(sign, zone) := if zone <? 0 then ("-", - zone) else ("+", zone) in
    if 24 <=? zone / 60 then None
    else Some (sign +:+ appendInt (zone / 60) 2 +:+ ":" +:+ appendInt (zone mod 60) 2).

(** [Time.MarshalJSON] without the quotes: [appendStrictRFC3339], which
    refuses years that have not four digits. *)
Definition marshal_time (zone : Z → Z) (t : Z) : option string :=
  let sec := t / Second in
  let offset := zone sec in
  let abs := sec + offset in
  let '(year, month, day) := date (abs / 86400) in
  let r := abs mod 86400 in
  if (0 <=? year) && (year <=? 9999) then
    z ← fmt_zone offset;
    Some (appendInt year 4 +:+ "-" +:+ appendInt month 2 +:+ "-" +:+ appendInt day 2 +:+ "T" +:+
          appendInt (r / 3600) 2 +:+ ":" +:+ appendInt (r mod 3600 / 60) 2 +:+ ":" +:+ appendInt (r mod 60) 2 +:+
          appendNano (t mod Second) +:+ z)
  else None.

(** ** Reading *)

(** [Date] in UTC. *)
Definition time_Date (year month day hour min sec nsec : Z) : Z :=
  (days_of year month day * 86400 + hour * 3600 + min * 60 + sec) * Second + nsec.

Definition parseUint (s : string) (min max : Z) : option Z :=
  x ← digits_val 0 s; if (min <=? x) && (x <=? max) then Some x else None.

(** [s[i:j]] and [s[i] == c]. *)
Definition sub (i j : nat) (s : string) : string := str_take (j - i) (str_drop i s).
Definition char_at (i : nat) (c : ascii) (s : string) : bool :=
  match String.get i s with Some a => Ascii.eqb a c | None => false end.

Fixpoint count_digits (s : string) : nat :=
  match s with String c t => if is_digit c then S (count_digits t) else O | "" => O end.

(** [parseNanoseconds] of the digits after the separator: the first nine. *)
Definition parseNanoseconds (digs : string) : Z :=
  let digs := str_take 9 digs in
  default 0 (digits_val 0 digs) * 10 ^ Z.of_nat (9 - String.length digs).

(** A fraction of a second, if there is one, and what follows. *)
Definition parse_frac (sep : ascii → bool) (s : string) : Z * string :=
  match s with
  | String c t =>
      if sep c && (0 <? count_digits t)%nat
      then (parseNanoseconds (str_take (count_digits t) t), str_drop (count_digits t) t)
      else (0, s)
  | "" => (0, s)
  end.

(** [parseRFC3339]. *)
Definition parse_zone (s : string) : option Z :=
  if bool_decide (s = "Z") then Some 0
  else if negb (String.length s =? 6)%nat then None
  else
    hr ← parseUint (sub 1 3 s) 0 23;
    mm ← parseUint (sub 4 6 s) 0 59;
    if (char_at 0 "-" s || char_at 0 "+" s) && char_at 3 ":" s
    then Some (if char_at 0 "-" s then - ((hr * 60 + mm) * 60) else (hr * 60 + mm) * 60)
    else None.

Definition parseRFC3339 (s : string) : option Z :=
  if (String.length s <? 19)%nat then None
  else
    year ← parseUint (sub 0 4 s) 0 9999;
    month ← parseUint (sub 5 7 s) 1 12;
    day ← parseUint (sub 8 10 s) 1 (daysIn month year);
    hour ← parseUint (sub 11 13 s) 0 23;
    min ← parseUint (sub 14 16 s) 0 59;
    sec ← parseUint (sub 17 19 s) 0 59;
    if char_at 4 "-" s && char_at 7 "-" s && char_at 10 "T" s && char_at 13 ":" s && char_at 16 ":" s then
      let '(nsec, s) := parse_frac (Ascii.eqb ".") (str_drop 19 s) in
      offset ← parse_zone s;
      Some (time_Date year month day hour min sec nsec - offset * Second)
    else None.

(** The general [Parse] with the layout [RFC3339], which also takes an hour of
    one digit, a comma before the fraction, and zones up to 24:60. *)
Definition getnum (fixed : bool) (s : string) : option (Z * string) :=
  match s with
  | String a (String b t as t') =>
      if negb (is_digit a) then None
      else if is_digit b then Some (digit_val a * 10 + digit_val b, t)
      else if fixed then None else Some (digit_val a, t')
  | String a "" => if is_digit a && negb fixed then Some (digit_val a, "") else None
  | "" => None
  end.

Definition skip (c : ascii) (s : string) : option string :=
  match s with String a t => if Ascii.eqb a c then Some t else None | "" => None end.

Definition getnum_upto (fixed : bool) (max : Z) (s : string) : option (Z * string) :=
  '(n, s) ← getnum fixed s; if n <=? max then Some (n, s) else None.

(** The zone and what follows it. *)
Definition layout_zone (s : string) : option (Z * string) :=
  if char_at 0 "Z" s then Some (0, str_drop 1 s)
  else if (String.length s <? 6)%nat || negb (char_at 3 ":" s) then None
  else
    '(hr, _) ← getnum_upto true 24 (sub 1 3 s);
    '(mm, _) ← getnum_upto true 60 (sub 4 6 s);
    if char_at 0 "+" s then Some ((hr * 60 + mm) * 60, str_drop 6 s)
    else if char_at 0 "-" s then Some (- ((hr * 60 + mm) * 60), str_drop 6 s)
    else None.

Definition parse_layout (s : string) : option Z :=
  if (String.length s <? 4)%nat then None
  else
    year ← digits_val 0 (str_take 4 s);
    s ← skip "-" (str_drop 4 s);
    '(month, s) ← getnum_upto true 12 s;
    s ← skip "-" s;
    '(day, s) ← getnum true s;
    s ← skip "T" s;
    '(hour, s) ← getnum_upto false 23 s;
    s ← skip ":" s;
    '(min, s) ← getnum_upto true 59 s;
    s ← skip ":" s;
    '(sec, s) ← getnum_upto true 59 s;
    let '(nsec, s) := parse_frac (λ c, Ascii.eqb c "." || Ascii.eqb c ",") s in
    '(offset, s) ← layout_zone s;
    if bool_decide (s = "") && (1 <=? month) && (1 <=? day) && (day <=? daysIn month year)
    then Some (time_Date year month day hour min sec nsec - offset * Second)
    else None.

(** ** HTTP dates *)

(** The prefix of a layout that is a space matches any number of spaces, and
    the end of the value. *)
Fixpoint cutspace (s : string) : string :=
  match s with String c t => if Ascii.eqb c " " then cutspace t else s | "" => "" end.
Definition skip_space (s : string) : option string :=
  match s with String c _ => if Ascii.eqb c " " then Some (cutspace s) else None | "" => Some "" end.

Definition shortDayNames : list string := ["Sun"; "Mon"; "Tue"; "Wed"; "Thu"; "Fri"; "Sat"].
Definition shortMonthNames : list string :=
  ["Jan"; "Feb"; "Mar"; "Apr"; "May"; "Jun"; "Jul"; "Aug"; "Sep"; "Oct"; "Nov"; "Dec"].

(** [match]: equal up to the case of ASCII letters. *)
Definition lower_bit (c : ascii) : ascii := let '(Ascii a0 a1 a2 a3 a4 _ a6 a7) := c in Ascii a0 a1 a2 a3 a4 true a6 a7.
Definition match_char (a b : ascii) : bool :=
  Ascii.eqb a b ||
  (Ascii.eqb (lower_bit a) (lower_bit b) && in_range 97 122 (byte_val (lower_bit a))).
Fixpoint match_name (s name : string) {struct name} : option string :=
  match name, s with
  | "", _ => Some s
  | String b name, String a s => if match_char a b then match_name s name else None
  | _, "" => None
  end.

(** [lookup]: the first name of the table the value starts with. *)
Fixpoint lookup_name (tab : list string) (s : string) : option (Z * string) :=
  match tab with
  | [] => None
  | name :: tab =>
      match match_name s name with
      | Some rest => Some (0, rest)
      | None => '(i, rest) ← lookup_name tab s; Some (i + 1, rest)
      end
  end.

(** The length of a time zone abbreviation: [parseTimeZone], [parseGMT] and
    [parseSignedOffset]. *)
Definition parseSignedOffset (s : string) : nat :=
  match s with
  | String c t =>
      let n := count_digits t in
      if (Ascii.eqb c "-" || Ascii.eqb c "+") && (0 <? n)%nat &&
         (default 24 (digits_val 0 (str_take n t)) <=? 23)
      then S n else O
  | "" => O
  end.

Fixpoint count_upper (max : nat) (s : string) : nat :=
  match max, s with
  | S max, String c t => if in_range 65 90 (byte_val c) then S (count_upper max t) else O
  | _, _ => O
  end.

Definition parseTimeZone (s : string) : option nat :=
  if (String.length s <? 3)%nat then None
  else if bool_decide (str_take 4 s = "ChST") || bool_decide (str_take 4 s = "MeST") then Some 4%nat
  else if bool_decide (str_take 3 s = "GMT") then Some (3 + parseSignedOffset (str_drop 3 s))%nat
  else if char_at 0 "+" s || char_at 0 "-" s then
    match parseSignedOffset s with O => None | n => Some n end
  else
    match count_upper 6 s with
    | 5%nat => if char_at 4 "T" s then Some 5%nat else None
    | 4%nat => if char_at 3 "T" s || bool_decide (str_take 4 s = "WITA") then Some 4%nat else None
    | 3%nat => Some 3%nat
    | _ => None
    end.

(** The zone of a value: [None] for UTC, else its abbreviation. *)
Definition layout_tz (s : string) : option (option string * string) :=
  if bool_decide (str_take 3 s = "UTC") then Some (None, str_drop 3 s)
  else n ← parseTimeZone s; Some (Some (str_take n s), str_drop n s).

(** [time.Parse(time.RFC1123, s)]; [lookupName zone sec] is the offset of an
    abbreviation in the time zone of the process, if it has one.  An unknown
    abbreviation makes a zone of its own and does not move the instant. *)
Definition parse_rfc1123 (lookupName : string → Z → option Z) (s : string) : option Z :=
  '(_, s) ← lookup_name shortDayNames s;
  s ← skip "," s;
  s ← skip_space s;
  '(day, s) ← getnum true s;
  s ← skip_space s;
  '(month, s) ← lookup_name shortMonthNames s;
  s ← skip_space s;
  if (String.length s <? 4)%nat then None
  else
    year ← digits_val 0 (str_take 4 s);
    s ← skip_space (str_drop 4 s);
    '(hour, s) ← getnum_upto false 23 s;
    s ← skip ":" s;
    '(min, s) ← getnum_upto true 59 s;
    s ← skip ":" s;
    '(sec, s) ← getnum_upto true 59 s;
    let '(nsec, s) := parse_frac (λ c, Ascii.eqb c "." || Ascii.eqb c ",") s in
    s ← skip_space s;
    '(zone, s) ← layout_tz s;
    if bool_decide (s = "") && (1 <=? day) && (day <=? daysIn (month + 1) year)
    then
      let t := time_Date year (month + 1) day hour min sec nsec in
      Some (t - default 0 (zone ≫= λ name, lookupName name (t / Second)) * Second)
    else None.

(** An HTTP date, as [http.TimeFormat] writes it. *)
Definition http_date (sec : Z) : string :=
  let '(year, month, day) := date (sec / 86400) in
  let r := sec mod 86400 in
  nth (Z.to_nat ((sec / 86400 + 1) mod 7)) shortDayNames "" +:+ ", " +:+ appendInt day 2 +:+ " " +:+
  nth (Z.to_nat (month - 1)) shortMonthNames "" +:+ " " +:+ appendInt year 4 +:+ " " +:+
  appendInt (r / 3600) 2 +:+ ":" +:+ appendInt (r mod 3600 / 60) 2 +:+ ":" +:+ appendInt (r mod 60) 2 +:+ " GMT".

(** [Time.UnmarshalJSON] of what is between the quotes: [parseStrictRFC3339]. *)
Definition unmarshal_time (s : string) : option Z :=
  match parseRFC3339 s with Some t => Some t | None => parse_layout s end.

Definition rfc3339 (zone : Z → Z) : TimeText :=
  {| fmt_time := marshal_time zone; parse_time := unmarshal_time |}.

(** ** Every text written is read back *)

Lemma digit_is n : is_digit (digit n) = true.
Proof. apply pretty_N_char_digit. Qed.

Lemma digit_val_digit n : 0 ≤ n < 10 → digit_val (digit n) = n.
Proof. intros Hn. unfold digit. rewrite digit_val_char by lia. lia. Qed.

Lemma digits_val_digits w u : 0 ≤ u < 10 ^ Z.of_nat w → digits_val 0 (digits w u) = Some u.
Proof.
  revert u. induction w as [|w IH]; intros u Hu; [simpl in *; f_equal; lia|].
  simpl digits. rewrite digits_val_app, IH by (rewrite Nat2Z.inj_succ, Z.pow_succ_r in Hu by lia; lia).
  simpl. rewrite digit_is, digit_val_digit by lia. f_equal. lia.
Qed.

Lemma digits_length w u : String.length (digits w u) = w.
Proof. revert u. induction w as [|w IH]; intros u; [done|]. simpl. rewrite app_length, IH. simpl. lia. Qed.

Lemma digits_all w u : str_all is_digit (digits w u) = true.
Proof.
  revert u. induction w as [|w IH]; intros u; [done|]. simpl. rewrite str_all_app, IH. simpl. by rewrite digit_is.
Qed.

Lemma appendInt_digits x w : 0 ≤ x < 10 ^ Z.of_nat w → appendInt x w = digits w x.
Proof. intros Hx. unfold appendInt. ztests. by destruct (Z.ltb_spec x 0); [lia|]. Qed.

Lemma parseUint_2 u lo hi :
  0 ≤ u < 100 → lo ≤ u ≤ hi →
  parseUint (String (digit (u / 10 mod 10)) (String (digit (u mod 10)) "")) lo hi = Some u.
Proof.
  intros Hu Hr. change (parseUint (digits 2 u) lo hi = Some u). unfold parseUint.
  rewrite digits_val_digits by (simpl; lia). simpl.
  destruct (Z.leb_spec lo u), (Z.leb_spec u hi); simpl; (done || lia).
Qed.

Lemma parseUint_4 u lo hi :
  0 ≤ u < 10000 → lo ≤ u ≤ hi →
  parseUint (String (digit (u / 10 / 10 / 10 mod 10)) (String (digit (u / 10 / 10 mod 10))
    (String (digit (u / 10 mod 10)) (String (digit (u mod 10)) "")))) lo hi = Some u.
Proof.
  intros Hu Hr. change (parseUint (digits 4 u) lo hi = Some u). unfold parseUint.
  rewrite digits_val_digits by (simpl; lia). simpl.
  destruct (Z.leb_spec lo u), (Z.leb_spec u hi); simpl; (done || lia).
Qed.

(** The value of digits after the point, to [k] places. *)
Fixpoint frac_val (k : nat) (s : string) : Z :=
  match k, s with
  | S k, String c t => digit_val c * 10 ^ Z.of_nat k + frac_val k t
  | _, _ => 0
  end.

Lemma frac_val_trim k s : frac_val k (trim_zeros s) = frac_val k s.
Proof.
  revert k. induction s as [|c s IH]; intros [|k]; try done.
  simpl. destruct (Ascii.eqb_spec c "0") as [->|]; simpl; [|by rewrite IH].
  case_bool_decide as Ht; simpl; [|by rewrite IH]. rewrite <-IH, Ht. by destruct k.
Qed.

Lemma frac_val_digits_val k s acc v :
  (String.length s ≤ k)%nat → digits_val acc s = Some v →
  acc * 10 ^ Z.of_nat k + frac_val k s = v * 10 ^ Z.of_nat (k - String.length s).
Proof.
  revert k acc. induction s as [|c s IH]; intros k acc Hk Hv; simpl in *.
  - injection Hv as ->. destruct k; simpl; rewrite ?Nat.sub_0_r; lia.
  - destruct (is_digit c); [|done]. destruct k as [|k]; [lia|]. simpl. rewrite <-(IH k _ ltac:(lia) Hv).
    rewrite Nat2Z.inj_succ, Z.pow_succ_r by lia. lia.
Qed.

Lemma trim_zeros_all s : str_all is_digit s = true → str_all is_digit (trim_zeros s) = true.
Proof.
  induction s as [|c s IH]; [done|]. rewrite str_all_cons, andb_true_iff. intros [Hc Hs]. simpl.
  destruct (_ && _); [done|]. rewrite str_all_cons, Hc. by apply IH.
Qed.

Lemma trim_zeros_length s : (String.length (trim_zeros s) ≤ String.length s)%nat.
Proof. induction s as [|c s IH]; [done|]. simpl. destruct (_ && _); simpl; lia. Qed.

Lemma count_digits_app s t :
  str_all is_digit s = true → count_digits (s +:+ t) = (String.length s + count_digits t)%nat.
Proof.
  induction s as [|c s IH]; [done|]. rewrite str_all_cons, andb_true_iff. intros [Hc Hs].
  change (String c s +:+ t) with (String c (s +:+ t)). simpl. rewrite Hc. by rewrite IH.
Qed.

Lemma digits_val_all acc s : str_all is_digit s = true → is_Some (digits_val acc s).
Proof.
  revert acc. induction s as [|c s IH]; intros acc; [by exists acc|]. rewrite str_all_cons, andb_true_iff.
  intros [Hc Hs]. simpl. rewrite Hc. by apply IH.
Qed.

Lemma str_take_app_len s t : str_take (String.length s) (s +:+ t) = s.
Proof.
  induction s as [|c s IH]; [by destruct t|]. change (String c s +:+ t) with (String c (s +:+ t)). simpl. by rewrite IH.
Qed.

Lemma str_drop_app_len s t : str_drop (String.length s) (s +:+ t) = t.
Proof.
  induction s as [|c s IH]; [by destruct t|]. change (String c s +:+ t) with (String c (s +:+ t)). simpl. by rewrite IH.
Qed.

(** A fraction is read back, before anything that is not a digit. *)
Lemma parse_frac_append nsec t :
  0 ≤ nsec < Second → count_digits t = O → parse_frac (Ascii.eqb ".") t = (0, t) →
  parse_frac (Ascii.eqb ".") (appendNano nsec +:+ t) = (nsec, t).
Proof.
  intros Hn Ht H0. unfold appendNano. destruct (Z.eqb_spec nsec 0) as [->|Hne]; [done|].
  rewrite appendInt_digits by (unfold Second in *; simpl; lia).
  set (s := trim_zeros (digits 9 nsec)).
  assert (str_all is_digit s = true) as Hs by (apply trim_zeros_all, digits_all).
  assert (String.length s ≤ 9)%nat as Hlen.
  { unfold s. etrans; [apply trim_zeros_length|]. by rewrite digits_length. }
  assert (frac_val 9 s = nsec) as Hv.
  { unfold s. rewrite frac_val_trim.
    pose proof (frac_val_digits_val 9 (digits 9 nsec) 0 nsec) as Hf. rewrite digits_length in Hf.
    rewrite Nat.sub_diag, Z.mul_1_r, Z.mul_0_l, Z.add_0_l in Hf. apply Hf; [done|].
    apply digits_val_digits. unfold Second in Hn. simpl. lia. }
  assert (0 < String.length s)%nat by (destruct s; [simpl in Hv; lia|simpl; lia]).
  change (("." +:+ s) +:+ t) with (String "." (s +:+ t)). unfold parse_frac.
  rewrite count_digits_app, Ht, Nat.add_0_r by done. rewrite str_take_app_len, str_drop_app_len.
  destruct (Nat.ltb_spec 0 (String.length s)); [|lia]. cbn [andb Ascii.eqb Bool.eqb].
  unfold parseNanoseconds. rewrite str_take_all by done. f_equal.
  destruct (digits_val_all 0 s Hs) as [v Hd]. rewrite Hd. simpl default.
  pose proof (frac_val_digits_val 9 s 0 v Hlen Hd) as Hf. rewrite Z.mul_0_l, Z.add_0_l in Hf. congruence.
Qed.

Lemma str_one c t : String c "" +:+ t = String c t.
Proof. done. Qed.
Lemma digits_2 u : digits 2 u = String (digit (u / 10 mod 10)) (String (digit (u mod 10)) "").
Proof. done. Qed.
Lemma digits_2_app u t :
  digits 2 u +:+ t = String (digit (u / 10 mod 10)) (String (digit (u mod 10)) t).
Proof. done. Qed.
Lemma digits_4_app u t :
  digits 4 u +:+ t = String (digit (u / 10 / 10 / 10 mod 10)) (String (digit (u / 10 / 10 mod 10))
    (String (digit (u / 10 mod 10)) (String (digit (u mod 10)) t))).
Proof. done. Qed.

Ltac str_norm := repeat (progress rewrite ?digits_4_app, ?digits_2_app, ?str_one); rewrite ?digits_2.

Lemma fmt_zone_back offset z :
  offset mod 60 = 0 → fmt_zone offset = Some z →
  parse_zone z = Some offset ∧ count_digits z = O ∧ parse_frac (Ascii.eqb ".") z = (0, z).
Proof.
  intros H60. unfold fmt_zone. destruct (Z.eqb_spec offset 0) as [->|Hne]; [by intros [= <-]|].
  set (q := Z.quot offset 60). assert (offset = 60 * q) as Hq by (unfold q; lia).
  assert (∀ sign m, (sign = "-" ∧ m = - q) ∨ (sign = "+" ∧ m = q) → 0 ≤ m → (if 24 <=? m / 60 then None
    else Some (sign +:+ appendInt (m / 60) 2 +:+ ":" +:+ appendInt (m mod 60) 2)) = Some z →
    parse_zone z = Some offset ∧ count_digits z = O ∧ parse_frac (Ascii.eqb ".") z = (0, z)) as Hgo.
  { intros sign m Hs Hm. destruct (Z.leb_spec 24 (m / 60)); [done|]. intros [= <-].
    rewrite !appendInt_digits by (simpl; lia). unfold parse_zone.
    rewrite bool_decide_eq_false_2 by (by destruct Hs as [[-> ->]|[-> ->]]).
    destruct Hs as [[-> ->]|[-> ->]]; str_norm;
      unfold sub, char_at; cbn -[Z.div Z.modulo digit parseUint]; rewrite !parseUint_2 by lia;
      cbn -[Z.div Z.modulo Z.mul Z.add digit]; (split; [f_equal; lia|done]). }
  destruct (Z.ltb_spec q 0); (eapply Hgo; [|lia]); [by left|by right].
Qed.

(** [UnmarshalJSON] reads what [MarshalJSON] writes as the same instant. *)
Lemma marshal_unmarshal_time zone t s :
  (∀ sec, zone sec mod 60 = 0) → marshal_time zone t = Some s → unmarshal_time s = Some t.
Proof.
  intros Hz. unfold marshal_time.
  set (abs := t / Second + zone (t / Second)). set (r := abs mod 86400).
  destruct (date (abs / 86400)) as [[year month] day] eqn:Ed. apply date_ok in Ed as (Hd&Hm&Hday).
  destruct (Z.leb_spec 0 year), (Z.leb_spec year 9999); simpl; try done.
  destruct (fmt_zone (zone (t / Second))) as [z|] eqn:Efz; [|done]. intros [= <-].
  apply fmt_zone_back in Efz as (Hzone&Hcd&Hpf); [|done].
  assert (0 ≤ r < 86400) as Hr by (unfold r; lia).
  pose proof (daysIn_31 month year Hm) as Hd31.
  rewrite !appendInt_digits by (simpl; lia). set (tail := appendNano (t mod Second) +:+ z).
  assert (parse_frac (Ascii.eqb ".") tail = (t mod Second, z)) as Htail.
  { apply parse_frac_append; [unfold Second; lia|done..]. }
  unfold unmarshal_time. match goal with |- match parseRFC3339 ?s with _ => _ end = _ =>
    enough (parseRFC3339 s = Some t) as Hp end; [by rewrite Hp|].
  unfold parseRFC3339. str_norm. unfold sub, char_at.
  cbn -[Z.div Z.modulo digit parseUint daysIn tail parse_frac time_Date].
  rewrite parseUint_4 by lia. cbn [mbind option_bind].
  repeat (rewrite parseUint_2 by lia; cbn [mbind option_bind]).
  cbn -[Z.div Z.modulo digit tail parse_frac time_Date]. rewrite Htail, Hzone. cbn [mbind option_bind]. f_equal.
  unfold time_Date. rewrite Hd. unfold Second in *. lia.
Qed.

(** The text of a time needs no escape. *)
Definition plain (c : ascii) : bool :=
  negb (Ascii.eqb c dquote) && negb (byte_val c =? 92) && (32 <=? byte_val c).

Lemma str_run_plain s : str_all plain s = true → str_run SPlain s = Some SPlain.
Proof.
  induction s as [|c s IH]; [done|]. rewrite str_all_cons. unfold plain at 1. rewrite !andb_true_iff, !negb_true_iff.
  intros [[[Hq Hb] Hc] Hs]. simpl. rewrite Hq, Hb. destruct (Z.ltb_spec (byte_val c) 32); [lia|]. by apply IH.
Qed.

Lemma digit_plain c : is_digit c = true → plain c = true.
Proof. destruct c as [[] [] [] [] [] [] [] []]; vm_compute; done. Qed.

Lemma digits_plain w u : str_all plain (digits w u) = true.
Proof. eapply str_all_impl; [apply digit_plain|apply digits_all]. Qed.

Lemma appendInt_plain x w : 0 ≤ x → str_all plain (appendInt x w) = true.
Proof.
  intros Hx. unfold appendInt. destruct (Z.ltb_spec x 0); [lia|]. destruct (x <? _); [apply digits_plain|].
  eapply str_all_impl; [apply digit_plain|by apply Itoa_digits].
Qed.

Lemma trim_zeros_plain s : str_all plain s = true → str_all plain (trim_zeros s) = true.
Proof.
  induction s as [|c s IH]; [done|]. rewrite str_all_cons, andb_true_iff. intros [Hc Hs]. simpl.
  destruct (_ && _); [done|]. rewrite str_all_cons, Hc. by apply IH.
Qed.

Lemma fmt_zone_plain offset z : fmt_zone offset = Some z → str_all plain z = true.
Proof.
  unfold fmt_zone. destruct (offset =? 0); [by intros [= <-]|].
  destruct (Z.ltb_spec (Z.quot offset 60) 0); (destruct (24 <=? _); [done|]); intros [= <-];
    rewrite !str_all_app, !appendInt_plain by lia; done.
Qed.

Lemma marshal_time_plain zone t s : marshal_time zone t = Some s → str_run SPlain s = Some SPlain.
Proof.
  unfold marshal_time. set (abs := t / Second + zone (t / Second)).
  destruct (date (abs / 86400)) as [[year month] day] eqn:Ed. apply date_ok in Ed as (_&Hm&Hday).
  destruct (Z.leb_spec 0 year), (year <=? 9999); simpl; try done.
  destruct (fmt_zone (zone (t / Second))) as [z|] eqn:Efz; [|done]. intros [= <-]. apply str_run_plain.
  rewrite !str_all_app, !appendInt_plain by lia. rewrite (fmt_zone_plain _ _ Efz). simpl.
  unfold appendNano. destruct (_ =? 0); [done|]. rewrite str_all_app, trim_zeros_plain; [done|].
  apply appendInt_plain. unfold Second. lia.
Qed.

(** A zone whose offsets are whole minutes. *)
Lemma rfc3339_laws zone : (∀ sec, zone sec mod 60 = 0) → TimeLaws (H := rfc3339 zone).
Proof.
  intros Hz. split; [apply marshal_time_plain|]. intros t s. by apply marshal_unmarshal_time.
Qed.


(** An HTTP date is read as its instant. *)
Lemma lookup_day i t : 0 ≤ i < 7 → lookup_name shortDayNames (nth (Z.to_nat i) shortDayNames "" +:+ t) = Some (i, t).
Proof.
  intros Hi. assert (i = 0 ∨ i = 1 ∨ i = 2 ∨ i = 3 ∨ i = 4 ∨ i = 5 ∨ i = 6) as Hc by lia.
  repeat (destruct Hc as [->|Hc]; [vm_compute; reflexivity|]). subst i. vm_compute. reflexivity.
Qed.

Lemma lookup_month i t :
  0 ≤ i < 12 → lookup_name shortMonthNames (nth (Z.to_nat i) shortMonthNames "" +:+ t) = Some (i, t).
Proof.
  intros Hi. assert (i = 0 ∨ i = 1 ∨ i = 2 ∨ i = 3 ∨ i = 4 ∨ i = 5 ∨ i = 6 ∨ i = 7 ∨ i = 8 ∨ i = 9 ∨ i = 10 ∨ i = 11)
    as Hc by lia.
  repeat (destruct Hc as [->|Hc]; [vm_compute; reflexivity|]). subst i. vm_compute. reflexivity.
Qed.

Lemma getnum_digits fixed u t :
  0 ≤ u < 100 → getnum fixed (String (digit (u / 10 mod 10)) (String (digit (u mod 10)) t)) = Some (u, t).
Proof.
  intros Hu. unfold getnum. rewrite !digit_is, !digit_val_digit by lia. simpl. do 2 f_equal. lia.
Qed.

Lemma getnum_upto_digits fixed max u t :
  0 ≤ u ≤ max → max < 100 →
  getnum_upto fixed max (String (digit (u / 10 mod 10)) (String (digit (u mod 10)) t)) = Some (u, t).
Proof.
  intros Hu Hm. unfold getnum_upto. rewrite getnum_digits by lia. simpl. by destruct (Z.leb_spec u max); [|lia].
Qed.

Lemma skip_space_digit n t : skip_space (String " " (String (digit n) t)) = Some (String (digit n) t).
Proof.
  simpl. destruct (Ascii.eqb_spec (digit n) " ") as [E|]; [|done].
  pose proof (digit_is n) as H. by rewrite E in H.
Qed.

Lemma skip_space_name i (tab : list string) t :
  tab = shortMonthNames → 0 ≤ i < 12 →
  skip_space (String " " (nth (Z.to_nat i) tab "" +:+ t)) = Some (nth (Z.to_nat i) tab "" +:+ t).
Proof.
  intros -> Hi. assert (i = 0 ∨ i = 1 ∨ i = 2 ∨ i = 3 ∨ i = 4 ∨ i = 5 ∨ i = 6 ∨ i = 7 ∨ i = 8 ∨ i = 9 ∨ i = 10 ∨ i = 11)
    as Hc by lia.
  repeat (destruct Hc as [->|Hc]; [vm_compute; reflexivity|]). subst i. vm_compute. reflexivity.
Qed.

Lemma comma_app t : ", " +:+ t = String "," (String " " t).
Proof. done. Qed.
Lemma skip_same c t : skip c (String c t) = Some t.
Proof. simpl. by rewrite Ascii.eqb_refl. Qed.

(** The year's four digits. *)
Lemma year_digits year t (f : Z → string → option Z) :
  0 ≤ year < 10000 →
  (if (String.length (String (digit (year / 10 / 10 / 10 mod 10)) (String (digit (year / 10 / 10 mod 10))
     (String (digit (year / 10 mod 10)) (String (digit (year mod 10)) t)))) <? 4)%nat then None
   else y ← digits_val 0 (str_take 4 (String (digit (year / 10 / 10 / 10 mod 10))
     (String (digit (year / 10 / 10 mod 10)) (String (digit (year / 10 mod 10)) (String (digit (year mod 10)) t)))));
     f y (str_drop 4 (String (digit (year / 10 / 10 / 10 mod 10)) (String (digit (year / 10 / 10 mod 10))
     (String (digit (year / 10 mod 10)) (String (digit (year mod 10)) t)))))) = f year t.
Proof.
  intros Hy. pose proof (digits_val_digits 4 year ltac:(simpl; lia)) as Hd.
  change (digits 4 year) with (String (digit (year / 10 / 10 / 10 mod 10)) (String (digit (year / 10 / 10 mod 10))
    (String (digit (year / 10 mod 10)) (String (digit (year mod 10)) "")))) in Hd.
  cbn [str_take str_drop String.length Nat.ltb Nat.leb]. rewrite Hd. done.
Qed.

Lemma http_date_parsed lookupName sec :
  0 ≤ (date (sec / 86400)).1.1 ≤ 9999 → default 0 (lookupName "GMT" sec) = 0 →
  parse_rfc1123 lookupName (http_date sec) = Some (sec * Second).
Proof.
  unfold http_date. set (r := sec mod 86400).
  destruct (date (sec / 86400)) as [[year month] day] eqn:Ed. apply date_ok in Ed as (Hd&Hm&Hday).
  cbn [fst snd]. intros Hy Hgmt. pose proof (daysIn_31 month year Hm) as Hd31.
  assert (0 ≤ r < 86400) as Hr by (unfold r; lia).
  rewrite !appendInt_digits by (simpl; lia). unfold parse_rfc1123.
  rewrite lookup_day by lia. cbn [mbind option_bind]. rewrite comma_app. str_norm. rewrite skip_same. cbn [mbind option_bind].
  rewrite skip_space_digit. cbn [mbind option_bind]. rewrite getnum_digits by lia. cbn [mbind option_bind].
  rewrite skip_space_name by (done || lia). cbn [mbind option_bind]. rewrite lookup_month by lia.
  cbn [mbind option_bind]. rewrite skip_space_digit. cbn [mbind option_bind].
  rewrite (year_digits year _ (λ y s, _)) by lia. cbv beta. cbn [str_drop]. rewrite skip_space_digit.
  cbn [mbind option_bind]. rewrite getnum_upto_digits by lia. cbn [mbind option_bind]. rewrite skip_same.
  cbn [mbind option_bind]. rewrite getnum_upto_digits by lia. cbn [mbind option_bind]. rewrite skip_same.
  cbn [mbind option_bind]. rewrite getnum_upto_digits by lia. cbn [mbind option_bind].
  change (parse_frac _ " GMT") with (0, " GMT"). cbv iota beta.
  change (skip_space " GMT") with (Some "GMT"). cbn [mbind option_bind].
  change (layout_tz "GMT") with (Some (Some "GMT", "")). cbn [mbind option_bind].
  replace (month - 1 + 1) with month by lia.
  assert (time_Date year month day (r / 3600) (r mod 3600 / 60) (r mod 60) 0 = sec * Second) as ->.
  { unfold time_Date. rewrite Hd. unfold Second. lia. }
  rewrite Z.div_mul by done. rewrite Hgmt.
  destruct (Z.leb_spec 1 day), (Z.leb_spec day (daysIn month year)); [|lia..]. simpl. f_equal. lia.
Qed.

(** It is not a number. *)
Lemma http_date_not_number sec : Atoi (http_date sec) = None ∧ http_date sec ≠ "".
Proof.
  unfold http_date. destruct (date (sec / 86400)) as [[year month] day].
  assert (0 ≤ (sec / 86400 + 1) mod 7 < 7) as Hi by lia. revert Hi. generalize ((sec / 86400 + 1) mod 7).
  intros i Hi. assert (i = 0 ∨ i = 1 ∨ i = 2 ∨ i = 3 ∨ i = 4 ∨ i = 5 ∨ i = 6) as Hc by lia.
  repeat (destruct Hc as [->|Hc]; [by split|]). subst i. by split.
Qed.
