(* ===== verification/Model.v ===== *)
(** * The canonical chat model and error values

    Models src/internal/model (chat.go, errors.go): the OpenAI-shaped request,
    response and chunk types every component exchanges, and the provider error
    type.  A Go [error] is modelled by [goerr]: a [*ProviderError], a plain
    message, a wrapped error ([fmt.Errorf] with [%w]) or a context error;
    [errors.As] follows the wrapping chain. *)

From S2P Require Import Prelude GoStrings Calendar Float64.
From Stdlib Require Import Ascii.
Local Open Scope Z_scope.

(** ** chat.go *)

(** A slice that is passed on as it was decoded: [None] is the nil slice, which
    encoding/json prints as [null], not as an empty array.  (Where only the
    elements are used, a slice is a list.) *)
Definition gslice (A : Type) : Type := option (list A).
Definition elems {A} (s : gslice A) : list A := default [] s.

(** What appending to a nil slice gives. *)
Definition appended {A} (l : list A) : gslice A := match l with [] => None | _ => Some l end.

Lemma elems_appended {A} (l : list A) : elems (appended l) = l.
Proof. by destruct l. Qed.

Record Message := mkMessage {
  Role : string;
  Content : string;
  MName : string;
}.

Record ChatCompletionRequest := mkRequest {
  rq_Model : string;
  rq_Messages : list Message;
  rq_Temperature : option f64;
  rq_TopP : option f64;
  rq_N : option Z;
  rq_Stream : bool;
  rq_Stop : list string;
  rq_MaxTokens : option Z;
  rq_PresencePenalty : option f64;
  rq_FrequencyPenalty : option f64;
  rq_User : string;
}.

Record Usage := mkUsage {
  PromptTokens : Z;
  CompletionTokens : Z;
  TotalTokens : Z;
}.

Record Choice := mkChoice {
  ch_Index : Z;
  ch_Message : Message;
  ch_FinishReason : string;
}.

Record ChatCompletionResponse := mkResponse {
  rs_ID : string;
  rs_Object : string;
  rs_Created : Z;
  rs_Model : string;
  rs_Choices : gslice Choice;
  rs_Usage : Usage;
  rs_SystemFingerprint : string;
}.

Record DeltaMessage := mkDelta {
  dl_Role : string;
  dl_Content : string;
}.

Record ChunkChoice := mkChunkChoice {
  cc_Index : Z;
  cc_Delta : DeltaMessage;
  cc_FinishReason : option string;
}.

Record ChatCompletionChunk := mkChunk {
  ck_ID : string;
  ck_Object : string;
  ck_Created : Z;
  ck_Model : string;
  ck_Choices : gslice ChunkChoice;
  ck_Usage : option Usage;
}.

#[export] Instance Message_eq_dec : EqDecision Message.
Proof. solve_decision. Defined.
#[export] Instance Usage_eq_dec : EqDecision Usage.
Proof. solve_decision. Defined.

(** [*req] with the [Model] field overwritten. *)
Definition set_Model (m : string) (r : ChatCompletionRequest) : ChatCompletionRequest :=
  {| rq_Model := m; rq_Messages := rq_Messages r; rq_Temperature := rq_Temperature r;
     rq_TopP := rq_TopP r; rq_N := rq_N r; rq_Stream := rq_Stream r; rq_Stop := rq_Stop r;
     rq_MaxTokens := rq_MaxTokens r; rq_PresencePenalty := rq_PresencePenalty r;
     rq_FrequencyPenalty := rq_FrequencyPenalty r; rq_User := rq_User r |}.

(** ** errors.go *)

Record ErrorDetail := mkErrorDetail {
  ed_Message : string;
  ed_Type : string;
  ed_Code : string;
}.

(** [APIError] has the single field [Error]. *)
Record APIError := mkAPIError { ae_Error : ErrorDetail }.

Record ProviderError := mkProviderError {
  StatusCode : Z;
  pe_Type : string;
  pe_Message : string;
  Retryable : bool;
  pe_RetryAfter : Z;
}.

Definition ProviderError_Error (e : ProviderError) : string :=
  "provider error (" +:+ Itoa (StatusCode e) +:+ "): " +:+ pe_Message e.

Inductive goerr :=
| ErrProvider (pe : ProviderError)
| ErrMsg (msg : string)
| ErrWrap (prefix : string) (inner : goerr)
| ErrCtx (cause : string).

Fixpoint err_Error (e : goerr) : string :=
  match e with
  | ErrProvider pe => ProviderError_Error pe
  | ErrMsg m => m
  | ErrWrap p i => p +:+ err_Error i
  | ErrCtx c => c
  end.

(** [errors.As(err, &pe)] for [pe *ProviderError]. *)
Fixpoint errors_As (e : goerr) : option ProviderError :=
  match e with
  | ErrProvider pe => Some pe
  | ErrWrap _ i => errors_As i
  | _ => None
  end.

(** [lookupName] is the time zone of the process ([Calendar.parse_rfc1123]);
    [now] is the clock [time.Until] reads. *)
Definition ParseRetryAfter (lookupName : string → Z → option Z) (now : Z) (header : string) : Z :=
  if bool_decide (header = "") then 0
  else match Atoi header with
  | Some secs => wrap64 (secs * Second)
  | None =>
      match parse_rfc1123 lookupName header with
      | Some t => let d := time_Sub t now in if 0 <? d then d else 0
      | None => 0
      end
  end.

Lemma Atoi_Itoa n : 0 ≤ n ≤ max64 → Atoi (Itoa n) = Some n.
Proof.
  intros Hn. pose proof (parse_digits_Itoa n ltac:(lia)) as Hp. unfold Atoi.
  assert (∃ a s, Itoa n = String a s ∧ is_digit a = true) as (a&s&Hs&Ha).
  { pose proof (Itoa_digits n ltac:(lia)) as Hd. destruct (Itoa n) as [|a s]; [done|].
    exists a, s. split; [done|]. rewrite str_all_cons in Hd. by apply andb_true_iff in Hd as [? _]. }
  assert (match Itoa n with
          | String "-" t => Z.opp <$> parse_digits t
          | String "+" t => parse_digits t
          | _ => parse_digits (Itoa n) end = Some n) as ->.
  { rewrite Hs in *. destruct a as [[] [] [] [] [] [] [] []]; try done. }
  destruct (Z.leb_spec min64 n), (Z.leb_spec n max64); simpl; try done; unfold min64 in *; lia.
Qed.

(** [ParseRetryAfter] of a delay of [n] seconds is [n] seconds, when the
    duration fits in 64 bits; of an HTTP date it is the time left until that
    second, never negative, whatever the time zone of the process (which may
    know GMT, with offset 0, or not); of anything else it is zero. *)
Theorem parse_retry_after_ok (zones : string → Z → option Z) (now : Z) (h : string) (n sec : Z)
    (Hgmt : default 0 (zones "GMT" sec) = 0) :
  (0 ≤ n ≤ max64 / Second → ParseRetryAfter zones now (Itoa n) = n * Second) ∧
  (0 ≤ (date (sec / 86400)).1.1 ≤ 9999 → in64 (sec * Second - now) →
     ParseRetryAfter zones now (http_date sec) = Z.max 0 (sec * Second - now)) ∧
  (Atoi h = None → parse_rfc1123 zones h = None → ParseRetryAfter zones now h = 0).
Proof.
  unfold ParseRetryAfter. split; [|split].
  - intros Hn. change (max64 / Second) with 9223372036 in Hn.
    rewrite Atoi_Itoa by (unfold max64; lia). case_bool_decide as He.
    { pose proof (parse_digits_Itoa n ltac:(lia)) as Hp. by rewrite He in Hp. }
    apply wrap64_id. unfold in64, min64, max64, Second. lia.
  - intros Hy Ht. destruct (http_date_not_number sec) as [-> Hne]. rewrite bool_decide_eq_false_2 by done.
    rewrite http_date_parsed by done. unfold time_Sub. rewrite clamp64_id by done.
    destruct (Z.ltb_spec 0 (sec * Second - now)); lia.
  - intros -> ->. by case_bool_decide.
Qed.

(** A date two minutes ahead. *)
Lemma parse_retry_after_ok_witness :
  ParseRetryAfter (λ _ _, None) (63843595080 * Second) "Thu, 15 Feb 2024 12:00:00 GMT" = 120 * Second.
Proof.
  change "Thu, 15 Feb 2024 12:00:00 GMT" with (http_date 63843595200).
  apply (parse_retry_after_ok (λ _ _, None) (63843595080 * Second) "" 0 63843595200);
    [reflexivity|vm_compute; split; discriminate..].
Defined.

(** A delay that does not fit wraps around, here to a negative duration. *)
Example retry_after_wraps : ParseRetryAfter (λ _ _, None) 0 "9223372037" < 0.
Proof. vm_compute. reflexivity. Qed.
