(* ===== verification/Codec.v ===== *)
(** * The JSON form of the gateway's types

    A [kind] says how a Rocq type is a Go type: its [gty], the translation to
    and from [gval], and which of its values the JSON form represents.  Kinds
    are built from the kinds of fields ([k_struct]): the definition of a
    struct's kind is the list of its JSON tags.  The laws ([kind_laws],
    [kind_sane]) are proved once per way of building; then encoding and
    decoding are inverse for every type ([as_roundtrip]) and everything decoded
    can be encoded ([as_sane]).

    The second part gives the kinds of src/internal/model (chat.go,
    errors.go). *)

From S2P Require Import Prelude GoStrings Float64 JsonString JsonNumber JsonText Reflect Model.
From Stdlib Require Import Ascii SpecFloat.
Local Open Scope Z_scope.

Record kind (A : Type) := Kind {
  k_ty : gty;
  k_to : A → gval;
  k_of : gval → A;
  k_ok : A → Prop;
}.
Arguments k_ty {A} _.
Arguments k_to {A} _ _.
Arguments k_of {A} _ _.
Arguments k_ok {A} _ _.

(** ** Basic kinds *)

Definition k_string : kind string :=
  Kind _ TString VString (λ v, match v with VString s => s | _ => "" end) (λ s, utf8_valid 0 s = true).
Definition k_int : kind Z := Kind _ TInt VInt (λ v, match v with VInt z => z | _ => 0 end) in64.
Definition k_float : kind f64 :=
  Kind _ TFloat VFloat (λ v, match v with VFloat x => x | _ => f64_zero end) f64_wf.
Definition k_bool : kind bool :=
  Kind _ TBool VBool (λ v, match v with VBool b => b | _ => false end) (λ _, True).
Definition k_time `{TimeText} : kind Z :=
  Kind _ TTime VTime (λ v, match v with VTime t => t | _ => 0 end) (λ t, is_Some (fmt_time t)).

Definition k_ptr {A} (k : kind A) : kind (option A) :=
  Kind _ (TPtr (k_ty k)) (λ o, VPtr (k_to k <$> o))
    (λ v, match v with VPtr o => k_of k <$> o | _ => None end)
    (λ o, match o with Some a => k_ok k a | None => True end).

(** A slice that keeps the difference between nil and empty. *)
Definition k_slice {A} (k : kind A) : kind (gslice A) :=
  Kind _ (TSlice (k_ty k)) (λ s, VSlice (map (k_to k) <$> s) [])
    (λ v, match v with VSlice o _ => map (k_of k) <$> o | _ => None end)
    (λ s, Forall (k_ok k) (elems s)).

(** A slice of which only the elements matter; an empty one is nil. *)
Definition k_list {A} (k : kind A) : kind (list A) :=
  Kind _ (TSlice (k_ty k)) (λ l, k_to (k_slice k) (appended l)) (λ v, elems (k_of (k_slice k) v))
    (Forall (k_ok k)).

(** A slice that is made with [make], never nil. *)
Definition k_array {A} (k : kind A) : kind (list A) :=
  Kind _ (TSlice (k_ty k)) (λ l, k_to (k_slice k) (Some l)) (λ v, elems (k_of (k_slice k) v))
    (Forall (k_ok k)).

(** ** Structs *)

Record field (R : Type) := Field {
  f_type : Type;
  f_name : string;
  f_omit : bool;
  f_kind : kind f_type;
  f_get : R → f_type;
}.
Arguments Field {R f_type} _ _ _ _.
Arguments f_type {R} _.
Arguments f_name {R} _.
Arguments f_omit {R} _.
Arguments f_kind {R} _.
Arguments f_get {R} _ _.

Definition f_tag {R} (f : field R) : string * bool * gty := (f_name f, f_omit f, k_ty (f_kind f)).

(** The [i]-th field of a struct value. *)
Definition nth_field (v : gval) (i : nat) : gval :=
  match v with VStruct vs => default (VString "") (vs !! i) | _ => VString "" end.

Definition k_struct {R} (fs : list (field R)) (build : (nat → gval) → R) : kind R :=
  Kind _ (TStruct (map f_tag fs)) (λ r, VStruct (map (λ f, k_to (f_kind f) (f_get f r)) fs))
    (λ v, build (nth_field v)) (λ r, foldr (λ f P, k_ok (f_kind f) (f_get f r) ∧ P) True fs).

(** ** Laws *)

Section Laws.
Context `{TimeLaws}.

Record kind_laws {A} (k : kind A) : Prop := {
  kl_type : gty_ok (k_ty k) = true;
  kl_val a : k_ok k a → val_ok (k_ty k) (k_to k a);
  kl_of a : k_of k (k_to k a) = a;
}.

(** Everything decoded is a value the encoding represents. *)
Definition kind_sane {A} (k : kind A) : Prop := ∀ v, val_sane (k_ty k) v → k_ok k (k_of k v).

(** An empty value is the zero value, so it can be omitted. *)
Definition kind_omit {A} (k : kind A) : Prop :=
  ∀ a, is_empty (k_to k a) = true → k_to k a = zero_val (k_ty k).

Lemma k_string_laws : kind_laws k_string. Proof. done. Qed.
Lemma k_int_laws : kind_laws k_int. Proof. done. Qed.
Lemma k_float_laws : kind_laws k_float. Proof. done. Qed.
Lemma k_bool_laws : kind_laws k_bool. Proof. done. Qed.
Lemma k_time_laws : kind_laws k_time. Proof. done. Qed.

Lemma k_ptr_laws {A} (k : kind A) : nullable (k_ty k) = false → kind_laws k → kind_laws (k_ptr k).
Proof.
  intros Hn [Ht Hv Ho]. split; simpl; [by rewrite Hn| |].
  - intros [a|] Ha; [by apply Hv|done].
  - intros [a|]; simpl; [by rewrite Ho|done].
Qed.

Lemma map_of_to {A} (k : kind A) l : kind_laws k → map (k_of k) (map (k_to k) l) = l.
Proof. intros [_ _ Ho]. induction l as [|a l IH]; simpl; [done|by rewrite Ho, IH]. Qed.

Lemma k_slice_laws {A} (k : kind A) : kind_laws k → kind_laws (k_slice k).
Proof.
  intros Hk. split; simpl; [apply Hk| |].
  - intros [l|] Hl; [|done]. split; [done|]. simpl. unfold elems in Hl. simpl in Hl.
    induction Hl; simpl; constructor; [by apply Hk|done].
  - intros [l|]; simpl; [by rewrite map_of_to|done].
Qed.

Lemma k_list_laws {A} (k : kind A) : kind_laws k → kind_laws (k_list k).
Proof.
  intros Hk. destruct (k_slice_laws k Hk) as [Ht Hv Ho]. split; [done| |].
  - intros l Hl. apply Hv. simpl. by rewrite elems_appended.
  - intros l. change (elems (k_of (k_slice k) (k_to (k_slice k) (appended l))) = l). by rewrite Ho, elems_appended.
Qed.

Lemma k_array_laws {A} (k : kind A) : kind_laws k → kind_laws (k_array k).
Proof.
  intros Hk. destruct (k_slice_laws k Hk) as [Ht Hv Ho]. split; [done| |].
  - intros l Hl. by apply Hv.
  - intros l. change (elems (k_of (k_slice k) (k_to (k_slice k) (Some l))) = l). by rewrite Ho.
Qed.

Lemma k_string_omit : kind_omit k_string.
Proof. intros s Hs%bool_decide_eq_true. simpl. by rewrite Hs. Qed.
Lemma k_int_omit : kind_omit k_int.
Proof. intros z Hz%Z.eqb_eq. simpl. by rewrite Hz. Qed.
Lemma k_bool_omit : kind_omit k_bool.
Proof. by intros []. Qed.
Lemma k_ptr_omit {A} (k : kind A) : kind_omit (k_ptr k).
Proof. by intros []. Qed.
Lemma k_list_omit {A} (k : kind A) : kind_omit (k_list k).
Proof. by intros [|? ?]. Qed.

Lemma k_string_sane : kind_sane k_string. Proof. by intros []. Qed.
Lemma k_int_sane : kind_sane k_int. Proof. by intros []. Qed.
Lemma k_float_sane : kind_sane k_float. Proof. by intros []. Qed.
Lemma k_bool_sane : kind_sane k_bool. Proof. by intros []. Qed.
Lemma k_ptr_sane {A} (k : kind A) : kind_sane k → kind_sane (k_ptr k).
Proof. intros Hk [| | | | |[v|]| |] Hv; try done. by apply Hk. Qed.
Lemma k_slice_sane {A} (k : kind A) : kind_sane k → kind_sane (k_slice k).
Proof.
  intros Hk [| | | | | |o spare|] Hv; try done. simpl in *. apply Forall_app in Hv as [Hv _].
  destruct o as [l|]; [|constructor]. unfold elems. simpl in *. induction Hv; simpl; constructor; [by apply Hk|done].
Qed.
Lemma k_list_sane {A} (k : kind A) : kind_sane k → kind_sane (k_list k).
Proof. intros Hk v. apply (k_slice_sane k Hk). Qed.

(** What has to be known of a struct's fields: their laws, and that [build]
    sets them. *)
Definition fields_laws {R} (fs : list (field R)) : Prop :=
  foldr (λ f P, kind_laws (f_kind f) ∧ (f_omit f = true → kind_omit (f_kind f)) ∧ P) True fs.

Fixpoint gets {R} (fs : list (field R)) (i : nat) (v : nat → gval) (r : R) : Prop :=
  match fs with [] => True | f :: fs => f_get f r = k_of (f_kind f) (v i) ∧ gets fs (S i) v r end.

Definition same_fields {R} (fs : list (field R)) (r r' : R) : Prop :=
  foldr (λ f P, f_get f r = f_get f r' ∧ P) True fs.

Lemma fields_val_ok {R} (fs : list (field R)) r :
  fields_laws fs → foldr (λ f P, k_ok (f_kind f) (f_get f r) ∧ P) True fs →
  fields_ok (map f_tag fs) (map (λ t, val_ok t.2) (map f_tag fs))
    (map (λ f, k_to (f_kind f) (f_get f r)) fs).
Proof.
  induction fs as [|f fs IH]; simpl; [done|]. intros (Hk&Ho&Hl) [Hf Hfs].
  split; [by apply Hk|]. split; [intros Hom; by apply Ho|]. by apply IH.
Qed.

Lemma gets_same {R} (fs pre : list (field R)) r r' :
  fields_laws fs →
  gets fs (length pre) (nth_field (VStruct (map (λ f, k_to (f_kind f) (f_get f r)) (pre ++ fs)))) r' →
  same_fields fs r r'.
Proof.
  revert pre. induction fs as [|f fs IH]; intros pre; [done|]. intros (Hk&_&Hl) [Hg Hgs]. split.
  - rewrite Hg. unfold nth_field. rewrite map_app, lookup_app_r by (by rewrite length_map).
    rewrite length_map, Nat.sub_diag. simpl. symmetry. apply Hk.
  - apply (IH (pre ++ [f])); [done|]. rewrite length_app, Nat.add_comm. by rewrite <-app_assoc.
Qed.

Lemma k_struct_laws {R} (fs : list (field R)) build :
  gty_ok (k_ty (k_struct fs build)) = true → fields_laws fs → (∀ v, gets fs 0 v (build v)) →
  (∀ r r', same_fields fs r r' → r = r') → kind_laws (k_struct fs build).
Proof.
  intros Ht Hl Hb Hext. split; [done| |].
  - intros r Hr. by apply fields_val_ok.
  - intros r. symmetry. apply Hext, (gets_same fs []); [done|]. apply Hb.
Qed.

Definition fields_sane {R} (fs : list (field R)) : Prop :=
  foldr (λ f P, kind_sane (f_kind f) ∧ P) True fs.

Lemma gets_sane {R} (fs : list (field R)) pre vs r :
  fields_sane fs → all_sane (map (λ t, val_sane t.2) (map f_tag fs)) vs →
  gets fs (length pre) (nth_field (VStruct (pre ++ vs))) r →
  foldr (λ f P, k_ok (f_kind f) (f_get f r) ∧ P) True fs.
Proof.
  revert pre vs. induction fs as [|f fs IH]; intros pre [|v vs]; try done.
  intros [Hf Hfs] [Hv Hvs] [Hg Hgs]. split.
  - rewrite Hg. unfold nth_field. rewrite lookup_app_r, Nat.sub_diag by lia. by apply Hf.
  - apply (IH (pre ++ [v]) vs); [done|done|]. rewrite length_app, Nat.add_comm. by rewrite <-app_assoc.
Qed.

Lemma k_struct_sane {R} (fs : list (field R)) build :
  fields_sane fs → (∀ v, gets fs 0 v (build v)) → kind_sane (k_struct fs build).
Proof. intros Hf Hb [| | | | | | |vs] Hv; try done. by apply (gets_sane fs [] vs); [..|apply Hb]. Qed.

Lemma k_struct_omit {R} (fs : list (field R)) build : kind_omit (k_struct fs build).
Proof. done. Qed.
End Laws.

Create HintDb kinds.
#[export] Hint Resolve k_string_laws k_int_laws k_float_laws k_bool_laws k_time_laws k_ptr_laws
  k_slice_laws k_list_laws k_array_laws k_string_omit k_int_omit k_bool_omit k_ptr_omit k_list_omit
  k_string_sane k_int_sane k_float_sane k_bool_sane k_ptr_sane k_slice_sane k_list_sane : kinds.

(** The laws of a struct kind follow from those of its fields. *)
Ltac struct_laws :=
  apply k_struct_laws;
  [vm_compute; reflexivity
  |unfold fields_laws; cbn [foldr f_kind f_omit];
   repeat match goal with |- _ ∧ _ => split end; intros; try discriminate; eauto with kinds
  |intros; repeat split
  |intros [] []; simpl; intros; repeat match goal with H : _ ∧ _ |- _ => destruct H end; congruence].
Ltac struct_sane := apply k_struct_sane;
  [unfold fields_sane; cbn [foldr f_kind]; repeat match goal with |- _ ∧ _ => split end; eauto with kinds
  |intros; repeat split].

(** ** Encoding and decoding by kind *)

Section Typed.
Context `{TimeText} {A : Type} (k : kind A).

Definition marshal_as (a : A) : option string := Marshal (k_ty k) (k_to k a).
Definition encode_as (a : A) : string := Encode (k_ty k) (k_to k a).
Definition unmarshal_as (s : string) : jerr + A :=
  match Unmarshal (k_ty k) s with inl e => inl e | inr v => inr (k_of k v) end.
Definition decode_as {E} (data : string) (err : option E) : (E + jerr) + A :=
  match Decode (k_ty k) data err with inl e => inl e | inr v => inr (k_of k v) end.
End Typed.

(** The kinds of documents: structs, not too deep. *)
Definition is_doc {A} (k : kind A) : bool :=
  match k_ty k with TStruct _ => (gty_depth (k_ty k) <=? maxNestingDepth)%nat | _ => false end.

Section TypedLaws.
Context `{HT : TimeLaws} {A : Type} (k : kind A) (Hk : kind_laws k) (Hdoc : is_doc k = true).

(** An encoded value is decoded to itself, by both entry points, also with the
    encoder's newline after it or with more of a stream. *)
Lemma as_roundtrip a :
  k_ok k a → ∃ s, marshal_as k a = Some s ∧ encode_as k a = s +:+ String (ascii_of_nat 10) "" ∧
    (∀ sp, str_all is_space sp = true → unmarshal_as k (s +:+ sp) = inr a) ∧
    (∀ E rest (err : option E), decode_as k (s +:+ rest) err = inr a).
Proof using HT Hk Hdoc.
  intros Ha. unfold is_doc in Hdoc. destruct k as [[| | | | | | |fs] tov ofv okv]; try done. cbn [k_ty k_ok] in *.
  apply Nat.leb_le in Hdoc.
  destruct (Marshal_roundtrip fs (tov a) (kl_type _ Hk) Hdoc (kl_val _ Hk a Ha)) as (s&Hm&Hu&Hd).
  exists s. unfold marshal_as, encode_as, unmarshal_as, decode_as, Encode. cbn [k_ty k_to k_of]. rewrite Hm.
  split; [done|]. split; [done|]. split.
  - intros sp Hsp. rewrite Hu by done. f_equal. apply (kl_of _ Hk).
  - intros E rest err. rewrite Hd. f_equal. apply (kl_of _ Hk).
Qed.

(** The text is an object on one line. *)
Lemma marshal_as_line a s :
  k_ok k a → marshal_as k a = Some s → str_all graphic s = true ∧ ∃ t, s = String "{" t.
Proof using HT Hk Hdoc.
  intros Ha. unfold is_doc in Hdoc. destruct k as [[| | | | | | |fs] tov ofv okv]; try done. cbn [k_ty k_ok] in *.
  apply Nat.leb_le in Hdoc.
  destruct (Marshal_text fs (tov a) (kl_type _ Hk) Hdoc (kl_val _ Hk a Ha)) as (ms&[Hj _ Hc _ _]&_).
  unfold marshal_as, Marshal. cbn [k_ty k_to]. rewrite Hj. intros [= <-].
  split; [by apply (json_print_graphic (JObj ms)), clean_lits|]. by eexists.
Qed.

(** Whatever bytes are decoded, the result is a value that can be encoded. *)
Lemma as_sane (Hs : kind_sane k) :
  (∀ s a, unmarshal_as k s = inr a → k_ok k a) ∧
  (∀ E s (err : option E) a, decode_as k s err = inr a → k_ok k a).
Proof using.
  unfold unmarshal_as, decode_as. split.
  - intros s a. destruct (Unmarshal _ s) as [|v] eqn:E; [done|]. intros [= <-]. by eapply Hs, Unmarshal_sane.
  - intros E s err a. destruct (Decode _ s err) as [|v] eqn:Ed; [done|]. intros [= <-]. by eapply Hs, Decode_sane.
Qed.
End TypedLaws.

(** ** One type's documents read as another *)

Definition tags {A} (k : kind A) : list (string * bool * gty) :=
  match k_ty k with TStruct fs => fs | _ => [] end.
Definition parts (v : gval) : list gval := match v with VStruct vs => vs | _ => [] end.

(** Every field of [k] is unknown to [k'] or a field of its own there, of the
    same type. *)
Definition compatible {A B} (k : kind A) (k' : kind B) : Prop :=
  let at_ f := find_field (map (λ f, f.1.1) (tags k')) f.1.1 in
  NoDup (omap at_ (tags k)) ∧
  Forall (λ f : string * bool * gty, match at_ f with Some i => snd <$> tags k' !! i = Some f.2 | None => True end) (tags k).

Definition convert {A B} (k : kind A) (k' : kind B) (a : A) : B :=
  k_of k' (VStruct (foldl (put (map (λ f, f.1.1) (tags k'))) (map (λ f, zero_val f.2) (tags k'))
                      (zip (map (λ f, f.1.1) (tags k)) (parts (k_to k a))))).

Section Cross.
Context `{HT : TimeLaws} {A B : Type} (k : kind A) (k' : kind B).
Context (Hk : kind_laws k) (Hdoc : is_doc k = true) (Hdoc' : is_doc k' = true) (Hc : compatible k k').

Lemma as_cross a :
  k_ok k a → ∃ s, marshal_as k a = Some s ∧ encode_as k a = s +:+ String (ascii_of_nat 10) "" ∧
    (∀ sp, str_all is_space sp = true → unmarshal_as k' (s +:+ sp) = inr (convert k k' a)) ∧
    (∀ E rest (err : option E), decode_as k' (s +:+ rest) err = inr (convert k k' a)).
Proof using HT Hk Hdoc Hdoc' Hc.
  intros Ha. unfold is_doc, compatible, convert, tags in *.
  destruct k as [[| | | | | | |fs] tov ofv okv]; try done. destruct k' as [[| | | | | | |fs'] tov' ofv' okv']; try done.
  cbn [k_ty k_ok k_to k_of] in *. apply Nat.leb_le in Hdoc. destruct Hc as [Hnd Hfit].
  pose proof (kl_type _ Hk) as Hty. pose proof (kl_val _ Hk a Ha) as Hval. cbn [k_ty k_to] in Hty, Hval.
  destruct (Marshal_text fs (tov a) Hty Hdoc Hval) as (ms&[Hj _ _ _ _]&Hp).
  destruct (tov a) as [| | | | | | |vs] eqn:Ev; try done. cbn [parts].
  set (vs' := foldl _ _ _).
  assert (unmarshal (TStruct fs') (JObj ms) (zero_val (TStruct fs')) = Some (VStruct vs')) as Hu.
  { cbn [unmarshal zero_val]. cbn [to_json] in Hj. apply fmap_Some in Hj as (ms'&Hms&[= <-]).
    cbn [gty_ok] in Hty. apply andb_true_iff in Hty as [_ Hty].
    rewrite (set_fields_put fs vs ms _ _ _ Hms Hval Hty Hnd); [done|].
    eapply Forall_impl; [exact Hfit|]. intros f. unfold fits. cbn beta. destruct (find_field _ _) as [i|]; [|done].
    intros (g&Hg&Hgf)%fmap_Some. rewrite Hgf.
    assert (∀ C (h : string * bool * gty → C), map h fs' !! i = Some (h g)) as Hmap.
    { intros C h. change (map h fs') with (h <$> fs'). by rewrite list_lookup_fmap, Hg. }
    by rewrite !Hmap. }
  exists (json_print (JObj ms)). unfold marshal_as, encode_as, unmarshal_as, decode_as, Encode, Marshal, Unmarshal, Decode.
  unfold text_value, stream_value. cbn [k_ty k_to k_of]. rewrite Ev, Hj. split; [done|]. split; [done|]. split.
  - intros sp Hsp. by rewrite Hp, Hsp, Hu.
  - intros E rest err. by rewrite Hp, Hu.
Qed.
End Cross.

(** ** chat.go *)

Definition Message_json : kind Message :=
  k_struct [Field "role" false k_string Role; Field "content" false k_string Content;
            Field "name" true k_string MName]
    (λ v, mkMessage (k_of k_string (v 0%nat)) (k_of k_string (v 1%nat)) (k_of k_string (v 2%nat))).

Definition ChatCompletionRequest_json : kind ChatCompletionRequest :=
  k_struct [Field "model" false k_string rq_Model; Field "messages" false (k_list Message_json) rq_Messages;
            Field "temperature" true (k_ptr k_float) rq_Temperature; Field "top_p" true (k_ptr k_float) rq_TopP;
            Field "n" true (k_ptr k_int) rq_N; Field "stream" true k_bool rq_Stream;
            Field "stop" true (k_list k_string) rq_Stop; Field "max_tokens" true (k_ptr k_int) rq_MaxTokens;
            Field "presence_penalty" true (k_ptr k_float) rq_PresencePenalty;
            Field "frequency_penalty" true (k_ptr k_float) rq_FrequencyPenalty;
            Field "user" true k_string rq_User]
    (λ v, mkRequest (k_of k_string (v 0%nat)) (k_of (k_list Message_json) (v 1%nat))
            (k_of (k_ptr k_float) (v 2%nat)) (k_of (k_ptr k_float) (v 3%nat)) (k_of (k_ptr k_int) (v 4%nat))
            (k_of k_bool (v 5%nat)) (k_of (k_list k_string) (v 6%nat)) (k_of (k_ptr k_int) (v 7%nat))
            (k_of (k_ptr k_float) (v 8%nat)) (k_of (k_ptr k_float) (v 9%nat)) (k_of k_string (v 10%nat))).

Definition Usage_json : kind Usage :=
  k_struct [Field "prompt_tokens" false k_int PromptTokens;
            Field "completion_tokens" false k_int CompletionTokens;
            Field "total_tokens" false k_int TotalTokens]
    (λ v, mkUsage (k_of k_int (v 0%nat)) (k_of k_int (v 1%nat)) (k_of k_int (v 2%nat))).

Definition Choice_json : kind Choice :=
  k_struct [Field "index" false k_int ch_Index; Field "message" false Message_json ch_Message;
            Field "finish_reason" false k_string ch_FinishReason]
    (λ v, mkChoice (k_of k_int (v 0%nat)) (k_of Message_json (v 1%nat)) (k_of k_string (v 2%nat))).

Definition ChatCompletionResponse_json : kind ChatCompletionResponse :=
  k_struct [Field "id" false k_string rs_ID; Field "object" false k_string rs_Object;
            Field "created" false k_int rs_Created; Field "model" false k_string rs_Model;
            Field "choices" false (k_slice Choice_json) rs_Choices; Field "usage" false Usage_json rs_Usage;
            Field "system_fingerprint" true k_string rs_SystemFingerprint]
    (λ v, mkResponse (k_of k_string (v 0%nat)) (k_of k_string (v 1%nat)) (k_of k_int (v 2%nat))
            (k_of k_string (v 3%nat)) (k_of (k_slice Choice_json) (v 4%nat)) (k_of Usage_json (v 5%nat))
            (k_of k_string (v 6%nat))).

Definition DeltaMessage_json : kind DeltaMessage :=
  k_struct [Field "role" true k_string dl_Role; Field "content" true k_string dl_Content]
    (λ v, mkDelta (k_of k_string (v 0%nat)) (k_of k_string (v 1%nat))).

Definition ChunkChoice_json : kind ChunkChoice :=
  k_struct [Field "index" false k_int cc_Index; Field "delta" false DeltaMessage_json cc_Delta;
            Field "finish_reason" false (k_ptr k_string) cc_FinishReason]
    (λ v, mkChunkChoice (k_of k_int (v 0%nat)) (k_of DeltaMessage_json (v 1%nat))
            (k_of (k_ptr k_string) (v 2%nat))).

Definition ChatCompletionChunk_json : kind ChatCompletionChunk :=
  k_struct [Field "id" false k_string ck_ID; Field "object" false k_string ck_Object;
            Field "created" false k_int ck_Created; Field "model" false k_string ck_Model;
            Field "choices" false (k_slice ChunkChoice_json) ck_Choices;
            Field "usage" true (k_ptr Usage_json) ck_Usage]
    (λ v, mkChunk (k_of k_string (v 0%nat)) (k_of k_string (v 1%nat)) (k_of k_int (v 2%nat))
            (k_of k_string (v 3%nat)) (k_of (k_slice ChunkChoice_json) (v 4%nat))
            (k_of (k_ptr Usage_json) (v 5%nat))).

(** ** errors.go *)

Definition ErrorDetail_json : kind ErrorDetail :=
  k_struct [Field "message" false k_string ed_Message; Field "type" false k_string ed_Type;
            Field "code" true k_string ed_Code]
    (λ v, mkErrorDetail (k_of k_string (v 0%nat)) (k_of k_string (v 1%nat)) (k_of k_string (v 2%nat))).

Definition APIError_json : kind APIError :=
  k_struct [Field "error" false ErrorDetail_json ae_Error] (λ v, mkAPIError (k_of ErrorDetail_json (v 0%nat))).

(** ** Their laws *)

Section ChatLaws.
Context `{TimeLaws}.

Lemma Message_json_laws : kind_laws Message_json. Proof. struct_laws. Qed.
Lemma Usage_json_laws : kind_laws Usage_json. Proof. struct_laws. Qed.
Lemma DeltaMessage_json_laws : kind_laws DeltaMessage_json. Proof. struct_laws. Qed.
Lemma ErrorDetail_json_laws : kind_laws ErrorDetail_json. Proof. struct_laws. Qed.
Lemma Message_json_sane : kind_sane Message_json. Proof. struct_sane. Qed.
Lemma Usage_json_sane : kind_sane Usage_json. Proof. struct_sane. Qed.
Lemma DeltaMessage_json_sane : kind_sane DeltaMessage_json. Proof. struct_sane. Qed.
End ChatLaws.
#[export] Hint Resolve Message_json_laws Usage_json_laws DeltaMessage_json_laws ErrorDetail_json_laws
  Message_json_sane Usage_json_sane DeltaMessage_json_sane : kinds.

Section ChatLaws2.
Context `{TimeLaws}.

Lemma Choice_json_laws : kind_laws Choice_json. Proof. struct_laws. Qed.
Lemma ChunkChoice_json_laws : kind_laws ChunkChoice_json. Proof. struct_laws. Qed.
Lemma Choice_json_sane : kind_sane Choice_json. Proof. struct_sane. Qed.
Lemma ChunkChoice_json_sane : kind_sane ChunkChoice_json. Proof. struct_sane. Qed.
Lemma APIError_json_laws : kind_laws APIError_json. Proof. struct_laws. Qed.
End ChatLaws2.
#[export] Hint Resolve Choice_json_laws ChunkChoice_json_laws Choice_json_sane ChunkChoice_json_sane : kinds.

Section ChatLaws3.
Context `{TimeLaws}.

Lemma ChatCompletionRequest_json_laws : kind_laws ChatCompletionRequest_json. Proof. struct_laws. Qed.
Lemma ChatCompletionRequest_json_sane : kind_sane ChatCompletionRequest_json. Proof. struct_sane. Qed.
Lemma ChatCompletionResponse_json_laws : kind_laws ChatCompletionResponse_json. Proof. struct_laws. Qed.
Lemma ChatCompletionResponse_json_sane : kind_sane ChatCompletionResponse_json. Proof. struct_sane. Qed.
Lemma ChatCompletionChunk_json_laws : kind_laws ChatCompletionChunk_json. Proof. struct_laws. Qed.
Lemma ChatCompletionChunk_json_sane : kind_sane ChatCompletionChunk_json. Proof. struct_sane. Qed.
End ChatLaws3.
