(* ===== verification/Metrics.v ===== *)
(** * Metrics emission

    Models src/internal/metrics/metrics.go: the collectors it declares, and the
    helpers that write to them.  Prometheus is a library; what the gateway does
    to its collectors is the sequence of operations it calls, kept here as a
    log of [MetricEvent]s.  [ProviderLatencyTotals], which reads a collector
    back, is in [Latency]. *)

From S2P Require Import Prelude GoStrings Float64.
Local Open Scope Z_scope.

Inductive MetricEvent :=
| CounterInc (name : string) (labels : list string)
| HistObserve (name : string) (labels : list string) (v : f64)
| GaugeSet (name : string) (labels : list string) (v : f64).

(** ** The collectors *)

Inductive VecKind := KCounter | KHistogram (buckets : list f64) | KGauge.

Record Vec := mkVec {
  vec_kind : VecKind;
  vec_name : string;
  vec_labels : list string;
}.

(** 0.005, 0.01, 0.025, 0.05, 0.1, 0.25, 0.5, 1, 2.5, 5, 10: the literals are
    the doubles nearest to these decimals. *)
Definition durationBuckets : list f64 :=
  (λ n, f64_div (f64_of_Z n) (f64_of_Z 1000)) <$> [5; 10; 25; 50; 100; 250; 500; 1000; 2500; 5000; 10000].

Definition requestsTotal : Vec :=
  mkVec KCounter "gateway_requests_total" ["method"; "path_template"; "status_class"].
Definition requestDurationSeconds : Vec :=
  mkVec (KHistogram durationBuckets) "gateway_request_duration_seconds" ["method"; "path_template"].
Definition providerRequestsTotal : Vec :=
  mkVec KCounter "gateway_provider_requests_total" ["provider"; "status_class"].
Definition providerRequestDurationSeconds : Vec :=
  mkVec (KHistogram durationBuckets) "gateway_provider_request_duration_seconds" ["provider"].
Definition rateLimitHitsTotal : Vec := mkVec KCounter "gateway_ratelimit_hits_total" ["outcome"].
Definition authFailuresTotal : Vec := mkVec KCounter "gateway_auth_failures_total" ["reason"].
Definition providerHealth : Vec := mkVec KGauge "gateway_provider_health" ["provider"].

Definition collectors : list Vec :=
  [requestsTotal; requestDurationSeconds; providerRequestsTotal; providerRequestDurationSeconds;
   rateLimitHitsTotal; authFailuresTotal; providerHealth].

(** [WithLabelValues] panics unless it gets one value per label; an operation
    must exist on the kind of collector. *)
Definition event_ok (e : MetricEvent) : bool :=
  let ok kind name (labels : list string) :=
    existsb (λ v, String.eqb (vec_name v) name && kind (vec_kind v) &&
                  (length labels =? length (vec_labels v))%nat) collectors in
  match e with
  | CounterInc name labels => ok (λ k, match k with KCounter => true | _ => false end) name labels
  | HistObserve name labels _ => ok (λ k, match k with KHistogram _ => true | _ => false end) name labels
  | GaugeSet name labels _ => ok (λ k, match k with KGauge => true | _ => false end) name labels
  end.

(** ** Helpers *)

(** [time.Duration.Seconds]. *)
Definition duration_Seconds (d : Z) : f64 :=
  f64_add (f64_of_Z (Z.quot d Second)) (f64_div (f64_of_Z (Z.rem d Second)) (f64_of_Z Second)).

Definition statusClass (status : Z) : string :=
  if (200 <=? status) && (status <? 300) then "2xx"
  else if (300 <=? status) && (status <? 400) then "3xx"
  else if (400 <=? status) && (status <? 500) then "4xx"
  else if (500 <=? status) && (status <? 600) then "5xx"
  else "other".

Definition RecordRequest (method pathTemplate : string) (status duration : Z) : list MetricEvent :=
  [CounterInc "gateway_requests_total" [method; pathTemplate; statusClass status];
   HistObserve "gateway_request_duration_seconds" [method; pathTemplate] (duration_Seconds duration)].

Definition RecordProviderRequest (provider : string) (status duration : Z) : list MetricEvent :=
  [CounterInc "gateway_provider_requests_total" [provider; statusClass status];
   HistObserve "gateway_provider_request_duration_seconds" [provider] (duration_Seconds duration)].

Definition RecordRateLimit (outcome : string) : list MetricEvent :=
  [CounterInc "gateway_ratelimit_hits_total" [outcome]].

Definition RecordAuthFailure (reason : string) : list MetricEvent :=
  [CounterInc "gateway_auth_failures_total" [reason]].

Definition SetProviderHealth (provider : string) (healthy : bool) : list MetricEvent :=
  [GaugeSet "gateway_provider_health" [provider] (if healthy then f64_of_Z 1 else f64_zero)].

(** Every helper uses its collector as declared. *)
Lemma RecordRequest_ok m p st d : Forall (λ e, event_ok e = true) (RecordRequest m p st d).
Proof. by repeat constructor. Qed.
Lemma RecordProviderRequest_ok p st d : Forall (λ e, event_ok e = true) (RecordProviderRequest p st d).
Proof. by repeat constructor. Qed.
Lemma RecordRateLimit_ok o : Forall (λ e, event_ok e = true) (RecordRateLimit o).
Proof. by repeat constructor. Qed.
Lemma RecordAuthFailure_ok r : Forall (λ e, event_ok e = true) (RecordAuthFailure r).
Proof. by repeat constructor. Qed.
Lemma SetProviderHealth_ok p h : Forall (λ e, event_ok e = true) (SetProviderHealth p h).
Proof. by repeat constructor. Qed.
#[export] Hint Resolve RecordRequest_ok RecordProviderRequest_ok RecordRateLimit_ok RecordAuthFailure_ok
  SetProviderHealth_ok : gw.

(** The status label takes one of five values, whatever the status. *)
Lemma statusClass_bounded status :
  statusClass status ∈ ["2xx"; "3xx"; "4xx"; "5xx"; "other"].
Proof.
  unfold statusClass. repeat case_match; set_solver.
Qed.

Lemma statusClass_digit status d :
  2 ≤ d ≤ 5 → (statusClass status = Itoa d +:+ "xx" ↔ status / 100 = d).
Proof.
  intros Hd. assert (d = 2 ∨ d = 3 ∨ d = 4 ∨ d = 5) as Hc by lia.
  assert (status = 100 * (status / 100) + status mod 100) by (apply Z.div_mod; lia).
  pose proof (Z.mod_pos_bound status 100 ltac:(lia)). unfold statusClass.
  destruct Hc as [->|[->|[->| ->]]]; repeat (case_ztest; simpl); split; try done; lia.
Qed.

(** [math.Ceil(d.Seconds())] is the exact ceiling for durations up to 48 days:
    double rounding neither absorbs the fraction nor crosses a second. *)
Lemma ceil_seconds d :
  0 ≤ d < 2 ^ 22 * Second → f64_ceil_int (duration_Seconds d) = - ((- d) / Second).
Proof.
  intros Hd. unfold duration_Seconds.
  assert (0 < one_unit) as Hone by (by apply pow2_pos).
  assert (Second = 1000000000) as HS by reflexivity.
  rewrite Z.quot_div_nonneg, Z.rem_mod_nonneg by lia.
  pose proof (Z.div_mod d Second ltac:(lia)) as Hdm.
  pose proof (Z.mod_pos_bound d Second ltac:(lia)) as Hmod.
  set (s := d / Second) in *. set (n := d mod Second) in *.
  assert (0 ≤ s < 2 ^ 22) as Hs by (unfold s; split; [apply Z.div_pos; lia|apply Z.div_lt_upper_bound; lia]).
  destruct (f64_of_Z_exact s) as [Hfs Hus]; [lia|].
  destruct (Z.eq_dec n 0) as [Hn|Hn].
  - rewrite Hn. change (f64_div (f64_of_Z 0) (f64_of_Z Second)) with f64_zero.
    destruct (f64_add_exact (f64_of_Z s) f64_zero Hfs I _ Hfs) as [Hfa Hua]; [simpl units; lia|].
    rewrite f64_ceil_units; [|done|simpl units in *; nia]. rewrite Hua, Hus. simpl units.
    rewrite Z.add_0_r, <-Z.mul_opp_l, Z.div_mul by lia.
    replace (- d) with ((- s) * Second) by lia. rewrite Z.div_mul by lia. done.
  - destruct (f64_div_fraction n Second 30) as [Hq [Hlo Hhi]]; [lia|lia|lia|lia|].
    set (q := f64_div _ _) in *.
    destruct (f64_of_Z_exact (s + 1)) as [Hfs1 Hus1]; [lia|].
    destruct (f64_add_le _ _ Hfs Hq _ Hfs1) as [Hfa Hua]; [lia|].
    destruct (f64_dyadic_exact (s * 2 ^ 30 + 1) (-30)) as [Hc Huc]; [lia|lia|].
    assert (units (f64_dyadic (s * 2 ^ 30 + 1) (-30)) ≤ units (f64_add (f64_of_Z s) q)) as Hge.
    { apply f64_add_ge; [done..|]. rewrite Huc, Hus.
      change (2 ^ (-30 + 1074)) with (2 ^ (1074 - 30)).
      assert (one_unit = 2 ^ 30 * 2 ^ (1074 - 30)) as -> by reflexivity. lia. }
    assert (s * one_unit < units (f64_add (f64_of_Z s) q)) as Hgt.
    { eapply Z.lt_le_trans; [|exact Hge]. rewrite Huc.
      assert (one_unit = 2 ^ 30 * 2 ^ (-30 + 1074)) as -> by reflexivity.
      assert (0 < 2 ^ (-30 + 1074)) by (by apply pow2_pos). nia. }
    rewrite f64_ceil_units; [|done|nia]. rewrite Hus1 in Hua.
    set (u := units (f64_add _ _)) in *.
    assert ((- u) / one_unit = - (s + 1)) as ->.
    { symmetry. apply Z.div_unique with ((s + 1) * one_unit - u); lia. }
    assert ((- d) / Second = - (s + 1)) as ->; [|done].
    symmetry. apply Z.div_unique with (Second - n); lia.
Qed.
