(* ===== verification/Retry.v ===== *)
(** * The retrying, health-tracking provider decorator

    Models src/internal/provider/health_decorator.go: [backoffDuration], the
    retry loops of [ChatCompletion] and [ChatCompletionStream],
    [trackStreamHealth] and the two health-recording helpers.

    The environment of one call, [CallEnv], says what each attempt of the
    wrapped provider returns, whether the [select] before an attempt takes the
    [ctx.Done()] branch (and with which [ctx.Err()]), the random numbers drawn
    and the clock.  The state threaded through a call is [World]: the
    provider's health object, the metrics log and the trace of attempts and
    waits. *)

From S2P Require Import Prelude GoStrings Float64 Model Health Metrics.
Local Open Scope Z_scope.

(** ** Data *)

Record RetryConfig := mkRetryConfig {
  MaxRetries : Z;
  RetryBackoff : Z;
}.

(** [Health] lives in [World], [timer] and [rand] in [CallEnv]. *)
Record HealthTrackingProvider := mkHTP {
  wrapped_Name : string;
  wrapped_Models : list string;
  retry : RetryConfig;
}.

Record StreamEvent := mkStreamEvent {
  Chunk : option ChatCompletionChunk;
  Err : option goerr;
}.

Inductive RetryEvent :=
| ECall (attempt : Z)
| EWait (attempt : Z) (backoff : Z).

Record World := mkWorld {
  w_health : ProviderHealth;
  w_metrics : list MetricEvent;
  w_trace : list RetryEvent;
}.

Record CallEnv (A : Type) := mkCallEnv {
  ce_call : Z → A + goerr;
  ce_done : Z → option goerr;
  ce_rand : Z → f64;
  ce_start : Z;
  ce_now : Z → Z;
}.
Arguments mkCallEnv {A}.
Arguments ce_call {A}.
Arguments ce_done {A}.
Arguments ce_rand {A}.
Arguments ce_start {A}.
Arguments ce_now {A}.

(** What a call returns: a value, a non-nil error, or [(nil, nil)]. *)
Inductive Reply (A : Type) :=
| ROk (a : A)
| RErr (e : goerr)
| RNil.
Arguments ROk {A}.
Arguments RErr {A}.
Arguments RNil {A}.

(** ** Operations *)

Definition maxBackoff : Z := 30 * Second.

Definition NewHealthTrackingProvider (name : string) (models : list string)
    (healthCfg : HealthConfig) (retryCfg : RetryConfig) : HealthTrackingProvider * World :=
  ({| wrapped_Name := name; wrapped_Models := models; retry := retryCfg |},
   {| w_health := NewProviderHealth healthCfg; w_metrics := []; w_trace := [] |}).

Definition Name (h : HealthTrackingProvider) : string := wrapped_Name h.
Definition Models (h : HealthTrackingProvider) : list string := wrapped_Models h.

Definition asProviderError (err : option goerr) : option ProviderError :=
  match err with Some e => errors_As e | None => None end.

Definition isRetryable (err : goerr) : bool :=
  match errors_As err with Some pe => Retryable pe | None => false end.

(** [r] is the value [h.rand()] returns. *)
Definition backoffDuration (h : HealthTrackingProvider) (attempt : Z) (err : option goerr)
    (r : f64) : Z :=
  let computed :=
    let base := if RetryBackoff (retry h) <=? 0 then Second else RetryBackoff (retry h) in
    let multiplier := f64_pow2 (wrap64 (attempt - 1)) in
    let d := f64_trunc (f64_mul (f64_of_Z base) multiplier) in
    let d := if maxBackoff <? d then maxBackoff else d in
    let jitter := f64_add (f64_dyadic 1 (-1)) (f64_mul r (f64_dyadic 1 (-1))) in
    f64_trunc (f64_mul (f64_of_Z d) jitter) in
  match asProviderError err with
  | Some pe =>
      if (StatusCode pe =? 429) && (0 <? pe_RetryAfter pe) then pe_RetryAfter pe else computed
  | None => computed
  end.

Definition recordHealthSuccess (h : HealthTrackingProvider) (start now : Z) (w : World) : World :=
  let name := wrapped_Name h in
  {| w_health := RecordSuccess now (w_health w);
     w_metrics := w_metrics w ++ SetProviderHealth name true ++
                  RecordProviderRequest name 200 (time_Sub now start);
     w_trace := w_trace w |}.

Definition recordHealthFailure (h : HealthTrackingProvider) (err : option goerr) (start now : Z)
    (w : World) : World :=
  let '(healthy, ph) := RecordFailure now (err_Error <$> err) (w_health w) in
  let name := wrapped_Name h in
  let status :=
    match asProviderError err with
    | Some pe => if 0 <? StatusCode pe then StatusCode pe else 500
    | None => 500
    end in
  {| w_health := ph;
     w_metrics := w_metrics w ++ SetProviderHealth name healthy ++
                  RecordProviderRequest name status (time_Sub now start);
     w_trace := w_trace w |}.

Definition trace (ev : RetryEvent) (w : World) : World :=
  {| w_health := w_health w; w_metrics := w_metrics w; w_trace := w_trace w ++ [ev] |}.

(** The code after the loop. *)
Definition after_loop {B} (h : HealthTrackingProvider) (lastErr : option goerr) (start now : Z)
    (w : World) : Reply B * World :=
  (match lastErr with Some e => RErr e | None => RNil end,
   recordHealthFailure h lastErr start now w).

(** The retry loop that [ChatCompletion] and [ChatCompletionStream] share up
    to what they do with a successful reply ([onok]). *)
Fixpoint attempts {A B} (h : HealthTrackingProvider) (env : CallEnv A)
    (onok : Z → A → World → B * World) (fuel : nat) (attempt : Z) (lastErr : option goerr)
    (w : World) : Reply B * World :=
  let giveup err w := after_loop h err (ce_start env) (ce_now env attempt) w in
  match fuel with
  | O => giveup lastErr w
  | S fuel =>
      if attempt <=? MaxRetries (retry h) then
        let '(cancel, w) :=
          if 0 <? attempt then
            (ce_done env attempt,
             trace (EWait attempt (backoffDuration h attempt lastErr (ce_rand env attempt))) w)
          else (None, w) in
        match cancel with
        | Some e => (RErr e, w)
        | None =>
            let w := trace (ECall attempt) w in
            match ce_call env attempt with
            | inl resp => let '(b, w) := onok attempt resp w in (ROk b, w)
            | inr err =>
                if negb (isRetryable err)
                then (RErr err, recordHealthFailure h (Some err) (ce_start env) (ce_now env attempt) w)
                else if attempt =? MaxRetries (retry h) then giveup (Some err) w
                else attempts h env onok fuel (attempt + 1) (Some err) w
            end
        end
      else giveup lastErr w
  end.

Definition loop_fuel (h : HealthTrackingProvider) : nat := Z.to_nat (MaxRetries (retry h) + 1).

Definition ChatCompletion (h : HealthTrackingProvider) (env : CallEnv ChatCompletionResponse)
    (w : World) : Reply ChatCompletionResponse * World :=
  attempts h env
    (λ attempt resp w, (resp, recordHealthSuccess h (ce_start env) (ce_now env attempt) w))
    (loop_fuel h) 0 None w.

(** The goroutine of [trackStreamHealth], run to its end: the events of the
    wrapped stream, and the point at which the consumer's context ends (the
    number of events delivered before the [ctx.Done()] branch is taken). *)
Fixpoint forward (evts : list StreamEvent) (stop : option nat) (sawError : bool)
    (lastStreamErr : option goerr) : list StreamEvent * option (bool * option goerr) :=
  match evts with
  | [] => ([], Some (sawError, lastStreamErr))
  | evt :: evts =>
      let '(saw, last) :=
        match Err evt with Some e => (true, Some e) | None => (sawError, lastStreamErr) end in
      match stop with
      | Some O => ([], None)
      | _ =>
          let '(out, res) := forward evts (pred <$> stop) saw last in
          (evt :: out, res)
      end
  end.

Definition trackStreamHealth (h : HealthTrackingProvider) (evts : list StreamEvent)
    (stop : option nat) (start now : Z) (w : World) : list StreamEvent * World :=
  match forward evts stop false None with
  | (out, None) => (out, w)
  | (out, Some (true, e)) => (out, recordHealthFailure h e start now w)
  | (out, Some (false, _)) => (out, recordHealthSuccess h start now w)
  end.

Definition ChatCompletionStream (h : HealthTrackingProvider) (env : CallEnv (list StreamEvent))
    (stop : option nat) (w : World) : Reply (list StreamEvent) * World :=
  attempts h env
    (λ attempt ch w, trackStreamHealth h ch stop (ce_start env) (ce_now env attempt) w)
    (loop_fuel h) 0 None w.
