(* ===== verification/RetryProps.v ===== *)
(** * Guarantees of the retrying provider decorator

    Bounds of the back-off in double precision, the retry loop described by
    its trace of attempts and waits ([attempt_trace], [decided]), and the
    forwarding of streams with their health outcome. *)

From S2P Require Import Prelude GoStrings Float64 Model Health Metrics Retry.
Local Open Scope Z_scope.

(** ** Back-off *)

Lemma one_unit_split : one_unit = 2 * 2 ^ 1073.
Proof. reflexivity. Qed.

(** The jitter factor lies between one half and one (one included: the sum
    needs 54 bits and may round up). *)
Lemma jitter_range k :
  0 ≤ k < 2 ^ 53 →
  let j := f64_add (f64_dyadic 1 (-1)) (f64_mul (rand_Float64 k) (f64_dyadic 1 (-1))) in
  nonneg_fin j ∧ 2 ^ 1073 ≤ units j ≤ one_unit.
Proof.
  intros Hk j. destruct (rand_Float64_units k Hk) as [Hr Hur].
  destruct (f64_dyadic_exact 1 (-1)) as [Hh Huh]; [lia|lia|].
  change (-1 + 1074) with 1073 in Huh. rewrite Z.mul_1_l in Huh.
  destruct (f64_dyadic_exact 1 0) as [H1 Hu1]; [lia|lia|].
  change (1 * 2 ^ (0 + 1074)) with one_unit in Hu1.
  assert (0 < 2 ^ 1021) by (by apply pow2_pos).
  assert (2 ^ 53 * 2 ^ 1021 = one_unit) as H53 by reflexivity.
  destruct (f64_mul_le (rand_Float64 k) (f64_dyadic 1 (-1)) Hr Hh _ Hh) as [Hm Hum].
  { rewrite Hur, Huh. nia. }
  destruct (f64_add_le (f64_dyadic 1 (-1)) _ Hh Hm _ H1) as [Hj Huj].
  { rewrite Hu1, Huh, one_unit_split in *. lia. }
  split; [done|]. split; [|by rewrite <-Hu1].
  rewrite <-Huh. apply f64_add_ge; [done|done|done|done|].
  pose proof (units_nonneg _ Hm). lia.
Qed.

Lemma jittered d j :
  0 ≤ d < 2 ^ 53 → nonneg_fin j → 2 ^ 1073 ≤ units j ≤ one_unit →
  d / 2 ≤ f64_trunc (f64_mul (f64_of_Z d) j) ≤ d.
Proof.
  intros Hd Hj Huj. destruct (f64_of_Z_exact d Hd) as [Hfd Hud].
  assert (0 < one_unit) by (by apply pow2_pos).
  destruct (f64_mul_le _ _ Hfd Hj _ Hfd) as [Hm Hum]; [rewrite Hud; nia|].
  rewrite Hud in Hum.
  assert (d * 2 ^ 1073 ≤ units (f64_mul (f64_of_Z d) j)) as Hlow.
  { destruct (Z.eq_dec d 0) as [->|]; [by rewrite Z.mul_0_l; apply units_nonneg|].
    destruct (f64_dyadic_exact d (-1)) as [Hc Huc]; [lia|lia|].
    change (-1 + 1074) with 1073 in Huc. rewrite <-Huc.
    apply f64_mul_ge; [done..|]. rewrite Huc, Hud. nia. }
  rewrite f64_trunc_units; [|done|].
  - split.
    + apply Z.div_le_lower_bound; [done|]. rewrite one_unit_split.
      pose proof (Z.mul_div_le d 2 ltac:(lia)). nia.
    + apply Z.div_le_upper_bound; lia.
  - eapply Z.le_lt_trans; [exact Hum|]. apply Z.mul_lt_mono_pos_r; lia.
Qed.

Lemma exponential base n :
  0 < base < 2 ^ 53 → 0 ≤ n → base * 2 ^ n < 2 ^ 63 →
  f64_trunc (f64_mul (f64_of_Z base) (f64_pow2 n)) = base * 2 ^ n.
Proof.
  intros Hb Hn Hlt. assert (n < 63).
  { apply (Z.pow_lt_mono_r_iff 2); [lia|lia|]. pose proof (pow2_pos n Hn). nia. }
  destruct (f64_of_Z_exact base) as [Hfb Hub]; [lia|].
  destruct (f64_dyadic_exact 1 n) as [Hp Hup]; [lia|lia|].
  destruct (f64_dyadic_exact base n) as [Hc Huc]; [lia|lia|].
  assert (2 ^ (n + 1074) = 2 ^ n * one_unit) as Hs by (apply Z.pow_add_r; lia).
  destruct (f64_mul_exact _ _ Hfb Hp _ Hc) as [Hm Hum].
  { rewrite Hub, Hup, Huc, Hs. lia. }
  change (f64_pow2 n) with (f64_dyadic 1 n).
  assert (0 < one_unit) by (by apply pow2_pos).
  rewrite f64_trunc_units; [|done|]; rewrite Hum, Huc, Hs, Z.mul_assoc.
  - apply Z.div_mul. lia.
  - by apply Z.mul_lt_mono_pos_r.
Qed.

(** The delay before the jitter: the doubled base, at most [maxBackoff]. *)
Definition base_delay (h : HealthTrackingProvider) (attempt : Z) : Z :=
  let base := if RetryBackoff (retry h) <=? 0 then Second else RetryBackoff (retry h) in
  Z.min maxBackoff (base * 2 ^ (attempt - 1)).

(** C33: the wait before a retry, where the doubling stays in range: the base
    delay is below 2^53 ns (104 days) and [base * 2^(n-1)] below 2^63 ns.  Then
    the wait before attempt [n] is the provider's [Retry-After] for a 429 that
    carries a positive one, and otherwise lies between one half and the whole of
    [min(30s, base * 2^(n-1))], for every random draw, as computed in double
    precision.  Outside that range the bounds fail ([backoff_overflow]). *)
Theorem backoff_bounds (h : HealthTrackingProvider) (attempt : Z) (err : option goerr) (k : Z) :
  let b := backoffDuration h attempt err (rand_Float64 k) in
  let base := if RetryBackoff (retry h) <=? 0 then Second else RetryBackoff (retry h) in
  0 ≤ k < 2 ^ 53 → 1 ≤ attempt → RetryBackoff (retry h) < 2 ^ 53 →
  base * 2 ^ (attempt - 1) < 2 ^ 63 →
  let within := base_delay h attempt / 2 ≤ b ≤ base_delay h attempt in
  match asProviderError err with
  | Some pe =>
      if (StatusCode pe =? 429) && (0 <? pe_RetryAfter pe) then b = pe_RetryAfter pe else within
  | None => within
  end.
Proof.
  intros b base Hk Ha Hb Hov within. unfold within, b, backoffDuration, base_delay. fold base.
  assert (attempt - 1 < 63).
  { apply (Z.pow_lt_mono_r_iff 2); [lia|lia|].
    pose proof (pow2_pos (attempt - 1) ltac:(lia)).
    assert (0 < base) by (unfold base, Second; case_ztest; lia). nia. }
  assert (0 < base < 2 ^ 53) as Hbase by (unfold base, Second; case_ztest; lia).
  rewrite wrap64_id by (unfold in64, min64, max64; lia).
  rewrite exponential by (done || lia).
  destruct (jitter_range k Hk) as [Hj Huj].
  set (j := f64_add _ _) in *. pose proof (pow2_pos (attempt - 1) ltac:(lia)).
  set (D := base * 2 ^ (attempt - 1)) in *. assert (0 < D) by (unfold D; nia).
  assert ((if maxBackoff <? D then maxBackoff else D) = Z.min maxBackoff D) as -> by ztests.
  assert (maxBackoff = 30000000000) as HmB by reflexivity.
  pose proof (jittered (Z.min maxBackoff D) j ltac:(lia) Hj Huj) as Hres.
  destruct (asProviderError err) as [pe|]; [|done].
  by destruct ((StatusCode pe =? 429) && (0 <? pe_RetryAfter pe)).
Qed.

Definition demo_htp : HealthTrackingProvider := mkHTP "openai" ["gpt-4o"] (mkRetryConfig 3 0).

Lemma backoff_bounds_witness :
  1000000000 ≤ backoffDuration demo_htp 2 (Some (ErrMsg "boom")) (rand_Float64 12345) ≤ 2000000000.
Proof.
  apply (backoff_bounds demo_htp 2 (Some (ErrMsg "boom")) 12345);
    [lia|lia|vm_compute; reflexivity..].
Defined.

(** Beyond the 64-bit range the conversion to a duration yields a negative
    value on amd64, which the cap does not catch: the "wait" is immediate. *)
Example backoff_overflow :
  backoffDuration demo_htp 40 (Some (ErrMsg "boom")) (rand_Float64 12345) < 0.
Proof. vm_compute. reflexivity. Qed.

(** ** The retry loop *)

Section Loop.
Context {A B : Type} (h : HealthTrackingProvider) (env : CallEnv A).
Context (onok : Z → A → World → B * World).

(** Attempt [i] was made and failed with a retryable error. *)
Definition retry_after_attempt (i : Z) : Prop :=
  ∃ e, ce_call env i = inr e ∧ isRetryable e = true ∧ (0 < i → ce_done env i = None).

(** The error an attempt left for the next back-off. *)
Definition error_of (i : Z) : option goerr :=
  match ce_call env i with inr e => Some e | inl _ => None end.

(** The waits and calls of attempts [i], ..., [i + n - 1]. *)
Fixpoint attempt_trace (i : Z) (n : nat) : list RetryEvent :=
  match n with
  | O => []
  | S n =>
      (if 0 <? i then [EWait i (backoffDuration h i (error_of (i - 1)) (ce_rand env i))] else [])
      ++ ECall i :: attempt_trace (i + 1) n
  end.

Definition wait_trace (i : Z) : list RetryEvent :=
  [EWait i (backoffDuration h i (error_of (i - 1)) (ce_rand env i))].

Definition traced (t : list RetryEvent) (w : World) : World :=
  {| w_health := w_health w; w_metrics := w_metrics w; w_trace := w_trace w ++ t |}.

Lemma traced_traced t t' w : traced t' (traced t w) = traced (t ++ t') w.
Proof. unfold traced. simpl. by rewrite app_assoc. Qed.

(** What the loop ends with when attempt [k] is the deciding one. *)
Definition decided (i : Z) (k : Z) (w : World) (res : Reply B * World) : Prop :=
  (∃ e, 0 < k ∧ ce_done env k = Some e ∧
     res = (RErr e, traced (attempt_trace i (Z.to_nat (k - i)) ++ wait_trace k) w)) ∨
  ((0 < k → ce_done env k = None) ∧
   let w' := traced (attempt_trace i (Z.to_nat (k - i + 1))) w in
   match ce_call env k with
   | inl a => res = (ROk (onok k a w').1, (onok k a w').2)
   | inr e => (isRetryable e = false ∨ k = MaxRetries (retry h)) ∧
       res = (RErr e, recordHealthFailure h (Some e) (ce_start env) (ce_now env k) w')
   end).

Lemma attempt_trace_step i n :
  attempt_trace i (S n) = attempt_trace i 1 ++ attempt_trace (i + 1) n.
Proof. simpl. by rewrite <-app_assoc. Qed.

Lemma decided_step i k w res :
  i < k → decided (i + 1) k (traced (attempt_trace i 1) w) res → decided i k w res.
Proof.
  intros Hik. unfold decided. rewrite !traced_traced.
  assert (Z.to_nat (k - i) = S (Z.to_nat (k - (i + 1)))) as -> by lia.
  assert (Z.to_nat (k - i + 1) = S (Z.to_nat (k - (i + 1) + 1))) as -> by lia.
  rewrite (attempt_trace_step i (Z.to_nat (k - (i + 1)))).
  by rewrite (attempt_trace_step i (Z.to_nat (k - (i + 1) + 1))), !app_assoc.
Qed.

Lemma attempts_spec fuel i lastErr w :
  0 ≤ i ≤ MaxRetries (retry h) → fuel = Z.to_nat (MaxRetries (retry h) + 1 - i) →
  (0 < i → lastErr = error_of (i - 1)) →
  ∃ k, i ≤ k ≤ MaxRetries (retry h) ∧ (∀ j, i ≤ j < k → retry_after_attempt j) ∧
    decided i k w (attempts h env onok fuel i lastErr w).
Proof.
  revert i lastErr w. induction fuel as [|fuel IH]; intros i lastErr w Hi Hf Hlast; [lia|].
  cbn [attempts]. destruct (Z.leb_spec i (MaxRetries (retry h))); [|lia].
  assert (∀ w0, trace (ECall i) (if 0 <? i then trace (EWait i (backoffDuration h i lastErr (ce_rand env i))) w0 else w0)
            = traced (attempt_trace i 1) w0) as Htr.
  { intros w0. simpl. destruct (Z.ltb_spec 0 i).
    - rewrite Hlast by lia. unfold trace, traced. simpl. by rewrite <-app_assoc.
    - done. }
  destruct (decide (0 < i ∧ ce_done env i ≠ None)) as [[H0 Hd]|Hgo].
  { destruct (Z.ltb_spec 0 i); [|lia]. destruct (ce_done env i) as [e|] eqn:Ed; [|done].
    exists i. split; [lia|]. split; [lia|]. left. exists e. split; [done|]. split; [done|].
    rewrite Z.sub_diag. simpl. rewrite Hlast by lia. done. }
  assert ((if 0 <? i then (ce_done env i, trace (EWait i (backoffDuration h i lastErr (ce_rand env i))) w)
     else (None, w)) = (None, if 0 <? i then trace (EWait i (backoffDuration h i lastErr (ce_rand env i))) w else w)) as ->.
  { destruct (Z.ltb_spec 0 i); [|done]. f_equal. destruct (ce_done env i); [|done]. by destruct Hgo. }
  assert (0 < i → ce_done env i = None) as Hnd.
  { intros. destruct (ce_done env i); [|done]. by destruct Hgo. }
  rewrite Htr. destruct (ce_call env i) as [a|e] eqn:Ec.
  { exists i. split; [lia|]. split; [lia|]. right. split; [done|].
    rewrite Ec, Z.sub_diag. change (Z.to_nat (0 + 1)) with 1%nat. cbv zeta. by destruct (onok _ _ _). }
  destruct (isRetryable e) eqn:Er; cbn [negb].
  2:{ exists i. split; [lia|]. split; [lia|]. right. split; [done|].
      rewrite Ec, Z.sub_diag. split; [by left|done]. }
  destruct (Z.eqb_spec i (MaxRetries (retry h))) as [Hmax|Hmax].
  { exists i. split; [lia|]. split; [lia|]. right. split; [done|].
    rewrite Ec, Z.sub_diag. split; [by right|]. done. }
  destruct (IH (i + 1) (Some e) (traced (attempt_trace i 1) w)) as (k&Hk&Hbefore&Hdec).
  { lia. } { lia. } { intros _. unfold error_of. by rewrite Z.add_simpl_r, Ec. }
  exists k. split; [lia|]. split.
  - intros j Hj. destruct (Z.eq_dec j i) as [->|]; [by exists e|]. apply Hbefore. lia.
  - apply decided_step; [lia|done].
Qed.
End Loop.

(** C11: with a non-negative [MaxRetries], [ChatCompletion] makes attempts
    0, 1, ..., k for some [k <= MaxRetries], waiting the computed back-off
    before each retry; every attempt before [k] failed with a retryable error.
    It returns the reply of attempt [k] (a success, a non-retryable error, or
    the last retryable one when the retries are exhausted) and records that
    outcome in the health tracker exactly once; if the context ends during the
    wait before attempt [k] it returns [ctx.Err()] and records nothing. *)
Theorem chat_completion_retries (h : HealthTrackingProvider)
    (env : CallEnv ChatCompletionResponse) (w : World) (Hmax : 0 ≤ MaxRetries (retry h)) :
  ∃ k, 0 ≤ k ≤ MaxRetries (retry h) ∧
    (∀ j, 0 ≤ j < k → retry_after_attempt env j) ∧
    ((∃ e, 0 < k ∧ ce_done env k = Some e ∧
       ChatCompletion h env w =
         (RErr e, traced (attempt_trace h env 0 (Z.to_nat k) ++ wait_trace h env k) w)) ∨
     ((0 < k → ce_done env k = None) ∧
      let w' := traced (attempt_trace h env 0 (Z.to_nat (k + 1))) w in
      match ce_call env k with
      | inl resp =>
          ChatCompletion h env w =
            (ROk resp, recordHealthSuccess h (ce_start env) (ce_now env k) w')
      | inr e => (isRetryable e = false ∨ k = MaxRetries (retry h)) ∧
          ChatCompletion h env w =
            (RErr e, recordHealthFailure h (Some e) (ce_start env) (ce_now env k) w')
      end)).
Proof.
  destruct (attempts_spec h env
    (λ attempt resp w, (resp, recordHealthSuccess h (ce_start env) (ce_now env attempt) w))
    (loop_fuel h) 0 None w) as (k&Hk&Hb&Hd); [lia|unfold loop_fuel; f_equal; lia|lia|].
  exists k. split; [done|]. split; [done|]. unfold decided in Hd.
  rewrite Z.sub_0_r in Hd. destruct Hd as [Hd|[Hnd Hd]]; [by left|right].
  split; [done|]. cbv zeta in Hd |- *. by destruct (ce_call env k).
Qed.

(** A provider that answers 503 once and then succeeds. *)
Definition demo_resp : ChatCompletionResponse :=
  mkResponse "id" "chat.completion" 0 "gpt-4o" None (mkUsage 1 2 3) "".
Definition demo_503 : goerr :=
  ErrWrap "openai: " (ErrProvider (mkProviderError 503 "server_error" "busy" true 0)).
Definition demo_env : CallEnv ChatCompletionResponse :=
  mkCallEnv (λ n, if n =? 0 then inr demo_503 else inl demo_resp) (λ _, None)
    (λ _, rand_Float64 7) 0 (λ n, n + 1).
Definition demo_world : World := mkWorld (NewProviderHealth (mkHealthConfig 0 0)) [] [].

Lemma chat_completion_retries_witness :
  ∃ k, 0 ≤ k ≤ 3 ∧ ∀ j, 0 ≤ j < k → retry_after_attempt demo_env j.
Proof.
  destruct (chat_completion_retries demo_htp demo_env demo_world) as (k&Hk&Hb&_).
  - vm_compute. discriminate.
  - exists k. split; [exact Hk|exact Hb].
Defined.

Example demo_retry_succeeds :
  (ChatCompletion demo_htp demo_env demo_world).1 = ROk demo_resp ∧
  w_trace (ChatCompletion demo_htp demo_env demo_world).2 =
    [ECall 0; EWait 1 500000000; ECall 1].
Proof. vm_compute. split; reflexivity. Qed.

(** With a negative [MaxRetries] no attempt is made and the caller receives
    neither a response nor an error. *)
Example negative_max_retries :
  ChatCompletion (mkHTP "openai" [] (mkRetryConfig (-1) 0)) demo_env demo_world =
  (RNil, recordHealthFailure (mkHTP "openai" [] (mkRetryConfig (-1) 0)) None 0 1 demo_world).
Proof. reflexivity. Qed.

(** ** Streams *)

Lemma forward_complete evts saw last :
  forward evts None saw last =
  (evts, Some (saw || existsb (λ e, bool_decide (is_Some (Err e))) evts,
               foldl (λ l e, match Err e with Some x => Some x | None => l end) last evts)).
Proof.
  revert saw last. induction evts as [|ev evts IH]; intros saw last; simpl.
  { by rewrite orb_false_r. }
  destruct (Err ev) as [x|] eqn:E; rewrite IH.
  - rewrite bool_decide_eq_true_2 by (by exists x). simpl. by rewrite orb_true_r.
  - rewrite bool_decide_eq_false_2; [done|]. by intros [? ?].
Qed.

Lemma forward_prefix evts n saw last out res :
  forward evts (Some n) saw last = (out, res) →
  out = take n evts ∧ (res = None ↔ (n < length evts)%nat).
Proof.
  revert n saw last out res. induction evts as [|ev evts IH]; intros n saw last out res; simpl.
  { intros [= <- <-]. rewrite take_nil. split; [done|]. split; [done|lia]. }
  destruct (match Err ev with Some e => (true, Some e) | None => (saw, last) end) as [saw' last'].
  destruct n as [|n]; simpl.
  { intros [= <- <-]. split; [done|]. split; [lia|done]. }
  destruct (forward evts (Some n) saw' last') as [out' res'] eqn:E. intros [= <- <-].
  destruct (IH _ _ _ _ _ E) as [-> Hr]. split; [done|]. rewrite Hr. lia.
Qed.

(** [trackStreamHealth] forwards the events of the wrapped stream
    unchanged and in order.  When the consumer reads the whole stream, health
    is recorded exactly once, as a failure with the last stream error when
    some event carried one and as a success otherwise; when the context ends
    after [n] events, exactly those [n] are forwarded and nothing is recorded. *)
Theorem stream_health_tracking (h : HealthTrackingProvider) (evts : list StreamEvent)
    (start now : Z) (w : World) :
  (trackStreamHealth h evts None start now w =
     (evts,
      match filter (λ e, is_Some (Err e)) evts with
      | [] => recordHealthSuccess h start now w
      | errs => recordHealthFailure h (last errs ≫= Err) start now w
      end)) ∧
  (∀ n, (n < length evts)%nat →
     trackStreamHealth h evts (Some n) start now w = (take n evts, w)).
Proof.
  split.
  - unfold trackStreamHealth. rewrite forward_complete. simpl.
    assert (∀ l0, foldl (λ l e, match Err e with Some x => Some x | None => l end) l0 evts =
      match last (filter (λ e, is_Some (Err e)) evts) with Some e => Err e | None => l0 end) as ->.
    { clear. induction evts as [|ev evts IH]; intros l0; [done|]. simpl. rewrite IH, filter_cons.
      destruct (Err ev) as [x|] eqn:E.
      - rewrite decide_True by (by exists x). rewrite last_cons. by destruct (last _).
      - rewrite decide_False; [done|]. by intros [? ?]. }
    destruct (existsb _ evts) eqn:Ex.
    + apply existsb_exists in Ex as (e&He%list_elem_of_In&Hs%bool_decide_eq_true).
      destruct (filter (λ e, is_Some (Err e)) evts) as [|e' l] eqn:Ef.
      { exfalso. assert (e ∈ filter (λ e, is_Some (Err e)) evts) as Hin
          by (by apply list_elem_of_filter). rewrite Ef in Hin. by apply elem_of_nil in Hin. }
      rewrite <-Ef. destruct (last _) eqn:El; [done|]. apply last_None in El. congruence.
    + destruct (filter (λ e, is_Some (Err e)) evts) as [|e' l] eqn:Ef; [done|]. exfalso.
      assert (e' ∈ filter (λ e, is_Some (Err e)) evts) as [Hs Hin]%list_elem_of_filter
        by (rewrite Ef; by left).
      assert (existsb (λ e, bool_decide (is_Some (Err e))) evts = true); [|congruence].
      apply existsb_exists. exists e'. split; [by apply list_elem_of_In|].
      by apply bool_decide_eq_true.
  - intros n Hn. unfold trackStreamHealth.
    destruct (forward evts (Some n) false None) as [out res] eqn:E.
    apply forward_prefix in E as [-> Hr]. by rewrite (proj2 Hr Hn).
Qed.
