(* ===== verification/Registry.v ===== *)
(** * The model registry

    Models src/internal/provider/registry.go.  A provider reached through the
    registry is a reference: a [*HealthTrackingProvider] ([Tracked], whose
    health object is found at its identity in the health heap) or a bare
    provider ([Bare]). *)

From stdpp Require Import sorting.
From S2P Require Import Prelude GoStrings.
Local Open Scope Z_scope.

Inductive Provider :=
| Tracked (id : nat) (name : string)
| Bare (name : string).

#[export] Instance Provider_eq_dec : EqDecision Provider.
Proof. solve_decision. Defined.

Definition provider_Name (p : Provider) : string :=
  match p with Tracked _ n | Bare n => n end.

Record Registry := mkRegistry {
  models : gmap string Provider;
  aliases : gmap string string;
}.

Record ModelInfo := mkModelInfo {
  ModelName : string;
  ProviderName : string;
}.

(** ** Operations *)

Definition NewRegistry : Registry := {| models := ∅; aliases := ∅ |}.

Definition Register (p : Provider) (ms : list string) (r : Registry) : Registry :=
  {| models := foldl (λ acc m, <[m := p]> acc) (models r) ms; aliases := aliases r |}.

Definition RegisterAlias (alias target : string) (r : Registry) : option string * Registry :=
  match models r !! alias with
  | Some _ => (Some ("alias " +:+ Quote alias +:+ " conflicts with already-registered model"), r)
  | None =>
      match models r !! target with
      | None => (Some ("alias " +:+ Quote alias +:+ " targets unregistered model " +:+ Quote target), r)
      | Some p =>
          (None, {| models := <[alias := p]> (models r); aliases := <[alias := target]> (aliases r) |})
      end
  end.

Definition CanonicalModel (name : string) (r : Registry) : string :=
  match aliases r !! name with Some c => c | None => name end.

Definition listModelsLocked (r : Registry) : list string :=
  sort_Strings (map_to_list (models r)).*1.

Definition Resolve (modelName : string) (r : Registry) : string + Provider :=
  match models r !! modelName with
  | Some p => inr p
  | None =>
      inl ("unknown model " +:+ Quote modelName +:+ ": available models: [" +:+
           Join (listModelsLocked r) ", " +:+ "]")
  end.

Definition ListModels (r : Registry) : list string := listModelsLocked r.

(** The health object of a tracked provider, by identity. *)
Definition HealthFor (p : Provider) : option nat :=
  match p with Tracked id _ => Some id | Bare _ => None end.

Definition info_le (a b : ModelInfo) : Prop := String.le (ModelName a) (ModelName b).
#[export] Instance info_le_dec : RelDecision info_le.
Proof. intros a b. unfold info_le. apply _. Defined.
#[export] Instance info_le_trans : Transitive info_le.
Proof. intros a b c. unfold info_le. by etrans. Qed.
#[export] Instance info_le_total : Total info_le.
Proof. intros a b. apply (total String.le). Qed.

Definition ListModelDetails (r : Registry) : list ModelInfo :=
  merge_sort info_le
    ((λ kv, {| ModelName := kv.1; ProviderName := provider_Name kv.2 |}) <$> map_to_list (models r)).

(** ** Listing *)

Lemma ListModels_spec r :
  StronglySorted String.le (ListModels r) ∧ NoDup (ListModels r) ∧
  ∀ m, m ∈ ListModels r ↔ is_Some (models r !! m).
Proof.
  unfold ListModels, listModelsLocked. split; [apply sort_Strings_sorted|]. split.
  - rewrite sort_Strings_perm. apply NoDup_fst_map_to_list.
  - intros m. rewrite sort_Strings_perm, list_elem_of_fmap. split.
    + intros ([? p]&->&?%elem_of_map_to_list). by exists p.
    + intros [p Hp]. exists (m, p). split; [done|]. by apply elem_of_map_to_list.
Qed.

(** The listing does not depend on the order in which Go iterates the map. *)
Lemma ListModels_order r l :
  l ≡ₚ map_to_list (models r) → sort_Strings l.*1 = ListModels r.
Proof. intros Hl. apply sort_Strings_proper. by rewrite Hl. Qed.

Lemma merge_sort_fmap_fst (l : list ModelInfo) :
  ModelName <$> merge_sort info_le l = sort_Strings (ModelName <$> l).
Proof.
  apply (StronglySorted_unique_strong String.le).
  - intros x y _ _ ??. by apply (anti_symm String.le).
  - pose proof (StronglySorted_merge_sort info_le l) as Hs.
    induction Hs as [|x l' Hl' IH Hall]; simpl; constructor; [done|].
    apply Forall_fmap. eapply Forall_impl; [exact Hall|]. done.
  - apply sort_Strings_sorted.
  - rewrite sort_Strings_perm. by rewrite merge_sort_Permutation.
Qed.

(** [ListModelDetails] lists the same names in the same order. *)
Lemma ListModelDetails_names r : ModelName <$> ListModelDetails r = ListModels r.
Proof.
  unfold ListModelDetails. rewrite merge_sort_fmap_fst, <-list_fmap_compose. reflexivity.
Qed.

(** ** Aliases *)

(** Every alias resolves to the provider of its target. *)
Definition alias_inv (r : Registry) : Prop :=
  ∀ a t, aliases r !! a = Some t → is_Some (models r !! t) ∧ models r !! a = models r !! t.

Lemma alias_inv_init : alias_inv NewRegistry.
Proof. intros a t. simpl. by rewrite lookup_empty. Qed.

Lemma RegisterAlias_inv alias target r :
  alias_inv r → alias_inv (RegisterAlias alias target r).2.
Proof.
  intros Hinv. unfold RegisterAlias.
  destruct (models r !! alias) as [?|] eqn:Ea; [done|].
  destruct (models r !! target) as [p|] eqn:Et; [|done].
  assert (alias ≠ target) by congruence.
  intros a t. simpl. rewrite lookup_insert. case_decide as Ha.
  - subst a. intros [= <-]. rewrite lookup_insert_eq, lookup_insert_ne, Et by done. eauto.
  - intros Hl. destruct (Hinv a t Hl) as [[q Hq] Heq].
    assert (alias ≠ t) by congruence.
    rewrite !lookup_insert_ne, Hq by done. rewrite Heq. eauto.
Qed.

(** Registering models that are neither aliases nor alias targets. *)
Lemma Register_inv p ms r :
  (∀ m a t, m ∈ ms → aliases r !! a = Some t → m ≠ a ∧ m ≠ t) →
  alias_inv r → alias_inv (Register p ms r).
Proof.
  intros Hdisj Hinv a t Hl. simpl in Hl. simpl.
  assert (∀ m ml, m ∉ ml → foldl (λ acc x, <[x := p]> acc) (models r) ml !! m = models r !! m) as Hout.
  { intros m ml. generalize (models r). induction ml as [|x ml IH]; intros M Hm; [done|].
    apply not_elem_of_cons in Hm as [? Hm]. simpl. rewrite IH by done. by rewrite lookup_insert_ne. }
  rewrite !Hout; [by apply Hinv|..]; intros Hin; destruct (Hdisj _ _ _ Hin Hl); congruence.
Qed.

(** ** Start-up: providers first, then aliases *)

Definition startup (regs : list (Provider * list string)) (als : list (string * string)) : Registry :=
  foldl (λ r at_, (RegisterAlias at_.1 at_.2 r).2)
    (foldl (λ r pm, Register pm.1 pm.2 r) NewRegistry regs) als.

Lemma startup_inv regs als : alias_inv (startup regs als).
Proof.
  unfold startup.
  assert (∀ r, aliases r = ∅ → alias_inv r → alias_inv (foldl (λ r pm, Register pm.1 pm.2 r) r regs))
    as Hregs.
  { clear. induction regs as [|[p ms] regs IH]; intros r Hem Hinv; [done|]. simpl.
    apply IH; [done|]. apply Register_inv; [|done].
    intros m a t _. by rewrite Hem, lookup_empty. }
  specialize (Hregs NewRegistry eq_refl alias_inv_init). revert Hregs.
  generalize (foldl (λ r pm, Register pm.1 pm.2 r) NewRegistry regs).
  induction als as [|[a t] als IH]; intros r Hr; [done|]. simpl. by apply IH, RegisterAlias_inv.
Qed.

(** After start-up (all providers registered, then all aliases), any name
    the registry resolves goes to the same provider as its canonical name, so
    forwarding the canonical name to the resolved provider is meaningful; the
    listing contains exactly the resolvable names, sorted and without
    duplicates. *)
Theorem registry_resolution (regs : list (Provider * list string)) (als : list (string * string)) :
  let r := startup regs als in
  (∀ n p, Resolve n r = inr p ↔ models r !! n = Some p) ∧
  (∀ n p, Resolve n r = inr p → Resolve (CanonicalModel n r) r = inr p) ∧
  (∀ n, n ∈ ListModels r ↔ is_Some (models r !! n)) ∧
  StronglySorted String.le (ListModels r) ∧ NoDup (ListModels r).
Proof.
  intros r. assert (∀ n p, Resolve n r = inr p ↔ models r !! n = Some p) as Hres.
  { intros n p. unfold Resolve. destruct (models r !! n); [|done]. naive_solver. }
  destruct (ListModels_spec r) as (?&?&?). split_and!; [done| |done..].
  intros n p. rewrite !Hres. unfold CanonicalModel.
  destruct (aliases r !! n) as [t|] eqn:Ea; [|done].
  destruct (startup_inv regs als n t Ea) as [_ Heq]. fold r in Heq. by rewrite Heq.
Qed.

(** An alias whose target is itself an alias: the "canonical" name returned is
    the intermediate alias, not the model the provider knows. *)
Example alias_of_alias :
  let r := startup [(Bare "openai", ["gpt-4o"])] [("smart", "gpt-4o"); ("best", "smart")] in
  CanonicalModel "best" r = "smart" ∧ CanonicalModel "smart" r = "gpt-4o".
Proof. vm_compute. split; reflexivity. Qed.
