(* ===== verification/Strategies.v ===== *)
(** * Candidate-ranking strategies

    Models src/internal/router/strategy: [Priority], [RoundRobin], [Weighted],
    [CostOptimized], [LatencyOptimized], and the [Builder] that memoizes them,
    with the routing data types of src/internal/router/router.go.

    A strategy value is a reference; [StratState] is the state an instance
    keeps and [Select] one atomic call on it.  [Draw] is what the instance's
    random source returns for the call. *)

From S2P Require Import Prelude GoStrings Float64 Model Registry.
Local Open Scope Z_scope.

(** ** Routing data (router.go) *)

Record RequestMeta := mkMeta {
  mt_OrgID : string;
  mt_KeyID : string;
  mt_Attempt : Z;
  mt_TriedNames : list string;
  mt_Group : string;
}.

Record Decision := mkDecision {
  dc_Provider : string;
  dc_Model : string;
  dc_Strategy : string;
  dc_Group : string;
  dc_ExperimentName : string;
  dc_Variant : string;
}.

Record Candidate := mkCandidate {
  c_Provider : Provider;
  c_Model : string;
  CostPer1kInputUSD : f64;
  CostPer1kOutputUSD : f64;
  Priority : Z;
  Weight : Z;
}.

#[export] Instance Candidate_eq_dec : EqDecision Candidate.
Proof. solve_decision. Defined.

(** Warnings the strategies and the router log. *)
Inductive RouteWarn :=
| WarnNoCost (group : string) (models : list string)
| WarnSkip (provider model : string).

(** ** State of a strategy instance *)

Abbreviation Counters := (gmap string Z).

Inductive StratState :=
| SPriority
| SRoundRobin (counters : Counters)
| SWeighted
| SCost (fallback : Counters) (warned : gset string)
| SLatency (fallback : Counters) (ewmas : gmap string f64) (alpha : f64).

Definition strategy_Name (s : StratState) : string :=
  match s with
  | SPriority => "priority"
  | SRoundRobin _ => "round_robin"
  | SWeighted => "weighted"
  | SCost _ _ => "cost_optimized"
  | SLatency _ _ _ => "latency_optimized"
  end.

(** The result of a call: a candidate, an error or a panic. *)
Abbreviation Sel := (outcome string Candidate).

(** ** The forward minimum scan

    [Priority], [CostOptimized] and [LatencyOptimized] run the same loop: keep
    the first candidate whose key is strictly below the best key so far,
    skipping the candidates that have no key. *)

Section Scan.
Context {C K : Type} (key : C → option K) (ltb : K → K → bool).

Definition scan_step (best : option (K * C)) (c : C) : option (K * C) :=
  match key c with
  | None => best
  | Some k =>
      match best with
      | None => Some (k, c)
      | Some (k0, _) => if ltb k k0 then Some (k, c) else best
      end
  end.

Definition scan (l : list C) : option (K * C) := foldl scan_step None l.
End Scan.

(** ** priority.go *)

Definition Priority_Select (candidates : list Candidate) : Sel :=
  match candidates with
  | [] => Error "priority: empty candidate list"
  | c0 :: rest =>
      Ret (foldl (λ best c, if Priority c <? Priority best then c else best) c0 rest)
  end.

(** ** round_robin.go *)

Definition counterFor (group : string) (counters : Counters) : Z := default 0 (counters !! group).

Definition RoundRobin_Select (candidates : list Candidate) (meta : RequestMeta)
    (counters : Counters) : Sel * Counters :=
  match candidates with
  | [] => (Error "round_robin: empty candidate list", counters)
  | _ =>
      let counter := wrapu64 (counterFor (mt_Group meta) counters + 1) in
      let idx := wrapu64 (counter - 1) in
      (match candidates !! Z.to_nat (idx `mod` Z.of_nat (length candidates)) with
       | Some c => Ret c
       | None => Panic
       end,
       <[mt_Group meta := counter]> counters)
  end.

(** ** weighted.go *)

Definition weight_total (candidates : list Candidate) : Z :=
  foldl (λ total c, if Weight c <? 0 then total else wrap64 (total + Weight c)) 0 candidates.

(** The random source of [NewWeighted]: [rand.New(rand.NewPCG(seed1, seed2))]
    of math/rand/v2, a 128-bit linear congruential generator whose output is
    mixed by the DXSM permutation. *)
Record PCG := mkPCG { pcg_hi : Z; pcg_lo : Z }.

Definition PCG_next (p : PCG) : PCG :=
  let mulHi := 2549297995355413924 in
  let mulLo := 4865540595714422341 in
  let incHi := 6364136223846793005 in
  let incLo := 1442695040888963407 in
  let prod := pcg_lo p * mulLo in
  let hi := wrapu64 (Z.shiftr prod 64 + pcg_hi p * mulLo + pcg_lo p * mulHi) in
  let lo := wrapu64 prod + incLo in
  {| pcg_hi := wrapu64 (hi + incHi + Z.shiftr lo 64); pcg_lo := wrapu64 lo |}.

Definition PCG_Uint64 (p : PCG) : Z * PCG :=
  let p := PCG_next p in
  let cheapMul := 0xda942042e4dd58b5 in
  let hi := pcg_hi p in
  let hi := Z.lxor hi (Z.shiftr hi 32) in
  let hi := wrapu64 (hi * cheapMul) in
  let hi := Z.lxor hi (Z.shiftr hi 48) in
  (wrapu64 (hi * Z.lor (pcg_lo p) 1), p).

(** [rand.Rand.Float64]: the low 53 bits over [2^53]. *)
Definition rng_Float64 (p : PCG) : f64 * PCG :=
  let '(u, p) := PCG_Uint64 p in (rand_Float64 (u `mod` 2 ^ 53), p).

(** The first two outputs of [NewPCG(1, 2)] in the library's own tests. *)
Example PCG_outputs :
  let '(a, p) := PCG_Uint64 (mkPCG 1 2) in (a, (PCG_Uint64 p).1) = (0xc4f5a58656eef510, 0x9dcec3ad077dec6c).
Proof. reflexivity. Qed.

(** [NewWeighted] at the instant [now] (Unix nanoseconds): its generator.  The
    draws of an instance are successive [rng_Float64]s; [Weighted_Select] takes
    the draw as an argument, so that what is proved holds for every draw. *)
Definition NewWeighted (now : Z) : PCG :=
  let now := wrapu64 now in mkPCG now (Z.lxor now 0x9e3779b97f4a7c15).

(** The forward loop: the first candidate whose running sum exceeds [pick]. *)
Fixpoint weight_walk (pick cursor : f64) (candidates : list Candidate) : option Candidate :=
  match candidates with
  | [] => None
  | c :: rest =>
      if Weight c <=? 0 then weight_walk pick cursor rest
      else
        let cursor := f64_add cursor (f64_of_Z (Weight c)) in
        if f64_ltb pick cursor then Some c else weight_walk pick cursor rest
  end.

(** The backward loop: the last candidate of positive weight. *)
Definition last_positive (candidates : list Candidate) : option Candidate :=
  last (filter (λ c, 0 < Weight c) candidates).

(** [r] is the value of [w.randFloat()]. *)
Definition Weighted_Select (r : f64) (candidates : list Candidate) : Sel :=
  match candidates with
  | [] => Error "weighted: empty candidate list"
  | _ =>
      let n := Z.of_nat (length candidates) in
      let total := weight_total candidates in
      if total =? 0 then
        let idx := f64_trunc (f64_mul r (f64_of_Z n)) in
        let idx := if n <=? idx then n - 1 else idx in
        if idx <? 0 then Panic
        else match candidates !! Z.to_nat idx with Some c => Ret c | None => Panic end
      else
        let pick := f64_mul r (f64_of_Z total) in
        match weight_walk pick f64_zero candidates with
        | Some c => Ret c
        | None =>
            match last_positive candidates with
            | Some c => Ret c
            | None => match last candidates with Some c => Ret c | None => Panic end
            end
        end
  end.

(** A call with the instance's own generator, which is asked only when there
    are candidates. *)
Definition Weighted_draw (candidates : list Candidate) (p : PCG) : Sel * PCG :=
  match candidates with
  | [] => (Weighted_Select f64_zero [], p)
  | _ => let '(r, p) := rng_Float64 p in (Weighted_Select r candidates, p)
  end.

(** ** cost.go *)

Definition defaultMaxTokens : Z := 256.

Definition estimateCost (c : Candidate) (req : ChatCompletionRequest) : f64 :=
  let inChars :=
    foldl (λ n m, wrap64 (n + Z.of_nat (String.length (Content m)))) 0 (rq_Messages req) in
  let inTokensPer1k := f64_div (f64_div (f64_of_Z inChars) (f64_of_Z 4)) (f64_of_Z 1000) in
  let outTokens :=
    match rq_MaxTokens req with
    | Some n => if 0 <? n then n else defaultMaxTokens
    | None => defaultMaxTokens
    end in
  let outTokensPer1k := f64_div (f64_of_Z outTokens) (f64_of_Z 1000) in
  f64_add (f64_mul inTokensPer1k (CostPer1kInputUSD c))
          (f64_mul outTokensPer1k (CostPer1kOutputUSD c)).

Definition priced (c : Candidate) : bool :=
  negb (f64_eqb (CostPer1kInputUSD c) f64_zero && f64_eqb (CostPer1kOutputUSD c) f64_zero).

Definition nul : string := String (byte_ 0) "".

Definition warnKey (group : string) (candidates : list Candidate) : string :=
  group +:+ nul +:+ Join (sort_Strings (c_Model <$> candidates)) ",".

Definition warnFor (group : string) (candidates : list Candidate) (warned : gset string)
    : list RouteWarn * gset string :=
  let key := warnKey group candidates in
  (if decide (key ∈ warned) then [] else [WarnNoCost group (c_Model <$> candidates)],
   {[key]} ∪ warned).

Definition cost_key (req : ChatCompletionRequest) (c : Candidate) : option f64 :=
  if priced c then Some (estimateCost c req) else None.

Definition Cost_Select (candidates : list Candidate) (req : ChatCompletionRequest)
    (meta : RequestMeta) (fallback : Counters) (warned : gset string)
    : Sel * list RouteWarn * (Counters * gset string) :=
  match candidates with
  | [] => (Error "cost_optimized: empty candidate list", [], (fallback, warned))
  | _ =>
      match scan (cost_key req) f64_ltb candidates with
      | Some (_, c) => (Ret c, [], (fallback, warned))
      | None =>
          let '(ws, warned) := warnFor (mt_Group meta) candidates warned in
          let '(res, fallback) := RoundRobin_Select candidates meta fallback in
          (res, ws, (fallback, warned))
      end
  end.

(** ** latency.go *)

Definition latency_step (ewmas : gmap string f64) (best : option Candidate * f64) (c : Candidate)
    : option Candidate * f64 :=
  match ewmas !! provider_Name (c_Provider c) with
  | Some v => if f64_ltb v best.2 then (Some c, v) else best
  | None => best
  end.

Definition Latency_Select (candidates : list Candidate) (meta : RequestMeta)
    (fallback : Counters) (ewmas : gmap string f64) : Sel * Counters :=
  match candidates with
  | [] => (Error "latency_optimized: empty candidate list", fallback)
  | _ =>
      match (foldl (latency_step ewmas) (None, f64_inf) candidates).1 with
      | Some c => (Ret c, fallback)
      | None => RoundRobin_Select candidates meta fallback
      end
  end.

Definition Observe (provider : string) (seconds alpha : f64) (ewmas : gmap string f64)
    : gmap string f64 :=
  if f64_ltb seconds f64_zero || f64_IsNaN seconds || f64_IsInf seconds then ewmas
  else
    match ewmas !! provider with
    | Some prev =>
        <[provider := f64_add (f64_mul alpha seconds) (f64_mul (f64_sub (f64_of_Z 1) alpha) prev)]> ewmas
    | None => <[provider := seconds]> ewmas
    end.

(** [metrics.LatencyTotal] *)
Record LatencyTotal := mkLatencyTotal { Sum : f64; Count : Z }.

(** The sample one poll contributes for a provider, if any. *)
Definition poll_sample (p c : LatencyTotal) : option f64 :=
  if Count c <? Count p then None
  else
    let deltaCount := wrapu64 (Count c - Count p) in
    if deltaCount =? 0 then None
    else
      let deltaSum := f64_sub (Sum c) (Sum p) in
      let deltaSum := if f64_ltb deltaSum f64_zero then f64_zero else deltaSum in
      Some (f64_div deltaSum (f64_of_Z deltaCount)).

(** One tick of [run]: [order] is the order in which the map is iterated. *)
Definition poll_tick (prev : gmap string LatencyTotal) (order : list (string * LatencyTotal))
    (alpha : f64) (ewmas : gmap string f64) : gmap string f64 :=
  foldl (λ ew pc,
    match poll_sample (default (mkLatencyTotal f64_zero 0) (prev !! pc.1)) pc.2 with
    | Some s => Observe pc.1 s alpha ew
    | None => ew
    end) ewmas order.

Definition defaultLatencyPollInterval : Z := 5 * Second.
Definition defaultLatencyHalfLife : Z := 60 * Second.

(** [exp] is [math.Exp]. *)
Definition ewmaAlpha (exp : f64 → f64) (pollInterval halfLife : Z) : f64 :=
  if halfLife <=? 0 then f64_of_Z 1
  else f64_sub (f64_of_Z 1) (exp (f64_div (f64_neg (f64_of_Z pollInterval)) (f64_of_Z halfLife))).

(** ** Dispatch and construction (strategy.go) *)

(** Fresh instances.  The strategy's own [warn] function is the event
    [WarnNoCost]. *)
Definition NewPriority : StratState := SPriority.
Definition NewRoundRobin : Counters := ∅.
Definition NewCostOptimized : StratState := SCost NewRoundRobin ∅.

Definition Select (candidates : list Candidate) (req : ChatCompletionRequest) (meta : RequestMeta)
    (r : f64) (s : StratState) : Sel * list RouteWarn * StratState :=
  match s with
  | SPriority => (Priority_Select candidates, [], s)
  | SRoundRobin cs =>
      let '(res, cs) := RoundRobin_Select candidates meta cs in (res, [], SRoundRobin cs)
  | SWeighted => (Weighted_Select r candidates, [], s)
  | SCost fb wd =>
      let '(res, ws, (fb, wd)) := Cost_Select candidates req meta fb wd in (res, ws, SCost fb wd)
  | SLatency fb ew al =>
      let '(res, fb) := Latency_Select candidates meta fb ew in (res, [], SLatency fb ew al)
  end.

Definition Build (exp : f64 → f64) (name : string) : string + StratState :=
  if decide (name = "cost_optimized") then inr NewCostOptimized
  else if decide (name = "latency_optimized") then
    inr (SLatency NewRoundRobin ∅ (ewmaAlpha exp defaultLatencyPollInterval defaultLatencyHalfLife))
  else if decide (name = "round_robin") then inr (SRoundRobin NewRoundRobin)
  else if decide (name = "weighted") then inr SWeighted
  else if decide (name = "priority") then inr NewPriority
  else inl ("unknown routing strategy " +:+ Quote name).

(** Strategy instances live in a heap; the builder maps names to references. *)
Record Builder := mkBuilder {
  by_name : gmap string nat;
  heap : gmap nat StratState;
  next_ref : nat;
}.

Definition NewBuilder : Builder := {| by_name := ∅; heap := ∅; next_ref := 0 |}.

Definition Builder_Build (exp : f64 → f64) (name : string) (b : Builder) : (string + nat) * Builder :=
  match by_name b !! name with
  | Some s => (inr s, b)
  | None =>
      match Build exp name with
      | inl e => (inl e, b)
      | inr st =>
          (inr (next_ref b),
           {| by_name := <[name := next_ref b]> (by_name b);
              heap := <[next_ref b := st]> (heap b);
              next_ref := S (next_ref b) |})
      end
  end.
