(* ===== verification/StrategyProps.v ===== *)
(** * What the strategies guarantee

    Each [Select] against a reference definition: the first minimum of a key
    (priority, cost, latency), rotation (round robin), shares of the unit
    interval (weighted); and the builder's invariant. *)

From S2P Require Import Prelude GoStrings Float64 Model Registry Strategies.
Local Open Scope Z_scope.

(** ** The first minimum *)

Section ScanFacts.
Context {C K : Type} (key : C → option K) (ltb : K → K → bool).
Context (ltb_irrefl : ∀ k, ltb k k = false).
Context (ltb_trans : ∀ a b c, ltb a b = true → ltb b c = true → ltb a c = true).
(** Keys that are ordered with respect to every other key (not NaN). *)
Context (proper_key : K → Prop).
Context (ltb_split : ∀ a b c, proper_key b → ltb a c = true → ltb a b = true ∨ ltb b c = true).

(** [c] with key [k] is the first minimum of [l]: strictly below everything
    before it, not above anything after it. *)
Definition first_min (l : list C) (k : K) (c : C) : Prop :=
  ∃ l1 l2, l = l1 ++ c :: l2 ∧ key c = Some k ∧
    (∀ c' k', c' ∈ l1 → key c' = Some k' → ltb k k' = true) ∧
    (∀ c' k', c' ∈ l2 → key c' = Some k' → ltb k' k = false).

Lemma first_min_skip l k c x :
  first_min l k c → (∀ k', key x = Some k' → ltb k' k = false) → first_min (l ++ [x]) k c.
Proof.
  intros (l1&l2&->&Hk&H1&H2) Hx. exists l1, (l2 ++ [x]). split; [by rewrite <-app_assoc|].
  split; [done|]. split; [done|]. intros c' k' [Hc|Hc]%elem_of_app; [by eapply H2|].
  apply list_elem_of_singleton in Hc as ->. apply Hx.
Qed.

Lemma first_min_take l k c x k' :
  first_min l k c → key x = Some k' → ltb k' k = true →
  (∀ c0 k0, c0 ∈ l → key c0 = Some k0 → proper_key k0) →
  first_min (l ++ [x]) k' x.
Proof.
  intros (l1&l2&->&Hk&H1&H2) Hx Hlt Hp. exists (l1 ++ c :: l2), []. split; [done|].
  split; [done|]. split; [|by intros ?? ?%elem_of_nil].
  intros c' k0 Hc Hk0. apply elem_of_app in Hc as [Hc|[->|Hc]%elem_of_cons].
  - eapply ltb_trans; [exact Hlt|by eapply H1].
  - congruence.
  - destruct (ltb_split k' k0 k) as [|Hbad]; [|done|done|].
    + eapply Hp; [|done]. apply elem_of_app. right. by right.
    + by rewrite (H2 _ _ Hc Hk0) in Hbad.
Qed.

(** The scan returns nothing when no candidate has a key, and otherwise the
    first minimum. *)
Lemma scan_first_min l :
  (∀ c k, c ∈ l → key c = Some k → proper_key k) →
  match scan key ltb l with
  | None => ∀ c, c ∈ l → key c = None
  | Some (k, c) => first_min l k c
  end.
Proof.
  unfold scan. induction l as [|x l IH] using rev_ind; intros Hp.
  { by intros c ?%elem_of_nil. }
  assert (∀ c k, c ∈ l → key c = Some k → proper_key k) as Hp'.
  { intros c k Hc. apply Hp. apply elem_of_app. by left. }
  specialize (IH Hp'). rewrite foldl_app. simpl.
  destruct (foldl (scan_step key ltb) None l) as [[k c]|]; unfold scan_step;
    destruct (key x) as [k'|] eqn:Ex.
  - destruct (ltb k' k) eqn:El; [by eapply first_min_take|].
    apply first_min_skip; [done|]. rewrite Ex. by intros k0 [= <-].
  - apply first_min_skip; [done|congruence].
  - exists l, []. split; [done|]. split; [done|].
    split; [|by intros ?? ?%elem_of_nil]. intros c k Hc Hk. by rewrite (IH c Hc) in Hk.
  - intros c [Hc|Hc%list_elem_of_singleton]%elem_of_app; [by apply IH|by subst].
Qed.
End ScanFacts.

Lemma first_min_elem {C K} (key : C → option K) ltb l k c :
  first_min key ltb l k c → c ∈ l ∧ key c = Some k.
Proof.
  intros (l1&l2&->&Hk&_). split; [|done]. apply elem_of_app. right. by left.
Qed.

Lemma scan_elem {C K} (key : C → option K) ltb l k c : scan key ltb l = Some (k, c) → c ∈ l.
Proof.
  unfold scan. revert k c. induction l as [|x l IH] using rev_ind; intros k c; [done|].
  rewrite foldl_app. simpl. rewrite elem_of_app.
  destruct (foldl (scan_step key ltb) None l) as [[k0 c0]|]; unfold scan_step;
    destruct (key x); repeat case_match; intros [= <- <-]; try (by right; left); left; by eapply IH.
Qed.

(** ** Priority *)

Definition priority_key (c : Candidate) : option Z := Some (Priority c).

Lemma priority_scan c0 rest :
  foldl (λ best c, if Priority c <? Priority best then c else best) c0 rest =
  match scan priority_key Z.ltb (c0 :: rest) with Some (_, c) => c | None => c0 end.
Proof.
  unfold scan. simpl.
  assert (∀ b, foldl (scan_step priority_key Z.ltb) (Some (Priority b, b)) rest =
    let r := foldl (λ best c, if Priority c <? Priority best then c else best) b rest in
    Some (Priority r, r)) as Hs.
  { induction rest as [|c rest IH]; intros b; [done|]. simpl. unfold scan_step at 2. simpl.
    destruct (Priority c <? Priority b); apply IH. }
  change (scan_step priority_key Z.ltb None c0) with (Some (Priority c0, c0)). by rewrite Hs.
Qed.

(** [Priority] returns the candidate of the lowest priority number, the
    earliest in configuration order on a tie. *)
Theorem priority_first_min (candidates : list Candidate) (Hne : candidates ≠ []) :
  ∃ c, Priority_Select candidates = Ret c ∧
    first_min priority_key Z.ltb candidates (Priority c) c.
Proof.
  destruct candidates as [|c0 rest]; [done|]. eexists. split; [reflexivity|].
  rewrite priority_scan.
  pose proof (scan_first_min priority_key Z.ltb ltac:(lia) (λ _, True) ltac:(lia)
    (c0 :: rest) ltac:(done)) as Hs.
  destruct (scan priority_key Z.ltb (c0 :: rest)) as [[k c]|].
  - destruct (first_min_elem _ _ _ _ _ Hs) as [_ [= <-]]. done.
  - specialize (Hs c0 ltac:(by left)). done.
Qed.

Definition cand (p m : string) (prio w : Z) (ci co : f64) : Candidate :=
  mkCandidate (Bare p) m ci co prio w.

Lemma priority_first_min_witness :
  ∃ c, Priority_Select [cand "a" "m1" 2 1 f64_zero f64_zero; cand "b" "m2" 1 1 f64_zero f64_zero;
                        cand "c" "m3" 1 1 f64_zero f64_zero] = Ret c ∧ c_Model c = "m2".
Proof.
  destruct (priority_first_min [cand "a" "m1" 2 1 f64_zero f64_zero;
    cand "b" "m2" 1 1 f64_zero f64_zero; cand "c" "m3" 1 1 f64_zero f64_zero]) as (c&Hc&_).
  - discriminate.
  - exists c. split; [exact Hc|]. vm_compute in Hc. injection Hc as <-. reflexivity.
Defined.

(** ** Cost *)

Definition no_nan (k : f64) : Prop := f64_IsNaN k = false.

(** With cost data for some candidate, [CostOptimized] returns the priced
    candidate of the lowest estimated cost (earliest on a tie) and changes
    nothing; unpriced candidates never win over priced ones.  Without any
    cost data it behaves as round robin and warns for the candidate set. *)
Theorem cost_first_min (candidates : list Candidate) (req : ChatCompletionRequest)
    (meta : RequestMeta) (fb : Counters) (wd : gset string)
    (Hne : candidates ≠ [])
    (Hnan : ∀ c, c ∈ candidates → f64_IsNaN (estimateCost c req) = false) :
  match Cost_Select candidates req meta fb wd with
  | (res, ws, (fb', wd')) =>
      (∃ c, res = Ret c ∧ priced c = true ∧ ws = [] ∧ fb' = fb ∧ wd' = wd ∧
         first_min (cost_key req) f64_ltb candidates (estimateCost c req) c) ∨
      ((∀ c, c ∈ candidates → priced c = false) ∧
       (res, fb') = RoundRobin_Select candidates meta fb ∧
       (ws, wd') = warnFor (mt_Group meta) candidates wd)
  end.
Proof.
  assert (∀ c k, c ∈ candidates → cost_key req c = Some k → no_nan k) as Hp.
  { intros c k Hc. unfold cost_key. destruct (priced c); [|done]. intros [= <-]. by apply Hnan. }
  pose proof (scan_first_min (cost_key req) f64_ltb f64_ltb_trans no_nan f64_ltb_split _ Hp) as Hs.
  unfold Cost_Select. destruct candidates as [|c0 rest]; [done|].
  destruct (scan _ _ _) as [[k c]|].
  - left. destruct (first_min_elem _ _ _ _ _ Hs) as [_ Hk]. exists c. split; [done|].
    unfold cost_key in Hk. destruct (priced c); [|done]. injection Hk as ->. done.
  - right. destruct (warnFor _ _ _) as [ws wd'] eqn:Ew.
    destruct (RoundRobin_Select _ _ _) as [res fb'] eqn:Er.
    split; [|done]. intros c Hc. specialize (Hs c Hc). unfold cost_key in Hs.
    by destruct (priced c).
Qed.

Definition demo_meta : RequestMeta := mkMeta "o" "k" 0 [] "smart".
Definition demo_req : ChatCompletionRequest :=
  mkRequest "smart" [mkMessage "user" "hello world" ""] None None None false [] (Some 256) None None "".
Definition demo_cands : list Candidate :=
  [cand "openai" "gpt-4o" 0 1 (f64_dyadic 1 (-8)) (f64_dyadic 1 (-6));
   cand "meta" "llama" 0 1 f64_zero f64_zero;
   cand "google" "gemini" 0 3 (f64_dyadic 1 (-13)) (f64_dyadic 1 (-11))].

Lemma cost_first_min_witness :
  match Cost_Select demo_cands demo_req demo_meta ∅ ∅ with
  | (res, ws, (fb', wd')) =>
      (∃ c, res = Ret c ∧ priced c = true ∧ ws = [] ∧ fb' = ∅ ∧ wd' = ∅ ∧
         first_min (cost_key demo_req) f64_ltb demo_cands (estimateCost c demo_req) c) ∨
      ((∀ c, c ∈ demo_cands → priced c = false) ∧
       (res, fb') = RoundRobin_Select demo_cands demo_meta ∅ ∧
       (ws, wd') = warnFor (mt_Group demo_meta) demo_cands ∅)
  end.
Proof.
  apply (cost_first_min demo_cands demo_req demo_meta ∅ ∅).
  - discriminate.
  - apply Forall_forall. repeat constructor.
Defined.

Example cost_picks_gemini :
  (Cost_Select demo_cands demo_req demo_meta ∅ ∅).1.1 = Ret (cand "google" "gemini" 0 3 (f64_dyadic 1 (-13)) (f64_dyadic 1 (-11))).
Proof. vm_compute. reflexivity. Qed.

(** The warning key does not depend on the order of the candidates, and a
    candidate set that has been warned about stays silent. *)
Lemma warnKey_order group c1 c2 : c1 ≡ₚ c2 → warnKey group c1 = warnKey group c2.
Proof.
  intros Hp. unfold warnKey. do 3 f_equal. apply sort_Strings_proper. by rewrite Hp.
Qed.

Lemma warnFor_once group c1 c2 wd :
  c1 ≡ₚ c2 → (warnFor group c2 (warnFor group c1 wd).2).1 = [].
Proof.
  intros Hp. unfold warnFor. simpl. rewrite (warnKey_order group c1 c2 Hp).
  rewrite decide_True by set_solver. done.
Qed.

(** ** Latency *)

(** A measured average competes when it is below [math.Inf(1)]. *)
Definition latency_key (ewmas : gmap string f64) (c : Candidate) : option f64 :=
  match ewmas !! provider_Name (c_Provider c) with
  | Some v => if f64_ltb v f64_inf then Some v else None
  | None => None
  end.

Lemma latency_scan_eq ewmas l :
  foldl (latency_step ewmas) (None, f64_inf) l =
  match scan (latency_key ewmas) f64_ltb l with
  | Some (v, c) => (Some c, v)
  | None => (None, f64_inf)
  end ∧
  ∀ v c, scan (latency_key ewmas) f64_ltb l = Some (v, c) → f64_ltb v f64_inf = true.
Proof.
  unfold scan. induction l as [|x l [IH Hinf]] using rev_ind; [done|].
  rewrite !foldl_app. simpl. rewrite IH. clear IH.
  set (r := foldl (scan_step (latency_key ewmas) f64_ltb) None l) in *. clearbody r.
  unfold latency_step, scan_step, latency_key.
  destruct (ewmas !! provider_Name (c_Provider x)) as [v|]; [|by destruct r as [[??]|]].
  destruct r as [[k c]|]; simpl.
  - specialize (Hinf _ _ eq_refl). destruct (f64_ltb v k) eqn:Ek.
    + rewrite (f64_ltb_trans _ _ _ Ek Hinf). rewrite Ek. split; [done|].
      intros ?? [= <- <-]. by eapply f64_ltb_trans.
    + destruct (f64_ltb v f64_inf); rewrite ?Ek; (split; [done|]); by intros ?? [= <- <-].
  - destruct (f64_ltb v f64_inf) eqn:Ei; (split; [done|]); by intros ?? [= <- <-].
Qed.

(** When some candidate's provider has a usable latency average,
    [LatencyOptimized] returns the candidate with the lowest one (earliest on a
    tie), whatever the averages are; unmeasured candidates lose to measured
    ones.  Otherwise it behaves as round robin. *)
Theorem latency_first_min (candidates : list Candidate) (meta : RequestMeta) (fb : Counters)
    (ewmas : gmap string f64) (Hne : candidates ≠ []) :
  (∃ c v, Latency_Select candidates meta fb ewmas = (Ret c, fb) ∧
     ewmas !! provider_Name (c_Provider c) = Some v ∧
     first_min (latency_key ewmas) f64_ltb candidates v c) ∨
  ((∀ c, c ∈ candidates → latency_key ewmas c = None) ∧
   Latency_Select candidates meta fb ewmas = RoundRobin_Select candidates meta fb).
Proof.
  assert (∀ c k, c ∈ candidates → latency_key ewmas c = Some k → no_nan k) as Hp.
  { intros c k _. unfold latency_key. destruct (ewmas !! _) as [v|]; [|done].
    destruct (f64_ltb v f64_inf) eqn:E; [|done]. intros [= <-]. by apply f64_ltb_key in E as [? _]. }
  pose proof (scan_first_min (latency_key ewmas) f64_ltb f64_ltb_trans no_nan f64_ltb_split _ Hp)
    as Hs.
  unfold Latency_Select. rewrite (proj1 (latency_scan_eq ewmas candidates)).
  destruct candidates as [|c0 rest]; [done|].
  destruct (scan _ _ _) as [[v c]|].
  - left. exists c, v. split; [done|]. split; [|done].
    destruct (first_min_elem _ _ _ _ _ Hs) as [_ Hk]. unfold latency_key in Hk.
    destruct (ewmas !! _) as [v'|]; [|done]. destruct (f64_ltb v' f64_inf); [|done]. done.
  - by right.
Qed.

Lemma latency_first_min_witness :
  ∃ c, (Latency_Select demo_cands demo_meta ∅
     (<["openai" := f64_of_Z 2]> (<["google" := f64_of_Z 1]> ∅))).1 = Ret c.
Proof.
  destruct (latency_first_min demo_cands demo_meta ∅
    (<["openai" := f64_of_Z 2]> (<["google" := f64_of_Z 1]> ∅))) as [(c&v&Hc&_)|[Hn _]].
  - discriminate.
  - exists c. rewrite Hc. reflexivity.
  - exfalso. specialize (Hn (cand "google" "gemini" 0 3 (f64_dyadic 1 (-13)) (f64_dyadic 1 (-11)))).
    discriminate Hn. right. right. left.
Defined.

(** The poller only ever feeds [Observe] with a sample for a provider whose
    count grew; a counter reset contributes nothing. *)
Lemma poll_sample_reset p c : Count c ≤ Count p → in64 (Count c) → in64 (Count p) → poll_sample p c = None.
Proof.
  unfold poll_sample. intros Hle Hc Hp. destruct (Z.ltb_spec (Count c) (Count p)); [done|].
  by replace (Count c - Count p) with 0 by lia.
Qed.

(** ** Round robin *)

(** A history of calls: the group and the candidate list of each. *)
Definition rr_run (calls : list (RequestMeta * list Candidate)) (cs : Counters) : Counters :=
  foldl (λ cs call, (RoundRobin_Select call.2 call.1 cs).2) cs calls.

(** The calls of a history that drew from the counter of [g]. *)
Definition rr_count (g : string) (calls : list (RequestMeta * list Candidate)) : Z :=
  Z.of_nat (length (filter (λ call, mt_Group call.1 = g ∧ call.2 ≠ []) calls)).

Lemma rr_run_counter g calls cs :
  0 ≤ counterFor g cs →
  counterFor g (rr_run calls cs) `mod` 2 ^ 64 = (counterFor g cs + rr_count g calls) `mod` 2 ^ 64
  ∧ 0 ≤ counterFor g (rr_run calls cs).
Proof.
  revert cs. induction calls as [|[m l] calls IH]; intros cs H0.
  { unfold rr_count. simpl. rewrite Z.add_0_r. done. }
  change (rr_run ((m, l) :: calls) cs) with (rr_run calls (RoundRobin_Select l m cs).2).
  assert (0 ≤ counterFor g (RoundRobin_Select l m cs).2 ∧
    counterFor g (RoundRobin_Select l m cs).2 `mod` 2 ^ 64 =
    (counterFor g cs + (if decide (mt_Group m = g ∧ l ≠ []) then 1 else 0)) `mod` 2 ^ 64) as [Hge Hstep].
  { unfold RoundRobin_Select. destruct l as [|c l]; cbn [snd].
    { rewrite decide_False by naive_solver. rewrite Z.add_0_r. done. }
    unfold counterFor. rewrite lookup_insert. case_decide as Hg.
    - subst. rewrite decide_True by done. simpl. unfold wrapu64.
      pose proof (Z.mod_pos_bound (default 0 (cs !! mt_Group m) + 1) (2 ^ 64) ltac:(lia)).
      split; [lia|]. by rewrite Z.mod_mod.
    - rewrite decide_False by naive_solver. rewrite Z.add_0_r. done. }
  destruct (IH _ Hge) as [-> ?]. split; [|done]. unfold rr_count.
  rewrite filter_cons. rewrite <-Zplus_mod_idemp_l, Hstep, Zplus_mod_idemp_l. simpl.
  case_decide; simpl; f_equal; lia.
Qed.

(** Round robin rotates.  Whatever calls came before, for any groups, the
    next call for a group selects index [n mod len] where [n] counts the
    earlier calls of that group (modulo 2^64); calls for other groups do not
    interfere. *)
Theorem round_robin_rotates (calls : list (RequestMeta * list Candidate)) (meta : RequestMeta)
    (cs : list Candidate) (Hne : cs ≠ []) :
  let n := rr_count (mt_Group meta) calls in
  ∃ c, (RoundRobin_Select cs meta (rr_run calls ∅)).1 = Ret c ∧
    cs !! Z.to_nat ((n `mod` 2 ^ 64) `mod` Z.of_nat (length cs)) = Some c.
Proof.
  intros n. destruct (rr_run_counter (mt_Group meta) calls ∅) as [Hc H0]; [done|].
  change (counterFor (mt_Group meta) ∅) with 0 in Hc. rewrite Z.add_0_l in Hc. fold n in Hc.
  set (k := counterFor _ _) in *.
  assert (0 < length cs)%nat by (destruct cs; [done|simpl; lia]).
  assert (wrapu64 (wrapu64 (k + 1) - 1) = n `mod` 2 ^ 64) as Hidx.
  { unfold wrapu64. rewrite <-Hc, Zminus_mod_idemp_l. f_equal. lia. }
  pose proof (Z.mod_pos_bound (n `mod` 2 ^ 64) (Z.of_nat (length cs)) ltac:(lia)).
  destruct (lookup_lt_is_Some_2 cs (Z.to_nat ((n `mod` 2 ^ 64) `mod` Z.of_nat (length cs)))) as [c Hl];
    [lia|].
  exists c. split; [|done]. unfold RoundRobin_Select. fold k.
  destruct cs as [|c0 cs]; [done|]. cbn [fst]. rewrite Hidx, Hl. done.
Qed.

Lemma round_robin_rotates_witness :
  ∃ c, (RoundRobin_Select demo_cands demo_meta
         (rr_run [(demo_meta, demo_cands); (mkMeta "o" "k" 0 [] "fast", demo_cands)] ∅)).1 = Ret c ∧
    demo_cands !! 1%nat = Some c.
Proof.
  apply (round_robin_rotates [(demo_meta, demo_cands); (mkMeta "o" "k" 0 [] "fast", demo_cands)]
    demo_meta demo_cands). discriminate.
Defined.

(** ** Weighted *)

(** The sum of the positive weights. *)
Definition sumw (l : list Candidate) : Z := foldr (λ c a, Z.max 0 (Weight c) + a) 0 l.

Lemma sumw_nonneg l : 0 ≤ sumw l.
Proof. induction l; simpl; lia. Qed.

Lemma sumw_app l1 l2 : sumw (l1 ++ l2) = sumw l1 + sumw l2.
Proof. induction l1; simpl; lia. Qed.

Lemma weight_total_sumw l : sumw l ≤ max64 → weight_total l = sumw l.
Proof.
  unfold weight_total.
  assert (∀ a, 0 ≤ a → a + sumw l ≤ max64 →
    foldl (λ total c, if Weight c <? 0 then total else wrap64 (total + Weight c)) a l = a + sumw l) as Hs.
  { induction l as [|c l IH]; intros a Ha Hle; simpl in *; [lia|]. pose proof (sumw_nonneg l).
    destruct (Z.ltb_spec (Weight c) 0); [rewrite IH; lia|].
    rewrite wrap64_id by (unfold in64, min64, max64 in *; lia). rewrite IH; lia. }
  intros. by rewrite Hs.
Qed.

(** The walk passes over a prefix whose running sum the pick has reached. *)
Lemma weight_walk_skip pick cursor S0 l1 l2 :
  nonneg_fin pick → nonneg_fin cursor → units cursor = S0 * one_unit → 0 ≤ S0 →
  S0 + sumw l1 < 2 ^ 53 → (S0 + sumw l1) * one_unit ≤ units pick →
  ∃ cursor', nonneg_fin cursor' ∧ units cursor' = (S0 + sumw l1) * one_unit ∧
    weight_walk pick cursor (l1 ++ l2) = weight_walk pick cursor' l2.
Proof.
  intros Hp. revert cursor S0. induction l1 as [|c l1 IH]; intros cursor S0 Hc Hu H0 Hb Hle.
  { exists cursor. simpl. by rewrite Z.add_0_r. }
  simpl in *. pose proof (sumw_nonneg l1). assert (0 < one_unit) by (by apply pow2_pos).
  destruct (Z.leb_spec (Weight c) 0) as [Hw|Hw].
  { rewrite Z.max_l in * by lia. rewrite !Z.add_0_l in *. by apply IH. }
  rewrite Z.max_r in * by lia.
  destruct (f64_of_Z_exact (Weight c)) as [Hfw Huw]; [lia|].
  destruct (f64_of_Z_exact (S0 + Weight c)) as [Hfs Hus]; [lia|].
  destruct (f64_add_exact cursor (f64_of_Z (Weight c)) Hc Hfw _ Hfs) as [Hfa Hua];
    [rewrite Hu, Huw, Hus; lia|].
  rewrite Hu, Huw, <-Z.mul_add_distr_r in Hua.
  rewrite f64_ltb_units by done. rewrite Hua.
  destruct (Z.ltb_spec (units pick) ((S0 + Weight c) * one_unit)); [nia|].
  rewrite Z.add_assoc in *. by apply IH; [..|lia| |].
Qed.

(** The product [k/2^53 * total] in double precision stays within
    representable bounds of the exact product. *)
Lemma pick_bounds k total :
  0 ≤ k < 2 ^ 53 → 0 < total < 2 ^ 53 →
  let pick := f64_mul (rand_Float64 k) (f64_of_Z total) in
  nonneg_fin pick ∧
  (∀ s, 0 ≤ s < 2 ^ 53 → s * 2 ^ 53 ≤ k * total → s * one_unit ≤ units pick) ∧
  (∀ s, 0 < s < 2 ^ 53 → k * total + 2 * s ≤ s * 2 ^ 53 → units pick < s * one_unit).
Proof.
  intros Hk Ht pick. destruct (rand_Float64_units k Hk) as [Hr Hur].
  destruct (f64_of_Z_exact total) as [Hft Hut]; [lia|].
  assert (0 < 2 ^ 1021) by (by apply pow2_pos).
  assert (one_unit = 2 ^ 53 * 2 ^ 1021) as H1 by reflexivity.
  assert (0 < one_unit) by (by apply pow2_pos).
  assert (nonneg_fin pick) as Hp.
  { apply (f64_mul_le _ _ Hr Hft _ Hft). rewrite Hur, Hut. nia. }
  split; [done|]. split.
  - intros s Hs Hle. destruct (f64_of_Z_exact s) as [Hfs Hus]; [lia|]. rewrite <-Hus.
    apply f64_mul_ge; [done..|]. rewrite Hus, Hur, Hut. nia.
  - intros s Hs Hle. set (j := 52 - Z.log2 s).
    assert (0 ≤ Z.log2 s < 53) by (split; [apply Z.log2_nonneg|apply Z.log2_lt_pow2; lia]).
    pose proof (Z.log2_spec s ltac:(lia)) as [Hl1 Hl2].
    assert (2 ^ 53 = 2 ^ j * (2 * 2 ^ Z.log2 s)) as Hj.
    { rewrite <-(Z.pow_succ_r 2 (Z.log2 s)), <-Z.pow_add_r by lia. f_equal. lia. }
    assert (0 < 2 ^ j) by (apply pow2_pos; lia).
    assert (2 ^ Z.succ (Z.log2 s) = 2 * 2 ^ Z.log2 s) as Hsc by (apply Z.pow_succ_r; lia).
    destruct (f64_dyadic_exact (s * 2 ^ j - 1) (- j)) as [Hc Huc]; [|lia|].
    { assert (1 < s * 2 ^ j ∨ s * 2 ^ j = 1) as [|E] by nia; [nia|].
      assert (s = 1) by nia. subst s. exfalso. unfold j in *. change (Z.log2 1) with 0 in *.
      change (2 ^ (52 - 0)) with (2 ^ 52) in *. lia. }
    assert (2 ^ j * 2 ^ (- j + 1074) = one_unit) as Hu1.
    { rewrite <-Z.pow_add_r by lia. unfold one_unit. f_equal. lia. }
    pose proof (pow2_pos (- j + 1074) ltac:(lia)).
    destruct (f64_mul_le _ _ Hr Hft _ Hc) as [_ Hle'].
    { rewrite Huc, Hur, Hut.
      assert (k * total * 2 ^ 1021 ≤ (s * 2 ^ j - 1) * 2 ^ (- j + 1074)); [|nia].
      assert (2 ^ (- j + 1074) = 2 * 2 ^ Z.log2 s * 2 ^ 1021) as ->.
      { rewrite <-(Z.pow_succ_r 2 (Z.log2 s)), <-Z.pow_add_r by lia. f_equal. unfold j. lia. }
      nia. }
    fold pick in Hle'. rewrite Huc in Hle'. nia.
Qed.

Lemma Weighted_Select_pos r l :
  0 < sumw l ≤ max64 →
  Weighted_Select r l =
    match weight_walk (f64_mul r (f64_of_Z (sumw l))) f64_zero l with
    | Some c => Ret c
    | None =>
        match last_positive l with
        | Some c => Ret c
        | None => match last l with Some c => Ret c | None => Panic end
        end
    end.
Proof.
  intros Hs. unfold Weighted_Select. rewrite weight_total_sumw by lia.
  destruct l as [|c l]; [simpl in Hs; lia|]. by destruct (Z.eqb_spec (sumw (c :: l)) 0); [lia|].
Qed.

(** C30: [Weighted] is proportional.  Write [S0] and [S1] for the running
    weight sums before and after a candidate of positive weight.  A draw
    [k / 2^53] with [S0/total <= k/2^53] selects it as long as [k/2^53] is below
    [S1/total] by the margin of double rounding: of the [2^53] equally likely
    draws at most two per candidate boundary fall outside this rule. *)
Theorem weighted_proportional (l1 l2 : list Candidate) (c : Candidate) (k : Z) :
  let l := l1 ++ c :: l2 in
  let S0 := sumw l1 in
  let S1 := S0 + Weight c in
  0 < Weight c → sumw l < 2 ^ 53 → 0 ≤ k < 2 ^ 53 →
  S0 * 2 ^ 53 ≤ k * sumw l → k * sumw l + 2 * S1 ≤ S1 * 2 ^ 53 →
  Weighted_Select (rand_Float64 k) l = Ret c.
Proof.
  intros l S0 S1 Hw Hsum Hk Hlo Hhi.
  assert (sumw l = S1 + sumw l2) as Hl.
  { unfold l, S1, S0. rewrite sumw_app. simpl. lia. }
  pose proof (sumw_nonneg l1). pose proof (sumw_nonneg l2). fold S0 in H.
  destruct (pick_bounds k (sumw l) Hk ltac:(lia)) as (Hp&Hge&Hlt).
  rewrite Weighted_Select_pos by (unfold max64; lia).
  destruct (weight_walk_skip (f64_mul (rand_Float64 k) (f64_of_Z (sumw l))) f64_zero 0 l1 (c :: l2))
    as (cursor&Hc&Hu&Hwalk); [done|done|done|lia|fold S0; lia|apply Hge; fold S0; lia|].
  fold l in Hwalk. rewrite Hwalk. simpl. destruct (Z.leb_spec (Weight c) 0); [lia|].
  destruct (f64_of_Z_exact (Weight c)) as [Hfw Huw]; [lia|].
  destruct (f64_of_Z_exact S1) as [Hfs Hus]; [lia|].
  destruct (f64_add_exact cursor (f64_of_Z (Weight c)) Hc Hfw _ Hfs) as [Hfa Hua];
    [rewrite Hu, Huw, Hus; unfold S1, S0; lia|].
  rewrite f64_ltb_units, Hua, Hu, Huw by done.
  specialize (Hlt S1 ltac:(lia) Hhi). rewrite Z.add_0_l, <-Z.mul_add_distr_r. fold S0 S1.
  destruct (Z.ltb_spec (units (f64_mul (rand_Float64 k) (f64_of_Z (sumw l)))) (S1 * one_unit)); [done|lia].
Qed.

Lemma weighted_proportional_witness :
  Weighted_Select (rand_Float64 (2 ^ 52)) [cand "a" "m1" 0 1 f64_zero f64_zero;
    cand "b" "m2" 0 3 f64_zero f64_zero; cand "c" "m3" 0 6 f64_zero f64_zero] =
  Ret (cand "c" "m3" 0 6 f64_zero f64_zero).
Proof.
  apply (weighted_proportional [cand "a" "m1" 0 1 f64_zero f64_zero;
    cand "b" "m2" 0 3 f64_zero f64_zero] [] (cand "c" "m3" 0 6 f64_zero f64_zero) (2 ^ 52));
    vm_compute; try split; try reflexivity; discriminate.
Defined.

(** ** Every strategy picks one of the candidates *)

Lemma weight_walk_elem pick cursor l c :
  weight_walk pick cursor l = Some c → c ∈ l ∧ 0 < Weight c.
Proof.
  revert cursor. induction l as [|x l IH]; intros cursor; simpl; [done|].
  destruct (Z.leb_spec (Weight x) 0).
  { intros [? ?]%IH. split; [by right|done]. }
  destruct (f64_ltb _ _); [intros [= <-]; split; [by left|lia]|].
  intros [? ?]%IH. split; [by right|done].
Qed.

Lemma last_positive_elem l c : last_positive l = Some c → c ∈ l ∧ 0 < Weight c.
Proof.
  unfold last_positive. intros [? ?]%last_Some_elem_of%list_elem_of_filter. done.
Qed.

Lemma last_positive_None l : last_positive l = None → sumw l = 0.
Proof.
  unfold last_positive. intros Hn%last_None.
  induction l as [|c l IH]; [done|]. rewrite filter_cons in Hn. case_decide; [done|].
  simpl. rewrite IH by done. lia.
Qed.

Lemma weighted_picks k l :
  l ≠ [] → 0 ≤ k < 2 ^ 53 → sumw l ≤ max64 → Z.of_nat (length l) < 2 ^ 53 →
  ∃ c, Weighted_Select (rand_Float64 k) l = Ret c ∧ c ∈ l ∧ (0 < sumw l → 0 < Weight c).
Proof.
  intros Hne Hk Hs Hlen. unfold Weighted_Select. rewrite weight_total_sumw by done.
  assert (0 < length l)%nat by (destruct l; [done|simpl; lia]).
  destruct l as [|c0 l'] eqn:El; [done|]. rewrite <-El in *. clear El Hne.
  destruct (Z.eqb_spec (sumw l) 0) as [H0|H0].
  - destruct (rand_Float64_units k Hk) as [Hr Hur].
    destruct (f64_of_Z_exact (Z.of_nat (length l))) as [Hfn Hun]; [lia|].
    assert (0 < one_unit) by (by apply pow2_pos).
    destruct (f64_mul_le _ _ Hr Hfn _ Hfn) as [Hm Hum].
    { assert (one_unit = 2 ^ 53 * 2 ^ 1021) by reflexivity.
      assert (0 < 2 ^ 1021) by (by apply pow2_pos). rewrite Hur, Hun. nia. }
    rewrite f64_trunc_units; [|done|rewrite Hun in Hum; nia].
    set (idx := units _ / one_unit).
    assert (0 ≤ idx) by (apply Z.div_pos; [by apply units_nonneg|done]).
    set (i := if Z.of_nat (length l) <=? idx then _ else _).
    assert (0 ≤ i < Z.of_nat (length l)) as Hi
      by (unfold i; destruct (Z.leb_spec (Z.of_nat (length l)) idx); lia).
    destruct (Z.ltb_spec i 0); [lia|].
    destruct (lookup_lt_is_Some_2 l (Z.to_nat i)) as [c Hc]; [lia|]. rewrite Hc.
    exists c. split; [done|]. split; [by eapply list_elem_of_lookup_2|lia].
  - destruct (weight_walk _ _ l) as [c|] eqn:Ew.
    { apply weight_walk_elem in Ew as [??]. exists c. done. }
    destruct (last_positive l) as [c|] eqn:Ep.
    { apply last_positive_elem in Ep as [??]. exists c. done. }
    by apply last_positive_None in Ep.
Qed.

(** The instance's own generator only ever draws one of these values. *)
Lemma rng_Float64_draw p : ∃ k, 0 ≤ k < 2 ^ 53 ∧ (rng_Float64 p).1 = rand_Float64 k.
Proof.
  unfold rng_Float64. destruct (PCG_Uint64 p) as [u p']. exists (u `mod` 2 ^ 53).
  split; [by apply Z.mod_pos_bound|done].
Qed.

Lemma Weighted_draw_picks l p :
  l ≠ [] → sumw l ≤ max64 → Z.of_nat (length l) < 2 ^ 53 →
  ∃ c, (Weighted_draw l p).1 = Ret c ∧ c ∈ l ∧ (0 < sumw l → 0 < Weight c).
Proof.
  intros Hne Hs Hlen. destruct (rng_Float64_draw p) as (k&Hk&Hr).
  destruct (weighted_picks k l Hne Hk Hs Hlen) as (c&Hc&Hin). exists c. split; [|done].
  unfold Weighted_draw. destruct l; [done|]. destruct (rng_Float64 p) as [r p']. simpl in Hr. by subst r.
Qed.

Lemma rr_picks cs meta counters :
  cs ≠ [] → ∃ c, (RoundRobin_Select cs meta counters).1 = Ret c ∧ c ∈ cs.
Proof.
  intros Hne. unfold RoundRobin_Select.
  assert (0 < length cs)%nat by (destruct cs; [done|simpl; lia]).
  destruct cs as [|c0 cs'] eqn:E; [done|]. rewrite <-E in *. cbn [fst].
  set (idx := wrapu64 (_ - 1)). pose proof (Z.mod_pos_bound idx (Z.of_nat (length cs)) ltac:(lia)).
  destruct (lookup_lt_is_Some_2 cs (Z.to_nat (idx `mod` Z.of_nat (length cs)))) as [c Hl]; [lia|].
  rewrite Hl. exists c. split; [done|]. by eapply list_elem_of_lookup_2.
Qed.

(** Candidate lists within the sizes the strategies are proved for. *)
Definition sane_candidates (cs : list Candidate) : Prop :=
  sumw cs ≤ max64 ∧ Z.of_nat (length cs) < 2 ^ 53.

Lemma select_total_aux (s : StratState) (cs : list Candidate) (req : ChatCompletionRequest)
    (meta : RequestMeta) (k : Z) (Hne : cs ≠ []) (Hcs : sane_candidates cs)
    (Hk : 0 ≤ k < 2 ^ 53) :
  ∃ c ws s', Select cs req meta (rand_Float64 k) s = (Ret c, ws, s') ∧ c ∈ cs ∧
    strategy_Name s' = strategy_Name s.
Proof.
  destruct Hcs as [Hs Hl]. destruct s as [|counters| |fb wd|fb ew al]; simpl.
  - destruct cs as [|c0 rest]; [done|]. eexists _, _, _. split; [reflexivity|]. split; [|done].
    rewrite priority_scan.
    pose proof (scan_first_min priority_key Z.ltb ltac:(lia) (λ _, True) ltac:(lia)
      (c0 :: rest) ltac:(done)) as Hsc.
    destruct (scan _ _ _) as [[v c]|]; [by eapply first_min_elem|by left].
  - destruct (rr_picks cs meta counters Hne) as (c&Hc&Hin).
    destruct (RoundRobin_Select cs meta counters) as [res cs']. simpl in Hc. subst. by eexists _, _, _.
  - destruct (weighted_picks k cs Hne Hk Hs Hl) as (c&->&Hin&_). by eexists _, _, _.
  - unfold Cost_Select. destruct cs as [|c0 rest] eqn:E; [done|]. rewrite <-E in *.
    destruct (scan _ _ _) as [[v c]|] eqn:Esc.
    + eexists _, _, _. split; [reflexivity|]. split; [|done].
      by eapply scan_elem.
    + destruct (rr_picks cs meta fb Hne) as (c&Hc&Hin). destruct (warnFor _ _ _).
      destruct (RoundRobin_Select cs meta fb) as [res fb']. simpl in Hc. subst res.
      by eexists _, _, _.
  - unfold Latency_Select. rewrite (proj1 (latency_scan_eq ew cs)).
    destruct cs as [|c0 rest] eqn:E; [done|]. rewrite <-E in *.
    destruct (scan _ _ _) as [[v c]|] eqn:Esc; simpl.
    + eexists _, _, _. split; [reflexivity|]. split; [|done]. by eapply scan_elem.
    + destruct (rr_picks cs meta fb Hne) as (c&Hc&Hin).
      destruct (RoundRobin_Select cs meta fb) as [res fb']. simpl in Hc. subst res.
      by eexists _, _, _.
Qed.

(** On a non-empty candidate list every strategy, in any state and for any
    random draw, returns one of the candidates: no error, no panic. *)
Theorem select_total (s : StratState) (cs : list Candidate) (req : ChatCompletionRequest)
    (meta : RequestMeta) (k : Z) (Hne : cs ≠ []) (Hcs : sane_candidates cs)
    (Hk : 0 ≤ k < 2 ^ 53) :
  ∃ c ws s', Select cs req meta (rand_Float64 k) s = (Ret c, ws, s') ∧ c ∈ cs ∧
    strategy_Name s' = strategy_Name s.
Proof. by apply select_total_aux. Qed.

Lemma select_total_witness :
  ∃ c ws s', Select demo_cands demo_req demo_meta (rand_Float64 5) (SCost ∅ ∅) = (Ret c, ws, s') ∧
    c ∈ demo_cands ∧ strategy_Name s' = "cost_optimized".
Proof.
  apply (select_total (SCost ∅ ∅) demo_cands demo_req demo_meta 5).
  - discriminate.
  - split; vm_compute; [discriminate|reflexivity].
  - lia.
Defined.

(** ** The builder *)

Record builder_wf (b : Builder) : Prop := {
  bw_heap n ref : by_name b !! n = Some ref →
    ∃ st, heap b !! ref = Some st ∧ strategy_Name st = n;
  bw_fresh n ref : by_name b !! n = Some ref → (ref < next_ref b)%nat;
}.

Lemma NewBuilder_wf : builder_wf NewBuilder.
Proof. split; intros n ref; simpl; by rewrite lookup_empty. Qed.

Lemma Build_Name exp name st : Build exp name = inr st → strategy_Name st = name.
Proof. unfold Build. repeat case_decide; intros [= <-]; done. Qed.

(** [Build] knows the five documented names and nothing else. *)
Definition known_strategies : list string :=
  ["cost_optimized"; "latency_optimized"; "round_robin"; "weighted"; "priority"].

Lemma Build_known exp name : (∃ st, Build exp name = inr st) ↔ name ∈ known_strategies.
Proof.
  unfold Build, known_strategies. rewrite !elem_of_cons, elem_of_nil.
  repeat case_decide; naive_solver.
Qed.

Lemma Builder_Build_spec exp name b :
  builder_wf b →
  match Builder_Build exp name b with
  | (inl e, b') => Build exp name = inl e ∧ b' = b
  | (inr ref, b') =>
      builder_wf b' ∧ by_name b' !! name = Some ref ∧
      (∃ st, heap b' !! ref = Some st ∧ strategy_Name st = name) ∧
      (∀ n r, by_name b !! n = Some r → by_name b' !! n = Some r) ∧
      (∀ r st, heap b !! r = Some st → (r < next_ref b)%nat → heap b' !! r = Some st)
  end.
Proof.
  intros Hwf. unfold Builder_Build. destruct (by_name b !! name) as [ref|] eqn:E.
  { split; [done|]. split; [done|]. split; [by apply (bw_heap b Hwf)|]. done. }
  destruct (Build exp name) as [e|st] eqn:Eb; [done|]. pose proof (Build_Name _ _ _ Eb) as Hn.
  assert (∀ n r, by_name b !! n = Some r → n ≠ name ∧ r ≠ next_ref b) as Hne.
  { intros n r Hr. split; [congruence|]. pose proof (bw_fresh b Hwf n r Hr). lia. }
  split.
  { split; simpl; intros n r; rewrite lookup_insert; case_decide as Hd.
    - subst n. intros [= <-]. rewrite lookup_insert_eq. by exists st.
    - intros Hr. destruct (Hne _ _ Hr). rewrite lookup_insert_ne by done. by apply (bw_heap b Hwf).
    - intros [= <-]. lia.
    - intros Hr. pose proof (bw_fresh b Hwf n r Hr). lia. }
  simpl. rewrite !lookup_insert_eq. split; [done|]. split; [by exists st|]. split.
  - intros n r Hr. destruct (Hne _ _ Hr). by rewrite lookup_insert_ne.
  - intros r st' Hr Hlt. rewrite lookup_insert_ne by lia. done.
Qed.
