(* ===== verification/Latency.v ===== *)
(** * Latency measurement and the poller

    Models [ProviderLatencyTotals] of src/internal/metrics/metrics.go, which
    reads the provider latency histogram back, and the poller of
    src/internal/router/strategy/latency.go that feeds the differences between
    two readings to [LatencyOptimized]: the goroutine [run], [Observe] and
    [Stop], as a transition system over its two channels.

    [HistVec] is the interface of a Prometheus histogram vector, with its
    documented behaviour: every label set that was observed is collected once,
    with the number and the sum of its observations. *)

From S2P Require Import Prelude GoStrings Float64 Model Metrics Registry Strategies.
From Stdlib Require Import SpecFloat.
Local Open Scope Z_scope.

(** ** The histogram *)

(** [dto.Metric] as [Write] fills it. *)
Record DtoMetric := mkDtoMetric {
  dm_writeErr : bool;
  dm_hist : option (f64 * Z);            (* SampleSum, SampleCount *)
  dm_labels : list (string * string);
}.

Class HistVec (H : Type) := {
  hv_new : Vec → H;
  hv_Observe : list string → f64 → H → H;
  hv_Collect : H → list DtoMetric;
}.

(** What the collected metric says of the observations [vs]. *)
Definition sum_of (vs : list f64) : f64 := foldl f64_add f64_zero vs.
Definition metric_of (names labels : list string) (vs : list f64) : DtoMetric :=
  mkDtoMetric false (Some (sum_of vs, Z.of_nat (length vs))) (zip names labels).

Class HistLaws (H : Type) `{HistVec H} := {
  hv_samples : H → gmap (list string) (list f64);
  hv_names : H → list string;
  hv_new_samples v : hv_samples (hv_new v) = ∅;
  hv_new_names v : hv_names (hv_new v) = vec_labels v;
  hv_Observe_samples ls x h :
    hv_samples (hv_Observe ls x h) = <[ls := default [] (hv_samples h !! ls) ++ [x]]> (hv_samples h);
  hv_Observe_names ls x h : hv_names (hv_Observe ls x h) = hv_names h;
  hv_Collect_perm h :
    hv_Collect h ≡ₚ (λ lv, metric_of (hv_names h) lv.1 lv.2) <$> map_to_list (hv_samples h);
}.

(** An executable instance. *)
Module MapHist.
Record hist := mkhist { names : list string; samples : gmap (list string) (list f64) }.
#[export] Instance ops : HistVec hist := {|
  hv_new v := mkhist (vec_labels v) ∅;
  hv_Observe ls x h := mkhist (names h) (<[ls := default [] (samples h !! ls) ++ [x]]> (samples h));
  hv_Collect h := (λ lv, metric_of (names h) lv.1 lv.2) <$> map_to_list (samples h);
|}.
#[export] Instance laws : HistLaws hist.
Proof. refine {| hv_samples := samples; hv_names := names |}; done. Defined.
End MapHist.

Section Totals.
Context {H : Type} `{HistLaws H}.

(** The provider latency histogram after a log of metric operations. *)
Definition latency_histogram (log : list MetricEvent) : H :=
  foldl (λ h e,
    match e with
    | HistObserve name labels x =>
        if bool_decide (name = vec_name providerRequestDurationSeconds) then hv_Observe labels x h else h
    | _ => h
    end) (hv_new providerRequestDurationSeconds) log.

(** The first label called [name], [""] when there is none. *)
Fixpoint label_value (name : string) (labels : list (string * string)) : string :=
  match labels with
  | [] => ""
  | (n, v) :: labels => if bool_decide (n = name) then v else label_value name labels
  end.

(** One iteration of the loop over the collected metrics. *)
Definition totals_step (out : gmap string LatencyTotal) (m : DtoMetric) : gmap string LatencyTotal :=
  if dm_writeErr m then out
  else match dm_hist m with
  | None => out
  | Some (sum, count) =>
      let provider := label_value "provider" (dm_labels m) in
      if bool_decide (provider = "") then out
      else <[provider := mkLatencyTotal sum count]> out
  end.

Definition ProviderLatencyTotals (h : H) : gmap string LatencyTotal :=
  foldl totals_step ∅ (hv_Collect h).

(** *** Specification *)

(** The durations recorded for a provider, in order. *)
Definition durations (p : string) (log : list MetricEvent) : list f64 :=
  omap (λ e,
    match e with
    | HistObserve name labels x =>
        if bool_decide (name = vec_name providerRequestDurationSeconds ∧ labels = [p]) then Some x else None
    | _ => None
    end) log.

(** Every observation carries one label value, as [RecordProviderRequest]
    makes them. *)
Definition one_label (e : MetricEvent) : Prop :=
  match e with
  | HistObserve name labels _ => name = vec_name providerRequestDurationSeconds → ∃ p, labels = [p]
  | _ => True
  end.

Lemma event_ok_one_label e : event_ok e = true → one_label e.
Proof.
  destruct e as [n l|n l x|n l x]; try done. simpl. intros Hok ->. cbn in Hok. rewrite orb_false_r in Hok.
  destruct l as [|p [|q l]]; try discriminate Hok. by exists p.
Qed.

Lemma durations_app p l1 l2 : durations p (l1 ++ l2) = durations p l1 ++ durations p l2.
Proof. apply omap_app. Qed.

Lemma histogram_snoc log e :
  latency_histogram (log ++ [e]) =
    match e with
    | HistObserve name labels x =>
        if bool_decide (name = vec_name providerRequestDurationSeconds)
        then hv_Observe labels x (latency_histogram log) else latency_histogram log
    | _ => latency_histogram log
    end.
Proof. unfold latency_histogram. rewrite foldl_snoc. by destruct e. Qed.

Lemma histogram_names log : hv_names (latency_histogram log) = ["provider"].
Proof.
  induction log as [|e log IH] using rev_ind; [apply hv_new_names|]. rewrite histogram_snoc.
  destruct e; try done. case_bool_decide; [|done]. by rewrite hv_Observe_names.
Qed.

Lemma histogram_samples log :
  Forall one_label log →
  ∀ ls vs, hv_samples (latency_histogram log) !! ls = Some vs ↔
    ∃ p, ls = [p] ∧ vs = durations p log ∧ vs ≠ [].
Proof.
  induction log as [|e log IH] using rev_ind; intros Hlog ls vs.
  { unfold latency_histogram. simpl. rewrite hv_new_samples, lookup_empty.
    split; [done|]. by intros (p&_&->&[]). }
  apply Forall_app in Hlog as [Hlog He]. rewrite Forall_singleton in He. specialize (IH Hlog).
  rewrite histogram_snoc. setoid_rewrite durations_app.
  destruct e as [n l|n l x|n l x]; try (setoid_rewrite app_nil_r; apply IH).
  simpl. case_bool_decide as Hn.
  2:{ setoid_rewrite bool_decide_false; [|tauto]. setoid_rewrite app_nil_r. apply IH. }
  destruct (He Hn) as [q ->]. rewrite hv_Observe_samples, lookup_insert.
  assert (default [] (hv_samples (latency_histogram log) !! [q]) = durations q log) as ->.
  { destruct (hv_samples (latency_histogram log) !! [q]) as [ws|] eqn:E; simpl.
    - apply IH in E as (p&[= <-]&->&_). done.
    - destruct (durations q log) as [|d ds] eqn:Ed; [done|].
      assert (hv_samples (latency_histogram log) !! [q] = Some (durations q log)) as E2.
      { apply IH. exists q. by rewrite Ed. } congruence. }
  destruct (decide ([q] = ls)) as [<-|Hne].
  - split.
    + intros [= <-]. exists q. rewrite bool_decide_true by done. split_and!; try done.
      by destruct (durations q log).
    + intros (p&[= <-]&->&_). by rewrite bool_decide_true.
  - rewrite IH. split; intros (p&->&->&Hv); exists p; rewrite bool_decide_false in * by naive_solver;
      rewrite app_nil_r in *; done.
Qed.

(** Inserting the totals of distinct providers one after the other. *)
Lemma totals_fold (l : list (list string * list f64)) out p :
  Forall (λ lv, ∃ q, lv.1 = [q]) l → NoDup l.*1 →
  foldl totals_step out ((λ lv, metric_of ["provider"] lv.1 lv.2) <$> l) !! p =
    match list_find (λ lv, lv.1 = [p]) l with
    | Some (_, lv) => if bool_decide (p = "") then out !! p
                      else Some (mkLatencyTotal (sum_of lv.2) (Z.of_nat (length lv.2)))
    | None => out !! p
    end.
Proof.
  revert out. induction l as [|[ls vs] l IH]; intros out Hl Hnd; [done|].
  apply Forall_cons in Hl as [[q Hq] Hl]. simpl in Hq. subst ls.
  simpl in Hnd. apply NoDup_cons in Hnd as [Hfresh Hnd]. cbn [fmap list_fmap foldl]. rewrite IH by done.
  unfold totals_step. simpl. unfold compose. simpl. destruct (decide ([q] = [p])) as [[= ->]|Hne].
  - assert (list_find (λ lv : list string * list f64, lv.1 = [p]) l = None) as ->.
    { apply list_find_None, Forall_forall. intros lv Hlv Heq. apply Hfresh.
      apply list_elem_of_fmap. by exists lv. }
    simpl. case_bool_decide; [done|]. by rewrite lookup_insert_eq.
  - destruct (list_find _ l) as [[i lv]|]; simpl; repeat case_bool_decide; subst; try done;
      rewrite ?lookup_insert_ne by congruence; done.
Qed.

(** The latency totals are exact.  After any sequence of metric operations
    of the gateway, [ProviderLatencyTotals] lists exactly the providers (with
    a non-empty name) for which some call was recorded, each with the number
    of its calls and the sum of their durations, in the order they were
    recorded. *)
Theorem latency_totals_exact (log : list MetricEvent) (p : string)
    (Hlog : Forall one_label log) :
  ProviderLatencyTotals (latency_histogram log) !! p =
    if bool_decide (p = "") then None
    else match durations p log with
    | [] => None
    | vs => Some (mkLatencyTotal (sum_of vs) (Z.of_nat (length vs)))
    end.
Proof.
  unfold ProviderLatencyTotals.
  pose proof (hv_Collect_perm (latency_histogram log)) as Hperm. rewrite histogram_names in Hperm.
  apply Permutation_map_inv in Hperm as (l&->&Hl).
  assert (∀ ls vs, (ls, vs) ∈ l ↔ ∃ q, ls = [q] ∧ vs = durations q log ∧ vs ≠ []) as Hin.
  { intros ls vs. rewrite <-Hl, elem_of_map_to_list. by apply histogram_samples. }
  rewrite totals_fold.
  2:{ apply Forall_forall. intros [ls vs] (q&->&_)%Hin. by exists q. }
  2:{ rewrite <-Hl. apply NoDup_fst_map_to_list. }
  destruct (list_find _ l) as [[i [ls vs]]|] eqn:Hf.
  - apply list_find_Some in Hf as (Hi&Heq&_). simpl in Heq. subst ls.
    apply list_elem_of_lookup_2, Hin in Hi as (q&[= <-]&->&Hne). simpl.
    case_bool_decide; [by rewrite lookup_empty|]. by destruct (durations p log).
  - rewrite lookup_empty. case_bool_decide; [done|].
    destruct (durations p log) as [|d ds] eqn:Hd; [done|]. exfalso.
    apply list_find_None in Hf. eapply (proj1 (Forall_forall _ _) Hf ([p], d :: ds)); [|done].
    apply Hin. exists p. by rewrite Hd.
Qed.

Lemma latency_totals_count log p :
  Forall one_label log → p ≠ "" →
  default (mkLatencyTotal f64_zero 0) (ProviderLatencyTotals (latency_histogram log) !! p) =
    mkLatencyTotal (sum_of (durations p log)) (Z.of_nat (length (durations p log))).
Proof.
  intros Hlog Hp. rewrite latency_totals_exact, bool_decide_false by done.
  by destruct (durations p log).
Qed.

(** ** One tick *)

(** The entry of [p] after a tick, whatever order the totals are visited in. *)
Lemma Observe_other p q s alpha ew : p ≠ q → Observe q s alpha ew !! p = ew !! p.
Proof. intros. unfold Observe. repeat case_match; rewrite ?lookup_insert_ne by done; done. Qed.

Lemma Observe_own p s alpha ew ew' : ew !! p = ew' !! p → Observe p s alpha ew !! p = Observe p s alpha ew' !! p.
Proof.
  intros E. unfold Observe. case_match; [done|]. rewrite E.
  destruct (ew' !! p); by rewrite !lookup_insert_eq.
Qed.

Lemma poll_tick_other prev order alpha ew p :
  p ∉ order.*1 → poll_tick prev order alpha ew !! p = ew !! p.
Proof.
  unfold poll_tick. revert ew. induction order as [|[q c] order IH]; intros ew Hp; [done|].
  cbn [foldl]. rewrite IH by set_solver. case_match; [|done]. apply Observe_other. set_solver.
Qed.

Lemma poll_tick_lookup prev curr order alpha ew p :
  order ≡ₚ map_to_list curr →
  poll_tick prev order alpha ew !! p =
    match curr !! p with
    | None => ew !! p
    | Some c =>
        match poll_sample (default (mkLatencyTotal f64_zero 0) (prev !! p)) c with
        | None => ew !! p
        | Some s => Observe p s alpha ew !! p
        end
    end.
Proof.
  intros Hord.
  assert (NoDup order.*1) as Hnd by (rewrite Hord; apply NoDup_fst_map_to_list).
  destruct (curr !! p) as [c|] eqn:Hc.
  - assert ((p, c) ∈ order) as Hin by (rewrite Hord; by apply elem_of_map_to_list).
    apply list_elem_of_split in Hin as (l1&l2&->). rewrite fmap_app in Hnd. simpl in Hnd.
    apply NoDup_app in Hnd as (_&Hd&Hnd). apply NoDup_cons in Hnd as [Hp2 _].
    assert (p ∉ l1.*1) as Hp1 by (intros Hp1; apply (Hd p Hp1); set_solver).
    pose proof (poll_tick_other prev l1 alpha ew p Hp1) as Hl1.
    unfold poll_tick in Hl1 |- *. rewrite foldl_app. cbn [foldl].
    etrans; [apply (poll_tick_other prev l2); done|]. cbn [fst snd].
    case_match; [|done]. by apply Observe_own.
  - apply poll_tick_other. intros ([q c]&->&Hin)%list_elem_of_fmap.
    rewrite Hord in Hin. apply elem_of_map_to_list in Hin. simpl in Hc. congruence.
Qed.

(** The average a window of calls contributes: the difference of the two sums
    read, clipped at zero, over the number of calls. *)
Definition window_average (before ds : list f64) : f64 :=
  let d := f64_sub (sum_of (before ++ ds)) (sum_of before) in
  f64_div (if f64_ltb d f64_zero then f64_zero else d) (f64_of_Z (Z.of_nat (length ds))).

(** Between two polls of the latency histogram with the metric operations
    [l2] in between, a tick changes the average of a provider exactly when
    [l2] recorded a call of it, and then folds in one sample: the average of
    the new calls.  A provider without traffic keeps its average, and the
    order in which Go iterates the map does not matter. *)
Theorem poll_tick_window (l1 l2 : list MetricEvent) (p : string) (alpha : f64)
    (order : list (string * LatencyTotal)) (ew : gmap string f64)
    (Hlog : Forall one_label (l1 ++ l2)) (Hp : p ≠ "")
    (Hcount : Z.of_nat (length (durations p (l1 ++ l2))) < 2 ^ 64)
    (Hord : order ≡ₚ map_to_list (ProviderLatencyTotals (latency_histogram (l1 ++ l2)))) :
  poll_tick (ProviderLatencyTotals (latency_histogram l1)) order alpha ew !! p =
    match durations p l2 with
    | [] => ew !! p
    | ds => Observe p (window_average (durations p l1) ds) alpha ew !! p
    end.
Proof.
  rewrite (poll_tick_lookup _ _ _ _ _ _ Hord).
  rewrite latency_totals_count by (try done; by apply Forall_app in Hlog as [? _]).
  rewrite latency_totals_exact, bool_decide_false by done.
  rewrite durations_app, length_app in *. set (d1 := durations p l1) in *.
  destruct (durations p l2) as [|d ds] eqn:E2.
  { rewrite app_nil_r. destruct d1 as [|d d1']; [done|]. unfold poll_sample. cbn [Count].
    rewrite Z.ltb_irrefl, Z.sub_diag. done. }
  assert (match d1 ++ d :: ds with [] => None
          | vs => Some (mkLatencyTotal (sum_of vs) (Z.of_nat (length vs))) end =
          Some (mkLatencyTotal (sum_of (d1 ++ d :: ds)) (Z.of_nat (length d1 + length (d :: ds))))) as ->.
  { rewrite <-length_app. by destruct d1. }
  unfold poll_sample. cbn [Count Sum]. set (n := length (d :: ds)) in *.
  assert (0 < n)%nat by (subst n; simpl; lia).
  rewrite (proj2 (Z.ltb_ge _ _)) by lia.
  replace (Z.of_nat (length d1 + n) - Z.of_nat (length d1)) with (Z.of_nat n) by lia.
  rewrite wrapu64_id by lia. rewrite (proj2 (Z.eqb_neq _ _)) by lia. done.
Qed.
End Totals.

(** ** The averages stay within the range of their samples

    Rounding a weighted average can leave the interval its two arguments span.
    It cannot leave an interval between powers of two. *)

Section Envelope.

(** [c] is, in units, zero or a power of two that can be scaled down by
    [2^-53] exactly. *)
Definition pow2_bound (c : Z) : Prop := c = 0 ∨ ∃ j, -1021 ≤ j ≤ 971 ∧ c = 2 ^ (j + 1074).

Definition within (lo hi : Z) (x : f64) : Prop := nonneg_fin x ∧ lo ≤ units x ≤ hi.

(** The double is [m * 2^-53]. *)
Definition grid (m : Z) (a : f64) : Prop := nonneg_fin a ∧ 0 < m < 2 ^ 53 ∧ units a = m * 2 ^ 1021.

Lemma grid_scale m c :
  0 < m < 2 ^ 53 → pow2_bound c → ∃ r, nonneg_fin r ∧ units r * one_unit = m * 2 ^ 1021 * c.
Proof.
  intros Hm [->|(j&Hj&->)]; [exists f64_zero; split; [done|simpl units; lia]|].
  destruct (f64_dyadic_exact m (j - 53)) as [Hr Hu]; [done|lia|].
  exists (f64_dyadic m (j - 53)). split; [done|]. rewrite Hu. unfold one_unit.
  rewrite <-!Z.mul_assoc, <-!Z.pow_add_r by lia. do 2 f_equal. lia.
Qed.

Lemma grid_complement m a : grid m a → grid (2 ^ 53 - m) (f64_sub (f64_of_Z 1) a).
Proof.
  intros (Ha&Hm&Hu). destruct (f64_of_Z_exact 1) as [H1 Hu1]; [lia|].
  destruct (f64_dyadic_exact (2 ^ 53 - m) (-53)) as [Hc Huc]; [lia|lia|].
  change (-53 + 1074) with 1021 in Huc.
  destruct (f64_sub_exact (f64_of_Z 1) a (f64_dyadic (2 ^ 53 - m) (-53))) as [Hs Hus]; try done.
  - rewrite Huc. pose proof (pow2_pos 1021). nia.
  - rewrite Hu1, Hu, Huc. change one_unit with (2 ^ 53 * 2 ^ 1021). lia.
  - split; [done|]. split; [lia|]. by rewrite Hus.
Qed.

Lemma grid_mul m a lo hi x r1 r2 :
  grid m a → within lo hi x → nonneg_fin r1 → nonneg_fin r2 →
  units r1 * one_unit = m * 2 ^ 1021 * lo → units r2 * one_unit = m * 2 ^ 1021 * hi →
  within (units r1) (units r2) (f64_mul a x).
Proof.
  intros (Ha&Hm&Hu) (Hx&Hlo&Hhi) Hr1 Hr2 E1 E2.
  assert (0 < m * 2 ^ 1021) by (pose proof (pow2_pos 1021); nia).
  destruct (f64_mul_le a x Ha Hx r2 Hr2) as [Hn Hle]; [rewrite E2, Hu; by apply Z.mul_le_mono_pos_l|].
  split; [done|]. split; [|done].
  apply f64_mul_ge; [done..|]. rewrite E1, Hu. by apply Z.mul_le_mono_pos_l.
Qed.

(** The bound itself is a double. *)
Lemma pow2_bound_rep c : pow2_bound c → ∃ r, nonneg_fin r ∧ units r = c.
Proof.
  intros [->|(j&Hj&->)]; [by exists f64_zero|].
  destruct (f64_dyadic_exact 1 j) as [Hr Hu]; [lia|lia|]. eexists. split; [done|]. lia.
Qed.

(** One step of the average, for a weight on the grid. *)
Lemma ewma_within m e lo hi x y :
  grid m e → pow2_bound lo → pow2_bound hi → within lo hi x → within lo hi y →
  let alpha := f64_sub (f64_of_Z 1) e in
  within lo hi (f64_add (f64_mul alpha x) (f64_mul (f64_sub (f64_of_Z 1) alpha) y)).
Proof.
  intros He Hlo Hhi Hx Hy alpha.
  assert (grid (2 ^ 53 - m) alpha) as Ha by by apply grid_complement.
  assert (grid m (f64_sub (f64_of_Z 1) alpha)) as Hb.
  { replace m with (2 ^ 53 - (2 ^ 53 - m)) at 1 by lia. by apply grid_complement. }
  set (beta := f64_sub (f64_of_Z 1) alpha) in *. clearbody alpha beta.
  pose proof (proj1 (proj2 Ha)) as Hma. pose proof (proj1 (proj2 Hb)) as Hmb.
  destruct (grid_scale _ lo Hma Hlo) as (al&Hal&Eal). destruct (grid_scale _ hi Hma Hhi) as (ah&Hah&Eah).
  destruct (grid_scale _ lo Hmb Hlo) as (bl&Hbl&Ebl). destruct (grid_scale _ hi Hmb Hhi) as (bh&Hbh&Ebh).
  destruct (grid_mul _ _ _ _ _ _ _ Ha Hx Hal Hah Eal Eah) as (Hna&La&Ua).
  destruct (grid_mul _ _ _ _ _ _ _ Hb Hy Hbl Hbh Ebl Ebh) as (Hnb&Lb&Ub).
  destruct (pow2_bound_rep lo Hlo) as (rl&Hrl&Erl). destruct (pow2_bound_rep hi Hhi) as (rh&Hrh&Erh).
  assert (0 < one_unit) as Hone by (by apply pow2_pos).
  assert (2 ^ 53 * 2 ^ 1021 = one_unit) as Hsplit by reflexivity.
  assert (units al + units bl = lo) by (apply (Z.mul_reg_r _ _ one_unit); [lia|]; nia).
  assert (units ah + units bh = hi) by (apply (Z.mul_reg_r _ _ one_unit); [lia|]; nia).
  destruct (f64_add_le _ _ Hna Hnb rh Hrh) as [Hn Hle]; [lia|].
  split; [done|]. split; [|lia]. rewrite <-Erl. apply f64_add_ge; [done..|]. lia.
Qed.

(** A double of [1/2, 1) is on the grid. *)
Lemma grid_half e : nonneg_fin e → one_unit ≤ 2 * units e → units e < one_unit → ∃ m, grid m e.
Proof.
  intros He Hlo Hhi. assert (0 < one_unit) by (by apply pow2_pos).
  destruct e as [[]|[]| |[] m x]; try done; try (simpl units in Hlo; lia).
  destruct (nonneg_fin_finite m x He) as (Hm&Hx&Hc&_).
  assert (units (S754_finite false m x) = Z.pos m * 2 ^ (x + 1074)) as Hu by (unfold units; lia).
  rewrite Hu in Hlo, Hhi. unfold one_unit in *.
  assert (Z.log2 (Z.pos m * 2 ^ (x + 1074)) = 1073) as Hl.
  { apply Z.log2_unique; [lia|]. change (Z.succ 1073) with 1074. split; [|done].
    apply (Z.mul_le_mono_pos_l _ _ 2); [lia|]. etrans; [|exact Hlo].
    change 2 with (2 ^ 1) at 1. by rewrite <-Z.pow_add_r. }
  rewrite log2_shift in Hl by lia. rewrite fexp_max in Hc.
  exists (Z.pos m). split; [done|]. split; [lia|]. rewrite Hu. repeat f_equal. lia.
Qed.

(** Any sequence of samples. *)
Definition observe_all (alpha : f64) (samples : list (string * f64)) (ewmas : gmap string f64)
    : gmap string f64 :=
  foldl (λ ew ps, Observe ps.1 ps.2 alpha ew) ewmas samples.

(** C31: with the production interval and half-life, the average of a provider
    never leaves the range of its samples: if every sample lies between two
    powers of two (or zero) the average does, is finite and is not negative.
    The only assumption on [math.Exp] is that exp(-5/60) is a double of
    [1/2, 1). *)
Theorem ewma_within_samples (exp : f64 → f64) (samples : list (string * f64)) (p : string)
    (lo hi : Z) (v : f64) :
  let e := exp (f64_div (f64_neg (f64_of_Z defaultLatencyPollInterval)) (f64_of_Z defaultLatencyHalfLife)) in
  let alpha := ewmaAlpha exp defaultLatencyPollInterval defaultLatencyHalfLife in
  nonneg_fin e → one_unit ≤ 2 * units e → units e < one_unit →
  pow2_bound lo → pow2_bound hi →
  Forall (λ ps, ps.1 = p → within lo hi ps.2) samples →
  observe_all alpha samples ∅ !! p = Some v → within lo hi v.
Proof.
  intros e alpha He1 He2 He3 Hlo Hhi Hs. destruct (grid_half e He1 He2 He3) as [m Hm].
  assert (alpha = f64_sub (f64_of_Z 1) e) as -> by reflexivity. clear He1 He2 He3. clearbody e.
  revert v. induction samples as [|[q x] samples IH] using rev_ind; intros v.
  { simpl. by rewrite lookup_empty. }
  apply Forall_app in Hs as [Hs Hx]. rewrite Forall_singleton in Hx. simpl in Hx. specialize (IH Hs).
  unfold observe_all in *. rewrite foldl_snoc. simpl.
  destruct (decide (q = p)) as [->|Hne]; [|rewrite Observe_other by done; apply IH].
  specialize (Hx eq_refl). unfold Observe. case_match; [apply IH|].
  destruct (foldl _ ∅ samples !! p) as [prev|] eqn:Ep; rewrite lookup_insert_eq; intros [= <-]; [|done].
  apply (ewma_within m); auto.
Qed.

(** [exp] is constant: the double nearest to exp(-1/12). *)
Definition exp_demo (_ : f64) : f64 := f64_dyadic 8287023365777853 (-53).

Lemma ewma_within_samples_witness :
  ∃ v, observe_all (ewmaAlpha exp_demo defaultLatencyPollInterval defaultLatencyHalfLife)
         [("openai", f64_of_Z 1); ("google", f64_of_Z 9); ("openai", f64_of_Z 3)] ∅ !! "openai" = Some v ∧
       within (2 ^ 1074) (2 ^ (2 + 1074)) v.
Proof.
  eexists. split; [vm_compute; reflexivity|].
  apply (ewma_within_samples exp_demo [("openai", f64_of_Z 1); ("google", f64_of_Z 9); ("openai", f64_of_Z 3)]
           "openai").
  - vm_compute. split; [reflexivity|]. discriminate.
  - by vm_compute.
  - by vm_compute.
  - right. exists 0. split; [lia|reflexivity].
  - right. exists 2. split; [lia|reflexivity].
  - repeat constructor; simpl; try done; intros _; by vm_compute.
  - vm_compute. reflexivity.
Defined.
End Envelope.

(** ** The poller goroutine and [Stop]

    The goroutine and every call of [Stop] advance on their own, one channel
    operation or map access at a time; the mutex makes a batch of [Observe]
    calls and a [Select] atomic.  The metrics package records calls in
    between. *)

Section Poller.
Context {H : Type} `{HistLaws H}.

(** Where the goroutine is: before the first reading, in the loop with the
    previous reading, or returned. *)
Inductive RunPC := RInit | RLoop (prev : gmap string LatencyTotal) | RDone.

(** Where a call of [Stop] is: before the [select], about to close the
    channel, waiting for [done], returned; or panicked (close of a closed
    channel). *)
Inductive StopPC := SCheck | SClose | SWait | SReturned | SPanic.
#[local] Instance StopPC_eq_dec : EqDecision StopPC.
Proof. solve_decision. Defined.

Record Poller := mkPoller {
  pl_log : list MetricEvent;
  pl_ewmas : gmap string f64;
  pl_alpha : f64;
  pl_stop : bool;                    (* closed *)
  pl_done : bool;                    (* closed *)
  pl_run : RunPC;
  pl_calls : list StopPC;
}.

Definition newLatencyOptimized (exp : f64 → f64) (log : list MetricEvent) (pollInterval halfLife : Z) : Poller :=
  mkPoller log ∅ (ewmaAlpha exp pollInterval halfLife) false false RInit [].

Definition NewLatencyOptimized (exp : f64 → f64) (log : list MetricEvent) : Poller :=
  newLatencyOptimized exp log defaultLatencyPollInterval defaultLatencyHalfLife.

Definition reader (s : Poller) : gmap string LatencyTotal :=
  ProviderLatencyTotals (latency_histogram (pl_log s) : H).

Inductive Act :=
| ARecord (es : list MetricEvent)
| ACall
| AInit
| ATick (order : list (string * LatencyTotal))
| AExit
| AStop (i : nat).

Definition set_run (r : RunPC) (ew : gmap string f64) (d : bool) (s : Poller) : Poller :=
  mkPoller (pl_log s) ew (pl_alpha s) (pl_stop s) d r (pl_calls s).
Definition set_calls (cs : list StopPC) (st : bool) (s : Poller) : Poller :=
  mkPoller (pl_log s) (pl_ewmas s) (pl_alpha s) st (pl_done s) (pl_run s) cs.

(** [run]: when both channels are ready the [select] may take either case. *)
Definition run_init (s : Poller) : option Poller :=
  match pl_run s with
  | RInit => Some (set_run (RLoop (reader s)) (pl_ewmas s) (pl_done s) s)
  | _ => None
  end.
Definition run_tick (order : list (string * LatencyTotal)) (s : Poller) : option Poller :=
  match pl_run s with
  | RLoop prev => Some (set_run (RLoop (reader s)) (poll_tick prev order (pl_alpha s) (pl_ewmas s)) (pl_done s) s)
  | _ => None
  end.
Definition run_exit (s : Poller) : option Poller :=
  match pl_run s with
  | RLoop _ => if pl_stop s then Some (set_run RDone (pl_ewmas s) true s) else None
  | _ => None
  end.

(** [Stop], one operation of the [i]-th call. *)
Definition Stop_step (i : nat) (s : Poller) : option Poller :=
  match pl_calls s !! i with
  | Some SCheck => Some (set_calls (<[i := if pl_stop s then SWait else SClose]> (pl_calls s)) (pl_stop s) s)
  | Some SClose => Some (set_calls (<[i := if pl_stop s then SPanic else SWait]> (pl_calls s)) true s)
  | Some SWait => if pl_done s then Some (set_calls (<[i := SReturned]> (pl_calls s)) (pl_stop s) s) else None
  | _ => None
  end.

Definition poller_step (a : Act) (s : Poller) : option Poller :=
  match a with
  | ARecord es => Some (mkPoller (pl_log s ++ es) (pl_ewmas s) (pl_alpha s) (pl_stop s) (pl_done s) (pl_run s) (pl_calls s))
  | ACall => Some (set_calls (pl_calls s ++ [SCheck]) (pl_stop s) s)
  | AInit => run_init s
  | ATick order => run_tick order s
  | AExit => run_exit s
  | AStop i => Stop_step i s
  end.

(** The runtime's side of a step: a map is iterated in some order, and when
    [seq] is set the calls of [Stop] do not overlap. *)
Definition act_ok (seq : bool) (a : Act) (s : Poller) : Prop :=
  match a with
  | ATick order => order ≡ₚ map_to_list (reader s)
  | ACall => seq = true → Forall (eq SReturned) (pl_calls s)
  | _ => True
  end.

Inductive poller_reach (seq : bool) (s0 : Poller) : Poller → Prop :=
| preach_init : poller_reach seq s0 s0
| preach_step s a s' :
    poller_reach seq s0 s → act_ok seq a s → poller_step a s = Some s' → poller_reach seq s0 s'.

(** The invariant: the channels record the progress of the goroutine. *)
Record poller_inv (s : Poller) : Prop := {
  pi_done : pl_done s = true ↔ pl_run s = RDone;
  pi_stop : pl_run s = RDone → pl_stop s = true;
  pi_wait : SWait ∈ pl_calls s → pl_stop s = true;
  pi_ret : SReturned ∈ pl_calls s → pl_run s = RDone;
}.

(** What sequential calls add: all but one call have returned, and the
    channel is open while a call is about to close it. *)
Definition seq_inv (s : Poller) : Prop :=
  (SPanic ∉ pl_calls s) ∧
  (SClose ∈ pl_calls s → pl_stop s = false) ∧
  ∀ i j c d, pl_calls s !! i = Some c → pl_calls s !! j = Some d →
    c ≠ SReturned → d ≠ SReturned → i = j.

Lemma insert_elem_inv (cs : list StopPC) i c x : x ∈ <[i := c]> cs → x = c ∨ x ∈ cs.
Proof.
  intros [j Hj]%list_elem_of_lookup. destruct (decide (i = j)) as [<-|Hne].
  - apply list_lookup_insert_Some in Hj as [(?&->&?)|[? ?]]; [by left|done].
  - rewrite list_lookup_insert_ne in Hj by done. right. by eapply list_elem_of_lookup_2.
Qed.

Lemma poller_step_inv a s s' : poller_inv s → poller_step a s = Some s' → poller_inv s'.
Proof.
  intros [Hd Hs Hw Hr] Hst. destruct a as [es| | |order| |i]; simpl in Hst.
  - by simplify_eq.
  - simplify_eq. constructor; simpl; try done; intros [?|E%list_elem_of_singleton]%elem_of_app; auto; done.
  - unfold run_init in Hst. destruct (pl_run s) eqn:E; simplify_eq.
    constructor; simpl; try done; [naive_solver|intros; by apply Hr in H2].
  - unfold run_tick in Hst. destruct (pl_run s) eqn:E; simplify_eq.
    constructor; simpl; try done; [naive_solver|intros Hx; by apply Hr in Hx].
  - unfold run_exit in Hst. destruct (pl_run s) eqn:E; try done. destruct (pl_stop s) eqn:Es; simplify_eq.
    constructor; simpl; try done.
  - unfold Stop_step in Hst. pose proof (λ c x, insert_elem_inv (pl_calls s) i c x) as Hins.
    assert (∀ c, pl_calls s !! i = Some c → c ∈ pl_calls s) as Hin by (intros; by eapply list_elem_of_lookup_2).
    destruct (pl_calls s !! i) as [[]|]; try done;
      [destruct (pl_stop s) eqn:Es..|destruct (pl_done s) eqn:Es]; simplify_eq;
      constructor; simpl; try done; naive_solver.
Qed.

Lemma poller_step_seq a s s' :
  poller_inv s → seq_inv s → act_ok true a s → poller_step a s = Some s' → seq_inv s'.
Proof.
  intros [_ _ Hw _] Hseq Hok Hst. pose proof Hseq as (Hp&Hc&Hone). destruct a as [es| | |order| |i]; simpl in Hst.
  - by simplify_eq.
  - simplify_eq. specialize (Hok eq_refl).
    assert (∀ i c, (pl_calls s ++ [SCheck]) !! i = Some c → c ≠ SReturned → i = length (pl_calls s)) as Hlast.
    { intros i c Hi Hne. apply lookup_app_Some in Hi as [Hi|[Hle Hi]].
      - by apply (Forall_lookup_1 _ _ _ _ Hok) in Hi.
      - apply list_lookup_singleton_Some in Hi as [? _]. lia. }
    split; [|split]; simpl.
    + set_solver.
    + intros [?|E%list_elem_of_singleton]%elem_of_app; [auto|done].
    + intros i j c d Hi Hj ? ?. rewrite (Hlast i c), (Hlast j d); done.
  - unfold run_init in Hst. by destruct (pl_run s); simplify_eq.
  - unfold run_tick in Hst. by destruct (pl_run s); simplify_eq.
  - unfold run_exit in Hst. destruct (pl_run s); try done.
    clear Hc. by destruct (pl_stop s); simplify_eq.
  - unfold Stop_step in Hst. destruct (pl_calls s !! i) as [c|] eqn:Ei; [|done].
    assert (∀ d x, x ∈ <[i:=d]> (pl_calls s) → x ≠ SReturned → c ≠ SReturned → x = d) as Honly.
    { intros d x [j Hj]%list_elem_of_lookup Hx Hcr.
      destruct (decide (i = j)) as [<-|Hne]; [apply list_lookup_insert_Some in Hj; naive_solver|].
      rewrite list_lookup_insert_ne in Hj by done. by destruct (Hone i j c x). }
    assert (∀ d st, c ≠ SReturned → d ≠ SPanic → (d = SClose → st = false) →
      seq_inv (set_calls (<[i:=d]> (pl_calls s)) st s)) as Hset.
    { intros d st Hcr Hdp Hds. split; [|split]; simpl.
      - intros Hin. by rewrite (Honly _ _ Hin) in Hdp.
      - intros Hin. apply Hds. symmetry. by apply Honly.
      - intros j k x y Hj Hk Hx Hy. apply list_lookup_insert_Some in Hj, Hk. naive_solver. }
    assert (c = SClose → pl_stop s = false) as Hopen.
    { intros ->. apply Hc. by eapply list_elem_of_lookup_2. }
    destruct c; try done.
    + simplify_eq. destruct (pl_stop s) eqn:Es; apply Hset; done.
    + simplify_eq. rewrite Hopen by done. by apply Hset.
    + destruct (pl_done s); simplify_eq. by apply Hset.
Qed.

Lemma poller_reach_inv seq s0 s : poller_inv s0 → poller_reach seq s0 s → poller_inv s.
Proof. intros Hi. induction 1; eauto using poller_step_inv. Qed.

Lemma poller_reach_seq s0 s : poller_inv s0 → seq_inv s0 → poller_reach true s0 s → seq_inv s.
Proof. intros Hi Hs. induction 1; eauto using poller_step_seq, poller_reach_inv. Qed.

Lemma poller_init_inv exp log pollInterval halfLife :
  poller_inv (newLatencyOptimized exp log pollInterval halfLife) ∧
  seq_inv (newLatencyOptimized exp log pollInterval halfLife).
Proof. split; [constructor; simpl; try done; set_solver|]. split; [set_solver|]. split; [set_solver|done]. Qed.

(** Steps of the goroutine and of the calls already made; no more ticks, no
    more calls. *)
Definition own_step (s s' : Poller) : Prop :=
  ∃ a, match a with AInit | AExit | AStop _ => True | _ => False end ∧ poller_step a s = Some s'.

Lemma own_step_intro a s s' :
  match a with AInit | AExit | AStop _ => True | _ => False end → poller_step a s = Some s' → rtc own_step s s'.
Proof. intros. apply rtc_once. by exists a. Qed.

(** Once the channel is closed the goroutine can return. *)
Lemma runner_exits s :
  poller_inv s → pl_stop s = true →
  ∃ s', rtc own_step s s' ∧ pl_done s' = true ∧ pl_calls s' = pl_calls s ∧ pl_ewmas s' = pl_ewmas s.
Proof.
  intros Hi Hs. destruct (pl_run s) as [|prev|] eqn:Er.
  - eexists. split.
    + eapply rtc_l; [exists AInit; split; [done|]; simpl; unfold run_init; by rewrite Er|].
      apply (own_step_intro AExit); [done|]. simpl. unfold run_exit. simpl. by rewrite Hs.
    + done.
  - eexists. split.
    + apply (own_step_intro AExit); [done|]. simpl. unfold run_exit. by rewrite Er, Hs.
    + done.
  - exists s. split; [done|]. split; [|done]. by apply (pi_done _ Hi).
Qed.

Lemma own_steps_inv s s' : poller_inv s → rtc own_step s s' → poller_inv s'.
Proof. intros Hi. induction 1 as [|x y z (a&_&Hst)]; eauto using poller_step_inv. Qed.

(** A call that waits can return. *)
Lemma wait_returns s i :
  poller_inv s → pl_calls s !! i = Some SWait →
  ∃ s', rtc own_step s s' ∧ pl_calls s' = <[i := SReturned]> (pl_calls s).
Proof.
  intros Hi Hc. destruct (runner_exits s Hi) as (s1&Hs1&Hd&Hcs&_).
  { apply (pi_wait _ Hi). by eapply list_elem_of_lookup_2. }
  eexists. split.
  - etrans; [exact Hs1|]. apply (own_step_intro (AStop i)); [done|]. simpl. unfold Stop_step.
    by rewrite Hcs, Hc, Hd.
  - by rewrite <-Hcs.
Qed.

(** A call that is not yet waiting gets there, unless another call closes the
    channel in between. *)
Lemma stop_reaches_wait s i c :
  pl_calls s !! i = Some c → (c = SClose → pl_stop s = false) → c ∈ [SCheck; SClose; SWait] →
  ∃ s', rtc own_step s s' ∧ pl_calls s' = <[i := SWait]> (pl_calls s).
Proof.
  intros Hc Hopen Hin. assert (i < length (pl_calls s))%nat by (by eapply lookup_lt_Some).
  destruct c; try set_solver.
  - destruct (pl_stop s) eqn:Es.
    + eexists. split; [apply (own_step_intro (AStop i)); [done|]; simpl; unfold Stop_step; by rewrite Hc, Es|done].
    + eexists. split.
      * eapply rtc_l; [exists (AStop i); split; [done|]; simpl; unfold Stop_step; by rewrite Hc, Es|].
        apply (own_step_intro (AStop i)); [done|]. simpl. unfold Stop_step. simpl.
        by rewrite list_lookup_insert_eq by done.
      * simpl. by rewrite list_insert_insert_eq.
  - eexists. split; [apply (own_step_intro (AStop i)); [done|]; simpl; unfold Stop_step; by rewrite Hc, Hopen|done].
  - exists s. split; [done|]. by rewrite list_insert_id.
Qed.

Lemma seq_completes s :
  poller_inv s → seq_inv s → ∃ s', rtc own_step s s' ∧ Forall (eq SReturned) (pl_calls s').
Proof.
  intros Hi (Hp&Hopen&Hone).
  destruct (decide (Forall (eq SReturned) (pl_calls s))) as [Hall|Hnot]; [by exists s|].
  assert (∃ i c, pl_calls s !! i = Some c ∧ c ≠ SReturned) as (i&c&Hc&Hne).
  { apply not_Forall_Exists in Hnot; [|solve_decision]. apply Exists_exists in Hnot as (c&Hin&Hne).
    apply list_elem_of_lookup in Hin as [i Hc]. exists i, c. by split; [|congruence]. }
  assert (c ∈ pl_calls s) by (by eapply list_elem_of_lookup_2).
  destruct (stop_reaches_wait s i c Hc) as (s1&Hs1&Hc1).
  { by intros ->; apply Hopen. }
  { destruct c; set_solver. }
  assert (i < length (pl_calls s))%nat by (by eapply lookup_lt_Some).
  destruct (wait_returns s1 i) as (s2&Hs2&Hc2).
  { by eapply own_steps_inv. } { rewrite Hc1. by apply list_lookup_insert_eq. }
  exists s2. split; [by etrans|]. rewrite Hc2, Hc1, list_insert_insert_eq.
  apply Forall_lookup. intros j d Hd. apply list_lookup_insert_Some in Hd as [(_&<-&_)|[Hij Hd]]; [done|].
  destruct d; try done; by destruct (Hone i j c _ Hc Hd Hne).
Qed.

(** C32: [Stop] stops the poller.  In every execution: when a call of [Stop] has
    returned the goroutine has returned, so no later step of the poller
    changes the averages; and a call that finds the channel closed does not
    touch it again.  When the calls do not overlap, none of them panics and
    the pending one can always run to completion. *)
Theorem stop_protocol (seq : bool) (exp : f64 → f64) (log : list MetricEvent) (s : Poller)
    (Hreach : poller_reach seq (NewLatencyOptimized exp log) s) :
  (SReturned ∈ pl_calls s →
     pl_run s = RDone ∧ ∀ a s', poller_step a s = Some s' → pl_run s' = RDone ∧ pl_ewmas s' = pl_ewmas s) ∧
  (∀ i s', pl_calls s !! i = Some SCheck → pl_stop s = true → poller_step (AStop i) s = Some s' →
     pl_calls s' !! i = Some SWait) ∧
  (seq = true →
     (SPanic ∉ pl_calls s) ∧ ∃ s', rtc own_step s s' ∧ Forall (eq SReturned) (pl_calls s')).
Proof.
  destruct (poller_init_inv exp log defaultLatencyPollInterval defaultLatencyHalfLife) as [Hi0 Hs0].
  pose proof (poller_reach_inv _ _ _ Hi0 Hreach) as Hi. split; [|split].
  - intros Hr%(pi_ret _ Hi). split; [done|]. intros a s' Hst. destruct a; simpl in Hst.
    + by simplify_eq.
    + by simplify_eq.
    + unfold run_init in Hst. by rewrite Hr in Hst.
    + unfold run_tick in Hst. by rewrite Hr in Hst.
    + unfold run_exit in Hst. by rewrite Hr in Hst.
    + unfold Stop_step in Hst. by repeat case_match; simplify_eq.
  - intros i s' Hc Hs. simpl. unfold Stop_step. rewrite Hc, Hs. intros [= <-]. simpl.
    apply list_lookup_insert_eq. by eapply lookup_lt_Some.
  - intros ->. pose proof (poller_reach_seq _ _ Hi0 Hs0 Hreach) as Hs.
    split; [apply Hs|]. by apply seq_completes.
Qed.

(** Executions as lists of actions. *)
Fixpoint run_acts (acts : list Act) (s : Poller) : option Poller :=
  match acts with
  | [] => Some s
  | a :: acts => poller_step a s ≫= run_acts acts
  end.

Fixpoint acts_ok (seq : bool) (acts : list Act) (s : Poller) : Prop :=
  match acts with
  | [] => True
  | a :: acts => act_ok seq a s ∧ match poller_step a s with Some s' => acts_ok seq acts s' | None => True end
  end.

Lemma run_acts_reach seq acts s0 s s' :
  poller_reach seq s0 s → acts_ok seq acts s → run_acts acts s = Some s' → poller_reach seq s0 s'.
Proof.
  revert s. induction acts as [|a acts IH]; simpl; intros s Hs Hok Hrun; [by simplify_eq|].
  destruct Hok as [Ha Hok]. destruct (poller_step a s) as [s1|] eqn:E; [|done].
  apply (IH s1); auto. by econstructor.
Qed.
End Poller.

(** A run: the goroutine polls once, then [Stop] is called and returns. *)
Import MapHist.
Definition demo_log : list MetricEvent :=
  RecordProviderRequest "openai" 200 Second ++ RecordProviderRequest "openai" 200 (3 * Second).

Definition demo_acts : list Act :=
  [AInit; ARecord (RecordProviderRequest "openai" 200 (5 * Second));
   ATick [("openai", mkLatencyTotal (f64_of_Z 9) 3)]; ACall; AStop 0; AStop 0; AExit; AStop 0].

Lemma stop_protocol_witness :
  ∃ s, run_acts (H := hist) demo_acts (NewLatencyOptimized exp_demo demo_log) = Some s ∧
    pl_ewmas s !! "openai" = Some (f64_of_Z 5) ∧ pl_run s = RDone.
Proof.
  destruct (run_acts (H := hist) demo_acts (NewLatencyOptimized exp_demo demo_log)) as [s|] eqn:E;
    [|by vm_compute in E].
  exists s. split; [done|]. split; [by vm_compute in E; simplify_eq|].
  apply (stop_protocol (H := hist) true exp_demo demo_log s); [|vm_compute in E; simplify_eq; left].
  eapply run_acts_reach; [constructor| |exact E].
  vm_compute. repeat (split; [done|]). done.
Defined.

(** Two calls that overlap can both see the open channel; the second close
    panics, although the comment calls [Stop] idempotent and safe to call
    multiple times. *)
Example overlapping_stop_panics :
  (pl_calls <$> run_acts (H := hist) [AInit; ACall; ACall; AStop 0; AStop 1; AStop 0; AStop 1]
     (NewLatencyOptimized exp_demo [])) = Some [SWait; SPanic].
Proof. vm_compute. reflexivity. Qed.

(** The window between two polls in the same run: one new call of five
    seconds. *)
Lemma poll_tick_window_witness :
  poll_tick (ProviderLatencyTotals (latency_histogram demo_log : hist))
    (map_to_list (ProviderLatencyTotals
      (latency_histogram (demo_log ++ RecordProviderRequest "openai" 200 (5 * Second)) : hist)))
    (f64_of_Z 1) ∅ !! "openai" = Some (f64_of_Z 5).
Proof.
  rewrite (poll_tick_window demo_log (RecordProviderRequest "openai" 200 (5 * Second))).
  - vm_compute. reflexivity.
  - repeat constructor; simpl; try done; intros; by eexists.
  - done.
  - by vm_compute.
  - done.
Defined.
