(* ===== verification/Sha256.v ===== *)
(** * SHA-256 and hexadecimal encoding

    The parts of Go's standard library behind src/internal/auth/hash.go:
    [sha256.Sum256] (FIPS 180-4) on 32-bit words kept in [Z], and
    [hex.EncodeToString]. *)

From S2P Require Import Prelude GoStrings.
From Stdlib Require Import Ascii.
Local Open Scope Z_scope.

Definition w32 (z : Z) : Z := z `mod` 2 ^ 32.
Definition add32 (a b : Z) : Z := w32 (a + b).
Definition rotr (n x : Z) : Z := Z.lor (Z.shiftr x n) (w32 (Z.shiftl x (32 - n))).
Definition Ch (x y z : Z) : Z := Z.lxor (Z.land x y) (Z.land (Z.lxor x (2 ^ 32 - 1)) z).
Definition Maj (x y z : Z) : Z := Z.lxor (Z.land x y) (Z.lxor (Z.land x z) (Z.land y z)).
Definition Sigma0 (x : Z) : Z := Z.lxor (rotr 2 x) (Z.lxor (rotr 13 x) (rotr 22 x)).
Definition Sigma1 (x : Z) : Z := Z.lxor (rotr 6 x) (Z.lxor (rotr 11 x) (rotr 25 x)).
Definition sigma0 (x : Z) : Z := Z.lxor (rotr 7 x) (Z.lxor (rotr 18 x) (Z.shiftr x 3)).
Definition sigma1 (x : Z) : Z := Z.lxor (rotr 17 x) (Z.lxor (rotr 19 x) (Z.shiftr x 10)).

(** The constants, as FIPS 180-4 defines them: the first 32 bits of the
    fractional parts of the cube roots (round constants) and square roots
    (initial hash value) of the first primes. *)
Fixpoint primes (fuel : nat) (n : Z) (found : list Z) : list Z :=
  match fuel with
  | O => reverse found
  | S fuel =>
      primes fuel (n + 1) (if existsb (λ p, n `mod` p =? 0) found then found else n :: found)
  end.

(** The integer cube root of [n], by its binary digits from bit [bits - 1]. *)
Fixpoint cbrt (bits : nat) (n acc : Z) : Z :=
  match bits with
  | O => acc
  | S bits =>
      let cand := acc + 2 ^ Z.of_nat bits in
      cbrt bits n (if cand ^ 3 <=? n then cand else acc)
  end.

(** 311 is the 64th prime; [cbrt 311 * 2^32 < 2^36]. *)
Definition first_primes : list Z := Eval vm_compute in primes 310 2 [].
Definition K256 : list Z :=
  Eval vm_compute in (λ p, w32 (cbrt 36 (p * 2 ^ 96) 0)) <$> first_primes.
Definition H256 : list Z :=
  Eval vm_compute in (λ p, w32 (Z.sqrt (p * 2 ^ 64))) <$> take 8 first_primes.

Fixpoint str_bytes (s : string) : list Z :=
  match s with
  | EmptyString => []
  | String a s => Z.of_N (N_of_ascii a) :: str_bytes s
  end.

(** Big-endian bytes of a 64-bit (or 32-bit) number. *)
Definition be_bytes (n : nat) (z : Z) : list Z :=
  (λ i, Z.shiftr z (8 * Z.of_nat (n - 1 - i)) `mod` 256) <$> seq 0 n.

Definition pad (msg : list Z) : list Z :=
  let l := Z.of_nat (length msg) in
  let k := (55 - l) `mod` 64 in
  msg ++ 0x80 :: replicate (Z.to_nat k) 0 ++ be_bytes 8 (8 * l).

Fixpoint words (l : list Z) : list Z :=
  match l with
  | a :: b :: c :: d :: l => (a * 2 ^ 24 + b * 2 ^ 16 + c * 2 ^ 8 + d) :: words l
  | _ => []
  end.

(** The message schedule, newest word first. *)
Fixpoint extend (n : nat) (ws : list Z) : list Z :=
  match n with
  | O => ws
  | S n =>
      let at_ i := default 0 (ws !! i) in
      extend n (add32 (add32 (sigma1 (at_ 1%nat)) (at_ 6%nat))
                      (add32 (sigma0 (at_ 14%nat)) (at_ 15%nat)) :: ws)
  end.

Definition schedule (block : list Z) : list Z := reverse (extend 48 (reverse block)).

Definition round (h : list Z) (kw : Z * Z) : list Z :=
  match h with
  | [a; b; c; d; e; f; g; hh] =>
      let t1 := add32 (add32 hh (Sigma1 e)) (add32 (Ch e f g) (add32 kw.1 kw.2)) in
      let t2 := add32 (Sigma0 a) (Maj a b c) in
      [add32 t1 t2; a; b; c; add32 d t1; e; f; g]
  | _ => h
  end.

Definition compress (h block : list Z) : list Z :=
  zip_with add32 h (foldl round h (zip K256 (schedule block))).

Fixpoint blocks (fuel : nat) (ws : list Z) : list (list Z) :=
  match fuel, ws with
  | S fuel, _ :: _ => take 16 ws :: blocks fuel (drop 16 ws)
  | _, _ => []
  end.

Definition Sum256 (msg : list Z) : list Z :=
  let ws := words (pad msg) in
  foldl compress H256 (blocks (length ws) ws) ≫= be_bytes 4.

(** [hex.EncodeToString]. *)
Definition hex_char (n : Z) : ascii := hex_digit (Z.to_nat n).

Fixpoint EncodeToString (l : list Z) : string :=
  match l with
  | [] => ""
  | b :: l => String (hex_char (b / 16)) (String (hex_char (b `mod` 16)) (EncodeToString l))
  end.

(** src/internal/auth/hash.go *)
Definition HashKey (plaintext : string) : string := EncodeToString (Sum256 (str_bytes plaintext)).

(** FIPS 180-4 test vectors. *)
Example sha256_abc :
  HashKey "abc" = "ba7816bf8f01cfea414140de5dae2223b00361a396177a9cb410ff61f20015ad".
Proof. vm_compute. reflexivity. Qed.

Example sha256_empty :
  HashKey "" = "e3b0c44298fc1c149afbf4c8996fb92427ae41e4649b934ca495991b7852b855".
Proof. vm_compute. reflexivity. Qed.

Example sha256_two_blocks :
  HashKey "abcdbcdecdefdefgefghfghighijhijkijkljklmklmnlmnomnopnopq" =
  "248d6a61d20638b8e5c026930c3e6039a33ce45964ff2167f6ecedd419db06c1".
Proof. vm_compute. reflexivity. Qed.

(** ** The digest is always 64 lower-case hexadecimal characters *)

Lemma round_length h kw : length h = 8%nat → length (round h kw) = 8%nat.
Proof. by do 9 (destruct h as [|? h]; try done). Qed.

Lemma compress_length h block : length h = 8%nat → length (compress h block) = 8%nat.
Proof.
  intros Hh. unfold compress. rewrite length_zip_with.
  assert (∀ l h0, length h0 = 8%nat → length (foldl round h0 l) = 8%nat) as Hf.
  { induction l as [|kw l IH]; intros h0 H0; [done|]. simpl. apply IH. by apply round_length. }
  rewrite Hf by done. lia.
Qed.

Lemma Sum256_length msg : length (Sum256 msg) = 32%nat.
Proof.
  unfold Sum256. generalize (blocks (length (words (pad msg))) (words (pad msg))) as bs.
  assert (∀ bs h, length h = 8%nat → length (foldl compress h bs) = 8%nat) as Hf.
  { induction bs as [|b bs IH]; intros h Hh; [done|]. simpl. apply IH. by apply compress_length. }
  intros bs. specialize (Hf bs H256 eq_refl).
  assert (∀ l : list Z, length (l ≫= be_bytes 4) = (4 * length l)%nat) as Hb.
  { induction l as [|x l IH]; [done|]. rewrite bind_cons, length_app, IH. rewrite length_cons.
    unfold be_bytes. rewrite length_fmap, length_seq. lia. }
  rewrite Hb, Hf. done.
Qed.

Lemma EncodeToString_length l : String.length (EncodeToString l) = (2 * length l)%nat.
Proof. induction l as [|b l IH]; [done|]. simpl. rewrite IH. lia. Qed.

Lemma HashKey_length s : String.length (HashKey s) = 64%nat.
Proof. unfold HashKey. by rewrite EncodeToString_length, Sum256_length. Qed.

Lemma HashKey_nonempty s : HashKey s ≠ "".
Proof. intros H. pose proof (HashKey_length s) as Hl. by rewrite H in Hl. Qed.
