(* ===== verification/Lua.v ===== *)
(** * Numbers of Lua scripts

    A Lua number is an IEEE double.  The rate limiter's scripts compute with
    whole numbers only, so a number is modelled by the integer it is equal to:
    [lua_number n] is the double nearest to [n], ties to even (what [tonumber]
    makes of a decimal numeral, and what rounds every sum and difference).
    Up to [2^53] it is [n]; above, it is not, and the lemmas here say what is
    still true there. *)

From S2P Require Import Prelude Float64.
Local Open Scope Z_scope.

Definition lua_number (n : Z) : Z :=
  let a := Z.abs n in
  let k := Z.log2 a - 52 in
  if k <=? 0 then n
  else
    let q := a / 2 ^ k in
    let h := a mod 2 ^ k in
    let up := (2 ^ (k - 1) <? h) || ((h =? 2 ^ (k - 1)) && Z.odd q) in
    Z.sgn n * ((if up then q + 1 else q) * 2 ^ k).

(** It is the rounding of the double-precision model. *)
Example lua_number_f64 :
  Forall (λ n, f64_of_Z n = f64_of_Z (lua_number n) ∧ f64_trunc (f64_of_Z n) = lua_number n)
    [0; 7; -7; 2 ^ 53; 2 ^ 53 + 1; 2 ^ 53 + 2; 2 ^ 53 + 3; - 2 ^ 53 - 1; 2 ^ 54 + 2; 2 ^ 54 + 6; 2 ^ 61 + 12345; 2 ^ 62 - 1].
Proof. repeat (constructor; [vm_compute; split; reflexivity|]). constructor. Qed.

Lemma lua_number_small n : Z.abs n < 2 ^ 53 → lua_number n = n.
Proof.
  intros Hn. unfold lua_number. destruct (Z.leb_spec (Z.log2 (Z.abs n) - 52) 0) as [|Hk]; [done|].
  destruct (Z.eq_dec n 0) as [->|Hne]; [done|].
  assert (Z.log2 (Z.abs n) < 53) by (apply Z.log2_lt_pow2; lia). lia.
Qed.

Lemma lua_number_exact n : Z.abs n ≤ 2 ^ 53 → lua_number n = n.
Proof.
  intros Hn. destruct (Z.eq_dec n (2 ^ 53)) as [->|]; [reflexivity|].
  destruct (Z.eq_dec n (- 2 ^ 53)) as [->|]; [reflexivity|]. apply lua_number_small. lia.
Qed.

(** The two candidates of a large positive number. *)
Lemma lua_number_large n :
  2 ^ 53 ≤ n →
  let k := Z.log2 n - 52 in
  let q := n / 2 ^ k in
  let h := n mod 2 ^ k in
  let up := (2 ^ (k - 1) <? h) || ((h =? 2 ^ (k - 1)) && Z.odd q) in
  0 < k ∧ 2 ^ 52 ≤ q < 2 ^ 53 ∧ 0 ≤ h < 2 ^ k ∧ n = q * 2 ^ k + h ∧
  lua_number n = (if up then q + 1 else q) * 2 ^ k.
Proof.
  intros Hn k q h up. pose proof (Z.log2_spec n ltac:(lia)) as [Hlo Hhi].
  assert (53 ≤ Z.log2 n) as Hl by (apply Z.log2_le_pow2; lia).
  assert (0 < 2 ^ k) as Hp by (apply pow2_pos; lia).
  pose proof (Z.div_mod n (2 ^ k) ltac:(lia)) as Hdm. pose proof (Z.mod_pos_bound n (2 ^ k) Hp).
  assert (2 ^ Z.log2 n = 2 ^ 52 * 2 ^ k) as E1 by (rewrite <-Z.pow_add_r by lia; f_equal; lia).
  assert (2 ^ Z.succ (Z.log2 n) = 2 ^ 53 * 2 ^ k) as E2 by (rewrite <-Z.pow_add_r by lia; f_equal; lia).
  fold q h in Hdm. split; [lia|]. split.
  { split; [apply Z.div_le_lower_bound; lia|apply Z.div_lt_upper_bound; lia]. }
  split; [done|]. split; [lia|]. unfold lua_number. rewrite Z.abs_eq, Z.sgn_pos by lia. fold k q h up.
  destruct (Z.leb_spec k 0); [lia|]. apply Z.mul_1_l.
Qed.

Lemma lua_number_bracket n : 2 ^ 53 ≤ n → 2 ^ Z.log2 n ≤ lua_number n ≤ 2 ^ (Z.log2 n + 1).
Proof.
  intros Hn. destruct (lua_number_large n Hn) as (Hk&Hq&_&_&->).
  replace (Z.log2 n) with (52 + (Z.log2 n - 52)) at 1 by lia.
  replace (Z.log2 n + 1) with (53 + (Z.log2 n - 52)) by lia.
  set (k := Z.log2 n - 52) in *. clearbody k. rewrite !Z.pow_add_r by lia. pose proof (pow2_pos k ltac:(lia)).
  case_match; nia.
Qed.

(** Rounding keeps the order of non-negative numbers. *)
Lemma lua_number_mono a b : 0 ≤ a ≤ b → lua_number a ≤ lua_number b.
Proof.
  intros Hab. destruct (Z.lt_ge_cases a (2 ^ 53)) as [Ha|Ha].
  { rewrite (lua_number_small a) by lia. destruct (Z.lt_ge_cases b (2 ^ 53)); [rewrite lua_number_small; lia|].
    pose proof (lua_number_bracket b ltac:(lia)). assert (2 ^ 53 ≤ 2 ^ Z.log2 b); [|lia].
    apply Z.pow_le_mono_r; [lia|]. apply Z.log2_le_pow2; lia. }
  pose proof (Z.log2_le_mono a b ltac:(lia)) as Hl.
  destruct (Z.eq_dec (Z.log2 a) (Z.log2 b)) as [E|E].
  - destruct (lua_number_large a Ha) as (Hk&_&Hra&Hea&->), (lua_number_large b ltac:(lia)) as (_&_&Hrb&Heb&->).
    rewrite E in *. set (k := Z.log2 b - 52) in *. pose proof (pow2_pos k ltac:(lia)).
    destruct (Z.lt_trichotomy (a / 2 ^ k) (b / 2 ^ k)) as [Hq|[Hq|Hq]]; [|clear Hk|nia].
    { repeat match goal with |- context [if ?b then _ else _] => destruct b end; nia. }
    rewrite Hq in *. assert (a mod 2 ^ k ≤ b mod 2 ^ k) as Hh by lia. apply Z.mul_le_mono_nonneg_r; [lia|].
    destruct (Z.ltb_spec (2 ^ (k - 1)) (a mod 2 ^ k)), (Z.ltb_spec (2 ^ (k - 1)) (b mod 2 ^ k)),
      (Z.eqb_spec (a mod 2 ^ k) (2 ^ (k - 1))), (Z.eqb_spec (b mod 2 ^ k) (2 ^ (k - 1)));
      cbn [orb andb]; try lia; destruct (Z.odd _); lia.
  - pose proof (lua_number_bracket a Ha). pose proof (lua_number_bracket b ltac:(lia)).
    assert (2 ^ (Z.log2 a + 1) ≤ 2 ^ Z.log2 b); [apply Z.pow_le_mono_r; lia|lia].
Qed.

Lemma lua_number_pos n : (0 <? lua_number n) = (0 <? n).
Proof.
  destruct (Z.ltb_spec 0 n) as [Hn|Hn].
  - apply Z.ltb_lt. pose proof (lua_number_mono 1 n ltac:(lia)) as H1. change (lua_number 1) with 1 in H1. lia.
  - apply Z.ltb_ge. unfold lua_number. case_match; [done|].
    destruct (Z.eq_dec n 0) as [->|]; [done|]. rewrite Z.sgn_neg by lia.
    assert (0 ≤ Z.abs n / 2 ^ (Z.log2 (Z.abs n) - 52)) by (apply Z.div_pos; [lia|apply pow2_pos; lia]).
    pose proof (pow2_pos (Z.log2 (Z.abs n) - 52)). case_match; nia.
Qed.

(** Numbers of [2^53] and more stay there. *)
Lemma lua_number_ge n : 2 ^ 53 ≤ n → 2 ^ 53 ≤ lua_number n.
Proof. intros Hn. apply (lua_number_mono (2 ^ 53) n). lia. Qed.

(** A running sum of numerals that are not negative: exact as long as the
    total does not exceed [2^53], and at least [2^53] from there on. *)
Lemma lua_sum_exact xs a :
  0 ≤ a → Forall (λ x, 0 ≤ x) xs →
  let v := foldl (λ t x, lua_number (t + lua_number x)) a xs in
  let s := a + foldr Z.add 0 xs in
  (s ≤ 2 ^ 53 → v = s) ∧ (2 ^ 53 ≤ s → 2 ^ 53 ≤ v).
Proof.
  intros Ha Hxs. revert a Ha. induction Hxs as [|x xs Hx Hxs IH]; intros a Ha; [cbn; lia|].
  cbn [foldl foldr]. assert (0 ≤ foldr Z.add 0 xs) by (clear -Hxs; induction Hxs; cbn; lia).
  destruct (Z.le_gt_cases (a + x) (2 ^ 53)) as [Hle|Hgt].
  - rewrite (lua_number_exact x), (lua_number_exact (a + x)) by lia. rewrite Z.add_assoc. apply IH. lia.
  - assert (2 ^ 53 ≤ a + lua_number x).
    { destruct (Z.le_gt_cases x (2 ^ 53)); [rewrite lua_number_exact; lia|].
      pose proof (lua_number_ge x ltac:(lia)). lia. }
    pose proof (lua_number_ge (a + lua_number x) ltac:(lia)) as Hge.
    destruct (IH (lua_number (a + lua_number x)) ltac:(lia)) as [_ H2]. split; [lia|]. intros _. apply H2. lia.
Qed.
