(* ===== verification/Redis.v ===== *)
(** * The Redis sorted-set interface

    Redis itself is not part of the repository.  The Lua scripts under
    src/internal/ratelimit call a handful of its commands; [RedisOps] is the
    signature of those commands over an abstract database type, and
    [RedisLaws] states the documented behaviour the scripts rely on, in terms
    of two observations: [zset d k], the member-to-score map stored under [k]
    (empty when the key does not exist), and [deadline d k], the instant (ms)
    at which the key's time-to-live ends.  A score is a double; the scripts
    store whole numbers only, and the map holds the integer the score is equal
    to.  Everything proved about the rate limiter is proved against this
    interface.

    [MapRedis] is an executable instance, used to evaluate the limiter on
    concrete inputs and to show that the laws can hold together. *)

From S2P Require Import Prelude GoStrings Lua.
From stdpp Require Import sorting.
Local Open Scope Z_scope.

(** ** The order of a sorted set: by score, then by member *)

Definition entry_le (x y : string * Z) : Prop :=
  x.2 < y.2 ∨ (x.2 = y.2 ∧ String.le x.1 y.1).
#[export] Instance entry_le_dec : RelDecision entry_le.
Proof. intros x y. unfold entry_le. apply _. Defined.
#[export] Instance entry_le_total : Total entry_le.
Proof.
  intros [m s] [m' s']. unfold entry_le; simpl.
  destruct (Z.lt_trichotomy s s') as [|[->|]]; [by left; left| |by right; left].
  destruct (total String.le m m'); eauto.
Qed.
#[export] Instance entry_le_trans : Transitive entry_le.
Proof.
  intros [m s] [m' s'] [m'' s'']. unfold entry_le; simpl.
  intros [?|[-> ?]] [?|[-> ?]]; try (left; lia). right. split; [done|]. by etrans.
Qed.

Definition zordered (m : gmap string Z) : list (string * Z) := merge_sort entry_le (map_to_list m).

Lemma zordered_perm m : zordered m ≡ₚ map_to_list m.
Proof. apply merge_sort_Permutation. Qed.

Lemma zordered_elem z m s : (m, s) ∈ zordered z ↔ z !! m = Some s.
Proof. by rewrite zordered_perm, elem_of_map_to_list. Qed.

(** ** Signature *)

Class RedisOps (db : Type) := {
  zset : db → string → gmap string Z;
  deadline : db → string → option Z;
  (** [ZREMRANGEBYSCORE key -inf max] *)
  ZREMRANGEBYSCORE : string → Z → db → db;
  ZCARD : string → db → Z;
  (** [ZRANGE key 0 -1] *)
  ZRANGE_ALL : string → db → list string;
  (** [ZRANGE key 0 0 WITHSCORES] *)
  ZRANGE_FIRST : string → db → option (string * Z);
  ZADD : string → Z → string → db → db;
  (** [EXPIRE key seconds], executed at the given server time (ms) *)
  EXPIRE : Z → string → Z → db → db;
  (** key expiry when the server clock reaches the given time (ms) *)
  expire_due : Z → db → db;
  (** Lua's [tonumber] on a string, where the result is a whole number *)
  tonumber : string → option Z;
  (** the integer reply a Lua number becomes when a script returns it *)
  reply_integer : Z → Z;
}.

(** ** Documented behaviour *)

Class RedisLaws (db : Type) `{RedisOps db} := {
  zset_ZREMRANGEBYSCORE d k hi k' :
    zset (ZREMRANGEBYSCORE k hi d) k' =
      if decide (k = k') then filter (λ kv, hi < kv.2) (zset d k) else zset d k';
  deadline_ZREMRANGEBYSCORE d k hi k' :
    deadline (ZREMRANGEBYSCORE k hi d) k' = deadline d k' ∨
    deadline (ZREMRANGEBYSCORE k hi d) k' = None;
  ZCARD_size d k : ZCARD k d = Z.of_nat (size (zset d k));
  ZRANGE_ALL_ordered d k : ZRANGE_ALL k d = (zordered (zset d k)).*1;
  ZRANGE_FIRST_None d k : ZRANGE_FIRST k d = None ↔ zset d k = ∅;
  ZRANGE_FIRST_Some d k m s :
    ZRANGE_FIRST k d = Some (m, s) →
    zset d k !! m = Some s ∧ ∀ m' s', zset d k !! m' = Some s' → s ≤ s';
  zset_ZADD d k s m k' :
    zset (ZADD k s m d) k' = if decide (k = k') then <[m := s]> (zset d k) else zset d k';
  deadline_ZADD d k s m k' : deadline (ZADD k s m d) k' = deadline d k';
  zset_EXPIRE d t k n k' : zset (EXPIRE t k n d) k' = zset d k';
  deadline_EXPIRE_eq d t k n :
    zset d k ≠ ∅ → deadline (EXPIRE t k n d) k = Some (t + 1000 * n);
  deadline_EXPIRE_ne d t k n k' :
    k ≠ k' → deadline (EXPIRE t k n d) k' = deadline d k';
  zset_expire_due d t k :
    zset (expire_due t d) k =
      match deadline d k with
      | Some dl => if decide (dl ≤ t) then ∅ else zset d k
      | None => zset d k
      end;
  deadline_expire_due d t k :
    deadline (expire_due t d) k = deadline d k ∨ deadline (expire_due t d) k = None;
  tonumber_Itoa n : 0 ≤ n → tonumber (Itoa n) = Some (lua_number n);
  reply_integer_in64 n : in64 n → reply_integer n = n;
}.

(** ** An executable instance *)

Module MapRedis.
Record db := mkdb {
  sets : gmap string (gmap string Z);
  dls : gmap string Z;
}.

Definition empty_db : db := {| sets := ∅; dls := ∅ |}.

Definition get (d : db) (k : string) : gmap string Z := default ∅ (sets d !! k).

(** The key has not reached its deadline at time [t]. *)
Definition live (t : Z) (d : db) (k : string) : bool :=
  match dls d !! k with Some dl => t <? dl | None => true end.

(** The decimal literals of Lua's [tonumber], and the conversion of a number
    to an integer reply as amd64 does it. *)
Definition lua_tonumber (s : string) : option Z := lua_number <$> parse_digits s.
Definition lua_reply (n : Z) : Z := if (min64 <=? n) && (n <=? max64) then n else min64.

#[global] Instance ops : RedisOps db := {|
  zset := get;
  deadline d k := dls d !! k;
  ZREMRANGEBYSCORE k hi d :=
    let m := filter (λ kv, hi < kv.2) (get d k) in
    {| sets := <[k := m]> (sets d);
       dls := if decide (m = ∅) then delete k (dls d) else dls d |};
  ZCARD k d := Z.of_nat (size (get d k));
  ZRANGE_ALL k d := (zordered (get d k)).*1;
  ZRANGE_FIRST k d := head (zordered (get d k));
  ZADD k s m d := {| sets := <[k := <[m := s]> (get d k)]> (sets d); dls := dls d |};
  EXPIRE t k n d :=
    if decide (get d k = ∅) then d
    else {| sets := sets d; dls := <[k := t + 1000 * n]> (dls d) |};
  expire_due t d :=
    {| sets := filter (λ kv, live t d kv.1) (sets d);
       dls := filter (λ kv, t < kv.2) (dls d) |};
  tonumber := lua_tonumber;
  reply_integer := lua_reply;
|}.

Lemma get_insert d k m k' dl :
  get {| sets := <[k := m]> (sets d); dls := dl |} k' =
    if decide (k = k') then m else get d k'.
Proof. unfold get; simpl. rewrite lookup_insert. by case_decide. Qed.

Lemma head_first z m s :
  head (zordered z) = Some (m, s) →
  z !! m = Some s ∧ ∀ m' s', z !! m' = Some s' → s ≤ s'.
Proof.
  intros Hhd. pose proof (StronglySorted_merge_sort entry_le (map_to_list z)) as Hss.
  fold (zordered z) in Hss. destruct (zordered z) as [|x l] eqn:E; [done|].
  injection Hhd as ->. split.
  - apply zordered_elem. rewrite E. by left.
  - intros m' s' Hl. apply zordered_elem in Hl. rewrite E in Hl.
    apply elem_of_cons in Hl as [[= -> ->]|Hl]; [lia|].
    apply StronglySorted_inv in Hss as [_ Hall]. rewrite Forall_forall in Hall.
    specialize (Hall _ Hl). unfold entry_le in Hall; simpl in Hall. lia.
Qed.

Lemma head_none z : head (zordered z) = None ↔ z = ∅.
Proof.
  rewrite <- map_to_list_empty_iff. pose proof (zordered_perm z) as Hp.
  destruct (zordered z) as [|x l]; simpl; split; try done; intros H.
  - symmetry in Hp. by apply Permutation_nil_r in Hp.
  - rewrite H in Hp. by apply Permutation_nil_r in Hp.
Qed.

#[global] Instance laws : RedisLaws db.
Proof.
  split; simpl.
  - intros. apply get_insert.
  - intros d k hi k'. case_decide; [|by left].
    rewrite lookup_delete. case_decide; [by right|by left].
  - done.
  - done.
  - intros. apply head_none.
  - intros. by apply head_first.
  - intros. apply get_insert.
  - done.
  - intros d t k n k'. by case_decide.
  - intros d t k n Hne. case_decide; [done|]. simpl. apply lookup_insert_eq.
  - intros d t k n k' Hne. case_decide; [done|]. simpl. by apply lookup_insert_ne.
  - intros d t k. unfold get; simpl. rewrite map_lookup_filter.
    destruct (sets d !! k) as [m|]; simpl;
      destruct (dls d !! k) as [dl|] eqn:Hdl; simpl; repeat case_guard; simpl;
      unfold live in *; simpl in *; rewrite ?Hdl in *; repeat case_decide; try done; try lia;
      rewrite ?Is_true_true, ?Z.ltb_lt in *; try done; lia.
  - intros d t k. rewrite map_lookup_filter.
    destruct (dls d !! k); simpl; [|by left]. case_guard; simpl; [by left|by right].
  - intros n Hn. unfold lua_tonumber. by rewrite parse_digits_Itoa.
  - intros n [H1 H2]. unfold lua_reply. by rewrite (proj2 (Z.leb_le _ _) H1), (proj2 (Z.leb_le _ _) H2).
Qed.
End MapRedis.
