(* ===== verification/RateLimit.v ===== *)
(** * The sliding-window rate limiter

    Models src/internal/ratelimit: the two Lua scripts (check.lua,
    tpm_record.lua) as functions on a Redis database, and the Go limiter
    around them (limiter.go): effective limits, key names, request-id
    generation, [Reserve], [AllowRequest] and [RecordTokens].  A script runs
    atomically inside Redis, so a concurrent execution of the gateway is a
    sequence of script executions ([Event], [run]).

    Times are Unix milliseconds, as the code passes them to the scripts; the
    process-wide state of the package (the request-id counter) and the Redis
    database form the state [LimState]. *)

From S2P Require Import Prelude GoStrings Sha256 Lua Redis.
From Stdlib Require Import Ascii.
Local Open Scope Z_scope.

(** ** Data *)

(** [auth.KeyInfo] (aliased as [ratelimit.KeyInfo]). *)
Record KeyInfo := mkKeyInfo {
  KeyID : string;
  OrgID : string;
  KName : string;
  RPM : Z;
  TPM : Z;
  Scopes : list string;
  ExpiresAt : option Z;
}.

#[export] Instance KeyInfo_eq_dec : EqDecision KeyInfo.
Proof. solve_decision. Defined.

Record RateLimitConfig := mkRateLimitConfig {
  RLEnabled : bool;
  DefaultRPM : Z;
  DefaultTPM : Z;
}.

Record Reservation := mkReservation {
  Allowed : bool;
  Limit : Z;
  Remaining : Z;
  Reset_ : Z;
  TpmLimit : Z;
  TpmRemaining : Z;
  TpmReset : Z;
  RetryAfter : Z;
}.

(** A Go [interface{}] reply value: an [int64], or anything else. *)
Inductive ReplyVal :=
| RInt (n : Z)
| ROther (go_type : string).

Record checkResult := mkCheckResult {
  allowed : bool;
  code : Z;
  rpmUsed : Z;
  rpmOldestMs : Z;
  tpmUsed : Z;
  tpmOldestMs : Z;
}.

Record redisLimiter := mkRedisLimiter {
  window : Z;
  defaultRPM : Z;
  defaultTPM : Z;
}.

Definition rejectRPM : Z := 1.
Definition rejectTPM : Z := 2.

(** ** The Lua scripts *)

Section Scripts.
Context {db : Type} `{RedisOps db}.

Definition oldest_score (now : Z) (key : string) (d : db) : Z :=
  match ZRANGE_FIRST key d with
  | Some (_, s) => s
  | None => now
  end.

(** The token count a TPM member carries after its last colon, if it parses. *)
Definition member_number (m : string) : option Z :=
  match after_last ":"%char m with
  | Some suffix => tonumber suffix
  | None => None
  end.

(** [tpm_total = tpm_total + n], a sum of doubles; a member that does not parse
    adds nothing. *)
Definition add_tokens (tpm_total : Z) (m : string) : Z :=
  match member_number m with
  | Some n => lua_number (tpm_total + n)
  | None => tpm_total
  end.

(** [math.ceil(a / b)] for integers, [b > 0]; the quotient is taken exactly,
    as it is in doubles for the limiter's window of one minute. *)
Definition ceil_div (a b : Z) : Z := - ((- a) / b).

(** The script's numbers are Lua numbers: [tonumber] of the arguments, the
    cardinality, the window's lower end and the token sum are doubles.  [srv] is
    the Redis server's clock (ms) when the script runs, from which [EXPIRE]
    counts; [now] is the client's. *)
Definition check_lua (srv : Z) (rpm_key tpm_key : string) (now window rpm_lim tpm_lim : Z)
    (req_id : string) (d : db) : list ReplyVal * db :=
  let now := lua_number now in
  let window := lua_number window in
  let rpm_lim := lua_number rpm_lim in
  let tpm_lim := lua_number tpm_lim in
  let ttl := ceil_div (lua_number (window * 2)) 1000 in
  let num n := RInt (reply_integer n) in
  let d := ZREMRANGEBYSCORE rpm_key (lua_number (now - window)) d in
  let rpm_count := lua_number (ZCARD rpm_key d) in
  if (0 <? rpm_lim) && (rpm_lim <=? rpm_count) then
    ([RInt 0; RInt 1; num rpm_count; num (oldest_score now rpm_key d); RInt 0; num now], d)
  else
    let '(tpm_total, tpm_oldest, d) :=
      if 0 <? tpm_lim then
        let d := ZREMRANGEBYSCORE tpm_key (lua_number (now - window)) d in
        let members := ZRANGE_ALL tpm_key d in
        (foldl add_tokens 0 members, oldest_score now tpm_key d, d)
      else (0, now, d) in
    if (0 <? tpm_lim) && (tpm_lim <=? tpm_total) then
      ([RInt 0; RInt 2; num rpm_count; num (oldest_score now rpm_key d); num tpm_total; num tpm_oldest], d)
    else
      let d :=
        if 0 <? rpm_lim then EXPIRE srv rpm_key ttl (ZADD rpm_key now req_id d) else d in
      ([RInt 1; RInt 0; num (lua_number (rpm_count + 1)); num (oldest_score now rpm_key d);
        num tpm_total; num tpm_oldest], d).

(** The [EXPIRE] of this script takes [window * 2] as it is, in seconds;
    the caller passes the window in milliseconds. *)
Definition tpm_record_lua (srv : Z) (key : string) (now window : Z) (req_id tokens : string) (d : db) : db :=
  EXPIRE srv key (lua_number (lua_number window * 2))
    (ZADD key (lua_number now) (req_id +:+ ":" +:+ tokens) d).
End Scripts.

(** ** limiter.go *)

Definition NewRedis (cfg : RateLimitConfig) : redisLimiter :=
  {| window := 60 * Second; defaultRPM := DefaultRPM cfg; defaultTPM := DefaultTPM cfg |}.

Definition effectiveRPM (r : redisLimiter) (key : KeyInfo) : Z :=
  if 0 <? RPM key then RPM key else defaultRPM r.

Definition effectiveTPM (r : redisLimiter) (key : KeyInfo) : Z :=
  if 0 <? TPM key then TPM key else defaultTPM r.

Definition rpmKey (key : KeyInfo) : string :=
  "ratelimit:" +:+ OrgID key +:+ ":" +:+ KeyID key +:+ ":rpm".

Definition tpmKey (key : KeyInfo) : string :=
  "ratelimit:" +:+ OrgID key +:+ ":" +:+ KeyID key +:+ ":tpm".

(** [strconv.FormatInt(n, 36)]; 13 digits are enough for an [int64]. *)
Fixpoint digits36 (fuel : nat) (n : Z) (acc : string) : string :=
  match fuel with
  | O => acc
  | S fuel =>
      let acc := String (hex_digit (Z.to_nat (n `mod` 36))) acc in
      if n / 36 =? 0 then acc else digits36 fuel (n / 36) acc
  end.
Definition FormatInt36 (n : Z) : string :=
  (if n <? 0 then "-" else "") +:+ digits36 13 (Z.abs n) "".

Example FormatInt36_max : FormatInt36 (2 ^ 63 - 1) = "1y2p0ij32e8e7".
Proof. reflexivity. Qed.

(** [random] is what [rand.Read] put into the six bytes, [None] when it
    failed; [now] the clock in Unix nanoseconds. *)
Definition newInstanceID (random : option (list Z)) (now : Z) : string :=
  match random with
  | None => FormatInt36 now
  | Some b => EncodeToString b
  end.

(** [fmt.Sprintf("%s-%d-%d", instanceID, nowMs, n)] for the counter value [n]. *)
Definition reqID (instanceID : string) (nowMs n : Z) : string :=
  instanceID +:+ "-" +:+ Itoa nowMs +:+ "-" +:+ Itoa n.

Definition clampRemaining (limit used : Z) : Z :=
  if (limit <=? 0) || (limit <=? used) then 0 else wrap64 (limit - used).

Definition computeReset (nowMs oldestMs windowMs : Z) : Z :=
  let elapsed := wrap64 (nowMs - oldestMs) in
  let remaining := wrap64 (windowMs - elapsed) in
  let remaining := if remaining <? 0 then 0 else remaining in
  wrap64 (remaining * Millisecond).

Definition fields_of (names : list string) (out : list ReplyVal) : string + list Z :=
  foldr (λ nv acc,
    match nv.2 with
    | RInt n => match acc with inr l => inr (n :: l) | inl e => inl e end
    | ROther ty => inl ("check script: " +:+ nv.1 +:+ " not int64 (" +:+ ty +:+ ")")
    end) (inr []) (zip names out).

Definition reply_names : list string :=
  ["allowed"; "code"; "rpm_used"; "rpm_oldest_ms"; "tpm_used"; "tpm_oldest_ms"].

Definition parseCheckResult (out : list ReplyVal) : string + checkResult :=
  if negb (Nat.eqb (length out) 6) then
    inl ("check script: got " +:+ Itoa (Z.of_nat (length out)) +:+ " values, want 6")
  else
    match fields_of reply_names out with
    | inl e => inl e
    | inr [a; c; ru; ro; tu; to] =>
        inr {| allowed := a =? 1; code := c; rpmUsed := ru; rpmOldestMs := ro;
               tpmUsed := tu; tpmOldestMs := to |}
    | inr _ => inl ""
    end.

(** What [Reserve] builds from a parsed reply. *)
Definition reservation_of (r : redisLimiter) (rpm tpm nowMs : Z) (p : checkResult) : Reservation :=
  let windowMs := Z.quot (window r) Millisecond in
  let reset := computeReset nowMs (rpmOldestMs p) windowMs in
  let tpmReset := computeReset nowMs (tpmOldestMs p) windowMs in
  let retry :=
    if allowed p then 0
    else
      let ra := if code p =? rejectRPM then reset
                else if code p =? rejectTPM then tpmReset else 0 in
      if ra <=? 0 then window r else ra in
  {| Allowed := allowed p;
     Limit := rpm;
     Remaining := clampRemaining rpm (rpmUsed p);
     Reset_ := reset;
     TpmLimit := tpm;
     TpmRemaining := clampRemaining tpm (tpmUsed p);
     TpmReset := tpmReset;
     RetryAfter := retry |}.

Definition empty_reservation : Reservation :=
  {| Allowed := false; Limit := 0; Remaining := 0; Reset_ := 0; TpmLimit := 0;
     TpmRemaining := 0; TpmReset := 0; RetryAfter := 0 |}.

(** How the round trip to Redis ends: with the script's reply, or with an
    error, in which case the script may or may not have run. *)
Inductive Net :=
| NetOk
| NetErr (executed : bool) (err : string).

Section Limiter.
Context {db : Type} `{RedisOps db}.

Record LimState := mkLimState {
  store : db;
  reqIDCounter : Z;
}.

Definition newReqID (instanceID : string) (nowMs : Z) (st : LimState) : string * LimState :=
  let n := wrapu64 (reqIDCounter st + 1) in
  (reqID instanceID nowMs n, {| store := store st; reqIDCounter := n |}).

(** The call of the check script, run by Redis when its clock shows [srv]. *)
Definition run_check (r : redisLimiter) (key : KeyInfo) (nowMs : Z) (rid : string) (srv : Z) (d : db)
    : list ReplyVal * db :=
  check_lua srv (rpmKey key) (tpmKey key) nowMs (Z.quot (window r) Millisecond)
    (effectiveRPM r key) (effectiveTPM r key) rid d.

(** What [Reserve] makes of the reply. *)
Definition check_answer (r : redisLimiter) (key : KeyInfo) (nowMs : Z) (out : list ReplyVal)
    : string + Reservation :=
  match parseCheckResult out with
  | inl e => inl e
  | inr p => inr (reservation_of r (effectiveRPM r key) (effectiveTPM r key) nowMs p)
  end.

Definition run_record (r : redisLimiter) (key : KeyInfo) (tokens nowMs : Z) (rid : string) (srv : Z) (d : db) : db :=
  tpm_record_lua srv (tpmKey key) nowMs (Z.quot (window r) Millisecond) rid (Itoa tokens) d.

(** A whole call, with the script at the instant of the clock reading; [Fleet]
    keeps the reading and the script apart. *)
Definition Reserve (r : redisLimiter) (instanceID : string) (key : KeyInfo) (nowMs : Z)
    (net : Net) (st : LimState) : (string + Reservation) * LimState :=
  if (effectiveRPM r key <=? 0) && (effectiveTPM r key <=? 0) then
    (inr {| Allowed := true; Limit := 0; Remaining := 0; Reset_ := 0; TpmLimit := 0;
            TpmRemaining := 0; TpmReset := 0; RetryAfter := 0 |}, st)
  else
    let '(rid, st) := newReqID instanceID nowMs st in
    let '(out, d') := run_check r key nowMs rid nowMs (store st) in
    match net with
    | NetErr executed e =>
        (inl e, {| store := if executed then d' else store st;
                   reqIDCounter := reqIDCounter st |})
    | NetOk => (check_answer r key nowMs out, {| store := d'; reqIDCounter := reqIDCounter st |})
    end.

Definition AllowRequest (r : redisLimiter) (instanceID : string) (key : KeyInfo) (nowMs : Z)
    (net : Net) (st : LimState) : (bool * Z * option string) * LimState :=
  match Reserve r instanceID key nowMs net st with
  | (inl e, st) => ((true, 0, Some e), st)
  | (inr res, st) => ((Allowed res, RetryAfter res, None), st)
  end.

Definition RecordTokens (r : redisLimiter) (instanceID : string) (key : KeyInfo) (tokens : Z)
    (nowMs : Z) (net : Net) (st : LimState) : option string * LimState :=
  if tokens <=? 0 then (None, st)
  else if effectiveTPM r key <=? 0 then (None, st)
  else
    let '(rid, st) := newReqID instanceID nowMs st in
    let d' := run_record r key tokens nowMs rid nowMs (store st) in
    match net with
    | NetErr executed e =>
        (Some e, {| store := if executed then d' else store st;
                    reqIDCounter := reqIDCounter st |})
    | NetOk => (None, {| store := d'; reqIDCounter := reqIDCounter st |})
    end.
End Limiter.
Arguments LimState db : clear implicits.

(** ** Identifiers and keys *)

Lemma rpmKey_ne_tpmKey k k' : rpmKey k ≠ tpmKey k'.
Proof.
  assert (∀ suf, "ratelimit:" +:+ OrgID k +:+ ":" +:+ KeyID k +:+ String ":" suf =
            ("ratelimit:" +:+ OrgID k +:+ ":" +:+ KeyID k) +:+ String ":" suf) as E1
    by (intros; by rewrite !app_assoc_str).
  assert (∀ suf, "ratelimit:" +:+ OrgID k' +:+ ":" +:+ KeyID k' +:+ String ":" suf =
            ("ratelimit:" +:+ OrgID k' +:+ ":" +:+ KeyID k') +:+ String ":" suf) as E2
    by (intros; by rewrite !app_assoc_str).
  intros Heq. apply (f_equal (after_last ":"%char)) in Heq. unfold rpmKey, tpmKey in Heq.
  rewrite E1, E2, !after_last_app in Heq by done. congruence.
Qed.

Lemma reqID_after_last inst t n :
  0 ≤ n → after_last "-"%char (reqID inst t n) = Some (Itoa n).
Proof.
  intros Hn.
  replace (reqID inst t n) with ((inst +:+ "-" +:+ Itoa t) +:+ String "-" (Itoa n))
    by (unfold reqID; by rewrite !app_assoc_str).
  apply after_last_app, Itoa_no_sep; done.
Qed.

(** Request ids are distinct for distinct counter values, whatever the clock
    says. *)
Lemma reqID_counter inst inst' t t' n n' :
  0 ≤ n → 0 ≤ n' → reqID inst t n = reqID inst' t' n' → n = n'.
Proof.
  intros Hn Hn' Heq. apply (f_equal (after_last "-"%char)) in Heq.
  rewrite !reqID_after_last in Heq by done. by injection Heq as ?%Itoa_inj.
Qed.

Lemma reqID_inj inst t t' n n' : 0 ≤ n → 0 ≤ n' → reqID inst t n = reqID inst t' n' → n = n'.
Proof. apply reqID_counter. Qed.

(** Across processes and time: a request id determines the instance, the
    millisecond and the counter it was made from, so two instances with
    different ids never write the same member into a set they share. *)
Lemma reqID_inj_all inst inst' t t' n n' :
  0 ≤ t → 0 ≤ t' → 0 ≤ n → 0 ≤ n' → reqID inst t n = reqID inst' t' n' → inst = inst' ∧ t = t' ∧ n = n'.
Proof.
  intros Ht Ht' Hn Hn' Heq. assert (n = n') as <- by (by eapply reqID_counter).
  assert (∀ i u, reqID i u n = (i +:+ String "-" (Itoa u)) +:+ "-" +:+ Itoa n) as E.
  { intros. unfold reqID. by rewrite !app_assoc_str. }
  rewrite !E in Heq. apply app_inj_r_str in Heq.
  pose proof (f_equal (after_last "-"%char) Heq) as Ha.
  rewrite !after_last_app in Ha by (by apply Itoa_no_sep). injection Ha as ->%Itoa_inj.
  by apply app_inj_r_str in Heq.
Qed.

(** ** The reply of check.lua *)

Definition ms_window : Z := 60000.

Lemma window_ms cfg : Z.quot (window (NewRedis cfg)) Millisecond = ms_window.
Proof. reflexivity. Qed.

Definition reply_of (p : checkResult) : list ReplyVal :=
  [RInt (if allowed p then 1 else 0); RInt (code p); RInt (rpmUsed p);
   RInt (rpmOldestMs p); RInt (tpmUsed p); RInt (tpmOldestMs p)].

Lemma parse_reply p : parseCheckResult (reply_of p) = inr p.
Proof. destruct p as [[] ?????]; reflexivity. Qed.

Lemma reply_of_inj {A} p p' (d d' : A) : (reply_of p, d) = (reply_of p', d') → p = p' ∧ d = d'.
Proof.
  intros E. split; [|by apply (f_equal snd) in E].
  apply (f_equal fst), (f_equal parseCheckResult) in E. cbn [fst] in E. rewrite !parse_reply in E. by injection E.
Qed.

Inductive verdict := Admit | RejectRPM | RejectTPM.
#[export] Instance verdict_eq_dec : EqDecision verdict.
Proof. solve_decision. Defined.

Section CheckFacts.
Context {db : Type} `{RedisLaws db}.
Implicit Types (d : db).

Definition live (now w : Z) (m : gmap string Z) : gmap string Z :=
  filter (λ kv, now - w < kv.2) m.

(** What the script adds up for a TPM set. *)
Definition token_sum (m : gmap string Z) : Z := foldl add_tokens 0 (zordered m).*1.

(** The sum over members that carry the numerals [xs], in any order: exact up
    to [2^53]. *)
Lemma token_sum_numerals (m : gmap string Z) (xs : string → Z) :
  (∀ k s, m !! k = Some s → 0 ≤ xs k ∧ member_number k = Some (lua_number (xs k))) →
  let s := foldr (λ k acc, xs k + acc) 0 (map_to_list m).*1 in
  (s ≤ 2 ^ 53 → token_sum m = s) ∧ (2 ^ 53 ≤ s → 2 ^ 53 ≤ token_sum m).
Proof.
  intros Hm s. unfold token_sum.
  assert (s = 0 + foldr Z.add 0 (xs <$> (zordered m).*1)) as ->.
  { unfold s. assert ((map_to_list m).*1 ≡ₚ (zordered m).*1) as Hp by (by rewrite zordered_perm).
    clear -Hp. assert (∀ l, 0 + foldr Z.add 0 (xs <$> l) = foldr (λ k acc, xs k + acc) 0 l) as ->
      by (induction l; cbn in *; lia).
    revert Hp. generalize (map_to_list m).*1, (zordered m).*1. induction 1; cbn in *; lia. }
  assert (Forall (λ k, 0 ≤ xs k ∧ member_number k = Some (lua_number (xs k))) (zordered m).*1) as Hall.
  { apply Forall_forall. intros k ([k' v]&->&Hk%zordered_elem)%list_elem_of_fmap. by eapply Hm. }
  clear Hm. assert (∀ l a, Forall (λ k, 0 ≤ xs k ∧ member_number k = Some (lua_number (xs k))) l →
    foldl add_tokens a l = foldl (λ t x, lua_number (t + lua_number x)) a (xs <$> l)) as Hf.
  { intros l. induction l as [|k l IH]; intros a Hl; [done|]. apply Forall_cons in Hl as [[_ Hk] Hl].
    cbn. unfold add_tokens at 2. rewrite Hk. by apply IH. }
  rewrite Hf by done. apply lua_sum_exact; [lia|]. apply Forall_fmap. eapply Forall_impl; [exact Hall|]. by intros k [? _].
Qed.

(** The abstract decision: requests in the window against the RPM limit
    first, then tokens in the window against the TPM limit. *)
Definition decide_request (rpm_lim tpm_lim : Z) (R T : gmap string Z) : verdict :=
  if (0 <? rpm_lim) && (lua_number rpm_lim <=? lua_number (Z.of_nat (size R))) then RejectRPM
  else if (0 <? tpm_lim) && (lua_number tpm_lim <=? token_sum T) then RejectTPM
  else Admit.

(** A full window is always rejected. *)
Lemma decide_full rpm_lim tpm_lim R T :
  0 < rpm_lim ≤ Z.of_nat (size R) → decide_request rpm_lim tpm_lim R T = RejectRPM.
Proof.
  intros Hr. unfold decide_request.
  pose proof (lua_number_mono rpm_lim (Z.of_nat (size R))) as Hm.
  destruct (Z.ltb_spec 0 rpm_lim); [|lia].
  by destruct (Z.leb_spec (lua_number rpm_lim) (lua_number (Z.of_nat (size R)))); [|lia].
Qed.

Lemma decide_admit_room rpm_lim tpm_lim R T :
  0 < rpm_lim → decide_request rpm_lim tpm_lim R T = Admit → Z.of_nat (size R) < rpm_lim.
Proof.
  intros Hr Hd. destruct (Z.lt_ge_cases (Z.of_nat (size R)) rpm_lim); [done|].
  by rewrite decide_full in Hd by lia.
Qed.

(** For limits up to [2^53] the comparison with the cardinality is the one of
    the integers. *)
Lemma lua_limit_le lim n : 0 ≤ n → lim ≤ 2 ^ 53 → 0 < lim → (lua_number lim <=? lua_number n) = (lim <=? n).
Proof.
  intros Hn Hl Hp. rewrite (lua_number_exact lim) by lia. destruct (Z.le_gt_cases n (2 ^ 53)).
  - by rewrite lua_number_exact by lia.
  - pose proof (lua_number_ge n ltac:(lia)).
    by destruct (Z.leb_spec lim (lua_number n)), (Z.leb_spec lim n); try lia.
Qed.

(** Clock readings (ms) and windows on which the script's arithmetic is
    exact: clocks from 1970 to the year 287396. *)
Definition exact_clock (now : Z) : Prop := 0 ≤ now ≤ 2 ^ 53.
Definition exact_window (w : Z) : Prop := 0 ≤ w ≤ 2 ^ 52.

Lemma zset_prune d k now w k' :
  zset (ZREMRANGEBYSCORE k (now - w) d) k' =
    if decide (k = k') then live now w (zset d k) else zset d k'.
Proof. apply zset_ZREMRANGEBYSCORE. Qed.

(** Everything check.lua does, on every path. *)
Definition check_post (rk tk : string) (now w rpm_lim tpm_lim : Z) (rid : string)
    (d d' : db) (p : checkResult) : Prop :=
  let R := live now w (zset d rk) in
  let T := live now w (zset d tk) in
  let v := decide_request rpm_lim tpm_lim R T in
  (∀ k, k ≠ rk → k ≠ tk → zset d' k = zset d k) ∧
  zset d' rk = (match v with
                | Admit => if 0 <? rpm_lim then <[rid := now]> R else R
                | _ => R end) ∧
  zset d' tk = (match v with
                | RejectRPM => zset d tk
                | _ => if 0 <? tpm_lim then T else zset d tk end) ∧
  allowed p = bool_decide (v = Admit) ∧
  code p = (match v with Admit => 0 | RejectRPM => 1 | RejectTPM => 2 end) ∧
  rpmUsed p = reply_integer (let n := lua_number (Z.of_nat (size R)) in
    match v with Admit => lua_number (n + 1) | _ => n end) ∧
  tpmUsed p = (match v with
               | RejectRPM => 0
               | _ => reply_integer (if 0 <? tpm_lim then token_sum T else 0) end).

Lemma zset_tick rpm_lim rk srv now ttl rid d k :
  zset (if 0 <? rpm_lim then EXPIRE srv rk ttl (ZADD rk now rid d) else d) k =
    if decide (rk = k) then (if 0 <? rpm_lim then <[rid := now]> (zset d rk) else zset d rk)
    else zset d k.
Proof.
  destruct (0 <? rpm_lim); [|by case_decide; subst].
  rewrite zset_EXPIRE, zset_ZADD. by case_decide.
Qed.

Lemma check_lua_post srv rk tk now w rpm_lim tpm_lim rid d :
  rk ≠ tk → exact_clock now → exact_window w →
  ∃ p d', check_lua srv rk tk now w rpm_lim tpm_lim rid d = (reply_of p, d') ∧
    check_post rk tk now w rpm_lim tpm_lim rid d d' p.
Proof.
  unfold exact_clock, exact_window. intros Hne Hnow Hwin. unfold check_lua.
  rewrite (lua_number_exact now), (lua_number_exact w), (lua_number_exact (now - w)), !lua_number_pos by lia.
  rewrite ZCARD_size, zset_prune, decide_True by done.
  set (R := live now w (zset d rk)). set (T := live now w (zset d tk)).
  set (d1 := ZREMRANGEBYSCORE rk (now - w) d).
  set (d2 := ZREMRANGEBYSCORE tk (now - w) d1).
  assert (zset d1 rk = R ∧ zset d1 tk = zset d tk) as [Hr1 Ht1].
  { unfold d1. by rewrite !zset_prune, decide_True, decide_False. }
  assert (zset d2 rk = R ∧ zset d2 tk = T) as [Hr2 Ht2].
  { unfold d2. by rewrite !zset_prune, decide_False, decide_True, Hr1, Ht1. }
  assert (∀ k, k ≠ rk → k ≠ tk → zset d1 k = zset d k ∧ zset d2 k = zset d k) as Hk.
  { intros k ??. unfold d2. rewrite !zset_prune, !decide_False by done.
    unfold d1. by rewrite zset_prune, decide_False. }
  rewrite ZRANGE_ALL_ordered, Ht2. fold (token_sum T). unfold check_post, decide_request. fold R T.
  set (ttl := ceil_div _ _).
  assert (∀ d0 k, k ≠ rk → zset (if 0 <? rpm_lim then
      EXPIRE srv rk ttl (ZADD rk now rid d0) else d0) k = zset d0 k) as Hoth.
  { intros. by rewrite zset_tick, decide_False. }
  destruct ((0 <? rpm_lim) && (lua_number rpm_lim <=? lua_number (Z.of_nat (size R)))) eqn:E1.
  - eexists (mkCheckResult false _ _ _ _ _), _. split; [unfold reply_of; cbn; reflexivity|]. cbn.
    repeat split; try done; try lia. intros. by apply Hk.
  - destruct (0 <? tpm_lim) eqn:Et; cbn [andb]; [destruct (lua_number tpm_lim <=? token_sum T) eqn:E2|].
    + eexists (mkCheckResult false _ _ _ _ _), _. split; [unfold reply_of; cbn; reflexivity|]. cbn.
      repeat split; try done; try lia. intros. by apply Hk.
    + eexists (mkCheckResult true _ _ _ _ _), _. split; [unfold reply_of; cbn; reflexivity|]. cbn.
      repeat split; rewrite ?Hoth by done; try done; try lia.
      * intros. rewrite Hoth by done. by apply Hk.
      * by rewrite zset_tick, decide_True, Hr2.
    + eexists (mkCheckResult true _ _ _ _ _), _. split; [unfold reply_of; cbn; reflexivity|]. cbn.
      repeat split; rewrite ?Hoth by done; try done; try lia.
      * intros. rewrite Hoth by done. by apply Hk.
      * by rewrite zset_tick, decide_True, Hr1.
Qed.

(** ** Time-to-live *)

(** The key outlives the window of every entry it holds. *)
Definition ttl_ok (w : Z) (d : db) (k : string) : Prop :=
  ∀ dl m s, deadline d k = Some dl → zset d k !! m = Some s → s + w ≤ dl.

Lemma ceil_div_ge a b : 0 < b → a ≤ b * ceil_div a b.
Proof.
  intros Hb. unfold ceil_div. pose proof (Z.mul_div_le (- a) b Hb). lia.
Qed.

(** A step that only drops entries and keeps or drops the deadline. *)
Lemma ttl_ok_sub w d d' k :
  (deadline d' k = deadline d k ∨ deadline d' k = None) →
  zset d' k ⊆ zset d k → ttl_ok w d k → ttl_ok w d' k.
Proof.
  intros Hdl Hsub Hok dl m s Hd Hm. eapply Hok; [|by eapply lookup_weaken].
  destruct Hdl; congruence.
Qed.

Lemma ttl_ok_prune w d k hi k' : ttl_ok w d k' → ttl_ok w (ZREMRANGEBYSCORE k hi d) k'.
Proof.
  intros Hok. eapply ttl_ok_sub; [apply deadline_ZREMRANGEBYSCORE| |done].
  rewrite zset_ZREMRANGEBYSCORE. case_decide; subst; [apply map_filter_subseteq|done].
Qed.

(** A tick at server time [srv] on entries that are not later than [hi]. *)
Lemma ttl_ok_tick w w' hi srv d rk now rid :
  hi + w' ≤ srv + w * 2 → now ≤ hi → (∀ m s, zset d rk !! m = Some s → s ≤ hi) →
  ttl_ok w' (EXPIRE srv rk (ceil_div (w * 2) 1000) (ZADD rk now rid d)) rk.
Proof.
  intros Hw Hnow Hle dl m s Hdl Hm.
  rewrite zset_EXPIRE, zset_ZADD, decide_True in Hm by done.
  rewrite deadline_EXPIRE_eq in Hdl;
    [|rewrite zset_ZADD, decide_True by done; apply insert_non_empty].
  pose proof (ceil_div_ge (w * 2) 1000 ltac:(lia)).
  apply lookup_insert_Some in Hm as [[_ <-]|[_ Hm]]; [|apply Hle in Hm];
    injection Hdl as <-; lia.
Qed.

Lemma ttl_ok_tick_ne w d rk srv now ttl rid k :
  rk ≠ k → ttl_ok w d k → ttl_ok w (EXPIRE srv rk ttl (ZADD rk now rid d)) k.
Proof.
  intros Hne. apply ttl_ok_sub.
  - left. by rewrite deadline_EXPIRE_ne, deadline_ZADD.
  - by rewrite zset_EXPIRE, zset_ZADD, decide_False.
Qed.

Lemma ttl_ok_expire_due w d t k : ttl_ok w d k → ttl_ok w (expire_due t d) k.
Proof.
  apply ttl_ok_sub; [apply deadline_expire_due|]. rewrite zset_expire_due.
  repeat case_match; try done. apply map_empty_subseteq.
Qed.

Lemma check_lua_ttl srv rk tk now w w' hi rpm_lim tpm_lim rid d k :
  exact_clock now → exact_window w → hi + w' ≤ srv + w * 2 → now ≤ hi →
  (rk = k → ∀ m s, zset d rk !! m = Some s → s ≤ hi) →
  ttl_ok w' d k → rk ≠ tk →
  ttl_ok w' (check_lua srv rk tk now w rpm_lim tpm_lim rid d).2 k.
Proof.
  unfold exact_clock, exact_window. intros Hnow Hwin Hw Hhi Hle Hok Hne. unfold check_lua.
  rewrite (lua_number_exact now), (lua_number_exact w), (lua_number_exact (now - w)), (lua_number_exact (w * 2)) by lia.
  assert (∀ d0, (rk = k → ∀ m s, zset d0 rk !! m = Some s → s ≤ hi) → ttl_ok w' d0 k →
            ttl_ok w' (if 0 <? lua_number rpm_lim then
              EXPIRE srv rk (ceil_div (w * 2) 1000) (ZADD rk now rid d0) else d0) k) as Htick.
  { intros d0 Hle0 Hok0. case_match; [|done]. destruct (decide (rk = k)) as [<-|Hk];
      [eapply ttl_ok_tick; eauto | by apply ttl_ok_tick_ne]. }
  assert (∀ d0 k0, (rk = k → ∀ m s, zset d0 rk !! m = Some s → s ≤ hi) →
            rk = k → ∀ m s, zset (ZREMRANGEBYSCORE k0 (now - w) d0) rk !! m = Some s → s ≤ hi) as Hpr.
  { intros d0 k0 Hle0 Hrk m s. rewrite zset_prune. case_decide; subst; [|by apply Hle0].
    intros [? _]%map_lookup_filter_Some. by eapply Hle0. }
  destruct (_ && _); [by apply ttl_ok_prune|].
  destruct (0 <? lua_number tpm_lim); cbn [andb]; [destruct (lua_number tpm_lim <=? _)|]; cbn [snd];
    [by apply ttl_ok_prune, ttl_ok_prune | apply Htick..]; eauto using ttl_ok_prune.
Qed.
End CheckFacts.
