(* ===== verification/RateLimitWindow.v ===== *)
(** * Guarantees of the sliding-window limiter over whole executions

    An execution is a list of events: [Reserve] calls, [RecordTokens] calls
    (each possibly ending in a network error, after which the script may or
    may not have run) and Redis key expiry, in any order, for any keys.  The
    theorems below hold for every Redis that satisfies [RedisLaws].

    The invariant behind the window bound, [store_inv], is about the database
    and the admissions only.  It allows the clock reading of a call and the
    server's clock at the script's run to differ by [late] and [early]; here
    both are zero, [Fleet] uses it in general. *)

From S2P Require Import Prelude GoStrings Redis RateLimit.
From Stdlib Require Import Sorted.
Local Open Scope Z_scope.

Inductive Event :=
| EReserve (now : Z) (key : KeyInfo) (net : Net)
| ERecord (now : Z) (key : KeyInfo) (tokens : Z) (net : Net)
| EExpire (now : Z).

Definition ev_time (e : Event) : Z :=
  match e with EReserve t _ _ | ERecord t _ _ _ | EExpire t => t end.

(** One admitted request: the rate-limit key, the time and the request id. *)
Record Admission := mkAdmission {
  adm_key : string;
  adm_time : Z;
  adm_id : string;
}.

Section Trace.
Context {db : Type} `{RedisLaws db}.
Context (r : redisLimiter) (inst : string).
Implicit Types (st : LimState db) (log : list Admission).

(** One event; a [Reserve] that Redis answered with "allowed" is logged. *)
Definition step (sl : LimState db * list Admission) (e : Event)
    : LimState db * list Admission :=
  let '(st, log) := sl in
  match e with
  | EReserve now key net =>
      let '(res, st') := Reserve r inst key now net st in
      (st', match res with
            | inr x =>
                if Allowed x
                then mkAdmission (rpmKey key) now (newReqID inst now st).1 :: log
                else log
            | inl _ => log
            end)
  | ERecord now key tokens net => ((RecordTokens r inst key tokens now net st).2, log)
  | EExpire now =>
      (mkLimState (expire_due now (store st)) (reqIDCounter st), log)
  end.

Definition run (sl : LimState db * list Admission) (es : list Event) :=
  foldl step sl es.

(** Admissions of key [K] in the half-open interval [(t - w, t]]. *)
Definition admitted_in (K : string) (w t : Z) (log : list Admission) : list Admission :=
  filter (λ a, adm_key a = K ∧ t - w < adm_time a ≤ t) log.

(** ** What one [Reserve] does *)

Definition limited (key : KeyInfo) : bool :=
  negb ((effectiveRPM r key <=? 0) && (effectiveTPM r key <=? 0)).

Definition W : Z := Z.quot (window r) Millisecond.

Lemma Reserve_spec key now net st :
  limited key = true → exact_clock now → exact_window W →
  let rpm := effectiveRPM r key in
  let tpm := effectiveTPM r key in
  let n := wrapu64 (reqIDCounter st + 1) in
  let rid := reqID inst now n in
  ∃ p d',
    run_check r key now rid now (store st) = (reply_of p, d') ∧
    check_post (rpmKey key) (tpmKey key) now W rpm tpm rid (store st) d' p ∧
    Reserve r inst key now net st =
      (match net with
       | NetOk => inr (reservation_of r rpm tpm now p)
       | NetErr _ e => inl e end,
       mkLimState (match net with NetErr false _ => store st | _ => d' end) n).
Proof.
  intros Hl Hnow Hw rpm tpm n rid. apply negb_true_iff in Hl.
  destruct (check_lua_post now (rpmKey key) (tpmKey key) now W rpm tpm rid (store st))
    as (p&d'&Heq&Hpost); [apply rpmKey_ne_tpmKey|done|done|].
  exists p, d'. split; [done|]. split; [done|].
  unfold Reserve, run_check, check_answer. rewrite Hl. cbn [newReqID fst snd store reqIDCounter].
  fold rpm tpm n rid W. rewrite Heq. destruct net as [|[] e]; [|done..]. by rewrite parse_reply.
Qed.

Lemma Reserve_unlimited key now net st :
  limited key = false →
  ∃ res, Reserve r inst key now net st = (inr res, st) ∧ Allowed res = true.
Proof.
  unfold limited. rewrite negb_false_iff. intros Hl. unfold Reserve. rewrite Hl.
  by eexists.
Qed.

(** ** The invariant behind the window bound

    [T] is the server's time of the last script or expiry; the clock readings of
    the scripts run so far do not exceed [T + early]. *)

Section Skew.
Context (late early : Z).

Record store_inv (K : string) (L T : Z) (d : db) (log : list Admission) : Prop := {
  inv_time a : a ∈ log → adm_key a = K → adm_time a ≤ T + early;
  inv_nodup : NoDup (adm_id <$> filter (λ a, adm_key a = K) log);
  inv_live a : a ∈ log → adm_key a = K → T + early - W < adm_time a →
    zset d K !! adm_id a = Some (adm_time a);
  inv_scores m s : zset d K !! m = Some s → s ≤ T + early;
  inv_ttl : ttl_ok (W - early) d K;
  inv_bound t : Z.of_nat (length (admitted_in K (W - (late + early)) t log)) ≤ L;
}.

(** A step that does not touch [K] in the store and logs nothing for [K]. *)
Lemma store_inv_frame K L T T' d d' log :
  T ≤ T' → zset d' K = zset d K → ttl_ok (W - early) d' K →
  store_inv K L T d log → store_inv K L T' d' log.
Proof.
  intros HT Hz Httl [I1 I2 I3 I4 I5 I6]. split; try done.
  - intros a Ha HK. specialize (I1 a Ha HK). lia.
  - intros a Ha HK Hlive. rewrite Hz. apply I3; [done..|lia].
  - intros m s. rewrite Hz. intros Hs%I4. lia.
Qed.

Lemma store_inv_later K L T T' d log : T ≤ T' → store_inv K L T d log → store_inv K L T' d log.
Proof. intros HT Hinv. eapply store_inv_frame; [exact HT|done|apply Hinv|done]. Qed.

Lemma store_inv_other K L T d log a :
  adm_key a ≠ K → store_inv K L T d log → store_inv K L T d (a :: log).
Proof.
  intros Hne [I1 I2 I3 I4 I5 I6].
  split; try done; try (intros b [->|Hb]%elem_of_cons HK; [done|by auto]).
  - rewrite filter_cons_False by done. done.
  - intros t. unfold admitted_in. rewrite filter_cons_False by (by intros [??]). apply I6.
Qed.

Lemma store_inv_init K L T d : 0 < L → zset d K = ∅ → store_inv K L T d [].
Proof.
  intros HL Hz. split; try (intros a Ha; by apply elem_of_nil in Ha); try done.
  - apply NoDup_nil_2.
  - intros m s. by rewrite Hz, lookup_empty.
  - intros dl m s _. by rewrite Hz, lookup_empty.
  - intros t. simpl. lia.
Qed.

Lemma store_inv_expire K L T srv d log :
  T ≤ srv → store_inv K L T d log → store_inv K L srv (expire_due srv d) log.
Proof.
  intros HT [I1 I2 I3 I4 I5 I6]. split; try done.
  - intros a Ha HK. specialize (I1 a Ha HK). lia.
  - intros a Ha HK Hlive. specialize (I3 a Ha HK ltac:(lia)). rewrite zset_expire_due.
    destruct (deadline d K) as [dl|] eqn:Hdl; [|done].
    case_decide; [|done]. specialize (I5 _ _ _ Hdl I3). lia.
  - intros m s. rewrite zset_expire_due.
    repeat case_match; try (by rewrite lookup_empty); intros Hs%I4; lia.
  - by apply ttl_ok_expire_due.
Qed.

(** Ids a new admission of [K] may carry. *)
Definition fresh_for (K rid : string) log : Prop := ∀ a, a ∈ log → adm_key a = K → adm_id a ≠ rid.

(** The entries of [K] a script with clock reading [now] keeps. *)
Lemma store_inv_keep K L T srv now rid d d' log :
  T ≤ srv → now ≤ srv + early → fresh_for K rid log →
  (∀ m s, m ≠ rid → zset d K !! m = Some s → now - W < s → zset d' K !! m = Some s) →
  (∀ m s, zset d' K !! m = Some s → s ≤ srv + early) →
  ttl_ok (W - early) d' K → store_inv K L T d log → store_inv K L srv d' log.
Proof.
  intros HT Hnow Hfr Hkeep Hle Httl [I1 I2 I3 I4 I5 I6]. split; try done.
  - intros a Ha HK. specialize (I1 a Ha HK). lia.
  - intros a Ha HK Hlive. apply Hkeep; [by apply Hfr|apply I3; [done..|lia]|lia].
Qed.

(** The admissions that can share a window of length [w] with one at [now] are
    entries of the live set. *)
Definition admitted_since (K : string) (w now : Z) log : list Admission :=
  filter (λ a, adm_key a = K ∧ now - w < adm_time a) log.

Lemma live_count K L T now d log :
  T ≤ now + late → 0 ≤ late → 0 ≤ early → store_inv K L T d log →
  (length (admitted_since K (W - (late + early)) now log) ≤ size (RateLimit.live now W (zset d K)))%nat.
Proof.
  intros HT ?? [I1 I2 I3 I4 I5 I6].
  set (l := admitted_since _ _ _ log). set (R := RateLimit.live _ _ _).
  assert (NoDup (adm_id <$> l)) as Hnd.
  { eapply sublist_NoDup; [exact I2|]. apply fmap_sublist. unfold l, admitted_since.
    clear. induction log as [|a log IH]; simpl; [constructor|].
    rewrite !filter_cons. case_decide as H1; case_decide as H2; try (by constructor); [|done].
    by destruct H1. }
  assert (list_to_set (adm_id <$> l) ⊆@{gset string} dom R) as Hsub.
  { intros x. rewrite elem_of_list_to_set, list_elem_of_fmap. intros (a&->&Ha).
    unfold l, admitted_since in Ha. apply list_elem_of_filter in Ha as [(HK&Hw) Ha].
    apply elem_of_dom. exists (adm_time a). unfold R, RateLimit.live.
    apply map_lookup_filter_Some. split; [apply I3; [done..|lia]|simpl; lia]. }
  apply subseteq_size in Hsub. rewrite size_list_to_set, length_fmap, size_dom in Hsub; done.
Qed.

Lemma admitted_in_later K w t now log :
  now ≤ t → (length (admitted_in K w t log) ≤ length (admitted_since K w now log))%nat.
Proof.
  intros Hle. apply sublist_length. unfold admitted_in, admitted_since. induction log as [|a log IH]; [done|]. rewrite !filter_cons.
  case_decide as H1; case_decide as H2; [by constructor| |by constructor|done].
  exfalso. apply H2. destruct H1 as (?&?&?). split; [done|lia].
Qed.

Lemma store_inv_admit K L T srv now rid d d' log :
  0 ≤ late → 0 ≤ early → T ≤ srv → srv - late ≤ now ≤ srv + early → fresh_for K rid log →
  Z.of_nat (size (RateLimit.live now W (zset d K))) < L →
  zset d' K = <[rid := now]> (RateLimit.live now W (zset d K)) →
  ttl_ok (W - early) d' K → store_inv K L T d log → store_inv K L srv d' log →
  store_inv K L srv d' (mkAdmission K now rid :: log).
Proof.
  intros Hl He HT Hnow Hfr Hsz Hz Httl Hold [I1 I2 I3 I4 I5 I6].
  pose proof (live_count K L T now d log ltac:(lia) Hl He Hold) as Hcnt.
  split; try done.
  - intros a [->|Ha]%elem_of_cons HK; simpl; [lia|by auto].
  - rewrite filter_cons_True by done. simpl. apply NoDup_cons. split; [|done].
    rewrite list_elem_of_fmap. intros (a&Heq&[HK Ha]%list_elem_of_filter).
    by apply (Hfr a Ha HK).
  - intros a [->|Ha]%elem_of_cons HK Hlv; simpl; [|by auto].
    rewrite Hz. apply lookup_insert_eq.
  - intros t. unfold admitted_in. rewrite filter_cons. simpl. case_decide as Hin; [|apply I6].
    simpl. fold (admitted_in K (W - (late + early)) t log).
    pose proof (admitted_in_later K (W - (late + early)) t now log ltac:(lia)). lia.
Qed.

(** ** One run of the check script

    For whichever key, whatever was admitted before: the invariant holds after
    the script, and, when it answers "allowed", with the new admission. *)
Lemma store_inv_check k0 L T srv key now rid d log :
  let K := rpmKey k0 in
  0 ≤ late → 0 ≤ early → 0 < L → exact_clock now → exact_window W → T ≤ srv → srv - late ≤ now ≤ srv + early →
  (rpmKey key = K → effectiveRPM r key = L) → fresh_for K rid log → store_inv K L T d log →
  ∃ p d', run_check r key now rid srv d = (reply_of p, d') ∧ store_inv K L srv d' log ∧
    (allowed p = true → store_inv K L srv d' (mkAdmission (rpmKey key) now rid :: log)).
Proof.
  intros K Hl He HL Hclk HW HT Hnow Hlim Hfr Hinv.
  destruct (check_lua_post srv (rpmKey key) (tpmKey key) now W (effectiveRPM r key) (effectiveTPM r key) rid d)
    as (p&d'&Heq&Hoth&Hrk&_&Hal&_); [apply rpmKey_ne_tpmKey|done|done|].
  exists p, d'. split; [exact Heq|].
  assert (∀ m s, zset d K !! m = Some s → s ≤ srv + early) as Hle
    by (intros m s Hs%(inv_scores _ _ _ _ _ Hinv); lia).
  assert (ttl_ok (W - early) d' K) as Httl.
  { replace d' with (check_lua srv (rpmKey key) (tpmKey key) now W (effectiveRPM r key) (effectiveTPM r key) rid d).2
      by (by rewrite Heq).
    apply (check_lua_ttl srv _ _ now W _ (srv + early)); [done|done|unfold exact_window in HW; lia|lia| |apply Hinv|apply rpmKey_ne_tpmKey].
    intros ->. exact Hle. }
  destruct (decide (rpmKey key = K)) as [HK|HneK].
  2:{ assert (store_inv K L srv d' log).
      { eapply store_inv_frame; [exact HT| |done|exact Hinv]. apply Hoth; [done|apply rpmKey_ne_tpmKey]. }
      split; [done|]. intros _. by apply store_inv_other. }
  rewrite HK in *. rewrite (Hlim eq_refl) in *. rewrite (proj2 (Z.ltb_lt _ _) HL) in Hrk.
  set (R := RateLimit.live now W (zset d K)) in *.
  assert (∀ m s, R !! m = Some s → s ≤ srv + early) as HleR
    by (intros m s [Hs _]%map_lookup_filter_Some; by eapply Hle).
  assert (∀ m s, zset d K !! m = Some s → now - W < s → R !! m = Some s) as Hin
    by (intros; by apply map_lookup_filter_Some).
  assert (store_inv K L srv d' log) as Hsame.
  { eapply (store_inv_keep K L T srv now rid); [done|lia|done| | |done|done].
    - intros m s Hm Hs Hls. rewrite Hrk.
      destruct (decide_request _ _ _ _); [rewrite lookup_insert_ne by done|..]; by apply Hin.
    - intros m s. rewrite Hrk. destruct (decide_request _ _ _ _); [|apply HleR..].
      intros [[_ <-]|[_ Hs]]%lookup_insert_Some; [lia|by eapply HleR]. }
  split; [exact Hsame|]. rewrite Hal. intros Hv%bool_decide_eq_true. rewrite Hv in Hrk.
  eapply (store_inv_admit K L T srv now rid d); eauto. by eapply decide_admit_room.
Qed.

Lemma store_inv_record k0 L T srv key tokens now rid d log :
  T ≤ srv → store_inv (rpmKey k0) L T d log →
  store_inv (rpmKey k0) L srv (run_record r key tokens now rid srv d) log.
Proof.
  intros HT Hinv. assert (tpmKey key ≠ rpmKey k0) as HneK by (intros E; by destruct (rpmKey_ne_tpmKey k0 key)).
  eapply store_inv_frame; [exact HT| |apply ttl_ok_tick_ne; [done|apply Hinv]|exact Hinv].
  unfold run_record, tpm_record_lua. by rewrite zset_EXPIRE, zset_ZADD, decide_False.
Qed.
End Skew.

(** ** One process: calls as single steps *)

(** An id this process has made with a counter value up to [c]. *)
Definition id_old (c : Z) (id : string) : Prop := ∃ ms n, id = reqID inst ms n ∧ 0 ≤ n ≤ c.

Record window_inv (K : string) (L T : Z) (st : LimState db) (log : list Admission) : Prop := {
  inv_store : store_inv 0 0 K L T (store st) log;
  inv_id a : a ∈ log → adm_key a = K → id_old (reqIDCounter st) (adm_id a);
  inv_counter : 0 ≤ reqIDCounter st;
}.

Lemma window_inv_log K L T T' st st' log :
  store_inv 0 0 K L T' (store st') log → reqIDCounter st ≤ reqIDCounter st' →
  window_inv K L T st log → window_inv K L T' st' log.
Proof.
  intros Hs Hc [_ I2 I3]. split; [done| |lia].
  intros a Ha HK. destruct (I2 a Ha HK) as (ms&n&->&Hn). exists ms, n. split; [done|lia].
Qed.

Lemma RecordTokens_counter key tokens now net st :
  0 ≤ reqIDCounter st → reqIDCounter st + 1 < 2 ^ 64 →
  reqIDCounter st ≤ reqIDCounter (RecordTokens r inst key tokens now net st).2 ≤ reqIDCounter st + 1.
Proof.
  intros. unfold RecordTokens.
  destruct (tokens <=? 0); [simpl; lia|].
  destruct (effectiveTPM r key <=? 0); [simpl; lia|].
  destruct net as [|[] e]; simpl; rewrite wrapu64_id; lia.
Qed.

Lemma Reserve_counter key now net st :
  0 ≤ reqIDCounter st → reqIDCounter st + 1 < 2 ^ 64 →
  reqIDCounter st ≤ reqIDCounter (Reserve r inst key now net st).2 ≤ reqIDCounter st + 1.
Proof.
  intros. unfold Reserve. destruct (_ && _); [simpl; lia|]. cbn [newReqID].
  destruct (run_check _ _ _ _ _ _) as [out d']. destruct net as [|[] e]; simpl; rewrite wrapu64_id; lia.
Qed.

Lemma window_inv_later K L T T' st log : T ≤ T' → window_inv K L T st log → window_inv K L T' st log.
Proof. intros HT [I1 I2 I3]. split; [by eapply store_inv_later|done|done]. Qed.

(** A [Reserve] of any key, whose limit is [L] if it is [K]'s. *)
Lemma window_inv_reserve k0 L T now key net st log :
  let K := rpmKey k0 in
  exact_clock now → exact_window W → T ≤ now → 0 < L → reqIDCounter st + 1 < 2 ^ 64 →
  (rpmKey key = K → effectiveRPM r key = L) → window_inv K L T st log →
  let sl := step (st, log) (EReserve now key net) in
  window_inv K L now sl.1 sl.2.
Proof.
  intros K Hclk HW HT HL Hc Hlim Hinv. pose proof (inv_counter _ _ _ _ _ Hinv) as Hc0. unfold step.
  destruct (limited key) eqn:Hl.
  2:{ destruct (Reserve_unlimited key now net st Hl) as (res&->&Hal). cbn [fst snd]. rewrite Hal.
      assert (rpmKey key ≠ K) as HneK.
      { intros HK. specialize (Hlim HK). unfold limited in Hl. rewrite Hlim in Hl. by destruct (Z.leb_spec L 0); [lia|]. }
      destruct Hinv as [I1 I2 I3]. split; [apply store_inv_other; [done|by eapply store_inv_later]| |done].
      intros a [->|Ha]%elem_of_cons HK; [done|auto]. }
  destruct (Reserve_spec key now net st Hl Hclk HW) as (p&d'&Heq&Hpost&->).
  set (n := wrapu64 (reqIDCounter st + 1)) in *.
  assert (n = reqIDCounter st + 1) as Hn by (apply wrapu64_id; lia).
  assert (fresh_for K (reqID inst now n) log) as Hfr.
  { intros a Ha HK Heqa. destruct (inv_id _ _ _ _ _ Hinv a Ha HK) as (ms&n'&Hid&?).
    rewrite Hid in Heqa. apply reqID_inj in Heqa; lia. }
  destruct (store_inv_check 0 0 k0 L T now key now (reqID inst now n) (store st) log)
    as (p'&d2&Heq2&Hs&Ha); [done..|lia|done|done|apply Hinv|].
  rewrite Heq in Heq2. apply reply_of_inj in Heq2 as [<- <-].
  assert (∀ d, store_inv 0 0 K L now d log → window_inv K L now (mkLimState d n) log) as Hgo.
  { intros d Hd. apply (window_inv_log K L T now st); [exact Hd|cbn [reqIDCounter]; lia|exact Hinv]. }
  destruct net as [|[] e]; cbn [fst snd]; [|by apply Hgo..|apply Hgo; eapply store_inv_later; [exact HT|apply Hinv]].
  cbn [reservation_of Allowed]. destruct (allowed p); [|by apply Hgo].
  specialize (Ha eq_refl). split; [exact Ha| |simpl; lia].
  intros a [->|Hin]%elem_of_cons HK; simpl; [exists now, n; split; [done|lia]|].
  destruct (inv_id _ _ _ _ _ Hinv a Hin HK) as (ms&n'&->&?). exists ms, n'. split; [done|lia].
Qed.

Lemma window_inv_record k0 L T now key tokens net st log :
  let K := rpmKey k0 in
  T ≤ now → reqIDCounter st + 1 < 2 ^ 64 → window_inv K L T st log →
  window_inv K L now (RecordTokens r inst key tokens now net st).2 log.
Proof.
  intros K HT Hc Hinv. pose proof (inv_counter _ _ _ _ _ Hinv) as Hc0.
  pose proof (RecordTokens_counter key tokens now net st Hc0 Hc) as [Hc1 _].
  apply (window_inv_log K L T now st); [|exact Hc1|exact Hinv].
  assert (∀ rid, store_inv 0 0 K L now (run_record r key tokens now rid now (store st)) log) as Hrec
    by (intros; apply (store_inv_record 0 0 k0 L T); [done|apply Hinv]).
  assert (store_inv 0 0 K L now (store st) log) by (eapply store_inv_later; [exact HT|apply Hinv]).
  unfold RecordTokens. destruct (tokens <=? 0); [done|]. destruct (effectiveTPM r key <=? 0); [done|].
  destruct net as [|[] e]; simpl; done || apply Hrec.
Qed.

Lemma window_inv_expire K L T now st log :
  T ≤ now → window_inv K L T st log →
  window_inv K L now (mkLimState (expire_due now (store st)) (reqIDCounter st)) log.
Proof. intros HT [I1 I2 I3]. split; simpl; [by eapply store_inv_expire|done|done]. Qed.

Definition limit_of (K : string) (L : Z) (e : Event) : Prop :=
  match e with
  | EReserve _ key _ => rpmKey key = K → effectiveRPM r key = L
  | _ => True
  end.

(** One event, whatever it is. *)
Lemma window_step k0 L T st log e :
  let K := rpmKey k0 in
  exact_window W → 0 < L → reqIDCounter st + 1 < 2 ^ 64 → exact_clock (ev_time e) → T ≤ ev_time e → limit_of K L e →
  window_inv K L T st log →
  window_inv K L (ev_time e) (step (st, log) e).1 (step (st, log) e).2 ∧
  reqIDCounter st ≤ reqIDCounter (step (st, log) e).1 ≤ reqIDCounter st + 1.
Proof.
  intros K HW HL Hc Hclk HT He Hinv. pose proof (inv_counter _ _ _ _ _ Hinv) as Hc0.
  destruct e as [now key net|now key tokens net|now]; simpl in HT, He, Hclk.
  - split; [by apply (window_inv_reserve k0 L T)|].
    pose proof (Reserve_counter key now net st Hc0 Hc). unfold step. by destruct (Reserve _ _ _ _ _ _).
  - split; [by apply (window_inv_record k0 L T)|]. by apply RecordTokens_counter.
  - split; [by apply (window_inv_expire K L T)|simpl; lia].
Qed.

Lemma window_inv_run k0 L es T st log :
  let K := rpmKey k0 in
  exact_window W → 0 < L → reqIDCounter st + Z.of_nat (length es) < 2 ^ 64 →
  Forall (λ e, exact_clock (ev_time e)) es →
  Sorted Z.le (T :: (ev_time <$> es)) → Forall (limit_of K L) es →
  window_inv K L T st log →
  ∃ T', window_inv K L T' (run (st, log) es).1 (run (st, log) es).2.
Proof.
  intros K HW HL. revert T st log. induction es as [|e es IH]; intros T st log Hc Hck Hs Hl Hinv.
  { by exists T. }
  simpl in Hs. apply Sorted_inv in Hs as [Hs HT%HdRel_inv].
  apply Forall_cons in Hl as [He Hl]. apply Forall_cons in Hck as [Hcke Hck]. rewrite length_cons in Hc.
  destruct (window_step k0 L T st log e HW HL ltac:(lia) Hcke HT He Hinv) as [Hstep Hcnt].
  change (run (st, log) (e :: es)) with (run (step (st, log) e) es).
  destruct (step (st, log) e) as [st' log'] eqn:E. cbn [fst snd] in *.
  apply (IH (ev_time e)); auto. lia.
Qed.
End Trace.

Lemma window_inv_init {db : Type} `{RedisLaws db} r inst K L T st :
  0 < L → zset (store st) K = ∅ → 0 ≤ reqIDCounter st → window_inv (db := db) r inst K L T st [].
Proof.
  intros HL Hz Hc. split; [by apply store_inv_init| |done]. intros a Ha. by apply elem_of_nil in Ha.
Qed.

(** For every Redis obeying the documented sorted-set commands, every
    interleaving of [Reserve], [RecordTokens] and key expiry at non-decreasing
    times, and every instant [t]: the gateway admits at most [L] requests of an
    API key in the sliding minute ending at [t], where [L] is the key's
    effective RPM; lost replies and other keys cannot break the bound. *)
Theorem rpm_window_bound {db : Type} `{RedisLaws db} (cfg : RateLimitConfig) (inst : string)
    (k0 : KeyInfo) (L : Z) (es : list Event) (st : LimState db) (t : Z)
    (HL : 0 < L)
    (Hfresh : zset (store st) (rpmKey k0) = ∅)
    (Hcounter : 0 ≤ reqIDCounter st ∧ reqIDCounter st + Z.of_nat (length es) < 2 ^ 64)
    (Hclock : Forall (λ e, exact_clock (ev_time e)) es)
    (Htime : Sorted Z.le (ev_time <$> es))
    (Hlimit : Forall (limit_of (NewRedis cfg) (rpmKey k0) L) es) :
  Z.of_nat (length (admitted_in (rpmKey k0) 60000 t
    (run (NewRedis cfg) inst (st, []) es).2)) ≤ L.
Proof.
  destruct es as [|e es]; [simpl; lia|].
  destruct (window_inv_run (NewRedis cfg) inst k0 L (e :: es) (ev_time e) st []) as [T' Hinv].
  - split; vm_compute; discriminate.
  - done.
  - lia.
  - done.
  - apply Sorted_cons; [exact Htime|]. apply HdRel_cons. lia.
  - done.
  - apply window_inv_init; [done..|lia].
  - apply (inv_bound _ _ _ _ _ _ _ _ (inv_store _ _ _ _ _ _ _ Hinv) t).
Qed.

(** A key limited to 2 requests per minute, on the executable Redis: three
    requests at 0, 1 and 2 ms, then one after the window has passed. *)
Definition demo_key : KeyInfo := mkKeyInfo "k1" "o1" "demo" 2 0 [] None.
Definition demo_cfg : RateLimitConfig := mkRateLimitConfig true 60 100000.
Definition demo_events : list Event :=
  [EReserve 0 demo_key NetOk; EReserve 1 demo_key NetOk; EReserve 2 demo_key NetOk;
   ERecord 3 demo_key 10 NetOk; EReserve 60001 demo_key NetOk].
Definition demo_state : LimState MapRedis.db := mkLimState MapRedis.empty_db 0.

Lemma rpm_window_bound_witness :
  Z.of_nat (length (admitted_in (rpmKey demo_key) 60000 2
    (run (NewRedis demo_cfg) "abc" (demo_state, []) demo_events).2)) ≤ 2.
Proof.
  apply (rpm_window_bound demo_cfg "abc" demo_key 2 demo_events demo_state 2).
  - lia.
  - reflexivity.
  - split; vm_compute; [discriminate|reflexivity].
  - repeat (constructor; [split; vm_compute; discriminate|]). constructor.
  - vm_compute. repeat constructor; discriminate.
  - repeat constructor; simpl; auto.
Defined.

(** The bound is attained, and a slot is released once it leaves the window. *)
Example demo_admitted :
  adm_time <$> (run (NewRedis demo_cfg) "abc" (demo_state, []) demo_events).2 = [60001; 1; 0].
Proof. vm_compute. reflexivity. Qed.
