(* ===== verification/Fleet.v ===== *)
(** * Several gateways on one Redis

    The limiter's sets live in Redis and are shared by every gateway process.
    A process is a position in a list of seeds, the inputs [newInstanceID] drew
    its prefix from; it has a request-id counter of its own.  A limiter call
    reads the clock and takes a request id in its process, and its script runs
    in Redis at some later time, once, never, or again when a lost reply makes
    the client resend it.  All of these interleave freely.

    The request limit then holds for the fleet ([fleet_window_bound]), because
    different seeds give different prefixes and these keep the processes' set
    members apart; [same_seed_undercounts] shows what happens otherwise.  When
    clocks and delays let the reading of a call differ from the server's clock,
    the window the bound is about shrinks by that much; [skewed_clocks] shows
    that it has to. *)

From S2P Require Import Prelude GoStrings Sha256 Lua Redis RateLimit RateLimitWindow.
From Stdlib Require Import Sorted Ascii.
Local Open Scope Z_scope.

(** ** Instance ids *)

(** The text before the first dash. *)
Fixpoint before_dash (s : string) : string :=
  match s with
  | "" => ""
  | String c s => if Ascii.eqb c "-" then "" else String c (before_dash s)
  end.

Definition no_dash (s : string) : Prop := str_all (not_char "-"%char) s = true.

Lemma before_dash_app s t : no_dash s → before_dash (s +:+ String "-" t) = s.
Proof.
  unfold no_dash. induction s as [|c s IH]; [done|]. rewrite str_all_cons, andb_true_iff. intros [Hc Hs].
  change (String c s +:+ String "-" t) with (String c (s +:+ String "-" t)). simpl.
  unfold not_char in Hc. destruct (Ascii.eqb_spec c "-") as [->|]; [done|]. by rewrite IH.
Qed.

(** Processes with different prefixes never make the same id. *)
Lemma reqID_foreign i j t t' n n' : no_dash i → no_dash j → i ≠ j → reqID i t n ≠ reqID j t' n'.
Proof.
  intros Hi Hj Hne Heq. apply Hne. rewrite <-(before_dash_app i (Itoa t +:+ "-" +:+ Itoa n) Hi).
  rewrite <-(before_dash_app j (Itoa t' +:+ "-" +:+ Itoa n') Hj). exact (f_equal before_dash Heq).
Qed.

Lemma hex_digit_no_dash n : not_char "-"%char (hex_digit n) = true ∨ (36 ≤ n)%nat.
Proof. do 36 (destruct n as [|n]; [by left|]). right. lia. Qed.

Lemma digits36_no_dash fuel n acc : 0 ≤ n → no_dash acc → no_dash (digits36 fuel n acc).
Proof.
  unfold no_dash. revert n acc. induction fuel as [|fuel IH]; intros n acc Hn Ha; [done|]. simpl.
  pose proof (Z.mod_pos_bound n 36 ltac:(lia)) as Hm.
  assert (str_all (not_char "-"%char) (String (hex_digit (Z.to_nat (n `mod` 36))) acc) = true) as Hc.
  { rewrite str_all_cons, Ha, andb_true_r. destruct (hex_digit_no_dash (Z.to_nat (n `mod` 36))); [done|lia]. }
  destruct (_ =? 0); [done|]. apply IH; [apply Z.div_pos; lia|done].
Qed.

Lemma EncodeToString_no_dash b : Forall (λ x, 0 ≤ x < 256) b → no_dash (EncodeToString b).
Proof.
  unfold no_dash. induction 1 as [|x b Hx _ IH]; [done|]. cbn [EncodeToString].
  assert (∀ y, 0 ≤ y < 16 → not_char "-"%char (hex_char y) = true) as Hy.
  { intros y Hy. unfold hex_char. destruct (hex_digit_no_dash (Z.to_nat y)); [done|lia]. }
  rewrite !str_all_cons, IH, (Hy (x / 16)), (Hy (x `mod` 16)); [done|apply Z.mod_pos_bound; lia|].
  split; [apply Z.div_pos; lia|apply Z.div_lt_upper_bound; lia].
Qed.

(** Whatever the random source and the clock give, the prefix has no dash. *)
Lemma newInstanceID_no_dash random now :
  0 ≤ now → (∀ b, random = Some b → Forall (λ x, 0 ≤ x < 256) b) → no_dash (newInstanceID random now).
Proof.
  intros Hn Hb. unfold newInstanceID. destruct random as [b|]; [by apply EncodeToString_no_dash, Hb|].
  unfold FormatInt36. destruct (Z.ltb_spec now 0); [lia|].
  change ("" +:+ ?x) with x. apply digits36_no_dash; [lia|done].
Qed.

(** *** Different seeds give different prefixes *)

(** The value of a digit, as [hex_digit] writes it. *)
Definition digit_value (c : ascii) : Z :=
  Z.of_nat (default 0%nat (fst <$> list_find (λ n, hex_digit n = c) (seq 0 36))).

Lemma digit_value_hex n : (n < 36)%nat → digit_value (hex_digit n) = Z.of_nat n.
Proof. intros Hn. do 36 (destruct n as [|n]; [by vm_compute|]). lia. Qed.

Fixpoint read36 (s : string) (acc : Z) : Z :=
  match s with
  | "" => acc
  | String c s => read36 s (acc * 36 + digit_value c)
  end.

Lemma read36_digits36 fuel n acc : 0 ≤ n < 36 ^ Z.of_nat fuel → read36 (digits36 fuel n acc) 0 = read36 acc n.
Proof.
  revert n acc. induction fuel as [|fuel IH]; intros n acc Hn.
  { change (36 ^ Z.of_nat 0) with 1 in Hn. by replace n with 0 by lia. }
  rewrite Nat2Z.inj_succ, Z.pow_succ_r in Hn by lia. cbn [digits36].
  pose proof (Z.mod_pos_bound n 36 ltac:(lia)). pose proof (Z.div_mod n 36 ltac:(lia)).
  assert (digit_value (hex_digit (Z.to_nat (n `mod` 36))) = n `mod` 36) as Hd
    by (rewrite digit_value_hex by lia; lia).
  destruct (Z.eqb_spec (n / 36) 0) as [E|E]; [|rewrite IH by (split; [apply Z.div_pos|apply Z.div_lt_upper_bound]; lia)];
    cbn [read36]; rewrite Hd; f_equal; lia.
Qed.

Lemma FormatInt36_inj n n' : 0 ≤ n ≤ max64 → 0 ≤ n' ≤ max64 → FormatInt36 n = FormatInt36 n' → n = n'.
Proof.
  unfold FormatInt36, max64. intros Hn Hn' E.
  destruct (Z.ltb_spec n 0), (Z.ltb_spec n' 0); try lia. change ("" +:+ ?x) with x in E.
  apply (f_equal (λ s, read36 s 0)) in E. rewrite !read36_digits36 in E; [cbn [read36] in E; lia|..];
    change (36 ^ Z.of_nat 13) with 170581728179578208256; lia.
Qed.

Lemma EncodeToString_inj b b' :
  Forall (λ x, 0 ≤ x < 256) b → Forall (λ x, 0 ≤ x < 256) b' → EncodeToString b = EncodeToString b' → b = b'.
Proof.
  intros Hb. revert b'. induction Hb as [|x b Hx _ IH]; intros b' Hb' E; destruct Hb' as [|y b' Hy Hb']; try done.
  cbn [EncodeToString] in E. injection E as E1 E2 E. f_equal; [|by apply IH].
  assert (∀ u v, 0 ≤ u < 16 → 0 ≤ v < 16 → hex_char u = hex_char v → u = v) as Hinj.
  { intros u v Hu Hv Huv%(f_equal digit_value). unfold hex_char in Huv. rewrite !digit_value_hex in Huv by lia. lia. }
  apply Hinj in E1; [|split; [apply Z.div_pos|apply Z.div_lt_upper_bound]; lia..].
  apply Hinj in E2; [|apply Z.mod_pos_bound; lia..].
  rewrite (Z.div_mod x 16), (Z.div_mod y 16) by lia. congruence.
Qed.

(** What a process starts from: the six bytes [rand.Read] gave it, if it did,
    and its clock in Unix nanoseconds. *)
Definition Seed : Type := option (list Z) * Z.

Definition instance_of (s : Seed) : string := newInstanceID s.1 s.2.

Definition seed_ok (s : Seed) : Prop :=
  match s.1 with
  | Some b => length b = 6%nat ∧ Forall (λ x, 0 ≤ x < 256) b
  | None => 0 ≤ s.2 ≤ max64
  end.

(** Different random bytes, or, when both had none, different start times; a
    process of one kind and one of the other must not spell the same digits. *)
Definition seeds_differ (s s' : Seed) : Prop :=
  match s.1, s'.1 with
  | Some b, Some b' => b ≠ b'
  | None, None => s.2 ≠ s'.2
  | Some b, None => EncodeToString b ≠ FormatInt36 s'.2
  | None, Some b' => FormatInt36 s.2 ≠ EncodeToString b'
  end.

Lemma instance_of_no_dash s : seed_ok s → no_dash (instance_of s).
Proof.
  destruct s as [[b|] now]; unfold seed_ok, instance_of; cbn [fst snd].
  - intros [_ Hb]. by apply EncodeToString_no_dash.
  - intros Hn. apply (newInstanceID_no_dash None now); [lia|done].
Qed.

Lemma instance_of_differ s s' : seed_ok s → seed_ok s' → seeds_differ s s' → instance_of s ≠ instance_of s'.
Proof.
  destruct s as [[b|] now], s' as [[b'|] now']; unfold seed_ok, seeds_differ, instance_of, newInstanceID; cbn [fst snd].
  - intros [_ Hb] [_ Hb'] Hne E. by apply Hne, EncodeToString_inj.
  - done.
  - done.
  - intros Hn Hn' Hne E. by apply Hne, FormatInt36_inj.
Qed.

(** ** Executions of a fleet *)

(** A limiter call between its clock reading and its script: a [Reserve], or a
    [RecordTokens] of a number of tokens. *)
Record Call := mkCall {
  cl_key : KeyInfo;
  cl_tokens : option Z;
  cl_now : Z;
  cl_id : string;
}.

(** Process [p] starts call [i] at its clock [now]; Redis runs the script of
    call [i] at its own clock [srv] and the reply arrives or is lost; keys
    expire. *)
Inductive FEvent :=
| FReserve (p i : nat) (key : KeyInfo) (now : Z)
| FRecord (p i : nat) (key : KeyInfo) (tokens now : Z)
| FScript (i : nat) (srv : Z) (replied : bool)
| FExpire (srv : Z).

Section Fleet.
Context {db : Type} `{RedisLaws db} (r : redisLimiter) (seeds : list Seed).

(** The shared database, the processes' counters and the calls in flight. *)
Record Fleet := mkFleet {
  fl_store : db;
  fl_counters : gmap nat Z;
  fl_calls : gmap nat Call;
}.

Definition counter (p : nat) (f : Fleet) : Z := default 0 (fl_counters f !! p).

(** The process's part of a call: [newReqID] at the clock reading [now]. *)
Definition start_call (p i : nat) (key : KeyInfo) (tokens : option Z) (now : Z) (f : Fleet) : Fleet :=
  match seeds !! p with
  | None => f
  | Some s =>
      let '(rid, st) := newReqID (instance_of s) now (mkLimState (fl_store f) (counter p f)) in
      mkFleet (store st) (<[p := reqIDCounter st]> (fl_counters f)) (<[i := mkCall key tokens now rid]> (fl_calls f))
  end.

(** Redis's part.  A call whose reply was lost may be sent again. *)
Definition run_call (i : nat) (srv : Z) (replied : bool) (fl : Fleet * list Admission) : Fleet * list Admission :=
  let '(f, log) := fl in
  match fl_calls f !! i with
  | None => fl
  | Some c =>
      let done d := mkFleet d (fl_counters f) (if replied then delete i (fl_calls f) else fl_calls f) in
      match cl_tokens c with
      | Some n => (done (run_record r (cl_key c) n (cl_now c) (cl_id c) srv (fl_store f)), log)
      | None =>
          let '(out, d) := run_check r (cl_key c) (cl_now c) (cl_id c) srv (fl_store f) in
          (done d,
           match check_answer r (cl_key c) (cl_now c) out with
           | inr x =>
               if replied && Allowed x then mkAdmission (rpmKey (cl_key c)) (cl_now c) (cl_id c) :: log else log
           | inl _ => log
           end)
      end
  end.

Definition fleet_step (fl : Fleet * list Admission) (e : FEvent) : Fleet * list Admission :=
  let '(f, log) := fl in
  match e with
  | FReserve p i key now =>
      if limited r key then (start_call p i key None now f, log)
      else (f, mkAdmission (rpmKey key) now "" :: log)
  | FRecord p i key tokens now =>
      if (tokens <=? 0) || (effectiveTPM r key <=? 0) then fl else (start_call p i key (Some tokens) now f, log)
  | FScript i srv replied => run_call i srv replied fl
  | FExpire srv => (mkFleet (expire_due srv (fl_store f)) (fl_counters f) (fl_calls f), log)
  end.

Definition fleet_run (fl : Fleet * list Admission) (es : list FEvent) : Fleet * list Admission :=
  foldl fleet_step fl es.

(** What the environment guarantees of the next event, when the server's clock
    was last seen at [T]: that clock does not go back, a script runs at most
    [late] after the reading its call took and at most [early] before it, and
    the key [K] has limit [L]. *)
Definition event_ok (late early : Z) (K : string) (L T : Z) (f : Fleet) (e : FEvent) : Prop :=
  match e with
  | FReserve _ _ key now => exact_clock now ∧ (rpmKey key = K → effectiveRPM r key = L)
  | FRecord _ _ _ _ now => exact_clock now
  | FScript i srv _ => T ≤ srv ∧ ∀ c, fl_calls f !! i = Some c → srv - late ≤ cl_now c ≤ srv + early
  | FExpire srv => T ≤ srv
  end.

Definition time_after (T : Z) (e : FEvent) : Z :=
  match e with FScript _ srv _ | FExpire srv => srv | _ => T end.

Fixpoint events_ok (late early : Z) (K : string) (L T : Z) (fl : Fleet * list Admission) (es : list FEvent) : Prop :=
  match es with
  | [] => True
  | e :: es => event_ok late early K L T fl.1 e ∧ events_ok late early K L (time_after T e) (fleet_step fl e) es
  end.

(** ** The invariant *)

Section Bound.
Context (late early : Z) (Hlate : 0 ≤ late) (Hearly : 0 ≤ early) (Hwin : exact_window (W r)).
Context (Hseeds : Forall seed_ok seeds)
  (Hdiffer : ∀ p q s s', p ≠ q → seeds !! p = Some s → seeds !! q = Some s' → seeds_differ s s').
Context (k0 : KeyInfo) (L : Z) (HL : 0 < L).
#[local] Abbreviation K := (rpmKey k0).

(** An id that some process has made. *)
Definition issued (f : Fleet) (id : string) : Prop :=
  ∃ p s ms n, seeds !! p = Some s ∧ id = reqID (instance_of s) ms n ∧ 0 ≤ n ≤ counter p f.

Record fleet_inv (T : Z) (f : Fleet) (log : list Admission) : Prop := {
  fi_store : store_inv r late early K L T (fl_store f) log;
  fi_log a : a ∈ log → adm_key a = K → issued f (adm_id a);
  fi_calls i c : fl_calls f !! i = Some c →
    issued f (cl_id c) ∧ exact_clock (cl_now c) ∧ fresh_for K (cl_id c) log ∧
    (cl_tokens c = None → rpmKey (cl_key c) = K → effectiveRPM r (cl_key c) = L);
  fi_distinct i j c c' : fl_calls f !! i = Some c → fl_calls f !! j = Some c' → cl_id c = cl_id c' → i = j;
  fi_counter p : 0 ≤ counter p f;
}.

(** The next id of a process is new to the fleet. *)
Lemma next_id_new p s now f id :
  seeds !! p = Some s → 0 ≤ counter p f → issued f id → id ≠ reqID (instance_of s) now (counter p f + 1).
Proof.
  intros Hp Hc (q&s'&ms&n&Hq&->&Hn) E. destruct (decide (q = p)) as [->|Hne].
  - replace s' with s in * by congruence. apply reqID_inj in E; lia.
  - rewrite Forall_forall in Hseeds.
    apply (reqID_foreign (instance_of s') (instance_of s) ms now n (counter p f + 1)); [..|exact E];
      [apply instance_of_no_dash, Hseeds; by eapply list_elem_of_lookup_2..|].
    apply instance_of_differ; [apply Hseeds; by eapply list_elem_of_lookup_2..|]. by eapply Hdiffer.
Qed.

Lemma start_call_inv T p i key tokens now f log :
  counter p f + 1 < 2 ^ 64 → exact_clock now →
  (tokens = None → rpmKey key = K → effectiveRPM r key = L) → fleet_inv T f log →
  fleet_inv T (start_call p i key tokens now f) log ∧ ∀ q, counter q (start_call p i key tokens now f) ≤ counter q f + 1.
Proof.
  intros Hc Hclk Hlim Hinv. unfold start_call. destruct (seeds !! p) as [s|] eqn:Hp; [|split; [done|lia]].
  unfold newReqID. cbn [store reqIDCounter]. pose proof (fi_counter _ _ _ Hinv p) as Hc0. rewrite wrapu64_id by lia.
  set (calls := <[i := _]> (fl_calls f)). set (f' := mkFleet _ _ _).
  assert (∀ q, counter q f' = if decide (p = q) then counter p f + 1 else counter q f) as Hcnt.
  { intros q. unfold counter at 1, f'. cbn [fl_counters]. rewrite lookup_insert. by case_decide. }
  assert (∀ id, issued f id → issued f' id) as Hiss.
  { intros id (q&s'&ms&n&?&->&Hn). exists q, s', ms, n. split; [done|]. split; [done|]. rewrite Hcnt. case_decide; subst; lia. }
  assert (issued f' (reqID (instance_of s) now (counter p f + 1))) as Hnew.
  { exists p, s, now, (counter p f + 1). split; [done|]. split; [done|]. rewrite Hcnt, decide_True by done. lia. }
  pose proof (λ id, next_id_new p s now f id Hp Hc0) as Hfr. destruct Hinv as [I1 I2 I3 I4 I5].
  split; [|intros q; rewrite Hcnt; case_decide; subst; lia]. split; [done|auto| | |].
  - intros j c. change (fl_calls f') with calls. intros [[_ <-]|[_ Hj]]%lookup_insert_Some; cbn [cl_id cl_now cl_key cl_tokens].
    + split; [done|]. split; [done|]. split; [|done]. intros a Ha HK. by apply Hfr, I2.
    + destruct (I3 j c Hj) as (?&?&?&?). auto.
  - intros j j' c c'. change (fl_calls f') with calls.
    intros [[<- <-]|[? Hj]]%lookup_insert_Some [[<- <-]|[? Hj']]%lookup_insert_Some; cbn [cl_id]; [done|..].
    + intros E. destruct (Hfr (cl_id c')); [by apply (I3 j')|done].
    + intros E. destruct (Hfr (cl_id c)); [by apply (I3 j)|done].
    + by eapply I4.
  - intros q. rewrite Hcnt. specialize (I5 q). case_decide; lia.
Qed.

(** What a script leaves: the other calls, and this one unless it was
    answered. *)
Lemma run_inv_same T srv i (replied : bool) d f log :
  T ≤ srv → store_inv r late early K L srv d log → fleet_inv T f log →
  fleet_inv srv (mkFleet d (fl_counters f) (if replied then delete i (fl_calls f) else fl_calls f)) log.
Proof.
  intros HT Hs [I1 I2 I3 I4 I5].
  assert (∀ j c, (if replied then delete i (fl_calls f) else fl_calls f) !! j = Some c → fl_calls f !! j = Some c) as Hsub.
  { intros j c. destruct replied; [|done]. rewrite lookup_delete_Some. tauto. }
  split; cbn [fl_store fl_calls]; [done|exact I2| | |exact I5].
  - intros j c Hj%Hsub. exact (I3 j c Hj).
  - intros j j' c c' Hj%Hsub Hj'%Hsub. by eapply I4.
Qed.

Lemma run_inv_admit T srv i c d f log :
  T ≤ srv → fl_calls f !! i = Some c → cl_tokens c = None →
  store_inv r late early K L srv d (mkAdmission (rpmKey (cl_key c)) (cl_now c) (cl_id c) :: log) → fleet_inv T f log →
  fleet_inv srv (mkFleet d (fl_counters f) (delete i (fl_calls f)))
    (mkAdmission (rpmKey (cl_key c)) (cl_now c) (cl_id c) :: log).
Proof.
  intros HT Hi Htok Hs [I1 I2 I3 I4 I5]. split; cbn [fl_store fl_calls]; [done| | | |exact I5].
  - intros a [->|Ha]%elem_of_cons HK; [by apply (I3 i)|by apply I2].
  - intros j c' [Hne Hj]%lookup_delete_Some. destruct (I3 j c' Hj) as (H1&H2&H3&H4).
    split; [exact H1|]. split; [done|]. split; [|done].
    intros a [->|Ha]%elem_of_cons HK; [|by apply H3]. cbn [adm_id]. intros E. by apply Hne, (I4 i j c c').
  - intros j j' e e' [_ Hj]%lookup_delete_Some [_ Hj']%lookup_delete_Some. by eapply I4.
Qed.

Lemma run_call_inv T i srv replied f log :
  T ≤ srv → (∀ c, fl_calls f !! i = Some c → srv - late ≤ cl_now c ≤ srv + early) → fleet_inv T f log →
  let fl := run_call i srv replied (f, log) in fleet_inv srv fl.1 fl.2 ∧ ∀ q, counter q fl.1 = counter q f.
Proof.
  intros HT Htime Hinv. unfold run_call. destruct (fl_calls f !! i) as [c|] eqn:Hi.
  2:{ split; [|done]. destruct Hinv as [I1 I2 I3 I4 I5]. split; try done. by eapply store_inv_later. }
  specialize (Htime c eq_refl). destruct (fi_calls _ _ _ Hinv i c Hi) as (_&Hclk&Hfr&Hlim).
  destruct (cl_tokens c) as [n|] eqn:Htok; cbn [fst snd].
  { split; [|done]. eapply run_inv_same; [exact HT|apply store_inv_record with (T := T); [done|apply Hinv]|exact Hinv]. }
  destruct (store_inv_check r late early k0 L T srv (cl_key c) (cl_now c) (cl_id c) (fl_store f) log)
    as (p&d&Heq&Hs&Ha); auto; [apply Hinv|].
  rewrite Heq. unfold check_answer. rewrite parse_reply. cbn [fst snd reservation_of Allowed]. split; [|done].
  destruct replied; cbn [andb]; [|exact (run_inv_same T srv i false d f log HT Hs Hinv)].
  destruct (allowed p); [|exact (run_inv_same T srv i true d f log HT Hs Hinv)]. eapply run_inv_admit; eauto.
Qed.

Lemma fleet_step_inv T f log e :
  (∀ p, counter p f + 1 < 2 ^ 64) → event_ok late early K L T f e → fleet_inv T f log →
  let fl := fleet_step (f, log) e in
  fleet_inv (time_after T e) fl.1 fl.2 ∧ ∀ q, counter q fl.1 ≤ counter q f + 1.
Proof.
  intros Hc He Hinv. destruct e as [p i key now|p i key tokens now|i srv replied|srv]; cbn [fleet_step time_after event_ok] in *.
  - destruct He as [Hclk Hlim]. destruct (limited r key) eqn:Hl; [apply start_call_inv; auto|]. split; [|simpl; lia].
    assert (rpmKey key ≠ K) as Hne.
    { intros HK. specialize (Hlim HK). unfold limited in Hl. rewrite Hlim in Hl. destruct (Z.leb_spec L 0); [lia|done]. }
    destruct Hinv as [I1 I2 I3 I4 I5]. split; try done; cbn [fst snd].
    + by apply store_inv_other.
    + intros a [->|Ha]%elem_of_cons HK; [done|auto].
    + intros j c Hj. destruct (I3 j c Hj) as (?&?&Hf&?). split; [done|]. split; [done|]. split; [|done].
      intros a [->|Ha]%elem_of_cons HK; [done|by apply Hf].
  - destruct (_ || _); [split; [done|simpl; lia]|]. by apply start_call_inv.
  - destruct He as [HT Ht]. destruct (run_call_inv T i srv replied f log HT Ht Hinv) as [H1 H2].
    split; [exact H1|]. intros q. rewrite H2. lia.
  - split; [|intros q; unfold counter; cbn [fst fl_counters]; lia].
    destruct Hinv as [I1 I2 I3 I4 I5]. split; try done. by eapply store_inv_expire.
Qed.

Lemma fleet_inv_run es T f log :
  (∀ p, counter p f + Z.of_nat (length es) < 2 ^ 64) → events_ok late early K L T (f, log) es → fleet_inv T f log →
  ∃ T', fleet_inv T' (fleet_run (f, log) es).1 (fleet_run (f, log) es).2.
Proof.
  revert T f log. induction es as [|e es IH]; intros T f log Hc Hok Hinv; [by exists T|].
  cbn [events_ok fst] in Hok. destruct Hok as [He Hok]. rewrite length_cons in Hc.
  destruct (fleet_step_inv T f log e) as [Hstep Hcnt]; [intros p; specialize (Hc p); lia|done|done|].
  change (fleet_run (f, log) (e :: es)) with (fleet_run (fleet_step (f, log) e) es).
  destruct (fleet_step (f, log) e) as [f' log'] eqn:E. cbn [fst snd] in *.
  apply (IH (time_after T e)); [|done|done]. intros p. specialize (Hc p). specialize (Hcnt p). lia.
Qed.

Lemma fleet_inv_init T d : zset d K = ∅ → fleet_inv T (mkFleet d ∅ ∅) [].
Proof.
  intros Hz. split; cbn [fl_store fl_calls].
  - by apply store_inv_init.
  - intros a Ha. by apply elem_of_nil in Ha.
  - intros i c. by rewrite lookup_empty.
  - intros i j c c'. by rewrite lookup_empty.
  - intros p. unfold counter. cbn [fl_counters]. by rewrite lookup_empty.
Qed.
End Bound.
End Fleet.

(** C1: the request limit holds for a fleet.  Any number of gateway processes,
    started from pairwise different random bytes (or, where the random source
    failed, start times), share a Redis that obeys the documented commands.
    Calls read their process's clock and take their ids in any order, their
    scripts run in any order, once, never or repeatedly after lost replies, and
    keys expire; the server's clock does not go back, and shows at most [late]
    more and at most [early] less at a script's run than the reading the call
    carries.  Then together the processes admit at most [L] requests of an API
    key, its effective RPM, with readings in any window of one minute less
    [late + early], and so in any sliding minute when readings and server time
    agree. *)
Theorem fleet_window_bound {db : Type} `{RedisLaws db} (cfg : RateLimitConfig) (seeds : list Seed)
    (k0 : KeyInfo) (L late early T : Z) (es : list FEvent) (d : db) (t : Z)
    (HL : 0 < L) (Hlate : 0 ≤ late) (Hearly : 0 ≤ early)
    (Hfresh : zset d (rpmKey k0) = ∅) (Hlen : Z.of_nat (length es) < 2 ^ 64)
    (Hseeds : Forall seed_ok seeds)
    (Hdiffer : ∀ p q s s', p ≠ q → seeds !! p = Some s → seeds !! q = Some s' → seeds_differ s s')
    (Hevents : events_ok (NewRedis cfg) seeds late early (rpmKey k0) L T (mkFleet d ∅ ∅, []) es) :
  Z.of_nat (length (admitted_in (rpmKey k0) (60000 - (late + early)) t
    (fleet_run (NewRedis cfg) seeds (mkFleet d ∅ ∅, []) es).2)) ≤ L.
Proof.
  assert (exact_window (W (NewRedis cfg))) as HW by (split; vm_compute; discriminate).
  destruct (fleet_inv_run (NewRedis cfg) seeds late early Hlate Hearly HW Hseeds Hdiffer k0 L HL es T (mkFleet d ∅ ∅) [])
    as [T' Hinv].
  - intros p. unfold counter. cbn [fl_counters]. rewrite lookup_empty. cbn [default]. by rewrite Z.add_0_l.
  - done.
  - by apply fleet_inv_init.
  - apply (inv_bound _ _ _ _ _ _ _ _ (fi_store _ _ _ _ _ _ _ _ _ Hinv) t).
Qed.

(** Two processes, one without random bytes, and a key limited to 2 requests
    per minute.  Their calls read 5 and 6 ms; the scripts run in the other
    order up to 3 ms later, one of them twice because its first reply is lost
    (the second run finds the slots taken, one of them by the first run); two
    more calls are not admitted either. *)
Definition demo_seeds : list Seed := [(Some [1; 35; 69; 103; 137; 171], 0); (None, 1700000000000000000)].
Definition fleet_events : list FEvent :=
  [FReserve 0 0 demo_key 5; FReserve 1 1 demo_key 6; FScript 1 6 false; FScript 0 8 true; FScript 1 8 true;
   FReserve 1 2 demo_key 9; FReserve 0 3 demo_key 9; FScript 3 9 true; FScript 2 10 true].

Lemma fleet_window_bound_witness :
  adm_id <$> (fleet_run (NewRedis demo_cfg) demo_seeds (mkFleet MapRedis.empty_db ∅ ∅, []) fleet_events).2 =
    ["0123456789ab-5-1"] ∧
  Z.of_nat (length (admitted_in (rpmKey demo_key) (60000 - (3 + 0)) 10
    (fleet_run (NewRedis demo_cfg) demo_seeds (mkFleet MapRedis.empty_db ∅ ∅, []) fleet_events).2)) ≤ 2.
Proof.
  split; [vm_compute; reflexivity|].
  apply (fleet_window_bound demo_cfg demo_seeds demo_key 2 3 0 0 fleet_events MapRedis.empty_db 10).
  - lia.
  - lia.
  - lia.
  - reflexivity.
  - reflexivity.
  - constructor; [|constructor; [|constructor]].
    + split; [reflexivity|]. repeat (constructor; [lia|]). constructor.
    + vm_compute. split; discriminate.
  - intros p q s s' Hne Hp Hq.
    destruct p as [|[|p]], q as [|[|q]]; try done; injection Hp as <-; injection Hq as <-; vm_compute; discriminate.
  - unfold fleet_events. cbn [events_ok event_ok time_after].
    repeat (split; [first [intros; reflexivity | split; [vm_compute; split; discriminate|intros; reflexivity]
      | split; [lia|]; intros c Hc; vm_compute in Hc; injection Hc as <-; cbn [cl_now]; lia]|]). exact I.
Defined.

(** *** Why the hypotheses are there *)

(** Processes with the same seed write the same members: three requests of a key
    limited to two. *)
Definition calls_at (ps : list (nat * Z * Z)) : list FEvent :=
  mjoin ((λ '(p, now, srv), [FReserve p 0 demo_key now; FScript 0 srv true]) <$> ps).

Example same_seed_undercounts :
  let seeds := [(None, 5); (None, 5)] in
  length (admitted_in (rpmKey demo_key) 60000 5
    (fleet_run (NewRedis demo_cfg) seeds (mkFleet MapRedis.empty_db ∅ ∅, [])
       (calls_at [(0%nat, 5, 5); (1%nat, 5, 5); (0%nat, 5, 5)])).2) = 3%nat.
Proof. vm_compute. reflexivity. Qed.

(** A process whose clock is a minute ahead drops the entries of the others:
    three requests with readings in one minute; with that much of a difference
    the bound is about an empty window. *)
Example skewed_clocks :
  let log := (fleet_run (NewRedis demo_cfg) demo_seeds (mkFleet MapRedis.empty_db ∅ ∅, [])
    (calls_at [(0%nat, 5, 5); (0%nat, 6, 6); (1%nat, 60007, 7); (0%nat, 8, 8)])).2 in
  length (admitted_in (rpmKey demo_key) 60000 8 log) = 3%nat ∧
  length (admitted_in (rpmKey demo_key) (60000 - (0 + 60000)) 8 log) = 0%nat.
Proof. vm_compute. split; reflexivity. Qed.
