(* ===== verification/RateLimitProps.v ===== *)
(** * Per-call behaviour of the rate limiter

    What one [Reserve], [AllowRequest] or [RecordTokens] call returns and does
    to Redis on each path: the decision, the header payload, the retry hint,
    the fail-open behaviour and the time-to-live of the two sorted sets. *)

From S2P Require Import Prelude GoStrings Lua Redis RateLimit RateLimitWindow.
Local Open Scope Z_scope.

Section Calls.
Context {db : Type} `{RedisLaws db}.
Implicit Types (d : db) (st : LimState db).

(** The stored times are not in the future of the caller's clock. *)
Definition no_future (now : Z) (k : string) (d : db) : Prop :=
  ∀ m s, zset d k !! m = Some s → s ≤ now.

Lemma oldest_score_live now w k d :
  no_future now k d → 0 < w →
  zset d k = live now w (zset d k) →
  now - w < oldest_score now k d ≤ now.
Proof.
  intros Hnf Hw Hlive. unfold oldest_score.
  destruct (ZRANGE_FIRST k d) as [[m s]|] eqn:E; [|lia].
  apply ZRANGE_FIRST_Some in E as [Hm _]. split; [|by eapply Hnf].
  rewrite Hlive in Hm. by apply map_lookup_filter_Some in Hm as [_ ?].
Qed.

Lemma computeReset_live now oldest :
  exact_clock now → now - ms_window < oldest ≤ now →
  computeReset now oldest ms_window = (oldest + ms_window - now) * Millisecond.
Proof.
  unfold exact_clock, computeReset, ms_window, Millisecond. intros Hs Ho.
  rewrite (wrap64_id (now - oldest)) by (unfold in64, min64, max64; lia).
  rewrite (wrap64_id (60000 - _)) by (unfold in64, min64, max64; lia).
  destruct (Z.ltb_spec (60000 - (now - oldest)) 0); [lia|].
  rewrite wrap64_id by (unfold in64, min64, max64; lia). lia.
Qed.

(** The oldest entry check.lua reports for the rejecting dimension. *)
Lemma check_lua_oldest srv rk tk now w rpm tpm rid d p d' :
  rk ≠ tk → exact_clock now → exact_window w → 0 < w → no_future now rk d → no_future now tk d →
  check_lua srv rk tk now w rpm tpm rid d = (reply_of p, d') →
  (allowed p = false → code p = 1 →
     ∃ m s, live now w (zset d rk) !! m = Some s ∧ rpmOldestMs p = s ∧
       ∀ m' s', live now w (zset d rk) !! m' = Some s' → s ≤ s') ∧
  (allowed p = false → code p = 2 → now - w < tpmOldestMs p ≤ now).
Proof.
  unfold exact_clock, exact_window. intros Hne Hclk Hwin Hw Hr Ht. unfold check_lua.
  rewrite (lua_number_exact now), (lua_number_exact w), (lua_number_exact (now - w)), !lua_number_pos by lia.
  rewrite ZCARD_size, zset_prune, decide_True by done.
  set (R := live now w (zset d rk)).
  assert (∀ x, now - w < x ≤ now → reply_integer x = x) as Hreply.
  { intros x Hx. apply reply_integer_in64. unfold in64, min64, max64. lia. }
  destruct ((0 <? rpm) && (lua_number rpm <=? lua_number (Z.of_nat (size R)))) eqn:E1.
  - intros [= Ha Hc _ Hold _ _ _]. destruct p as [[] ?????]; simplify_eq/=.
    split; [|lia]. intros _ _. unfold oldest_score.
    apply andb_true_iff in E1 as [E0 E1%Z.leb_le]. rewrite <-lua_number_pos in E0. apply Z.ltb_lt in E0.
    destruct (ZRANGE_FIRST rk _) as [[m s]|] eqn:E.
    + apply ZRANGE_FIRST_Some in E as [Hm Hmin]. rewrite zset_prune, decide_True in * by done.
      exists m, s. split; [done|]. split; [|done].
      apply map_lookup_filter_Some in Hm as [Hm ?]. specialize (Hr _ _ Hm). apply Hreply. done.
    + apply ZRANGE_FIRST_None in E. rewrite zset_prune, decide_True in E by done.
      fold R in E. rewrite E, map_size_empty in E1. change (lua_number (Z.of_nat 0)) with 0 in E1. lia.
  - destruct (0 <? tpm) eqn:Et; cbn [andb].
    + destruct (lua_number tpm <=? _) eqn:E2; intros [= Ha Hc _ _ _ Hold _];
        destruct p as [[] ?????]; simplify_eq/=; split; try lia; intros _ _.
      rewrite Hreply; apply oldest_score_live; try done.
      1,3: intros m s; rewrite !zset_prune, decide_True, decide_False by done;
        intros [? _]%map_lookup_filter_Some; by eapply Ht.
      1,2: rewrite !zset_prune, decide_True, decide_False by done;
        unfold live; symmetry; apply map_filter_id; intros i x; simpl; by intros [_ ?]%map_lookup_filter_Some.
    + intros [= Ha Hc _ _ _ _ _]. destruct p as [[] ?????]; simplify_eq/=. split; lia.
Qed.

(** Every entry of the set is still live strictly before the oldest one
    leaves the window. *)
Lemma live_until now w t s (Z0 : gmap string Z) :
  now ≤ t → (∀ m' s', live now w Z0 !! m' = Some s' → s ≤ s') → t < s + w →
  live t w (live now w Z0) = live now w Z0.
Proof.
  intros Ht Hmin Hlt. unfold live at 1. apply map_filter_id. intros m' s' Hm'.
  specialize (Hmin _ _ Hm'). simpl. lia.
Qed.

Lemma live_shrinks w t m s (Z0 : gmap string Z) :
  Z0 !! m = Some s → s + w ≤ t → (size (live t w Z0) < size Z0)%nat.
Proof.
  intros Hm Ht. apply map_subset_size. unfold live. split; [apply map_filter_subseteq|].
  intros Hsub. specialize (lookup_weaken _ _ _ _ Hm Hsub).
  intros [_ ?]%map_lookup_filter_Some. simpl in *. lia.
Qed.
End Calls.

Lemma clampRemaining_max limit used :
  in64 limit → 0 ≤ used →
  clampRemaining limit used = if 0 <? limit then Z.max 0 (limit - used) else 0.
Proof.
  unfold clampRemaining, in64. intros Hl Hu.
  destruct (Z.leb_spec limit 0), (Z.ltb_spec 0 limit), (Z.leb_spec limit used); simpl; try lia.
  rewrite wrap64_id; [lia|]. unfold in64, min64, max64 in *. lia.
Qed.

(** The limiter's window is one the scripts compute with exactly. *)
Lemma minute_window cfg : exact_window (W (NewRedis cfg)).
Proof. split; vm_compute; discriminate. Qed.

(** A [Reserve] that Redis answers decides by the window contents alone:
    requests in the window against the RPM limit, then tokens in the window
    against the TPM limit.  Only an admitted request consumes an RPM slot (a
    TPM-rejected one does not), no other key is touched, and the reported
    remaining counts are the limits minus the usage, never negative. *)
Theorem reserve_decision {db : Type} `{RedisLaws db} (cfg : RateLimitConfig) (inst : string)
    (key : KeyInfo) (now : Z) (st : LimState db) :
  let r := NewRedis cfg in
  let rpm := effectiveRPM r key in
  let tpm := effectiveTPM r key in
  let R := live now 60000 (zset (store st) (rpmKey key)) in
  let T := live now 60000 (zset (store st) (tpmKey key)) in
  let v := decide_request rpm tpm R T in
  let rid := (newReqID inst now st).1 in
  limited r key = true → in64 rpm → exact_clock now → Z.of_nat (size R) < 2 ^ 53 →
  ∃ res st', Reserve r inst key now NetOk st = (inr res, st') ∧
    Allowed res = bool_decide (v = Admit) ∧
    zset (store st') (rpmKey key) =
      (if bool_decide (v = Admit) && (0 <? rpm) then <[rid := now]> R else R) ∧
    zset (store st') (tpmKey key) =
      (if bool_decide (v ≠ RejectRPM) && (0 <? tpm) then T else zset (store st) (tpmKey key)) ∧
    (∀ k, k ≠ rpmKey key → k ≠ tpmKey key → zset (store st') k = zset (store st) k) ∧
    Limit res = rpm ∧ TpmLimit res = tpm ∧
    Remaining res =
      (if 0 <? rpm
       then Z.max 0 (rpm - (Z.of_nat (size R) + (if bool_decide (v = Admit) then 1 else 0)))
       else 0).
Proof.
  intros r rpm tpm R T v rid Hlim Hr Hclk HR53.
  destruct (Reserve_spec r inst key now NetOk st Hlim Hclk (minute_window cfg)) as (p&d'&Heq&Hpost&HR).
  eexists _, _. split; [exact HR|]. cbn [store Allowed Limit TpmLimit Remaining reservation_of].
  destruct Hpost as (Hoth&Hrk&Htk&Hal&Hcode&Hru&Htu). unfold W in *.
  change (Z.quot (window r) Millisecond) with 60000 in *.
  change (reqID inst now _) with rid in *. fold rpm tpm R T v in Hrk, Htk, Hal, Hcode, Hru, Htu.
  rewrite Hrk, Htk, Hal, Hru. fold rpm.
  rewrite (lua_number_exact (Z.of_nat (size R))), (lua_number_exact (Z.of_nat (size R) + 1)) by lia.
  rewrite reply_integer_in64 by (unfold in64, min64, max64; destruct v; lia).
  rewrite clampRemaining_max by (done || (destruct v; lia)).
  split_and!; [done| |  |done|done|done|].
  - by destruct v.
  - by destruct v.
  - destruct v; [rewrite bool_decide_eq_true_2 by done|rewrite bool_decide_eq_false_2 by done..];
      by rewrite ?Z.add_0_r.
Qed.

Lemma reserve_decision_witness :
  ∃ res st', Reserve (NewRedis demo_cfg) "abc" demo_key 5 NetOk demo_state = (inr res, st') ∧
    Allowed res = true ∧ Remaining res = 1.
Proof.
  destruct (reserve_decision demo_cfg "abc" demo_key 5 demo_state)
    as (res&st'&HR&Hal&_&_&_&_&_&Hrem).
  - reflexivity.
  - vm_compute. split; discriminate.
  - split; vm_compute; discriminate.
  - reflexivity.
  - exists res, st'. split; [exact HR|]. split; [rewrite Hal|rewrite Hrem]; reflexivity.
Defined.

(** A full window: [Reserve] rejects, prunes, and hints at the instant the
    oldest live entry [m] (stored at [s]) leaves the window. *)
Lemma reserve_full {db : Type} `{RedisLaws db} cfg inst key now (st : LimState db) :
  let r := NewRedis cfg in
  let rpm := effectiveRPM r key in
  let R := live now 60000 (zset (store st) (rpmKey key)) in
  0 < rpm → rpm ≤ Z.of_nat (size R) → exact_clock now →
  no_future now (rpmKey key) (store st) → no_future now (tpmKey key) (store st) →
  ∃ res st' m s, Reserve r inst key now NetOk st = (inr res, st') ∧
    Allowed res = false ∧ zset (store st') (rpmKey key) = R ∧
    R !! m = Some s ∧ (∀ m' s', R !! m' = Some s' → s ≤ s') ∧ now - 60000 < s ≤ now ∧
    RetryAfter res = (s + 60000 - now) * Millisecond.
Proof.
  intros r rpm R Hrpm Hfull Hclk Hnf Hnft.
  assert (limited r key = true) as Hlim.
  { unfold limited. fold rpm. destruct (Z.leb_spec rpm 0); [lia|done]. }
  assert (∀ tpm T, decide_request rpm tpm R T = RejectRPM) as Hv by (intros; by apply decide_full).
  assert (0 < W r) as HW by reflexivity.
  destruct (Reserve_spec r inst key now NetOk st Hlim Hclk (minute_window cfg)) as (p&d'&Heq&Hpost&HR).
  destruct (check_lua_oldest _ _ _ _ _ _ _ _ _ _ _ (rpmKey_ne_tpmKey key key) Hclk (minute_window cfg) HW Hnf Hnft Heq)
    as [Hold _].
  destruct Hpost as (_&Hrk&_&Hal&Hcode&_). unfold W in *.
  change (Z.quot (window r) Millisecond) with 60000 in *. fold rpm R in Hrk, Hal, Hcode, Hold.
  rewrite Hv in Hrk, Hal, Hcode. rewrite bool_decide_eq_false_2 in Hal by done.
  destruct (Hold Hal Hcode) as (m&s&Hm&Hs&Hmin).
  assert (now - 60000 < s ≤ now) as Hsr.
  { pose proof Hm as [??]%map_lookup_filter_Some. split; [done|]. by eapply Hnf. }
  eexists _, _, m, s. repeat (split; [first [exact HR|exact Hal|exact Hrk|exact Hm|exact Hmin|exact Hsr]|]).
  unfold reservation_of. cbn [RetryAfter].
  change (Z.quot (window r) Millisecond) with ms_window. rewrite Hal, Hcode, Hs.
  change (1 =? rejectRPM) with true. cbv iota.
  rewrite computeReset_live by (done || unfold ms_window; lia).
  unfold Millisecond, ms_window. destruct (Z.leb_spec ((s + 60000 - now) * 1000000) 0); lia.
Qed.

(** The retry hint of an RPM rejection is exact.  When the window of a
    key is full, [RetryAfter] is positive, at most one minute, and is the time
    until the oldest request leaves the window: absent other admissions the RPM
    check still rejects at every earlier instant and passes at every instant
    from then on. *)
Theorem retry_after_exact {db : Type} `{RedisLaws db} (cfg : RateLimitConfig) (inst : string)
    (key : KeyInfo) (now : Z) (st : LimState db) :
  let r := NewRedis cfg in
  let rpm := effectiveRPM r key in
  let R := live now 60000 (zset (store st) (rpmKey key)) in
  0 < rpm ≤ 2 ^ 53 → Z.of_nat (size R) = rpm → exact_clock now →
  no_future now (rpmKey key) (store st) → no_future now (tpmKey key) (store st) →
  ∃ res st', Reserve r inst key now NetOk st = (inr res, st') ∧
    Allowed res = false ∧
    0 < RetryAfter res ≤ 60 * Second ∧
    ∀ t tpm T, now ≤ t →
      (decide_request rpm tpm (live t 60000 (zset (store st') (rpmKey key))) T = RejectRPM ↔
       t * Millisecond < now * Millisecond + RetryAfter res).
Proof.
  intros r rpm R Hrpm Hfull Hclk Hnf Hnft.
  destruct (reserve_full cfg inst key now st) as (res&st'&m&s&HR&Hal&Hrk&Hm&Hmin&Hsr&Hra);
    [fold r rpm; lia|fold r rpm R; lia|done..|].
  exists res, st'. split; [exact HR|]. split; [done|]. fold r rpm R in Hrk, Hm, Hmin.
  rewrite Hra, Hrk. split; [unfold Second, Millisecond; lia|]. intros t tpm T Ht.
  assert (t * Millisecond < now * Millisecond + (s + 60000 - now) * Millisecond
          ↔ t < s + 60000) as -> by (unfold Millisecond; lia).
  unfold decide_request. destruct (Z.ltb_spec 0 rpm); [|lia]. cbn [andb]. rewrite lua_limit_le by lia.
  destruct (Z.lt_ge_cases t (s + 60000)) as [Hlt|Hge].
  - unfold R. rewrite (live_until now 60000 t s) by (done || lia). fold R.
    rewrite Hfull, Z.leb_refl. done.
  - pose proof (live_shrinks 60000 t m s R Hm Hge).
    destruct (Z.leb_spec rpm (Z.of_nat (size (live t 60000 R)))); [lia|].
    destruct (_ && _); split; (done || lia).
Qed.

Definition full_state : LimState MapRedis.db :=
  (run (NewRedis demo_cfg) "abc" (demo_state, []) (take 2 demo_events)).1.

Lemma retry_after_exact_witness :
  ∃ res st', Reserve (NewRedis demo_cfg) "abc" demo_key 10 NetOk full_state = (inr res, st') ∧
    Allowed res = false ∧ 0 < RetryAfter res ≤ 60 * Second.
Proof.
  destruct (retry_after_exact demo_cfg "abc" demo_key 10 full_state)
    as (res&st'&HR&Hal&Hra&_).
  - split; vm_compute; [reflexivity|discriminate].
  - vm_compute. reflexivity.
  - vm_compute. split; discriminate.
  - intros m s Hm. assert (map_Forall (λ _ s, s ≤ 10) (zset (store full_state) (rpmKey demo_key))) as HF.
    { apply (bool_decide_unpack _). vm_compute. exact I. }
    exact (HF m s Hm).
  - intros m s Hm. assert (map_Forall (λ _ s, s ≤ 10) (zset (store full_state) (tpmKey demo_key))) as HF.
    { apply (bool_decide_unpack _). vm_compute. exact I. }
    exact (HF m s Hm).
  - exists res, st'. split; [exact HR|]. split; assumption.
Defined.

(** [AllowRequest] denies a request exactly when Redis answered and the
    decision over the key's windows was a rejection; on any Redis error, and
    for keys with no limit in either dimension, the request is allowed. *)
Theorem allow_request_denies_iff {db : Type} `{RedisLaws db} (cfg : RateLimitConfig)
    (inst : string) (key : KeyInfo) (now : Z) (net : Net) (st : LimState db) :
  let r := NewRedis cfg in
  let rpm := effectiveRPM r key in
  let tpm := effectiveTPM r key in
  let R := live now 60000 (zset (store st) (rpmKey key)) in
  let T := live now 60000 (zset (store st) (tpmKey key)) in
  exact_clock now →
  (AllowRequest r inst key now net st).1.1.1 = false ↔
  net = NetOk ∧ limited r key = true ∧ decide_request rpm tpm R T ≠ Admit.
Proof.
  intros r rpm tpm R T Hclk. unfold AllowRequest. destruct (limited r key) eqn:Hlim.
  - destruct (Reserve_spec r inst key now net st Hlim Hclk (minute_window cfg)) as (p&d'&_&Hpost&->).
    destruct Hpost as (_&_&_&Hal&_). unfold W in Hal.
    change (Z.quot (window r) Millisecond) with 60000 in Hal. fold rpm tpm R T in Hal.
    destruct net as [|b e]; simpl; [|split; [done|by intros [??]]].
    rewrite Hal, bool_decide_eq_false. split; [done|by intros (_&_&?)].
  - destruct (Reserve_unlimited r inst key now net st Hlim) as (res&->&Hal). simpl.
    rewrite Hal. split; [done|by intros (_&?&_)].
Qed.

(** The third request of the demo key within a minute is denied. *)
Definition demo_full_state : LimState MapRedis.db :=
  (run (NewRedis demo_cfg) "abc" (demo_state, []) (take 2 demo_events)).1.

Lemma allow_request_denies_iff_witness :
  (AllowRequest (NewRedis demo_cfg) "abc" demo_key 2 NetOk demo_full_state).1.1.1 = false.
Proof.
  apply (allow_request_denies_iff demo_cfg "abc" demo_key 2 NetOk demo_full_state); [split; vm_compute; discriminate|].
  split; [done|]. split; vm_compute; [reflexivity|discriminate].
Defined.
