(* ===== verification/RateLimitTokens.v ===== *)
(** * Token accounting of the rate limiter over whole executions

    tpm_record.lua stores a response's token count inside the member name
    ([<request_id>:<tokens>]) and check.lua recovers it by parsing the part
    after the last colon.  This file shows that the sum check.lua compares
    with the TPM limit is the sum of the token counts recorded for the key in
    the last minute, after any interleaving of calls and key expiry. *)

From S2P Require Import Prelude GoStrings Lua Redis RateLimit RateLimitWindow RateLimitProps.
From Stdlib Require Import Ascii Sorted.
Local Open Scope Z_scope.

(** One stored token record: TPM key, time, member and token count. *)
Record TokenRec := mkTokenRec {
  tr_key : string;
  tr_time : Z;
  tr_member : string;
  tr_tokens : Z;
}.

Definition net_executed (net : Net) : bool :=
  match net with NetErr false _ => false | _ => true end.

Section Tokens.
Context {db : Type} `{RedisLaws db}.
Context (r : redisLimiter) (inst : string).
Implicit Types (st : LimState db) (log : list TokenRec).

(** The token record a [RecordTokens] call stores, if its script runs. *)
Definition recorded (now : Z) (key : KeyInfo) (tokens : Z) (net : Net) st : option TokenRec :=
  if (0 <? tokens) && (0 <? effectiveTPM r key) && net_executed net
  then Some (mkTokenRec (tpmKey key) now
               ((newReqID inst now st).1 +:+ ":" +:+ Itoa tokens) tokens)
  else None.

Definition tstep (sl : LimState db * list TokenRec) (e : Event) : LimState db * list TokenRec :=
  let '(st, log) := sl in
  match e with
  | EReserve now key net => ((Reserve r inst key now net st).2, log)
  | ERecord now key tokens net =>
      ((RecordTokens r inst key tokens now net st).2,
       match recorded now key tokens net st with Some t => t :: log | None => log end)
  | EExpire now => (mkLimState (expire_due now (store st)) (reqIDCounter st), log)
  end.

Definition trun (sl : LimState db * list TokenRec) (es : list Event) := foldl tstep sl es.

(** Tokens recorded for [K] in the interval [(t - w, t]]. *)
Definition tokens_in (K : string) (w t : Z) (log : list TokenRec) : Z :=
  foldr (λ a acc, (if decide (tr_key a = K ∧ t - w < tr_time a ≤ t) then tr_tokens a else 0) + acc)
    0 log.

Record token_inv (K : string) (T : Z) (st : LimState db) (log : list TokenRec) : Prop := {
  tinv_rec a : a ∈ log → tr_key a = K →
    tr_time a ≤ T ∧ 0 ≤ tr_tokens a ∧
    ∃ ms n, tr_member a = reqID inst ms n +:+ ":" +:+ Itoa (tr_tokens a) ∧
      0 ≤ n ≤ reqIDCounter st;
  tinv_nodup : NoDup (tr_member <$> filter (λ a, tr_key a = K) log);
  tinv_live m s : T - W r < s →
    (zset (store st) K !! m = Some s ↔
     ∃ a, a ∈ log ∧ tr_key a = K ∧ tr_member a = m ∧ tr_time a = s);
  tinv_scores m s : zset (store st) K !! m = Some s → s ≤ T;
  tinv_ttl : ttl_ok (W r) (store st) K;
  tinv_counter : 0 ≤ reqIDCounter st;
}.

Lemma member_number_member ms n tokens :
  0 ≤ tokens → member_number (db := db) (reqID inst ms n +:+ ":" +:+ Itoa tokens) = Some (lua_number tokens).
Proof.
  intros Ht. unfold member_number. change (":" +:+ Itoa tokens) with (String ":" (Itoa tokens)).
  rewrite after_last_app by (by apply Itoa_no_sep). by rewrite tonumber_Itoa.
Qed.

(** The numeral a member ends in. *)
Definition member_numeral (m : string) : Z := default 0 (after_last ":"%char m ≫= parse_digits).

Lemma member_numeral_member ms n tokens :
  0 ≤ tokens → member_numeral (reqID inst ms n +:+ ":" +:+ Itoa tokens) = tokens.
Proof.
  intros Ht. unfold member_numeral. change (":" +:+ Itoa tokens) with (String ":" (Itoa tokens)).
  rewrite after_last_app by (by apply Itoa_no_sep). cbn [mbind option_bind]. by rewrite parse_digits_Itoa.
Qed.

(** ** Exactness of the sum under the invariant *)

Lemma tokens_in_filter K w t log :
  tokens_in K w t log =
  foldr (λ a acc, tr_tokens a + acc) 0
    (filter (λ a, tr_key a = K ∧ t - w < tr_time a ≤ t) log).
Proof.
  induction log as [|a log IH]; [done|]. simpl. rewrite filter_cons, IH.
  case_decide; simpl; lia.
Qed.

Lemma token_sum_exact K T now st log :
  T ≤ now → token_inv K T st log →
  let used := tokens_in K (W r) now log in
  let v := token_sum (db := db) (live now (W r) (zset (store st) K)) in
  (used ≤ 2 ^ 53 → v = used) ∧ (2 ^ 53 ≤ used → 2 ^ 53 ≤ v).
Proof.
  intros HT [I1 I2 I3 I4 I5 I6]. cbv zeta. rewrite tokens_in_filter.
  set (l := filter (λ a, tr_key a = K ∧ now - W r < tr_time a ≤ now) log).
  assert ((map_to_list (live now (W r) (zset (store st) K))).*1 ≡ₚ tr_member <$> l) as Hp.
  { apply NoDup_Permutation; [apply NoDup_fst_map_to_list| |].
    - eapply sublist_NoDup; [exact I2|]. apply fmap_sublist. unfold l. clear.
      induction log as [|a log IH]; [constructor|]. rewrite !filter_cons.
      case_decide as H1; case_decide as H2; try (by constructor); [|done]. by destruct H1.
    - intros m. rewrite !list_elem_of_fmap. split.
      + intros ([m' s]&->&Hm%elem_of_map_to_list). simpl.
        apply map_lookup_filter_Some in Hm as [Hm Hs]. simpl in Hs.
        pose proof (I4 _ _ Hm). apply I3 in Hm as (a&Ha&HK&Hma&Hta); [|lia].
        exists a. split; [done|]. apply list_elem_of_filter. split; [|done].
        split; [done|lia].
      + intros (a&->&[[HK Hw] Ha]%list_elem_of_filter).
        exists (tr_member a, tr_time a). split; [done|]. apply elem_of_map_to_list.
        apply map_lookup_filter_Some. split; [|simpl; lia]. apply I3; [lia|]. by exists a. }
  assert (∀ a, a ∈ l → member_numeral (tr_member a) = tr_tokens a) as Hmt.
  { intros a [[HK _] Ha]%list_elem_of_filter.
    destruct (I1 a Ha HK) as (_&Hn&ms&n&->&_). by apply member_numeral_member. }
  destruct (token_sum_numerals (live now (W r) (zset (store st) K)) member_numeral) as [H1 H2].
  { intros m s [Hm Hs]%map_lookup_filter_Some. cbn in Hs. apply I3 in Hm as (a&Ha&HK&<-&_); [|lia].
    destruct (I1 a Ha HK) as (_&Hn&ms&n&->&_). by rewrite member_numeral_member, member_number_member. }
  assert (foldr (λ k acc, member_numeral k + acc) 0 (map_to_list (live now (W r) (zset (store st) K))).*1 =
    foldr (λ a acc, tr_tokens a + acc) 0 l) as Hs; [|by rewrite Hs in H1, H2].
  transitivity (foldr (λ k acc, member_numeral k + acc) 0 (tr_member <$> l)).
  - clear -Hp. induction Hp; cbn in *; lia.
  - clear -Hmt. induction l as [|a l IH]; [done|]. csimpl.
    rewrite Hmt by (by left). rewrite IH; [done|]. intros b Hb. apply Hmt. by right.
Qed.

Lemma tokens_in_nonneg K T w now st log : token_inv K T st log → 0 ≤ tokens_in K w now log.
Proof.
  intros Hinv. pose proof (tinv_rec _ _ _ _ Hinv) as Hrec. clear Hinv.
  unfold tokens_in. induction log as [|a log IH]; simpl; [lia|].
  assert (0 ≤ foldr (λ a acc, (if decide (tr_key a = K ∧ now - w < tr_time a ≤ now)
    then tr_tokens a else 0) + acc) 0 log) by (apply IH; intros; apply Hrec; [by right|done]).
  case_decide as Hd; [|lia]. destruct (Hrec a ltac:(by left) ltac:(apply Hd)). lia.
Qed.

(** ** Preservation *)

Lemma token_inv_frame K T T' st st' log :
  T ≤ T' →
  (∀ m s, T' - W r < s → zset (store st') K !! m = Some s ↔ zset (store st) K !! m = Some s) →
  (∀ m s, zset (store st') K !! m = Some s → s ≤ T') →
  ttl_ok (W r) (store st') K → reqIDCounter st ≤ reqIDCounter st' →
  token_inv K T st log → token_inv K T' st' log.
Proof.
  intros HT Hz Hle Httl Hc [I1 I2 I3 I4 I5 I6]. split; try done.
  - intros a Ha HK. destruct (I1 a Ha HK) as (?&?&ms&n&?&?).
    split; [lia|]. split; [done|]. exists ms, n. split; [done|lia].
  - intros m s Hs. rewrite Hz by done. apply I3. lia.
  - lia.
Qed.

Lemma token_inv_same K T T' st st' log :
  T ≤ T' → zset (store st') K = zset (store st) K → ttl_ok (W r) (store st') K →
  reqIDCounter st ≤ reqIDCounter st' → token_inv K T st log → token_inv K T' st' log.
Proof.
  intros HT Hz Httl Hc Hinv. apply (token_inv_frame K T T' st); try done; rewrite Hz; [done|].
  intros m s Hs%(tinv_scores _ _ _ _ Hinv). lia.
Qed.

Lemma token_inv_reserve k0 T now key net st log :
  let K := tpmKey k0 in
  T ≤ now → exact_clock now → exact_window (W r) → reqIDCounter st + 1 < 2 ^ 64 → token_inv K T st log →
  token_inv K now (Reserve r inst key now net st).2 log.
Proof.
  intros K HT Hclk HW Hc Hinv. pose proof (tinv_counter _ _ _ _ Hinv).
  destruct (limited r key) eqn:Hlim.
  2:{ destruct (Reserve_unlimited r inst key now net st Hlim) as (res&->&_).
      apply (token_inv_same K T now st); [done|done|apply Hinv|simpl; lia|done]. }
  destruct (Reserve_spec r inst key now net st Hlim Hclk HW) as (p&d'&Heq&Hpost&->).
  assert (rpmKey key ≠ K) as Hrk by apply rpmKey_ne_tpmKey.
  assert (ttl_ok (W r) d' K) as Httl.
  { replace d' with (run_check r key now (reqID inst now (wrapu64 (reqIDCounter st + 1))) now (store st)).2
      by (by rewrite Heq).
    apply (check_lua_ttl now _ _ now (W r) _ now); [done|done|unfold exact_window in HW; lia|done|done|apply Hinv|apply rpmKey_ne_tpmKey]. }
  assert (reqIDCounter st ≤ wrapu64 (reqIDCounter st + 1)) as Hn by (rewrite wrapu64_id; lia).
  assert (zset d' K = zset (store st) K ∨ zset d' K = live now (W r) (zset (store st) K)) as Hz.
  { destruct Hpost as (Hoth&_&Htk&_). destruct (decide (tpmKey key = K)) as [Hk|Hk].
    - rewrite Hk in Htk. rewrite Htk. repeat case_match; auto.
    - left. apply Hoth; congruence. }
  assert (token_inv K now (mkLimState d' (wrapu64 (reqIDCounter st + 1))) log).
  { apply (token_inv_frame K T now st); try done; simpl.
    - intros m s Hs. destruct Hz as [-> | ->]; [done|].
      unfold live. rewrite map_lookup_filter_Some. simpl. intuition.
    - intros m s Hm. assert (zset (store st) K !! m = Some s) as Hm'.
      { destruct Hz as [Hz|Hz]; rewrite Hz in Hm; [done|].
        by apply map_lookup_filter_Some in Hm as [? _]. }
      pose proof (tinv_scores _ _ _ _ Hinv _ _ Hm'). lia. }
  destruct net as [|[] e]; [done..|].
  apply (token_inv_same K T now st); [done|done|apply Hinv|done|done].
Qed.

Lemma token_member_inj ms ms' n n' k k' :
  0 ≤ n → 0 ≤ n' → 0 ≤ k → 0 ≤ k' →
  reqID inst ms n +:+ ":" +:+ Itoa k = reqID inst ms' n' +:+ ":" +:+ Itoa k' → n = n'.
Proof.
  intros Hn Hn' Hk Hk' Heq. pose proof (f_equal (after_last ":"%char) Heq) as Hl.
  change (":" +:+ Itoa k) with (String ":" (Itoa k)) in *.
  change (":" +:+ Itoa k') with (String ":" (Itoa k')) in *.
  rewrite !after_last_app in Hl by (by apply Itoa_no_sep). injection Hl as Hl.
  rewrite Hl in Heq. apply app_inj_r_str in Heq. by apply reqID_inj in Heq.
Qed.

(** Storing a fresh record under [K]. *)
Lemma token_inv_store K T now tokens st st' log :
  let n := reqIDCounter st + 1 in
  let m := reqID inst now n +:+ ":" +:+ Itoa tokens in
  T ≤ now → exact_window (W r) → 0 ≤ tokens →
  store st' = EXPIRE now K (W r * 2) (ZADD K now m (store st)) → reqIDCounter st' = n →
  token_inv K T st log →
  token_inv K now st' (mkTokenRec K now m tokens :: log).
Proof.
  intros n m HT HW Htok Hst Hn [I1 I2 I3 I4 I5 I6]. unfold exact_window in HW.
  assert (zset (store st') K = <[m := now]> (zset (store st) K)) as Hz
    by (by rewrite Hst, zset_EXPIRE, zset_ZADD, decide_True).
  assert (∀ a, a ∈ log → tr_key a = K → tr_member a ≠ m) as Hfresh.
  { intros a Ha HK Heq. destruct (I1 a Ha HK) as (_&Htk&ms&n'&Hm&Hn').
    rewrite Hm in Heq. apply token_member_inj in Heq; lia. }
  split; rewrite ?Hn; unfold n; try lia.
  - intros a [->|Ha]%elem_of_cons HK; simpl.
    + split; [lia|]. split; [done|]. exists now, n. split; [done|lia].
    + destruct (I1 a Ha HK) as (?&?&ms&n'&?&?). split; [lia|]. split; [done|].
      exists ms, n'. split; [done|lia].
  - rewrite filter_cons_True by done. simpl. apply NoDup_cons. split; [|done].
    rewrite list_elem_of_fmap. intros (a&Heq&[HK Ha]%list_elem_of_filter).
    by apply (Hfresh a).
  - intros m' s Hs. rewrite Hz, lookup_insert. case_decide as Hm.
    + subst m'. split.
      * intros [= <-]. exists (mkTokenRec K now m tokens). split; [by left|done].
      * intros (a&[->|Ha]%elem_of_cons&HK&Hma&Hta); [by simpl in Hta; subst|].
        by destruct (Hfresh a Ha HK).
    + rewrite I3 by lia. split; intros (a&Ha&HK&Hma&Hta); exists a.
      * split; [by right|done].
      * apply elem_of_cons in Ha as [->|Ha]; [by destruct Hm|done].
  - intros m' s. rewrite Hz. intros [[_ <-]|[_ Hl]]%lookup_insert_Some; [lia|].
    apply I4 in Hl. lia.
  - intros dl m' s. rewrite Hst at 1. rewrite deadline_EXPIRE_eq;
      [|rewrite zset_ZADD, decide_True by done; apply insert_non_empty].
    intros [= <-]. rewrite Hz. intros [[_ <-]|[_ Hl]]%lookup_insert_Some; [lia|].
    apply I4 in Hl. lia.
Qed.

Lemma token_inv_cons_other K T st log t :
  tr_key t ≠ K → token_inv K T st log → token_inv K T st (t :: log).
Proof.
  intros HK [I1 I2 I3 I4 I5 I6]. split; try done.
  - intros a [->|Ha]%elem_of_cons; [done|by apply I1].
  - by rewrite filter_cons_False.
  - intros m s Hs. rewrite I3 by done. split; intros (a&Ha&HKa&Hrest); exists a.
    + split; [by right|done].
    + apply elem_of_cons in Ha as [->|Ha]; done.
Qed.

Lemma token_inv_record k0 T now key tokens net st log :
  let K := tpmKey k0 in
  T ≤ now → exact_clock now → exact_window (W r) → reqIDCounter st + 1 < 2 ^ 64 → token_inv K T st log →
  let sl := tstep (st, log) (ERecord now key tokens net) in
  token_inv K now sl.1 sl.2.
Proof.
  intros K HT Hclk HW Hc Hinv. pose proof (tinv_counter _ _ _ _ Hinv) as Hc0.
  assert (∀ c, reqIDCounter st ≤ c → token_inv K now (mkLimState (store st) c) log) as Hsame.
  { intros c Hcc. apply (token_inv_same K T now st); [done|done|apply Hinv|done|done]. }
  assert (token_inv K now st log).
  { apply (token_inv_same K T now st); [done|done|apply Hinv|lia|done]. }
  unfold tstep, recorded, RecordTokens, run_record, tpm_record_lua, newReqID. cbn [fst snd]. fold (W r).
  rewrite (lua_number_exact now), (lua_number_exact (W r)), (lua_number_exact (W r * 2))
    by (unfold exact_clock, exact_window in *; lia).
  rewrite wrapu64_id by lia.
  destruct (Z.leb_spec tokens 0), (Z.ltb_spec 0 tokens); try lia; [done|].
  destruct (Z.leb_spec (effectiveTPM r key) 0), (Z.ltb_spec 0 (effectiveTPM r key));
    try lia; [done|].
  cbn [andb store reqIDCounter].
  destruct (decide (tpmKey key = K)) as [HK|HK].
  - rewrite HK. destruct net as [|[] e]; cbn [net_executed fst snd];
      [..|apply Hsame; lia]; apply (token_inv_store K T now tokens st); auto; lia.
  - assert (∀ m, token_inv K now (mkLimState (EXPIRE now (tpmKey key) (W r * 2)
      (ZADD (tpmKey key) now m (store st))) (reqIDCounter st + 1)) log) as Hother.
    { intros m. apply (token_inv_same K T now st); simpl; [done| |apply ttl_ok_tick_ne; [done|apply Hinv]|lia|done].
      by rewrite zset_EXPIRE, zset_ZADD, decide_False. }
    destruct net as [|[] e]; cbn [net_executed fst snd]; [..|apply Hsame; lia];
      by apply token_inv_cons_other.
Qed.

Lemma token_inv_expire K T now st log :
  T ≤ now → token_inv K T st log →
  token_inv K now (mkLimState (expire_due now (store st)) (reqIDCounter st)) log.
Proof.
  intros HT Hinv. apply (token_inv_frame K T now st); simpl; [done|..|lia|done].
  - intros m s Hs. rewrite zset_expire_due.
    destruct (deadline (store st) K) as [dl|] eqn:Hdl; [|done].
    case_decide as Hle; [|done]. rewrite lookup_empty. split; [done|]. intros Hm.
    pose proof (tinv_ttl _ _ _ _ Hinv _ _ _ Hdl Hm). lia.
  - intros m s. rewrite zset_expire_due.
    repeat case_match; try (by rewrite lookup_empty);
      intros Hs%(tinv_scores _ _ _ _ Hinv); lia.
  - apply ttl_ok_expire_due, Hinv.
Qed.

Lemma token_inv_run k0 es T st log :
  let K := tpmKey k0 in
  exact_window (W r) → reqIDCounter st + Z.of_nat (length es) < 2 ^ 64 →
  Forall (λ e, exact_clock (ev_time e)) es → Sorted Z.le (T :: (ev_time <$> es)) → token_inv K T st log →
  token_inv K (default T (last (ev_time <$> es))) (trun (st, log) es).1 (trun (st, log) es).2.
Proof.
  intros K HW. revert T st log. induction es as [|e es IH]; intros T st log Hc Hck Hs Hinv; [done|].
  apply Forall_cons in Hck as [Hcke Hck].
  simpl in Hs. apply Sorted_inv in Hs as [Hs HT%HdRel_inv]. rewrite length_cons in Hc.
  pose proof (tinv_counter _ _ _ _ Hinv) as Hc0.
  assert (token_inv K (ev_time e) (tstep (st, log) e).1 (tstep (st, log) e).2 ∧
          reqIDCounter (tstep (st, log) e).1 ≤ reqIDCounter st + 1) as [Hstep Hcnt].
  { destruct e as [now key net|now key tokens net|now]; simpl in HT, Hcke.
    - split; [apply (token_inv_reserve k0 T); auto; lia|]. apply Reserve_counter; lia.
    - split; [apply (token_inv_record k0 T); auto; lia|]. by apply RecordTokens_counter; lia.
    - split; [by apply (token_inv_expire K T)|simpl; lia]. }
  change (trun (st, log) (e :: es)) with (trun (tstep (st, log) e) es).
  destruct (tstep (st, log) e) as [st' log'] eqn:E. cbn [fst snd] in *.
  specialize (IH (ev_time e) st' log' ltac:(lia) Hck Hs Hstep).
  destruct es as [|e' es']; [exact IH|].
  rewrite fmap_cons, fmap_cons, last_cons_cons in *.
  destruct (last (ev_time e' :: (ev_time <$> es'))) eqn:El; [exact IH|].
  by apply last_None in El.
Qed.
End Tokens.

Lemma token_inv_init {db : Type} `{RedisLaws db} r inst K T st :
  zset (store st) K = ∅ → 0 ≤ reqIDCounter st → token_inv (db := db) r inst K T st [].
Proof.
  intros Hz Hc. split; try (intros a Ha; by apply elem_of_nil in Ha); try done.
  - apply NoDup_nil_2.
  - intros m s _. rewrite Hz, lookup_empty. split; [done|]. intros (a&Ha&_).
    by apply elem_of_nil in Ha.
  - intros m s. by rewrite Hz, lookup_empty.
  - intros dl m s _. by rewrite Hz, lookup_empty.
Qed.

(** The decision of a [Reserve] with RPM room, from the tokens recorded. *)
Lemma tpm_decision {db : Type} `{RedisLaws db} (cfg : RateLimitConfig) (inst : string) (key : KeyInfo)
    (st : LimState db) (log : list TokenRec) (T now : Z) :
  let r := NewRedis cfg in
  let used := tokens_in (tpmKey key) 60000 now log in
  let R := live now 60000 (zset (store st) (rpmKey key)) in
  T ≤ now → exact_clock now → token_inv r inst (tpmKey key) T st log → 0 < effectiveTPM r key ≤ 2 ^ 53 →
  (effectiveRPM r key ≤ 0 ∨ Z.of_nat (size R) < effectiveRPM r key ≤ 2 ^ 53) →
  ∃ res st', Reserve r inst key now NetOk st = (inr res, st') ∧
    Allowed res = (used <? effectiveTPM r key) ∧
    (used ≤ 2 ^ 53 → TpmRemaining res = Z.max 0 (effectiveTPM r key - used)).
Proof.
  intros r used R HT Hclk Hinv Htpm Hroom.
  assert (limited r key = true) as Hlim.
  { unfold limited. destruct (Z.leb_spec (effectiveTPM r key) 0); [lia|]. by rewrite andb_false_r. }
  destruct (Reserve_spec r inst key now NetOk st Hlim Hclk (minute_window cfg)) as (p&d'&_&Hpost&HR).
  eexists _, _. split; [exact HR|]. cbn [Allowed TpmRemaining reservation_of].
  destruct Hpost as (_&_&_&Hal&_&_&Htu). change (W r) with 60000 in Hal, Htu. fold R in Hal, Htu.
  destruct (token_sum_exact r inst _ T now st log HT Hinv) as [Hlow Hhigh].
  change (W r) with 60000 in Hlow, Hhigh. fold used in Hlow, Hhigh.
  set (v := token_sum _) in *. assert (0 ≤ used) by (by eapply tokens_in_nonneg).
  assert (decide_request (effectiveRPM r key) (effectiveTPM r key) R
    (live now 60000 (zset (store st) (tpmKey key))) = if used <? effectiveTPM r key then Admit else RejectTPM) as Hd.
  { unfold decide_request. fold v.
    assert ((0 <? effectiveRPM r key) && (lua_number (effectiveRPM r key) <=? lua_number (Z.of_nat (size R))) = false) as ->.
    { destruct (Z.ltb_spec 0 (effectiveRPM r key)); [|done]. rewrite lua_limit_le by lia. apply Z.leb_gt. lia. }
    rewrite (lua_number_exact (effectiveTPM r key)) by lia.
    destruct (Z.ltb_spec 0 (effectiveTPM r key)), (Z.leb_spec (effectiveTPM r key) v),
      (Z.ltb_spec used (effectiveTPM r key)); cbn [andb]; try done; lia. }
  rewrite Hd in Hal, Htu. split.
  - rewrite Hal. by destruct (used <? effectiveTPM r key).
  - intros Hu. rewrite (Hlow Hu) in Htu.
    assert (tpmUsed p = used) as ->.
    { rewrite Htu. destruct (Z.ltb_spec 0 (effectiveTPM r key)); [|lia].
      by destruct (used <? effectiveTPM r key); apply reply_integer_in64; unfold in64, min64, max64; lia. }
    rewrite clampRemaining_max; [by destruct (Z.ltb_spec 0 (effectiveTPM r key)); [|lia]|
      unfold in64, min64, max64; lia|done].
Qed.

(** C13: token accounting is exact.  After any sequence of [Reserve] and
    [RecordTokens] calls and key expiries at non-decreasing times, a [Reserve]
    whose RPM window has room is rejected for tokens exactly when the tokens
    recorded for its key in the last minute have reached the effective TPM
    limit, for every limit up to [2^53], although the script adds them up in
    doubles; and while they are not more than [2^53], [TpmRemaining] is what the
    limit leaves of them.  No record is lost, counted twice or attributed to
    another key. *)
Theorem tpm_accounting_exact {db : Type} `{RedisLaws db} (cfg : RateLimitConfig) (inst : string)
    (key : KeyInfo) (es : list Event) (st : LimState db) (now : Z)
    (Hfresh : zset (store st) (tpmKey key) = ∅)
    (Hcounter : 0 ≤ reqIDCounter st ∧ reqIDCounter st + Z.of_nat (length es) < 2 ^ 64)
    (Hclock : Forall (λ e, exact_clock (ev_time e)) es)
    (Htime : Sorted Z.le (ev_time <$> es))
    (Hnow : Forall (λ e, ev_time e ≤ now) es) (Hnow53 : exact_clock now)
    (Htpm : 0 < effectiveTPM (NewRedis cfg) key ≤ 2 ^ 53) :
  let r := NewRedis cfg in
  let '(st', log) := trun r inst (st, []) es in
  let used := tokens_in (tpmKey key) 60000 now log in
  let R := live now 60000 (zset (store st') (rpmKey key)) in
  (effectiveRPM r key ≤ 0 ∨ Z.of_nat (size R) < effectiveRPM r key ≤ 2 ^ 53) →
  ∃ res st'', Reserve r inst key now NetOk st' = (inr res, st'') ∧
    Allowed res = (used <? effectiveTPM r key) ∧
    (used ≤ 2 ^ 53 → TpmRemaining res = Z.max 0 (effectiveTPM r key - used)).
Proof.
  intros r. destruct (trun r inst (st, []) es) as [st' log] eqn:Erun. intros used R Hroom.
  fold r in Htpm.
  assert (∃ T, T ≤ now ∧ token_inv r inst (tpmKey key) T st' log) as (T&HT&Hinv).
  { pose proof (token_inv_init r inst (tpmKey key) (default now (head (ev_time <$> es))) st
      Hfresh ltac:(lia)) as Hi.
    apply (token_inv_run r inst key es) in Hi; [|apply minute_window|lia|done|].
    - rewrite Erun in Hi. eexists. split; [|exact Hi].
      destruct (last (ev_time <$> es)) as [t|] eqn:El; simpl.
      + apply last_Some_elem_of, list_elem_of_fmap in El as (e&->&He).
        rewrite Forall_forall in Hnow. by apply Hnow.
      + apply last_None in El. destruct es; [simpl; lia|done].
    - apply Sorted_cons; [done|]. destruct es; simpl; [constructor|]. constructor. lia. }
  by apply (tpm_decision cfg inst key st' log T now).
Qed.

(** Ten tokens recorded at 3 ms against a limit of 10 per minute. *)
Definition demo_tkey : KeyInfo := mkKeyInfo "k2" "o1" "demo" 5 10 [] None.
Definition demo_tevents : list Event :=
  [EReserve 0 demo_tkey NetOk; ERecord 3 demo_tkey 10 (NetErr true "timeout");
   ERecord 4 demo_key 7 NetOk; EExpire 5].

Lemma tpm_accounting_exact_witness :
  ∃ res st'', Reserve (NewRedis demo_cfg) "abc" demo_tkey 9 NetOk
      (trun (NewRedis demo_cfg) "abc" (demo_state, []) demo_tevents).1 = (inr res, st'') ∧
    Allowed res = false ∧ TpmRemaining res = 0.
Proof.
  edestruct (tpm_accounting_exact demo_cfg "abc" demo_tkey demo_tevents demo_state 9) as (res&st''&H1&H2&H3).
  - reflexivity.
  - split; vm_compute; [discriminate|reflexivity].
  - repeat (constructor; [split; vm_compute; discriminate|]). constructor.
  - vm_compute. repeat constructor; discriminate.
  - repeat constructor; vm_compute; discriminate.
  - split; vm_compute; discriminate.
  - split; vm_compute; [reflexivity|discriminate].
  - right. split; vm_compute; [reflexivity|discriminate].
  - exists res, st''. split; [exact H1|]. split; [rewrite H2; vm_compute; reflexivity|].
    rewrite H3; vm_compute; [reflexivity|discriminate].
Defined.

(** The retention tpm_record.lua asks Redis for: 120,000 seconds after the
    record, because [EXPIRE] is given the millisecond window unscaled. *)
Lemma tpm_retention {db : Type} `{RedisLaws db} (cfg : RateLimitConfig) (inst : string)
    (key : KeyInfo) (tokens now : Z) (st : LimState db)
    (Htok : 0 < tokens) (Htpm : 0 < effectiveTPM (NewRedis cfg) key) :
  deadline (store (RecordTokens (NewRedis cfg) inst key tokens now NetOk st).2) (tpmKey key) =
  Some (now + 120000 * 1000).
Proof.
  unfold RecordTokens. destruct (Z.leb_spec tokens 0); [lia|].
  destruct (Z.leb_spec (effectiveTPM (NewRedis cfg) key) 0); [lia|]. simpl. unfold run_record, tpm_record_lua.
  rewrite deadline_EXPIRE_eq; [f_equal; unfold Millisecond, Second; lia|].
  rewrite zset_ZADD, decide_True by done. apply insert_non_empty.
Qed.

Lemma tpm_retention_witness :
  deadline (store (RecordTokens (NewRedis demo_cfg) "abc" demo_tkey 10 3 NetOk demo_state).2)
    (tpmKey demo_tkey) = Some 120000003.
Proof. apply (tpm_retention demo_cfg "abc" demo_tkey 10 3 demo_state); vm_compute; reflexivity. Defined.

(** An RPM rejection reports an untouched TPM budget, whatever was recorded. *)
Lemma rpm_reject_hides_tpm {db : Type} `{RedisLaws db} (cfg : RateLimitConfig) (inst : string)
    (key : KeyInfo) (now : Z) (st : LimState db) :
  let r := NewRedis cfg in
  let R := live now 60000 (zset (store st) (rpmKey key)) in
  exact_clock now → 0 < effectiveRPM r key ≤ Z.of_nat (size R) → 0 < effectiveTPM r key ≤ max64 →
  ∃ res st', Reserve r inst key now NetOk st = (inr res, st') ∧
    Allowed res = false ∧ TpmRemaining res = TpmLimit res.
Proof.
  intros r R Hclk Hr Ht.
  assert (limited r key = true) as Hlim.
  { unfold limited. destruct (Z.leb_spec (effectiveRPM r key) 0); [lia|done]. }
  destruct (Reserve_spec r inst key now NetOk st Hlim Hclk (minute_window cfg)) as (p&d'&_&Hpost&HR).
  eexists _, _. split; [exact HR|]. cbn [Allowed TpmRemaining TpmLimit reservation_of].
  destruct Hpost as (_&_&_&Hal&_&_&Htu). change (W r) with 60000 in Hal, Htu. fold R in Hal, Htu.
  rewrite decide_full in Hal, Htu by done. rewrite Hal, Htu. split; [done|].
  rewrite clampRemaining_max by (unfold in64, min64, max64 in *; lia).
  destruct (Z.ltb_spec 0 (effectiveTPM r key)); lia.
Qed.

(** Above [2^53] the sum is a rounded one: a limit of [2^53 + 2] that three
    records of [2^53], 1 and 1 tokens have used up is not enforced. *)
Definition huge_tkey : KeyInfo := mkKeyInfo "k3" "o1" "demo" 5 (2 ^ 53 + 2) [] None.
Example tpm_inexact_above_2_53 :
  let '(st, log) := trun (NewRedis demo_cfg) "abc" (demo_state, [])
    [ERecord 1 huge_tkey (2 ^ 53) NetOk; ERecord 2 huge_tkey 1 NetOk; ERecord 3 huge_tkey 1 NetOk] in
  tokens_in (tpmKey huge_tkey) 60000 4 log = effectiveTPM (NewRedis demo_cfg) huge_tkey ∧
  match (Reserve (NewRedis demo_cfg) "abc" huge_tkey 4 NetOk st).1 with
  | inr res => Allowed res = true
  | inl _ => False
  end.
Proof. vm_compute. split; reflexivity. Qed.
