(* ===== verification/Config.v ===== *)
(** * Configuration

    Models src/internal/config: the configuration types (config.go), and from
    load.go the mapping of environment variables to keys, the defaults, the
    validation and [Load].  Reading the YAML file, merging and decoding are
    done by the koanf library; [Load] takes that step as an argument. *)

From S2P Require Import Prelude GoStrings Float64 RateLimit.
From Stdlib Require Import Ascii.
Local Open Scope Z_scope.

(** ** config.go *)

Record ServerConfig := mkServerConfig {
  sv_Port : Z;
  sv_ReadTimeout : Z;
  sv_WriteTimeout : Z;
}.

Record ProviderConfig := mkProviderConfig {
  pc_APIKey : string;
  pc_BaseURL : string;
  pc_Timeout : Z;
  pc_Models : list string;
  pc_MaxRetries : Z;
  pc_RetryBackoff : Z;
}.

(** [config.HealthConfig]. *)
Record HealthSettings := mkHealthSettings {
  hs_FailureThreshold : Z;
  hs_CooldownPeriod : Z;
}.

Record LogConfig := mkLogConfig {
  lg_Level : string;
  lg_Format : string;
  lg_DebugBodies : bool;
}.

Record RedisConfig := mkRedisConfig { rd_DSN : string }.

Record PostgresConfig := mkPostgresConfig {
  pg_DSN : string;
  pg_AutoMigrate : bool;
  pg_MaxConnections : Z;
}.

Record DatabaseConfig := mkDatabaseConfig {
  db_Postgres : PostgresConfig;
  db_Redis : RedisConfig;
}.

Record AuthConfig := mkAuthConfig {
  au_Enabled : bool;
  au_AdminToken : string;
  au_CacheTTL : Z;
  au_CacheSize : Z;
}.

Record MetricsConfig := mkMetricsConfig {
  mc_Enabled : bool;
  mc_Port : Z;
}.

Record CandidateConfig := mkCandidateConfig {
  cf_Provider : string;
  cf_Model : string;
  cf_CostPer1kInputUSD : f64;
  cf_CostPer1kOutputUSD : f64;
  cf_Priority : Z;
  cf_Weight : Z;
}.

Record ModelGroupConfig := mkModelGroupConfig {
  mg_Strategy : string;
  mg_Candidates : list CandidateConfig;
}.

Record CandidatePricing := mkCandidatePricing {
  pr_CostPer1kInputUSD : f64;
  pr_CostPer1kOutputUSD : f64;
}.

Record RoutingConfig := mkRoutingConfig {
  rt_DefaultStrategy : string;
  rt_MaxAttempts : Z;
  rt_ModelGroups : gmap string ModelGroupConfig;
  rt_Pricing : gmap string CandidatePricing;
}.

Record Config := mkConfig {
  Server : ServerConfig;
  Providers : gmap string ProviderConfig;
  ModelAliases : gmap string string;
  HealthCfg : HealthSettings;
  Log : LogConfig;
  Database : DatabaseConfig;
  AuthCfg : AuthConfig;
  RateLimitCfg : RateLimitConfig;
  MetricsCfg : MetricsConfig;
  Routing : RoutingConfig;
}.

(** ** load.go *)

(** [strings.ReplaceAll(s, "__", ".")]. *)
Fixpoint replace_dunder (s : string) : string :=
  match s with
  | String "_" (String "_" t) => String "." (replace_dunder t)
  | String a t => String a (replace_dunder t)
  | EmptyString => ""
  end.

(** The callback given to [env.Provider]. *)
Definition env_key (s : string) : string :=
  replace_dunder (ToLower (TrimPrefix s "GATEWAY_")).

Definition dflt (z d : Z) : Z := if z =? 0 then d else z.
Definition sdflt (s d : string) : string := if bool_decide (s = "") then d else s.

Definition default_timeout (p : ProviderConfig) : ProviderConfig :=
  {| pc_APIKey := pc_APIKey p; pc_BaseURL := pc_BaseURL p;
     pc_Timeout := dflt (pc_Timeout p) (30 * Second); pc_Models := pc_Models p;
     pc_MaxRetries := pc_MaxRetries p; pc_RetryBackoff := pc_RetryBackoff p |}.

Definition applyDefaults (cfg : Config) : Config :=
  {| Server :=
       {| sv_Port := dflt (sv_Port (Server cfg)) 8080;
          sv_ReadTimeout := dflt (sv_ReadTimeout (Server cfg)) (30 * Second);
          sv_WriteTimeout := dflt (sv_WriteTimeout (Server cfg)) (120 * Second) |};
     Providers := default_timeout <$> Providers cfg;
     ModelAliases := ModelAliases cfg;
     HealthCfg := HealthCfg cfg;
     Log :=
       {| lg_Level := sdflt (lg_Level (Log cfg)) "info";
          lg_Format := sdflt (lg_Format (Log cfg)) "json";
          lg_DebugBodies := lg_DebugBodies (Log cfg) |};
     Database :=
       {| db_Postgres :=
            {| pg_DSN := pg_DSN (db_Postgres (Database cfg));
               pg_AutoMigrate := pg_AutoMigrate (db_Postgres (Database cfg));
               pg_MaxConnections := dflt (pg_MaxConnections (db_Postgres (Database cfg))) 20 |};
          db_Redis := db_Redis (Database cfg) |};
     AuthCfg :=
       {| au_Enabled := au_Enabled (AuthCfg cfg); au_AdminToken := au_AdminToken (AuthCfg cfg);
          au_CacheTTL := dflt (au_CacheTTL (AuthCfg cfg)) (5 * 60 * Second);
          au_CacheSize := dflt (au_CacheSize (AuthCfg cfg)) 10000 |};
     RateLimitCfg :=
       {| RLEnabled := RLEnabled (RateLimitCfg cfg);
          DefaultRPM := dflt (DefaultRPM (RateLimitCfg cfg)) 60;
          DefaultTPM := dflt (DefaultTPM (RateLimitCfg cfg)) 100000 |};
     MetricsCfg :=
       {| mc_Enabled := mc_Enabled (MetricsCfg cfg); mc_Port := dflt (mc_Port (MetricsCfg cfg)) 9090 |};
     Routing :=
       {| rt_DefaultStrategy := sdflt (rt_DefaultStrategy (Routing cfg)) "priority";
          rt_MaxAttempts := dflt (rt_MaxAttempts (Routing cfg)) 3;
          rt_ModelGroups := rt_ModelGroups (Routing cfg);
          rt_Pricing := rt_Pricing (Routing cfg) |} |}.

Definition has_key (p : ProviderConfig) : bool := negb (bool_decide (pc_APIKey p = "")).

Definition validate (cfg : Config) : option string :=
  if negb (existsb (λ kv, has_key kv.2) (map_to_list (Providers cfg))) then
    Some "at least one provider must be configured with an API key"
  else if au_Enabled (AuthCfg cfg) && bool_decide (pg_DSN (db_Postgres (Database cfg)) = "") then
    Some "auth is enabled but database.postgres.dsn is empty (set GATEWAY_DATABASE__POSTGRES__DSN)"
  else if au_Enabled (AuthCfg cfg) && bool_decide (au_AdminToken (AuthCfg cfg) = "") then
    Some "auth is enabled but auth.admin_token is empty (set GATEWAY_AUTH__ADMIN_TOKEN)"
  else if RLEnabled (RateLimitCfg cfg) && bool_decide (rd_DSN (db_Redis (Database cfg)) = "") then
    Some "rate_limit is enabled but database.redis.dsn is empty (set GATEWAY_DATABASE__REDIS__DSN)"
  else None.

(** [decode] is the koanf part: the decoded [Config] of the merged file and
    environment, or the error of the failing step with its prefix. *)
Definition Load (decode : string → string + Config) (path : string) : string + Config :=
  match decode path with
  | inl e => inl e
  | inr cfg =>
      let cfg := applyDefaults cfg in
      match validate cfg with
      | Some e => inl ("invalid config: " +:+ e)
      | None => inr cfg
      end
  end.

(** ** Properties *)

Lemma sdflt_idem s d : sdflt (sdflt s d) d = sdflt s d.
Proof. unfold sdflt. repeat case_bool_decide; done. Qed.

Lemma dflt_idem z d : dflt (dflt z d) d = dflt z d.
Proof. unfold dflt. destruct (Z.eqb_spec z 0); destruct (Z.eqb_spec d 0), (Z.eqb_spec z 0); lia. Qed.

Lemma default_timeout_idem p : default_timeout (default_timeout p) = default_timeout p.
Proof. unfold default_timeout. simpl. by rewrite dflt_idem. Qed.

Lemma applyDefaults_idem cfg : applyDefaults (applyDefaults cfg) = applyDefaults cfg.
Proof.
  unfold applyDefaults. cbn [Server Providers ModelAliases HealthCfg Log Database AuthCfg
    RateLimitCfg MetricsCfg Routing sv_Port sv_ReadTimeout sv_WriteTimeout lg_Level lg_Format
    lg_DebugBodies db_Postgres db_Redis pg_DSN pg_AutoMigrate pg_MaxConnections au_Enabled
    au_AdminToken au_CacheTTL au_CacheSize RLEnabled DefaultRPM DefaultTPM mc_Enabled mc_Port
    rt_DefaultStrategy rt_MaxAttempts rt_ModelGroups rt_Pricing].
  rewrite !dflt_idem, !sdflt_idem, <-map_fmap_compose. f_equal.
  apply map_fmap_ext. intros. apply default_timeout_idem.
Qed.

(** What a usable configuration provides. *)
Definition usable (cfg : Config) : Prop :=
  (∃ n p, Providers cfg !! n = Some p ∧ pc_APIKey p ≠ "") ∧
  (au_Enabled (AuthCfg cfg) = true →
     pg_DSN (db_Postgres (Database cfg)) ≠ "" ∧ au_AdminToken (AuthCfg cfg) ≠ "") ∧
  (RLEnabled (RateLimitCfg cfg) = true → rd_DSN (db_Redis (Database cfg)) ≠ "").

Lemma validate_usable cfg : validate cfg = None ↔ usable cfg.
Proof.
  unfold validate, usable.
  assert (existsb (λ kv, has_key kv.2) (map_to_list (Providers cfg)) = true ↔
    ∃ n p, Providers cfg !! n = Some p ∧ pc_APIKey p ≠ "") as Hk.
  { rewrite existsb_exists. split.
    - intros ([n p]&Hin%list_elem_of_In&Hk). apply elem_of_map_to_list in Hin. exists n, p.
      split; [done|]. unfold has_key in Hk. simpl in Hk. by case_bool_decide.
    - intros (n&p&Hl&Hne). exists (n, p). split.
      + apply list_elem_of_In. by apply elem_of_map_to_list.
      + unfold has_key. simpl. by rewrite bool_decide_eq_false_2. }
  rewrite <-Hk. destruct (existsb _ _); simpl; [|naive_solver].
  destruct (au_Enabled _), (RLEnabled _); simpl; repeat case_bool_decide; naive_solver.
Qed.

(** A setting left at its zero value gets the default, any other is kept. *)
Definition filled {A} (zero d raw out : A) : Prop := (raw = zero → out = d) ∧ (raw ≠ zero → out = raw).

Lemma dflt_filled z d : filled 0 d z (dflt z d).
Proof. unfold filled, dflt. destruct (Z.eqb_spec z 0); split; done. Qed.

Lemma sdflt_filled z d : filled "" d z (sdflt z d).
Proof. unfold filled, sdflt. case_bool_decide; split; done. Qed.

(** The documented defaults (times in nanoseconds), and everything that has
    none. *)
Record defaults_filled (raw cfg : Config) : Prop := {
  df_port : filled 0 8080 (sv_Port (Server raw)) (sv_Port (Server cfg));
  df_read : filled 0 30000000000 (sv_ReadTimeout (Server raw)) (sv_ReadTimeout (Server cfg));
  df_write : filled 0 120000000000 (sv_WriteTimeout (Server raw)) (sv_WriteTimeout (Server cfg));
  df_level : filled "" "info" (lg_Level (Log raw)) (lg_Level (Log cfg));
  df_format : filled "" "json" (lg_Format (Log raw)) (lg_Format (Log cfg));
  df_maxconns : filled 0 20 (pg_MaxConnections (db_Postgres (Database raw))) (pg_MaxConnections (db_Postgres (Database cfg)));
  df_ttl : filled 0 300000000000 (au_CacheTTL (AuthCfg raw)) (au_CacheTTL (AuthCfg cfg));
  df_size : filled 0 10000 (au_CacheSize (AuthCfg raw)) (au_CacheSize (AuthCfg cfg));
  df_rpm : filled 0 60 (DefaultRPM (RateLimitCfg raw)) (DefaultRPM (RateLimitCfg cfg));
  df_tpm : filled 0 100000 (DefaultTPM (RateLimitCfg raw)) (DefaultTPM (RateLimitCfg cfg));
  df_metrics : filled 0 9090 (mc_Port (MetricsCfg raw)) (mc_Port (MetricsCfg cfg));
  df_strategy : filled "" "priority" (rt_DefaultStrategy (Routing raw)) (rt_DefaultStrategy (Routing cfg));
  df_attempts : filled 0 3 (rt_MaxAttempts (Routing raw)) (rt_MaxAttempts (Routing cfg));
  df_names n : Providers cfg !! n = None ↔ Providers raw !! n = None;
  df_provider n p q : Providers raw !! n = Some p → Providers cfg !! n = Some q →
    filled 0 30000000000 (pc_Timeout p) (pc_Timeout q) ∧
    pc_APIKey q = pc_APIKey p ∧ pc_BaseURL q = pc_BaseURL p ∧ pc_Models q = pc_Models p ∧
    pc_MaxRetries q = pc_MaxRetries p ∧ pc_RetryBackoff q = pc_RetryBackoff p;
  df_aliases : ModelAliases cfg = ModelAliases raw;
  df_health : HealthCfg cfg = HealthCfg raw;
  df_bodies : lg_DebugBodies (Log cfg) = lg_DebugBodies (Log raw);
  df_pg : pg_DSN (db_Postgres (Database cfg)) = pg_DSN (db_Postgres (Database raw)) ∧
    pg_AutoMigrate (db_Postgres (Database cfg)) = pg_AutoMigrate (db_Postgres (Database raw));
  df_redis : db_Redis (Database cfg) = db_Redis (Database raw);
  df_auth : au_Enabled (AuthCfg cfg) = au_Enabled (AuthCfg raw) ∧ au_AdminToken (AuthCfg cfg) = au_AdminToken (AuthCfg raw);
  df_limiter : RLEnabled (RateLimitCfg cfg) = RLEnabled (RateLimitCfg raw);
  df_metrics_on : mc_Enabled (MetricsCfg cfg) = mc_Enabled (MetricsCfg raw);
  df_groups : rt_ModelGroups (Routing cfg) = rt_ModelGroups (Routing raw);
  df_pricing : rt_Pricing (Routing cfg) = rt_Pricing (Routing raw);
}.

Lemma applyDefaults_filled raw : defaults_filled raw (applyDefaults raw).
Proof.
  split; try apply dflt_filled; try apply sdflt_filled; try done.
  - intros n. simpl. by rewrite lookup_fmap, fmap_None.
  - intros n p q Hp. simpl. rewrite lookup_fmap, Hp. intros [= <-]. split; [apply dflt_filled|done].
Qed.

(** C40: [Load] succeeds exactly when the decoded configuration is usable: some
    provider has an API key, authentication (when enabled) has a Postgres DSN
    and an admin token, and rate limiting (when enabled) a Redis DSN; otherwise
    it reports an invalid configuration.  What it returns is the decoded
    configuration with exactly the documented defaults: port 8080, read and
    write timeouts of 30 and 120 seconds, log level "info" in "json", 20
    Postgres connections, a key cache of 10000 entries for 5 minutes, 60
    requests and 100000 tokens per minute, metrics port 9090, the "priority"
    strategy, 3 attempts and 30 seconds per provider, each where the setting
    was left at its zero value, and nothing else changed; applying the defaults
    again changes nothing. *)
Theorem load_validates (decode : string → string + Config) (path : string) (raw : Config)
    (Hdec : decode path = inr raw) :
  (usable raw ↔ ∃ cfg, Load decode path = inr cfg) ∧
  (¬ usable raw → ∃ e, Load decode path = inl ("invalid config: " +:+ e)) ∧
  (∀ cfg, Load decode path = inr cfg → defaults_filled raw cfg ∧ applyDefaults cfg = cfg ∧ usable cfg).
Proof.
  assert (usable raw ↔ validate (applyDefaults raw) = None) as Hv.
  { rewrite validate_usable. unfold usable, applyDefaults. simpl. split; intros [(n&p&Hp&Hk) Hr].
    - split; [|done]. exists n, (default_timeout p). by rewrite lookup_fmap, Hp.
    - split; [|done]. rewrite lookup_fmap in Hp.
      destruct (Providers raw !! n) as [q|] eqn:E; [|done]. injection Hp as <-. by exists n, q. }
  unfold Load. rewrite Hdec. split; [|split].
  - rewrite Hv. destruct (validate _); [split; [done|by intros [? [=]]]|]. split; [eauto|done].
  - intros Hn. destruct (validate (applyDefaults raw)) eqn:E; [by eexists|]. by destruct Hn; apply Hv.
  - intros cfg. destruct (validate (applyDefaults raw)) eqn:E; [done|]. intros [= <-].
    split; [apply applyDefaults_filled|]. split; [apply applyDefaults_idem|by apply validate_usable].
Qed.

Definition demo_config : Config :=
  mkConfig (mkServerConfig 0 0 0)
    (<["openai" := mkProviderConfig "sk-x" "" 0 ["gpt-4o"] 2 0]> ∅) ∅ (mkHealthSettings 0 0)
    (mkLogConfig "" "" false) (mkDatabaseConfig (mkPostgresConfig "" false 0) (mkRedisConfig ""))
    (mkAuthConfig false "" 0 0) (mkRateLimitConfig false 0 0) (mkMetricsConfig false 0)
    (mkRoutingConfig "" 0 ∅ ∅).

Lemma load_validates_witness :
  ∃ cfg, Load (λ _, inr demo_config) "gateway.yaml" = inr cfg ∧ sv_Port (Server cfg) = 8080 ∧
    rt_DefaultStrategy (Routing cfg) = "priority".
Proof.
  destruct (load_validates (λ _, inr demo_config) "gateway.yaml" demo_config) as (H1&_&H3); [reflexivity|].
  destruct (proj1 H1) as [cfg Hcfg].
  - split; [|split; discriminate]. exists "openai", (mkProviderConfig "sk-x" "" 0 ["gpt-4o"] 2 0).
    split; [reflexivity|discriminate].
  - exists cfg. split; [exact Hcfg|]. destruct (H3 cfg Hcfg) as [Hd _].
    split; [apply (df_port _ _ Hd)|apply (df_strategy _ _ Hd)]; reflexivity.
Defined.

(** ** Environment keys *)

(** A key component: lower-case text without [__] that does not end in [_]. *)
Fixpoint component_ok (s : string) : bool :=
  match s with
  | EmptyString => true
  | String "_" EmptyString => false
  | String "_" (String "_" _) => false
  | String a t => Ascii.eqb (to_lower a) a && component_ok t
  end.

Definition to_upper (a : ascii) : ascii :=
  let n := N_of_ascii a in
  if (97 <=? Z.of_N n) && (Z.of_N n <=? 122) then ascii_of_N (n - 32) else a.

Lemma to_lower_upper a : to_lower a = a → to_lower (to_upper a) = a.
Proof. destruct a as [[] [] [] [] [] [] [] []]; vm_compute; intros [=]; reflexivity. Qed.

Lemma ToLower_upper s : component_ok s = true → ToLower (str_map to_upper s) = s.
Proof.
  unfold ToLower. induction s as [|a s IH]; [done|]. intros Hok. simpl.
  assert (to_lower a = a ∧ component_ok s = true) as [Ha Hs].
  { cbn [component_ok] in Hok. destruct (decide (a = "_"%char)) as [->|Hne].
    - split; [done|]. destruct s as [|[[] [] [] [] [] [] [] []] s]; try done.
    - destruct a as [[] [] [] [] [] [] [] []]; try done;
        by apply andb_true_iff in Hok as [Hx%Ascii.eqb_eq ?]. }
  by rewrite to_lower_upper, IH.
Qed.

Lemma replace_component s t :
  component_ok s = true → replace_dunder (s +:+ "__" +:+ t) = s +:+ "." +:+ replace_dunder t.
Proof.
  induction s as [|a s IH]; [done|]. intros Hok.
  change (String a s +:+ "__" +:+ t) with (String a (s +:+ "__" +:+ t)).
  change (String a s +:+ "." +:+ replace_dunder t) with (String a (s +:+ "." +:+ replace_dunder t)).
  assert (component_ok s = true) as Hs.
  { cbn [component_ok] in Hok. destruct a as [[] [] [] [] [] [] [] []]; try (by apply andb_true_iff in Hok as [_ ?]).
    destruct s as [|[[] [] [] [] [] [] [] []] s]; try done. }
  rewrite <-IH by done. cbn [component_ok] in Hok. cbn [replace_dunder].
  destruct a as [[] [] [] [] [] [] [] []]; try reflexivity.
  destruct s as [|b s]; [done|]. change (String b s +:+ "__" +:+ t) with (String b (s +:+ "__" +:+ t)).
  destruct b as [[] [] [] [] [] [] [] []]; try reflexivity. done.
Qed.

Lemma replace_last s : component_ok s = true → replace_dunder s = s.
Proof.
  induction s as [|a s IH]; [done|]. intros Hok.
  assert (component_ok s = true) as Hs.
  { cbn [component_ok] in Hok. destruct a as [[] [] [] [] [] [] [] []]; try (by apply andb_true_iff in Hok as [_ ?]).
    destruct s as [|[[] [] [] [] [] [] [] []] s]; try done. }
  cbn [component_ok] in Hok. cbn [replace_dunder]. rewrite IH by done.
  destruct a as [[] [] [] [] [] [] [] []]; try reflexivity.
  destruct s as [|[[] [] [] [] [] [] [] []] s]; try reflexivity; done.
Qed.

(** The documented name of the variable for a key path. *)
Definition env_name (path : list string) : string :=
  "GATEWAY_" +:+ Join (str_map to_upper <$> path) "__".

(** The environment mapping is a round trip: for every key path whose
    components are lower-case, contain no double underscore and do not end in
    an underscore (all of [config.go]'s keys), the variable
    [GATEWAY_<A>__<B>...] sets exactly the key [a.b....]. *)
Theorem env_key_roundtrip (path : list string)
    (Hok : Forall (λ s, component_ok s = true) path) :
  env_key (env_name path) = Join path ".".
Proof.
  unfold env_key, env_name. change (TrimPrefix _ _) with (Join (str_map to_upper <$> path) "__").
  induction Hok as [|s path Hs Hok IH]; [done|].
  destruct path as [|s' path].
  - change (Join (str_map to_upper <$> [s]) "__") with (str_map to_upper s). simpl.
    by rewrite ToLower_upper, replace_last.
  - change (Join (str_map to_upper <$> s :: s' :: path) "__")
      with (str_map to_upper s +:+ "__" +:+ Join (str_map to_upper <$> s' :: path) "__").
    change (Join (s :: s' :: path) ".") with (s +:+ "." +:+ Join (s' :: path) ".").
    rewrite !ToLower_app, ToLower_upper by done. change (ToLower "__") with "__".
    by rewrite replace_component, IH.
Qed.

Lemma env_key_roundtrip_witness :
  env_key "GATEWAY_PROVIDERS__OPENAI__API_KEY" = "providers.openai.api_key".
Proof.
  apply (env_key_roundtrip ["providers"; "openai"; "api_key"]). repeat constructor.
Defined.
