(* ===== verification/Router.v ===== *)
(** * The router

    Models src/internal/router (router.go, candidates.go): [NewRouter],
    [Route], [resolveCandidates], [expandGroup], [warnSkipOnce] and
    [filterHealthy].  [RouteState] holds what a request may change: the
    strategy instances (in the builder's heap), the set of skip warnings
    already given, and the warning log.  The health objects are read only. *)

From S2P Require Import Prelude GoStrings Float64 Model Health Registry Strategies RateLimit.
From S2P Require Import Config.
Local Open Scope Z_scope.

Inductive RouteErr :=
| ErrUnknownModel
| ErrNoHealthyProviders
| ErrNilRequest
| ErrStrategy (msg : string).

(** [registry] is not nil once [NewRouter] has returned. *)
Record defaultRouter := mkRouter {
  rt_registry : Registry;
  rt_groups : gmap string ModelGroupConfig;
  rt_pricing : gmap string CandidatePricing;
  rt_defaultStrategy : nat;
  rt_groupStrategies : gmap string nat;
}.

Record RouteState := mkRouteState {
  rs_heap : gmap nat StratState;
  rs_skipWarnOnce : gset string;
  rs_log : list RouteWarn;
}.

(** ** Construction *)

Definition group_err (groupName : string) (i : nat) (what : string) : string :=
  "router: model_groups[" +:+ Quote groupName +:+ "].candidates[" +:+ Itoa (Z.of_nat i) +:+ "]: " +:+ what.

Fixpoint check_candidates (providers : gmap string ProviderConfig) (groupName : string) (i : nat)
    (cs : list CandidateConfig) : option string :=
  match cs with
  | [] => None
  | c :: cs =>
      if bool_decide (cf_Provider c = "") then Some (group_err groupName i "provider is empty")
      else if bool_decide (cf_Model c = "") then Some (group_err groupName i "model is empty")
      else match providers !! cf_Provider c with
      | None => Some (group_err groupName i ("provider " +:+ Quote (cf_Provider c) +:+ " is not configured"))
      | Some _ => check_candidates providers groupName (S i) cs
      end
  end.

(** The [build] argument of [NewRouter]: a function from strategy names to
    strategies; the one the program passes is [Builder_Build]. *)
Definition BuildFn : Type := string → Builder → (string + nat) * Builder.

(** The loop over [cfg.ModelGroups]; [order] is the order Go iterates it in. *)
Fixpoint build_groups (build : BuildFn) (providers : gmap string ProviderConfig)
    (order : list (string * ModelGroupConfig)) (gs : gmap string nat) (b : Builder)
    : (string + gmap string nat) * Builder :=
  match order with
  | [] => (inr gs, b)
  | (groupName, g) :: order =>
      match check_candidates providers groupName 0 (mg_Candidates g) with
      | Some e => (inl e, b)
      | None =>
          if bool_decide (mg_Strategy g = "") then build_groups build providers order gs b
          else match build (mg_Strategy g) b with
          | (inl e, b) => (inl ("router: model_groups[" +:+ Quote groupName +:+ "]: " +:+ e), b)
          | (inr s, b) => build_groups build providers order (<[groupName := s]> gs) b
          end
      end
  end.

Definition NewRouter (registry : option Registry) (cfg : RoutingConfig)
    (order : list (string * ModelGroupConfig)) (providers : gmap string ProviderConfig)
    (build : option BuildFn) (b : Builder) : (string + defaultRouter) * Builder :=
  match registry, build with
  | None, _ => (inl "router: registry is required", b)
  | Some _, None => (inl "router: strategy builder is required", b)
  | Some reg, Some build =>
      match build (rt_DefaultStrategy cfg) b with
      | (inl e, b) => (inl ("router: " +:+ e), b)
      | (inr d, b) =>
          match build_groups build providers order ∅ b with
          | (inl e, b) => (inl e, b)
          | (inr gs, b) =>
              (inr {| rt_registry := reg; rt_groups := rt_ModelGroups cfg;
                      rt_pricing := rt_Pricing cfg; rt_defaultStrategy := d;
                      rt_groupStrategies := gs |}, b)
          end
      end
  end.

(** ** Candidates *)

Definition skip_key (providerName modelName : string) : string :=
  providerName +:+ nul +:+ modelName.

Definition warnSkipOnce (providerName modelName : string) (st : RouteState) : RouteState :=
  let key := skip_key providerName modelName in
  if decide (key ∈ rs_skipWarnOnce st) then st
  else {| rs_heap := rs_heap st; rs_skipWarnOnce := {[key]} ∪ rs_skipWarnOnce st;
          rs_log := rs_log st ++ [WarnSkip providerName modelName] |}.

Definition group_candidate (c : CandidateConfig) (p : Provider) : Candidate :=
  {| c_Provider := p; c_Model := cf_Model c; CostPer1kInputUSD := cf_CostPer1kInputUSD c;
     CostPer1kOutputUSD := cf_CostPer1kOutputUSD c; Priority := cf_Priority c;
     Weight := cf_Weight c |}.

Fixpoint expandGroup (r : defaultRouter) (cs : list CandidateConfig) (st : RouteState)
    : list Candidate * RouteState :=
  match cs with
  | [] => ([], st)
  | c :: cs =>
      match Resolve (cf_Model c) (rt_registry r) with
      | inl _ => expandGroup r cs (warnSkipOnce (cf_Provider c) (cf_Model c) st)
      | inr p =>
          let '(out, st) := expandGroup r cs st in (group_candidate c p :: out, st)
      end
  end.

Definition resolveCandidates (r : defaultRouter) (modelName : string) (st : RouteState)
    : (RouteErr + string * list Candidate) * RouteState :=
  match rt_groups r !! modelName with
  | Some g =>
      let '(cs, st) := expandGroup r (mg_Candidates g) st in (inr (modelName, cs), st)
  | None =>
      match Resolve modelName (rt_registry r) with
      | inl _ => (inl ErrUnknownModel, st)
      | inr p =>
          let canonical := CanonicalModel modelName (rt_registry r) in
          let '(ci, co) :=
            match rt_pricing r !! canonical with
            | Some price => (pr_CostPer1kInputUSD price, pr_CostPer1kOutputUSD price)
            | None => (f64_zero, f64_zero)
            end in
          (inr ("", [{| c_Provider := p; c_Model := canonical; CostPer1kInputUSD := ci;
                        CostPer1kOutputUSD := co; Priority := 0; Weight := 1 |}]), st)
      end
  end.

(** A tracked provider's health object exists. *)
Definition candidate_healthy (now : Z) (healths : gmap nat ProviderHealth) (c : Candidate) : bool :=
  match HealthFor (c_Provider c) with
  | None => true
  | Some id => match healths !! id with Some h => IsHealthy now h | None => false end
  end.

Definition filterHealthy (now : Z) (healths : gmap nat ProviderHealth) (cs : list Candidate)
    : list Candidate :=
  filter (λ c, candidate_healthy now healths c = true) cs.

(** ** Route *)

Definition set_Group (g : string) (m : RequestMeta) : RequestMeta :=
  {| mt_OrgID := mt_OrgID m; mt_KeyID := mt_KeyID m; mt_Attempt := mt_Attempt m;
     mt_TriedNames := mt_TriedNames m; mt_Group := g |}.

Definition strategy_for (r : defaultRouter) (group : string) : nat :=
  if bool_decide (group = "") then rt_defaultStrategy r
  else match rt_groupStrategies r !! group with
       | Some s => s
       | None => rt_defaultStrategy r
       end.

(** [rnd] is what the strategy's random source returns, [now] the clock the
    health objects read. *)
Definition Route (r : defaultRouter) (req : option ChatCompletionRequest) (meta : RequestMeta)
    (rnd : f64) (now : Z) (healths : gmap nat ProviderHealth) (st : RouteState)
    : outcome RouteErr (Provider * Decision) * RouteState :=
  match req with
  | None => (Error ErrNilRequest, st)
  | Some req =>
      match resolveCandidates r (rq_Model req) st with
      | (inl e, st) => (Error e, st)
      | (inr (group, candidates), st) =>
          let candidates := filterHealthy now healths candidates in
          match candidates with
          | [] => (Error ErrNoHealthyProviders, st)
          | _ =>
              let ref := strategy_for r group in
              match rs_heap st !! ref with
              | None => (Panic, st)
              | Some s =>
                  let '(res, ws, s') := Select candidates req (set_Group group meta) rnd s in
                  let st := {| rs_heap := <[ref := s']> (rs_heap st);
                               rs_skipWarnOnce := rs_skipWarnOnce st;
                               rs_log := rs_log st ++ ws |} in
                  match res with
                  | Panic => (Panic, st)
                  | Error e =>
                      (Error (ErrStrategy ("router: strategy " +:+ Quote (strategy_Name s) +:+ ": " +:+ e)), st)
                  | Ret picked =>
                      (Ret (c_Provider picked,
                            {| dc_Provider := provider_Name (c_Provider picked);
                               dc_Model := c_Model picked;
                               dc_Strategy := strategy_Name s;
                               dc_Group := group;
                               dc_ExperimentName := "";
                               dc_Variant := "" |}), st)
                  end
              end
          end
      end
  end.
