(* ===== verification/RouterProps.v ===== *)
(** * Guarantees of the router

    [NewRouter] validates exactly and establishes the invariant [router_wf];
    [Route] on every branch, for configurations whose group weights sum to an
    [int64] and whose groups have fewer than 2^53 candidates
    ([sane_routing]). *)

From S2P Require Import Prelude GoStrings Float64 Model Health Registry Strategies.
From S2P Require Import StrategyProps RateLimit Config Router.
Local Open Scope Z_scope.

(** ** Specification of candidate resolution, without the warnings *)

Definition expand_spec (r : defaultRouter) (cs : list CandidateConfig) : list Candidate :=
  omap (λ c, group_candidate c <$> models (rt_registry r) !! cf_Model c) cs.

Definition single_spec (r : defaultRouter) (m : string) (p : Provider) : Candidate :=
  let canonical := CanonicalModel m (rt_registry r) in
  let price := default (mkCandidatePricing f64_zero f64_zero) (rt_pricing r !! canonical) in
  mkCandidate p canonical (pr_CostPer1kInputUSD price) (pr_CostPer1kOutputUSD price) 0 1.

(** Model groups take precedence over concrete models and aliases. *)
Definition resolve_spec (r : defaultRouter) (m : string) : option (string * list Candidate) :=
  match rt_groups r !! m with
  | Some g => Some (m, expand_spec r (mg_Candidates g))
  | None => (λ p, ("", [single_spec r m p])) <$> models (rt_registry r) !! m
  end.

Lemma expandGroup_spec r cs st : (expandGroup r cs st).1 = expand_spec r cs.
Proof.
  revert st. induction cs as [|c cs IH]; intros st; [done|]. simpl. unfold Resolve.
  destruct (models (rt_registry r) !! cf_Model c) as [p|]; simpl; [|apply IH].
  specialize (IH st). destruct (expandGroup r cs st) as [out st']. simpl in *. by rewrite IH.
Qed.

Lemma warnSkipOnce_heap p m st : rs_heap (warnSkipOnce p m st) = rs_heap st.
Proof. unfold warnSkipOnce. by case_decide. Qed.

Lemma expandGroup_heap r cs st : rs_heap (expandGroup r cs st).2 = rs_heap st.
Proof.
  revert st. induction cs as [|c cs IH]; intros st; [done|]. simpl.
  destruct (Resolve _ _); [by rewrite IH, warnSkipOnce_heap|].
  specialize (IH st). by destruct (expandGroup r cs st).
Qed.

Lemma resolveCandidates_spec r m st :
  (resolveCandidates r m st).1 =
    match resolve_spec r m with Some gc => inr gc | None => inl ErrUnknownModel end ∧
  rs_heap (resolveCandidates r m st).2 = rs_heap st.
Proof.
  unfold resolveCandidates, resolve_spec. destruct (rt_groups r !! m) as [g|].
  - pose proof (expandGroup_spec r (mg_Candidates g) st) as Hs.
    pose proof (expandGroup_heap r (mg_Candidates g) st) as Hh.
    destruct (expandGroup r _ st). simpl in *. by subst.
  - unfold Resolve. destruct (models (rt_registry r) !! m) as [p|]; [|done]. simpl.
    unfold single_spec. by destruct (rt_pricing r !! _).
Qed.

(** ** Well-formed routers: every strategy reference is alive, under the name
    the configuration gives it *)

Definition names_at (h : gmap nat StratState) (ref : nat) (name : string) : Prop :=
  ∃ s, h !! ref = Some s ∧ strategy_Name s = name.

(** The strategy the configuration asks for in a group. *)
Definition configured_strategy (cfg : RoutingConfig) (group : string) : string :=
  match rt_ModelGroups cfg !! group with
  | Some g => if bool_decide (group = "") || bool_decide (mg_Strategy g = "")
              then rt_DefaultStrategy cfg else mg_Strategy g
  | None => rt_DefaultStrategy cfg
  end.

Definition router_wf (cfg : RoutingConfig) (r : defaultRouter) (h : gmap nat StratState) : Prop :=
  ∀ group, names_at h (strategy_for r group) (configured_strategy cfg group).

(** Requests for which the strategies are total. *)
Definition sane_routing (r : defaultRouter) : Prop :=
  ∀ m g cs, resolve_spec r m = Some (g, cs) → sane_candidates cs.

(** A candidate can be used when its provider is not tracked, or its health
    object admits requests at [now]. *)
Definition available (now : Z) (healths : gmap nat ProviderHealth) (c : Candidate) : Prop :=
  match c_Provider c with
  | Tracked id _ => ∃ h, healths !! id = Some h ∧ IsHealthy now h = true
  | Bare _ => True
  end.

Lemma candidate_healthy_available now hs c : candidate_healthy now hs c = true ↔ available now hs c.
Proof.
  unfold candidate_healthy, available. destruct (c_Provider c) as [id n|n]; simpl; [|done].
  destruct (hs !! id); naive_solver.
Qed.

#[export] Instance available_dec now hs c : base.Decision (available now hs c).
Proof.
  refine (cast_if (decide (candidate_healthy now hs c = true)));
    by rewrite <-candidate_healthy_available.
Defined.

Lemma filterHealthy_available now hs cs : filterHealthy now hs cs = filter (available now hs) cs.
Proof. apply list_filter_iff, candidate_healthy_available. Qed.

Lemma names_at_update h ref s s' ref' name :
  h !! ref = Some s → strategy_Name s' = strategy_Name s →
  names_at h ref' name → names_at (<[ref := s']> h) ref' name.
Proof.
  intros Hs Hn (s0&Hl&H0). unfold names_at. rewrite lookup_insert. case_decide; [|by exists s0].
  subst ref'. exists s'. split; [done|]. congruence.
Qed.

Lemma sane_filter (P : Candidate → Prop) `{∀ c, base.Decision (P c)} cs :
  sane_candidates cs → sane_candidates (filter P cs).
Proof.
  intros [Hs Hl]. assert (sumw (filter P cs) ≤ sumw cs).
  { clear. induction cs as [|c cs IH]; [done|]. rewrite filter_cons. case_decide; simpl; lia. }
  split; [lia|]. pose proof (length_filter P cs). lia.
Qed.

Lemma expand_cons r c cs :
  expand_spec r (c :: cs) =
    match models (rt_registry r) !! cf_Model c with
    | Some p => group_candidate c p :: expand_spec r cs
    | None => expand_spec r cs
    end.
Proof. unfold expand_spec. simpl. by destruct (models (rt_registry r) !! cf_Model c). Qed.

Lemma expand_bounds r cs :
  sumw (expand_spec r cs) ≤ foldr (λ c a, Z.max 0 (cf_Weight c) + a) 0 cs ∧
  (length (expand_spec r cs) ≤ length cs)%nat.
Proof.
  induction cs as [|c cs IH]; [done|]. rewrite expand_cons.
  destruct (models (rt_registry r) !! cf_Model c) as [p|]; cbn [foldr length]; [|lia].
  change (sumw (group_candidate c p :: expand_spec r cs))
    with (Z.max 0 (cf_Weight c) + sumw (expand_spec r cs)). lia.
Qed.

(** Configured groups of ordinary size make every request sane. *)
Lemma sane_routing_intro r :
  (∀ m g, rt_groups r !! m = Some g →
     foldr (λ c a, Z.max 0 (cf_Weight c) + a) 0 (mg_Candidates g) ≤ max64 ∧
     Z.of_nat (length (mg_Candidates g)) < 2 ^ 53) →
  sane_routing r.
Proof.
  intros Hg m g cs Hres. unfold sane_candidates.
  unfold resolve_spec in Hres. destruct (rt_groups r !! m) as [gc|] eqn:E.
  - injection Hres as <- <-. destruct (expand_bounds r (mg_Candidates gc)).
    destruct (Hg m gc E). lia.
  - destruct (models (rt_registry r) !! m); [|done]. injection Hres as <- <-.
    simpl in *. unfold max64. lia.
Qed.

(** What [Route] does with a well-formed router. *)
Lemma Route_spec (cfg : RoutingConfig) (r : defaultRouter) (req : ChatCompletionRequest)
    (meta : RequestMeta) (k now : Z) (healths : gmap nat ProviderHealth) (st : RouteState)
    (Hwf : router_wf cfg r (rs_heap st)) (Hsane : sane_routing r) (Hk : 0 ≤ k < 2 ^ 53) :
  let '(res, st') := Route r (Some req) meta (rand_Float64 k) now healths st in
  router_wf cfg r (rs_heap st') ∧
  match resolve_spec r (rq_Model req) with
  | None => res = Error ErrUnknownModel ∧ rs_heap st' = rs_heap st
  | Some (group, cs) =>
      match filter (available now healths) cs with
      | [] => res = Error ErrNoHealthyProviders ∧ rs_heap st' = rs_heap st
      | healthy =>
          ∃ s s' ws c, rs_heap st !! strategy_for r group = Some s ∧
            strategy_Name s = configured_strategy cfg group ∧
            Select healthy req (set_Group group meta) (rand_Float64 k) s = (Ret c, ws, s') ∧
            c ∈ healthy ∧ rs_heap st' = <[strategy_for r group := s']> (rs_heap st) ∧
            res = Ret (c_Provider c,
              mkDecision (provider_Name (c_Provider c)) (c_Model c)
                (configured_strategy cfg group) group "" "")
      end
  end.
Proof.
  unfold Route. destruct (resolveCandidates_spec r (rq_Model req) st) as [Hres Hheap].
  destruct (resolveCandidates r (rq_Model req) st) as [out st1]. simpl in Hres, Hheap. subst out.
  rewrite <-Hheap in *. specialize (Hsane (rq_Model req)).
  destruct (resolve_spec r (rq_Model req)) as [[group cs]|]; [|done].
  specialize (sane_filter (available now healths) cs (Hsane group cs eq_refl)) as Hcs.
  rewrite filterHealthy_available.
  destruct (filter (available now healths) cs) as [|c0 l] eqn:Ef; [done|].
  destruct (Hwf group) as (s&Hs&Hn). rewrite Hs.
  destruct (select_total_aux s (c0 :: l) req (set_Group group meta) k) as (c&ws&s'&Hsel&Hin&Hname);
    [done|done|done|].
  rewrite Hsel. split.
  - simpl. intros g. eapply names_at_update; eauto.
  - exists s, s', ws, c. by rewrite Hn.
Qed.

(** C19: routing is decided by the model name and the health of the
    candidates.  A name that is neither a group nor registered gives
    [ErrUnknownModel]; a name all of whose candidates are circuit-broken (or
    unresolvable) gives [ErrNoHealthyProviders]; in both cases no strategy
    changes.  Otherwise the strategy configured for the group (the group's
    override, else the default) selects among exactly the available
    candidates, in order; [Route] returns its choice, only that strategy's
    state changes, and the decision names the provider, upstream model,
    strategy and group of the choice.  The router stays well-formed. *)
Theorem route_correct (cfg : RoutingConfig) (r : defaultRouter) (req : ChatCompletionRequest)
    (meta : RequestMeta) (k now : Z) (healths : gmap nat ProviderHealth) (st : RouteState)
    (Hwf : router_wf cfg r (rs_heap st)) (Hsane : sane_routing r) (Hk : 0 ≤ k < 2 ^ 53) :
  let '(res, st') := Route r (Some req) meta (rand_Float64 k) now healths st in
  router_wf cfg r (rs_heap st') ∧
  match resolve_spec r (rq_Model req) with
  | None => res = Error ErrUnknownModel ∧ rs_heap st' = rs_heap st
  | Some (group, cs) =>
      match filter (available now healths) cs with
      | [] => res = Error ErrNoHealthyProviders ∧ rs_heap st' = rs_heap st
      | healthy =>
          ∃ s s' ws c, rs_heap st !! strategy_for r group = Some s ∧
            strategy_Name s = configured_strategy cfg group ∧
            Select healthy req (set_Group group meta) (rand_Float64 k) s = (Ret c, ws, s') ∧
            c ∈ healthy ∧ rs_heap st' = <[strategy_for r group := s']> (rs_heap st) ∧
            res = Ret (c_Provider c,
              mkDecision (provider_Name (c_Provider c)) (c_Model c)
                (configured_strategy cfg group) group "" "")
      end
  end.
Proof. by apply Route_spec. Qed.

(** ** Construction *)

Definition candidate_ok (providers : gmap string ProviderConfig) (c : CandidateConfig) : Prop :=
  cf_Provider c ≠ "" ∧ cf_Model c ≠ "" ∧ is_Some (providers !! cf_Provider c).

Definition group_ok (providers : gmap string ProviderConfig) (g : ModelGroupConfig) : Prop :=
  Forall (candidate_ok providers) (mg_Candidates g) ∧
  (mg_Strategy g = "" ∨ mg_Strategy g ∈ known_strategies).

Definition routing_ok (cfg : RoutingConfig) (providers : gmap string ProviderConfig) : Prop :=
  rt_DefaultStrategy cfg ∈ known_strategies ∧
  map_Forall (λ _ g, group_ok providers g) (rt_ModelGroups cfg).

Lemma check_candidates_None providers name i cs :
  check_candidates providers name i cs = None ↔ Forall (candidate_ok providers) cs.
Proof.
  revert i. induction cs as [|c cs IH]; intros i; simpl; [split; [constructor|done]|].
  rewrite Forall_cons. unfold candidate_ok at 1.
  repeat case_bool_decide; [naive_solver..|].
  destruct (providers !! cf_Provider c) eqn:E; [rewrite IH; naive_solver|].
  split; [done|]. intros [(_&_&[? ?]) _]. congruence.
Qed.

Lemma Builder_Build_error exp name b e b' :
  builder_wf b → Builder_Build exp name b = (inl e, b') → name ∉ known_strategies.
Proof.
  intros Hwf Hb. pose proof (Builder_Build_spec exp name b Hwf) as Hs. rewrite Hb in Hs.
  destruct Hs as [Hs _]. intros [st Hst]%(Build_known exp). congruence.
Qed.

Lemma Builder_Build_known exp name b s b' :
  builder_wf b → Builder_Build exp name b = (inr s, b') → name ∈ known_strategies.
Proof.
  intros Hwf Hb. apply (Build_known exp). unfold Builder_Build in Hb.
  destruct (by_name b !! name) as [ref|] eqn:E.
  - destruct (bw_heap b Hwf _ _ E) as (st&_&<-).
    destruct st; eexists; reflexivity.
  - destruct (Build exp name) eqn:Eb; [done|]. by eexists.
Qed.

Lemma build_groups_spec exp providers order gs b :
  builder_wf b → NoDup order.*1 →
  match build_groups (Builder_Build exp) providers order gs b with
  | (inl _, _) => ¬ Forall (λ kg, group_ok providers kg.2) order
  | (inr gs', b') =>
      Forall (λ kg, group_ok providers kg.2) order ∧ builder_wf b' ∧
      (∀ n ref, by_name b !! n = Some ref → by_name b' !! n = Some ref) ∧
      (∀ g conf, (g, conf) ∈ order → mg_Strategy conf ≠ "" →
         ∃ ref, gs' !! g = Some ref ∧ by_name b' !! mg_Strategy conf = Some ref) ∧
      (∀ g, (∀ conf, (g, conf) ∈ order → mg_Strategy conf = "") → gs' !! g = gs !! g)
  end.
Proof.
  revert gs b. induction order as [|[g conf] order IH]; intros gs b Hwf Hnd.
  { simpl. split; [constructor|]. split; [done|]. split; [done|]. split; [|done].
    by intros ?? ?%elem_of_nil. }
  simpl in Hnd. apply NoDup_cons in Hnd as [Hg Hnd]. simpl.
  destruct (check_candidates providers g 0 (mg_Candidates conf)) eqn:Ec.
  { rewrite Forall_cons. intros [[Hok%(check_candidates_None _ g 0) _] _]. simpl in Hok. congruence. }
  apply check_candidates_None in Ec.
  assert (∀ c', (g, c') ∉ order) as Hfresh.
  { intros c' Hin. apply Hg, list_elem_of_fmap. by exists (g, c'). }
  case_bool_decide as Hst.
  { specialize (IH gs b Hwf Hnd). destruct (build_groups _ _ order gs b) as [[e|gs'] b'].
    { rewrite Forall_cons. naive_solver. }
    destruct IH as (Hall&Hwf'&Hmono&Hov&Hno). split; [constructor; [|done]|].
    { split; [done|by left]. }
    split; [done|]. split; [done|]. split.
    - intros g' c' [[= -> ->]|Hin]%elem_of_cons Hne; [done|by eapply Hov].
    - intros g' Hg'. apply Hno. intros c' Hin. apply Hg'. by right. }
  destruct (Builder_Build exp (mg_Strategy conf) b) as [[e|s] b1] eqn:Eb.
  { apply Builder_Build_error in Eb; [|done]. rewrite Forall_cons.
    intros [[_ [?|?]] _]; done. }
  pose proof (Builder_Build_known _ _ _ _ _ Hwf Eb) as Hknown.
  pose proof (Builder_Build_spec exp (mg_Strategy conf) b Hwf) as Hspec. rewrite Eb in Hspec.
  destruct Hspec as (Hwf1&Hby&_&Hmono1&_).
  specialize (IH (<[g := s]> gs) b1 Hwf1 Hnd).
  destruct (build_groups _ _ order _ b1) as [[e|gs'] b'].
  { rewrite Forall_cons. naive_solver. }
  destruct IH as (Hall&Hwf'&Hmono&Hov&Hno). split; [constructor; [split; [done|by right]|done]|].
  split; [done|]. split; [by auto|]. split.
  - intros g' c' [[= -> ->]|Hin]%elem_of_cons Hne; [|by eapply Hov].
    exists s. split; [|by apply Hmono]. rewrite Hno; [apply lookup_insert_eq|].
    intros c' Hin. by destruct (Hfresh c').
  - intros g' Hg'. rewrite Hno.
    + apply lookup_insert_ne. intros ->. specialize (Hg' conf ltac:(by left)). done.
    + intros c' Hin. apply Hg'. by right.
Qed.

(** C37: [NewRouter] accepts a routing configuration exactly when its default
    strategy and every override name a known strategy and every group
    candidate has a provider, a model, and a configured provider, whatever the
    order in which the groups are visited; the router it returns is
    well-formed: each group is served by the strategy configured for it. *)
Theorem new_router_validates (reg : Registry) (cfg : RoutingConfig)
    (order : list (string * ModelGroupConfig)) (providers : gmap string ProviderConfig)
    (exp : f64 → f64) (b : Builder)
    (Horder : order ≡ₚ map_to_list (rt_ModelGroups cfg)) (Hwf : builder_wf b) :
  match NewRouter (Some reg) cfg order providers (Some (Builder_Build exp)) b with
  | (inl _, _) => ¬ routing_ok cfg providers
  | (inr r, b') => routing_ok cfg providers ∧ builder_wf b' ∧ router_wf cfg r (heap b') ∧
      rt_registry r = reg ∧ rt_groups r = rt_ModelGroups cfg ∧ rt_pricing r = rt_Pricing cfg
  end.
Proof.
  assert (map_Forall (λ _ g, group_ok providers g) (rt_ModelGroups cfg) ↔
          Forall (λ kg, group_ok providers kg.2) order) as Hall.
  { rewrite map_Forall_to_list, Horder. split; (intros H; eapply Forall_impl; [exact H|]; by intros []). }
  assert (∀ g conf, (g, conf) ∈ order ↔ rt_ModelGroups cfg !! g = Some conf) as Hin.
  { intros g conf. rewrite <-elem_of_map_to_list. split; intros Hin; [by rewrite <-Horder|by rewrite Horder]. }
  assert (NoDup order.*1) as Hnd by (rewrite Horder; apply NoDup_fst_map_to_list).
  unfold routing_ok, NewRouter.
  destruct (Builder_Build exp (rt_DefaultStrategy cfg) b) as [[e|d] b1] eqn:Eb.
  { apply Builder_Build_error in Eb; [|done]. naive_solver. }
  pose proof (Builder_Build_known _ _ _ _ _ Hwf Eb) as Hknown.
  pose proof (Builder_Build_spec exp (rt_DefaultStrategy cfg) b Hwf) as Hspec. rewrite Eb in Hspec.
  destruct Hspec as (Hwf1&Hby&_).
  pose proof (build_groups_spec exp providers order ∅ b1 Hwf1 Hnd) as Hg.
  destruct (build_groups _ _ order ∅ b1) as [[e|gs] b']; [naive_solver|].
  destruct Hg as (Hok&Hwf'&Hmono&Hov&Hno). split; [split; [done|by apply Hall]|].
  split; [done|]. split; [|done].
  intros group. unfold strategy_for, configured_strategy. simpl.
  assert (names_at (heap b') d (rt_DefaultStrategy cfg)) as Hd
    by (apply (bw_heap b' Hwf'), Hmono, Hby).
  case_bool_decide as He; simpl; [by destruct (rt_ModelGroups cfg !! group)|].
  destruct (rt_ModelGroups cfg !! group) as [conf|] eqn:El.
  - case_bool_decide as Hs; simpl.
    + rewrite Hno; [by rewrite lookup_empty|]. intros conf' Hin'. apply Hin in Hin'. congruence.
    + destruct (Hov group conf) as (ref&->&Href); [by apply Hin|done|].
      by apply (bw_heap b' Hwf').
  - rewrite Hno; [by rewrite lookup_empty|]. intros conf' Hin'. apply Hin in Hin'. congruence.
Qed.

(** ** A worked example: a two-provider group with an override *)

Definition demo_registry : Registry :=
  startup [(Tracked 0 "openai", ["gpt-4o"]); (Tracked 1 "anthropic", ["claude"])] [("best", "gpt-4o")].
Definition demo_group : ModelGroupConfig :=
  mkModelGroupConfig "round_robin"
    [mkCandidateConfig "openai" "gpt-4o" f64_zero f64_zero 0 1;
     mkCandidateConfig "anthropic" "claude" f64_zero f64_zero 1 1;
     mkCandidateConfig "google" "gemini" f64_zero f64_zero 2 1].
Definition demo_routing : RoutingConfig :=
  mkRoutingConfig "priority" 3 (<["smart" := demo_group]> ∅) ∅.
Definition demo_providers : gmap string ProviderConfig :=
  let p := mkProviderConfig "k" "" 0 [] 0 0 in
  <["openai" := p]> (<["anthropic" := p]> (<["google" := p]> ∅)).
Definition demo_built := NewRouter (Some demo_registry) demo_routing [("smart", demo_group)]
  demo_providers (Some (Builder_Build (λ x, x))) NewBuilder.

Lemma new_router_validates_witness : routing_ok demo_routing demo_providers.
Proof.
  pose proof (new_router_validates demo_registry demo_routing [("smart", demo_group)]
    demo_providers (λ x, x) NewBuilder) as Hv.
  destruct Hv as (Hok&_).
  - reflexivity.
  - split; intros n ref; simpl; rewrite lookup_empty; discriminate.
  - exact Hok.
Defined.

Definition demo_router : defaultRouter :=
  mkRouter demo_registry (rt_ModelGroups demo_routing) ∅ 0 (<["smart" := 1%nat]> ∅).
Definition demo_heap : gmap nat StratState :=
  <[0%nat := SPriority]> (<[1%nat := SRoundRobin ∅]> ∅).
Definition demo_healths : gmap nat ProviderHealth :=
  let h := NewProviderHealth (mkHealthConfig 1 0) in
  <[0%nat := (RecordFailure 5 None h).2]> (<[1%nat := h]> ∅).

Example demo_built_ok : demo_built.1 = inr demo_router ∧ heap demo_built.2 = demo_heap.
Proof. vm_compute. split; reflexivity. Qed.

Lemma demo_router_wf : router_wf demo_routing demo_router demo_heap.
Proof.
  intros group. unfold strategy_for, configured_strategy. simpl.
  rewrite lookup_insert. destruct (decide ("smart" = group)) as [<-|Hne].
  - exists (SRoundRobin ∅). split; reflexivity.
  - rewrite lookup_empty. exists SPriority.
    destruct (bool_decide (group = "")); (split; [reflexivity|]);
      rewrite lookup_insert_ne, lookup_empty by done; reflexivity.
Qed.

Lemma demo_sane : sane_routing demo_router.
Proof.
  apply sane_routing_intro. intros m g. simpl. rewrite lookup_insert.
  destruct (decide ("smart" = m)); [|rewrite lookup_empty; discriminate].
  intros [= <-]. vm_compute. split; [discriminate|reflexivity].
Qed.

Lemma route_correct_witness :
  let '(res, st') := Route demo_router (Some demo_req) demo_meta (rand_Float64 3) 10 demo_healths
                       (mkRouteState demo_heap ∅ []) in
  ∃ c, c ∈ filter (available 10 demo_healths) (expand_spec demo_router (mg_Candidates demo_group)) ∧
    res = Ret (c_Provider c, mkDecision (provider_Name (c_Provider c)) (c_Model c)
                "round_robin" "smart" "" "").
Proof.
  pose proof (route_correct demo_routing demo_router demo_req demo_meta 3 10 demo_healths
    (mkRouteState demo_heap ∅ []) demo_router_wf demo_sane ltac:(lia)) as Hr.
  destruct (Route _ _ _ _ _ _ _) as [res st']. destruct Hr as [_ Hr].
  destruct Hr as (s&s'&ws&c&_&_&_&Hc&_&Hres). exists c. split; [exact Hc|exact Hres].
Defined.
