(* ===== verification/Http.v ===== *)
(** * HTTP responses and error bodies

    A handler acts on its [http.ResponseWriter] through four operations; what
    it does is the list of those operations ([WOp]), so the same handler can
    be run against the server's writer ([Writer]) and against a wrapping one.
    [Writer] is net/http's response: headers are fixed by the first
    [WriteHeader] with a final status (or the first [Write], which implies
    200), later calls of [WriteHeader] have no effect.  Before that, a status of
    100 to 199 other than 101 is sent as an informational response and leaves
    the headers open.  (Codes outside 100 to 999, on which net/http panics, are
    not told apart.)

    Bodies are the bytes that encoding/json produces for a value ([Payload]);
    the encoder is an argument.  The second part models
    src/internal/apierr/apierr.go. *)

From S2P Require Import Prelude GoStrings Float64 Model Health Metrics.
From Stdlib Require Import Ascii.
Local Open Scope Z_scope.

Inductive WOp :=
| OSet (k v : string)
| OStatus (status : Z)
| OWrite (b : string)
| OFlush.

(** [textproto.CanonicalMIMEHeaderKey] on header tokens. *)
Fixpoint canonical_from (upper : bool) (s : string) : string :=
  match s with
  | EmptyString => ""
  | String a s =>
      let n := N_of_ascii a in
      let a' :=
        if upper then (if (97 <=? Z.of_N n) && (Z.of_N n <=? 122) then ascii_of_N (n - 32) else a)
        else to_lower a in
      String a' (canonical_from (Ascii.eqb a "-") s)
  end.
Definition CanonicalHeaderKey (s : string) : string := canonical_from true s.

Record Writer := mkWriter {
  w_hdr : gmap string string;
  w_sent : option (Z * gmap string string);
  w_body : string;
  w_info : list (Z * gmap string string);
}.

Definition new_writer : Writer := {| w_hdr := ∅; w_sent := None; w_body := ""; w_info := [] |}.

Definition Header_Get (h : gmap string string) (k : string) : string :=
  default "" (h !! CanonicalHeaderKey k).

Definition informational (status : Z) : bool :=
  (100 <=? status) && (status <=? 199) && negb (status =? 101).

Definition write_header (status : Z) (w : Writer) : Writer :=
  match w_sent w with
  | Some _ => w
  | None =>
      if informational status then
        {| w_hdr := w_hdr w; w_sent := None; w_body := w_body w; w_info := w_info w ++ [(status, w_hdr w)] |}
      else {| w_hdr := w_hdr w; w_sent := Some (status, w_hdr w); w_body := w_body w; w_info := w_info w |}
  end.

Definition wstep (w : Writer) (op : WOp) : Writer :=
  match op with
  | OSet k v =>
      {| w_hdr := <[CanonicalHeaderKey k := v]> (w_hdr w); w_sent := w_sent w; w_body := w_body w;
         w_info := w_info w |}
  | OStatus s => write_header s w
  | OWrite b =>
      let w := write_header 200 w in
      {| w_hdr := w_hdr w; w_sent := w_sent w; w_body := w_body w +:+ b; w_info := w_info w |}
  | OFlush => write_header 200 w
  end.

Definition wrun (w : Writer) (ops : list WOp) : Writer := foldl wstep w ops.

(** What the client receives when the handler returns, after the informational
    responses: status, headers, body. *)
Definition response (w : Writer) : Z * gmap string string * string :=
  match w_sent w with
  | Some (s, h) => (s, h, w_body w)
  | None => (200, w_hdr w, w_body w)
  end.

Definition serve_ops (ops : list WOp) : Z * gmap string string * string :=
  response (wrun new_writer ops).

(** ** Response bodies *)

Record CreateKeyResponse := mkCreateKeyResponse {
  kr_ID : string;
  kr_Key : string;
  kr_KeyPrefix : string;
  kr_Name : string;
  kr_RateLimitRPM : Z;
  kr_RateLimitTPM : Z;
  kr_ExpiresAt : option Z;
  kr_CreatedAt : Z;
}.

Record modelObject := mkModelObject {
  mo_ID : string;
  mo_Object : string;
  mo_OwnedBy : string;
}.

Record modelsResponse := mkModelsResponse {
  mr_Object : string;
  mr_Data : list modelObject;
}.

Record internalHealthResponse := mkInternalHealthResponse {
  ih_Status : string;
  ih_Providers : gmap string HealthStatus;
}.

Inductive Payload :=
| PError (e : APIError)
| PChat (r : ChatCompletionResponse)
| PKey (r : CreateKeyResponse)
| PModels (r : modelsResponse)
| PHealth (r : internalHealthResponse)
| PStatusOk.

Section ApiErr.
Context (encode : Payload → string).

(** ** apierr.go *)

Definition apierr_Write (status : Z) (errType code message : string) : list WOp :=
  [OSet "Content-Type" "application/json";
   OStatus status;
   OWrite (encode (PError (mkAPIError
     {| ed_Message := message; ed_Type := errType; ed_Code := code |})))].

Definition retry_secs (retryAfter : Z) : Z :=
  let secs := f64_ceil_int (duration_Seconds retryAfter) in
  if secs <? 1 then 1 else secs.

Definition WriteRateLimit (retryAfter : Z) (message : string) : list WOp :=
  let secs := retry_secs retryAfter in
  OSet "Retry-After" (Itoa secs) ::
  apierr_Write 429 "rate_limit_error" "rate_limit_exceeded"
    (if bool_decide (message = "")
     then "Rate limit exceeded. Try again in " +:+ Itoa secs +:+ "s."
     else message).
End ApiErr.

Lemma retry_secs_ceil d :
  0 ≤ d < 2 ^ 22 * Second → retry_secs d = Z.max 1 (- ((- d) / Second)).
Proof.
  intros Hd. unfold retry_secs. rewrite ceil_seconds by done.
  destruct (Z.ltb_spec (- ((- d) / Second)) 1); lia.
Qed.

(** ** Running operations *)

Lemma wrun_app w ops1 ops2 : wrun w (ops1 ++ ops2) = wrun (wrun w ops1) ops2.
Proof. apply foldl_app. Qed.

(** The status a body written after [WriteHeader(status)] arrives under. *)
Definition client_status (status : Z) : Z := if informational status then 200 else status.

(** A response that starts with an error body is that error. *)
Lemma serve_error encode status errType code message w :
  w_sent w = None →
  response (wrun w (apierr_Write encode status errType code message)) =
    (client_status status, <[CanonicalHeaderKey "Content-Type" := "application/json"]> (w_hdr w),
     w_body w +:+ encode (PError (mkAPIError (mkErrorDetail message errType code)))).
Proof.
  intros Hs. unfold wrun, apierr_Write. simpl. unfold write_header, client_status. simpl. rewrite Hs.
  by destruct (informational status).
Qed.

(** The client's view of the status of a handler's operations on a fresh
    writer. *)
Definition status_of (ops : list WOp) : Z := (serve_ops ops).1.1.

Lemma error_status encode st ty c msg : status_of (apierr_Write encode st ty c msg) = client_status st.
Proof. unfold status_of, serve_ops. by rewrite serve_error. Qed.
