(* ===== verification/Store.v ===== *)
(** * The Postgres store

    Models src/internal/store: the api_keys and organizations tables as finite
    maps from primary key to row, and the queries of api_keys.go and
    organizations.go on them (with the column types, defaults and constraints of
    the migrations: [key_hash] is unique, [org_id] references an organization,
    the limits are 32-bit columns, a TEXT holds well-formed UTF-8 without
    U+0000, a TIMESTAMPTZ counts microseconds), [mapPgError] (errors.go) and [dsnForMigrate]
    (migrate.go).

    [conn] is the infrastructure error of a call, if any; [parse_uuid] is
    Postgres' parser of UUID text, giving the canonical form. *)

From S2P Require Import Prelude GoStrings Float64 JsonString.
From Stdlib Require Import Ascii.
Local Open Scope Z_scope.

(** ** Data *)

Record APIKey := mkAPIKey {
  ak_ID : string;
  ak_KeyHash : string;
  ak_KeyPrefix : string;
  ak_OrgID : string;
  ak_Name : string;
  ak_Scopes : list string;
  ak_RateLimitRPM : Z;
  ak_RateLimitTPM : Z;
  ak_IsActive : bool;
  ak_CreatedAt : Z;
  ak_ExpiresAt : option Z;
  ak_LastUsedAt : option Z;
}.

Record NewKey := mkNewKey {
  nk_OrgID : string;
  nk_Name : string;
  nk_RateLimitRPM : Z;
  nk_RateLimitTPM : Z;
  nk_ExpiresAt : option Z;
}.

Record Organization := mkOrganization {
  or_ID : string;
  or_Name : string;
  or_MonthlyBudgetUSD : option f64;
  or_TotalBudgetUSD : option f64;
  or_BudgetAlertThreshold : f64;
  or_BudgetAction : string;
  or_CreatedAt : Z;
  or_UpdatedAt : Z;
}.

Record DB := mkDB {
  api_keys : gmap string APIKey;
  organizations : gmap string Organization;
}.

(** Errors: [ErrNotFound], pgx's [ErrNoRows], a [*pgconn.PgError], anything
    else; [EWrapped] is [fmt.Errorf] with [%w]. *)
Inductive dberr :=
| ErrNotFound
| ErrNoRows
| EPg (code msg : string)
| EConn (msg : string)
| EWrapped (prefix : string) (inner : dberr).

Fixpoint is_NotFound (e : dberr) : bool :=
  match e with ErrNotFound => true | EWrapped _ i => is_NotFound i | _ => false end.

Fixpoint pg_code (e : dberr) : option string :=
  match e with EPg c _ => Some c | EWrapped _ i => pg_code i | _ => None end.

Definition mapPgError (err : option dberr) : option dberr :=
  match err with
  | None => None
  | Some e => if decide (pg_code e = Some "22P02") then Some ErrNotFound else Some e
  end.

Section Queries.
Context (parse_uuid : string → option string).

Definition bad_uuid : dberr := EPg "22P02" "invalid input syntax for type uuid".

(** [expires_at IS NULL OR expires_at > NOW()]; the stored expiry is a whole
    number of microseconds, so that truncating [now] to one as well changes
    nothing ([micros_lt]). *)
Definition unexpired (now : Z) (k : APIKey) : bool :=
  match ak_ExpiresAt k with None => true | Some e => now <? e end.

(** The [WHERE] clause of [GetByHash]. *)
Definition hash_match (now : Z) (hash : string) (k : APIKey) : bool :=
  bool_decide (ak_KeyHash k = hash) && ak_IsActive k && unexpired now k.

Definition GetByHash (conn : option dberr) (now : Z) (hashHex : string) (db : DB) : dberr + APIKey :=
  match conn with
  | Some e => inl (EWrapped "scanning api_key: " e)
  | None =>
      match filter (λ k, hash_match now hashHex k = true) (map_to_list (api_keys db)).*2 with
      | k :: _ => inr k
      | [] => inl ErrNotFound
      end
  end.

Definition int32 (z : Z) : bool := (- 2 ^ 31 <=? z) && (z <? 2 ^ 31).

(** What a TEXT column or parameter can hold. *)
Definition pg_text (s : string) : bool :=
  utf8_valid 0 s && str_all (λ a, negb (byte_val a =? 0)) s.

(** A time as a TIMESTAMPTZ keeps it: pgx sends whole microseconds, and
    [NOW()] counts them. *)
Definition micros (t : Z) : Z := t / 1000 * 1000.

(** [newid] is the value of [gen_random_uuid()]. *)
Definition Create (conn : option dberr) (now : Z) (newid : string) (k : NewKey)
    (hashHex prefix : string) (db : DB) : (dberr + APIKey) * DB :=
  let fail e := (inl (EWrapped "inserting api_key: " e), db) in
  match conn with
  | Some e => fail e
  | None =>
      if negb (int32 (nk_RateLimitRPM k) && int32 (nk_RateLimitTPM k)) then
        fail (EConn "value out of range for type integer")
      else if negb (pg_text hashHex && pg_text prefix && pg_text (nk_Name k)) then
        fail (EPg "22021" "invalid byte sequence for encoding UTF8")
      else match parse_uuid (nk_OrgID k) with
      | None => fail bad_uuid
      | Some org =>
          if existsb (λ r, bool_decide (ak_KeyHash r = hashHex)) (map_to_list (api_keys db)).*2 then
            fail (EPg "23505" "duplicate key value violates unique constraint")
          else if negb (bool_decide (is_Some (organizations db !! org))) then
            fail (EPg "23503" "violates foreign key constraint")
          else
            let row := {| ak_ID := newid; ak_KeyHash := hashHex; ak_KeyPrefix := prefix;
                          ak_OrgID := org; ak_Name := nk_Name k; ak_Scopes := [];
                          ak_RateLimitRPM := nk_RateLimitRPM k;
                          ak_RateLimitTPM := nk_RateLimitTPM k; ak_IsActive := true;
                          ak_CreatedAt := micros now; ak_ExpiresAt := micros <$> nk_ExpiresAt k;
                          ak_LastUsedAt := None |} in
            (inr row, {| api_keys := <[newid := row]> (api_keys db);
                         organizations := organizations db |})
      end
  end.

Definition deactivate (k : APIKey) : APIKey :=
  {| ak_ID := ak_ID k; ak_KeyHash := ak_KeyHash k; ak_KeyPrefix := ak_KeyPrefix k;
     ak_OrgID := ak_OrgID k; ak_Name := ak_Name k; ak_Scopes := ak_Scopes k;
     ak_RateLimitRPM := ak_RateLimitRPM k; ak_RateLimitTPM := ak_RateLimitTPM k;
     ak_IsActive := false; ak_CreatedAt := ak_CreatedAt k; ak_ExpiresAt := ak_ExpiresAt k;
     ak_LastUsedAt := ak_LastUsedAt k |}.

Definition touch (now : Z) (k : APIKey) : APIKey :=
  {| ak_ID := ak_ID k; ak_KeyHash := ak_KeyHash k; ak_KeyPrefix := ak_KeyPrefix k;
     ak_OrgID := ak_OrgID k; ak_Name := ak_Name k; ak_Scopes := ak_Scopes k;
     ak_RateLimitRPM := ak_RateLimitRPM k; ak_RateLimitTPM := ak_RateLimitTPM k;
     ak_IsActive := ak_IsActive k; ak_CreatedAt := ak_CreatedAt k;
     ak_ExpiresAt := ak_ExpiresAt k; ak_LastUsedAt := Some (micros now) |}.

(** [UPDATE api_keys SET ... WHERE id = $1]: the error of the statement, if
    any, and the table after it. *)
Definition update_by_id (conn : option dberr) (id : string) (f : APIKey → APIKey) (db : DB)
    : option dberr * DB :=
  match conn with
  | Some e => (Some e, db)
  | None =>
      match parse_uuid id with
      | None => (Some bad_uuid, db)
      | Some u => (None, {| api_keys := alter f u (api_keys db); organizations := organizations db |})
      end
  end.

Definition store_Revoke (conn : option dberr) (id : string) (db : DB) : option dberr * DB :=
  let '(err, db) := update_by_id conn id deactivate db in
  (match err with
   | None => None
   | Some e =>
       match mapPgError (Some e) with
       | Some e' => if is_NotFound e' then None else Some (EWrapped "revoking api_key: " e)
       | None => None
       end
   end, db).

Definition GetByID (conn : option dberr) (id : string) (db : DB) : dberr + APIKey :=
  let res :=
    match conn with
    | Some e => inl e
    | None =>
        match parse_uuid id with
        | None => inl bad_uuid
        | Some u => match api_keys db !! u with Some k => inr k | None => inl ErrNoRows end
        end
    end in
  match res with
  | inr k => inr k
  | inl ErrNoRows => inl ErrNotFound
  | inl e =>
      match mapPgError (Some e) with
      | Some e' => if is_NotFound e' then inl ErrNotFound else inl (EWrapped "scanning api_key: " e)
      | None => inl (EWrapped "scanning api_key: " e)
      end
  end.

Definition TouchLastUsedAt (conn : option dberr) (now : Z) (id : string) (db : DB)
    : option dberr * DB :=
  let '(err, db) := update_by_id conn id (touch now) db in
  (EWrapped "touching api_key: " <$> err, db).

(** organizations.go *)
Definition Org_GetByID (conn : option dberr) (id : string) (db : DB) : dberr + Organization :=
  match conn with
  | Some e => inl (EWrapped "scanning organization: " e)
  | None =>
      match parse_uuid id with
      | None => inl (EWrapped "scanning organization: " bad_uuid)
      | Some u => match organizations db !! u with Some o => inr o | None => inl ErrNotFound end
      end
  end.
End Queries.

(** ** migrate.go *)

Definition dsnForMigrate (dsn : string) : string + string :=
  let scheme := "pgx5://" in
  if HasPrefix dsn scheme then inr dsn
  else if HasPrefix dsn "postgres://" then inr (scheme +:+ TrimPrefix dsn "postgres://")
  else if HasPrefix dsn "postgresql://" then inr (scheme +:+ TrimPrefix dsn "postgresql://")
  else if Contains dsn "=" && negb (Contains dsn "://") then
    inl "libpq key=value DSNs are not supported for migrations; use postgres:// URL form"
  else inl "unrecognised DSN format; expected postgres:// URL".

(** ** Properties *)

(** A time is before a stored one exactly when its microsecond is. *)
Lemma micros_lt now e : (micros now <? micros e) = (now <? micros e).
Proof.
  unfold micros. pose proof (Z.div_mod now 1000 ltac:(done)). pose proof (Z.mod_pos_bound now 1000 ltac:(done)).
  destruct (Z.ltb_spec (now / 1000 * 1000) (e / 1000 * 1000)), (Z.ltb_spec now (e / 1000 * 1000)); lia.
Qed.

(** A name with the character U+0000 is refused, and nothing is stored. *)
Example nul_refused :
  pg_text "ci" = true ∧ pg_text (String Ascii.zero "ci") = false.
Proof. by vm_compute. Qed.

Lemma ascii_pg_text s : str_all (λ a, (0 <? byte_val a) && (byte_val a <? 128)) s = true → pg_text s = true.
Proof.
  induction s as [|a s IH]; [done|]. unfold pg_text in *. rewrite !str_all_cons, !andb_true_iff.
  intros [[H0 H1] Hs]. destruct (proj1 (andb_true_iff _ _) (IH Hs)) as [Hv Hz].
  split; [apply utf8_valid_cons; [lia|done]|]. split; [|done]. lia.
Qed.

(** Rows are stored under their id, and hashes are unique. *)
Record db_wf (db : DB) : Prop := {
  dw_id u k : api_keys db !! u = Some k → ak_ID k = u;
  dw_unique u v k l : api_keys db !! u = Some k → api_keys db !! v = Some l →
    ak_KeyHash k = ak_KeyHash l → u = v;
}.

Lemma in_rows db k : k ∈ (map_to_list (api_keys db)).*2 ↔ ∃ u, api_keys db !! u = Some k.
Proof.
  rewrite list_elem_of_fmap. split.
  - intros ([u k']&->&?%elem_of_map_to_list). by exists u.
  - intros [u Hu]. exists (u, k). split; [done|]. by apply elem_of_map_to_list.
Qed.

Lemma hash_match_true now h k :
  hash_match now h k = true ↔ ak_KeyHash k = h ∧ ak_IsActive k = true ∧ unexpired now k = true.
Proof. unfold hash_match. rewrite !andb_true_iff, bool_decide_eq_true. naive_solver. Qed.

(** [GetByHash] finds a row exactly when an active, unexpired row has the
    hash, and then it is that row. *)
Lemma GetByHash_iff db now h k :
  db_wf db →
  GetByHash None now h db = inr k ↔
  ∃ u, api_keys db !! u = Some k ∧ ak_KeyHash k = h ∧ ak_IsActive k = true ∧ unexpired now k = true.
Proof.
  intros Hwf. unfold GetByHash.
  set (l := filter (λ k, hash_match now h k = true) (map_to_list (api_keys db)).*2).
  assert (∀ k, k ∈ l ↔ ∃ u, api_keys db !! u = Some k ∧ ak_KeyHash k = h ∧
    ak_IsActive k = true ∧ unexpired now k = true) as Hl.
  { intros k'. unfold l. rewrite list_elem_of_filter, in_rows, hash_match_true. naive_solver. }
  rewrite <-Hl. destruct l as [|k0 l'] eqn:El.
  { split; [done|]. by intros ?%elem_of_nil. }
  split.
  - intros [= <-]. by left.
  - intros Hk. f_equal. apply Hl in Hk as (u&Hu&Hh&_).
    destruct (proj1 (Hl k0) ltac:(by left)) as (v&Hv&Hh'&_).
    assert (u = v) by (eapply (dw_unique db Hwf); eauto; congruence). congruence.
Qed.

Lemma GetByHash_None db now h :
  db_wf db → (∀ u k, api_keys db !! u = Some k → ak_KeyHash k = h →
    ak_IsActive k = true → unexpired now k = true → False) →
  GetByHash None now h db = inl ErrNotFound.
Proof.
  intros Hwf Hno. destruct (GetByHash None now h db) as [e|k] eqn:E.
  - unfold GetByHash in E. case_match; naive_solver.
  - apply GetByHash_iff in E as (u&?&?&?&?); [|done]. exfalso. eauto.
Qed.

Section Lifecycle.
Context (parse_uuid : string → option string).

Lemma update_wf conn id f db err db' :
  (∀ k, ak_ID (f k) = ak_ID k) → (∀ k, ak_KeyHash (f k) = ak_KeyHash k) →
  db_wf db → update_by_id parse_uuid conn id f db = (err, db') → db_wf db'.
Proof.
  intros Hid Hh Hwf. unfold update_by_id. destruct conn; [by intros [= <- <-]|].
  destruct (parse_uuid id) as [u|]; [|by intros [= <- <-]]. intros [= <- <-].
  assert (∀ v k, alter f u (api_keys db) !! v = Some k → ∃ k0, api_keys db !! v = Some k0 ∧
    ak_ID k = ak_ID k0 ∧ ak_KeyHash k = ak_KeyHash k0) as Hback.
  { intros v k. rewrite lookup_alter. case_decide; [|naive_solver]. subst.
    destruct (api_keys db !! v) as [k0|] eqn:E; [|done]. intros [= <-]. exists k0. auto. }
  split; simpl.
  - intros v k (k0&Hk0&->&_)%Hback. by apply (dw_id db Hwf).
  - intros v v' k l (k0&Hk0&_&H1)%Hback (l0&Hl0&_&H2)%Hback Heq.
    eapply (dw_unique db Hwf); eauto; congruence.
Qed.

Lemma Create_wf conn now newid k h prefix db :
  db_wf db → api_keys db !! newid = None → db_wf (Create parse_uuid conn now newid k h prefix db).2.
Proof.
  intros Hwf Hnew. unfold Create. destruct conn; [done|].
  destruct (negb _); [done|]. destruct (negb _); [done|]. destruct (parse_uuid _) as [org|]; [|done].
  destruct (existsb _ _) eqn:Ee; [done|]. destruct (negb _); [done|].
  assert (∀ v k0, api_keys db !! v = Some k0 → ak_KeyHash k0 ≠ h) as Hfresh.
  { intros v k0 Hv Hh. assert (existsb (λ r, bool_decide (ak_KeyHash r = h))
      (map_to_list (api_keys db)).*2 = true); [|congruence].
    apply existsb_exists. exists k0. split; [|by apply bool_decide_eq_true].
    apply list_elem_of_In, in_rows. eauto. }
  split; simpl.
  - intros u k0. rewrite lookup_insert. case_decide; [|by apply (dw_id db Hwf)].
    by intros [= <-].
  - intros u v k0 l0. rewrite !lookup_insert. do 2 case_decide; subst; simpl.
    + done.
    + intros [= <-] Hv Heq. by destruct (Hfresh v l0).
    + intros Hu [= <-] Heq. by destruct (Hfresh u k0).
    + apply (dw_unique db Hwf).
Qed.

(** The life of an API key in the store.  A created key is found by its
    hash exactly until it expires, with the limits, owner and prefix given, the
    expiry given (to the microsecond) and the id generated for it; creation of a second key with the same hash
    fails.  After [Revoke] of its id the hash is not found, revoking again (or
    revoking an unknown or malformed id) succeeds and changes nothing else. *)
Theorem key_lifecycle (db : DB) (now : Z) (newid : string) (k : NewKey) (h prefix : string)
    (row : APIKey) (db1 : DB)
    (Hwf : db_wf db) (Hnew : api_keys db !! newid = None)
    (Huuid : parse_uuid newid = Some newid)
    (Hcreate : Create parse_uuid None now newid k h prefix db = (inr row, db1)) :
  (ak_ID row = newid ∧ ak_KeyHash row = h ∧ ak_KeyPrefix row = prefix ∧
   parse_uuid (nk_OrgID k) = Some (ak_OrgID row) ∧ ak_RateLimitRPM row = nk_RateLimitRPM k ∧
   ak_RateLimitTPM row = nk_RateLimitTPM k ∧ ak_ExpiresAt row = micros <$> nk_ExpiresAt k) ∧
  (∀ t, GetByHash None t h db1 = if unexpired t row then inr row else inl ErrNotFound) ∧
  (∀ t id2 k2, ∃ e, (Create parse_uuid None t id2 k2 h prefix db1).1 = inl e) ∧
  let '(err, db2) := store_Revoke parse_uuid None newid db1 in
  err = None ∧ (∀ t, GetByHash None t h db2 = inl ErrNotFound) ∧
  store_Revoke parse_uuid None newid db2 = (None, db2) ∧
  (∀ id, parse_uuid id = None → store_Revoke parse_uuid None id db2 = (None, db2)) ∧
  (∀ u, u ≠ newid → api_keys db2 !! u = api_keys db !! u).
Proof.
  pose proof (Create_wf None now newid k h prefix db Hwf Hnew) as Hwf1. rewrite Hcreate in Hwf1.
  simpl in Hwf1. unfold Create in Hcreate. destruct (negb _); [done|]. destruct (negb _); [done|].
  destruct (parse_uuid (nk_OrgID k)) as [org|]; [|done].
  destruct (existsb _ _); [done|]. destruct (negb _); [done|].
  injection Hcreate as Hrow Hdb.
  assert (api_keys db1 !! newid = Some row) as Hl by (subst; simpl; apply lookup_insert_eq).
  assert (∀ u, u ≠ newid → api_keys db1 !! u = api_keys db !! u) as Hoth
    by (subst; simpl; intros; by apply lookup_insert_ne).
  assert (ak_KeyHash row = h ∧ ak_IsActive row = true) as [Hh Ha] by (by subst).
  split; [by subst|]. clear Hrow Hdb. split; [|split].
  - intros t. destruct (unexpired t row) eqn:Ex.
    + apply GetByHash_iff; [done|]. exists newid. done.
    + apply GetByHash_None; [done|]. intros u k' Hu Hk' _ Hx.
      assert (u = newid) by (eapply (dw_unique db1 Hwf1); eauto; congruence). congruence.
  - intros t id2 k2. unfold Create. destruct (negb _); [by eexists|]. destruct (negb _); [by eexists|].
    destruct (parse_uuid (nk_OrgID k2)); [|by eexists].
    assert (existsb (λ r, bool_decide (ak_KeyHash r = h)) (map_to_list (api_keys db1)).*2 = true) as ->;
      [|eexists; reflexivity].
    apply existsb_exists. exists row. split; [apply list_elem_of_In, in_rows; eauto|].
    by apply bool_decide_eq_true.
  - unfold store_Revoke. destruct (update_by_id parse_uuid None newid deactivate db1) as [err db2] eqn:Eu.
    pose proof (update_wf None newid deactivate db1 err db2 ltac:(done) ltac:(done) Hwf1 Eu) as Hwf2.
    unfold update_by_id in Eu. rewrite Huuid in Eu. injection Eu as <- <-.
    split; [done|]. split; [|split; [|split]].
    + intros t. apply GetByHash_None; [done|]. simpl. intros u k' Hu Hk' Hact _.
      rewrite lookup_alter in Hu. case_decide as Hd.
      * subst u. rewrite Hl in Hu. injection Hu as <-. done.
      * assert (u = newid); [|congruence]. eapply (dw_unique db1 Hwf1); eauto. congruence.
    + unfold update_by_id. rewrite Huuid. simpl. do 2 f_equal. apply map_eq. intros u.
      rewrite !lookup_alter. repeat case_decide; try done. subst. by rewrite Hl.
    + intros id Hid. unfold update_by_id. by rewrite Hid.
    + intros u Hu. simpl. rewrite lookup_alter_ne by done. by apply Hoth.
Qed.
End Lifecycle.

(** ** Witnesses *)

Definition demo_uuid (s : string) : option string := if (String.length s =? 4)%nat then Some s else None.
Definition demo_org : Organization := mkOrganization "org1" "acme" None None f64_zero "block" 0 0.
Definition demo_db : DB := mkDB ∅ (<["org1" := demo_org]> ∅).
Definition demo_newkey : NewKey := mkNewKey "org1" "ci" 60 1000 (Some 100999).

Lemma key_lifecycle_witness :
  ∃ row db1, Create demo_uuid None 5 "key1" demo_newkey "hash" "sk-gw-abcdefgh" demo_db = (inr row, db1) ∧
    GetByHash None 99999 "hash" db1 = inr row ∧ GetByHash None 100000 "hash" db1 = inl ErrNotFound.
Proof.
  eexists _, _. split; [reflexivity|].
  edestruct (key_lifecycle demo_uuid demo_db 5 "key1" demo_newkey "hash" "sk-gw-abcdefgh")
    as (_&Hget&_).
  - split; simpl; intros; rewrite lookup_empty in *; discriminate.
  - reflexivity.
  - reflexivity.
  - reflexivity.
  - split; rewrite Hget; reflexivity.
Defined.

(** [dsnForMigrate] rewrites every accepted DSN to the pgx5 scheme, keeps
    what follows the scheme, and is idempotent on its own results; it rejects
    everything that is not a postgres, postgresql or pgx5 URL. *)
Theorem dsn_for_migrate_ok (dsn : string) :
  match dsnForMigrate dsn with
  | inr out => ∃ rest, out = "pgx5://" +:+ rest ∧
      (dsn = "pgx5://" +:+ rest ∨ dsn = "postgres://" +:+ rest ∨ dsn = "postgresql://" +:+ rest) ∧
      dsnForMigrate out = inr out
  | inl _ => ∀ rest, dsn ≠ "pgx5://" +:+ rest ∧ dsn ≠ "postgres://" +:+ rest ∧
      dsn ≠ "postgresql://" +:+ rest
  end.
Proof.
  assert (∀ rest, dsnForMigrate ("pgx5://" +:+ rest) = inr ("pgx5://" +:+ rest)) as Hid.
  { intros rest. unfold dsnForMigrate. by rewrite (proj2 (HasPrefix_true _ _)) by (by eexists). }
  assert (∀ p t, TrimPrefix (p +:+ t) p = t) as Htrim.
  { intros p t. unfold TrimPrefix. destruct (CutPrefix p (p +:+ t)) eqn:E.
    - apply CutPrefix_Some in E. by apply (inj (String.app p)) in E.
    - assert (CutPrefix p (p +:+ t) = Some t) by (by apply CutPrefix_Some). congruence. }
  unfold dsnForMigrate at 1.
  destruct (HasPrefix dsn "pgx5://") eqn:E1.
  { apply HasPrefix_true in E1 as [rest ->]. exists rest. auto. }
  destruct (HasPrefix dsn "postgres://") eqn:E2.
  { apply HasPrefix_true in E2 as [rest ->]. exists rest. rewrite Htrim. auto. }
  destruct (HasPrefix dsn "postgresql://") eqn:E3.
  { apply HasPrefix_true in E3 as [rest ->]. exists rest. rewrite Htrim. auto. }
  assert (∀ p rest, HasPrefix dsn p = false → dsn ≠ p +:+ rest) as Hnp.
  { intros p rest Hp ->. assert (HasPrefix (p +:+ rest) p = true); [|congruence].
    apply HasPrefix_true. by eexists. }
  destruct (_ && _); intros rest; auto.
Qed.
