(* ===== verification/Connect.v ===== *)
(** * Connections to Postgres and Redis

    Models src/internal/store/postgres.go ([NewPool]), redis.go ([NewRedis])
    and [RunMigrations] of migrate.go.  The pgx, go-redis and golang-migrate
    libraries are reached through [ConnLib]: what each of their calls returns.
    The effect of a function is the list of handles it opens and closes
    ([IO]), so that leaks can be stated. *)

From S2P Require Import Prelude GoStrings Store.
Local Open Scope Z_scope.

Inductive Handle := HPool | HRedis | HMigrate.
#[export] Instance Handle_eq_dec : EqDecision Handle.
Proof. solve_decision. Defined.

Inductive IO :=
| IOpen (h : Handle)
| IClose (h : Handle)
| IWarn (msg : string).

(** The outcomes of the library calls; [None] is a nil error. *)
Class ConnLib := {
  pgx_ParseConfig : string → string + Z;      (* the parsed [MaxConns] *)
  pgx_NewWithConfig : string → Z → option string;
  pgx_Ping : string → option string;
  redis_ParseURL : string → option string;
  redis_Ping : string → option string;
  iofs_New : option string;
  migrate_New : string → option string;
  migrate_Up : string → option (option string); (* [Some None]: ErrNoChange *)
  migrate_Close : option string;
}.

(** Conversion to [int32]. *)
Definition wrap32 (z : Z) : Z := (z + 2 ^ 31) `mod` 2 ^ 32 - 2 ^ 31.

Section Connect.
Context `{ConnLib}.

(** On success, the pool's [MaxConns]. *)
Definition NewPool (dsn : string) (maxConns : Z) : (string + Z) * list IO :=
  match pgx_ParseConfig dsn with
  | inl e => (inl ("parsing dsn: " +:+ e), [])
  | inr dflt =>
      let MaxConns := if 0 <? maxConns then wrap32 maxConns else dflt in
      match pgx_NewWithConfig dsn MaxConns with
      | Some e => (inl ("creating pool: " +:+ e), [])
      | None =>
          match pgx_Ping dsn with
          | Some e => (inl ("pinging database: " +:+ e), [IOpen HPool; IClose HPool])
          | None => (inr MaxConns, [IOpen HPool])
          end
      end
  end.

Definition NewRedis (dsn : string) : option string * list IO :=
  if bool_decide (dsn = "") then (Some "redis dsn is empty", [])
  else match redis_ParseURL dsn with
  | Some e => (Some ("parsing redis dsn: " +:+ e), [])
  | None =>
      match redis_Ping dsn with
      | Some e => (Some ("pinging redis: " +:+ e), [IOpen HRedis; IClose HRedis])
      | None => (None, [IOpen HRedis])
      end
  end.

(** The deferred release of the migrate handles. *)
Definition release_migrate : list IO :=
  IClose HMigrate ::
  match migrate_Close with
  | Some _ => [IWarn "releasing migrate handles"]
  | None => []
  end.

Definition RunMigrations (dsn : string) : option string * list IO :=
  match iofs_New with
  | Some e => (Some ("opening embedded migrations: " +:+ e), [])
  | None =>
      match dsnForMigrate dsn with
      | inl e => (Some ("normalising dsn: " +:+ e), [])
      | inr migrateDSN =>
          match migrate_New migrateDSN with
          | Some e => (Some ("creating migrate instance: " +:+ e), [])
          | None =>
              (match migrate_Up migrateDSN with
               | Some (Some e) => Some ("applying migrations: " +:+ e)
               | _ => None
               end, IOpen HMigrate :: release_migrate)
          end
      end
  end.
End Connect.

(** ** Open handles *)

(** The handles that are open after a log, newest first. *)
Definition io_step (hs : list Handle) (e : IO) : list Handle :=
  match e with
  | IOpen h => h :: hs
  | IClose h => filter (λ x, x ≠ h) hs
  | IWarn _ => hs
  end.

Definition open_after (hs : list Handle) (log : list IO) : list Handle := foldl io_step hs log.

Lemma open_after_app hs l1 l2 : open_after hs (l1 ++ l2) = open_after (open_after hs l1) l2.
Proof. apply foldl_app. Qed.

Lemma close_fresh (h : Handle) (hs : list Handle) : h ∉ hs → filter (λ x, x ≠ h) (h :: hs) = hs.
Proof.
  intros Hn. rewrite filter_cons_False by (intros []; done).
  induction hs as [|x hs IH]; [done|]. rewrite filter_cons_True by set_solver.
  f_equal. apply IH. set_solver.
Qed.

Lemma wrap32_id z : - 2 ^ 31 ≤ z < 2 ^ 31 → wrap32 z = z.
Proof. intros Hz. unfold wrap32. rewrite Z.mod_small; lia. Qed.

Section ConnectFacts.
Context `{ConnLib}.

Lemma NewPool_handles dsn n hs :
  HPool ∉ hs →
  open_after hs (NewPool dsn n).2 =
    match (NewPool dsn n).1 with inl _ => hs | inr _ => HPool :: hs end.
Proof.
  intros Hn. unfold NewPool. destruct (pgx_ParseConfig dsn); [done|].
  destruct (pgx_NewWithConfig _ _); [done|]. destruct (pgx_Ping dsn); [|done].
  by apply close_fresh.
Qed.

Lemma NewRedis_handles dsn hs :
  HRedis ∉ hs →
  open_after hs (NewRedis dsn).2 =
    match (NewRedis dsn).1 with Some _ => hs | None => HRedis :: hs end.
Proof.
  intros Hn. unfold NewRedis. case_bool_decide; [done|]. destruct (redis_ParseURL dsn); [done|].
  destruct (redis_Ping dsn); [|done]. by apply close_fresh.
Qed.

Lemma RunMigrations_handles dsn hs :
  HMigrate ∉ hs → open_after hs (RunMigrations dsn).2 = hs.
Proof.
  intros Hn. unfold RunMigrations. destruct iofs_New; [done|]. destruct (dsnForMigrate dsn); [done|].
  destruct (migrate_New _); [done|]. unfold release_migrate. cbn [snd].
  assert (open_after hs [IOpen HMigrate; IClose HMigrate] = hs) as Hc by (by apply close_fresh).
  destruct migrate_Close; simpl in *; exact Hc.
Qed.
End ConnectFacts.
