(* ===== verification/Auth.v ===== *)
(** * API-key authentication

    Models src/internal/auth: [Cached] (cached.go), [AllowAll] and the
    [KeyInfo] context helpers.  The expiring LRU is a library; [LRUOps] is the
    part of its interface the cache uses and [LRULaws] its documented
    behaviour: an entry is returned only until its time to live has passed, it
    may be evicted at any time, and nothing appears that was not added.

    [MapLRU] is an executable instance without eviction. *)

From S2P Require Import Prelude GoStrings Sha256 RateLimit Store.
Local Open Scope Z_scope.

(** ** The cache library *)

Class LRUOps (L : Type → Type) := {
  lru_new : ∀ V, Z → Z → L V;
  lru_Get : ∀ {V}, Z → string → L V → option V * L V;
  lru_Add : ∀ {V}, Z → string → V → L V → L V;
  lru_Remove : ∀ {V}, string → L V → L V;
  (** contents: value and time of insertion *)
  lru_entries : ∀ {V}, L V → gmap string (V * Z);
  lru_ttl : ∀ {V}, L V → Z;
}.

Class LRULaws (L : Type → Type) `{LRUOps L} := {
  lru_new_entries V size ttl : lru_entries (lru_new V size ttl) = ∅;
  lru_new_ttl V size ttl : lru_ttl (lru_new V size ttl) = ttl;
  lru_Get_sound V now k (c c' : L V) v :
    lru_Get now k c = (Some v, c') →
    ∃ t, lru_entries c !! k = Some (v, t) ∧ (0 < lru_ttl c → now ≤ t + lru_ttl c);
  lru_Get_sub V now k (c : L V) : lru_entries (lru_Get now k c).2 ⊆ lru_entries c;
  lru_Get_ttl V now k (c : L V) : lru_ttl (lru_Get now k c).2 = lru_ttl c;
  lru_Add_sub V now k v (c : L V) : lru_entries (lru_Add now k v c) ⊆ <[k := (v, now)]> (lru_entries c);
  lru_Add_ttl V now k v (c : L V) : lru_ttl (lru_Add now k v c) = lru_ttl c;
  lru_Remove_sub V k (c : L V) : lru_entries (lru_Remove k c) ⊆ delete k (lru_entries c);
  lru_Remove_ttl V k (c : L V) : lru_ttl (lru_Remove k c) = lru_ttl c;
}.

Module MapLRU.
Record lru (V : Type) := mklru { ents : gmap string (V * Z); ttl_ : Z }.
Arguments mklru {V}.
Arguments ents {V}.
Arguments ttl_ {V}.

#[global] Instance lru_ops : LRUOps lru := {|
  lru_new V _ ttl := mklru ∅ ttl;
  lru_Get V now k c :=
    (match ents c !! k with
     | Some (v, t) => if (ttl_ c <=? 0) || (now <=? t + ttl_ c) then Some v else None
     | None => None
     end, c);
  lru_Add V now k v c := mklru (<[k := (v, now)]> (ents c)) (ttl_ c);
  lru_Remove V k c := mklru (delete k (ents c)) (ttl_ c);
  lru_entries V c := ents c;
  lru_ttl V c := ttl_ c;
|}.

#[global] Instance lru_laws : LRULaws lru.
Proof.
  split; simpl; try done.
  intros V now k c c' v. destruct (ents c !! k) as [[v' t]|]; [|done].
  destruct (Z.leb_spec (ttl_ c) 0), (Z.leb_spec now (t + ttl_ c)); simpl; intros [= <- <-];
    exists t; split; try done; lia.
Qed.
End MapLRU.

(** ** auth.go *)

Inductive autherr :=
| ErrInvalidKey
| EBackend (e : dberr).

(** The request context as far as authentication uses it. *)
Definition WithKeyInfo (info : KeyInfo) (ctx : option KeyInfo) : option KeyInfo := Some info.
Definition KeyInfoFromContext (ctx : option KeyInfo) : option KeyInfo := ctx.

(** ** allow_all.go *)

Definition AllowAll_Authenticate (plaintext : string) : autherr + KeyInfo :=
  inr (mkKeyInfo "dev" "dev" "dev" 0 0 [] None).

(** ** cached.go *)

Definition negativeCacheTTL : Z := 30 * Second.
Definition touchDebounce : Z := 60 * Second.

Section Cached.
Context {L : Type → Type} `{LRUOps L}.

Record Cached := mkCached {
  pos : L KeyInfo;
  neg : L unit;
  touched : L Z;
}.

Definition NewCached (ttl size : Z) : Cached :=
  {| pos := lru_new KeyInfo size ttl;
     neg := lru_new unit size negativeCacheTTL;
     touched := lru_new Z size touchDebounce |}.

Definition info_of (row : APIKey) : KeyInfo :=
  mkKeyInfo (ak_ID row) (ak_OrgID row) (ak_Name row) (ak_RateLimitRPM row) (ak_RateLimitTPM row)
    (ak_Scopes row) (ak_ExpiresAt row).

(** The second component lists the keys for which a background
    [TouchLastUsedAt] is started. *)
Definition maybeTouch (now : Z) (keyID : string) (c : Cached) : Cached * list string :=
  match lru_Get now keyID (touched c) with
  | (Some _, t) => ({| pos := pos c; neg := neg c; touched := t |}, [])
  | (None, t) => ({| pos := pos c; neg := neg c; touched := lru_Add now keyID now t |}, [keyID])
  end.

(** The cache part of [Authenticate]: an answer, or a miss. *)
Definition cache_probe (now : Z) (hash : string) (c : Cached)
    : option (autherr + KeyInfo) * Cached * list string :=
  match lru_Get now hash (pos c) with
  | (Some info, p) =>
      let c := {| pos := p; neg := neg c; touched := touched c |} in
      if match ExpiresAt info with Some e => negb (now <? e) | None => false end then
        (Some (inl ErrInvalidKey),
         {| pos := lru_Remove hash (pos c); neg := lru_Add now hash () (neg c); touched := touched c |}, [])
      else
        let '(c, ts) := maybeTouch now (KeyID info) c in (Some (inr info), c, ts)
  | (None, p) =>
      let c := {| pos := p; neg := neg c; touched := touched c |} in
      match lru_Get now hash (neg c) with
      | (Some _, n) => (Some (inl ErrInvalidKey), {| pos := pos c; neg := n; touched := touched c |}, [])
      | (None, n) => (None, {| pos := pos c; neg := n; touched := touched c |}, [])
      end
  end.

(** The rest of [Authenticate], given the store's answer. *)
Definition cache_fill (now : Z) (hash : string) (answer : dberr + APIKey) (c : Cached)
    : (autherr + KeyInfo) * Cached * list string :=
  match answer with
  | inl e =>
      if is_NotFound e
      then (inl ErrInvalidKey,
            {| pos := pos c; neg := lru_Add now hash () (neg c); touched := touched c |}, [])
      else (inl (EBackend e), c, [])
  | inr row =>
      let info := info_of row in
      let c := {| pos := lru_Add now hash info (pos c); neg := neg c; touched := touched c |} in
      let '(c, ts) := maybeTouch now (KeyID info) c in
      (inr info, c, ts)
  end.

(** [lookup] is [c.store.GetByHash]. *)
Definition Authenticate (lookup : string → dberr + APIKey) (now : Z) (plaintext : string) (c : Cached)
    : (autherr + KeyInfo) * Cached * list string :=
  let hash := HashKey plaintext in
  match cache_probe now hash c with
  | (Some ans, c, ts) => (ans, c, ts)
  | (None, c, _) => cache_fill now hash (lookup hash) c
  end.

Definition Invalidate (hashHex : string) (c : Cached) : Cached :=
  {| pos := lru_Remove hashHex (pos c); neg := lru_Remove hashHex (neg c); touched := touched c |}.
End Cached.
Arguments Cached L : clear implicits.
