(* ===== verification/AdminKeys.v ===== *)
(** * Key administration

    Models src/internal/handler/admin_keys.go: [generatePlaintextKey] and the
    [Create] and [Revoke] handlers, on the store of [Store] and the
    authentication cache of [Auth].  The random source is the list of results
    of [rand.Read]: a byte, or an error. *)

From S2P Require Import Prelude GoStrings JsonString Sha256 Model RateLimit Store Auth Http.
From Stdlib Require Import Ascii.
Local Open Scope Z_scope.

Definition defaultRateLimitRPM : Z := 60.
Definition defaultRateLimitTPM : Z := 100000.

Record CreateKeyRequest := mkCreateKeyRequest {
  cq_OrgID : string;
  cq_Name : string;
  cq_RateLimitRPM : option Z;
  cq_RateLimitTPM : option Z;
  cq_ExpiresAt : option Z;
}.

(** ** Key generation *)

Definition keyAlphabet : string :=
  "abcdefghijklmnopqrstuvwxyzABCDEFGHIJKLMNOPQRSTUVWXYZ0123456789".
Definition keyBodyLen : nat := 32.
Definition keyPrefixLen : nat := 14.
Definition keyAcceptCeiling : Z :=
  (256 / Z.of_nat (String.length keyAlphabet)) * Z.of_nat (String.length keyAlphabet).

Definition key_char (b : Z) : ascii :=
  default zero (String.get (Z.to_nat (b `mod` Z.of_nat (String.length keyAlphabet))) keyAlphabet).

(** The loop with [n] characters still to draw; [None]: the source has no more
    results. *)
Fixpoint generate_body (n : nat) (src : list (string + Z)) : option (string + string) :=
  match n with
  | O => Some (inr "")
  | S n' =>
      (fix draw src :=
        match src with
        | [] => None
        | inl e :: _ => Some (inl e)
        | inr b :: src =>
            if b <? keyAcceptCeiling then
              match generate_body n' src with
              | Some (inr s) => Some (inr (String (key_char b) s))
              | r => r
              end
            else draw src
        end) src
  end.

Definition generatePlaintextKey (src : list (string + Z)) : option (string + string) :=
  match generate_body keyBodyLen src with
  | Some (inr s) => Some (inr ("sk-gw-" +:+ s))
  | r => r
  end.

(** ** Handlers *)

Section Handlers.
Context (encode : Payload → string) (parse_uuid : string → option string).

(** [decoded] is the decoded request body, [None] when decoding failed (bad
    JSON or over the size limit); [newid] is what [gen_random_uuid()] returns.
    The result is [None] while the random source has no more data. *)
Definition admin_Create (decoded : option CreateKeyRequest) (src : list (string + Z))
    (conn : option dberr) (now : Z) (newid : string) (db : DB) : option (list WOp * DB) :=
  match decoded with
  | None =>
      Some (apierr_Write encode 400 "invalid_request_error" "invalid_request" "invalid request body", db)
  | Some req =>
      if bool_decide (cq_OrgID req = "") || bool_decide (cq_Name req = "") then
        Some (apierr_Write encode 400 "invalid_request_error" "invalid_request"
                "org_id and name are required", db)
      else
        let rpm := default defaultRateLimitRPM (cq_RateLimitRPM req) in
        let tpm := default defaultRateLimitTPM (cq_RateLimitTPM req) in
        match generatePlaintextKey src with
        | None => None
        | Some (inl _) =>
            Some (apierr_Write encode 500 "internal_error" "internal_error" "failed to generate key", db)
        | Some (inr plaintext) =>
            let hashHex := HashKey plaintext in
            let prefix := str_take keyPrefixLen plaintext in
            match Create parse_uuid conn now newid
                    {| nk_OrgID := cq_OrgID req; nk_Name := cq_Name req; nk_RateLimitRPM := rpm;
                       nk_RateLimitTPM := tpm; nk_ExpiresAt := cq_ExpiresAt req |}
                    hashHex prefix db with
            | (inl _, db) =>
                Some (apierr_Write encode 500 "internal_error" "internal_error" "failed to create key", db)
            | (inr row, db) =>
                Some ([OSet "Content-Type" "application/json"; OStatus 201;
                       OWrite (encode (PKey
                         {| kr_ID := ak_ID row; kr_Key := plaintext; kr_KeyPrefix := ak_KeyPrefix row;
                            kr_Name := ak_Name row; kr_RateLimitRPM := ak_RateLimitRPM row;
                            kr_RateLimitTPM := ak_RateLimitTPM row; kr_ExpiresAt := ak_ExpiresAt row;
                            kr_CreatedAt := ak_CreatedAt row |}))], db)
            end
        end
  end.

Context {L : Type → Type} `{LRUOps L}.

(** [invalidate] is the optional cache hook; [conn_get] and [conn_rev] are the
    infrastructure errors of the two store calls, [id] the URL parameter. *)
Definition admin_Revoke (invalidate : option (string → Cached L → Cached L)) (id : string)
    (conn_get conn_rev : option dberr) (db : DB) (c : Cached L)
    : list WOp * DB * Cached L :=
  if bool_decide (id = "") then
    (apierr_Write encode 400 "invalid_request_error" "invalid_request" "id is required", db, c)
  else
    let revoke hashHex :=
      match store_Revoke parse_uuid conn_rev id db with
      | (Some _, db) =>
          (apierr_Write encode 500 "internal_error" "internal_error" "failed to revoke key", db, c)
      | (None, db) =>
          ([OStatus 204], db,
           match invalidate with
           | Some f => if bool_decide (hashHex = "") then c else f hashHex c
           | None => c
           end)
      end in
    match GetByID parse_uuid conn_get id db with
    | inr row => revoke (ak_KeyHash row)
    | inl e =>
        if is_NotFound e then revoke ""
        else (apierr_Write encode 500 "internal_error" "internal_error" "failed to look up key", db, c)
    end.
End Handlers.

(** ** Generated keys *)

Definition in_alphabet (a : ascii) : bool := existsb (Ascii.eqb a) (String.list_ascii_of_string keyAlphabet).

(** The bytes the sampler keeps. *)
Definition accepted (r : string + Z) : bool :=
  match r with inr b => b <? keyAcceptCeiling | inl _ => false end.

Lemma key_char_alphabet b : in_alphabet (key_char b) = true.
Proof.
  unfold key_char. change (Z.of_nat (String.length keyAlphabet)) with 62.
  pose proof (Z.mod_pos_bound b 62 ltac:(lia)) as Hb.
  assert (∀ n, (n < 62)%nat → in_alphabet (default zero (String.get n keyAlphabet)) = true) as Hall.
  { intros n Hn. do 62 (destruct n as [|n]; [reflexivity|]). lia. }
  apply Hall. lia.
Qed.

Lemma generate_body_shape n src s :
  generate_body n src = Some (inr s) → String.length s = n ∧ str_all in_alphabet s = true.
Proof.
  revert src s. induction n as [|n IH]; intros src s; [by intros [= <-]|].
  simpl. induction src as [|[e|b] src IHs]; [done|done|].
  destruct (b <? keyAcceptCeiling); [|exact IHs].
  destruct (generate_body n src) as [[e|t]|] eqn:E; try done. intros [= <-].
  destruct (IH _ _ E) as [Hl Ha].
  split; [simpl; by rewrite Hl|]. by rewrite str_all_cons, key_char_alphabet, Ha.
Qed.

(** ** What is stored with a key is text *)

Lemma in_alphabet_ascii a : in_alphabet a = true → 0 < byte_val a < 128.
Proof. destruct a as [[] [] [] [] [] [] [] []]; vm_compute; done. Qed.

Lemma str_all_take P n s : str_all P s = true → str_all P (str_take n s) = true.
Proof.
  revert n. induction s as [|a s IH]; intros [|n]; try done. rewrite str_all_cons, andb_true_iff. intros [Ha Hs].
  simpl. by rewrite Ha, IH.
Qed.

Lemma generated_key_text src key n :
  generatePlaintextKey src = Some (inr key) → pg_text (str_take n key) = true.
Proof.
  unfold generatePlaintextKey. destruct (generate_body keyBodyLen src) as [[e|s]|] eqn:E; try done.
  intros [= <-]. apply generate_body_shape in E as [_ Hs].
  apply ascii_pg_text, str_all_take. rewrite str_all_app, andb_true_iff. split; [reflexivity|].
  eapply str_all_impl; [|exact Hs]. intros a Ha%in_alphabet_ascii. lia.
Qed.

Lemma hex_char_ascii n : 0 ≤ n < 16 → 0 < byte_val (hex_char n) < 128.
Proof.
  intros Hn. unfold hex_char. assert (∀ k, (k < 16)%nat → 0 < byte_val (hex_digit k) < 128) as Hall; [|apply Hall; lia].
  intros k Hk. do 16 (destruct k as [|k]; [vm_compute; done|]). lia.
Qed.

Lemma EncodeToString_text l : Forall (λ b, 0 ≤ b < 256) l → pg_text (EncodeToString l) = true.
Proof.
  intros Hl. apply ascii_pg_text. induction Hl as [|b l Hb _ IH]; [done|]. cbn [EncodeToString].
  pose proof (hex_char_ascii (b mod 16) (Z.mod_pos_bound b 16 ltac:(done))).
  assert (0 ≤ b / 16 < 16) as Hd by (split; [apply Z.div_pos; lia|apply Z.div_lt_upper_bound; lia]).
  pose proof (hex_char_ascii _ Hd). rewrite !str_all_cons, IH. lia.
Qed.

Lemma HashKey_text s : pg_text (HashKey s) = true.
Proof.
  apply EncodeToString_text. unfold Sum256. apply Forall_bind, Forall_true. intros z.
  unfold be_bytes. apply Forall_fmap, Forall_true. intros k. by apply Z.mod_pos_bound.
Qed.

(** With enough acceptable bytes and no read error the loop ends. *)
Lemma generate_body_total n src :
  Forall (λ r, ∃ b, r = inr b) src → (n ≤ length (filter (λ r, accepted r = true) src))%nat →
  ∃ s, generate_body n src = Some (inr s).
Proof.
  revert src. induction n as [|n IH]; intros src Hok Hlen; [by eexists|].
  simpl. induction Hok as [|r src [b ->] Hok IHs]; [simpl in Hlen; lia|].
  rewrite filter_cons in Hlen. simpl in Hlen. destruct (b <? keyAcceptCeiling) eqn:Eb.
  - rewrite decide_True in Hlen by done. simpl in Hlen.
    destruct (IH src Hok ltac:(lia)) as [s ->]. by eexists.
  - rewrite decide_False in Hlen by done. by apply IHs.
Qed.

(** A generated key is [sk-gw-] followed by 32 characters of the
    62-letter alphabet; sampling terminates as soon as the random source has
    delivered 32 acceptable bytes; and it is unbiased: every alphabet
    character is produced by exactly four of the 248 acceptable byte values. *)
Theorem generated_key_shape (src : list (string + Z)) :
  (∀ key, generatePlaintextKey src = Some (inr key) →
     ∃ body, key = "sk-gw-" +:+ body ∧ String.length body = 32%nat ∧
       str_all in_alphabet body = true) ∧
  (Forall (λ r, ∃ b, r = inr b) src → (32 ≤ length (filter (λ r, accepted r = true) src))%nat →
     ∃ key, generatePlaintextKey src = Some (inr key)) ∧
  (∀ c, in_alphabet c = true →
     length (filter (λ b, key_char (Z.of_nat b) = c) (seq 0 248)) = 4%nat).
Proof.
  unfold generatePlaintextKey. split; [|split].
  - intros key. destruct (generate_body keyBodyLen src) as [[e|s]|] eqn:E; try done.
    intros [= <-]. exists s. apply generate_body_shape in E as [??]. done.
  - intros Hok Hlen. destruct (generate_body_total 32 src Hok Hlen) as [s Hs].
    exists ("sk-gw-" +:+ s). unfold keyBodyLen. by rewrite Hs.
  - intros c Hc. apply existsb_exists in Hc as (a&Hin&->%Ascii.eqb_eq).
    revert a Hin. apply List.Forall_forall.
    apply (bool_decide_unpack _). vm_compute. exact I.
Qed.
