(* ===== verification/AuthProps.v ===== *)
(** * Authentication over time

    A gateway instance with its key cache, and the store it shares with other
    instances: keys are created, used, revoked through this instance's admin
    handler and revoked elsewhere.  [reach] is the step relation; the theorems
    bound what the cache of cached.go can make a request see of an outdated
    row. *)

From S2P Require Import Prelude GoStrings Sha256 Model RateLimit Store Auth Http AdminKeys.
Local Open Scope Z_scope.

(** ** The cache operations *)

Section CacheOps.
Context {L : Type → Type} `{LRULaws L}.

Lemma maybeTouch_pos now id (c c' : Cached L) ts :
  maybeTouch now id c = (c', ts) → pos c' = pos c ∧ neg c' = neg c.
Proof. unfold maybeTouch. destruct (lru_Get _ _ _) as [[]]; by intros [= <- <-]. Qed.

(** The positive cache after a probe, and where a positive answer comes from. *)
Lemma cache_probe_spec now hash (c : Cached L) ans c' ts :
  cache_probe now hash c = (ans, c', ts) →
  lru_ttl (pos c') = lru_ttl (pos c) ∧ lru_ttl (neg c') = lru_ttl (neg c) ∧
  lru_entries (pos c') ⊆ lru_entries (pos c) ∧
  (∀ info, ans = Some (inr info) →
     ∃ t, lru_entries (pos c) !! hash = Some (info, t) ∧
       (0 < lru_ttl (pos c) → now ≤ t + lru_ttl (pos c)) ∧
       ∀ e, ExpiresAt info = Some e → now < e) ∧
  (∀ e, ans = Some (inl e) →
     (∃ info x, (∃ t, lru_entries (pos c) !! hash = Some (info, t)) ∧ ExpiresAt info = Some x ∧ x ≤ now) ∨
     ∃ t, lru_entries (neg c) !! hash = Some ((), t) ∧
       (0 < lru_ttl (neg c) → now ≤ t + lru_ttl (neg c))).
Proof.
  unfold cache_probe. pose proof (lru_Get_sub _ now hash (pos c)) as Hsub.
  pose proof (lru_Get_ttl _ now hash (pos c)) as Httl.
  destruct (lru_Get now hash (pos c)) as [[info|] p] eqn:Eg; simpl in *.
  - destruct (lru_Get_sound _ _ _ _ _ _ Eg) as (t&Ht&Hfresh).
    destruct (ExpiresAt info) as [x|] eqn:Ex; [destruct (Z.ltb_spec now x); simpl|].
    2:{ intros [= <- <- <-]. simpl. rewrite lru_Remove_ttl, lru_Add_ttl. split_and!; try done.
        - etrans; [apply lru_Remove_sub|]. etrans; [apply delete_subseteq|done].
        - intros e [= <-]. left. exists info, x. split_and!; eauto. }
    all: destruct (maybeTouch _ _ _) as [c2 ts2] eqn:Et; intros [= <- <- <-];
      apply maybeTouch_pos in Et as [-> ->]; simpl; split_and!; try done;
      intros ? [= <-]; exists t; split_and!; naive_solver.
  - pose proof (lru_Get_ttl _ now hash (neg c)) as Httl2.
    destruct (lru_Get now hash (neg c)) as [[[]|] n] eqn:En; intros [= <- <- <-]; simpl in *;
      split_and!; try done.
    destruct (lru_Get_sound _ _ _ _ _ _ En) as (t&Ht&Hfresh). right. eauto.
Qed.

Lemma cache_fill_spec now hash ans (c : Cached L) r c' ts :
  cache_fill now hash ans c = (r, c', ts) →
  lru_ttl (pos c') = lru_ttl (pos c) ∧ lru_ttl (neg c') = lru_ttl (neg c) ∧
  ((∃ row, ans = inr row ∧ r = inr (info_of row) ∧
      lru_entries (pos c') ⊆ <[hash := (info_of row, now)]> (lru_entries (pos c))) ∨
   (∃ e, ans = inl e ∧ pos c' = pos c ∧
      r = inl (if is_NotFound e then ErrInvalidKey else EBackend e))).
Proof.
  unfold cache_fill. destruct ans as [e|row].
  - destruct (is_NotFound e) eqn:En; intros [= <- <- <-]; simpl; rewrite ?lru_Add_ttl;
      split_and!; try done; right; exists e; by rewrite En.
  - destruct (maybeTouch _ _ _) as [c2 ts2] eqn:Et. intros [= <- <- <-].
    apply maybeTouch_pos in Et as [-> ->]. simpl. rewrite lru_Add_ttl. split_and!; try done.
    left. exists row. split_and!; try done. apply lru_Add_sub.
Qed.

Lemma GetByHash_row conn now h db row :
  GetByHash conn now h db = inr row → ∃ u, api_keys db !! u = Some row ∧
    ak_KeyHash row = h ∧ ak_IsActive row = true ∧ unexpired now row = true.
Proof.
  unfold GetByHash. destruct conn; [done|].
  destruct (filter _ _) as [|k l] eqn:El; [done|]. intros [= <-].
  assert (k ∈ k :: l) as Hk by left. rewrite <-El in Hk.
  apply list_elem_of_filter in Hk as [Hm [u Hu]%in_rows].
  apply hash_match_true in Hm. exists u. tauto.
Qed.
End CacheOps.

Section System.
Context {L : Type → Type} `{LRULaws L}.
Context (encode : Payload → string) (parse_uuid : string → option string).

(** [st_elsewhere] records, for every row first revoked by another instance,
    when that happened; [st_clock] is the time of the last step. *)
Record sys := mksys {
  st_db : DB;
  st_cache : Cached L;
  st_elsewhere : gmap string Z;
  st_clock : Z;
}.

Definition first_revocation (now : Z) (id : string) (s : sys) : gmap string Z :=
  match parse_uuid id with
  | Some u =>
      match api_keys (st_db s) !! u with
      | Some row =>
          if ak_IsActive row then <[u := now]> (st_elsewhere s) else st_elsewhere s
      | None => st_elsewhere s
      end
  | None => st_elsewhere s
  end.

(** A failure of the connection is not one of the answers the store maps to
    [ErrNotFound]. *)
Definition infra (conn : option dberr) : Prop :=
  ∀ e, conn = Some e → is_NotFound e = false ∧ e ≠ ErrNoRows ∧ pg_code e ≠ Some "22P02".

(** One step at time [now]. *)
Inductive event : sys → Z → sys → Prop :=
| ev_auth s now conn key r c' ts :
    Authenticate (λ h, GetByHash conn now h (st_db s)) now key (st_cache s) = (r, c', ts) →
    event s now (mksys (st_db s) c' (st_elsewhere s) now)
| ev_create s now conn req src newid ops db' :
    api_keys (st_db s) !! newid = None →
    admin_Create encode parse_uuid req src conn now newid (st_db s) = Some (ops, db') →
    event s now (mksys db' (st_cache s) (st_elsewhere s) now)
| ev_revoke s now id cg cr ops db' c' :
    infra cg →
    admin_Revoke encode parse_uuid (Some Invalidate) id cg cr (st_db s) (st_cache s) = (ops, db', c') →
    event s now (mksys db' c' (st_elsewhere s) now)
| ev_revoke_elsewhere s now id err db' :
    store_Revoke parse_uuid None id (st_db s) = (err, db') →
    event s now (mksys db' (st_cache s) (first_revocation now id s) now)
| ev_touch s now conn id err db' :
    TouchLastUsedAt parse_uuid conn now id (st_db s) = (err, db') →
    event s now (mksys db' (st_cache s) (st_elsewhere s) now).

(** Steps from a fresh instance on an existing store, in time order. *)
Inductive reach (db0 : DB) (ttl size : Z) : sys → Prop :=
| reach_init t0 : reach db0 ttl size (mksys db0 (NewCached ttl size) ∅ t0)
| reach_step s now s' : reach db0 ttl size s → st_clock s ≤ now → event s now s' → reach db0 ttl size s'.

(** ** Invariant *)

Definition hashed (db : DB) : Prop := ∀ u row, api_keys db !! u = Some row → ak_KeyHash row ≠ "".

(** What a row keeps through every update. *)
Definition same_key (r r' : APIKey) : Prop :=
  ak_KeyHash r' = ak_KeyHash r ∧ info_of r' = info_of r.

Definition entry_ok (s : sys) (hash : string) (info : KeyInfo) (t : Z) : Prop :=
  t ≤ st_clock s ∧ ∃ u row, api_keys (st_db s) !! u = Some row ∧ ak_KeyHash row = hash ∧
    info_of row = info ∧
    (ak_IsActive row = true ∨ ∃ tr, st_elsewhere s !! u = Some tr ∧ t ≤ tr).

Record inv (ttl : Z) (s : sys) : Prop := {
  inv_wf : db_wf (st_db s);
  inv_hashed : hashed (st_db s);
  inv_ttl : lru_ttl (pos (st_cache s)) = ttl;
  inv_neg_ttl : lru_ttl (neg (st_cache s)) = negativeCacheTTL;
  inv_pos hash info t : lru_entries (pos (st_cache s)) !! hash = Some (info, t) → entry_ok s hash info t;
}.

(** ** Preservation *)

(** A change of the table keeps every row's hash and [KeyInfo]; a row is
    deactivated only where [dead] says so. *)
Definition db_evolves (dead : string → Prop) (db db' : DB) : Prop :=
  ∀ u row, api_keys db !! u = Some row → ∃ row', api_keys db' !! u = Some row' ∧
    same_key row row' ∧ (ak_IsActive row' = ak_IsActive row ∨ dead u).

Lemma update_evolves conn id f db err db' (dead : string → Prop) :
  (∀ k, same_key k (f k)) → (∀ k u, parse_uuid id = Some u → ak_IsActive (f k) = ak_IsActive k ∨ dead u) →
  update_by_id parse_uuid conn id f db = (err, db') → db_evolves dead db db'.
Proof.
  intros Hs Hd. unfold update_by_id.
  destruct conn; [intros [= <- <-] u row Hu; exists row; split_and!; by auto|].
  destruct (parse_uuid id) as [u0|] eqn:Eu;
    [|intros [= <- <-] u row Hu; exists row; split_and!; by auto].
  intros [= <- <-] u row Hu. simpl. rewrite lookup_alter, Hu. case_decide; [subst|].
  - exists (f row). rewrite Hu. split; [done|split; [apply Hs|by apply Hd]].
  - exists row. split_and!; by auto.
Qed.

Lemma update_hashed conn id f db err db' :
  (∀ k, same_key k (f k)) → update_by_id parse_uuid conn id f db = (err, db') → hashed db → hashed db'.
Proof.
  intros Hs. unfold update_by_id. destruct conn; [by intros [= <- <-]|].
  destruct (parse_uuid id) as [u0|]; [|by intros [= <- <-]]. intros [= <- <-] Hh u row. simpl.
  rewrite lookup_alter. case_decide; [|apply Hh]. subst.
  destruct (api_keys db !! u) as [r|] eqn:E; [|done]. intros [= <-].
  destruct (Hs r) as [-> _]. by eapply Hh.
Qed.

Lemma Revoke_update conn id db err db' :
  store_Revoke parse_uuid conn id db = (err, db') →
  ∃ e, update_by_id parse_uuid conn id deactivate db = (e, db').
Proof. unfold store_Revoke. destruct (update_by_id _ _ _ _ _) as [e d]. intros [= <- <-]. eauto. Qed.

Lemma deactivate_same k : same_key k (deactivate k).
Proof. done. Qed.
Lemma touch_same now k : same_key k (touch now k).
Proof. done. Qed.

(** A step that only drops cache entries keeps the invariant when every row it
    deactivates is either gone from the cache or recorded. *)
Lemma inv_evolve ttl s db' (c' : Cached L) e' now (dead : string → Prop) :
  inv ttl s → st_clock s ≤ now → db_wf db' → hashed db' → db_evolves dead (st_db s) db' →
  lru_ttl (pos c') = lru_ttl (pos (st_cache s)) → lru_ttl (neg c') = lru_ttl (neg (st_cache s)) →
  lru_entries (pos c') ⊆ lru_entries (pos (st_cache s)) →
  (∀ u tr, st_elsewhere s !! u = Some tr →
     ak_IsActive <$> api_keys (st_db s) !! u = Some true ∨ e' !! u = Some tr) →
  (∀ u row, api_keys (st_db s) !! u = Some row → ak_IsActive row = true → dead u →
     lru_entries (pos c') !! ak_KeyHash row = None ∨ e' !! u = Some now) →
  inv ttl (mksys db' c' e' now).
Proof.
  intros [Hwf Hh Ht Hn Hp] Hclk Hwf' Hh' Hev Ht' Hn' Hsub Helse Hdead.
  split; simpl; try done; [congruence..|]. intros hash info t Hl.
  destruct (Hp _ _ _ (lookup_weaken _ _ _ _ Hl Hsub)) as (Hle&u&row&Hu&Hhash&Hinfo&Hact).
  split; simpl; [lia|]. destruct (Hev u row Hu) as (row'&Hu'&[Hk Hi]&Ha).
  exists u, row'. split_and!; try done; [congruence..|].
  assert (ak_IsActive row = true → ak_IsActive row' = true ∨ ∃ tr, e' !! u = Some tr ∧ t ≤ tr) as Hgo.
  { intros Hr. destruct Ha as [->|Hd]; [by left|].
    destruct (Hdead _ _ Hu Hr Hd) as [Hno|?]; [congruence|]. right. exists now. split; [done|lia]. }
  destruct Hact as [Hr|(tr&Htr&?)]; [by apply Hgo|].
  destruct (Helse _ _ Htr) as [Hr|]; [|eauto]. rewrite Hu in Hr. apply Hgo. by injection Hr.
Qed.

Lemma inv_auth ttl s now conn key r c' ts :
  inv ttl s → st_clock s ≤ now →
  Authenticate (λ h, GetByHash conn now h (st_db s)) now key (st_cache s) = (r, c', ts) →
  inv ttl (mksys (st_db s) c' (st_elsewhere s) now).
Proof.
  intros [Hwf Hh Ht Hn Hp] Hclk. unfold Authenticate.
  destruct (cache_probe _ _ _) as [[ans c1] ts1] eqn:Ep.
  destruct (cache_probe_spec _ _ _ _ _ _ Ep) as (Ht1&Hn1&Hsub1&_).
  assert (∀ hash info t, lru_entries (pos c1) !! hash = Some (info, t) →
    entry_ok (mksys (st_db s) c' (st_elsewhere s) now) hash info t) as Hold.
  { intros hash info t Hl. apply (lookup_weaken _ _ _ _ Hl) in Hsub1.
    destruct (Hp _ _ _ Hsub1) as [? Hx]. split; [simpl; lia|exact Hx]. }
  destruct ans as [ans|].
  { intros [= <- <- <-]. split; simpl; try done; congruence. }
  intros Ef. destruct (cache_fill_spec _ _ _ _ _ _ _ Ef) as (Ht2&Hn2&Hcase).
  split; simpl; try done; [congruence..|]. intros hash info t Hl.
  destruct Hcase as [(row&Hrow&_&Hsub)|(e&_&Hpos&_)]; [|rewrite Hpos in Hl; by apply Hold].
  apply (lookup_weaken _ _ _ _ Hl) in Hsub. rewrite lookup_insert in Hsub.
  case_decide as Hd; [|by apply Hold]. injection Hsub as <- <-.
  apply GetByHash_row in Hrow as (u&Hu&Hk&Ha&_). split; [simpl; lia|].
  exists u, row. simpl. subst. auto.
Qed.

Lemma admin_Create_inv req src conn now newid db ops db' :
  admin_Create encode parse_uuid req src conn now newid db = Some (ops, db') →
  db' = db ∨ ∃ k h prefix, h ≠ "" ∧ db' = (Create parse_uuid conn now newid k h prefix db).2.
Proof.
  unfold admin_Create. destruct req as [req|]; [|intros [= _ <-]; by left].
  destruct (_ || _); [intros [= _ <-]; by left|].
  destruct (generatePlaintextKey src) as [[e|key]|]; [intros [= _ <-]; by left| |done].
  match goal with |- context [Create _ _ _ _ ?k ?h ?p _] =>
    set (nk := k); destruct (Create parse_uuid conn now newid nk h p db) as [[e|row] d] eqn:Ec end;
    intros [= _ <-]; right; exists nk, (HashKey key), (str_take keyPrefixLen key);
    (split; [apply HashKey_nonempty|by rewrite Ec]).
Qed.

Lemma Create_evolves conn now newid k h prefix db :
  api_keys db !! newid = None → h ≠ "" → hashed db →
  db_evolves (λ _, False) db (Create parse_uuid conn now newid k h prefix db).2 ∧
  hashed (Create parse_uuid conn now newid k h prefix db).2.
Proof.
  intros Hnew Hh Hhd. assert (∀ d, db_evolves d db db) as Hrefl.
  { intros d u row Hu. exists row. split_and!; by auto. }
  unfold Create. destruct conn; [by auto|]. destruct (negb _); [by auto|]. destruct (negb _); [by auto|].
  destruct (parse_uuid _); [|by auto]. destruct (existsb _ _); [by auto|].
  destruct (negb _); [by auto|]. simpl. split.
  - intros u row Hu. exists row. simpl. rewrite lookup_insert_ne by congruence. split_and!; by auto.
  - intros u row. simpl. rewrite lookup_insert. case_decide; [|apply Hhd]. by intros [= <-].
Qed.

Lemma inv_create ttl s now conn req src newid ops db' :
  inv ttl s → st_clock s ≤ now → api_keys (st_db s) !! newid = None →
  admin_Create encode parse_uuid req src conn now newid (st_db s) = Some (ops, db') →
  inv ttl (mksys db' (st_cache s) (st_elsewhere s) now).
Proof.
  intros Hi Hclk Hnew Hc. pose proof Hi as [Hwf Hh _ _ _].
  apply admin_Create_inv in Hc as [->|(k&h&p&Hne&->)].
  - apply (inv_evolve ttl s _ _ _ _ (λ _, False)); eauto; [|done].
    intros u row Hu. exists row. split_and!; by auto.
  - destruct (Create_evolves conn now newid k h p _ Hnew Hne Hh) as [Hev Hh'].
    eapply inv_evolve; eauto; [by apply Create_wf|done].
Qed.

Lemma GetByID_cases conn id db :
  infra conn →
  match GetByID parse_uuid conn id db with
  | inr row => ∃ u, parse_uuid id = Some u ∧ api_keys db !! u = Some row
  | inl e => is_NotFound e = true → ∀ u, parse_uuid id = Some u → api_keys db !! u = None
  end.
Proof.
  intros Hinf. unfold GetByID. destruct conn as [e|].
  - destruct (Hinf e eq_refl) as (Hn&Hr&Hp).
    unfold mapPgError. rewrite decide_False by done. destruct e; try done; simpl in *; rewrite ?Hn; simpl; by rewrite ?Hn.
  - destruct (parse_uuid id) as [u|]; [|done].
    destruct (api_keys db !! u) as [row|] eqn:E; simpl; [eauto|]. by intros _ ? [= <-].
Qed.

Lemma inv_revoke_here ttl s now id cg cr ops db' c' :
  inv ttl s → st_clock s ≤ now → infra cg →
  admin_Revoke encode parse_uuid (Some Invalidate) id cg cr (st_db s) (st_cache s) = (ops, db', c') →
  inv ttl (mksys db' c' (st_elsewhere s) now).
Proof.
  intros Hi Hclk Hinf. pose proof Hi as [Hwf Hh _ _ _]. unfold admin_Revoke.
  assert (inv ttl (mksys (st_db s) (st_cache s) (st_elsewhere s) now)) as Hsame.
  { apply (inv_evolve ttl s _ _ _ _ (λ _, False)); eauto; [|done].
    intros u row Hu. exists row. split_and!; by auto. }
  case_bool_decide; [by intros [= <- <- <-]|].
  pose proof (GetByID_cases cg id (st_db s) Hinf) as Hget.
  destruct (store_Revoke parse_uuid cr id (st_db s)) as [err d] eqn:Er.
  destruct (Revoke_update _ _ _ _ _ Er) as [e Hup].
  pose proof (update_wf _ _ _ deactivate _ _ _ (λ k, eq_refl) (λ k, eq_refl) Hwf Hup) as Hwf'.
  pose proof (update_hashed _ _ _ _ _ _ deactivate_same Hup Hh) as Hh'.
  pose proof (update_evolves _ _ _ _ _ _ (λ u, parse_uuid id = Some u) deactivate_same
    (λ _ _ Hid, or_intror Hid) Hup) as Hev.
  destruct (GetByID parse_uuid cg id (st_db s)) as [eg|row].
  - destruct (is_NotFound eg) eqn:En; [|by intros [= <- <- <-]].
    assert (inv ttl (mksys d (st_cache s) (st_elsewhere s) now)) as Hd.
    { apply (inv_evolve ttl s _ _ _ _ (λ u, parse_uuid id = Some u)); eauto.
      intros u row Hu _ Hid. rewrite (Hget eq_refl u Hid) in Hu. done. }
    destruct err; intros [= <- <- <-]; exact Hd.
  - destruct Hget as (u&Hid&Hu).
    assert (err = None ∨ d = st_db s) as Hcase.
    { unfold store_Revoke, update_by_id in Er. rewrite Hid in Er.
      destruct cr; injection Er as Er1 Er2; subst; auto. }
    destruct err as [x|]; intros [= <- <- <-].
    { destruct Hcase as [? | ->]; done. }
    rewrite bool_decide_false by (by eapply Hh).
    apply (inv_evolve ttl s _ _ _ _ (λ u, parse_uuid id = Some u)); simpl; rewrite ?lru_Remove_ttl; eauto.
    + etrans; [apply lru_Remove_sub|apply delete_subseteq].
    + intros u' row' Hu' _ Hid'. left. assert (row' = row) as -> by congruence.
      pose proof (lru_Remove_sub _ (ak_KeyHash row) (pos (st_cache s))) as Hrm.
      destruct (lru_entries _ !! _) as [x|] eqn:Ex; [|done].
      apply (lookup_weaken _ _ _ _ Ex) in Hrm. by rewrite lookup_delete_eq in Hrm.
Qed.

Lemma inv_revoke_elsewhere ttl s now id err db' :
  inv ttl s → st_clock s ≤ now → store_Revoke parse_uuid None id (st_db s) = (err, db') →
  inv ttl (mksys db' (st_cache s) (first_revocation now id s) now).
Proof.
  intros Hi Hclk Hr. pose proof Hi as [Hwf Hh _ _ _].
  destruct (Revoke_update _ _ _ _ _ Hr) as [e Hup].
  pose proof (update_wf _ _ _ deactivate _ _ _ (λ k, eq_refl) (λ k, eq_refl) Hwf Hup) as Hwf'.
  pose proof (update_hashed _ _ _ _ _ _ deactivate_same Hup Hh) as Hh'.
  apply (inv_evolve ttl s _ _ _ _ (λ u, parse_uuid id = Some u)); eauto.
  - by eapply update_evolves; eauto using deactivate_same.
  - intros u tr Htr. unfold first_revocation. destruct (parse_uuid id) as [v|]; [|by right].
    destruct (api_keys (st_db s) !! v) as [row|] eqn:Ev; [|by right].
    destruct (ak_IsActive row) eqn:Ea; [|by right]. destruct (decide (u = v)) as [->|].
    + left. rewrite Ev. simpl. by rewrite Ea.
    + right. by rewrite lookup_insert_ne.
  - intros u row Hu Ha Hid. right. unfold first_revocation. rewrite Hid, Hu, Ha. apply lookup_insert_eq.
Qed.

Lemma inv_touch ttl s now conn id err db' :
  inv ttl s → st_clock s ≤ now → TouchLastUsedAt parse_uuid conn now id (st_db s) = (err, db') →
  inv ttl (mksys db' (st_cache s) (st_elsewhere s) now).
Proof.
  intros Hi Hclk. pose proof Hi as [Hwf Hh _ _ _]. unfold TouchLastUsedAt.
  destruct (update_by_id _ _ _ _ _) as [e d] eqn:Hup. intros [= <- <-].
  apply (inv_evolve ttl s _ _ _ _ (λ _, False)); eauto; try done.
  - eapply (update_wf parse_uuid); [| |exact Hwf|exact Hup]; done.
  - by eapply update_hashed; eauto using touch_same.
  - eapply update_evolves; eauto using touch_same.
Qed.

Lemma reach_inv db0 ttl size s :
  db_wf db0 → hashed db0 → reach db0 ttl size s → inv ttl s.
Proof.
  intros Hwf Hh Hr. induction Hr as [t0|s now s' Hr IH Hclk Hev].
  - split; simpl; try done; rewrite ?lru_new_ttl; try done.
    intros ???. rewrite lru_new_entries, lookup_empty. done.
  - destruct Hev; eauto using inv_auth, inv_create, inv_revoke_here, inv_revoke_elsewhere, inv_touch.
Qed.

(** ** What a request can get *)

Lemma unexpired_info now row :
  unexpired now row = true ↔ ∀ e, ExpiresAt (info_of row) = Some e → now < e.
Proof.
  unfold unexpired. simpl. destruct (ak_ExpiresAt row); [|naive_solver].
  rewrite Z.ltb_lt. naive_solver.
Qed.

(** Whoever is accepted, in a state that satisfies the invariant. *)
Lemma accepted_row ttl s now conn key info (c' : Cached L) ts :
  inv ttl s →
  Authenticate (λ h, GetByHash conn now h (st_db s)) now key (st_cache s) = (inr info, c', ts) →
  ∃ u row, api_keys (st_db s) !! u = Some row ∧ ak_KeyHash row = HashKey key ∧
    info = info_of row ∧ unexpired now row = true ∧
    (ak_IsActive row = true ∨ ∃ tr, st_elsewhere s !! u = Some tr ∧ (0 < ttl → now ≤ tr + ttl)).
Proof.
  intros [_ _ Ht _ Hp] Hauth. unfold Authenticate in Hauth.
  destruct (cache_probe _ _ _) as [[[ans|] c1] ts1] eqn:Ep.
  - injection Hauth as -> _ _. destruct (cache_probe_spec _ _ _ _ _ _ Ep) as (_&_&_&Hok&_).
    destruct (Hok info eq_refl) as (t&Hl&Hfresh&Hexp). rewrite Ht in Hfresh.
    destruct (Hp _ _ _ Hl) as (_&u&row&Hu&Hk&<-&Hact). exists u, row. split_and!; try done.
    + by apply unexpired_info.
    + destruct Hact as [?|(tr&?&?)]; [by left|]. right. exists tr. split; [done|]. intros Httl.
      specialize (Hfresh Httl). lia.
  - destruct (cache_fill_spec _ _ _ _ _ _ _ Hauth) as (_&_&[(row&Hrow&[= ->]&_)|(e&_&_&?)]); [|done].
    apply GetByHash_row in Hrow as (u&?&?&?&?). exists u, row. split_and!; auto.
Qed.

(** C4: soundness of cached authentication.  Whatever sequence of requests,
    key creations, revocations here and revocations by other instances came
    before, an accepted key belongs to a stored row with its hash, the
    identity returned is that row's, the row has not expired, and the row is
    active, unless another instance revoked it at most one cache time-to-live
    ago; so a revocation through this instance takes effect at once. *)
Theorem auth_sound (db0 : DB) (ttl size : Z) (s : sys) (now : Z) (conn : option dberr)
    (key : string) (info : KeyInfo) (c' : Cached L) (ts : list string)
    (Hwf : db_wf db0) (Hhash : hashed db0) (Httl : 0 < ttl)
    (Hreach : reach db0 ttl size s) (Hnow : st_clock s ≤ now)
    (Hauth : Authenticate (λ h, GetByHash conn now h (st_db s)) now key (st_cache s) =
             (inr info, c', ts)) :
  ∃ u row, api_keys (st_db s) !! u = Some row ∧ ak_KeyHash row = HashKey key ∧
    info = info_of row ∧ unexpired now row = true ∧
    (ak_IsActive row = true ∨ ∃ tr, st_elsewhere s !! u = Some tr ∧ now ≤ tr + ttl).
Proof.
  pose proof (reach_inv _ _ _ _ Hwf Hhash Hreach) as Hinv.
  destruct (accepted_row _ _ _ _ _ _ _ _ Hinv Hauth) as (u&row&?&?&?&?&Hact).
  exists u, row. split_and!; try done. destruct Hact as [?|(tr&?&?)]; [by left|]. right. eauto.
Qed.

(** C26: completeness of cached authentication.  When the store can be
    reached, the key of an active, unexpired row is accepted with that row's
    identity, unless a failed lookup of the same hash was negatively cached in
    the last 30 seconds; and an infrastructure error is never turned into a
    rejection of the key. *)
Theorem auth_complete (db0 : DB) (ttl size : Z) (s : sys) (now : Z) (key u : string) (row : APIKey)
    (Hwf : db_wf db0) (Hhash : hashed db0) (Hreach : reach db0 ttl size s)
    (Hrow : api_keys (st_db s) !! u = Some row) (Hkey : ak_KeyHash row = HashKey key)
    (Hact : ak_IsActive row = true) (Hexp : unexpired now row = true) :
  ((Authenticate (λ h, GetByHash None now h (st_db s)) now key (st_cache s)).1.1 = inr (info_of row) ∨
   ∃ t, lru_entries (neg (st_cache s)) !! HashKey key = Some ((), t) ∧ now ≤ t + 30 * Second) ∧
  (∀ e, is_NotFound e = false → let '(r, _, _) :=
     Authenticate (λ h, GetByHash (Some e) now h (st_db s)) now key (st_cache s) in
     r = inr (info_of row) ∨ r = inl (EBackend (EWrapped "scanning api_key: " e)) ∨
     ∃ t, lru_entries (neg (st_cache s)) !! HashKey key = Some ((), t) ∧ now ≤ t + 30 * Second).
Proof.
  destruct (reach_inv _ _ _ _ Hwf Hhash Hreach) as [Hwfs _ Ht Hn Hp]. unfold Authenticate.
  assert (∀ info t, lru_entries (pos (st_cache s)) !! HashKey key = Some (info, t) →
    info = info_of row) as Hinfo.
  { intros info t Hl. destruct (Hp _ _ _ Hl) as (_&v&row'&Hv&Hk&<-&_).
    assert (v = u) as -> by (eapply (dw_unique _ Hwfs); eauto; congruence). congruence. }
  destruct (cache_probe _ _ _) as [[[[e|info]|] c1] ts1] eqn:Ep;
    destruct (cache_probe_spec _ _ _ _ _ _ Ep) as (_&_&_&Hok&Hbad); cbv beta.
  - destruct (Hbad e eq_refl) as [(info&x&[t Hl]&Hx&?)|(t&Hl&Hfresh)].
    { rewrite (Hinfo _ _ Hl) in Hx. pose proof (proj1 (unexpired_info now row) Hexp x Hx). lia. }
    rewrite Hn in Hfresh. specialize (Hfresh ltac:(done)).
    split; [by right; exists t|]. intros ? _. right. right. by exists t.
  - destruct (Hok info eq_refl) as (t&Hl&_). rewrite (Hinfo _ _ Hl). by auto.
  - split.
    + left. assert (GetByHash None now (HashKey key) (st_db s) = inr row) as ->.
      { apply GetByHash_iff; [done|]. exists u. auto. }
      destruct (cache_fill now (HashKey key) (inr row) c1) as [[r c2] ts2] eqn:Ef.
      destruct (cache_fill_spec _ _ _ _ _ _ _ Ef) as (_&_&[(?&[= <-]&->&_)|(?&?&_)]); done.
    + intros e He. unfold GetByHash.
      destruct (cache_fill now (HashKey key) _ c1) as [[r c2] ts2] eqn:Ef.
      destruct (cache_fill_spec _ _ _ _ _ _ _ Ef) as (_&_&[(?&?&_)|(?&[= <-]&_&->)]); [done|].
      simpl. rewrite He. auto.
Qed.
End System.

(** ** Minting a key and using it *)

Section Mint.
Context {L : Type → Type} `{LRULaws L}.
Context (encode : Payload → string) (parse_uuid : string → option string).

(** The rows Postgres accepts: limits that fit the column, a name without
    U+0000, an existing organization, a new hash. *)
Definition insertable (conn : option dberr) (k : NewKey) (h : string) (db : DB) (org : string) : Prop :=
  conn = None ∧ int32 (nk_RateLimitRPM k) = true ∧ int32 (nk_RateLimitTPM k) = true ∧
  pg_text (nk_Name k) = true ∧
  parse_uuid (nk_OrgID k) = Some org ∧ is_Some (organizations db !! org) ∧
  ∀ u row, api_keys db !! u = Some row → ak_KeyHash row ≠ h.

Definition fresh_row (now : Z) (newid : string) (k : NewKey) (h prefix org : string) : APIKey :=
  mkAPIKey newid h prefix org (nk_Name k) [] (nk_RateLimitRPM k) (nk_RateLimitTPM k) true (micros now)
    (micros <$> nk_ExpiresAt k) None.

Lemma Create_cases conn now newid k h prefix db :
  pg_text h = true → pg_text prefix = true →
  (∃ org, insertable conn k h db org ∧
     let row := fresh_row now newid k h prefix org in
     Create parse_uuid conn now newid k h prefix db =
       (inr row, mkDB (<[newid := row]> (api_keys db)) (organizations db))) ∨
  ((∀ org, ¬ insertable conn k h db org) ∧
   ∃ e, Create parse_uuid conn now newid k h prefix db = (inl e, db)).
Proof.
  intros Hh Hp. unfold Create, insertable. rewrite Hh, Hp. clear Hh Hp.
  destruct conn as [e|]; [right; split; [naive_solver|eauto]|].
  destruct (int32 (nk_RateLimitRPM k)); [|right; split; [naive_solver|eauto]].
  destruct (int32 (nk_RateLimitTPM k)); [|right; split; [naive_solver|eauto]]. cbn [andb negb].
  destruct (pg_text (nk_Name k)); [|right; split; [naive_solver|eauto]]. simpl.
  destruct (parse_uuid (nk_OrgID k)) as [org|]; [|right; split; [naive_solver|eauto]].
  destruct (existsb _ _) eqn:Ee.
  { right. split; [|eauto]. intros ? (_&_&_&_&_&_&Hdup).
    apply existsb_exists in Ee as (row&Hin&Hh%bool_decide_eq_true).
    apply list_elem_of_In, in_rows in Hin as [u Hu]. by eapply Hdup. }
  case_bool_decide as Ho; simpl; [left|right; split; [naive_solver|eauto]].
  exists org. split_and!; try done. intros u row Hu Hh.
  assert (existsb (λ r, bool_decide (ak_KeyHash r = h)) (map_to_list (api_keys db)).*2 = true) as Hx;
    [|congruence].
  apply existsb_exists. exists row. split; [|by apply bool_decide_eq_true].
  apply list_elem_of_In, in_rows. eauto.
Qed.

(** What a create request asks the store to insert. *)
Definition requested (q : CreateKeyRequest) : NewKey :=
  mkNewKey (cq_OrgID q) (cq_Name q) (default 60 (cq_RateLimitRPM q))
    (default 100000 (cq_RateLimitTPM q)) (cq_ExpiresAt q).

Definition creatable (req : option CreateKeyRequest) (src : list (string + Z)) (conn : option dberr)
    (db : DB) (q : CreateKeyRequest) (key org : string) : Prop :=
  req = Some q ∧ cq_OrgID q ≠ "" ∧ cq_Name q ≠ "" ∧
  generatePlaintextKey src = Some (inr key) ∧ insertable conn (requested q) (HashKey key) db org.

Definition key_response (key : string) (row : APIKey) : CreateKeyResponse :=
  mkCreateKeyResponse (ak_ID row) key (ak_KeyPrefix row) (ak_Name row) (ak_RateLimitRPM row)
    (ak_RateLimitTPM row) (ak_ExpiresAt row) (ak_CreatedAt row).

Lemma admin_Create_cases req src conn now newid db ops db' :
  admin_Create encode parse_uuid req src conn now newid db = Some (ops, db') →
  (∃ q key org, creatable req src conn db q key org ∧
     let row := fresh_row now newid (requested q) (HashKey key) (str_take 14 key) org in
     db' = mkDB (<[newid := row]> (api_keys db)) (organizations db) ∧
     ops = [OSet "Content-Type" "application/json"; OStatus 201;
            OWrite (encode (PKey (key_response key row)))]) ∨
  ((∀ q key org, ¬ creatable req src conn db q key org) ∧ db' = db ∧
   (status_of ops = 400 ∨ status_of ops = 500)).
Proof.
  unfold admin_Create, creatable, defaultRateLimitRPM, defaultRateLimitTPM. destruct req as [q|].
  2:{ intros [= <- <-]. right. split; [naive_solver|]. split; [done|]. left. apply error_status. }
  destruct (decide (cq_OrgID q = "" ∨ cq_Name q = "")) as [Hmiss|Hfull].
  { assert (bool_decide (cq_OrgID q = "") || bool_decide (cq_Name q = "") = true) as ->
      by (apply orb_true_iff; rewrite !bool_decide_eq_true; done).
    intros [= <- <-]. right. split; [naive_solver|]. split; [done|]. left. apply error_status. }
  rewrite !bool_decide_false by tauto. cbn [orb].
  destruct (generatePlaintextKey src) as [[e|key]|] eqn:Egen; [| |done].
  { intros [= <- <-]. right. split; [naive_solver|]. split; [done|]. right. apply error_status. }
  destruct (Create_cases conn now newid (requested q) (HashKey key) (str_take keyPrefixLen key) db
    (HashKey_text key) (generated_key_text _ _ 14 Egen)) as [(org&Hins&Hc)|(Hno&e&Hc)]; unfold requested in Hc; rewrite Hc; intros [= <- <-].
  - left. exists q, key, org. split; [|done]. split_and!; try done; tauto.
  - right. split; [|split; [done|right; apply error_status]].
    intros q' key' org ([= <-]&_&_&[= <-]&Hins). by eapply Hno.
Qed.

(** C28: minting.  A create request that is well formed, names an existing
    organization and asks for limits that fit their columns is answered with
    201 and the plaintext of a generated key, and stores exactly one new row,
    which holds only the key's SHA-256 hash and 14-character prefix; that
    plaintext then authenticates on every instance that has not cached its
    hash, as the new row's id with the requested limits (60 and 100000 where
    omitted), until the requested expiry, cut to the microsecond.  Any other request
    (a name with the character U+0000 included) is answered with
    400 or 500 and leaves the store as it was. *)
Theorem create_then_authenticate (req : option CreateKeyRequest) (src : list (string + Z))
    (conn : option dberr) (now : Z) (newid : string) (db db' : DB) (ops : list WOp)
    (Hwf : db_wf db) (Hnew : api_keys db !! newid = None)
    (Hcreate : admin_Create encode parse_uuid req src conn now newid db = Some (ops, db')) :
  (∃ q key org, creatable req src conn db q key org ∧
     let row := fresh_row now newid (requested q) (HashKey key) (str_take 14 key) org in
     db' = mkDB (<[newid := row]> (api_keys db)) (organizations db) ∧
     serve_ops ops = (201, {["Content-Type" := "application/json"]}, encode (PKey (key_response key row))) ∧
     ∀ t (c : Cached L), unexpired t row = true →
       lru_entries (pos c) !! HashKey key = None → lru_entries (neg c) !! HashKey key = None →
       ∃ c' ts, Authenticate (λ h, GetByHash None t h db') t key c =
         (inr (mkKeyInfo newid org (cq_Name q) (default 60 (cq_RateLimitRPM q))
                 (default 100000 (cq_RateLimitTPM q)) [] (micros <$> cq_ExpiresAt q)), c', ts)) ∨
  ((∀ q key org, ¬ creatable req src conn db q key org) ∧ db' = db ∧
   (status_of ops = 400 ∨ status_of ops = 500)).
Proof.
  destruct (admin_Create_cases _ _ _ _ _ _ _ _ Hcreate) as [(q&key&org&Hok&->&->)|?]; [left|by right].
  exists q, key, org. split; [done|]. split; [done|]. split; [reflexivity|].
  intros t c Hexp Hpos Hneg. unfold Authenticate.
  destruct (cache_probe t (HashKey key) c) as [[ans c1] ts1] eqn:Ep.
  destruct (cache_probe_spec _ _ _ _ _ _ Ep) as (_&_&_&Hhit&Hbad).
  destruct ans as [[e|info]|].
  { destruct (Hbad e eq_refl) as [(?&?&[??]&_)|(?&?&_)]; congruence. }
  { destruct (Hhit info eq_refl) as (?&?&_). congruence. }
  set (row := fresh_row _ _ _ _ _ _) in *.
  assert (db_wf (mkDB (<[newid:=row]> (api_keys db)) (organizations db))) as Hwf'.
  { destruct Hok as (_&_&_&Hgen&Hins).
    pose proof (Create_wf parse_uuid conn now newid (requested q) (HashKey key) (str_take 14 key) db Hwf Hnew) as Hw.
    destruct (Create_cases conn now newid (requested q) (HashKey key) (str_take 14 key) db
      (HashKey_text key) (generated_key_text _ _ 14 Hgen)) as [(org'&Hins'&Hc)|(Hno&_)]; [|by destruct (Hno org)].
    rewrite Hc in Hw. destruct Hins as (_&_&_&_&Hu&_), Hins' as (_&_&_&_&Hu'&_).
    assert (org' = org) as -> by congruence. exact Hw. }
  assert (GetByHash None t (HashKey key) (mkDB (<[newid:=row]> (api_keys db)) (organizations db)) = inr row) as ->.
  { apply GetByHash_iff; [done|]. exists newid. split; [apply lookup_insert_eq|]. auto. }
  destruct (cache_fill t (HashKey key) (inr row) c1) as [[r c2] ts2] eqn:Ef. exists c2, ts2.
  by destruct (cache_fill_spec _ _ _ _ _ _ _ Ef) as (_&_&[(?&[= <-]&->&_)|(?&?&_)]).
Qed.
End Mint.

(** ** Witnesses *)

Definition demo_encode (p : Payload) : string := "".
Definition demo_key : string := "sk-gw-abc".
Definition demo_hash : string := Eval vm_compute in HashKey demo_key.
Definition demo_row : APIKey :=
  mkAPIKey "key1" demo_hash "sk-gw-abc" "org1" "ci" [] 60 1000 true 0 (Some 1000000000000) None.
Definition demo_db1 : DB := mkDB {[ "key1" := demo_row ]} {[ "org1" := demo_org ]}.

Lemma demo_hash_eq : HashKey demo_key = demo_hash.
Proof. vm_compute. reflexivity. Qed.

Lemma demo_db1_ok : db_wf demo_db1 ∧ hashed demo_db1.
Proof.
  split; [split|]; simpl.
  - intros u k. rewrite lookup_singleton_Some. by intros [<- <-].
  - intros u v k l. rewrite !lookup_singleton_Some. by intros [<- _] [<- _] _.
  - intros u k. simpl. rewrite lookup_singleton_Some. by intros [_ <-].
Qed.

(** A request fills the cache at second 1, another instance revokes the key at
    second 2; the key is still accepted at second 3. *)
Definition demo_sys0 : sys (L := MapLRU.lru) := mksys demo_db1 (NewCached (60 * Second) 100) ∅ 0.
Definition demo_cache : Cached MapLRU.lru :=
  (Authenticate (λ h, GetByHash None Second h demo_db1) Second demo_key (NewCached (60 * Second) 100)).1.2.
Definition demo_db2 : DB := (store_Revoke demo_uuid None "key1" demo_db1).2.

Lemma demo_cached_ok now :
  1 * Second ≤ now ≤ 61 * Second →
  ∃ c' ts, Authenticate (λ h, GetByHash None now h demo_db2) now demo_key demo_cache =
    (inr (info_of demo_row), c', ts).
Proof.
  intros Hnow. unfold Second in Hnow. unfold Authenticate. rewrite demo_hash_eq.
  assert (pos demo_cache = MapLRU.mklru {[ demo_hash := (info_of demo_row, Second) ]} (60 * Second)) as Hp
    by (vm_compute; reflexivity).
  unfold cache_probe. simpl. rewrite Hp. simpl. rewrite lookup_singleton_eq.
  rewrite (proj2 (Z.leb_le now _)) by (unfold Second; lia). simpl.
  rewrite (proj2 (Z.ltb_lt now _)) by lia. simpl. destruct (maybeTouch _ _ _) as [c' ts]. eauto.
Qed.

Lemma demo_reach :
  reach demo_encode demo_uuid demo_db1 (60 * Second) 100
    (mksys demo_db2 demo_cache {[ "key1" := 2 * Second ]} (2 * Second)).
Proof.
  eapply (reach_step _ _ _ _ _ (mksys demo_db1 demo_cache ∅ Second) (2 * Second)); simpl; [|done|].
  { eapply (reach_step _ _ _ _ _ demo_sys0 Second); [constructor|simpl; done|].
    unfold demo_cache. destruct (Authenticate _ _ _ _) as [[r c] ts] eqn:Ea.
    by apply (ev_auth _ _ demo_sys0 Second None demo_key r c ts). }
  exact (ev_revoke_elsewhere demo_encode demo_uuid (mksys demo_db1 demo_cache ∅ Second) (2 * Second)
    "key1" None demo_db2 eq_refl).
Qed.

Lemma auth_sound_witness :
  ∃ u row, api_keys demo_db2 !! u = Some row ∧ ak_KeyHash row = HashKey demo_key ∧
    info_of demo_row = info_of row ∧ unexpired (3 * Second) row = true ∧
    (ak_IsActive row = true ∨ ∃ tr, ({[ "key1" := 2 * Second ]} : gmap string Z) !! u = Some tr ∧
       3 * Second ≤ tr + 60 * Second).
Proof.
  destruct (demo_cached_ok (3 * Second) ltac:(unfold Second; lia)) as (c'&ts&Hok).
  destruct demo_db1_ok as [Hwf Hh].
  apply (auth_sound demo_encode demo_uuid demo_db1 (60 * Second) 100
    (mksys demo_db2 demo_cache {[ "key1" := 2 * Second ]} (2 * Second)) (3 * Second) None demo_key
    (info_of demo_row) c' ts Hwf Hh ltac:(done) demo_reach ltac:(done) Hok).
Defined.

Lemma auth_complete_witness :
  (Authenticate (λ h, GetByHash None Second h demo_db1) Second demo_key
     (NewCached (L := MapLRU.lru) (60 * Second) 100)).1.1 = inr (info_of demo_row).
Proof.
  destruct demo_db1_ok as [Hwf Hh].
  destruct (auth_complete demo_encode demo_uuid demo_db1 (60 * Second) 100 demo_sys0 Second
    demo_key "key1" demo_row Hwf Hh ltac:(constructor) ltac:(reflexivity) (eq_sym demo_hash_eq)
    ltac:(reflexivity) ltac:(reflexivity)) as [[Hok|(t&Hneg&_)] _].
  - exact Hok.
  - exfalso. rewrite demo_hash_eq in Hneg. simpl in Hneg. by rewrite lookup_empty in Hneg.
Defined.

(** A lookup that overlaps a revocation: the request misses the cache and
    reads the active row, the key is revoked and invalidated, then the request
    stores what it read; the revoked key is accepted from the cache. *)
Definition race_before : option (autherr + KeyInfo) * Cached MapLRU.lru * list string :=
  cache_probe Second (HashKey demo_key) (NewCached (60 * Second) 100).
Definition race_revoked : list WOp * DB * Cached MapLRU.lru :=
  admin_Revoke demo_encode demo_uuid (Some Invalidate) "key1" None None demo_db1 race_before.1.2.
Definition race_filled : Cached MapLRU.lru :=
  (cache_fill Second (HashKey demo_key) (GetByHash None Second (HashKey demo_key) demo_db1)
     race_revoked.2).1.2.

Example revoke_race_accepts :
  race_before.1.1 = None ∧ ak_IsActive <$> api_keys race_revoked.1.2 !! "key1" = Some false ∧
  (Authenticate (λ h, GetByHash None (2 * Second) h race_revoked.1.2) (2 * Second) demo_key race_filled).1.1 =
    inr (info_of demo_row).
Proof. vm_compute. auto. Qed.

Definition mint_req : CreateKeyRequest := mkCreateKeyRequest "org1" "ci" None (Some 1000) (Some 100999).
Definition mint_src : list (string + Z) := inr 255 :: repeat (inr 65) 32.
Definition mint_key : string := "sk-gw-dddddddddddddddddddddddddddddddd".
Definition mint_hash : string := Eval vm_compute in HashKey mint_key.
Definition mint_db : DB := Eval vm_compute in
  from_option snd demo_db (admin_Create demo_encode demo_uuid (Some mint_req) mint_src None 5 "key1" demo_db).

Lemma create_then_authenticate_witness :
  ∃ c' ts, Authenticate (λ h, GetByHash None 50 h mint_db) 50 mint_key
      (NewCached (L := MapLRU.lru) (60 * Second) 100) =
    (inr (mkKeyInfo "key1" "org1" "ci" 60 1000 [] (Some 100000)), c', ts).
Proof.
  edestruct (create_then_authenticate (L := MapLRU.lru) demo_encode demo_uuid (Some mint_req) mint_src
    None 5 "key1" demo_db mint_db) as [(q&key&org&Hok&Hdb&_&Hauth)|(_&Heq&_)].
  - split; simpl; intros; rewrite lookup_empty in *; discriminate.
  - reflexivity.
  - vm_compute. reflexivity.
  - destruct Hok as ([= <-]&_&_&Hkey&_&_&_&_&[= <-]&_).
    assert (generatePlaintextKey mint_src = Some (inr mint_key)) as Hk by (vm_compute; reflexivity).
    rewrite Hk in Hkey. injection Hkey as <-.
    assert (HashKey mint_key = mint_hash) as Hm by (vm_compute; reflexivity).
    apply Hauth; [reflexivity| |]; rewrite Hm; reflexivity.
  - apply (f_equal (λ d, api_keys d !! "key1")) in Heq. vm_compute in Heq. discriminate.
Defined.
