(* ===== verification/Capture.v ===== *)
(** * The usage-capturing response writer

    Models [usageCaptureWriter] of src/internal/middleware/ratelimit.go: a
    writer that delays a JSON response so that its token usage can be recorded
    before the response is sent.  Its state is the record [CW]; [cw_out] is
    the sequence of operations performed on the wrapped writer, which was in
    state [w0] when it was wrapped ([Section Capture]).

    The theorems: the wrapping cannot be observed in the response, and the
    tokens recorded are exactly those of the complete body of a successful
    JSON response. *)

From S2P Require Import Prelude GoStrings Model RateLimit Http.
Local Open Scope Z_scope.

Definition captureBodyLimit : Z := 2 ^ 20.

Inductive captureMode := modeUndecided | modeBuffer | modeStream | modePassthrough.
#[export] Instance captureMode_eq_dec : EqDecision captureMode.
Proof. solve_decision. Defined.

Record CW := mkCW {
  cw_out : list WOp;
  cw_status : Z;
  cw_wroteHeader : bool;
  cw_mode : captureMode;
  cw_buf : string;
  cw_exceededLimit : bool;
}.

Definition strlen (s : string) : Z := Z.of_nat (String.length s).

Section Capture.
(** The wrapped writer at the time of wrapping. *)
Context (w0 : Writer).

Definition newCapture : CW :=
  {| cw_out := []; cw_status := 0; cw_wroteHeader := false; cw_mode := modeUndecided;
     cw_buf := ""; cw_exceededLimit := false |}.

(** Operations on the embedded [http.ResponseWriter]. *)
Definition under (ops : list WOp) (cw : CW) : CW :=
  {| cw_out := cw_out cw ++ ops; cw_status := cw_status cw; cw_wroteHeader := cw_wroteHeader cw;
     cw_mode := cw_mode cw; cw_buf := cw_buf cw; cw_exceededLimit := cw_exceededLimit cw |}.

Definition decideMode (cw : CW) : captureMode :=
  let ct := Header_Get (w_hdr (wrun w0 (cw_out cw))) "Content-Type" in
  if HasPrefix ct "text/event-stream" then modeStream
  else if HasPrefix ct "application/json" then modeBuffer
  else modePassthrough.

Definition cw_WriteHeader (status : Z) (cw : CW) : CW :=
  if cw_wroteHeader cw then cw
  else
    let cw := {| cw_out := cw_out cw; cw_status := status; cw_wroteHeader := true;
                 cw_mode := decideMode cw; cw_buf := cw_buf cw;
                 cw_exceededLimit := cw_exceededLimit cw |} in
    match cw_mode cw with
    | modeStream | modePassthrough => under [OStatus status] cw
    | _ => cw
    end.

Definition cw_Write (b : string) (cw : CW) : CW :=
  let cw := cw_WriteHeader 200 cw in
  match cw_mode cw with
  | modeBuffer =>
      if cw_exceededLimit cw then under [OWrite b] cw
      else if captureBodyLimit <? strlen (cw_buf cw) + strlen b then
        let replay :=
          if 0 <? strlen (cw_buf cw) then [OStatus (cw_status cw); OWrite (cw_buf cw)]
          else [OStatus (cw_status cw)] in
        {| cw_out := cw_out cw ++ replay ++ [OWrite b]; cw_status := cw_status cw;
           cw_wroteHeader := cw_wroteHeader cw; cw_mode := cw_mode cw; cw_buf := "";
           cw_exceededLimit := true |}
      else
        {| cw_out := cw_out cw; cw_status := cw_status cw; cw_wroteHeader := cw_wroteHeader cw;
           cw_mode := cw_mode cw; cw_buf := cw_buf cw +:+ b;
           cw_exceededLimit := cw_exceededLimit cw |}
  | _ => under [OWrite b] cw
  end.

(** The wrapped writer supports [http.Flusher]. *)
Definition cw_Flush (cw : CW) : CW :=
  match cw_mode cw with modeBuffer => cw | _ => under [OFlush] cw end.

Definition cw_step (cw : CW) (op : WOp) : CW :=
  match op with
  | OSet k v => under [OSet k v] cw
  | OStatus s => cw_WriteHeader s cw
  | OWrite b => cw_Write b cw
  | OFlush => cw_Flush cw
  end.

Definition cw_run (ops : list WOp) : CW := foldl cw_step newCapture ops.

(** [finish]: the tokens passed to [RecordTokens], if it is called, and the
    operations on the wrapped writer.  [parse_total body] is the
    [usage.total_tokens] that json.Unmarshal finds, [None] when it fails. *)
Definition finish (parse_total : string → option Z) (cw : CW) : option Z * list WOp :=
  if negb (cw_wroteHeader cw) then (None, cw_out cw)
  else if negb (bool_decide (cw_mode cw = modeBuffer)) then (None, cw_out cw)
  else
    let body := cw_buf cw in
    let record :=
      if (200 <=? cw_status cw) && (cw_status cw <? 300) && negb (cw_exceededLimit cw)
         && (0 <? strlen body)
      then match parse_total body with
           | Some n => if 0 <? n then Some n else None
           | None => None
           end
      else None in
    (record,
     if cw_exceededLimit cw then cw_out cw
     else cw_out cw ++ [OStatus (cw_status cw)] ++ (if 0 <? strlen body then [OWrite body] else [])).

(** ** What a handler's operations amount to *)

(** The status of the first [WriteHeader] or the implied one of a first
    [Write], with the headers set before it. *)
Fixpoint first_status (ops : list WOp) (w : Writer) : option (Z * gmap string string) :=
  match ops with
  | [] => None
  | OStatus s :: _ => Some (s, w_hdr w)
  | OWrite _ :: _ => Some (200, w_hdr w)
  | op :: ops => first_status ops (wstep w op)
  end.

Definition body_of (ops : list WOp) : string :=
  foldr (λ op acc, match op with OWrite b => b +:+ acc | _ => acc end) "" ops.

(** Headers are only set before the status is, and no status is informational
    (1xx). *)
Fixpoint headers_first (sent : bool) (ops : list WOp) : bool :=
  match ops with
  | [] => true
  | OSet _ _ :: ops => negb sent && headers_first sent ops
  | OStatus s :: ops => negb (informational s) && headers_first true ops
  | _ :: ops => headers_first true ops
  end.

(** ** Transparency *)

Lemma strlen_nil s : (0 <? strlen s) = false → s = "".
Proof. unfold strlen. destruct s; simpl; [done|]. intros H%Z.ltb_ge. lia. Qed.

Lemma wrun_snoc w ops op : wrun w (ops ++ [op]) = wstep (wrun w ops) op.
Proof. by rewrite wrun_app. Qed.

Lemma write_header_sent s w : informational s = false → is_Some (w_sent (write_header s w)).
Proof. intros Hs. unfold write_header. destruct (w_sent w) eqn:E; simpl; rewrite ?E, ?Hs; eauto. Qed.

Lemma write_header_done s w : is_Some (w_sent w) → write_header s w = w.
Proof. unfold write_header. by intros [x ->]. Qed.

Lemma write_header_fields s w : w_hdr (write_header s w) = w_hdr w ∧ w_body (write_header s w) = w_body w.
Proof. unfold write_header. by destruct (w_sent w), (informational s). Qed.

(** How the captured writer relates to the writer [r] the handler would have
    written to directly: nothing was decided yet, or writes go through, or the
    body is still held back. *)
Inductive rel (cw : CW) (r : Writer) : Prop :=
| rel_open :
    cw_wroteHeader cw = false → cw_mode cw = modeUndecided → cw_buf cw = "" →
    cw_exceededLimit cw = false → wrun w0 (cw_out cw) = r → rel cw r
| rel_through :
    cw_wroteHeader cw = true → cw_mode cw ≠ modeBuffer ∨ cw_exceededLimit cw = true →
    wrun w0 (cw_out cw) = r → is_Some (w_sent r) → rel cw r
| rel_buffer :
    cw_wroteHeader cw = true → cw_mode cw = modeBuffer → cw_exceededLimit cw = false →
    informational (cw_status cw) = false →
    write_header (cw_status cw) (wrun w0 (cw_out cw)) =
      mkWriter (w_hdr r) (w_sent r) (w_body (wrun w0 (cw_out cw))) (w_info r) →
    w_body r = w_body (wrun w0 (cw_out cw)) +:+ cw_buf cw → rel cw r.

Lemma decideMode_not_undecided cw : decideMode cw ≠ modeUndecided.
Proof. unfold decideMode. by repeat case_match. Qed.

Lemma rel_sent cw r : rel cw r → cw_wroteHeader cw = true → is_Some (w_sent r).
Proof.
  intros [Hw|? ? ? ?|? ? ? Hi Hwh _]; [congruence|done|]. intros _.
  apply (f_equal w_sent) in Hwh. simpl in Hwh. rewrite <-Hwh. by apply write_header_sent.
Qed.

Lemma rel_WriteHeader cw r s :
  informational s = false → rel cw r → rel (cw_WriteHeader s cw) (write_header s r) ∧ cw_wroteHeader (cw_WriteHeader s cw) = true.
Proof.
  intros Hinf Hrel. unfold cw_WriteHeader. destruct (cw_wroteHeader cw) eqn:Ew.
  { rewrite write_header_done by (by eapply rel_sent). done. }
  destruct Hrel as [_ Hm Hb He Hr| |]; [|congruence..].
  assert (∀ m, m ≠ modeBuffer → rel (under [OStatus s] (mkCW (cw_out cw) s true m "" false))
    (write_header s r)) as Hthrough.
  { intros m Hne. apply rel_through; simpl; [done|by left| |by apply write_header_sent].
    by rewrite wrun_snoc, Hr. }
  rewrite Hb, He. simpl. destruct (decideMode cw) eqn:Ed.
  - by apply decideMode_not_undecided in Ed.
  - split; [|done]. destruct (write_header_fields s r) as [Hh Hbd].
    apply rel_buffer; simpl; try done; rewrite Hr.
    + rewrite <-Hbd. by destruct (write_header s r).
    + by rewrite app_nil_r_str.
  - split; [by apply Hthrough|done].
  - split; [by apply Hthrough|done].
Qed.

Lemma rel_step_set cw r k v :
  rel cw r → cw_wroteHeader cw = false → rel (cw_step cw (OSet k v)) (wstep r (OSet k v)).
Proof.
  intros [Hw Hm Hb He Hr| |] Hw'; [|congruence..]. apply rel_open; try done.
  simpl. by rewrite wrun_snoc, Hr.
Qed.

Lemma wstep_write_sent r b :
  is_Some (w_sent r) → wstep r (OWrite b) = mkWriter (w_hdr r) (w_sent r) (w_body r +:+ b) (w_info r).
Proof. intros Hs. simpl. by rewrite write_header_done. Qed.

(** Sending the held-back header and body gives the direct writer. *)
Lemma rel_buffer_replay cw r :
  rel cw r → cw_wroteHeader cw = true → cw_mode cw = modeBuffer → cw_exceededLimit cw = false →
  wrun w0 (cw_out cw ++ [OStatus (cw_status cw)] ++
    (if 0 <? strlen (cw_buf cw) then [OWrite (cw_buf cw)] else [])) = r.
Proof.
  intros Hrel Hw Hm He. pose proof (rel_sent _ _ Hrel Hw) as Hsent.
  destruct Hrel as [|_ [?|?]|_ _ _ _ Hwh Hb]; [congruence..|].
  rewrite !wrun_app. unfold wrun at 2. simpl foldl. rewrite Hwh. destruct (0 <? strlen _) eqn:Es.
  - unfold wrun at 1. simpl foldl. rewrite write_header_done by done. simpl.
    destruct r; simpl in *. by rewrite Hb.
  - apply strlen_nil in Es. rewrite Es, app_nil_r_str in Hb. unfold wrun at 1. simpl. rewrite <-Hb.
    by destruct r.
Qed.

Lemma rel_step_write cw r b : rel cw r → rel (cw_step cw (OWrite b)) (wstep r (OWrite b)).
Proof.
  intros Hrel. destruct (rel_WriteHeader cw r 200 eq_refl Hrel) as [H1 Hw]. simpl. unfold cw_Write.
  set (cw1 := cw_WriteHeader 200 cw) in *. clearbody cw1. set (r1 := write_header 200 r) in *.
  clearbody r1. clear cw r Hrel. pose proof (rel_sent _ _ H1 Hw) as Hsent.
  set (r2 := mkWriter (w_hdr r1) (w_sent r1) (w_body r1 +:+ b) (w_info r1)).
  assert (wstep r1 (OWrite b) = r2) as Hstep by (by apply wstep_write_sent).
  assert (wrun w0 (cw_out cw1) = r1 → cw_mode cw1 ≠ modeBuffer ∨ cw_exceededLimit cw1 = true →
    rel (under [OWrite b] cw1) r2) as Hthrough.
  { intros Hr Hm. apply rel_through; simpl; try done. by rewrite wrun_snoc, Hr. }
  pose proof H1 as [?|_ Hm Hr _|_ Hm He Hinf Hwh Hb]; [congruence| |].
  - destruct (cw_mode cw1) eqn:Em; [auto| |auto..].
    destruct Hm as [?|He]; [done|rewrite He]. by apply Hthrough; [|right].
  - rewrite Hm, He. destruct (captureBodyLimit <? _).
    + apply rel_through; simpl; [done|by right| |done].
      replace (cw_out cw1 ++ _ ++ [OWrite b]) with
        ((cw_out cw1 ++ [OStatus (cw_status cw1)] ++
          (if 0 <? strlen (cw_buf cw1) then [OWrite (cw_buf cw1)] else [])) ++ [OWrite b]).
      * by rewrite wrun_snoc, rel_buffer_replay with (r := r1).
      * rewrite <-app_assoc. by destruct (0 <? strlen _).
    + apply rel_buffer; simpl; try done. by rewrite Hb, app_assoc_str.
Qed.

Lemma rel_step_flush cw r : rel cw r → rel (cw_step cw OFlush) (wstep r OFlush).
Proof.
  intros Hrel. simpl. unfold cw_Flush. destruct (cw_wroteHeader cw) eqn:Ew.
  - pose proof (rel_sent _ _ Hrel Ew) as Hsent. rewrite write_header_done by done.
    destruct (cw_mode cw) eqn:Em; try done; destruct Hrel as [|_ _ Hr _|]; try congruence;
      apply rel_through; simpl; try done; try (left; congruence);
      rewrite wrun_snoc, Hr; simpl; by rewrite write_header_done.
  - destruct Hrel as [_ Hm Hb He Hr| |]; [|congruence..]. rewrite Hm. apply rel_open; try done.
    simpl. by rewrite wrun_snoc, Hr.
Qed.

Lemma rel_run ops cw r sent :
  rel cw r → headers_first sent ops = true → (sent = false → cw_wroteHeader cw = false) →
  rel (foldl cw_step cw ops) (wrun r ops).
Proof.
  revert cw r sent. induction ops as [|op ops IH]; intros cw r sent Hrel Hh Hs; [done|].
  destruct op as [k v|st|b|]; cbn [foldl wrun]; cbn [headers_first] in Hh.
  - apply andb_true_iff in Hh as [->%negb_true_iff Hh].
    apply (IH _ _ false); [apply rel_step_set; auto|done|by intros _; apply Hs].
  - apply andb_true_iff in Hh as [Hop%negb_true_iff Hh]. apply (IH _ _ true); [by apply rel_WriteHeader|done..].
  - apply (IH _ _ true); [by apply rel_step_write|done..].
  - apply (IH _ _ true); [by apply rel_step_flush|done..].
Qed.

Lemma finish_rel pt cw r : rel cw r → wrun w0 (finish pt cw).2 = r.
Proof.
  intros Hrel. unfold finish. destruct (cw_wroteHeader cw) eqn:Ew; simpl.
  2:{ destruct Hrel as [_ _ _ _ Hr| |]; simpl; congruence. }
  case_bool_decide as Hm; simpl.
  - destruct (cw_exceededLimit cw) eqn:Ee; [|by apply rel_buffer_replay].
    destruct Hrel; congruence.
  - destruct Hrel as [|_ _ Hr _|]; simpl; congruence.
Qed.

(** C14: the capturing writer is invisible to the handlers it is meant for.
    For every handler that sets its headers before it starts to write and sends
    no informational (1xx) status, the wrapped writer ends in the same state as
    if the handler had written to it directly: same status, headers and body,
    whatever the content type, size and number of writes.  The two conditions
    are needed: a header set later reaches the client only through the capturing
    writer ([late_header_differs]), and an informational status makes it swallow
    the final one ([informational_swallows]). *)
Theorem capture_transparent (pt : string → option Z) (ops : list WOp)
    (Hfirst : headers_first false ops = true) :
  wrun w0 (finish pt (cw_run ops)).2 = wrun w0 ops.
Proof.
  apply finish_rel. apply (rel_run ops newCapture w0 false); [|done|done].
  by apply rel_open.
Qed.

(** ** Token accounting *)

Lemma strlen_app s t : strlen (s +:+ t) = strlen s + strlen t.
Proof. unfold strlen. rewrite app_length. lia. Qed.

Lemma strlen_nonneg s : 0 ≤ strlen s.
Proof. unfold strlen. lia. Qed.

(** Once the header is written, status and mode are fixed. *)
Lemma cw_step_fixed cw op :
  cw_wroteHeader cw = true →
  cw_wroteHeader (cw_step cw op) = true ∧ cw_mode (cw_step cw op) = cw_mode cw ∧
  cw_status (cw_step cw op) = cw_status cw.
Proof.
  intros Hw. destruct op; simpl; unfold cw_Write, cw_WriteHeader, cw_Flush; rewrite ?Hw; auto.
  - repeat (case_match; simpl); auto.
  - destruct (cw_mode cw) eqn:Em; simpl; auto.
Qed.

Lemma cw_run_fixed ops cw :
  cw_wroteHeader cw = true →
  cw_wroteHeader (foldl cw_step cw ops) = true ∧ cw_mode (foldl cw_step cw ops) = cw_mode cw ∧
  cw_status (foldl cw_step cw ops) = cw_status cw.
Proof.
  revert cw. induction ops as [|op ops IH]; intros cw Hw; [done|]. simpl.
  destruct (cw_step_fixed cw op Hw) as (Hw'&<-&<-). by apply IH.
Qed.

(** The buffer holds the whole body as long as it fits. *)
Lemma cw_run_buffer ops cw :
  cw_wroteHeader cw = true → cw_mode cw = modeBuffer → cw_exceededLimit cw = false →
  strlen (cw_buf cw) ≤ captureBodyLimit →
  let cw' := foldl cw_step cw ops in
  if strlen (cw_buf cw) + strlen (body_of ops) <=? captureBodyLimit
  then cw_exceededLimit cw' = false ∧ cw_buf cw' = cw_buf cw +:+ body_of ops
  else cw_exceededLimit cw' = true.
Proof.
  assert (∀ ops cw, cw_wroteHeader cw = true → cw_mode cw = modeBuffer → cw_exceededLimit cw = true →
    cw_exceededLimit (foldl cw_step cw ops) = true) as Hstuck.
  { clear ops cw. intros ops. induction ops as [|op ops IH]; intros cw Hw Hm He; [done|]. simpl.
    destruct (cw_step_fixed cw op Hw) as (Hw'&Hm'&_). apply IH; [done|congruence|].
    destruct op; simpl; unfold cw_Write, cw_WriteHeader, cw_Flush; rewrite ?Hw, ?Hm, ?He; done. }
  revert cw. induction ops as [|op ops IH]; intros cw Hw Hm He Hlen; simpl.
  { replace (strlen (cw_buf cw) + strlen "") with (strlen (cw_buf cw)) by (unfold strlen; simpl; lia).
    rewrite (proj2 (Z.leb_le _ _)) by done. by rewrite app_nil_r_str. }
  destruct (cw_step_fixed cw op Hw) as (Hw'&Hm'&_). rewrite Hm in Hm'.
  destruct op as [k v|st|b|].
  - exact (IH (cw_step cw (OSet k v)) Hw' Hm' He Hlen).
  - simpl. unfold cw_WriteHeader. rewrite Hw. by apply IH.
  - rewrite strlen_app. pose proof (strlen_nonneg (body_of ops)) as Hnn.
    simpl in *. unfold cw_Write in *. unfold cw_WriteHeader in *. rewrite Hw, Hm, He in *.
    destruct (Z.ltb_spec captureBodyLimit (strlen (cw_buf cw) + strlen b)).
    + rewrite (proj2 (Z.leb_gt _ _)) by lia. by apply Hstuck.
    + specialize (IH _ Hw' Hm' eq_refl). simpl in IH. rewrite strlen_app in IH.
      specialize (IH ltac:(lia)). rewrite <-Z.add_assoc in IH. by rewrite app_assoc_str in IH.
  - simpl. unfold cw_Flush. rewrite Hm. by apply IH.
Qed.

Definition recorded_spec (pt : string → option Z) (st : Z) (h : gmap string string) (body : string)
    (n : Z) : Prop :=
  HasPrefix (Header_Get h "Content-Type") "application/json" = true ∧ 200 ≤ st < 300 ∧
  body ≠ "" ∧ strlen body ≤ captureBodyLimit ∧ pt body = Some n ∧ 0 < n.

Lemma json_not_stream ct :
  HasPrefix ct "application/json" = true → HasPrefix ct "text/event-stream" = false.
Proof.
  rewrite HasPrefix_true. intros [t ->]. by destruct t.
Qed.

(** Tokens recorded after the header was written with status [st] while the
    headers were [h]. *)
Lemma finish_after pt cw ops st h n :
  cw_wroteHeader cw = true → cw_status cw = st → cw_exceededLimit cw = false → cw_buf cw = "" →
  (cw_mode cw = modeBuffer ↔ HasPrefix (Header_Get h "Content-Type") "application/json" = true) →
  (finish pt (foldl cw_step cw ops)).1 = Some n ↔ recorded_spec pt st h (body_of ops) n.
Proof.
  intros Hw Hst He Hb Hmode. destruct (cw_run_fixed ops cw Hw) as (Hw'&Hm'&Hs').
  unfold finish, recorded_spec. rewrite Hw', Hm', Hs', Hst, <-Hmode. simpl.
  case_bool_decide as Hm; simpl; [|naive_solver].
  pose proof (cw_run_buffer ops cw Hw Hm He ltac:(by rewrite Hb)) as Hbuf.
  rewrite Hb in Hbuf. simpl in Hbuf. change (strlen "") with 0 in Hbuf. rewrite Z.add_0_l in Hbuf.
  destruct (Z.leb_spec (strlen (body_of ops)) captureBodyLimit) as [Hle|Hgt].
  2:{ rewrite Hbuf. cbn [negb]. rewrite andb_false_r. simpl. split; [done|]. intros (_&_&_&?&_). lia. }
  destruct Hbuf as [-> ->]. cbn [negb]. change ("" +:+ body_of ops) with (body_of ops). rewrite andb_true_r.
  destruct (0 <? strlen (body_of ops)) eqn:Epos.
  2:{ rewrite andb_false_r. apply strlen_nil in Epos. rewrite Epos. naive_solver. }
  assert (body_of ops ≠ "") by (intros E; by rewrite E in Epos). rewrite andb_true_r.
  destruct (Z.leb_spec 200 st), (Z.ltb_spec st 300); simpl;
    try (split; [done|]; intros (_&?&_); lia).
  destruct (pt (body_of ops)) as [m|]; [|naive_solver].
  destruct (Z.ltb_spec 0 m); split; try done; try naive_solver lia.
Qed.

Lemma decideMode_json cw :
  decideMode cw = modeBuffer ↔
  HasPrefix (Header_Get (w_hdr (wrun w0 (cw_out cw))) "Content-Type") "application/json" = true.
Proof.
  unfold decideMode. set (ct := Header_Get _ _). split.
  - by repeat case_match.
  - intros H. by rewrite (json_not_stream ct H), H.
Qed.

Lemma records_usage (pt : string → option Z) (ops : list WOp) (n : Z) :
  (finish pt (cw_run ops)).1 = Some n ↔
  ∃ st h, first_status ops w0 = Some (st, h) ∧ recorded_spec pt st h (body_of ops) n.
Proof.
  unfold cw_run. change (first_status ops w0) with (first_status ops (wrun w0 (cw_out newCapture))).
  assert (cw_wroteHeader newCapture = false ∧ cw_mode newCapture = modeUndecided ∧
    cw_exceededLimit newCapture = false ∧ cw_buf newCapture = "") as Hopen by done.
  generalize dependent newCapture. induction ops as [|op ops IH]; intros cw (Hw&Hm&He&Hb).
  { simpl. unfold finish. rewrite Hw. simpl. split; [done|]. by intros (?&?&?&_). }
  assert (∀ st, let cw1 := cw_WriteHeader st cw in cw_wroteHeader cw1 = true ∧ cw_status cw1 = st ∧
    cw_exceededLimit cw1 = false ∧ cw_buf cw1 = "" ∧ (cw_mode cw1 = modeBuffer ↔
      HasPrefix (Header_Get (w_hdr (wrun w0 (cw_out cw))) "Content-Type") "application/json" = true)) as Hwh.
  { intros st. pose proof (decideMode_json cw) as Hd. unfold cw_WriteHeader. rewrite Hw. simpl.
    destruct (decideMode cw) eqn:Ed; simpl; split_and!; try done; naive_solver. }
  destruct op as [k v|st|b|].
  - specialize (IH (cw_step cw (OSet k v))). simpl in IH. rewrite wrun_snoc in IH. by apply IH.
  - destruct (Hwh st) as (Hw1&Hs1&He1&Hb1&Hm1). simpl foldl. simpl first_status.
    rewrite (finish_after _ _ _ _ _ _ Hw1 Hs1 He1 Hb1 Hm1). simpl. naive_solver.
  - destruct (Hwh 200) as (Hw1&Hs1&He1&Hb1&Hm1). simpl first_status.
    pose proof (finish_after pt _ (OWrite b :: ops) _ _ n Hw1 Hs1 He1 Hb1 Hm1) as Hf.
    replace (foldl cw_step cw (OWrite b :: ops)) with
      (foldl cw_step (cw_WriteHeader 200 cw) (OWrite b :: ops)).
    { rewrite Hf. split; [eauto|]. by intros (?&?&[= <- <-]&?). }
    assert (∀ c, cw_wroteHeader c = true → cw_WriteHeader 200 c = c) as Hidem
      by (intros c Hc; unfold cw_WriteHeader; by rewrite Hc).
    simpl. unfold cw_Write. by rewrite (Hidem _ Hw1).
  - assert (cw_step cw OFlush = under [OFlush] cw) as Hf by (simpl; unfold cw_Flush; by rewrite Hm).
    specialize (IH (under [OFlush] cw)). simpl in IH. rewrite wrun_snoc in IH.
    cbn [foldl]. rewrite Hf. by apply IH.
Qed.

(** Token accounting.  [RecordTokens] is called with [n] exactly when the
    handler answered with a 2xx status and a JSON content type, wrote a
    non-empty body of at most 1 MiB, and [n > 0] is the usage total that the
    complete body parses to: not for streams, errors or oversized bodies, and
    never for a partial body. *)
Theorem capture_records_usage (pt : string → option Z) (ops : list WOp) (n : Z) :
  (finish pt (cw_run ops)).1 = Some n ↔
  ∃ st h, first_status ops w0 = Some (st, h) ∧ recorded_spec pt st h (body_of ops) n.
Proof. apply records_usage. Qed.
End Capture.

(** ** Witness and examples *)

Definition demo_ops : list WOp :=
  [OSet "Content-Type" "application/json"; OStatus 200; OWrite "{usage"; OWrite "}"].

Lemma capture_transparent_witness :
  response (wrun new_writer (finish (λ _, Some 7) (cw_run new_writer demo_ops)).2) =
    (200, {[ "Content-Type" := "application/json" ]}, "{usage}").
Proof.
  rewrite (capture_transparent new_writer (λ _, Some 7) demo_ops); vm_compute; reflexivity.
Defined.

Example demo_capture :
  finish (λ b, if bool_decide (b = "{usage}") then Some 7 else None)
    (cw_run new_writer demo_ops) =
  (Some 7, [OSet "Content-Type" "application/json"; OStatus 200; OWrite "{usage}"]).
Proof. vm_compute. reflexivity. Qed.

(** A header set after the status was written reaches the client only through
    the capturing writer. *)
Example late_header_differs :
  let ops := [OSet "Content-Type" "application/json"; OStatus 200; OSet "X-Late" "1"; OWrite "x"] in
  response (wrun new_writer ops) ≠
  response (wrun new_writer (finish (λ _, None) (cw_run new_writer ops)).2).
Proof. cbv zeta. intros E. apply (f_equal (λ x, x.1.2 !! "X-Late")) in E. vm_compute in E. discriminate. Qed.

(** [WriteHeader] of an informational status is taken for the final one: the
    error the handler answers afterwards arrives as a success. *)
Example informational_swallows :
  let ops := [OStatus 103; OSet "Content-Type" "application/json"; OStatus 404; OWrite "{}"] in
  (response (wrun new_writer ops)).1.1 = 404 ∧
  (response (wrun new_writer (finish (λ _, None) (cw_run new_writer ops)).2)).1.1 = 200.
Proof. vm_compute. split; reflexivity. Qed.
