(* ===== verification/Middleware.v ===== *)
(** * HTTP middleware

    Models src/internal/middleware: the request-scoped [RequestInfo]
    (context.go), API-key and admin-token authentication (auth.go), rate
    limiting (ratelimit.go, with the writer of [Capture]), the access log
    (logging.go), request metrics (metrics.go) and debug body logging
    (debug_bodies.go).

    A handler is a function from the request, the request-scoped observations
    [Obs] (the shared [*RequestInfo], the metrics and log lines emitted) and
    the state [S] of the gateway to the operations it performs on its response
    writer, the observations and the state afterwards.  A middleware maps a
    handler to a handler. *)

From S2P Require Import Prelude GoStrings Float64 Model Metrics Redis RateLimit Auth Http.
From S2P Require Import Capture.
From Stdlib Require Import Ascii.
Local Open Scope Z_scope.

(** ** Requests and observations *)

(** [r.Body]: nil or [http.NoBody], or a reader that yields [data] and then
    the end of the body or an error. *)
Inductive Body :=
| NoBody
| Reader (data : string) (err : option string).

Record Req := mkReq {
  r_Method : string;
  r_Path : string;
  r_Authorization : string;
  r_Body : Body;
  r_Key : option KeyInfo;
}.

Definition with_key (info : KeyInfo) (r : Req) : Req :=
  {| r_Method := r_Method r; r_Path := r_Path r; r_Authorization := r_Authorization r;
     r_Body := r_Body r; r_Key := WithKeyInfo info (r_Key r) |}.

Definition with_body (b : Body) (r : Req) : Req :=
  {| r_Method := r_Method r; r_Path := r_Path r; r_Authorization := r_Authorization r;
     r_Body := b; r_Key := r_Key r |}.

Record RequestInfo := mkRequestInfo {
  ri_OrgID : string;
  ri_KeyID : string;
  ri_Model : string;
  ri_Provider : string;
  ri_Strategy : string;
  ri_Group : string;
  ri_PromptTokens : Z;
  ri_CompletionTokens : Z;
  ri_RateLimited : bool;
}.

Definition zero_info : RequestInfo :=
  {| ri_OrgID := ""; ri_KeyID := ""; ri_Model := ""; ri_Provider := ""; ri_Strategy := "";
     ri_Group := ""; ri_PromptTokens := 0; ri_CompletionTokens := 0; ri_RateLimited := false |}.

Inductive AttrVal := AStr (s : string) | AInt (z : Z) | ABool (b : bool) | AFloat (f : f64).
Definition Attr : Type := string * AttrVal.

Inductive Level := Debug | Info | Warn | LError.

Record LogLine := mkLogLine {
  ll_level : Level;
  ll_msg : string;
  ll_attrs : list Attr;
}.

(** [ob_info]: the [*RequestInfo] of the context, [None] when none is
    attached. *)
Record Obs := mkObs {
  ob_info : option RequestInfo;
  ob_metrics : list MetricEvent;
  ob_log : list LogLine;
}.

Definition emit (ms : list MetricEvent) (o : Obs) : Obs :=
  {| ob_info := ob_info o; ob_metrics := ob_metrics o ++ ms; ob_log := ob_log o |}.
Definition log (l : Level) (msg : string) (attrs : list Attr) (o : Obs) : Obs :=
  {| ob_info := ob_info o; ob_metrics := ob_metrics o; ob_log := ob_log o ++ [mkLogLine l msg attrs] |}.
Definition on_info (f : RequestInfo → RequestInfo) (o : Obs) : Obs :=
  {| ob_info := f <$> ob_info o; ob_metrics := ob_metrics o; ob_log := ob_log o |}.

Definition Handler (S : Type) : Type := Req → Obs → S → list WOp * Obs * S.

(** ** context.go *)

Definition WithRequestInfo (info : RequestInfo) (o : Obs) : Obs :=
  {| ob_info := Some info; ob_metrics := ob_metrics o; ob_log := ob_log o |}.

Definition SetOrgKey (orgID keyID : string) : Obs → Obs := on_info (λ i,
  {| ri_OrgID := orgID; ri_KeyID := keyID; ri_Model := ri_Model i; ri_Provider := ri_Provider i;
     ri_Strategy := ri_Strategy i; ri_Group := ri_Group i; ri_PromptTokens := ri_PromptTokens i;
     ri_CompletionTokens := ri_CompletionTokens i; ri_RateLimited := ri_RateLimited i |}).

Definition SetModel (model : string) : Obs → Obs := on_info (λ i,
  {| ri_OrgID := ri_OrgID i; ri_KeyID := ri_KeyID i; ri_Model := model; ri_Provider := ri_Provider i;
     ri_Strategy := ri_Strategy i; ri_Group := ri_Group i; ri_PromptTokens := ri_PromptTokens i;
     ri_CompletionTokens := ri_CompletionTokens i; ri_RateLimited := ri_RateLimited i |}).

Definition SetProvider (provider : string) : Obs → Obs := on_info (λ i,
  {| ri_OrgID := ri_OrgID i; ri_KeyID := ri_KeyID i; ri_Model := ri_Model i; ri_Provider := provider;
     ri_Strategy := ri_Strategy i; ri_Group := ri_Group i; ri_PromptTokens := ri_PromptTokens i;
     ri_CompletionTokens := ri_CompletionTokens i; ri_RateLimited := ri_RateLimited i |}).

Definition SetTokens (prompt completion : Z) : Obs → Obs := on_info (λ i,
  {| ri_OrgID := ri_OrgID i; ri_KeyID := ri_KeyID i; ri_Model := ri_Model i;
     ri_Provider := ri_Provider i; ri_Strategy := ri_Strategy i; ri_Group := ri_Group i;
     ri_PromptTokens := prompt; ri_CompletionTokens := completion;
     ri_RateLimited := ri_RateLimited i |}).

Definition SetStrategy (strategy : string) : Obs → Obs := on_info (λ i,
  {| ri_OrgID := ri_OrgID i; ri_KeyID := ri_KeyID i; ri_Model := ri_Model i;
     ri_Provider := ri_Provider i; ri_Strategy := strategy; ri_Group := ri_Group i;
     ri_PromptTokens := ri_PromptTokens i; ri_CompletionTokens := ri_CompletionTokens i;
     ri_RateLimited := ri_RateLimited i |}).

Definition SetGroup (group : string) : Obs → Obs := on_info (λ i,
  {| ri_OrgID := ri_OrgID i; ri_KeyID := ri_KeyID i; ri_Model := ri_Model i;
     ri_Provider := ri_Provider i; ri_Strategy := ri_Strategy i; ri_Group := group;
     ri_PromptTokens := ri_PromptTokens i; ri_CompletionTokens := ri_CompletionTokens i;
     ri_RateLimited := ri_RateLimited i |}).

Definition MarkRateLimited : Obs → Obs := on_info (λ i,
  {| ri_OrgID := ri_OrgID i; ri_KeyID := ri_KeyID i; ri_Model := ri_Model i;
     ri_Provider := ri_Provider i; ri_Strategy := ri_Strategy i; ri_Group := ri_Group i;
     ri_PromptTokens := ri_PromptTokens i; ri_CompletionTokens := ri_CompletionTokens i;
     ri_RateLimited := true |}).

(** ** auth.go *)

Definition bearerToken (header : string) : option string :=
  let header := TrimSpace header in
  let prefix := "bearer " in
  if (String.length header <=? String.length prefix)%nat
     || negb (EqualFold (str_take (String.length prefix) header) prefix) then None
  else
    let token := TrimSpace (str_drop (String.length prefix) header) in
    if bool_decide (token = "") then None else Some token.

Section Auth.
Context (encode : Payload → string) {S : Type}.

Definition writeAuthError (msg : string) : list WOp :=
  apierr_Write encode 401 "authentication_error" "invalid_api_key" msg.

(** [auth.Authenticator]. *)
Definition Authenticator : Type := string → S → (autherr + KeyInfo) * S.

Definition RequireAPIKey (a : Authenticator) (next : Handler S) : Handler S := λ r o s,
  let header := r_Authorization r in
  if bool_decide (TrimSpace header = "") then
    (writeAuthError "Missing or malformed Authorization header.", emit (RecordAuthFailure "missing") o, s)
  else match bearerToken header with
  | None =>
      (writeAuthError "Missing or malformed Authorization header.",
       emit (RecordAuthFailure "malformed") o, s)
  | Some token =>
      match a token s with
      | (inl ErrInvalidKey, s) =>
          (writeAuthError "Invalid API key.", emit (RecordAuthFailure "unknown") o, s)
      | (inl (EBackend _), s) =>
          (apierr_Write encode 503 "internal_error" "internal_error" "authentication backend unavailable",
           log LError "auth lookup failed" [] o, s)
      | (inr info, s) =>
          next (with_key info r) (SetOrgKey (OrgID info) (KeyID info) o) s
      end
  end.

(** [subtle.ConstantTimeCompare] returns 1 exactly on equal contents. *)
Definition RequireAdminToken (expected : string) (next : Handler S) : Handler S := λ r o s,
  let header := r_Authorization r in
  if bool_decide (TrimSpace header = "") then
    (writeAuthError "Invalid admin token.", emit (RecordAuthFailure "missing") o, s)
  else match bearerToken header with
  | None => (writeAuthError "Invalid admin token.", emit (RecordAuthFailure "malformed") o, s)
  | Some token =>
      if (String.length expected =? 0)%nat || negb (bool_decide (token = expected)) then
        (writeAuthError "Invalid admin token.", emit (RecordAuthFailure "unknown") o, s)
      else next r o s
  end.
End Auth.

(** ** ratelimit.go *)

Definition failOpenWarnInterval : Z := 5 * Second.

Definition clampNonNegative (n : Z) : Z := if n <? 0 then 0 else n.

Definition roundDurationToSecond (d : Z) : Z :=
  if d <=? 0 then 0
  else
    let secs := Z.quot d Second in
    let secs := if negb (Z.rem d Second =? 0) then wrap64 (secs + 1) else secs in
    wrap64 (secs * Second).

(** [time.Duration.String]: [frac n digits] is the decimal fraction [n] /
    10^[digits] without trailing zeros, [""] when it is zero. *)
Fixpoint frac (digits : nat) (n : Z) : string :=
  match digits with
  | O => ""
  | S d =>
      if n =? 0 then ""
      else
        let p := 10 ^ Z.of_nat d in
        Itoa (n / p) +:+ frac d (n `mod` p)
  end.
Definition with_frac (whole : Z) (digits : nat) (n : Z) : string :=
  Itoa whole +:+ (if n =? 0 then "" else "." +:+ frac digits n).

Definition Duration_String (d : Z) : string :=
  let u := Z.abs d in
  let sign := if d <? 0 then "-" else "" in
  if u =? 0 then "0s"
  else sign +:+
    if u <? 1000 then Itoa u +:+ "ns"
    else if u <? 1000000 then with_frac (u / 1000) 3 (u `mod` 1000) +:+ bytes [194; 181; 115]%N
    else if u <? Second then with_frac (u / 1000000) 6 (u `mod` 1000000) +:+ "ms"
    else
      let secs := u / Second in
      let s := with_frac (secs `mod` 60) 9 (u `mod` Second) +:+ "s" in
      let mins := secs / 60 in
      if mins =? 0 then s
      else
        let m := Itoa (mins `mod` 60) +:+ "m" in
        let hours := mins / 60 in
        if hours =? 0 then m +:+ s else Itoa hours +:+ "h" +:+ m +:+ s.

Definition setRateLimitHeaders (res : Reservation) : list WOp :=
  (if 0 <? Limit res then
     [OSet "X-RateLimit-Limit-Requests" (Itoa (Limit res));
      OSet "X-RateLimit-Remaining-Requests" (Itoa (clampNonNegative (Remaining res)));
      OSet "X-RateLimit-Reset-Requests" (Duration_String (roundDurationToSecond (Reset_ res)))]
   else []) ++
  (if 0 <? TpmLimit res then
     [OSet "X-RateLimit-Limit-Tokens" (Itoa (TpmLimit res));
      OSet "X-RateLimit-Remaining-Tokens" (Itoa (clampNonNegative (TpmRemaining res)));
      OSet "X-RateLimit-Reset-Tokens" (Duration_String (roundDurationToSecond (TpmReset res)))]
   else []).

(** The [ratelimit.Reserver] interface and the [rateLimitState] on the state
    [S]. *)
Record Reserver (S : Type) := mkReserver {
  rv_Reserve : KeyInfo → S → (string + Reservation) * S;
  rv_RecordTokens : KeyInfo → Z → S → option string * S;
  rv_lastWarn : S → Z;
  rv_setLastWarn : Z → S → S;
}.
Arguments mkReserver {S}.
Arguments rv_Reserve {S}.
Arguments rv_RecordTokens {S}.
Arguments rv_lastWarn {S}.
Arguments rv_setLastWarn {S}.

Section RateLimit.
Context (encode : Payload → string) (parse_total : string → option Z) {S : Type} (rv : Reserver S).

(** [now] is the clock read here; [racer] the value another goroutine stored
    between the load and the compare-and-swap, if one did. *)
Definition warnFailOpen (now : Z) (racer : option Z) (err : string) (o : Obs) (s : S) : Obs * S :=
  let prev := rv_lastWarn rv s in
  if negb (prev =? 0) && (wrap64 (now - prev) <? failOpenWarnInterval) then (o, s)
  else match racer with
  | Some v => (o, rv_setLastWarn rv v s)
  | None =>
      (log Warn "rate limiter fail-open: redis error" [("err", AStr err)] o, rv_setLastWarn rv now s)
  end.

(** [w] is the state of the response writer on entry. *)
Definition rl_serve (warn_now : Z) (racer : option Z) (w : Writer) (next : Handler S) : Handler S :=
  λ r o s,
  match KeyInfoFromContext (r_Key r) with
  | None => next r o s
  | Some info =>
      match rv_Reserve rv info s with
      | (inl err, s) =>
          let '(o, s) := warnFailOpen warn_now racer err (emit (RecordRateLimit "failopen") o) s in
          next r o s
      | (inr res, s) =>
          let hdrs := setRateLimitHeaders res in
          if negb (Allowed res) then
            (hdrs ++ WriteRateLimit encode (RetryAfter res) "",
             MarkRateLimited (emit (RecordRateLimit "throttled") o), s)
          else
            let '(ops, o, s) := next r (emit (RecordRateLimit "allowed") o) s in
            let '(record, out) := finish parse_total (cw_run (wrun w hdrs) ops) in
            match record with
            | Some n =>
                match rv_RecordTokens rv info n s with
                | (None, s) => (hdrs ++ out, o, s)
                | (Some e, s) =>
                    (hdrs ++ out,
                     log Debug "rate limiter: failed to record tokens" [("err", AStr e)] o, s)
                end
            | None => (hdrs ++ out, o, s)
            end
      end
  end.
End RateLimit.

(** [RateLimit]: a nil reserver gives the identity middleware. *)
Definition RateLimit {S} (encode : Payload → string) (parse_total : string → option Z)
    (rv : option (Reserver S)) (warn_now : Z) (racer : option Z) (w : Writer) (next : Handler S)
    : Handler S :=
  match rv with
  | None => next
  | Some rv => rl_serve encode parse_total rv warn_now racer w next
  end.

(** ** logging.go *)

Definition appendRequestInfoAttrs (attrs : list Attr) (info : option RequestInfo) : list Attr :=
  match info with
  | None => attrs
  | Some i =>
      let str k v := if bool_decide (v = "") then [] else [(k, AStr v)] in
      attrs ++ str "org_id" (ri_OrgID i) ++ str "key_id" (ri_KeyID i) ++ str "model" (ri_Model i) ++
      str "provider" (ri_Provider i) ++ str "strategy" (ri_Strategy i) ++ str "group" (ri_Group i) ++
      (if (0 <? ri_PromptTokens i) || (0 <? ri_CompletionTokens i) then
         [("prompt_tokens", AInt (ri_PromptTokens i));
          ("completion_tokens", AInt (ri_CompletionTokens i));
          ("total_tokens", AInt (wrap64 (ri_PromptTokens i + ri_CompletionTokens i)))]
       else []) ++
      (if ri_RateLimited i then [("rate_limited", ABool true)] else [])
  end.

Section Outer.
(** chi's [WrapResponseWriter]: what [Status] and [BytesWritten] report after
    the handler's operations. *)
Context (ww_Status ww_Bytes : list WOp → Z) {S : Type}.

(** [elapsed] is [time.Since(start)] when the handler has returned. *)
Definition RequestLogger (reqID : string) (elapsed : Z) (next : Handler S) : Handler S := λ r o s,
  let o := WithRequestInfo zero_info o in
  let '(ops, o, s) := next r o s in
  let pre := if bool_decide (reqID = "") then [] else [OSet "X-Request-Id" reqID] in
  let attrs :=
    [("method", AStr (r_Method r)); ("path", AStr (r_Path r)); ("status", AInt (ww_Status ops));
     ("duration_ms", AFloat (f64_div (f64_of_Z (Z.quot elapsed 1000)) (f64_of_Z 1000)));
     ("bytes", AInt (ww_Bytes ops))] in
  (pre ++ ops, log Info "request completed" (appendRequestInfoAttrs attrs (ob_info o)) o, s).

(** ** metrics.go *)

(** [pattern] is the matched chi route pattern, [""] when none matched. *)
Definition Observe (pattern : string) (elapsed : Z) (next : Handler S) : Handler S := λ r o s,
  let '(ops, o, s) := next r o s in
  let pathTemplate := if bool_decide (pattern = "") then "unknown" else pattern in
  let status := ww_Status ops in
  let status := if status =? 0 then 200 else status in
  (ops, emit (RecordRequest (r_Method r) pathTemplate status elapsed) o, s).
End Outer.

(** ** debug_bodies.go *)

Definition defaultDebugBodyLimit : nat := N.to_nat (2 ^ 20).

(** [io.ReadFull(body, buf)] with a buffer of [n] bytes: the bytes read, and
    whether the buffer was filled, the body ended, or reading failed. *)
Inductive ReadRes := ReadFilled | ReadEOF | ReadErr (err : string).
Definition ReadFull (n : nat) (data : string) (err : option string) : string * ReadRes :=
  if (n <=? String.length data)%nat then (str_take n data, ReadFilled)
  else (data, match err with None => ReadEOF | Some e => ReadErr e end).

(** [debug]: the logger emits DEBUG lines.  [limit] is at most 0 for the
    default. *)
Definition DebugRequestBodies {S} (limit : Z) (debug : bool) (next : Handler S) : Handler S := λ r o s,
  let limit := if limit <=? 0 then defaultDebugBodyLimit else Z.to_nat limit in
  if negb debug then next r o s
  else match r_Body r with
  | NoBody => next r o s
  | Reader data err =>
      match ReadFull (limit + 1) data err with
      | (_, ReadErr e) =>
          next (with_body (Reader "" None) r) (log Debug "http body read failed" [("err", AStr e)] o) s
      | (consumed, res) =>
          let truncated := match res with ReadFilled => true | _ => false end in
          let logged := if truncated then str_take limit consumed else consumed in
          let attrs := [("path", AStr (r_Path r)); ("len", AInt (strlen logged)); ("body", AStr logged)] ++
            (if truncated then [("truncated", ABool true)] else []) in
          let o := log Debug "http body" attrs o in
          let restored :=
            if truncated then Reader (consumed +:+ str_drop (limit + 1) data) err
            else Reader consumed None in
          next (with_body restored r) o s
      end
  end.
