(* ===== verification/MiddlewareProps.v ===== *)
(** * What the middleware guarantees

    Gates: a handler behind [RequireAPIKey], [RequireAdminToken] or
    [RateLimit] runs exactly when it should, and otherwise the client gets the
    documented error and the handler has no influence.  Also: bearer tokens,
    throttling of the fail-open warning, preservation of request bodies. *)

From stdpp Require Import sorting.
From S2P Require Import Prelude GoStrings Float64 Model Metrics Redis RateLimit Auth Http.
From S2P Require Import Capture Middleware.
From Stdlib Require Import Ascii.
Local Open Scope Z_scope.

(** ** Bearer tokens *)

(** Printable ASCII without the space. *)
Definition visible (a : ascii) : bool :=
  (33 <=? Z.of_N (N_of_ascii a)) && (Z.of_N (N_of_ascii a) <=? 126).

Fixpoint spaces (n : nat) : string := match n with O => "" | S n => String " " (spaces n) end.

Lemma cut_any_visible a s : visible a = true → cut_any space_runes (String a s) = None.
Proof.
  destruct a as [[] [] [] [] [] [] [] []]; intros H; try discriminate H; reflexivity.
Qed.

Lemma cut_any_rev_visible a s : visible a = true → cut_any (String.rev <$> space_runes) (String a s) = None.
Proof.
  destruct a as [[] [] [] [] [] [] [] []]; intros H; try discriminate H; reflexivity.
Qed.

Lemma spaces_app_space n s : spaces n +:+ String " " s = String " " (spaces n +:+ s).
Proof. induction n as [|n IH]; [done|]. simpl. change (String " " (spaces n +:+ String " " s) = String " " (String " " (spaces n +:+ s))). by rewrite IH. Qed.
Lemma rev_spaces n : String.rev (spaces n) = spaces n.
Proof.
  induction n as [|n IH]; [done|]. simpl. rewrite rev_cons, IH, spaces_app_space. by rewrite app_nil_r_str.
Qed.

(** Trimming stops at a visible character. *)
Definition starts_visible (s : string) : Prop := ∃ a t, s = String a t ∧ visible a = true.

Lemma trim_front_spaces ps n s fuel :
  (∀ t, cut_any ps (String " " t) = Some t) → (∀ a t, visible a = true → cut_any ps (String a t) = None) →
  starts_visible s → (n ≤ fuel)%nat → trim_front ps fuel (spaces n +:+ s) = s.
Proof.
  intros Hsp Hvis (a&t&->&Ha). revert fuel. induction n as [|n IH]; intros fuel Hf.
  - destruct fuel; [done|]. simpl. change ("" +:+ String a t) with (String a t). by rewrite Hvis.
  - destruct fuel as [|fuel]; [lia|]. simpl.
    change (String " " (spaces n) +:+ String a t) with (String " " (spaces n +:+ String a t)).
    rewrite Hsp. apply IH. lia.
Qed.

Lemma spaces_length n : String.length (spaces n) = n.
Proof. induction n; simpl; congruence. Qed.

Lemma TrimSpace_spaces n m s :
  starts_visible s → starts_visible (String.rev s) →
  TrimSpace (spaces n +:+ s +:+ spaces m) = s.
Proof.
  intros Hs Hr. unfold TrimSpace, TrimLeftSpace.
  rewrite trim_front_spaces.
  - unfold TrimRightSpace. rewrite rev_app, rev_spaces.
    rewrite trim_front_spaces; [apply rev_rev|done|apply cut_any_rev_visible|done|].
    rewrite app_length, spaces_length. lia.
  - done.
  - apply cut_any_visible.
  - destruct Hs as (a&t&->&Ha). by exists a, (t +:+ spaces m).
  - rewrite app_length, spaces_length. lia.
Qed.

Lemma visible_ends s :
  s ≠ "" → str_all visible s = true → starts_visible s ∧ starts_visible (String.rev s).
Proof.
  intros Hne Hv. assert (∀ s, str_all visible (String.rev s) = str_all visible s) as Hrev.
  { clear. induction s as [|a s IH]; [done|]. rewrite rev_cons, str_all_app, IH, str_all_cons.
    rewrite str_all_cons. simpl. rewrite andb_true_r. apply andb_comm. }
  assert (∀ s, s ≠ "" → str_all visible s = true → starts_visible s) as Hst.
  { clear. intros [|a s] ? H; [done|]. rewrite str_all_cons in H.
    apply andb_true_iff in H as [Ha _]. by exists a, s. }
  split; apply Hst; try done.
  - intros E. apply (f_equal String.length) in E. rewrite rev_length in E. by destruct s.
  - by rewrite Hrev.
Qed.

Lemma ToLower_length s : String.length (ToLower s) = String.length s.
Proof. unfold ToLower. induction s; simpl; congruence. Qed.

Lemma str_take_app s t : str_take (String.length s) (s +:+ t) = s.
Proof. induction s as [|a s IH]; simpl; [by destruct t|]. f_equal. exact IH. Qed.
Lemma str_drop_app s t : str_drop (String.length s) (s +:+ t) = t.
Proof. induction s as [|a s IH]; simpl; [by destruct t|]. exact IH. Qed.

Lemma bearer_visible scheme : ToLower scheme = "bearer" → str_all visible scheme = true.
Proof.
  assert (∀ a c, to_lower a = c → visible c = true → visible a = true) as Hlow.
  { intros a c <-. destruct a as [[] [] [] [] [] [] [] []]; intros H; try discriminate H; reflexivity. }
  assert (∀ s, str_all visible (ToLower s) = true → str_all visible s = true) as Hall.
  { induction s as [|a s IH]; [done|]. unfold ToLower. simpl str_map. rewrite !str_all_cons.
    intros [Ha Hs]%andb_true_iff. rewrite (Hlow a _ eq_refl Ha). by apply IH. }
  intros H. apply Hall. by rewrite H.
Qed.

(** The bearer header.  However it is padded with spaces and whatever the
    case of the scheme, a token of visible characters is recovered exactly; a
    header that only has the scheme yields no token. *)
Theorem bearer_token_roundtrip (scheme tok : string) (n k m : nat)
    (Hscheme : ToLower scheme = "bearer") (Htok : tok ≠ "") (Hvis : str_all visible tok = true) :
  bearerToken (spaces n +:+ (scheme +:+ " " +:+ spaces k +:+ tok) +:+ spaces m) = Some tok ∧
  bearerToken scheme = None.
Proof.
  destruct (visible_ends tok Htok Hvis) as [Hst Hre].
  assert (scheme ≠ "") as Hne by (by intros ->).
  destruct (visible_ends scheme Hne (bearer_visible _ Hscheme)) as [Hss Hsr].
  assert (String.length scheme = 6)%nat as Hlen by (by rewrite <-ToLower_length, Hscheme).
  assert (EqualFold (scheme +:+ " ") "bearer " = true) as Hfold.
  { unfold EqualFold. rewrite ToLower_app, Hscheme. reflexivity. }
  split.
  - unfold bearerToken. rewrite TrimSpace_spaces.
    2:{ destruct Hss as (a&t&->&Ha). by exists a, (t +:+ " " +:+ spaces k +:+ tok). }
    2:{ rewrite !rev_app, !app_assoc_str. destruct Hre as (b&u&->&Hb). by eexists b, _. }
    rewrite <-(app_assoc_str scheme " "). change (String.length "bearer ") with 7%nat.
    assert (String.length (scheme +:+ " ") = 7)%nat as H7 by (rewrite app_length, Hlen; done).
    rewrite <-H7. rewrite str_take_app, str_drop_app, Hfold.
    rewrite (proj2 (Nat.leb_gt _ _)); [|rewrite !app_length; destruct tok; simpl in *; [done|lia]].
    simpl. replace (spaces k +:+ tok) with (spaces k +:+ tok +:+ spaces 0) by (simpl; by rewrite app_nil_r_str).
    rewrite TrimSpace_spaces by done. by rewrite bool_decide_false.
  - unfold bearerToken. replace scheme with (spaces 0 +:+ scheme +:+ spaces 0)
      by (simpl; by rewrite app_nil_r_str).
    by rewrite TrimSpace_spaces, Hlen.
Qed.

Lemma bearer_token_roundtrip_witness :
  bearerToken "  BEARER   sk-gw-abc " = Some "sk-gw-abc" ∧ bearerToken "BEARER" = None.
Proof. apply (bearer_token_roundtrip "BEARER" "sk-gw-abc" 2 2 1); [reflexivity|discriminate|reflexivity]. Defined.

(** ** Authentication gates *)

Section Gates.
Context (encode : Payload → string) {S : Type}.

(** What a rejection by the API-key gate leaves behind: one auth-failure
    metric and the rest of the observations. *)
Definition auth_failure (reason : string) (o o' : Obs) : Prop :=
  ob_info o' = ob_info o ∧
  ob_metrics o' = ob_metrics o ++ [CounterInc "gateway_auth_failures_total" [reason]].

(** C22: the API-key gate.  The handler runs exactly when the header carries a
    bearer token that the authenticator accepts, with the identity attached to
    the request and to the access log; otherwise the outcome does not depend on
    the handler at all: a missing, malformed or rejected credential gives 401
    and exactly one auth-failure metric with that reason, a failing backend
    gives 503 and no metric; only the authenticator's own state changes. *)
Theorem api_key_gate (a : Authenticator) (r : Req) (o : Obs) (s : S) :
  match bearerToken (r_Authorization r) with
  | None => ∃ ops o', (∀ next, RequireAPIKey encode a next r o s = (ops, o', s)) ∧
      status_of ops = 401 ∧
      auth_failure (if bool_decide (TrimSpace (r_Authorization r) = "") then "missing" else "malformed") o o'
  | Some token =>
      match a token s with
      | (inr info, s') => ∀ next, RequireAPIKey encode a next r o s =
          next (with_key info r) (SetOrgKey (OrgID info) (KeyID info) o) s'
      | (inl e, s') => ∃ ops o', (∀ next, RequireAPIKey encode a next r o s = (ops, o', s')) ∧
          match e with
          | ErrInvalidKey => status_of ops = 401 ∧ auth_failure "unknown" o o'
          | EBackend _ => status_of ops = 503 ∧ ob_info o' = ob_info o ∧ ob_metrics o' = ob_metrics o
          end
      end
  end.
Proof.
  unfold RequireAPIKey. case_bool_decide as Ht.
  { unfold bearerToken. rewrite Ht. simpl. do 2 eexists. split; [done|]. split; [apply error_status|done]. }
  destruct (bearerToken _) as [token|].
  2:{ do 2 eexists. split; [done|]. split; [apply error_status|done]. }
  destruct (a token s) as [[[|e]|info] s']; [| |done];
    (do 2 eexists; split; [done|]; split; [apply error_status|done]).
Qed.

(** The admin gate.  The handler runs exactly when the configured token
    is not empty and the bearer token equals it; in particular an empty
    configured token rejects every request.  A rejection is a 401 with one
    auth-failure metric, leaves the state alone and does not depend on the
    handler. *)
Theorem admin_gate (expected : string) (r : Req) (o : Obs) (s : S) :
  if bool_decide (expected ≠ "" ∧ bearerToken (r_Authorization r) = Some expected)
  then ∀ next, RequireAdminToken encode expected next r o s = next r o s
  else ∃ ops o', status_of ops = 401 ∧ ob_info o' = ob_info o ∧
    (∃ reason, ob_metrics o' = ob_metrics o ++ [CounterInc "gateway_auth_failures_total" [reason]]) ∧
    ∀ next : Handler S, RequireAdminToken encode expected next r o s = (ops, o', s).
Proof.
  assert (∀ h, TrimSpace h = "" → bearerToken h = None) as Hempty.
  { intros h Hh. unfold bearerToken. by rewrite Hh. }
  unfold RequireAdminToken. case_bool_decide as Hok.
  - destruct Hok as [Hne Hb]. rewrite bool_decide_false by (intros ?%Hempty; congruence).
    rewrite Hb. rewrite bool_decide_true by done. by destruct expected.
  - assert (∀ reason, ∃ ops o', status_of ops = 401 ∧ ob_info o' = ob_info o ∧
      (∃ x, ob_metrics o' = ob_metrics o ++ [CounterInc "gateway_auth_failures_total" [x]]) ∧
      ∀ next : Handler S,
        (writeAuthError encode "Invalid admin token.", emit (RecordAuthFailure reason) o, s) = (ops, o', s))
      as Hrej.
    { intros reason. exists (writeAuthError encode "Invalid admin token."), (emit (RecordAuthFailure reason) o).
      split; [apply error_status|]. split; [done|]. split; [by exists reason|done]. }
    case_bool_decide as Ht; [apply Hrej|].
    destruct (bearerToken _) as [token|] eqn:Eb; [|apply Hrej].
    assert ((String.length expected =? 0)%nat || negb (bool_decide (token = expected)) = true) as ->.
    { destruct expected as [|c e]; [done|]. simpl. apply negb_true_iff, bool_decide_eq_false. naive_solver. }
    apply Hrej.
Qed.
End Gates.

(** ** The rate-limit gate *)

Section RateLimitGate.
Context (encode : Payload → string) (parse_total : string → option Z) {S : Type} (rv : Reserver S).

Lemma headers_only res w : w_sent (wrun w (setRateLimitHeaders res)) = w_sent w ∧
  w_body (wrun w (setRateLimitHeaders res)) = w_body w.
Proof. unfold setRateLimitHeaders. by destruct (0 <? Limit res), (0 <? TpmLimit res). Qed.

Lemma throttled_response w d msg :
  w_sent w = None → response (wrun w (WriteRateLimit encode d msg)) =
    (429, <["Content-Type" := "application/json"]> (<["Retry-After" := Itoa (retry_secs d)]> (w_hdr w)),
     w_body w +:+ encode (PError (mkAPIError (mkErrorDetail
       (if bool_decide (msg = "") then "Rate limit exceeded. Try again in " +:+ Itoa (retry_secs d) +:+ "s."
        else msg) "rate_limit_error" "rate_limit_exceeded")))).
Proof.
  intros Hs. unfold WriteRateLimit. change (wrun w (?x :: ?l)) with (wrun (wstep w x) l).
  by rewrite serve_error.
Qed.

(** C24: the rate-limit gate.  Without an identity the middleware is
    transparent; when the limiter fails the request is let through with the
    handler's own response, counted as fail-open, and at most the time of the
    last warning changes; a request over its limit gets 429 with a
    Retry-After of the limiter's delay in whole seconds, independently of the
    handler, and is marked as throttled; an admitted request gets exactly the handler's response with the
    rate-limit headers added, and the tokens its body reports are charged to
    the key. *)
Theorem rate_limit_gate (wn : Z) (racer : option Z) (w : Writer) (next : Handler S) (r : Req) (o : Obs) (s : S)
    (Hw : w_sent w = None)
    (Hfirst : ∀ r o s, headers_first false (next r o s).1.1 = true) :
  match r_Key r with
  | None => rl_serve encode parse_total rv wn racer w next r o s = next r o s
  | Some info =>
      match rv_Reserve rv info s with
      | (inl err, s1) => ∃ o1 s2,
          rl_serve encode parse_total rv wn racer w next r o s = next r o1 s2 ∧
          ob_info o1 = ob_info o ∧ ob_metrics o1 = ob_metrics o ++ RecordRateLimit "failopen" ∧
          (s2 = s1 ∨ ∃ v, s2 = rv_setLastWarn rv v s1)
      | (inr res, s1) =>
          let '(out, o', s') := rl_serve encode parse_total rv wn racer w next r o s in
          let w1 := wrun w (setRateLimitHeaders res) in
          if Allowed res then
            let '(ops, o2, s2) := next r (emit (RecordRateLimit "allowed") o) s1 in
            wrun w out = wrun w1 ops ∧
            s' = match (finish parse_total (cw_run w1 ops)).1 with
                 | Some n => (rv_RecordTokens rv info n s2).2
                 | None => s2
                 end
          else
            s' = s1 ∧ o' = MarkRateLimited (emit (RecordRateLimit "throttled") o) ∧
            (response (wrun w out)).1 =
              (429, <["Content-Type" := "application/json"]>
                 (<["Retry-After" := Itoa (retry_secs (RetryAfter res))]> (w_hdr w1)))
      end
  end.
Proof.
  unfold rl_serve, KeyInfoFromContext. destruct (r_Key r) as [info|]; [|done].
  destruct (rv_Reserve rv info s) as [[err|res] s1].
  - unfold warnFailOpen. destruct (_ && _); [|destruct racer];
      (do 2 eexists; split; [reflexivity|]; eauto).
  - destruct (Allowed res); simpl.
    + destruct (next r _ s1) as [[ops o2] s2] eqn:En.
      pose proof (finish_rel (wrun w (setRateLimitHeaders res)) parse_total (cw_run (wrun w (setRateLimitHeaders res)) ops)
        (wrun (wrun w (setRateLimitHeaders res)) ops)) as Hf.
      destruct (finish parse_total _) as [rec out] eqn:Ef. simpl in Hf.
      assert (wrun w (setRateLimitHeaders res ++ out) = wrun (wrun w (setRateLimitHeaders res)) ops) as Hout.
      { rewrite wrun_app. apply Hf. apply (rel_run _ ops newCapture _ false); [by apply rel_open| |done].
        pose proof (Hfirst r (emit (RecordRateLimit "allowed") o) s1) as H. by rewrite En in H. }
      destruct rec as [n|]; [|done].
      destruct (rv_RecordTokens rv info n s2) as [[e|] s3] eqn:Er; simpl; by rewrite Er.
    + split; [done|]. split; [done|]. rewrite wrun_app, throttled_response; [done|].
      by rewrite (proj1 (headers_only res w)).
Qed.
End RateLimitGate.

(** A limiter that admits one request and charges tokens to a counter. *)
Definition demo_res : Reservation := mkReservation true 5 4 (30 * Second) 0 0 0 0.
Definition demo_reserver : Reserver Z :=
  mkReserver (λ _ s, (inr demo_res, s)) (λ _ n s, (None, s + n)) (λ _, 0) (λ _ s, s).
Definition demo_handler : Handler Z := λ _ o s, (demo_ops, o, s).
Definition demo_info : KeyInfo := mkKeyInfo "k" "org" "ci" 5 0 [] None.
Definition demo_request : Req := mkReq "POST" "/v1/chat/completions" "" NoBody (Some demo_info).

Lemma rate_limit_gate_witness :
  wrun new_writer (rl_serve (λ _, "") (λ _, Some 7) demo_reserver 0 None new_writer demo_handler
    demo_request (mkObs None [] []) 100).1.1 = wrun (wrun new_writer (setRateLimitHeaders demo_res)) demo_ops.
Proof.
  pose proof (rate_limit_gate (λ _, "") (λ _, Some 7) demo_reserver 0 None new_writer demo_handler
    demo_request (mkObs None [] []) 100 eq_refl (λ _ _ _, eq_refl)) as H.
  destruct (rl_serve _ _ _ _ _ _ _ _ _ _) as [[out o'] s']. destruct H as [H _]. exact H.
Defined.

(** ** Throttling of the fail-open warning *)

Section Warnings.
Context {S : Type} (rv : Reserver S).
Context (set_get : ∀ v s, rv_lastWarn rv (rv_setLastWarn rv v s) = v).

(** The times at which a run of failures at times [ts] logs, one after
    another. *)
Fixpoint warn_times (ts : list Z) (s : S) : list Z :=
  match ts with
  | [] => []
  | t :: ts =>
      let '(o, s) := warnFailOpen rv t None "" (mkObs None [] []) s in
      match ob_log o with [] => warn_times ts s | _ => t :: warn_times ts s end
  end.

(** Consecutive elements at least [d] apart. *)
Fixpoint spaced (d last : Z) (ts : list Z) : Prop :=
  match ts with [] => True | t :: ts => last + d ≤ t ∧ spaced d t ts end.

Lemma warn_times_spaced ts s :
  Forall (λ t, 0 < t ≤ max64) ts → 0 < rv_lastWarn rv s →
  StronglySorted Z.le (rv_lastWarn rv s :: ts) → spaced (5 * Second) (rv_lastWarn rv s) (warn_times ts s).
Proof.
  revert s. induction ts as [|t ts IH]; intros s Hpos Hlast Hsort; simpl; [done|].
  apply Forall_cons in Hpos as [Ht Hpos]. apply StronglySorted_inv in Hsort as [Hsort Hle].
  apply Forall_cons in Hle as [Hle Hles]. pose proof (StronglySorted_inv Hsort) as [Hs Hts].
  unfold warnFailOpen. rewrite (proj2 (Z.eqb_neq _ _)) by lia. simpl.
  rewrite wrap64_id by (unfold in64, min64, max64 in *; lia).
  destruct (Z.ltb_spec (t - rv_lastWarn rv s) failOpenWarnInterval) as [Hlt|Hge]; simpl.
  - apply IH; [done|done|]. by constructor.
  - split; [unfold failOpenWarnInterval in Hge; lia|].
    specialize (IH (rv_setLastWarn rv t s)). rewrite set_get in IH. apply IH; [done|lia|done].
Qed.

(** The fail-open warning is throttled.  However many requests hit a
    failing limiter, the first logs at once and any two warnings are at least
    five seconds apart. *)
Theorem warnings_throttled (t : Z) (ts : list Z) (s : S)
    (Hpos : Forall (λ t, 0 < t ≤ max64) (t :: ts)) (Hsorted : StronglySorted Z.le (t :: ts))
    (Hfresh : rv_lastWarn rv s = 0) :
  ∃ rest, warn_times (t :: ts) s = t :: rest ∧ spaced (5 * Second) t rest.
Proof.
  apply Forall_cons in Hpos as [Ht Hpos]. simpl. unfold warnFailOpen. rewrite Hfresh. simpl.
  eexists. split; [done|]. pose proof (warn_times_spaced ts (rv_setLastWarn rv t s)) as H.
  rewrite set_get in H. apply H; [done|lia|done].
Qed.
End Warnings.

Definition warn_reserver : Reserver Z :=
  mkReserver (λ _ s, (inl "down", s)) (λ _ _ s, (None, s)) (λ s, s) (λ v _, v).

Lemma warnings_throttled_witness :
  ∃ rest, warn_times warn_reserver [Second; 2 * Second; 7 * Second] 0 = Second :: rest ∧
    spaced (5 * Second) Second rest.
Proof.
  apply (warnings_throttled warn_reserver (λ _ _, eq_refl)).
  - repeat constructor; done.
  - repeat constructor; done.
  - reflexivity.
Defined.

(** ** Debug body logging *)

(** Debug body logging does not change what the handler reads.  Unless
    reading the body itself fails within the first [limit + 1] bytes, the
    handler gets a request with the same bytes and the same end of body; at
    most [limit] bytes are logged, and nothing when DEBUG is off. *)
Theorem debug_body_preserved {S : Type} (limit : Z) (debug : bool) (r : Req) (o : Obs) (s : S)
    (data : string) (err : option string)
    (Hbody : r_Body r = Reader data err) (Hlimit : 0 < limit)
    (Hread : err = None ∨ limit < strlen data) :
  ∃ o', ob_info o' = ob_info o ∧ ob_metrics o' = ob_metrics o ∧
    (∀ next : Handler S, DebugRequestBodies limit debug next r o s = next r o' s) ∧
    (debug = false → o' = o) ∧
    (debug = true → ∃ logged attrs,
       ob_log o' = ob_log o ++ [mkLogLine Debug "http body" attrs] ∧
       ("body", AStr logged) ∈ attrs ∧ strlen logged ≤ limit ∧ ∃ rest, data = logged +:+ rest).
Proof.
  unfold DebugRequestBodies. rewrite (proj2 (Z.leb_gt limit 0)) by lia. destruct debug; simpl.
  2:{ exists o. done. }
  rewrite Hbody. unfold ReadFull. set (n := Z.to_nat limit).
  assert (∀ b, b = r_Body r → with_body b r = r) as Hsame by (intros b ->; by destruct r).
  destruct (Nat.leb_spec (n + 1) (String.length data)) as [Hfull|Hshort].
  - eexists. split; [|split; [|split; [|split]]]; [| |intros next; rewrite str_take_drop, Hsame by done; reflexivity|done|];
      [done|done|]. intros _. do 2 eexists. split; [done|]. split; [right; right; left|].
    split.
    + unfold strlen. rewrite str_take_length. lia.
    + exists (str_drop n data). assert (str_take n (str_take (n + 1) data) = str_take n data) as ->.
      { clear. revert data. induction n as [|n IH]; intros data; simpl; [done|].
        destruct data; [done|]. simpl. by rewrite IH. }
      by rewrite str_take_drop.
  - destruct Hread as [->|Hr]; [|unfold strlen in Hr; lia].
    eexists. split; [|split; [|split; [|split]]]; [| |intros next; rewrite Hsame by done; reflexivity|done|];
      [done|done|]. intros _. do 2 eexists. split; [done|]. split; [right; right; left|].
    split; [unfold strlen; lia|]. exists "". by rewrite app_nil_r_str.
Qed.

Lemma debug_body_preserved_witness :
  ∃ o', ∀ next : Handler Z,
    DebugRequestBodies 3 true next (mkReq "POST" "/" "" (Reader "abcdef" None) None) (mkObs None [] []) 0 =
    next (mkReq "POST" "/" "" (Reader "abcdef" None) None) o' 0.
Proof.
  destruct (debug_body_preserved 3 true (mkReq "POST" "/" "" (Reader "abcdef" None) None)
    (mkObs None [] []) 0 "abcdef" None eq_refl ltac:(done) ltac:(by left)) as (o'&_&_&H&_).
  exists o'. exact H.
Defined.

(** A body whose first bytes cannot be read reaches the handler as an empty
    body, without the error. *)
Example debug_body_swallows_error {S : Type} (next : Handler S) o s :
  let r := mkReq "POST" "/" "" (Reader "ab" (Some "unexpected EOF")) None in
  ∃ o', DebugRequestBodies 8 true next r o s = next (with_body (Reader "" None) r) o' s.
Proof. eexists. reflexivity. Qed.
