(* ===== verification/Handlers.v ===== *)
(** * Request handlers

    Models src/internal/handler: the chat-completion handler with its
    streaming and non-streaming paths (chat.go), the error mapping (errors.go),
    and the model-list and health endpoints (models.go, health.go).

    The router and the providers are reached through the interface [Gateway]:
    routing and the two provider calls as state transformers.  [Integration]
    instantiates it with the router and the retrying providers. *)

From S2P Require Import Prelude GoStrings Float64 Model Health Metrics Retry Registry.
From S2P Require Import Strategies RateLimit Config Router Auth Http Capture Middleware.
From Stdlib Require Import Ascii.
Local Open Scope Z_scope.

(** The router and the providers as the handler sees them; [P] is the type of
    provider references. *)
Class Gateway (S P : Type) := {
  gw_Route : ChatCompletionRequest → RequestMeta → S → outcome RouteErr (P * Decision) * S;
  gw_Chat : P → ChatCompletionRequest → S → Reply ChatCompletionResponse * S;
  gw_Stream : P → ChatCompletionRequest → S → Reply (list StreamEvent) * S;
  gw_Name : P → string;
}.

(** What json decoding of the (size-limited) body gives. *)
Inductive Decoded :=
| DOk (req : ChatCompletionRequest)
| DTooLarge
| DBad (msg : string).

(** How the handler ends: it returns after these operations, it panics (which
    chi's Recoverer turns into a 500), or it blocks for ever. *)
Inductive ChatEnd :=
| Done (ops : list WOp)
| Panicked (ops : list WOp)
| Blocked (ops : list WOp).

Definition chat_ops (e : ChatEnd) : list WOp :=
  match e with Done ops | Blocked ops => ops | Panicked ops => ops ++ [OStatus 500] end.

Definition routerMeta (r : Req) : RequestMeta :=
  match KeyInfoFromContext (r_Key r) with
  | Some info => mkMeta (OrgID info) (KeyID info) 0 [] ""
  | None => mkMeta "" "" 0 [] ""
  end.

Definition setRoutingHeaders (d : Decision) : list WOp :=
  [OSet "X-LLM-Gateway-Provider" (dc_Provider d);
   OSet "X-LLM-Gateway-Strategy" (dc_Strategy d);
   OSet "X-LLM-Gateway-Attempts" "1"] ++
  (if bool_decide (dc_Group d = "") then [] else [OSet "X-LLM-Gateway-Group" (dc_Group d)]).

Definition route_err_Error (e : RouteErr) : string :=
  match e with
  | ErrUnknownModel => "unknown model"
  | ErrNoHealthyProviders => "no healthy providers"
  | ErrNilRequest => "router: nil request"
  | ErrStrategy msg => msg
  end.

Definition newline : string := String (ascii_of_nat 10) "".

(** One SSE frame. *)
Definition sse (data : string) : string := "data: " +:+ data +:+ newline +:+ newline.

Section Errors.
Context (encode : Payload → string).

Definition WriteError (status : Z) (errType code message : string) : list WOp :=
  apierr_Write encode status errType code message.

Definition WriteRateLimitError (retryAfter : Z) (message : string) : list WOp :=
  WriteRateLimit encode retryAfter message.

Definition handleProviderError (err : goerr) : list WOp :=
  match errors_As err with
  | Some pe =>
      let status := if 500 <=? StatusCode pe then 502 else StatusCode pe in
      apierr_Write encode status (pe_Type pe) "provider_error" (pe_Message pe)
  | None => apierr_Write encode 502 "upstream_error" "provider_error" "upstream provider error"
  end.

Definition writeRouterError (modelName : string) (err : RouteErr) : list WOp :=
  match err with
  | ErrUnknownModel =>
      WriteError 400 "invalid_request_error" "invalid_model" ("unknown model " +:+ Quote modelName)
  | ErrNoHealthyProviders =>
      WriteError 503 "service_unavailable" "all_providers_down" "all candidate providers are unavailable"
  | _ => WriteError 500 "internal_error" "internal_error" ("routing failed: " +:+ route_err_Error err)
  end.
End Errors.

Section Chat.
Context (encode : Payload → string).
(** [json.Marshal] of a chunk pointer; [None]: it fails. *)
Context (marshal : option ChatCompletionChunk → option string).
Context {S P : Type} `{Gateway S P}.

Definition handleNonStream (p : P) (req : ChatCompletionRequest) (d : Decision) (o : Obs) (s : S)
    : ChatEnd * Obs * S :=
  match gw_Chat p req s with
  | (RErr err, s) => (Done (handleProviderError encode err), o, s)
  | (RNil, s) => (Panicked [], o, s)
  | (ROk resp, s) =>
      (Done ([OSet "Content-Type" "application/json"] ++ setRoutingHeaders d ++
             [OWrite (encode (PChat resp))]),
       SetTokens (PromptTokens (rs_Usage resp)) (CompletionTokens (rs_Usage resp)) o, s)
  end.

(** The forwarding loop: it stops at the first error event or marshal
    failure, and drains the rest. *)
Fixpoint stream_loop (name : string) (evts : list StreamEvent) (o : Obs) : list WOp * Obs :=
  match evts with
  | [] => ([], o)
  | evt :: evts =>
      match Err evt with
      | Some e =>
          ([], log Warn "stream error from provider"
                 [("error", AStr (err_Error e)); ("provider", AStr name)] o)
      | None =>
          match marshal (Chunk evt) with
          | None => ([], log Warn "failed to marshal chunk" [] o)
          | Some data =>
              let '(ops, o) := stream_loop name evts o in
              (OWrite (sse data) :: OFlush :: ops, o)
          end
      end
  end.

(** [can_flush]: the writer is an [http.Flusher]; [cancelled]: the request
    context has ended when the loop is done. *)
Definition handleStream (can_flush cancelled : bool) (p : P) (req : ChatCompletionRequest)
    (d : Decision) (o : Obs) (s : S) : ChatEnd * Obs * S :=
  match gw_Stream p req s with
  | (RErr err, s) => (Done (handleProviderError encode err), o, s)
  | (reply, s) =>
      if negb can_flush then
        let ops := WriteError encode 500 "internal_error" "internal_error" "streaming not supported" in
        (match reply with RNil => Blocked ops | _ => Done ops end, o, s)
      else
        let hdrs := [OSet "Content-Type" "text/event-stream"; OSet "Cache-Control" "no-cache";
                     OSet "Connection" "keep-alive"] ++ setRoutingHeaders d in
        match reply with
        | ROk evts =>
            let '(ops, o) := stream_loop (gw_Name p) evts o in
            (Done (hdrs ++ ops ++ (if cancelled then [] else [OWrite (sse "[DONE]"); OFlush])), o, s)
        | _ => (Blocked hdrs, o, s)
        end
  end.

Definition HandleChatCompletion (can_flush cancelled : bool) (decoded : Decoded) (r : Req) (o : Obs)
    (s : S) : ChatEnd * Obs * S :=
  match decoded with
  | DTooLarge =>
      (Done (WriteError encode 413 "invalid_request_error" "request_too_large"
               "request body exceeds 10MB limit"), o, s)
  | DBad msg =>
      (Done (WriteError encode 400 "invalid_request_error" "invalid_request"
               ("invalid request body: " +:+ msg)), o, s)
  | DOk req =>
      if bool_decide (rq_Model req = "") then
        (Done (WriteError encode 400 "invalid_request_error" "invalid_request" "model is required"), o, s)
      else if (length (rq_Messages req) =? 0)%nat then
        (Done (WriteError encode 400 "invalid_request_error" "invalid_request"
                 "messages must not be empty"), o, s)
      else
        match gw_Route req (routerMeta r) s with
        | (Error err, s) => (Done (writeRouterError encode (rq_Model req) err), o, s)
        | (Panic, s) => (Panicked [], o, s)
        | (Ret (p, d), s) =>
            let req := set_Model (dc_Model d) req in
            let o := SetGroup (dc_Group d) (SetStrategy (dc_Strategy d)
                       (SetProvider (dc_Provider d) (SetModel (dc_Model d) o))) in
            if rq_Stream req then handleStream can_flush cancelled p req d o s
            else handleNonStream p req d o s
        end
  end.

(** The chat handler as a [Handler]; [decode] reads the body. *)
Definition chat_handler (can_flush cancelled : bool) (decode : Body → Decoded) : Handler S := λ r o s,
  let '(e, o, s) := HandleChatCompletion can_flush cancelled (decode (r_Body r)) r o s in
  (chat_ops e, o, s).
End Chat.

(** ** models.go and health.go *)

Section Info.
Context (encode : Payload → string).

Definition HandleListModels (reg : Registry) : list WOp :=
  [OSet "Content-Type" "application/json";
   OWrite (encode (PModels {| mr_Object := "list";
     mr_Data := (λ d, mkModelObject (ModelName d) "model" (ProviderName d)) <$> ListModelDetails reg |}))].

Definition HandleHealth : list WOp :=
  [OSet "Content-Type" "application/json"; OWrite (encode PStatusOk)].

Definition overall_status (healthyCount total : nat) : string :=
  if (healthyCount =? total)%nat then "ok"
  else if (healthyCount =? 0)%nat then "down"
  else "degraded".

Definition HandleInternalHealth (now : Z) (providers : gmap string ProviderHealth) : list WOp :=
  let statuses := Status now <$> providers in
  let healthyCount := length (filter (λ kv, Healthy kv.2 = true) (map_to_list statuses)) in
  [OSet "Content-Type" "application/json";
   OWrite (encode (PHealth {| ih_Status := overall_status healthyCount (size providers);
                              ih_Providers := statuses |}))].
End Info.
