(* ===== verification/HandlerProps.v ===== *)
(** * What the handlers answer

    The response of every path of the chat handler, the server-sent-event
    framing as a client reads it, the health and model-list endpoints. *)

From stdpp Require Import sorting.
From S2P Require Import Prelude GoStrings Float64 Model Health Metrics Retry Registry.
From S2P Require Import Strategies RateLimit Config Router Auth Http Capture Middleware.
From S2P Require Import Handlers.
From Stdlib Require Import Ascii.
Local Open Scope Z_scope.

(** ** Header discipline *)

Lemma headers_first_sets hdrs ops :
  Forall (λ op, ∃ k v, op = OSet k v) hdrs → headers_first false (hdrs ++ ops) = headers_first false ops.
Proof. induction 1 as [|op hdrs (k&v&->) _ IH]; [done|]. simpl. done. Qed.

(** Writes and flushes only. *)
Definition body_op (op : WOp) : Prop := match op with OWrite _ | OFlush => True | _ => False end.

Lemma headers_first_body ops b : Forall body_op ops → headers_first b ops = true.
Proof.
  intros Hall. revert b. induction Hall as [|op ops Hop _ IH]; intros b; [done|].
  destruct op; try done; apply IH.
Qed.

Lemma routing_headers_sets d : Forall (λ op, ∃ k v, op = OSet k v) (setRoutingHeaders d).
Proof. unfold setRoutingHeaders. case_bool_decide; repeat constructor; eauto. Qed.

Section Chat.
Context (encode : Payload → string) (marshal : option ChatCompletionChunk → option string).
Context {S P : Type} `{Gateway S P}.

Lemma stream_loop_body_ops name evts o : Forall body_op (stream_loop marshal name evts o).1.
Proof.
  revert o. induction evts as [|evt evts IH]; intros o; simpl; [constructor|].
  destruct (Err evt); [constructor|]. destruct (marshal (Chunk evt)); [|constructor].
  specialize (IH o). destruct (stream_loop _ _ _ _) as [ops o']. simpl in *. repeat constructor; done.
Qed.

(** The status a provider's error carries is final: net/http's client consumes
    informational responses itself. *)
Definition final_error (err : goerr) : Prop :=
  ∀ pe, errors_As err = Some pe → informational (StatusCode pe) = false.

Lemma handleProviderError_first err : final_error err → headers_first false (handleProviderError encode err) = true.
Proof.
  unfold handleProviderError, final_error. intros Hf. destruct (errors_As err) as [pe|]; [|done].
  specialize (Hf pe eq_refl). cbn. by destruct (500 <=? StatusCode pe); rewrite ?Hf.
Qed.

(** Every path of the chat handler sets its headers before it writes, as the
    rate limiter's capturing writer relies on. *)
Lemma chat_headers_first can_flush cancelled decode r o s :
  (∀ p req s err s', gw_Chat p req s = (RErr err, s') → final_error err) →
  (∀ p req s err s', gw_Stream p req s = (RErr err, s') → final_error err) →
  headers_first false (chat_handler encode marshal can_flush cancelled decode r o s).1.1 = true.
Proof.
  intros Hchat Hstream.
  unfold chat_handler, HandleChatCompletion. destruct (decode (r_Body r)) as [req| |]; [|done..].
  case_bool_decide; [done|]. destruct (_ =? _)%nat; [done|].
  destruct (gw_Route req (routerMeta r) s) as [[[p d]|err|] s1]; [|by destruct err|done].
  destruct (rq_Stream _).
  - unfold handleStream. destruct (gw_Stream p _ s1) as [[evts|err|] s2] eqn:Es.
    + destruct can_flush; [|done]. simpl negb. cbv iota.
      pose proof (stream_loop_body_ops (gw_Name p) evts (SetGroup (dc_Group d) (SetStrategy (dc_Strategy d)
        (SetProvider (dc_Provider d) (SetModel (dc_Model d) o))))) as Hns.
      destruct (stream_loop _ _ _ _) as [ops o2]. simpl in Hns. cbn [fst chat_ops].
      rewrite headers_first_sets by (apply Forall_app; split; [repeat constructor; eauto|apply routing_headers_sets]).
      apply headers_first_body, Forall_app. split; [done|]. by destruct cancelled; repeat constructor.
    + eapply handleProviderError_first, Hstream, Es.
    + destruct can_flush; [|done]. simpl negb. cbv iota. cbn [fst chat_ops].
      rewrite <-(app_nil_r (_ ++ _)), headers_first_sets; [done|].
      apply Forall_app; split; [repeat constructor; eauto|apply routing_headers_sets].
  - unfold handleNonStream. destruct (gw_Chat p _ s1) as [[resp|err|] s2] eqn:Ec; [|eapply handleProviderError_first, Hchat, Ec|done].
    cbn [fst chat_ops]. rewrite headers_first_sets by (repeat constructor; eauto).
    by rewrite headers_first_sets by apply routing_headers_sets.
Qed.

(** ** Server-sent events *)

(** The chunks forwarded: those before the first error event or marshal
    failure. *)
Fixpoint forwarded (evts : list StreamEvent) : list string :=
  match evts with
  | [] => []
  | evt :: evts =>
      match Err evt, marshal (Chunk evt) with
      | None, Some data => data :: forwarded evts
      | _, _ => []
      end
  end.

Definition frames (ds : list string) : string := foldr (λ d acc, sse d +:+ acc) "" ds.

(** The frame lines a client sees: the text between blank lines. *)
Fixpoint split_frames (cur : string) (s : string) : list string :=
  match s with
  | String c1 (String c2 s' as s1) =>
      if Ascii.eqb c1 (ascii_of_nat 10) && Ascii.eqb c2 (ascii_of_nat 10)
      then String.rev cur :: split_frames "" s'
      else split_frames (String c1 cur) s1
  | _ => []
  end.

Definition client_data (s : string) : list string :=
  omap (CutPrefix "data: ") (split_frames "" s).

Definition no_newline (s : string) : bool := str_all (λ a, negb (Ascii.eqb a (ascii_of_nat 10))) s.

Lemma split_frames_cons cur c1 c2 s :
  split_frames cur (String c1 (String c2 s)) =
  if Ascii.eqb c1 (ascii_of_nat 10) && Ascii.eqb c2 (ascii_of_nat 10)
  then String.rev cur :: split_frames "" s else split_frames (String c1 cur) (String c2 s).
Proof. reflexivity. Qed.

Lemma split_frame cur d rest :
  no_newline d = true →
  split_frames cur (d +:+ newline +:+ newline +:+ rest) = (String.rev cur +:+ d) :: split_frames "" rest.
Proof.
  revert cur. induction d as [|a d IH]; intros cur Hd.
  - cbn. by rewrite app_nil_r_str.
  - unfold no_newline in Hd. rewrite str_all_cons in Hd. apply andb_true_iff in Hd as [Ha Hd].
    specialize (IH (String a cur) Hd).
    change (String a d +:+ newline +:+ newline +:+ rest) with (String a (d +:+ newline +:+ newline +:+ rest)).
    destruct (d +:+ newline +:+ newline +:+ rest) as [|b t] eqn:E; [by destruct d|].
    apply negb_true_iff in Ha. rewrite split_frames_cons, Ha. cbn [andb]. rewrite IH.
    f_equal. unfold String.rev. simpl. rewrite !rev_app_acc, !app_assoc_str. done.
Qed.

Lemma client_reads ds :
  Forall (λ d, no_newline d = true) ds → client_data (frames ds) = ds.
Proof.
  unfold client_data. induction 1 as [|d ds Hd _ IH]; [done|].
  assert (frames (d :: ds) = ("data: " +:+ d) +:+ newline +:+ newline +:+ frames ds) as ->.
  { change (frames (d :: ds)) with (sse d +:+ frames ds). unfold sse. by rewrite !app_assoc_str. }
  rewrite split_frame by (unfold no_newline in *; by rewrite str_all_app, Hd).
  cbn [omap list_omap]. change (String.rev "" +:+ ?x) with x.
  rewrite (proj2 (CutPrefix_Some "data: " _ d) eq_refl). f_equal. exact IH.
Qed.

(** Nothing sent yet, or a 200 with the present headers. *)
Definition ok200 (w : Writer) : Prop := w_sent w = None ∨ w_sent w = Some (200, w_hdr w).

Lemma ok200_response w : ok200 w → response w = (200, w_hdr w, w_body w).
Proof. unfold response. by intros [-> | ->]. Qed.

Lemma ok200_frame w b :
  ok200 w → let w' := wstep (wstep w (OWrite b)) OFlush in
  ok200 w' ∧ w_hdr w' = w_hdr w ∧ w_body w' = w_body w +:+ b.
Proof.
  intros Hw. cbn. unfold write_header, ok200. destruct Hw as [Hw|Hw]; rewrite Hw; cbn; rewrite ?Hw; cbn; auto.
Qed.

Lemma stream_loop_body name evts o w :
  ok200 w →
  let w' := wrun w (stream_loop marshal name evts o).1 in
  ok200 w' ∧ w_hdr w' = w_hdr w ∧ w_body w' = w_body w +:+ frames (forwarded evts).
Proof.
  revert o w. induction evts as [|evt evts IH]; intros o w Hs.
  { simpl. by rewrite app_nil_r_str. }
  simpl. destruct (Err evt); [by rewrite app_nil_r_str|].
  destruct (marshal (Chunk evt)) as [data|]; [|by rewrite app_nil_r_str].
  destruct (stream_loop marshal name evts o) as [ops o'] eqn:El.
  destruct (ok200_frame w (sse data) Hs) as (Hok&Hh&Hb).
  destruct (IH o _ Hok) as (Hok'&Hh'&Hb'). rewrite El in *. cbn [fst] in *.
  change (wrun w (OWrite (sse data) :: OFlush :: ops)) with
    (wrun (wstep (wstep w (OWrite (sse data))) OFlush) ops).
  split; [done|]. split; [congruence|]. rewrite Hb', Hb, app_assoc_str. done.
Qed.

Lemma frames_app ds es : frames (ds ++ es) = frames ds +:+ frames es.
Proof. induction ds as [|d ds IH]; [done|]. simpl frames. unfold frames in *. simpl. by rewrite IH, app_assoc_str. Qed.

Lemma wrun_sets w ops :
  Forall (λ op, ∃ k v, op = OSet k v) ops →
  w_sent (wrun w ops) = w_sent w ∧ w_body (wrun w ops) = w_body w.
Proof.
  intros Hall. revert w. induction Hall as [|op ops (k&v&->) _ IH]; intros w; [done|].
  change (wrun w (OSet k v :: ops)) with (wrun (wstep w (OSet k v)) ops). by destruct (IH (wstep w (OSet k v))).
Qed.

Definition stream_headers (d : Decision) : list WOp :=
  [OSet "Content-Type" "text/event-stream"; OSet "Cache-Control" "no-cache";
   OSet "Connection" "keep-alive"] ++ setRoutingHeaders d.

(** The answer to an opened stream. *)
Lemma handleStream_ok (cancelled : bool) (p : P) (req : ChatCompletionRequest) (d : Decision)
    (o : Obs) (s s' : S) (evts : list StreamEvent) :
  gw_Stream p req s = (ROk evts, s') →
  ∃ ops o', handleStream encode marshal true cancelled p req d o s = (Done ops, o', s') ∧
    serve_ops ops = (200, w_hdr (wrun new_writer (stream_headers d)),
                     frames (forwarded evts ++ (if cancelled then [] else ["[DONE]"]))).
Proof.
  intros Hopen. unfold handleStream. rewrite Hopen. simpl negb. cbv iota. fold (stream_headers d).
  destruct (stream_loop marshal (gw_Name p) evts o) as [ops o'] eqn:El. do 2 eexists. split; [reflexivity|].
  unfold serve_ops. rewrite wrun_app. set (w1 := wrun new_writer (stream_headers d)).
  destruct (wrun_sets new_writer (stream_headers d)) as [Hs Hb].
  { apply Forall_app; split; [repeat constructor; eauto|apply routing_headers_sets]. }
  fold w1 in Hs, Hb. destruct (stream_loop_body (gw_Name p) evts o w1) as (Hok&Hh&Hbody).
  { left. by rewrite Hs. }
  rewrite El in *. cbn [fst] in *. rewrite wrun_app, frames_app. rewrite Hb in Hbody.
  destruct cancelled; [rewrite app_nil_r_str; change (wrun ?w []) with w; rewrite ok200_response by done; by rewrite Hh, Hbody|].
  destruct (ok200_frame _ (sse "[DONE]") Hok) as (Hok2&Hh2&Hb2).
  change (wrun ?w [?a; ?b]) with (wstep (wstep w a) b). rewrite ok200_response by done.
  rewrite Hh2, Hb2, Hh, Hbody. reflexivity.
Qed.

(** A streamed answer.  When the provider opens a stream, the client
    receives status 200 with the event-stream and routing headers, and a body
    that is one frame per chunk up to the first stream error, in order, closed
    by the DONE sentinel unless the client is gone; a client that splits the
    body at blank lines reads back exactly those chunks.  The handler always
    returns. *)
Theorem stream_response (cancelled : bool) (p : P) (req : ChatCompletionRequest) (d : Decision)
    (o : Obs) (s s' : S) (evts : list StreamEvent)
    (Hopen : gw_Stream p req s = (ROk evts, s')) :
  let sent := forwarded evts ++ (if cancelled then [] else ["[DONE]"]) in
  ∃ ops o', handleStream encode marshal true cancelled p req d o s = (Done ops, o', s') ∧
    serve_ops ops = (200, w_hdr (wrun new_writer (stream_headers d)), frames sent) ∧
    (Forall (λ c, no_newline c = true) (forwarded evts) → client_data (frames sent) = sent).
Proof.
  destruct (handleStream_ok cancelled p req d o s s' evts Hopen) as (ops&o'&Hh&Hs).
  exists ops, o'. split; [done|]. split; [done|]. intros Hall.
  apply client_reads, Forall_app. split; [done|]. by destruct cancelled; repeat constructor.
Qed.
End Chat.

(** ** The health and model endpoints *)

Lemma count_all {A} (f : A → bool) (l : list A) :
  length (filter (λ x, f x = true) l) = length l ↔ ∀ x, x ∈ l → f x = true.
Proof.
  induction l as [|x l IH]; [simpl; split; [intros _ ? ?%elem_of_nil|]; done|].
  rewrite filter_cons. pose proof (length_filter (λ x, f x = true) l) as Hle. case_decide as Hx; simpl.
  - rewrite Nat.succ_inj_wd, IH. set_solver.
  - split; [lia|]. intros Hall. destruct Hx. apply Hall. set_solver.
Qed.

Lemma count_none {A} (f : A → bool) (l : list A) :
  length (filter (λ x, f x = true) l) = 0%nat ↔ ∀ x, x ∈ l → f x = false.
Proof.
  induction l as [|x l IH]; [simpl; split; [intros _ ? ?%elem_of_nil|]; done|].
  rewrite filter_cons. case_decide as Hx; simpl.
  - split; [done|]. intros Hall. specialize (Hall x ltac:(set_solver)). congruence.
  - apply not_true_is_false in Hx. rewrite IH. set_solver.
Qed.

(** The internal health report.  It lists every provider with its own
    status at the time of the request; the overall status is "ok" exactly when
    every provider is available, "down" exactly when there are providers and
    none is, and "degraded" otherwise. *)
Theorem internal_health_report (encode : Payload → string) (now : Z) (providers : gmap string ProviderHealth) :
  ∃ overall, serve_ops (HandleInternalHealth encode now providers) =
    (200, {[ "Content-Type" := "application/json" ]},
     encode (PHealth (mkInternalHealthResponse overall (Status now <$> providers)))) ∧
  overall =
    if bool_decide (map_Forall (λ _ h, IsHealthy now h = true) providers) then "ok"
    else if bool_decide (map_Forall (λ _ h, IsHealthy now h = false) providers) then "down"
    else "degraded".
Proof.
  eexists. split; [reflexivity|]. unfold overall_status.
  set (l := map_to_list (Status now <$> providers)).
  assert (∀ h, Healthy (Status now h) = IsHealthy now h) as Hst.
  { intros h. unfold Status, IsHealthy. simpl. by destruct (healthy h), (_ <=? _). }
  assert (length l = size providers) as Hlen by (unfold l; by rewrite length_map_to_list, map_size_fmap).
  assert (∀ b, (∀ kv, kv ∈ l → Healthy kv.2 = b) ↔ map_Forall (λ _ h, IsHealthy now h = b) providers) as Hall.
  { intros b. unfold l. split.
    - intros Hl k h Hk. rewrite <-Hst. apply (Hl (k, Status now h)), elem_of_map_to_list.
      rewrite lookup_fmap, Hk. done.
    - intros Hm [k st] Hin%elem_of_map_to_list. rewrite lookup_fmap in Hin.
      destruct (providers !! k) as [h|] eqn:E; [|done]. injection Hin as <-. cbn [snd]. rewrite Hst. by apply (Hm k). }
  rewrite <-Hlen.
  pose proof (count_all (λ kv : string * HealthStatus, Healthy kv.2) l) as Hc1.
  pose proof (count_none (λ kv : string * HealthStatus, Healthy kv.2) l) as Hc0.
  rewrite Hall in Hc1, Hc0.
  destruct (Nat.eqb_spec (length (filter (λ kv, Healthy kv.2 = true) l)) (length l)) as [E|E].
  { rewrite bool_decide_true; [done|]. by apply Hc1. }
  rewrite bool_decide_false by (by rewrite <-Hc1).
  destruct (Nat.eqb_spec (length (filter (λ kv, Healthy kv.2 = true) l)) 0) as [E0|E0].
  - rewrite bool_decide_true; [done|]. by apply Hc0.
  - rewrite bool_decide_false; [done|]. by rewrite <-Hc0.
Qed.

(** The model listing is sorted by name, has one entry per resolvable name
    (aliases included), each owned by the provider it resolves to. *)
Lemma list_models_response encode reg :
  ∃ data, serve_ops (HandleListModels encode reg) =
    (200, {[ "Content-Type" := "application/json" ]}, encode (PModels (mkModelsResponse "list" data))) ∧
    (mo_ID <$> data) = ListModels reg ∧
    ∀ m, m ∈ data → mo_Object m = "model" ∧
      ∃ p, Resolve (mo_ID m) reg = inr p ∧ mo_OwnedBy m = provider_Name p.
Proof.
  eexists. split; [reflexivity|]. split.
  - rewrite <-list_fmap_compose. apply ListModelDetails_names.
  - intros m (i&->&Hi)%list_elem_of_fmap. split; [done|]. unfold ListModelDetails in Hi.
    rewrite merge_sort_Permutation in Hi.
    apply list_elem_of_fmap in Hi as ([k p]&->&Hk%elem_of_map_to_list).
    exists p. unfold Resolve. simpl in *. by rewrite Hk.
Qed.

(** ** Witness *)

Definition demo_gateway : Gateway unit unit :=
  {| gw_Route _ _ s := (Error ErrUnknownModel, s);
     gw_Chat _ _ s := (RNil, s);
     gw_Stream _ _ s := (ROk [mkStreamEvent None None; mkStreamEvent None (Some (ErrMsg "reset"))], s);
     gw_Name _ := "demo" |}.

Lemma stream_response_witness :
  ∃ ops o', handleStream (H := demo_gateway) (λ _, "") (λ _, Some "{}") true false tt
      (mkRequest "m" [] None None None true [] None None None "") (mkDecision "demo" "m" "priority" "" "" "")
      (mkObs None [] []) tt = (Done ops, o', tt) ∧
    (serve_ops ops).2 = frames ["{}"; "[DONE]"] ∧ client_data (frames ["{}"; "[DONE]"]) = ["{}"; "[DONE]"].
Proof.
  destruct (stream_response (H := demo_gateway) (λ _, "") (λ _, Some "{}") false tt
    (mkRequest "m" [] None None None true [] None None None "") (mkDecision "demo" "m" "priority" "" "" "")
    (mkObs None [] []) tt tt _ eq_refl) as (ops&o'&Hrun&Hserve&Hclient).
  exists ops, o'. split; [exact Hrun|]. rewrite Hserve. split; [reflexivity|].
  apply Hclient. repeat constructor.
Defined.
