(* ===== verification/Integration.v ===== *)
(** * The gateway put together

    Instantiates the [Gateway] interface of [Handlers] with the router of
    [Router] and the retrying, health-tracking providers of [Retry]: the state
    is the routing state and one [World] (health object, metrics, trace) per
    provider, shared by the router, which reads the health objects, and the
    providers, which update them.  The theorems follow one chat request from
    the decoded body to the response. *)

From S2P Require Import Prelude GoStrings Float64 Model Health Metrics Retry RetryProps.
From S2P Require Import Registry Strategies StrategyProps RateLimit Config Router RouterProps.
From S2P Require Import Auth Http Capture Middleware MiddlewareProps Handlers HandlerProps.
Local Open Scope Z_scope.

Record GwState := mkGwState {
  g_route : RouteState;
  g_worlds : gmap nat World;
}.

Section Gateway.
Context (r : defaultRouter) (htps : gmap nat HealthTrackingProvider).
(** The upstream services, by provider and request. *)
Context (upstream : nat → ChatCompletionRequest → CallEnv ChatCompletionResponse)
  (upstream_stream : nat → ChatCompletionRequest → CallEnv (list StreamEvent)).
(** The random number drawn and the clock read while routing; the point at
    which the client's context ends a stream, if it does. *)
Context (rnd : f64) (now : Z) (stop : option nat).

Definition healths_of (s : GwState) : gmap nat ProviderHealth := w_health <$> g_worlds s.

(** A call through a provider reference. *)
Definition call {A} (f : nat → HealthTrackingProvider → World → Reply A * World) (p : Provider)
    (s : GwState) : Reply A * GwState :=
  match p with
  | Tracked id _ =>
      match htps !! id, g_worlds s !! id with
      | Some h, Some w =>
          let '(reply, w) := f id h w in
          (reply, {| g_route := g_route s; g_worlds := <[id := w]> (g_worlds s) |})
      | _, _ => (RNil, s)
      end
  | Bare _ => (RNil, s)
  end.

#[local] Instance gateway : Gateway GwState Provider := {|
  gw_Route req meta s :=
    let '(res, st) := Route r (Some req) meta rnd now (healths_of s) (g_route s) in
    (res, {| g_route := st; g_worlds := g_worlds s |});
  gw_Chat p req s := call (λ id h w, ChatCompletion h (upstream id req) w) p s;
  gw_Stream p req s := call (λ id h w, ChatCompletionStream h (upstream_stream id req) stop w) p s;
  gw_Name := provider_Name;
|}.

(** Every registered provider is a tracked one whose decorator and health
    object exist, with a non-negative retry count, as start-up builds them. *)
Definition providers_wf (s : GwState) : Prop :=
  ∀ m p, models (rt_registry r) !! m = Some p →
    ∃ id h w, p = Tracked id (wrapped_Name h) ∧ htps !! id = Some h ∧ g_worlds s !! id = Some w ∧
      0 ≤ MaxRetries (retry h).

Lemma resolved_candidates m group cs c :
  resolve_spec r m = Some (group, cs) → c ∈ cs → ∃ m', models (rt_registry r) !! m' = Some (c_Provider c).
Proof.
  unfold resolve_spec. destruct (rt_groups r !! m) as [g|].
  - intros [= <- <-]. unfold expand_spec. intros (cfg&_&Hc)%list_elem_of_omap.
    destruct (models (rt_registry r) !! cf_Model cfg) as [p|] eqn:E; simpl in Hc; [|by rewrite ?E in Hc].
    eexists. rewrite E. by injection Hc as <-.
  - destruct (models (rt_registry r) !! m) as [p|] eqn:E; [|done]. intros [= <- <-] ->%list_elem_of_singleton.
    exists m. by rewrite E.
Qed.

Lemma attempts_not_nil {A B} h (env : CallEnv A) (onok : Z → A → World → B * World) w :
  0 ≤ MaxRetries (retry h) → (attempts h env onok (loop_fuel h) 0 None w).1 ≠ RNil.
Proof.
  intros Hmax. destruct (attempts_spec h env onok (loop_fuel h) 0 None w) as (k&_&_&Hd);
    [lia|unfold loop_fuel; f_equal; lia|lia|].
  destruct Hd as [(e&_&_&->)|[_ Hd]]; [done|]. destruct (ce_call env k); [by rewrite Hd|].
  by destruct Hd as [_ ->].
Qed.

Lemma ChatCompletion_not_nil h env w : 0 ≤ MaxRetries (retry h) → (ChatCompletion h env w).1 ≠ RNil.
Proof. apply attempts_not_nil. Qed.
Lemma ChatCompletionStream_not_nil h env w :
  0 ≤ MaxRetries (retry h) → (ChatCompletionStream h env stop w).1 ≠ RNil.
Proof. apply attempts_not_nil. Qed.

(** The status of an error answer: the provider's, 502 for a server error and
    for an error that carries none (and 200 should a provider's error carry an
    informational status, which net/http's client never reports). *)
Definition provider_status (err : goerr) : Z :=
  match errors_As err with
  | Some pe => client_status (if 500 <=? StatusCode pe then 502 else StatusCode pe)
  | None => 502
  end.

Context (encode : Payload → string) (marshal : option ChatCompletionChunk → option string).

Lemma handleProviderError_status err : status_of (handleProviderError encode err) = provider_status err.
Proof. unfold handleProviderError, provider_status. destruct (errors_As err); apply error_status. Qed.

Definition json_headers (d : Decision) : list WOp :=
  [OSet "Content-Type" "application/json"] ++ setRoutingHeaders d.

Lemma wstep_write_open w b :
  w_sent w = None → wstep w (OWrite b) = mkWriter (w_hdr w) (Some (200, w_hdr w)) (w_body w +:+ b) (w_info w).
Proof. intros Hs. cbn. unfold write_header. by rewrite Hs. Qed.

Lemma json_response d b : serve_ops ([OSet "Content-Type" "application/json"] ++ setRoutingHeaders d ++ [OWrite b])
  = (200, w_hdr (wrun new_writer (json_headers d)), b).
Proof.
  unfold serve_ops. rewrite app_assoc, wrun_snoc. fold (json_headers d).
  destruct (wrun_sets new_writer (json_headers d)) as [Hs Hb].
  { apply Forall_app; split; [repeat constructor; eauto|apply routing_headers_sets]. }
  rewrite wstep_write_open by (by rewrite Hs). unfold response. cbn [w_sent w_body]. by rewrite Hb.
Qed.

(** The candidate a request is sent to, once routing has succeeded. *)
Lemma picked_provider s m group cs c :
  providers_wf s → resolve_spec r m = Some (group, cs) → c ∈ filter (available now (healths_of s)) cs →
  ∃ id h w, c_Provider c = Tracked id (wrapped_Name h) ∧ htps !! id = Some h ∧
    g_worlds s !! id = Some w ∧ 0 ≤ MaxRetries (retry h) ∧ IsHealthy now (w_health w) = true.
Proof.
  intros Hwf Hres [Hh Hc]%list_elem_of_filter.
  destruct (resolved_candidates _ _ _ _ Hres Hc) as [m' Hm].
  destruct (Hwf _ _ Hm) as (id&h&w&Hp&Hid&Hw&Hmax). exists id, h, w. split_and!; try done.
  unfold available, healths_of in Hh. rewrite Hp in Hh. destruct Hh as (hl&Hl&Hh).
  rewrite lookup_fmap, Hw in Hl. by injection Hl as <-.
Qed.

(** Every request that names a model and has messages: routing answers it, or
    hands it to an available candidate's provider. *)
Lemma chat_routed cfg k can_flush cancelled req rq o s :
  rnd = rand_Float64 k → 0 ≤ k < 2 ^ 53 →
  router_wf cfg r (rs_heap (g_route s)) → sane_routing r → providers_wf s →
  rq_Model req ≠ "" → rq_Messages req ≠ [] →
  ∃ st, router_wf cfg r (rs_heap st) ∧
    let s1 := mkGwState st (g_worlds s) in
    let run := HandleChatCompletion encode marshal can_flush cancelled (DOk req) rq o s in
    match resolve_spec r (rq_Model req) with
    | None => ∃ ops o', run = (Done ops, o', s1) ∧ status_of ops = 400
    | Some (group, cs) =>
        match filter (available now (healths_of s)) cs with
        | [] => ∃ ops o', run = (Done ops, o', s1) ∧ status_of ops = 503
        | healthy => ∃ c id h w o', c ∈ healthy ∧ c_Provider c = Tracked id (wrapped_Name h) ∧
            htps !! id = Some h ∧ g_worlds s !! id = Some w ∧ 0 ≤ MaxRetries (retry h) ∧
            IsHealthy now (w_health w) = true ∧
            let d := mkDecision (wrapped_Name h) (c_Model c) (configured_strategy cfg group) group "" "" in
            let req' := set_Model (c_Model c) req in
            run = if rq_Stream req
                  then handleStream encode marshal can_flush cancelled (c_Provider c) req' d o' s1
                  else handleNonStream encode (c_Provider c) req' d o' s1
        end
    end.
Proof.
  intros Hrnd Hk Hwf Hsane Hprov Hmodel Hmsgs.
  unfold HandleChatCompletion. rewrite bool_decide_false by done.
  destruct (Nat.eqb_spec (length (rq_Messages req)) 0) as [Hl|_]; [by apply nil_length_inv in Hl|].
  pose proof (Route_spec cfg r req (routerMeta rq) k now (healths_of s) (g_route s) Hwf Hsane Hk) as Hroute.
  cbn [gw_Route gateway]. rewrite Hrnd.
  destruct (Route r (Some req) (routerMeta rq) (rand_Float64 k) now (healths_of s) (g_route s)) as [res st].
  destruct Hroute as [Hwf' Hres]. exists st. split; [done|].
  destruct (resolve_spec r (rq_Model req)) as [[group cs]|] eqn:Er.
  2:{ destruct Hres as [-> _]. do 2 eexists. split; [done|apply error_status]. }
  destruct (filter (available now (healths_of s)) cs) as [|c0 l] eqn:Ef.
  { destruct Hres as [-> _]. do 2 eexists. split; [done|apply error_status]. }
  destruct Hres as (s0&s0'&ws&c&_&_&_&Hc&_&->). rewrite <-Ef in Hc.
  destruct (picked_provider s _ group cs c Hprov Er Hc) as (id&h&w&Hp&Hid&Hw&Hmax&Hh).
  rewrite Ef in Hc. exists c, id, h, w. eexists. split_and!; try done. by rewrite Hp.
Qed.

(** C10: a non-streaming chat request, end to end.  An unknown model is
    answered with 400 and a model whose candidates are all unavailable with
    503, in both cases without calling any provider.  Otherwise one available
    candidate of the requested model or group is called, through its retrying
    decorator, with the candidate's own model name, and only that provider's
    health and metrics change; its reply is returned with status 200 and the
    routing headers, its failure as the mapped status.  The handler always
    returns. *)
Theorem chat_end_to_end (cfg : RoutingConfig) (k : Z) (can_flush cancelled : bool)
    (req : ChatCompletionRequest) (rq : Req) (o : Obs) (s : GwState)
    (Hrnd : rnd = rand_Float64 k) (Hk : 0 ≤ k < 2 ^ 53)
    (Hwf : router_wf cfg r (rs_heap (g_route s))) (Hsane : sane_routing r) (Hprov : providers_wf s)
    (Hmodel : rq_Model req ≠ "") (Hmsgs : rq_Messages req ≠ []) (Hnostream : rq_Stream req = false) :
  let '(e, o', s') := HandleChatCompletion encode marshal can_flush cancelled (DOk req) rq o s in
  ∃ ops, e = Done ops ∧ router_wf cfg r (rs_heap (g_route s')) ∧
    match resolve_spec r (rq_Model req) with
    | None => status_of ops = 400 ∧ g_worlds s' = g_worlds s
    | Some (group, cs) =>
        match filter (available now (healths_of s)) cs with
        | [] => status_of ops = 503 ∧ g_worlds s' = g_worlds s
        | healthy => ∃ c id h w w', c ∈ healthy ∧ c_Provider c = Tracked id (wrapped_Name h) ∧
            htps !! id = Some h ∧ g_worlds s !! id = Some w ∧ IsHealthy now (w_health w) = true ∧
            g_worlds s' = <[id := w']> (g_worlds s) ∧
            let d := mkDecision (wrapped_Name h) (c_Model c) (configured_strategy cfg group) group "" "" in
            match ChatCompletion h (upstream id (set_Model (c_Model c) req)) w with
            | (ROk resp, w1) => w' = w1 ∧
                serve_ops ops = (200, w_hdr (wrun new_writer (json_headers d)), encode (PChat resp))
            | (RErr err, w1) => w' = w1 ∧ status_of ops = provider_status err
            | (RNil, _) => False
            end
        end
    end.
Proof.
  destruct (chat_routed cfg k can_flush cancelled req rq o s Hrnd Hk Hwf Hsane Hprov Hmodel Hmsgs)
    as (st&Hst&Hrun). cbv zeta in Hrun.
  destruct (resolve_spec r (rq_Model req)) as [[group cs]|]; [|by destruct Hrun as (ops&o'&->&?); eauto].
  destruct (filter (available now (healths_of s)) cs) as [|c0 l];
    [by destruct Hrun as (ops&o'&->&?); eauto|].
  destruct Hrun as (c&id&h&w&o1&Hc&Hp&Hid&Hw&Hmax&Hh&->). rewrite Hnostream, Hp.
  unfold handleNonStream. cbn [gw_Chat gateway call]. rewrite Hid. simpl g_worlds. rewrite Hw.
  pose proof (ChatCompletion_not_nil h (upstream id (set_Model (c_Model c) req)) w Hmax) as Hnil.
  destruct (ChatCompletion h (upstream id (set_Model (c_Model c) req)) w) as [[resp|err|] w1] eqn:Ec; [| |done].
  all: eexists; split; [done|]; split; [done|]; exists c, id, h, w, w1; rewrite Ec; split_and!; try done.
  - apply json_response.
  - apply handleProviderError_status.
Qed.

(** C15: a streaming chat request, end to end.  As for a non-streaming one, an
    unknown model is answered with 400 and an unavailable one with 503;
    otherwise one available candidate is called through its retrying,
    health-tracking decorator and only that provider's state changes.  When it
    opens the stream, the client gets status 200, the event-stream and routing
    headers and one frame per chunk the decorator delivers up to the first
    stream error, then the DONE sentinel unless the client is gone; when it
    does not, the mapped status.  The handler always returns. *)
Theorem stream_end_to_end (cfg : RoutingConfig) (k : Z) (cancelled : bool)
    (req : ChatCompletionRequest) (rq : Req) (o : Obs) (s : GwState)
    (Hrnd : rnd = rand_Float64 k) (Hk : 0 ≤ k < 2 ^ 53)
    (Hwf : router_wf cfg r (rs_heap (g_route s))) (Hsane : sane_routing r) (Hprov : providers_wf s)
    (Hmodel : rq_Model req ≠ "") (Hmsgs : rq_Messages req ≠ []) (Hstream : rq_Stream req = true) :
  let '(e, o', s') := HandleChatCompletion encode marshal true cancelled (DOk req) rq o s in
  ∃ ops, e = Done ops ∧ router_wf cfg r (rs_heap (g_route s')) ∧
    match resolve_spec r (rq_Model req) with
    | None => status_of ops = 400 ∧ g_worlds s' = g_worlds s
    | Some (group, cs) =>
        match filter (available now (healths_of s)) cs with
        | [] => status_of ops = 503 ∧ g_worlds s' = g_worlds s
        | healthy => ∃ c id h w w', c ∈ healthy ∧ c_Provider c = Tracked id (wrapped_Name h) ∧
            htps !! id = Some h ∧ g_worlds s !! id = Some w ∧ IsHealthy now (w_health w) = true ∧
            g_worlds s' = <[id := w']> (g_worlds s) ∧
            let d := mkDecision (wrapped_Name h) (c_Model c) (configured_strategy cfg group) group "" "" in
            match ChatCompletionStream h (upstream_stream id (set_Model (c_Model c) req)) stop w with
            | (ROk evts, w1) => w' = w1 ∧
                serve_ops ops = (200, w_hdr (wrun new_writer (stream_headers d)),
                  frames (forwarded marshal evts ++ (if cancelled then [] else ["[DONE]"])))
            | (RErr err, w1) => w' = w1 ∧ status_of ops = provider_status err
            | (RNil, _) => False
            end
        end
    end.
Proof.
  destruct (chat_routed cfg k true cancelled req rq o s Hrnd Hk Hwf Hsane Hprov Hmodel Hmsgs)
    as (st&Hst&Hrun). cbv zeta in Hrun.
  destruct (resolve_spec r (rq_Model req)) as [[group cs]|]; [|by destruct Hrun as (ops&o'&->&?); eauto].
  destruct (filter (available now (healths_of s)) cs) as [|c0 l];
    [by destruct Hrun as (ops&o'&->&?); eauto|].
  destruct Hrun as (c&id&h&w&o1&Hc&Hp&Hid&Hw&Hmax&Hh&->). rewrite Hstream.
  set (d := mkDecision _ _ _ _ _ _). set (req' := set_Model _ _). set (s1 := mkGwState _ _).
  assert (gw_Stream (c_Provider c) req' s1 =
    let '(reply, w1) := ChatCompletionStream h (upstream_stream id req') stop w in
    (reply, mkGwState st (<[id := w1]> (g_worlds s)))) as Hcall.
  { rewrite Hp. cbn [gw_Stream gateway call]. rewrite Hid. unfold s1. simpl g_worlds. by rewrite Hw. }
  pose proof (ChatCompletionStream_not_nil h (upstream_stream id req') w Hmax) as Hnil.
  destruct (ChatCompletionStream h (upstream_stream id req') stop w) as [[evts|err|] w1] eqn:Ec; [| |done].
  - destruct (handleStream_ok encode marshal cancelled _ _ d o1 _ _ _ Hcall) as (ops&o'&->&Hs).
    exists ops. split; [done|]. split; [done|]. exists c, id, h, w, w1. unfold req' in Ec. rewrite Ec. by split_and!.
  - unfold handleStream. rewrite Hcall. eexists. split; [done|]. split; [done|].
    exists c, id, h, w, w1. unfold req' in Ec. rewrite Ec. split_and!; try done. apply handleProviderError_status.
Qed.
End Gateway.

(** ** Witness *)

Definition demo_htp (name : string) : HealthTrackingProvider := mkHTP name [] (mkRetryConfig 2 Second).
Definition demo_htps : gmap nat HealthTrackingProvider :=
  <[0%nat := demo_htp "openai"]> (<[1%nat := demo_htp "anthropic"]> ∅).
Definition demo_worlds : gmap nat World := (λ h, mkWorld h [] []) <$> demo_healths.
Definition demo_reply : ChatCompletionResponse := mkResponse "id" "" 0 "claude" None (mkUsage 1 2 3) "".
Definition demo_up (id : nat) (req : ChatCompletionRequest) : CallEnv ChatCompletionResponse :=
  mkCallEnv (λ _, inl demo_reply) (λ _, None) (λ _, f64_zero) 0 (λ _, 10).
Definition demo_up_stream (id : nat) (req : ChatCompletionRequest) : CallEnv (list StreamEvent) :=
  mkCallEnv (λ _, inl []) (λ _, None) (λ _, f64_zero) 0 (λ _, 10).
Definition demo_state : GwState := mkGwState (mkRouteState demo_heap ∅ []) demo_worlds.
Definition demo_chat : ChatCompletionRequest := set_Model "claude" demo_req.

Lemma demo_providers_wf : providers_wf demo_router demo_htps demo_state.
Proof.
  assert (models (rt_registry demo_router) =
    <["gpt-4o" := Tracked 0 "openai"]> (<["claude" := Tracked 1 "anthropic"]>
      (<["best" := Tracked 0 "openai"]> ∅))) as Hm by (vm_compute; reflexivity).
  intros m p. rewrite Hm, !lookup_insert.
  repeat case_decide; intros Hp; simplify_eq;
    [exists 0%nat, (demo_htp "openai")|exists 1%nat, (demo_htp "anthropic")|exists 0%nat, (demo_htp "openai")];
    eexists; (split; [reflexivity|split; [reflexivity|split; [vm_compute; reflexivity|done]]]).
Qed.

Lemma chat_end_to_end_witness :
  let '(e, _, _) := HandleChatCompletion
      (H := gateway demo_router demo_htps demo_up demo_up_stream (rand_Float64 3) 10 None)
      (λ _, "reply") (λ _, None) true false (DOk demo_chat)
      (mkReq "POST" "/v1/chat/completions" "" NoBody None) (mkObs None [] []) demo_state in
  ∃ ops, e = Done ops ∧ (serve_ops ops).2 = "reply".
Proof.
  pose proof (chat_end_to_end demo_router demo_htps demo_up demo_up_stream (rand_Float64 3) 10 None
    (λ _, "reply") (λ _, None) demo_routing 3 true false demo_chat
    (mkReq "POST" "/v1/chat/completions" "" NoBody None) (mkObs None [] []) demo_state eq_refl
    ltac:(lia) demo_router_wf demo_sane demo_providers_wf ltac:(discriminate) ltac:(discriminate)
    eq_refl) as Hc.
  destruct (HandleChatCompletion _ _ _ _ _ _ _ _) as [[e o'] s'].
  destruct Hc as (ops&->&_&Hm). exists ops. split; [reflexivity|].
  set (c0 := single_spec demo_router "claude" (Tracked 1 "anthropic")).
  assert (resolve_spec demo_router (rq_Model demo_chat) = Some ("", [c0])) as Hr by (vm_compute; reflexivity).
  rewrite Hr in Hm.
  assert (filter (available 10 (healths_of demo_state)) [c0] = [c0]) as Hf by (vm_compute; reflexivity).
  rewrite Hf in Hm. destruct Hm as (c&id&h&w&w'&Hin&Hp&Hid&Hw&_&_&Hrun).
  apply list_elem_of_singleton in Hin as ->. injection Hp as <- Hname.
  injection Hid as <-. destruct (ChatCompletion _ _ w) as [[resp|err|] w1] eqn:Ec; [|discriminate Ec|discriminate Ec].
  destruct Hrun as [_ ->]. reflexivity.
Defined.

Definition demo_chunk : ChatCompletionChunk := mkChunk "id" "" 0 "claude" None None.
Definition demo_up_events (id : nat) (req : ChatCompletionRequest) : CallEnv (list StreamEvent) :=
  mkCallEnv (λ _, inl [mkStreamEvent (Some demo_chunk) None; mkStreamEvent (Some demo_chunk) None])
    (λ _, None) (λ _, f64_zero) 0 (λ _, 10).
Definition demo_stream : ChatCompletionRequest :=
  mkRequest "claude" [mkMessage "user" "hello world" ""] None None None true [] None None None "".

Lemma stream_end_to_end_witness :
  let '(e, _, _) := HandleChatCompletion
      (H := gateway demo_router demo_htps demo_up demo_up_events (rand_Float64 3) 10 None)
      (λ _, "reply") (λ _, Some "{}") true false (DOk demo_stream)
      (mkReq "POST" "/v1/chat/completions" "" NoBody None) (mkObs None [] []) demo_state in
  ∃ ops, e = Done ops ∧ (serve_ops ops).2 = frames ["{}"; "{}"; "[DONE]"].
Proof.
  pose proof (stream_end_to_end demo_router demo_htps demo_up demo_up_events (rand_Float64 3) 10 None
    (λ _, "reply") (λ _, Some "{}") demo_routing 3 false demo_stream
    (mkReq "POST" "/v1/chat/completions" "" NoBody None) (mkObs None [] []) demo_state eq_refl
    ltac:(lia) demo_router_wf demo_sane demo_providers_wf ltac:(discriminate) ltac:(discriminate)
    eq_refl) as Hc.
  destruct (HandleChatCompletion _ _ _ _ _ _ _ _) as [[e o'] s'].
  destruct Hc as (ops&->&_&Hm). exists ops. split; [reflexivity|].
  set (c0 := single_spec demo_router "claude" (Tracked 1 "anthropic")).
  assert (resolve_spec demo_router (rq_Model demo_stream) = Some ("", [c0])) as Hr by (vm_compute; reflexivity).
  rewrite Hr in Hm.
  assert (filter (available 10 (healths_of demo_state)) [c0] = [c0]) as Hf by (vm_compute; reflexivity).
  rewrite Hf in Hm. destruct Hm as (c&id&h&w&w'&Hin&Hp&Hid&Hw&_&_&Hrun).
  apply list_elem_of_singleton in Hin as ->. injection Hp as <- Hname.
  injection Hid as <-.
  destruct (ChatCompletionStream _ _ _ w) as [[evts|err|] w1] eqn:Ec; [|discriminate Ec|discriminate Ec].
  injection Ec as <- _. destruct Hrun as [_ ->]. reflexivity.
Defined.
