(* ===== verification/Server.v ===== *)
(** * The HTTP server

    Models src/internal/server/server.go: the middleware stack and the route
    table that [New] builds from the [Options].  chi matches a request to a
    route and runs its handler; here a route is its method, pattern and
    complete handler chain. *)

From S2P Require Import Prelude GoStrings Float64 Model Health Metrics Retry Registry.
From S2P Require Import Strategies RateLimit Config Router Auth Http Capture Middleware.
From S2P Require Import MiddlewareProps Handlers.
From Stdlib Require Import Ascii.
Local Open Scope Z_scope.

(** The two admin endpoints, as handlers. *)
Record AdminKeysHandler (S : Type) := mkAdminKeysHandler {
  ah_Create : Handler S;
  ah_Revoke : Handler S;
}.
Arguments ah_Create {S}.
Arguments ah_Revoke {S}.

(** [HealthProviders]: the health objects by name, read in the current state
    ([None]: the option is empty). *)
Record Options (S : Type) := mkOptions {
  op_HealthProviders : option (S → gmap string ProviderHealth);
  op_Authenticator : option (@Authenticator S);
  op_AdminToken : string;
  op_AdminKeys : option (AdminKeysHandler S);
  op_RateLimiter : option (Reserver S);
  op_DebugBodies : bool;
}.
Arguments op_HealthProviders {S}.
Arguments op_Authenticator {S}.
Arguments op_AdminToken {S}.
Arguments op_AdminKeys {S}.
Arguments op_RateLimiter {S}.
Arguments op_DebugBodies {S}.

(** What a request reads from its surroundings: the request id chi assigned,
    elapsed times, the clock, and whether DEBUG is enabled. *)
Record ReqEnv := mkReqEnv {
  en_reqID : string;
  en_elapsed : Z;
  en_now : Z;
  en_racer : option Z;
  en_debug : bool;
}.

Section Server.
Context (encode : Payload → string) (parse_total : string → option Z).
Context (ww_Status ww_Bytes : list WOp → Z).
Context {S : Type} (opts : Options S) (env : ReqEnv).
(** The chat handler and the registry behind the model list. *)
Context (chat : Handler S) (registry : Registry).

Definition Route_ : Type := string * string * Handler S.

(** [r.Use] at the root: [Observe], then [RequestLogger] (chi's [RequestID]
    supplies the id, its [Recoverer] acts on panics only). *)
Definition root (pattern : string) (h : Handler S) : Handler S :=
  Observe ww_Status pattern (en_elapsed env)
    (RequestLogger ww_Status ww_Bytes (en_reqID env) (en_elapsed env) h).

(** The writer a [/v1] handler's middleware starts from. *)
Definition entry_writer : Writer :=
  wrun new_writer (if bool_decide (en_reqID env = "") then [] else [OSet "X-Request-Id" (en_reqID env)]).

(** The [/v1] group. *)
Definition api (h : Handler S) : Handler S :=
  let h := if op_DebugBodies opts then DebugRequestBodies 0 (en_debug env) h else h in
  let h := RateLimit encode parse_total (op_RateLimiter opts) (en_now env) (en_racer env) entry_writer h in
  match op_Authenticator opts with
  | Some a => RequireAPIKey encode a h
  | None => h
  end.

Definition adm (h : Handler S) : Handler S := RequireAdminToken encode (op_AdminToken opts) h.

Definition New : list Route_ :=
  [("GET", "/health", root "/health" (λ _ o s, (HandleHealth encode, o, s)))] ++
  match op_HealthProviders opts with
  | Some hs =>
      [("GET", "/internal/health",
        root "/internal/health" (λ _ o s, (HandleInternalHealth encode (en_now env) (hs s), o, s)))]
  | None => []
  end ++
  [("POST", "/v1/chat/completions", root "/v1/chat/completions" (api chat));
   ("GET", "/v1/models", root "/v1/models" (api (λ _ o s, (HandleListModels encode registry, o, s))))] ++
  match op_AdminKeys opts with
  | Some ak =>
      if bool_decide (op_AdminToken opts = "") then []
      else [("POST", "/internal/admin/keys", root "/internal/admin/keys" (adm (ah_Create ak)));
            ("DELETE", "/internal/admin/keys/{id}", root "/internal/admin/keys/{id}" (adm (ah_Revoke ak)))]
  | None => []
  end.

(** ** Protection of the routes *)

Lemma error_status_after st ty c msg pre :
  (pre = [] ∨ ∃ k v, pre = [OSet k v]) → status_of (pre ++ apierr_Write encode st ty c msg) = client_status st.
Proof.
  intros Hpre. unfold status_of, serve_ops. rewrite wrun_app, serve_error; [done|].
  destruct Hpre as [-> | (k&v&->)]; done.
Qed.

(** The outer middleware adds at most a header before the handler's
    operations, and leaves the state to the handler. *)
Lemma root_passes pattern h r o s :
  ∃ o0 pre, (pre = [] ∨ ∃ k v, pre = [OSet k v]) ∧
    (root pattern h r o s).1.1 = pre ++ (h r o0 s).1.1 ∧ (root pattern h r o s).2 = (h r o0 s).2.
Proof.
  unfold root, Observe, RequestLogger.
  exists {| ob_info := Some zero_info; ob_metrics := ob_metrics o; ob_log := ob_log o |},
    (if bool_decide (en_reqID env = "") then [] else [OSet "X-Request-Id" (en_reqID env)]).
  destruct (h r _ s) as [[ops o1] s1]. simpl. split; [|done]. case_bool_decide; eauto.
Qed.

(** A request that does not authenticate, on a handler behind the API-key
    gate. *)
Lemma api_rejects a h r o s s1 :
  op_Authenticator opts = Some a →
  (bearerToken (r_Authorization r) = None ∧ s1 = s ∨
   ∃ tok e, bearerToken (r_Authorization r) = Some tok ∧ a tok s = (inl e, s1)) →
  (api h r o s).2 = s1 ∧ ∃ st ty c msg, (st = 401 ∨ st = 503) ∧ (api h r o s).1.1 = apierr_Write encode st ty c msg.
Proof.
  intros Ha Hrej. unfold api. rewrite Ha. unfold RequireAPIKey, writeAuthError.
  case_bool_decide as Ht.
  { destruct Hrej as [[_ ->]|(tok&e&Hb&_)]; [split; [done|]; do 4 eexists; split; [by left|done]|].
    unfold bearerToken in Hb. by rewrite Ht in Hb. }
  destruct Hrej as [[-> ->]|(tok&e&->&->)].
  - split; [done|]. do 4 eexists; split; [by left|done].
  - destruct e; (split; [done|]; do 4 eexists; split; [|done]; auto).
Qed.

Lemma admin_rejects h r o s :
  op_AdminToken opts ≠ "" → bearerToken (r_Authorization r) ≠ Some (op_AdminToken opts) →
  (adm h r o s).2 = s ∧ ∃ ty c msg, (adm h r o s).1.1 = apierr_Write encode 401 ty c msg.
Proof.
  intros Hne Hb. unfold adm, RequireAdminToken, writeAuthError. case_bool_decide; [eauto|].
  destruct (bearerToken _) as [tok|]; [|eauto]. rewrite (bool_decide_false (tok = _)) by congruence.
  rewrite orb_true_r. eauto.
Qed.

(** C25: protection of the routes.  With an authenticator configured, every
    [/v1] route answers a request without a valid key with 401 (503 when the
    key store is down), changing nothing but the authenticator's own state.
    Admin routes exist only when both an admin token and the handler are
    configured, and every one of them answers a request without that token
    with 401 and changes nothing. *)
Theorem routes_protected (m pat : string) (h : Handler S) (r : Req) (o : Obs) (s : S)
    (Hroute : (m, pat, h) ∈ New) :
  (∀ a s1, HasPrefix pat "/v1/" = true → op_Authenticator opts = Some a →
     (bearerToken (r_Authorization r) = None ∧ s1 = s ∨
      ∃ tok e, bearerToken (r_Authorization r) = Some tok ∧ a tok s = (inl e, s1)) →
     (h r o s).2 = s1 ∧ (status_of (h r o s).1.1 = 401 ∨ status_of (h r o s).1.1 = 503)) ∧
  (HasPrefix pat "/internal/admin/" = true →
     op_AdminToken opts ≠ "" ∧ is_Some (op_AdminKeys opts) ∧
     (bearerToken (r_Authorization r) ≠ Some (op_AdminToken opts) →
      (h r o s).2 = s ∧ status_of (h r o s).1.1 = 401)).
Proof.
  assert (∀ pat leaf a s1, op_Authenticator opts = Some a →
     (bearerToken (r_Authorization r) = None ∧ s1 = s ∨
      ∃ tok e, bearerToken (r_Authorization r) = Some tok ∧ a tok s = (inl e, s1)) →
     let h := root pat (api leaf) in
     (h r o s).2 = s1 ∧ (status_of (h r o s).1.1 = 401 ∨ status_of (h r o s).1.1 = 503)) as Hapi.
  { intros pat' leaf a s1 Ha Hrej. destruct (root_passes pat' (api leaf) r o s) as (o0&pre&Hpre&Hops&Hst).
    destruct (api_rejects a leaf r o0 s s1 Ha Hrej) as (Hs&st&ty&c&msg&Hc&He). simpl.
    rewrite Hst, Hops, Hs, He, error_status_after by done.
    by destruct Hc as [-> | ->]; auto. }
  assert (∀ pat leaf, op_AdminToken opts ≠ "" → bearerToken (r_Authorization r) ≠ Some (op_AdminToken opts) →
     let h := root pat (adm leaf) in (h r o s).2 = s ∧ status_of (h r o s).1.1 = 401) as Hadm.
  { intros pat' leaf Hne Hb. destruct (root_passes pat' (adm leaf) r o s) as (o0&pre&Hpre&Hops&Hst).
    destruct (admin_rejects leaf r o0 s Hne Hb) as (Hs&ty&c&msg&He). simpl.
    by rewrite Hst, Hops, Hs, He, error_status_after. }
  unfold New in Hroute. rewrite !elem_of_app in Hroute. destruct Hroute as [Hr|[Hr|[Hr|Hr]]].
  - apply list_elem_of_singleton in Hr as [= -> -> ->]. done.
  - destruct (op_HealthProviders opts); [|by apply elem_of_nil in Hr].
    apply list_elem_of_singleton in Hr as [= -> -> ->]. done.
  - apply elem_of_cons in Hr as [[= -> -> ->]|[= -> -> ->]%list_elem_of_singleton]; (split; [|done]); intros; eauto.
  - destruct (op_AdminKeys opts) as [ak|]; [|by apply elem_of_nil in Hr].
    case_bool_decide as Hne; [by apply elem_of_nil in Hr|].
    apply elem_of_cons in Hr as [[= -> -> ->]|[= -> -> ->]%list_elem_of_singleton]; (split; [done|]); intros _;
      (split; [done|]); (split; [done|]); intros; by apply Hadm.
Qed.
End Server.

(** ** Witness *)

Definition demo_opts : Options Z :=
  mkOptions Z None (Some (λ tok s, (if bool_decide (tok = "good") then inr demo_info else inl ErrInvalidKey, s + 1)))
    "" None None false.

Lemma routes_protected_witness :
  let h := root (λ _, 0) (λ _, 0) (mkReqEnv "id" 0 0 None false) "/v1/chat/completions"
    (api (λ _, "") (λ _, None) demo_opts (mkReqEnv "id" 0 0 None false) demo_handler) in
  let r := mkReq "POST" "/v1/chat/completions" "Bearer bad" NoBody None in
  (h r (mkObs None [] []) 7).2 = 8.
Proof.
  intros h r.
  pose proof (routes_protected (λ _, "") (λ _, None) (λ _, 0) (λ _, 0) demo_opts
    (mkReqEnv "id" 0 0 None false) demo_handler NewRegistry "POST" "/v1/chat/completions" h r
    (mkObs None [] []) 7 ltac:(right; left)) as [H _].
  destruct (H _ 8 eq_refl eq_refl) as [Hs _]; [|exact Hs].
  right. exists "bad", ErrInvalidKey. split; reflexivity.
Defined.
