(* ===== verification/System.v ===== *)
(** * The gateway as a whole

    Puts the server of [Server] together with the key cache and key store of
    [Auth], [AdminKeys] and [AuthProps], the Redis limiter of [RateLimit] and
    the chat handler over the routing gateway of [Integration], and runs many
    requests against them at once.

    A [/v1] request touches the shared state twice: on the way in, when it is
    authenticated and the limiter reserves a slot, and on the way out, when the
    handler has answered and the limiter records the tokens.  [enter] and
    [leave] are the two halves; [api_phases] shows that one after the other
    they are the handler chain that [New] installs.  In [sys_step] the halves
    of different requests, the admin requests, other instances' writes and key
    expiry in Redis interleave freely. *)

From S2P Require Import Prelude GoStrings Float64 Sha256 Model Health Metrics Retry Registry.
From S2P Require Import Strategies Redis RateLimit RateLimitWindow RateLimitProps Config Router RouterProps Store Auth Http.
From S2P Require Import AdminKeys AuthProps Capture Middleware MiddlewareProps Handlers Integration Server.
From Stdlib Require Import Ascii.
Local Open Scope Z_scope.

(** ** The two halves of a request *)

Section Phases.
Context (encode : Payload → string) (parse_total : string → option Z) {S : Type}.

(** What the limiter decided for a request that goes through: no key in the
    context, a failed call, or a reservation with the headers already set. *)
Inductive Ticket :=
| NoKey
| FailOpen (info : KeyInfo)
| Reserved (info : KeyInfo) (hdrs : list WOp).

Definition auth_enter (a : @Authenticator S) (r : Req) (o : Obs) (s : S)
    : (list WOp * Obs + Req * Obs) * S :=
  let malformed reason :=
    (inl (writeAuthError encode "Missing or malformed Authorization header.",
          emit (RecordAuthFailure reason) o), s) in
  if bool_decide (TrimSpace (r_Authorization r) = "") then malformed "missing"
  else match bearerToken (r_Authorization r) with
  | None => malformed "malformed"
  | Some token =>
      match a token s with
      | (inl ErrInvalidKey, s) =>
          (inl (writeAuthError encode "Invalid API key.", emit (RecordAuthFailure "unknown") o), s)
      | (inl (EBackend _), s) =>
          (inl (apierr_Write encode 503 "internal_error" "internal_error" "authentication backend unavailable",
                log LError "auth lookup failed" [] o), s)
      | (inr info, s) => (inr (with_key info r, SetOrgKey (OrgID info) (KeyID info) o), s)
      end
  end.

Lemma RequireAPIKey_phases a next r o s :
  RequireAPIKey encode a next r o s =
    match auth_enter a r o s with
    | (inl (ops, o), s) => (ops, o, s)
    | (inr (r, o), s) => next r o s
    end.
Proof. unfold RequireAPIKey, auth_enter. repeat case_match; by simplify_eq. Qed.

Definition rl_enter (rv : Reserver S) (warn_now : Z) (racer : option Z) (r : Req) (o : Obs) (s : S)
    : (list WOp * Obs + Ticket * Obs) * S :=
  match KeyInfoFromContext (r_Key r) with
  | None => (inr (NoKey, o), s)
  | Some info =>
      match rv_Reserve rv info s with
      | (inl err, s) =>
          let '(o, s) := warnFailOpen rv warn_now racer err (emit (RecordRateLimit "failopen") o) s in
          (inr (FailOpen info, o), s)
      | (inr res, s) =>
          if negb (Allowed res) then
            (inl (setRateLimitHeaders res ++ WriteRateLimit encode (RetryAfter res) "",
                  MarkRateLimited (emit (RecordRateLimit "throttled") o)), s)
          else (inr (Reserved info (setRateLimitHeaders res), emit (RecordRateLimit "allowed") o), s)
      end
  end.

Definition rl_leave (rv : Reserver S) (w : Writer) (next : Handler S) (tk : Ticket) (r : Req) (o : Obs) (s : S)
    : list WOp * Obs * S :=
  let '(ops, o, s) := next r o s in
  match tk with
  | Reserved info hdrs =>
      let '(record, out) := finish parse_total (cw_run (wrun w hdrs) ops) in
      match record with
      | Some n =>
          match rv_RecordTokens rv info n s with
          | (None, s) => (hdrs ++ out, o, s)
          | (Some e, s) =>
              (hdrs ++ out, log Debug "rate limiter: failed to record tokens" [("err", AStr e)] o, s)
          end
      | None => (hdrs ++ out, o, s)
      end
  | _ => (ops, o, s)
  end.

Lemma rl_serve_phases rv now racer w next r o s :
  rl_serve encode parse_total rv now racer w next r o s =
    match rl_enter rv now racer r o s with
    | (inl (ops, o), s) => (ops, o, s)
    | (inr (tk, o), s) => rl_leave rv w next tk r o s
    end.
Proof.
  unfold rl_serve, rl_enter, rl_leave. destruct (KeyInfoFromContext (r_Key r)) as [info|]; [|by destruct (next r o s) as [[]]].
  destruct (rv_Reserve rv info s) as [[err|res] s1].
  - destruct (warnFailOpen _ _ _ _ _ _) as [o2 s2]. by destruct (next r o2 s2) as [[]].
  - by destruct (negb (Allowed res)).
Qed.

(** The halves of the whole [/v1] chain. *)
Definition enter (a : @Authenticator S) (rv : Reserver S) (env : ReqEnv) (r : Req) (o : Obs) (s : S)
    : (list WOp * Obs + Ticket * Req * Obs) * S :=
  match auth_enter a r o s with
  | (inl e, s) => (inl e, s)
  | (inr (r, o), s) =>
      match rl_enter rv (en_now env) (en_racer env) r o s with
      | (inl e, s) => (inl e, s)
      | (inr (tk, o), s) => (inr (tk, r, o), s)
      end
  end.

Definition leave (rv : Reserver S) (debug_bodies : bool) (env : ReqEnv) (h : Handler S) (tk : Ticket) (r : Req)
    (o : Obs) (s : S) : list WOp * Obs * S :=
  let h := if debug_bodies then DebugRequestBodies 0 (en_debug env) h else h in
  rl_leave rv (entry_writer env) h tk r o s.

(** Served without interruption, a request goes through [enter] and then
    [leave]. *)
Lemma api_phases (opts : Options S) a rv env h r o s :
  op_Authenticator opts = Some a → op_RateLimiter opts = Some rv →
  api encode parse_total opts env h r o s =
    match enter a rv env r o s with
    | (inl (ops, o), s) => (ops, o, s)
    | (inr (tk, r, o), s) => leave rv (op_DebugBodies opts) env h tk r o s
    end.
Proof.
  intros Ha Hrv. unfold api, enter, leave. rewrite Ha, Hrv, RequireAPIKey_phases.
  destruct (auth_enter a r o s) as [[[ops o1]|[r1 o1]] s1]; [done|]. unfold RateLimit.
  rewrite rl_serve_phases. destruct (rl_enter rv _ _ r1 o1 s1) as [[[ops o2]|[tk o2]] s2]; done.
Qed.
End Phases.

(** ** The shared state *)

(** A request inside a handler: what the limiter decided, the request and its
    observations, and whether its route is the chat route. *)
Record Pending := mkPending {
  pd_ticket : Ticket;
  pd_req : Req;
  pd_obs : Obs;
  pd_env : ReqEnv;
  pd_chat : bool;
}.

(** A request that reached a [/v1] handler: its key, when it did (ms), and
    whether the limiter let it in only because Redis failed. *)
Record Served := mkServed {
  sv_info : KeyInfo;
  sv_time : Z;
  sv_open : bool;
}.

Section Sys.
Context {L : Type → Type} `{LRULaws L} {rdb : Type} `{RedisLaws rdb}.
Context (encode : Payload → string) (marshal : option ChatCompletionChunk → option string).
Context (parse_total : string → option Z) (parse_uuid : string → option string).
Context (decode : Body → Decoded) (decode_create : Body → option CreateKeyRequest).
(** The configuration: limiter, admin token, body logging, router, registry
    and provider decorators. *)
Context (rl : redisLimiter) (inst admin_token : string) (debug_bodies : bool).
Context (rt : defaultRouter) (htps : gmap nat HealthTrackingProvider).

(** [y_served] is a record of the execution only: nothing reads it. *)
Record Sys := mkSys {
  y_auth : sys (L := L);
  y_lim : LimState rdb;
  y_warn : Z;
  y_gw : GwState;
  y_pend : gmap nat Pending;
  y_served : list Served;
}.

Definition on_auth (a : sys) (s : Sys) : Sys := mkSys a (y_lim s) (y_warn s) (y_gw s) (y_pend s) (y_served s).
Definition on_lim (l : LimState rdb) (s : Sys) : Sys :=
  mkSys (y_auth s) l (y_warn s) (y_gw s) (y_pend s) (y_served s).
Definition on_warn (v : Z) (s : Sys) : Sys := mkSys (y_auth s) (y_lim s) v (y_gw s) (y_pend s) (y_served s).
Definition on_gw (g : GwState) (s : Sys) : Sys :=
  mkSys (y_auth s) (y_lim s) (y_warn s) g (y_pend s) (y_served s).
Definition on_pend (p : gmap nat Pending) (sv : list Served) (s : Sys) : Sys :=
  mkSys (y_auth s) (y_lim s) (y_warn s) (y_gw s) p sv.

(** ** The components on the shared state *)

(** [time.Time.UnixMilli] of a clock in nanoseconds. *)
Definition ms (t : Z) : Z := t / Millisecond.

Definition sys_auth (t : Z) (conn : option dberr) : @Authenticator Sys := λ tok s,
  let a := y_auth s in
  let '(r, c, _) := Authenticate (λ h, GetByHash conn t h (st_db a)) t tok (st_cache a) in
  (r, on_auth (mksys (st_db a) c (st_elsewhere a) t) s).

Definition sys_limiter (t : Z) (net : Net) (t' : Z) (net' : Net) : Reserver Sys := {|
  rv_Reserve info s :=
    let '(res, l) := Reserve rl inst info (ms t) net (y_lim s) in (res, on_lim l s);
  rv_RecordTokens info n s :=
    let '(err, l) := RecordTokens rl inst info n (ms t') net' (y_lim s) in (err, on_lim l s);
  rv_lastWarn := y_warn;
  rv_setLastWarn := on_warn;
|}.

(** What the chat handler finds outside the gateway when it runs. *)
Record ChatEnv := mkChatEnv {
  ce_upstream : nat → ChatCompletionRequest → CallEnv ChatCompletionResponse;
  ce_stream : nat → ChatCompletionRequest → CallEnv (list StreamEvent);
  ce_rnd : f64;
  ce_clock : Z;
  ce_stop : option nat;
  ce_can_flush : bool;
  ce_cancelled : bool;
}.

Definition gw_leaf (chat : bool) (e : ChatEnv) : Handler GwState :=
  if chat then
    chat_handler (H := gateway rt htps (ce_upstream e) (ce_stream e) (ce_rnd e) (ce_clock e) (ce_stop e))
      encode marshal (ce_can_flush e) (ce_cancelled e) decode
  else λ _ o g, (HandleListModels encode (rt_registry rt), o, g).

(** A handler of the gateway as one of the whole state. *)
Definition lift (h : Handler GwState) : Handler Sys := λ r o s,
  let '(ops, o, g) := h r o (y_gw s) in (ops, o, on_gw g s).

(** The admin endpoints; a [Create] whose random source is exhausted has not
    returned and has no effect. *)
Definition sys_admin (t : Z) (src : list (string + Z)) (newid id : string) (conn cg cr : option dberr)
    : AdminKeysHandler Sys := {|
  ah_Create := λ r o s,
    match admin_Create encode parse_uuid (decode_create (r_Body r)) src conn t newid (st_db (y_auth s)) with
    | Some (ops, d) => (ops, o, on_auth (mksys d (st_cache (y_auth s)) (st_elsewhere (y_auth s)) t) s)
    | None => ([], o, s)
    end;
  ah_Revoke := λ _ o s,
    let '(ops, d, c) := admin_Revoke encode parse_uuid (Some Invalidate) id cg cr (st_db (y_auth s))
                          (st_cache (y_auth s)) in
    (ops, o, on_auth (mksys d c (st_elsewhere (y_auth s)) t) s);
|}.

(** What [New] is given. *)
Definition sys_healths (s : Sys) : gmap string ProviderHealth :=
  list_to_map (omap (λ ih, (λ w, (wrapped_Name ih.2, w_health w)) <$> g_worlds (y_gw s) !! ih.1)
                 (map_to_list htps)).

Definition sys_options (t : Z) (conn : option dberr) (net : Net) (t' : Z) (net' : Net)
    (admin : AdminKeysHandler Sys) : Options Sys :=
  mkOptions Sys (Some sys_healths) (Some (sys_auth t conn)) admin_token (Some admin)
    (Some (sys_limiter t net t' net')) debug_bodies.

(** ** Executions *)

(** A UUID as PostgreSQL prints it has no colon. *)
Definition id_text (u : string) : Prop := str_all (not_char ":"%char) u = true.

Definition ticket_served (t : Z) (tk : Ticket) : list Served :=
  match tk with
  | NoKey => []
  | FailOpen info => [mkServed info (ms t) true]
  | Reserved info _ => [mkServed info (ms t) false]
  end.

(** A request that has entered is in its handler; one that was answered on the
    way in is gone. *)
Definition settle (i : nat) (env : ReqEnv) (chat : bool) (t : Z)
    (res : list WOp * Obs + Ticket * Req * Obs) (s : Sys) : Sys :=
  match res with
  | inl _ => s
  | inr (tk, r, o) => on_pend (<[i := mkPending tk r o env chat]> (y_pend s)) (ticket_served t tk ++ y_served s) s
  end.

Inductive sys_step (s : Sys) (t : Z) : Sys → Prop :=
| sy_enter i env conn net r o chat res s1 :
    y_pend s !! i = None →
    enter encode (sys_auth t conn) (sys_limiter t net t net) env r o s = (res, s1) →
    sys_step s t (settle i env chat t res s1)
| sy_leave i p e net ops o s1 :
    y_pend s !! i = Some p →
    leave parse_total (sys_limiter t net t net) debug_bodies (pd_env p) (lift (gw_leaf (pd_chat p) e))
      (pd_ticket p) (pd_req p) (pd_obs p) s = (ops, o, s1) →
    sys_step s t (on_pend (delete i (y_pend s1)) (y_served s1) s1)
| sy_create r o src newid id conn cg cr :
    api_keys (st_db (y_auth s)) !! newid = None → id_text newid →
    sys_step s t (RequireAdminToken encode admin_token (ah_Create (sys_admin t src newid id conn cg cr)) r o s).2
| sy_revoke r o src newid id conn cg cr :
    infra cg →
    sys_step s t (RequireAdminToken encode admin_token (ah_Revoke (sys_admin t src newid id conn cg cr)) r o s).2
| sy_revoke_elsewhere id err d :
    store_Revoke parse_uuid None id (st_db (y_auth s)) = (err, d) →
    sys_step s t (on_auth (mksys d (st_cache (y_auth s)) (first_revocation parse_uuid t id (y_auth s)) t) s)
| sy_touch conn id err d :
    TouchLastUsedAt parse_uuid conn t id (st_db (y_auth s)) = (err, d) →
    sys_step s t (on_auth (mksys d (st_cache (y_auth s)) (st_elsewhere (y_auth s)) t) s)
| sy_expire :
    sys_step s t (on_lim (mkLimState (expire_due (ms t) (store (y_lim s))) (reqIDCounter (y_lim s))) s).

(** The clock after a step. *)
Definition at_time (t : Z) (s : Sys) : Sys :=
  on_auth (mksys (st_db (y_auth s)) (st_cache (y_auth s)) (st_elsewhere (y_auth s)) t) s.

Inductive sys_reach (s0 : Sys) : nat → Sys → Prop :=
| sreach_init : sys_reach s0 0 s0
| sreach_step n s t s' :
    sys_reach s0 n s → st_clock (y_auth s) ≤ t → sys_step s t s' → sys_reach s0 (S n) (at_time t s').

(** ** Which rows exist, and their limits *)

Definition ids_ok (d : DB) : Prop := ∀ u row, api_keys d !! u = Some row → id_text u.

(** A table change that keeps every row's identity and adds only rows with
    well-formed ids. *)
Definition rows_kept (d d' : DB) : Prop :=
  (∀ u row, api_keys d !! u = Some row → ∃ row', api_keys d' !! u = Some row' ∧ info_of row' = info_of row) ∧
  (ids_ok d → ids_ok d').

Lemma rows_kept_refl d : rows_kept d d.
Proof. split; [eauto|done]. Qed.

Lemma update_kept conn id f d err d' :
  (∀ k, same_key k (f k)) → update_by_id parse_uuid conn id f d = (err, d') → rows_kept d d'.
Proof.
  intros Hs Hup. split.
  - intros u row Hu. destruct (update_evolves parse_uuid conn id f d err d' (λ _, True) Hs
      ltac:(by right) Hup u row Hu) as (row'&Hu'&[_ Hi]&_). eauto.
  - intros Hids u row. unfold update_by_id in Hup.
    destruct conn; [simplify_eq; apply Hids|]. destruct (parse_uuid id) as [u0|]; [|simplify_eq; apply Hids].
    simplify_eq. simpl. rewrite lookup_alter. case_decide; [|apply Hids].
    subst. destruct (api_keys d !! u) as [k|] eqn:E; [|done]. intros _. by eapply Hids.
Qed.

Lemma create_kept req src conn t newid d ops d' :
  api_keys d !! newid = None → id_text newid → hashed d →
  admin_Create encode parse_uuid req src conn t newid d = Some (ops, d') → rows_kept d d'.
Proof.
  intros Hnew Hid Hh Hc. apply admin_Create_inv in Hc as [->|(k&h&p&Hne&->)]; [apply rows_kept_refl|].
  split.
  - intros u row Hu. destruct (proj1 (Create_evolves parse_uuid conn t newid k h p d Hnew Hne Hh) u row Hu)
      as (row'&Hu'&[_ Hi]&_). eauto.
  - intros Hids u row. unfold Create. destruct conn; [apply Hids|]. destruct (negb _); [apply Hids|].
    destruct (negb _); [apply Hids|].
    destruct (parse_uuid _); [|apply Hids]. destruct (existsb _ _); [apply Hids|].
    destruct (negb _); [apply Hids|]. simpl. rewrite lookup_insert. case_decide; [by subst|apply Hids].
Qed.

(** Two rows with the same limiter key are the same row. *)
Lemma rpmKey_row d u v row row' :
  db_wf d → ids_ok d → api_keys d !! u = Some row → api_keys d !! v = Some row' →
  rpmKey (info_of row) = rpmKey (info_of row') → u = v.
Proof.
  intros Hwf Hids Hu Hv Heq. rewrite <-(dw_id _ Hwf _ _ Hu), <-(dw_id _ Hwf _ _ Hv).
  assert (∀ k, rpmKey k = (("ratelimit:" +:+ OrgID k) +:+ String ":" (KeyID k)) +:+ ":rpm") as E.
  { intros k. unfold rpmKey. by rewrite !app_assoc_str. }
  rewrite !E in Heq. apply app_inj_r_str, (f_equal (after_last ":"%char)) in Heq.
  assert (∀ u k, api_keys d !! u = Some k → str_all (not_char ":"%char) (ak_ID k) = true) as Hc.
  { intros w k Hw. rewrite (dw_id _ Hwf _ _ Hw). by eapply Hids. }
  rewrite !after_last_app in Heq by (simpl; eauto). by injection Heq.
Qed.

(** ** The invariant *)

Section Limit.
(** One stored key: its row's identity and effective limit. *)
Context (ttl : Z) (u0 : string) (info0 : KeyInfo).
Abbreviation K0 := (rpmKey info0).
Abbreviation L0 := (effectiveRPM rl info0).

Definition counted (x : Served) : Prop := sv_open x = false.

Record sys_inv (s : Sys) (log : list Admission) : Prop := {
  si_auth : inv ttl (y_auth s);
  si_ids : ids_ok (st_db (y_auth s));
  si_row : ∃ row, api_keys (st_db (y_auth s)) !! u0 = Some row ∧ info_of row = info0;
  si_win : window_inv rl inst K0 L0 (ms (st_clock (y_auth s))) (y_lim s) log;
  si_sub : ((λ x, (rpmKey (sv_info x), sv_time x)) <$> filter counted (y_served s)) `sublist_of`
           ((λ a, (adm_key a, adm_time a)) <$> log);
  si_rows x : x ∈ y_served s → ∃ u row, api_keys (st_db (y_auth s)) !! u = Some row ∧ info_of row = sv_info x;
}.

(** A step that changes the key store or the cache only. *)
Lemma sys_inv_auth a' s log :
  sys_inv s log → inv ttl a' → rows_kept (st_db (y_auth s)) (st_db a') →
  st_clock (y_auth s) ≤ st_clock a' → sys_inv (on_auth a' s) log.
Proof.
  intros [Ha Hi (row&Hrow&Hr0) Hw Hs Hrows] Ha' [Hk Hids] Hclk. split; simpl; auto.
  - destruct (Hk _ _ Hrow) as (row'&?&?). exists row'. split; [done|congruence].
  - eapply window_inv_later; [|exact Hw]. apply Z.div_le_mono; [by compute|done].
  - intros x Hx. destruct (Hrows x Hx) as (u&r&Hu&Hr). destruct (Hk _ _ Hu) as (r'&?&?).
    exists u, r'. split; [done|congruence].
Qed.

(** Authentication on the way in. *)
Lemma auth_enter_inv t conn r o s log res s1 :
  sys_inv s log → st_clock (y_auth s) ≤ t →
  auth_enter encode (sys_auth t conn) r o s = (res, s1) →
  sys_inv s1 log ∧ y_lim s1 = y_lim s ∧ st_clock (y_auth s1) ≤ t ∧
  ∀ r' o', res = inr (r', o') → ∃ info u row, r_Key r' = Some info ∧
    api_keys (st_db (y_auth s1)) !! u = Some row ∧ info_of row = info.
Proof.
  intros Hi Hclk. unfold auth_enter. case_bool_decide; [by intros [= <- <-]|].
  destruct (bearerToken (r_Authorization r)) as [tok|]; [|by intros [= <- <-]].
  unfold sys_auth.
  destruct (Authenticate _ _ _ _) as [[ans c] ts] eqn:Ea.
  pose proof (inv_auth ttl _ t conn tok _ _ _ (si_auth _ _ Hi) Hclk Ea) as Hinv.
  assert (sys_inv (on_auth (mksys (st_db (y_auth s)) c (st_elsewhere (y_auth s)) t) s) log) as Hs.
  { apply sys_inv_auth; [done..|apply rows_kept_refl|done]. }
  destruct ans as [[|e]|info]; intros [= <- <-]; (split; [exact Hs|]; split; [done|]; split; [simpl; lia|]);
    intros r' o' [= <- <-].
  destruct (accepted_row _ _ _ _ _ _ _ _ (si_auth _ _ Hi) Ea) as (u&row&Hu&_&->&_).
  exists (info_of row), u, row. done.
Qed.

(** A key that authenticates has the limit of its row. *)
Lemma limit_of_row s log u row :
  sys_inv s log → api_keys (st_db (y_auth s)) !! u = Some row → rpmKey (info_of row) = K0 →
  effectiveRPM rl (info_of row) = L0.
Proof.
  intros [Ha Hi (row0&Hrow&<-) _ _ _] Hu HK.
  assert (u = u0) as -> by (eapply rpmKey_row; [apply Ha|done..]). congruence.
Qed.

(** One [Reserve], in terms of the limiter's own execution. *)
Lemma reserve_inv t net info s log :
  0 < L0 → exact_window (W rl) → exact_clock (ms t) → sys_inv s log → st_clock (y_auth s) ≤ t →
  reqIDCounter (y_lim s) + 1 < 2 ^ 64 →
  (∃ u row, api_keys (st_db (y_auth s)) !! u = Some row ∧ info_of row = info) →
  let sl := step rl inst (y_lim s, log) (EReserve (ms t) info net) in
  window_inv rl inst K0 L0 (ms t) sl.1 sl.2.
Proof.
  intros HL HW Ht Hi Hclk Hc (u&row&Hu&<-) sl.
  assert (ms (st_clock (y_auth s)) ≤ ms t) by (apply Z.div_le_mono; [by compute|done]).
  eapply window_inv_reserve; eauto; [|apply Hi]. by eapply limit_of_row.
Qed.

Lemma inv_later a t : inv ttl a → st_clock a ≤ t → inv ttl (mksys (st_db a) (st_cache a) (st_elsewhere a) t).
Proof.
  intros [? ? ? ? Hp] Hclk. split; try done. intros hash info t' Hl.
  destruct (Hp _ _ _ Hl) as [? Hx]. split; [simpl; lia|exact Hx].
Qed.

(** A step of the limiter that lets at most one request in. *)
Lemma sys_inv_lim t l w g p sv s log log' :
  sys_inv s log → st_clock (y_auth s) ≤ t → window_inv rl inst K0 L0 (ms t) l log' →
  (∃ new, log' = new ++ log ∧
     ((λ x, (rpmKey (sv_info x), sv_time x)) <$> filter counted sv) `sublist_of`
     ((λ a, (adm_key a, adm_time a)) <$> new)) →
  (∀ x, x ∈ sv → ∃ u row, api_keys (st_db (y_auth s)) !! u = Some row ∧ info_of row = sv_info x) →
  sys_inv (at_time t (mkSys (y_auth s) l w g p (sv ++ y_served s))) log'.
Proof.
  intros [Ha Hi Hrow Hw Hs Hrows] Hclk Hwin (new&->&Hnew) Hsv. split; simpl; auto.
  - by apply inv_later.
  - rewrite filter_app, !fmap_app. by apply sublist_app.
  - intros x [Hx|Hx]%elem_of_app; auto.
Qed.

Lemma step_reserve_log t net info st log :
  ∃ new, (step rl inst (st, log) (EReserve (ms t) info net)).2 = new ++ log ∧
    match (Reserve rl inst info (ms t) net st).1 with
    | inr x => Allowed x = true → ∃ id, new = [mkAdmission (rpmKey info) (ms t) id]
    | inl _ => True
    end.
Proof.
  unfold step. destruct (Reserve rl inst info (ms t) net st) as [[e|x] st']; [by exists []|].
  simpl. destruct (Allowed x); [|by exists []]. eexists [_]. split; [done|]. eauto.
Qed.

Lemma step_reserve_store t net info st log :
  (step rl inst (st, log) (EReserve (ms t) info net)).1 = (Reserve rl inst info (ms t) net st).2.
Proof. unfold step. by destruct (Reserve _ _ _ _ _ _). Qed.

Lemma rl_enter_inv t net now racer r o s log res s1 i env chat info :
  0 < L0 → exact_window (W rl) → exact_clock (ms t) → sys_inv s log → st_clock (y_auth s) ≤ t →
  reqIDCounter (y_lim s) + 1 < 2 ^ 64 →
  r_Key r = Some info →
  (∃ u row, api_keys (st_db (y_auth s)) !! u = Some row ∧ info_of row = info) →
  rl_enter encode (sys_limiter t net t net) now racer r o s = (res, s1) →
  let res' := match res with inl e => inl e | inr (tk, o') => inr (tk, r, o') end in
  reqIDCounter (y_lim s1) ≤ reqIDCounter (y_lim s) + 1 ∧
  ∃ log', sys_inv (at_time t (settle i env chat t res' s1)) log'.
Proof.
  intros HL HW Ht Hi Hclk Hc Hkey Hrow. unfold rl_enter, KeyInfoFromContext. rewrite Hkey.
  pose proof (reserve_inv t net info s log HL HW Ht Hi Hclk Hc Hrow) as Hwin. cbv zeta in Hwin.
  destruct (step_reserve_log t net info (y_lim s) log) as (new&Hnew&Hcase).
  rewrite Hnew, step_reserve_store in Hwin.
  pose proof (Reserve_counter rl inst info (ms t) net (y_lim s) (inv_counter _ _ _ _ _ _ _ (si_win _ _ Hi)) Hc) as [_ Hcnt].
  cbn [rv_Reserve sys_limiter].
  destruct (Reserve rl inst info (ms t) net (y_lim s)) as [[err|x] l]; cbn [fst snd] in *.
  - unfold warnFailOpen. cbn [rv_lastWarn rv_setLastWarn sys_limiter].
    assert (∀ w o', sys_inv (at_time t (settle i env chat t (inr (FailOpen info, r, o'))
      (on_warn w (on_lim l s)))) (new ++ log)) as Hgo.
    { intros w o'. unfold settle, on_pend, on_warn, on_lim. cbn [ticket_served y_served y_auth y_lim].
      eapply sys_inv_lim; eauto.
      - exists new. split; [done|]. apply sublist_nil_l.
      - intros x ->%list_elem_of_singleton. destruct Hrow as (u&row&Hu&<-). eauto. }
    destruct (_ && _); [|destruct racer]; intros [= <- <-]; (split; [done|]); exists (new ++ log);
      [apply (Hgo (y_warn s))|apply Hgo..].
  - destruct (Allowed x) eqn:Ex; cbn [negb]; intros [= <- <-]; (split; [done|]); exists (new ++ log).
    + destruct (Hcase eq_refl) as [id ->]. unfold settle, on_pend, on_lim. cbn [ticket_served y_served y_auth y_lim].
      eapply sys_inv_lim; eauto. intros y ->%list_elem_of_singleton. destruct Hrow as (u&row&Hu&<-). eauto.
    + unfold settle, on_lim. eapply (sys_inv_lim t l _ _ _ []); eauto. exists new. split; [done|]. apply sublist_nil_l.
      by intros y ?%elem_of_nil.
Qed.

(** The way out touches the gateway, and the limiter through [RecordTokens]
    only. *)
Lemma lift_state debug env h r o s :
  ∃ ops o' g, (if debug : bool then DebugRequestBodies 0 (en_debug env) (lift h) else lift h) r o s = (ops, o', on_gw g s).
Proof.
  assert (∀ r o, ∃ ops o' g, lift h r o s = (ops, o', on_gw g s)) as Hl.
  { intros r' o'. unfold lift. destruct (h r' o' (y_gw s)) as [[ops o2] g]. eauto. }
  destruct debug; [|apply Hl]. unfold DebugRequestBodies. destruct (negb _); [apply Hl|].
  destruct (r_Body r); [apply Hl|]. destruct (ReadFull _ _ _) as [consumed []]; apply Hl.
Qed.

Lemma leave_state t net env h tk r o s ops o' s1 :
  leave parse_total (sys_limiter t net t net) debug_bodies env (lift h) tk r o s = (ops, o', s1) →
  ∃ g l, s1 = on_gw g (on_lim l s) ∧
    (l = y_lim s ∨ ∃ info n, l = (RecordTokens rl inst info n (ms t) net (y_lim s)).2).
Proof.
  unfold leave, rl_leave. destruct (lift_state debug_bodies env h r o s) as (ops1&o1&g&->).
  destruct tk as [|info|info hdrs].
  1,2: intros [= <- <- <-]; exists g, (y_lim s); split; [done|by left].
  destruct (finish parse_total _) as [[n|] out]; [|intros [= <- <- <-]; exists g, (y_lim s); split; [done|by left]].
  cbn [rv_RecordTokens sys_limiter y_lim on_gw].
  destruct (RecordTokens rl inst info n (ms t) net (y_lim s)) as [err l] eqn:Er.
  destruct err; intros [= <- <- <-]; exists g, l; (split; [done|]); right; exists info, n; by rewrite Er.
Qed.

Lemma leave_inv t net env h tk r o s ops o' s1 p log :
  sys_inv s log → st_clock (y_auth s) ≤ t → reqIDCounter (y_lim s) + 1 < 2 ^ 64 →
  leave parse_total (sys_limiter t net t net) debug_bodies env (lift h) tk r o s = (ops, o', s1) →
  reqIDCounter (y_lim s1) ≤ reqIDCounter (y_lim s) + 1 ∧ sys_inv (at_time t (on_pend p (y_served s1) s1)) log.
Proof.
  intros Hi Hclk Hc Hl. destruct (leave_state _ _ _ _ _ _ _ _ _ _ _ Hl) as (g&l&->&Hcase).
  pose proof (si_win _ _ Hi) as Hw. pose proof (inv_counter _ _ _ _ _ _ _ Hw).
  assert (ms (st_clock (y_auth s)) ≤ ms t) as Hms by (apply Z.div_le_mono; [by compute|done]).
  assert (reqIDCounter l ≤ reqIDCounter (y_lim s) + 1 ∧ window_inv rl inst K0 L0 (ms t) l log) as [Hcnt Hwin].
  { destruct Hcase as [->|(info&n&->)].
    - split; [lia|]. by eapply window_inv_later.
    - split; [by apply RecordTokens_counter|]. by eapply window_inv_record. }
  split; [done|]. apply (sys_inv_lim t l (y_warn s) g p [] s log); auto.
  - exists []. split; [done|]. apply sublist_nil_l.
  - by intros x ?%elem_of_nil.
Qed.

Lemma at_time_inv t s log : sys_inv s log → st_clock (y_auth s) ≤ t → sys_inv (at_time t s) log.
Proof.
  intros Hi Hclk. apply sys_inv_auth; [done| |apply rows_kept_refl|done]. apply inv_later; [apply Hi|done].
Qed.

(** The admin endpoints. *)
Lemma admin_gate_state (h : Handler Sys) r o s :
  (RequireAdminToken encode admin_token h r o s).2 = s ∨
  (RequireAdminToken encode admin_token h r o s) = h r o s.
Proof. unfold RequireAdminToken. case_bool_decide; [by left|]. destruct (bearerToken _); [|by left]. case_match; auto. Qed.

Lemma create_inv t src newid id conn cg cr r o s log :
  sys_inv s log → st_clock (y_auth s) ≤ t → api_keys (st_db (y_auth s)) !! newid = None → id_text newid →
  sys_inv (ah_Create (sys_admin t src newid id conn cg cr) r o s).2 log ∧
  y_lim (ah_Create (sys_admin t src newid id conn cg cr) r o s).2 = y_lim s ∧
  st_clock (y_auth (ah_Create (sys_admin t src newid id conn cg cr) r o s).2) ≤ t.
Proof.
  intros Hi Hclk Hnew Hid. cbn [ah_Create sys_admin].
  destruct (admin_Create _ _ _ _ _ _ _ _) as [[ops d]|] eqn:Ec; [|done]. cbn [snd].
  split; [|split; simpl; [done|lia]]. apply sys_inv_auth; [done| | |done].
  - eapply inv_create; eauto. apply Hi.
  - eapply create_kept; eauto. apply (inv_hashed _ _ (si_auth _ _ Hi)).
Qed.

Lemma admin_Revoke_kept id cg cr d c ops d' c' :
  admin_Revoke encode parse_uuid (Some Invalidate) id cg cr d c = (ops, d', c') → rows_kept d d'.
Proof.
  unfold admin_Revoke. case_bool_decide; [intros [= <- <- <-]; apply rows_kept_refl|].
  destruct (store_Revoke parse_uuid cr id d) as [err d1] eqn:Er.
  destruct (Revoke_update _ _ _ _ _ _ Er) as [e Hup].
  pose proof (update_kept _ _ _ _ _ _ deactivate_same Hup) as Hk.
  destruct (GetByID parse_uuid cg id d) as [eg|row]; [destruct (is_NotFound eg)|]; destruct err;
    intros [= <- <- <-]; done || apply rows_kept_refl.
Qed.

Lemma revoke_inv t src newid id conn cg cr r o s log :
  sys_inv s log → st_clock (y_auth s) ≤ t → infra cg →
  sys_inv (ah_Revoke (sys_admin t src newid id conn cg cr) r o s).2 log ∧
  y_lim (ah_Revoke (sys_admin t src newid id conn cg cr) r o s).2 = y_lim s ∧
  st_clock (y_auth (ah_Revoke (sys_admin t src newid id conn cg cr) r o s).2) ≤ t.
Proof.
  intros Hi Hclk Hinf. cbn [ah_Revoke sys_admin].
  destruct (admin_Revoke _ _ _ _ _ _ _ _) as [[ops d] c] eqn:Er. cbn [snd].
  split; [|split; simpl; [done|lia]]. apply sys_inv_auth; [done| | |done].
  - eapply inv_revoke_here; eauto. apply Hi.
  - by eapply admin_Revoke_kept.
Qed.

Lemma sys_step_inv s t s' log :
  0 < L0 → exact_window (W rl) → exact_clock (ms t) → sys_inv s log → st_clock (y_auth s) ≤ t →
  reqIDCounter (y_lim s) + 1 < 2 ^ 64 → sys_step s t s' →
  reqIDCounter (y_lim s') ≤ reqIDCounter (y_lim s) + 1 ∧ ∃ log', sys_inv (at_time t s') log'.
Proof.
  intros HL HW Ht53 Hi Hclk Hc Hst.
  assert (∀ s'', sys_inv s'' log ∧ y_lim s'' = y_lim s ∧ st_clock (y_auth s'') ≤ t →
    reqIDCounter (y_lim s'') ≤ reqIDCounter (y_lim s) + 1 ∧ ∃ log', sys_inv (at_time t s'') log') as Hauth.
  { intros s'' (Hs&->&Ht). split; [lia|]. exists log. by apply at_time_inv. }
  destruct Hst as [i env conn net r o chat res s1 _ He|i p e net ops o s1 _ Hl
    |r o src newid id conn cg cr Hnew Hid|r o src newid id conn cg cr Hinf|id err d Hr|conn id err d Ht|].
  - unfold enter in He. destruct (auth_enter _ _ r o s) as [ra sa] eqn:Ea.
    destruct (auth_enter_inv t conn r o s log ra sa Hi Hclk Ea) as (Hia&Hla&Hta&Hkey).
    destruct ra as [eo|[r1 o1]]; [simplify_eq; by apply Hauth|].
    destruct (Hkey _ _ eq_refl) as (info&u&row&Hk&Hrow).
    destruct (rl_enter _ _ _ _ r1 o1 sa) as [rr s2] eqn:Er.
    destruct (rl_enter_inv t net _ _ r1 o1 sa log rr s2 i env chat info HL HW Ht53 Hia Hta ltac:(by rewrite Hla) Hk
      ltac:(eauto) Er) as [Hcnt Hres]. rewrite Hla in Hcnt.
    destruct rr as [eo|[tk o2]]; simplify_eq; (split; [done|exact Hres]).
  - destruct (leave_inv _ _ _ _ _ _ _ _ _ _ _ (delete i (y_pend s1)) log Hi Hclk Hc Hl) as [Hcnt Hres]. eauto.
  - apply Hauth. destruct (admin_gate_state (ah_Create (sys_admin t src newid id conn cg cr)) r o s) as [-> | ->];
      [done|by apply create_inv].
  - apply Hauth. destruct (admin_gate_state (ah_Revoke (sys_admin t src newid id conn cg cr)) r o s) as [-> | ->];
      [done|by apply revoke_inv].
  - apply Hauth. split; [|done]. destruct (Revoke_update _ _ _ _ _ _ Hr) as [e Hup].
    apply sys_inv_auth; [done|eapply inv_revoke_elsewhere; eauto; apply Hi| |done].
    by eapply update_kept, Hup.
  - apply Hauth. split; [|done]. apply sys_inv_auth; [done|eapply inv_touch; eauto; apply Hi| |done].
    unfold TouchLastUsedAt in Ht. destruct (update_by_id _ _ _ _ _) as [e d1] eqn:Hup. simplify_eq.
    by eapply update_kept; [apply touch_same|].
  - split; [simpl; lia|]. exists log.
    assert (ms (st_clock (y_auth s)) ≤ ms t) by (apply Z.div_le_mono; [by compute|done]).
    apply (sys_inv_lim t _ (y_warn s) (y_gw s) (y_pend s) [] s log); auto.
    + eapply window_inv_expire; [done|apply Hi].
    + exists []. split; [done|]. apply sublist_nil_l.
    + by intros x ?%elem_of_nil.
Qed.

Lemma sys_reach_clock s0 n s : sys_reach s0 n s → st_clock (y_auth s0) ≤ st_clock (y_auth s).
Proof. induction 1 as [|n s t s' _ IH Hclk _]; [done|]. cbn. lia. Qed.

(** A clock reading between two exact ones. *)
Lemma exact_between a t b : 0 ≤ a → a ≤ t ≤ b → exact_clock (ms b) → exact_clock (ms t).
Proof.
  intros Ha Ht [_ Hb]. split; [apply Z.div_pos; [lia|by compute]|].
  etrans; [|exact Hb]. apply Z.div_le_mono; [by compute|lia].
Qed.

Lemma sys_reach_inv s0 n s log :
  0 < L0 → exact_window (W rl) → 0 ≤ st_clock (y_auth s0) → exact_clock (ms (st_clock (y_auth s))) → sys_inv s0 log → reqIDCounter (y_lim s0) + Z.of_nat n < 2 ^ 64 → sys_reach s0 n s →
  reqIDCounter (y_lim s) ≤ reqIDCounter (y_lim s0) + Z.of_nat n ∧ ∃ log', sys_inv s log'.
Proof.
  intros HL HW Hpos Hck Hi Hc Hr. induction Hr as [|n s t s' Hr IH Hclk Hst]; [split; [lia|eauto]|].
  pose proof (sys_reach_clock _ _ _ Hr). cbn in Hck.
  destruct IH as [Hcnt [log1 Hi1]]; [by eapply (exact_between (st_clock (y_auth s0)) _ t)|lia|].
  destruct (sys_step_inv s t s' log1 HL HW Hck Hi1 Hclk ltac:(lia) Hst) as [Hcnt' Hi']. split; [simpl; lia|done].
Qed.
End Limit.

(** What the invariant says about one key. *)
Lemma served_bound ttl u0 info0 s log t :
  KeyID info0 = u0 → sys_inv ttl u0 info0 s log →
  Z.of_nat (length (filter (λ x, KeyID (sv_info x) = u0 ∧ sv_open x = false ∧ t - W rl < sv_time x ≤ t) (y_served s)))
    ≤ effectiveRPM rl info0.
Proof.
  intros Hid [Ha Hids (row0&Hrow0&Hr0) Hw Hs Hrows].
  etrans; [|apply (inv_bound _ _ _ _ _ _ _ _ (inv_store _ _ _ _ _ _ _ Hw) t)]. rewrite Z.sub_0_r. apply inj_le.
  set (f := λ p : string * Z, p.1 = rpmKey info0 ∧ t - W rl < p.2 ≤ t).
  etrans; [apply (filter_length_through _ counted f (λ x, (rpmKey (sv_info x), sv_time x)))|].
  { intros x Hx (Hk&Hc&Ht). split; [done|]. split; [|done]. simpl.
    destruct (Hrows x Hx) as (u&row&Hu&Hr). rewrite <-Hr in Hk. simpl in Hk.
    rewrite (dw_id _ (inv_wf _ _ Ha) _ _ Hu) in Hk. subst u. congruence. }
  etrans; [by apply sublist_length, filter_sublist|].
  apply filter_fmap_length. by intros [].
Qed.

(** C2: the rate limit of the whole gateway.  However the requests of any
    number of clients, admin requests, revocations by other instances and key
    expiry in Redis interleave: every request that reaches a [/v1] handler
    carries the identity of a stored key, and of the requests of one key at
    most its effective RPM limit reach a handler within any sliding minute, not
    counting those that were let in because a call to Redis failed.  A clock
    reading and the step it belongs to are one step, at non-decreasing times
    between 1970 and the year 287396, where the script's doubles are exact;
    [Fleet] keeps readings and scripts apart. *)
Theorem gateway_rate_limited (cfg : RateLimitConfig) (ttl : Z) (u : string) (row : APIKey)
    (s0 s : Sys) (n : nat) (t : Z)
    (Hrl : rl = RateLimit.NewRedis cfg) (Hinv : inv ttl (y_auth s0)) (Hids : ids_ok (st_db (y_auth s0)))
    (Hrow : api_keys (st_db (y_auth s0)) !! u = Some row) (Hlim : 0 < effectiveRPM rl (info_of row))
    (Hfresh : zset (store (y_lim s0)) (rpmKey (info_of row)) = ∅) (Hserved : y_served s0 = [])
    (Hcnt : 0 ≤ reqIDCounter (y_lim s0) ∧ reqIDCounter (y_lim s0) + Z.of_nat n < 2 ^ 64)
    (Hclock : 0 ≤ st_clock (y_auth s0) ∧ exact_clock (ms (st_clock (y_auth s))))
    (Hreach : sys_reach s0 n s) :
  (∀ x, x ∈ y_served s →
     ∃ v row', api_keys (st_db (y_auth s)) !! v = Some row' ∧ sv_info x = info_of row') ∧
  Z.of_nat (length (filter (λ x, KeyID (sv_info x) = u ∧ sv_open x = false ∧ t - 60000 < sv_time x ≤ t) (y_served s)))
    ≤ effectiveRPM rl (info_of row).
Proof.
  assert (W rl = 60000) as HW by (by rewrite Hrl).
  assert (sys_inv ttl u (info_of row) s0 []) as Hi0.
  { split; try done; [eauto|apply window_inv_init; [done..|lia]|by rewrite Hserved|rewrite Hserved; by intros x ?%elem_of_nil]. }
  destruct (sys_reach_inv ttl u (info_of row) s0 n s []) as [_ [log Hi]]; try done; [rewrite Hrl; apply minute_window|apply Hclock|apply Hclock|lia|].
  split.
  - intros x Hx. destruct (si_rows _ _ _ _ _ Hi x Hx) as (v&row'&?&?). eauto.
  - rewrite <-HW. apply (served_bound ttl u (info_of row) s log t); [|done].
    simpl. apply (dw_id _ (inv_wf _ _ Hinv) _ _ Hrow).
Qed.
End Sys.

(** ** Witness: a key limited to one request per minute, used twice *)

Definition tight_row : APIKey :=
  mkAPIKey "key1" demo_hash "sk-gw-abc" "org1" "ci" [] 1 1000 true 0 (Some 1000000000000) None.
Definition tight_db : DB := mkDB {[ "key1" := tight_row ]} {[ "org1" := demo_org ]}.
Definition tight_sys : Sys (L := MapLRU.lru) (rdb := MapRedis.db) :=
  mkSys (mksys tight_db (NewCached (60 * Second) 100) ∅ 0) (mkLimState MapRedis.empty_db 0) 0
    Integration.demo_state ∅ [].
Definition tight_rl : redisLimiter := RateLimit.NewRedis demo_cfg.
Definition tight_req : Req := mkReq "POST" "/v1/chat/completions" "Bearer sk-gw-abc" NoBody None.
Definition tight_env : ReqEnv := mkReqEnv "id" 0 0 None false.

(** One request goes in at time [t]. *)
Definition go_in (i : nat) (t : Z) (s : Sys) : Sys (L := MapLRU.lru) (rdb := MapRedis.db) :=
  let '(res, s1) := enter demo_encode (sys_auth t None) (sys_limiter tight_rl "abc" t NetOk t NetOk) tight_env
                      tight_req (mkObs None [] []) s in
  at_time t (settle i tight_env true t res s1).

Lemma tight_inv : inv (60 * Second) (y_auth tight_sys).
Proof.
  apply (reach_inv demo_encode demo_uuid tight_db (60 * Second) 100); [| |constructor].
  - split.
    + intros u k. simpl. intros [<- <-]%lookup_singleton_Some. done.
    + intros u v k l. simpl. by intros [<- _]%lookup_singleton_Some [<- _]%lookup_singleton_Some.
  - intros u k. simpl. intros [<- <-]%lookup_singleton_Some. discriminate.
Qed.

Definition tight_reach := sys_reach (L := MapLRU.lru) (rdb := MapRedis.db) demo_encode (λ _, None) (λ _, None)
  demo_uuid (λ _, DTooLarge) (λ _, None) tight_rl "abc" "admin" false demo_router demo_htps.

Lemma go_in_reach i t n s s' :
  tight_reach s n s' → y_pend s' !! i = None → st_clock (y_auth s') ≤ t → tight_reach s (S n) (go_in i t s').
Proof.
  intros Hr Hi Ht. unfold go_in. destruct (enter _ _ _ _ _ _ s') as [res s1] eqn:He.
  eapply sreach_step; [exact Hr|exact Ht|]. by eapply sy_enter.
Qed.

Lemma gateway_rate_limited_witness :
  let s := go_in 1 (2 * Second) (go_in 0 Second tight_sys) in
  (sv_time <$> y_served s = [1000]) ∧
  Z.of_nat (length (filter (λ x, KeyID (sv_info x) = "key1" ∧ sv_open x = false ∧ 3000 - 60000 < sv_time x ≤ 3000)
    (y_served s))) ≤ 1.
Proof.
  intros s. split; [vm_compute; reflexivity|].
  apply (gateway_rate_limited demo_encode (λ _, None) (λ _, None) demo_uuid (λ _, DTooLarge) (λ _, None) tight_rl
    "abc" "admin" false demo_router demo_htps demo_cfg (60 * Second) "key1" tight_row tight_sys s 2 3000).
  - reflexivity.
  - exact tight_inv.
  - intros u k. simpl. by intros [<- _]%lookup_singleton_Some.
  - reflexivity.
  - reflexivity.
  - reflexivity.
  - reflexivity.
  - split; vm_compute; [discriminate|reflexivity].
  - split; [|split]; vm_compute; discriminate.
  - apply go_in_reach; [apply go_in_reach; [constructor|reflexivity|]|vm_compute; reflexivity|]; vm_compute; discriminate.
Defined.
