(* ===== verification/Telemetry.v ===== *)
(** * Every metric is well formed

    Prometheus panics when a collector is used with the wrong number of label
    values.  Here: every handler chain of the running gateway, whatever the
    request, emits only operations that fit the collectors of [Metrics], both
    those of the middleware and those of the provider decorators. *)

From S2P Require Import Prelude GoStrings Float64 Model Health Metrics Retry Registry.
From S2P Require Import Strategies Redis RateLimit RateLimitWindow Config Router Store Auth Http.
From S2P Require Import AdminKeys AuthProps Capture Middleware MiddlewareProps Handlers Integration Server.
From S2P Require Import RouterProps System.
Local Open Scope Z_scope.

Abbreviation events_ok := (Forall (λ e, event_ok e = true)).

Definition obs_ok (o : Obs) : Prop := events_ok (ob_metrics o).
Definition worlds_ok (g : GwState) : Prop := ∀ id w, g_worlds g !! id = Some w → events_ok (w_metrics w).

Lemma emit_ok es o : events_ok es → obs_ok o → obs_ok (emit es o).
Proof. intros. by apply Forall_app. Qed.
Lemma log_ok l msg attrs o : obs_ok o → obs_ok (log l msg attrs o).
Proof. done. Qed.
Lemma on_info_ok f o : obs_ok o → obs_ok (on_info f o).
Proof. done. Qed.
#[export] Hint Resolve emit_ok log_ok on_info_ok : gw.

(** ** Provider decorators *)

Lemma success_ok h start now w : events_ok (w_metrics w) → events_ok (w_metrics (recordHealthSuccess h start now w)).
Proof. intros Hw. simpl. repeat (apply Forall_app; split); auto with gw. Qed.
Lemma failure_ok h err start now w :
  events_ok (w_metrics w) → events_ok (w_metrics (recordHealthFailure h err start now w)).
Proof.
  intros Hw. unfold recordHealthFailure. destruct (RecordFailure _ _ _) as [b ph]. simpl.
  repeat (apply Forall_app; split); auto with gw.
Qed.
#[export] Hint Resolve success_ok failure_ok : gw.

Lemma attempts_ok {A B} h (env : CallEnv A) (onok : Z → A → World → B * World) fuel attempt lastErr w :
  (∀ k a w, events_ok (w_metrics w) → events_ok (w_metrics (onok k a w).2)) →
  events_ok (w_metrics w) → events_ok (w_metrics (attempts h env onok fuel attempt lastErr w).2).
Proof.
  intros Hon. revert attempt lastErr w. induction fuel as [|fuel IH]; intros attempt lastErr w Hw; cbn [attempts];
    [apply failure_ok; done|].
  destruct (attempt <=? MaxRetries (retry h)); [|by apply failure_ok].
  match goal with |- context [let '(c, w1) := ?p in @?g c w1] => assert (events_ok (w_metrics p.2)) as Hp end.
  { by destruct (0 <? attempt). }
  match type of Hp with events_ok (w_metrics ?p.2) => destruct p as [[e|] w1] end; [done|]. cbn [snd] in Hp.
  destruct (ce_call env attempt) as [resp|err].
  - specialize (Hon attempt resp (trace (ECall attempt) w1) Hp). by destruct (onok _ _ _).
  - destruct (negb (isRetryable err)); [by apply failure_ok|].
    destruct (attempt =? MaxRetries (retry h)); [by apply failure_ok|]. by apply IH.
Qed.

Lemma ChatCompletion_ok h env w : events_ok (w_metrics w) → events_ok (w_metrics (ChatCompletion h env w).2).
Proof. apply attempts_ok. intros. cbn [snd]. auto with gw. Qed.

Lemma ChatCompletionStream_ok h env stop w :
  events_ok (w_metrics w) → events_ok (w_metrics (ChatCompletionStream h env stop w).2).
Proof.
  apply attempts_ok. intros k evts w1 Hw. unfold trackStreamHealth.
  destruct (forward _ _ _ _) as [out [[[] e]|]]; cbn [snd]; auto with gw.
Qed.

(** ** Handlers *)

(** A handler that keeps the observations and an invariant of the state. *)
Definition handler_ok {S} (I : S → Prop) (h : Handler S) : Prop :=
  ∀ r o s, obs_ok o → I s → obs_ok (h r o s).1.2 ∧ I (h r o s).2.

Lemma call_ok {A} htps (f : nat → HealthTrackingProvider → World → Reply A * World) p g :
  (∀ id h w, events_ok (w_metrics w) → events_ok (w_metrics (f id h w).2)) →
  worlds_ok g → worlds_ok (call htps f p g).2.
Proof.
  intros Hf Hg. unfold call. destruct p as [id n|]; [|done].
  destruct (htps !! id) as [h|]; [|done]. destruct (g_worlds g !! id) as [w|] eqn:Ew; [|done].
  specialize (Hf id h w (Hg _ _ Ew)). destruct (f id h w) as [reply w']. cbn [snd] in *.
  intros id' w2. simpl. rewrite lookup_insert. case_decide; [by intros [= <-]|apply Hg].
Qed.

Lemma stream_loop_ok marshal name evts o : obs_ok o → obs_ok (stream_loop marshal name evts o).2.
Proof.
  intros Ho. revert o Ho. induction evts as [|evt evts IH]; intros o Ho; [done|]. simpl.
  destruct (Err evt); [auto with gw|]. destruct (marshal (Chunk evt)); [|auto with gw].
  specialize (IH o Ho). by destruct (stream_loop _ _ _ _).
Qed.

Lemma leaf_ok encode marshal decode rt htps chat e :
  handler_ok worlds_ok (gw_leaf encode marshal decode rt htps chat e).
Proof.
  intros r o g Ho Hg. unfold gw_leaf. destruct chat; [|done].
  unfold chat_handler, HandleChatCompletion. destruct (decode (r_Body r)) as [req| |]; [|done..].
  case_bool_decide; [done|]. destruct (_ =? _)%nat; [done|]. cbn [gw_Route gateway].
  destruct (Route _ _ _ _ _ _ _) as [[[p d]|err|] st]; [|done..].
  set (g1 := mkGwState st (g_worlds g)). assert (worlds_ok g1) as Hg1 by done. clearbody g1.
  set (o1 := SetGroup _ _). assert (obs_ok o1) as Ho1 by (unfold o1; repeat apply on_info_ok; done). clearbody o1.
  destruct (rq_Stream _).
  - unfold handleStream. cbn [gw_Stream gateway]. set (c := call _ _ _ _).
    assert (worlds_ok c.2) as Hc by (apply call_ok; [intros; by apply ChatCompletionStream_ok|done]).
    destruct c as [[evts|err|] g2]; [|done|by destruct (negb _)].
    destruct (negb _); [done|]. match goal with |- context [stream_loop marshal ?n evts o1] =>
      pose proof (stream_loop_ok marshal n evts o1 Ho1) as Hs end.
    by destruct (stream_loop _ _ _ _).
  - unfold handleNonStream. cbn [gw_Chat gateway]. set (c := call _ _ _ _).
    assert (worlds_ok c.2) as Hc by (apply call_ok; [intros; by apply ChatCompletion_ok|done]).
    by destruct c as [[resp|err|] g2].
Qed.

(** Both halves of a conclusion about a response. *)
Ltac obs_auto := split; cbn [fst snd] in *; auto with gw; try (apply on_info_ok; auto with gw; fail).

Section Middleware.
Context (encode : Payload → string) (parse_total : string → option Z) {S : Type} (I : S → Prop).

Lemma RequireAPIKey_ok a (h : Handler S) :
  (∀ tok s, I s → I (a tok s).2) → handler_ok I h → handler_ok I (RequireAPIKey encode a h).
Proof.
  intros Ha Hh r o s Ho Hs. unfold RequireAPIKey. case_bool_decide; [obs_auto|].
  destruct (bearerToken _) as [tok|]; [|obs_auto]. specialize (Ha tok s Hs).
  destruct (a tok s) as [[[|e]|info] s1]; cbn [fst snd] in *; [obs_auto..|].
  apply Hh; auto with gw.
Qed.

Lemma RequireAdminToken_ok tok (h : Handler S) : handler_ok I h → handler_ok I (RequireAdminToken encode tok h).
Proof.
  intros Hh r o s Ho Hs. unfold RequireAdminToken. case_bool_decide; [obs_auto|].
  destruct (bearerToken _); [|obs_auto]. case_match; [obs_auto|by apply Hh].
Qed.

Definition reserver_ok (rv : Reserver S) : Prop :=
  (∀ info s, I s → I (rv_Reserve rv info s).2) ∧ (∀ info n s, I s → I (rv_RecordTokens rv info n s).2) ∧
  (∀ v s, I s → I (rv_setLastWarn rv v s)).

Lemma rl_enter_ok rv now racer r o s :
  reserver_ok rv → obs_ok o → I s →
  I (rl_enter encode rv now racer r o s).2 ∧
  match (rl_enter encode rv now racer r o s).1 with inl (_, o') => obs_ok o' | inr (_, o') => obs_ok o' end.
Proof.
  intros (Hres&_&Hwarn) Ho Hs. unfold rl_enter. destruct (KeyInfoFromContext _) as [info|]; [|done].
  specialize (Hres info s Hs). destruct (rv_Reserve rv info s) as [[err|res] s1]; cbn [snd] in Hres.
  - unfold warnFailOpen. destruct (_ && _); [obs_auto|]. destruct racer; obs_auto.
  - destruct (negb _); obs_auto.
Qed.

Lemma rl_leave_ok rv w h tk r o s :
  reserver_ok rv → handler_ok I h → obs_ok o → I s →
  obs_ok (rl_leave parse_total rv w h tk r o s).1.2 ∧ I (rl_leave parse_total rv w h tk r o s).2.
Proof.
  intros (_&Hrec&_) Hh Ho Hs. unfold rl_leave. destruct (Hh r o s Ho Hs) as [Ho1 Hs1].
  destruct (h r o s) as [[ops o1] s1]. cbn [fst snd] in *. destruct tk as [|info|info hdrs]; [done..|].
  destruct (finish _ _) as [[n|] out]; [|done]. specialize (Hrec info n s1 Hs1).
  destruct (rv_RecordTokens rv info n s1) as [[e|] s2]; obs_auto.
Qed.

Lemma rl_serve_ok rv now racer w h :
  reserver_ok rv → handler_ok I h → handler_ok I (rl_serve encode parse_total rv now racer w h).
Proof.
  intros Hrv Hh r o s Ho Hs. rewrite rl_serve_phases.
  destruct (rl_enter_ok rv now racer r o s Hrv Ho Hs) as [Hs1 Ho1].
  destruct (rl_enter encode rv now racer r o s) as [[[ops o1]|[tk o1]] s1]; [done|].
  by apply rl_leave_ok.
Qed.

Lemma DebugRequestBodies_ok limit debug (h : Handler S) :
  handler_ok I h → handler_ok I (DebugRequestBodies limit debug h).
Proof.
  intros Hh r o s Ho Hs. unfold DebugRequestBodies. destruct (negb _); [by apply Hh|].
  destruct (r_Body r); [by apply Hh|]. destruct (ReadFull _ _ _) as [? []]; apply Hh; auto with gw.
Qed.

Lemma root_ok ww_Status ww_Bytes env pattern (h : Handler S) :
  handler_ok I h → handler_ok I (root ww_Status ww_Bytes env pattern h).
Proof.
  intros Hh r o s Ho Hs. unfold root, Observe, RequestLogger.
  destruct (Hh r (mkObs (Some zero_info) (ob_metrics o) (ob_log o)) s Ho Hs) as [Ho1 Hs1].
  destruct (h r _ s) as [[ops o1] s1]. simpl in *. split; [|done]. apply emit_ok; auto with gw.
Qed.

Lemma api_ok opts env h :
  (∀ a tok s, op_Authenticator opts = Some a → I s → I (a tok s).2) →
  (∀ rv, op_RateLimiter opts = Some rv → reserver_ok rv) →
  handler_ok I h → handler_ok I (api encode parse_total opts env h).
Proof.
  intros Ha Hrv Hh. unfold api.
  assert (handler_ok I (if op_DebugBodies opts then DebugRequestBodies 0 (en_debug env) h else h)) as H1.
  { destruct (op_DebugBodies opts); [by apply DebugRequestBodies_ok|done]. }
  assert (∀ h', handler_ok I h' → handler_ok I (RateLimit encode parse_total (op_RateLimiter opts) (en_now env)
    (en_racer env) (entry_writer env) h')) as H2.
  { intros h' Hh'. destruct (op_RateLimiter opts) as [rv|]; [|done]. apply rl_serve_ok; auto. }
  destruct (op_Authenticator opts) as [a|]; [|auto]. apply RequireAPIKey_ok; [|auto]. intros. by apply Ha.
Qed.
End Middleware.

(** ** The whole gateway *)

Section Gateway.
Context {L : Type → Type} `{LRULaws L} {rdb : Type} `{RedisLaws rdb}.
Context (encode : Payload → string) (marshal : option ChatCompletionChunk → option string).
Context (parse_total : string → option Z) (parse_uuid : string → option string).
Context (decode : Body → Decoded) (decode_create : Body → option CreateKeyRequest).
Context (rl : redisLimiter) (inst admin_token : string) (debug_bodies : bool).
Context (rt : defaultRouter) (htps : gmap nat HealthTrackingProvider).
Context (ww_Status ww_Bytes : list WOp → Z).

Definition sys_ok (s : Sys (L := L) (rdb := rdb)) : Prop := worlds_ok (y_gw s).

Lemma sys_auth_ok t conn tok s : sys_ok s → sys_ok (sys_auth t conn tok s).2.
Proof. intros Hs. unfold sys_auth. by destruct (Authenticate _ _ _ _) as [[? ?] ?]. Qed.

Lemma sys_limiter_ok t net t' net' : reserver_ok sys_ok (sys_limiter rl inst t net t' net').
Proof.
  split; [|split].
  - intros info s Hs. simpl. by destruct (Reserve _ _ _ _ _ _).
  - intros info n s Hs. simpl. by destruct (RecordTokens _ _ _ _ _ _ _).
  - done.
Qed.

Lemma lift_ok h : handler_ok worlds_ok h → handler_ok sys_ok (lift h).
Proof.
  intros Hh r o s Ho Hs. unfold lift. destruct (Hh r o (y_gw s) Ho Hs) as [Ho1 Hs1].
  by destruct (h r o (y_gw s)) as [[ops o1] g].
Qed.

Lemma sys_admin_ok t src newid id conn cg cr :
  handler_ok sys_ok (ah_Create (sys_admin (L := L) (rdb := rdb) encode parse_uuid decode_create t src newid id conn cg cr)) ∧
  handler_ok sys_ok (ah_Revoke (sys_admin (L := L) (rdb := rdb) encode parse_uuid decode_create t src newid id conn cg cr)).
Proof.
  split; intros r o s Ho Hs; simpl.
  - by destruct (admin_Create _ _ _ _ _ _ _ _) as [[ops d]|].
  - by destruct (admin_Revoke _ _ _ _ _ _ _ _) as [[ops d] c].
Qed.

(** C21: no request makes a metric fail.  Every route of the server, with the
    cached authenticator, the Redis limiter, the admin endpoints and the
    routing gateway behind it, answers every request with metric operations
    that use one of the declared collectors, as the kind it is, with one value
    per label: those of the middleware, and those of the provider
    decorators. *)
Theorem metrics_well_typed (t t' : Z) (conn : option dberr) (net net' : Net) (src : list (string + Z))
    (newid id : string) (c1 c2 c3 : option dberr) (env : ReqEnv) (e : ChatEnv)
    (m pat : string) (h : Handler Sys) (r : Req) (o : Obs) (s : Sys)
    (Hroute : (m, pat, h) ∈ New encode parse_total ww_Status ww_Bytes
       (sys_options rl inst admin_token debug_bodies htps t conn net t' net'
          (sys_admin encode parse_uuid decode_create t src newid id c1 c2 c3))
       env (lift (gw_leaf encode marshal decode rt htps true e)) (rt_registry rt))
    (Ho : obs_ok o) (Hs : worlds_ok (y_gw s)) :
  obs_ok (h r o s).1.2 ∧ worlds_ok (y_gw (h r o s).2).
Proof.
  set (opts := sys_options _ _ _ _ _ _ _ _ _ _ _) in *.
  assert (∀ h, handler_ok sys_ok h → handler_ok sys_ok (api encode parse_total opts env h)) as Hapi.
  { intros h' Hh'. apply api_ok; [|intros rv [= <-]; apply sys_limiter_ok|done].
    intros a tok s' [= <-]. apply sys_auth_ok. }
  destruct (sys_admin_ok t src newid id c1 c2 c3) as [Hcr Hrv].
  enough (handler_ok sys_ok h) as Hh by (by apply Hh). clear Ho Hs r o s.
  unfold New in Hroute. rewrite !elem_of_app in Hroute.
  destruct Hroute as [Hr|[Hr|[Hr|Hr]]].
  - apply list_elem_of_singleton in Hr as [= -> -> ->]. by apply root_ok.
  - apply list_elem_of_singleton in Hr as [= -> -> ->]. by apply root_ok.
  - apply elem_of_cons in Hr as [[= -> -> ->]|[= -> -> ->]%list_elem_of_singleton]; apply root_ok, Hapi; [|done].
    apply lift_ok. exact (leaf_ok encode marshal decode rt htps true e).
  - cbn [op_AdminKeys opts sys_options] in Hr. case_bool_decide; [by apply elem_of_nil in Hr|].
    apply elem_of_cons in Hr as [[= -> -> ->]|[= -> -> ->]%list_elem_of_singleton];
      by apply root_ok, RequireAdminToken_ok.
Qed.
End Gateway.

(** ** Witness *)

Lemma metrics_well_typed_witness :
  let h := root (λ _, 200) (λ _, 0) tight_env "/v1/chat/completions"
    (api demo_encode (λ _, None)
      (sys_options tight_rl "abc" "admin" false demo_htps Second None NetOk Second NetOk
         (sys_admin demo_encode demo_uuid (λ _, None) Second [] "" "" None None None)) tight_env
      (lift (gw_leaf demo_encode (λ _, None) (λ _, DOk demo_chat) demo_router demo_htps true
         (mkChatEnv demo_up demo_up_stream (rand_Float64 3) 10 None true false)))) in
  let '(ops, o, s) := h tight_req (mkObs None [] []) tight_sys in
  length (ob_metrics o) = 3%nat ∧ obs_ok o ∧ worlds_ok (y_gw s).
Proof.
  intros h.
  pose proof (metrics_well_typed demo_encode (λ _, None) (λ _, None) demo_uuid (λ _, DOk demo_chat) (λ _, None)
    tight_rl "abc" "admin" false demo_router demo_htps (λ _, 200) (λ _, 0) Second Second None NetOk NetOk [] "" ""
    None None None tight_env (mkChatEnv demo_up demo_up_stream (rand_Float64 3) 10 None true false)
    "POST" "/v1/chat/completions" h tight_req (mkObs None [] []) tight_sys) as Hw.
  assert (length (ob_metrics (h tight_req (mkObs None [] []) tight_sys).1.2) = 3%nat) as Hl by (vm_compute; reflexivity).
  destruct (h tight_req (mkObs None [] []) tight_sys) as [[ops o] s]. cbn [fst snd] in *.
  split; [exact Hl|]. apply Hw.
  - right. right. left.
  - constructor.
  - intros i w Hi. simpl in Hi. unfold demo_worlds in Hi. rewrite lookup_fmap in Hi.
    destruct (demo_healths !! i); [|discriminate]. injection Hi as <-. constructor.
Defined.
