(* ===== verification/Upstream.v ===== *)
(** * Talking to an upstream service

    What the three provider adapters share: the HTTP exchange, the line
    scanner over a response body, the reading goroutine of a streaming call,
    and the classification of error responses.

    The HTTP client is the argument [Do] (with the outcome of
    [http.NewRequestWithContext] for a URL), the JSON codec a pair of
    functions.  A streaming body yields [data] and then ends or fails. *)

From S2P Require Import Prelude GoStrings Model Retry Capture.
From Stdlib Require Import Ascii.
Local Open Scope Z_scope.

(** [Config] and [Provider] have the same fields in all three adapters. *)
Record AdapterConfig := mkAdapterConfig {
  ac_APIKey : string;
  ac_BaseURL : string;
  ac_Timeout : Z;
  ac_Models : list string;
}.

Definition adapter_New (defaultBaseURL : string) (cfg : AdapterConfig) : AdapterConfig :=
  {| ac_APIKey := ac_APIKey cfg;
     ac_BaseURL := if bool_decide (ac_BaseURL cfg = "") then defaultBaseURL else ac_BaseURL cfg;
     ac_Timeout := if ac_Timeout cfg =? 0 then 30 * Second else ac_Timeout cfg;
     ac_Models := ac_Models cfg |}.

Record HTTPReq := mkHTTPReq {
  hq_URL : string;
  hq_Headers : list (string * string);
  hq_Body : string;
}.

Record HTTPResp := mkHTTPResp {
  hp_StatusCode : Z;
  hp_RetryAfter : string;
  hp_Body : string;
  hp_BodyErr : option goerr;
}.

(** The client, the clock and the time zone of a call. *)
Record Net_ := mkNet {
  nt_newRequest : string → option goerr;
  nt_Do : HTTPReq → goerr + HTTPResp;
  nt_now : Z;
  nt_lookupName : string → Z → option Z;
}.

(** Marshal, build the request, send it, and check the status: the common
    head of [ChatCompletion] and [ChatCompletionStream]. *)
Definition exchange (net : Net_) (body : goerr + string) (url : string) (hdrs : list (string * string))
    (on_error : HTTPResp → goerr) : goerr + HTTPResp :=
  match body with
  | inl e => inl (ErrWrap "marshaling request: " e)
  | inr body =>
      match nt_newRequest net url with
      | Some e => inl (ErrWrap "creating request: " e)
      | None =>
          match nt_Do net (mkHTTPReq url hdrs body) with
          | inl e => inl (ErrWrap "sending request: " e)
          | inr resp => if hp_StatusCode resp =? 200 then inr resp else inl (on_error resp)
          end
      end
  end.

(** ** Error responses *)

Definition limit_read (s : string) : string :=
  if strlen s <=? 2 ^ 20 then s else str_take (Z.to_nat (2 ^ 20)) s.

(** The parsed error document: its message and its type. *)
Definition error_response (retryable : Z → bool) (errorTypeFromStatus : Z → string)
    (parse : string → option (string * string)) (net : Net_) (resp : HTTPResp) : ProviderError :=
  let body := limit_read (hp_Body resp) in
  let '(msg, ty) :=
    match parse body with
    | Some (m, t) =>
        if bool_decide (m = "")
        then (if 200 <? strlen body then str_take 200 body else body, errorTypeFromStatus (hp_StatusCode resp))
        else (m, t)
    | None =>
        (if 200 <? strlen body then str_take 200 body else body, errorTypeFromStatus (hp_StatusCode resp))
    end in
  {| StatusCode := hp_StatusCode resp; pe_Type := ty; pe_Message := msg;
     Retryable := retryable (hp_StatusCode resp);
     pe_RetryAfter := ParseRetryAfter (nt_lookupName net) (nt_now net) (hp_RetryAfter resp) |}.

(** ** [bufio.Scanner] with [ScanLines] and a 1 MiB buffer *)

Definition nl : ascii := ascii_of_nat 10.
Definition cr : ascii := ascii_of_nat 13.
Definition maxToken : Z := 1024 * 1024.
Definition ErrTooLong : goerr := ErrMsg "bufio.Scanner: token too long".

(** A line without its end: one trailing carriage return is dropped; [rev] is
    the line read so far, reversed. *)
Definition drop_cr (rev : string) : string :=
  match rev with
  | String c rest => if Ascii.eqb c cr then String.rev rest else String.rev rev
  | EmptyString => ""
  end.

(** [n] is the length of [rev]. *)
Fixpoint scan_go (rev : string) (n : Z) (data : string) (err : option goerr)
    : list string * option goerr :=
  match data with
  | EmptyString =>
      if maxToken <=? n then ([], Some ErrTooLong)
      else if n =? 0 then ([], err)
      else ([drop_cr rev], err)
  | String c rest =>
      if maxToken <=? n then ([], Some ErrTooLong)
      else if Ascii.eqb c nl then
        let '(ls, e) := scan_go "" 0 rest err in (drop_cr rev :: ls, e)
      else scan_go (String c rev) (n + 1) rest err
  end.

(** The lines [scanner.Scan] yields and the final [scanner.Err]. *)
Definition scan_lines (data : string) (err : option goerr) : list string * option goerr :=
  scan_go "" 0 data err.

(** ** The reading goroutine *)

Inductive Act :=
| ASkip
| ASend (evt : StreamEvent)
| AFail (e : goerr)
| AReturn.

Definition fail_event (e : goerr) : StreamEvent := mkStreamEvent None (Some e).
Definition chunk_event (c : ChatCompletionChunk) : StreamEvent := mkStreamEvent (Some c) None.

Section Pump.
(** [step] handles one line; [final] is the error sent after the last line,
    if one is. *)
Context {St : Type} (step : St → string → St * Act) (final : option goerr).

(** [stop] is where the end of the caller's context is observed: [(n, false)]
    before line [n], [(n, true)] at the send of line [n] (or before the line
    after it, when line [n] sends nothing). *)
Fixpoint pump (lines : list string) (stop : option (nat * bool)) (st : St) : list StreamEvent :=
  match lines with
  | [] =>
      match stop, final with
      | Some (O, _), _ => []
      | _, Some e => [fail_event e]
      | _, None => []
      end
  | line :: lines =>
      match stop with
      | Some (O, false) => []
      | _ =>
          let at_send := match stop with Some (O, true) => true | _ => false end in
          let stop' := match stop with
                       | Some (S n, b) => Some (n, b)
                       | Some (O, _) => Some (O, false)
                       | None => None
                       end in
          match step st line with
          | (st, ASkip) => pump lines stop' st
          | (_, AReturn) => []
          | (st, ASend evt) => if at_send then [] else evt :: pump lines stop' st
          | (_, AFail e) => if at_send then [] else [fail_event e]
          end
      end
  end.

(** ** The shape of a stream *)

Definition is_chunk (e : StreamEvent) : Prop := Err e = None ∧ is_Some (Chunk e).
Definition sends_chunks : Prop := ∀ st line st' evt, step st line = (st', ASend evt) → is_chunk evt.

(** A stream is a sequence of chunks, possibly closed by one error. *)
Lemma pump_shape lines stop st :
  sends_chunks → ∃ cs tail, pump lines stop st = cs ++ tail ∧ Forall is_chunk cs ∧
    (tail = [] ∨ ∃ e, tail = [fail_event e]).
Proof.
  intros Hs. assert (∀ e, ∃ cs tail, [fail_event e] = cs ++ tail ∧ Forall is_chunk cs ∧
    (tail = [] ∨ ∃ e, tail = [fail_event e])) as Hfail by (intros e; exists [], [fail_event e]; eauto).
  assert (∃ cs tail, [] = cs ++ tail ∧ Forall is_chunk cs ∧
    (tail = [] ∨ ∃ e, tail = [fail_event e])) as Hnil by (exists [], []; eauto).
  revert stop st. induction lines as [|line lines IH]; intros stop st; simpl.
  - destruct stop as [[[|n] b]|], final; auto.
  - destruct (step st line) as [st' act] eqn:Es.
    assert (∀ evt stop', act = ASend evt → ∃ cs tail, evt :: pump lines stop' st' = cs ++ tail ∧
      Forall is_chunk cs ∧ (tail = [] ∨ ∃ e, tail = [fail_event e])) as Hsend.
    { intros evt stop' ->. destruct (IH stop' st') as (cs&tail&Heq&Hc&Ht). exists (evt :: cs), tail.
      rewrite Heq. split; [done|]. split; [|done]. constructor; [by eapply Hs|done]. }
    destruct stop as [[[|n] [|]]|], act; eauto.
Qed.

(** What every step ensures of the events it sends, all events have. *)
Lemma pump_Forall (I : St → Prop) (Q : StreamEvent → Prop) lines stop st :
  (∀ st line, I st → I (step st line).1 ∧ ∀ evt, (step st line).2 = ASend evt → Q evt) →
  (∀ e, Q (fail_event e)) → I st → Forall Q (pump lines stop st).
Proof.
  intros Hstep Hfail. revert stop st. induction lines as [|line lines IH]; intros stop st Hst; cbn [pump].
  { destruct stop as [[[|n] b]|], final; auto. }
  destruct (Hstep st line Hst) as [Hst' Hev]. destruct (step st line) as [st' act]. cbn [fst snd] in *.
  destruct stop as [[[|n] [|]]|], act; auto.
Qed.

(** The state after some lines, none of which ends the stream. *)
Fixpoint through (st : St) (lines : list string) : option (St * list StreamEvent) :=
  match lines with
  | [] => Some (st, [])
  | line :: lines =>
      match step st line with
      | (st, ASkip) => through st lines
      | (st, ASend evt) => '(st, evs) ← through st lines; Some (st, evt :: evs)
      | (_, AFail _) | (_, AReturn) => None
      end
  end.

Lemma pump_through lines rest st st' evs :
  through st lines = Some (st', evs) → pump (lines ++ rest) None st = evs ++ pump rest None st'.
Proof.
  revert st evs. induction lines as [|line lines IH]; intros st evs Ht; simpl in *; [by injection Ht as -> <-|].
  destruct (step st line) as [st1 [|evt|e|]]; try done; [by apply IH|].
  destruct (through st1 lines) as [[st2 evs']|] eqn:E; [|done]. injection Ht as -> <-. simpl. by rewrite (IH _ _ E).
Qed.
End Pump.
