(* ===== verification/Pipeline.v ===== *)
(** * The goroutines of a streaming request

    A streaming chat request runs three goroutines joined by two buffered
    channels: the reading goroutine of the adapter ([ChatCompletionStream] of
    openai.go, anthropic.go and google.go), the goroutine of
    [trackStreamHealth] (health_decorator.go), and the handler itself
    ([handleStream] of chat.go).  [Upstream.pump], [Retry.forward] and
    [Handlers.stream_loop] are these three loops run one after the other;
    here they run concurrently, as a transition system in which the client's
    context may end at any moment.

    A step of a goroutine is a function from the branch it takes to the next
    state ([adapter_step], [tracker_step], [handler_step]); [None] means that
    the goroutine blocks there.  Code between two operations on something
    shared (a channel, the context, the health record) is one step.  A send on
    or a close of a closed channel panics, which ends the process. *)

From S2P Require Import Prelude GoStrings Float64 Model Health Metrics Retry Registry.
From S2P Require Import Strategies RateLimit Config Router Auth Http Capture Middleware Handlers Upstream.
Local Open Scope nat_scope.

(** ** Buffered channels *)

Record chan (A : Type) := mkChan {
  ch_cap : nat;
  ch_buf : list A;
  ch_closed : bool;
}.
Arguments mkChan {A}.
Arguments ch_cap {A}.
Arguments ch_buf {A}.
Arguments ch_closed {A}.

Definition make_chan {A} (cap : nat) : chan A := mkChan cap [] false.

(** An operation on a channel blocks, panics, or succeeds. *)
Inductive chan_result (B : Type) := ChBlock | ChPanic | ChOk (b : B).
Arguments ChBlock {B}.
Arguments ChPanic {B}.
Arguments ChOk {B}.

Definition chan_send {A} (x : A) (c : chan A) : chan_result (chan A) :=
  if ch_closed c then ChPanic
  else if length (ch_buf c) <? ch_cap c then ChOk (mkChan (ch_cap c) (ch_buf c ++ [x]) false)
  else ChBlock.

(** A receive gives [None] when the channel is closed and empty. *)
Definition chan_recv {A} (c : chan A) : chan_result (option A * chan A) :=
  match ch_buf c with
  | x :: buf => ChOk (Some x, mkChan (ch_cap c) buf (ch_closed c))
  | [] => if ch_closed c then ChOk (None, c) else ChBlock
  end.

Definition chan_close {A} (c : chan A) : chan_result (chan A) :=
  if ch_closed c then ChPanic else ChOk (mkChan (ch_cap c) (ch_buf c) true).

(** [make(chan provider.StreamEvent, 8)], in all three adapters. *)
Definition streamBuffer : nat := 8.

(** ** The state *)

(** Where the adapter's goroutine is: at [scanner.Scan()] with these lines
    left, at the select before a line is handled, at the select that sends an
    event ([next] is where it goes on after the send; [None]: it returns), at
    the two deferred calls, or gone. *)
Inductive AdapterPc (St : Type) :=
| AdScan (st : St) (lines : list string)
| AdLine (st : St) (line : string) (lines : list string)
| AdSend (evt : StreamEvent) (next : option (St * list string))
| AdBodyClose
| AdClose
| AdExit.
Arguments AdScan {St}.
Arguments AdLine {St}.
Arguments AdSend {St}.
Arguments AdBodyClose {St}.
Arguments AdClose {St}.
Arguments AdExit {St}.

(** The goroutine of [trackStreamHealth]: at the receive of its range loop, at
    its select, after the loop, at the deferred close, or gone. *)
Inductive TrackerPc :=
| TrRange (sawError : bool) (lastStreamErr : option goerr)
| TrSend (evt : StreamEvent) (sawError : bool) (lastStreamErr : option goerr)
| TrRecord (sawError : bool) (lastStreamErr : option goerr)
| TrClose
| TrExit.

(** The handler: before it looks for a flusher, at the receive of its loop,
    with an event in hand, draining (without a flusher it returns after that),
    at the final test of the context, or gone. *)
Inductive HandlerPc :=
| HaHead
| HaRange
| HaEvent (evt : StreamEvent)
| HaDrain
| HaDrainReturn
| HaFinish
| HaExit.

(** [pp_ready] results of [scanner.Scan()] can be had without waiting (the
    lines the service has sent, and the end of its body), and [pp_coming] have
    not arrived: nothing but the client's leaving bounds the wait for them. *)
Record Pipe (St : Type) := mkPipe {
  pp_ctx : bool;
  pp_adapter : AdapterPc St;
  pp_body : bool;
  pp_ch : chan StreamEvent;
  pp_tracker : TrackerPc;
  pp_world : World;
  pp_out : chan StreamEvent;
  pp_handler : HandlerPc;
  pp_ops : list WOp;
  pp_obs : Obs;
  pp_panic : bool;
  pp_coming : nat;
  pp_ready : nat;
}.
Arguments mkPipe {St}.
Arguments pp_ctx {St}.
Arguments pp_adapter {St}.
Arguments pp_body {St}.
Arguments pp_ch {St}.
Arguments pp_tracker {St}.
Arguments pp_world {St}.
Arguments pp_out {St}.
Arguments pp_handler {St}.
Arguments pp_ops {St}.
Arguments pp_obs {St}.
Arguments pp_panic {St}.
Arguments pp_coming {St}.
Arguments pp_ready {St}.

Section Setters.
Context {St : Type}.
Implicit Types s : Pipe St.

Definition cancel s : Pipe St :=
  mkPipe true (pp_adapter s) (pp_body s) (pp_ch s) (pp_tracker s) (pp_world s) (pp_out s)
    (pp_handler s) (pp_ops s) (pp_obs s) (pp_panic s) (pp_coming s) (pp_ready s).

Definition crash s : Pipe St :=
  mkPipe (pp_ctx s) (pp_adapter s) (pp_body s) (pp_ch s) (pp_tracker s) (pp_world s) (pp_out s)
    (pp_handler s) (pp_ops s) (pp_obs s) true (pp_coming s) (pp_ready s).

Definition set_adapter (pc : AdapterPc St) (body : bool) (ch : chan StreamEvent) s : Pipe St :=
  mkPipe (pp_ctx s) pc body ch (pp_tracker s) (pp_world s) (pp_out s)
    (pp_handler s) (pp_ops s) (pp_obs s) (pp_panic s) (pp_coming s) (pp_ready s).

Definition set_tracker (pc : TrackerPc) (ch out : chan StreamEvent) (w : World) s : Pipe St :=
  mkPipe (pp_ctx s) (pp_adapter s) (pp_body s) ch pc w out
    (pp_handler s) (pp_ops s) (pp_obs s) (pp_panic s) (pp_coming s) (pp_ready s).

Definition set_handler (pc : HandlerPc) (out : chan StreamEvent) (ops : list WOp) (o : Obs) s : Pipe St :=
  mkPipe (pp_ctx s) (pp_adapter s) (pp_body s) (pp_ch s) (pp_tracker s) (pp_world s) out
    pc ops o (pp_panic s) (pp_coming s) (pp_ready s).

Definition set_feed (coming ready : nat) s : Pipe St :=
  mkPipe (pp_ctx s) (pp_adapter s) (pp_body s) (pp_ch s) (pp_tracker s) (pp_world s) (pp_out s)
    (pp_handler s) (pp_ops s) (pp_obs s) (pp_panic s) coming ready.
End Setters.

(** What a goroutine does at a point where it has a choice: [BMain] is the
    next statement or the communication of a select, [BDone] the branch
    [<-ctx.Done()]; once the context has ended, reads of the body may also
    fail with an error ([BBroken]), after the scanner has handed out what it
    had of the current line ([BPartial]). *)
Inductive Branch :=
| BMain
| BDone
| BBroken (e : goerr)
| BPartial (line : string).

Section Pipeline.
(** The adapter: how it handles a line, and the error it sends after the last
    line for each value of [scanner.Err()]. *)
Context {St : Type} (line_step : St → string → St * Act) (final : option goerr → option goerr).
(** The body: how it ends. *)
Context (scanErr : option goerr).
(** The health decorator: the provider, the start of the call and the time at
    which the outcome is recorded. *)
Context (h : HealthTrackingProvider) (start now : Z).
(** The handler: the codecs, its writer, the provider's name, the decision. *)
Context (encode : Payload → string) (marshal : option ChatCompletionChunk → option string).
Context (can_flush : bool) (name : string) (d : Decision).
Implicit Types s : Pipe St.

(** [sendErr] followed by the return: an error event is the last one. *)
Definition sendErr (e : goerr) : AdapterPc St := AdSend (fail_event e) None.

(** [return] after the loop: the error event of the end of the body, if any. *)
Definition after_scan (err : option goerr) : AdapterPc St :=
  match final err with
  | Some e => sendErr e
  | None => AdBodyClose
  end.

Definition handle_line (st : St) (line : string) (lines : list string) : AdapterPc St :=
  match line_step st line with
  | (st, ASkip) => AdScan st lines
  | (_, AReturn) => AdBodyClose
  | (st, ASend evt) => AdSend evt (Some (st, lines))
  | (_, AFail e) => sendErr e
  end.

Definition adapter_goto (pc : AdapterPc St) s : Pipe St := set_adapter pc (pp_body s) (pp_ch s) s.

(** A return of [scanner.Scan()], when there is something to return. *)
Definition scanned (pc : AdapterPc St) s : option (Pipe St) :=
  match pp_ready s with
  | S n => Some (adapter_goto pc (set_feed (pp_coming s) n s))
  | O => None
  end.

(** The goroutine of the adapter. *)
Definition adapter_step (b : Branch) s : option (Pipe St) :=
  match pp_adapter s, b with
  | AdScan st (line :: lines), BMain => scanned (AdLine st line lines) s
  | AdScan st [], BMain => scanned (after_scan scanErr) s
  | AdScan st (_ :: _), BPartial line =>
      if pp_ctx s then Some (adapter_goto (AdLine st line []) s) else None
  | AdScan st _, BBroken e =>
      if pp_ctx s then Some (adapter_goto (after_scan (Some e)) s) else None
  | AdLine st line lines, BMain =>
      Some (adapter_goto (if pp_ctx s then AdBodyClose else handle_line st line lines) s)
  | AdSend evt next, BMain =>
      match chan_send evt (pp_ch s) with
      | ChBlock => None
      | ChPanic => Some (crash s)
      | ChOk ch =>
          Some (set_adapter (match next with Some (st, lines) => AdScan st lines | None => AdBodyClose end)
                  (pp_body s) ch s)
      end
  | AdSend _ _, BDone => if pp_ctx s then Some (adapter_goto AdBodyClose s) else None
  | AdBodyClose, BMain => Some (set_adapter AdClose false (pp_ch s) s)
  | AdClose, BMain =>
      match chan_close (pp_ch s) with
      | ChOk ch => Some (set_adapter AdExit (pp_body s) ch s)
      | _ => Some (crash s)
      end
  | _, _ => None
  end.

(** [sawError] and [lastStreamErr] after an event. *)
Definition saw_event (evt : StreamEvent) (saw : bool) (last : option goerr) : bool * option goerr :=
  match Err evt with Some e => (true, Some e) | None => (saw, last) end.

Definition record_health (saw : bool) (last : option goerr) (w : World) : World :=
  if saw then recordHealthFailure h last start now w else recordHealthSuccess h start now w.

Definition tracker_goto (pc : TrackerPc) s : Pipe St :=
  set_tracker pc (pp_ch s) (pp_out s) (pp_world s) s.

(** The goroutine of [trackStreamHealth]. *)
Definition tracker_step (b : Branch) s : option (Pipe St) :=
  match pp_tracker s, b with
  | TrRange saw last, BMain =>
      match chan_recv (pp_ch s) with
      | ChOk (Some evt, ch) =>
          let '(saw, last) := saw_event evt saw last in
          Some (set_tracker (TrSend evt saw last) ch (pp_out s) (pp_world s) s)
      | ChOk (None, _) => Some (tracker_goto (TrRecord saw last) s)
      | _ => None
      end
  | TrSend evt saw last, BMain =>
      match chan_send evt (pp_out s) with
      | ChBlock => None
      | ChPanic => Some (crash s)
      | ChOk out => Some (set_tracker (TrRange saw last) (pp_ch s) out (pp_world s) s)
      end
  | TrSend _ _ _, BDone => if pp_ctx s then Some (tracker_goto TrClose s) else None
  | TrRecord saw last, BMain =>
      Some (set_tracker TrClose (pp_ch s) (pp_out s) (record_health saw last (pp_world s)) s)
  | TrClose, BMain =>
      match chan_close (pp_out s) with
      | ChOk out => Some (set_tracker TrExit (pp_ch s) out (pp_world s) s)
      | _ => Some (crash s)
      end
  | _, _ => None
  end.

Definition stream_head : list WOp :=
  [OSet "Content-Type" "text/event-stream"; OSet "Cache-Control" "no-cache";
   OSet "Connection" "keep-alive"] ++ setRoutingHeaders d.

Definition no_flusher : list WOp :=
  WriteError encode 500 "internal_error" "internal_error" "streaming not supported".

Definition handler_goto (pc : HandlerPc) (out : chan StreamEvent) s : Pipe St :=
  set_handler pc out (pp_ops s) (pp_obs s) s.

(** The body of the handler's loop. *)
Definition handle_event (evt : StreamEvent) s : Pipe St :=
  let drain o := set_handler HaDrain (pp_out s) (pp_ops s) o s in
  match Err evt with
  | Some e =>
      drain (log Warn "stream error from provider"
               [("error", AStr (err_Error e)); ("provider", AStr name)] (pp_obs s))
  | None =>
      match marshal (Chunk evt) with
      | None => drain (log Warn "failed to marshal chunk" [] (pp_obs s))
      | Some data =>
          set_handler HaRange (pp_out s) (pp_ops s ++ [OWrite (sse data); OFlush]) (pp_obs s) s
      end
  end.

(** The handler, from the point at which it has the channel. *)
Definition handler_step s : option (Pipe St) :=
  match pp_handler s with
  | HaHead =>
      Some (if can_flush then set_handler HaRange (pp_out s) (pp_ops s ++ stream_head) (pp_obs s) s
            else set_handler HaDrainReturn (pp_out s) (pp_ops s ++ no_flusher) (pp_obs s) s)
  | HaRange =>
      match chan_recv (pp_out s) with
      | ChOk (Some evt, out) => Some (handler_goto (HaEvent evt) out s)
      | ChOk (None, out) => Some (handler_goto HaFinish out s)
      | _ => None
      end
  | HaEvent evt => Some (handle_event evt s)
  | HaDrain =>
      match chan_recv (pp_out s) with
      | ChOk (Some _, out) => Some (handler_goto HaDrain out s)
      | ChOk (None, out) => Some (handler_goto HaFinish out s)
      | _ => None
      end
  | HaDrainReturn =>
      match chan_recv (pp_out s) with
      | ChOk (Some _, out) => Some (handler_goto HaDrainReturn out s)
      | ChOk (None, out) => Some (handler_goto HaExit out s)
      | _ => None
      end
  | HaFinish =>
      Some (set_handler HaExit (pp_out s)
              (pp_ops s ++ (if pp_ctx s then [] else [OWrite (sse "[DONE]"); OFlush])) (pp_obs s) s)
  | HaExit => None
  end.

(** ** Runs *)

(** The client leaves, something of the body arrives, or a goroutine moves. *)
Inductive Label :=
| LCancel
| LArrive
| LAdapter (b : Branch)
| LTracker (b : Branch)
| LHandler.

Definition pipe_next (l : Label) s : option (Pipe St) :=
  if pp_panic s then None
  else match l with
  | LCancel => if pp_ctx s then None else Some (cancel s)
  | LArrive => match pp_coming s with S n => Some (set_feed n (S (pp_ready s)) s) | O => None end
  | LAdapter b => adapter_step b s
  | LTracker b => tracker_step b s
  | LHandler => handler_step s
  end.

(** A run under a schedule. *)
Fixpoint pipe_run (sched : list Label) s : option (Pipe St) :=
  match sched with
  | [] => Some s
  | l :: sched => s ← pipe_next l s; pipe_run sched s
  end.

(** One step of anything, and one step of a goroutine. *)
Definition pipe_step s s' : Prop := ∃ l, pipe_next l s = Some s'.
Definition goroutine_step s s' : Prop := ∃ l, l ≠ LCancel ∧ l ≠ LArrive ∧ pipe_next l s = Some s'.

(** The three goroutines just after [handleStream] got its channel;
    [trackStreamHealth] makes its channel with the capacity of the one it
    reads. *)
Definition pipe_start (st : St) (lines : list string) (w : World) (o : Obs) : Pipe St :=
  let ch := make_chan streamBuffer in
  mkPipe false (AdScan st lines) true ch (TrRange false None) w (make_chan (ch_cap ch)) HaHead [] o false
    (S (length lines)) 0.
End Pipeline.
