(* ===== verification/OpenAI.v ===== *)
(** * The OpenAI adapter

    Models src/internal/provider/openai/openai.go.  Requests and responses
    are passed through in the gateway's own format; the adapter adds the
    stream flag, the headers, the error mapping and the SSE reader. *)

From S2P Require Import Prelude GoStrings Model Retry Capture Upstream.
Local Open Scope Z_scope.

Definition openai_New (cfg : AdapterConfig) : AdapterConfig := adapter_New "https://api.openai.com/v1" cfg.
Definition openai_Name : string := "openai".
Definition openai_Models (p : AdapterConfig) : list string := ac_Models p.

(** [openaiRequest]: the outer [Stream] hides the embedded one. *)
Record openaiRequest := mkOpenaiRequest {
  oq_Request : ChatCompletionRequest;
  oq_Stream : bool;
}.

(** [Error] has the fields [Message], [Type] and [Code]. *)
Record openaiErrorResponse := mkOpenaiErrorResponse {
  oe_Message : string;
  oe_Type : string;
  oe_Code : string;
}.

Definition openai_errorTypeFromStatus (status : Z) : string :=
  if status =? 401 then "authentication_error"
  else if status =? 429 then "rate_limit_error"
  else if status =? 400 then "invalid_request_error"
  else "upstream_error".

Definition openai_retryable (status : Z) : bool := (status =? 429) || (500 <=? status).

Section OpenAI.
(** The JSON codec: marshalling a request; decoding a response body, a chunk
    and an error document. *)
Context (marshal : openaiRequest → goerr + string)
  (decode : string → option goerr → goerr + ChatCompletionResponse)
  (decode_chunk : string → goerr + ChatCompletionChunk)
  (decode_error : string → option openaiErrorResponse).
Context (net : Net_) (p : AdapterConfig).

Definition openai_handleErrorResponse (resp : HTTPResp) : goerr :=
  ErrProvider (error_response openai_retryable openai_errorTypeFromStatus
    (λ b, (λ d, (oe_Message d, oe_Type d)) <$> decode_error b) net resp).

Definition openai_headers : list (string * string) :=
  [("Content-Type", "application/json"); ("Authorization", "Bearer " +:+ ac_APIKey p)].

Definition openai_ChatCompletion (req : ChatCompletionRequest) : goerr + ChatCompletionResponse :=
  match exchange net (marshal (mkOpenaiRequest req false)) (ac_BaseURL p +:+ "/chat/completions")
          openai_headers openai_handleErrorResponse with
  | inl e => inl e
  | inr resp =>
      match decode (hp_Body resp) (hp_BodyErr resp) with
      | inl e => inl (ErrWrap "decoding response: " e)
      | inr result => inr result
      end
  end.

(** One scanned line. *)
Definition openai_line (st : unit) (line : string) : unit * Act :=
  (tt,
   if negb (HasPrefix line "data: ") then ASkip
   else
     let data := TrimPrefix line "data: " in
     if bool_decide (data = "[DONE]") then AReturn
     else match decode_chunk data with
     | inl e => AFail (ErrWrap "decoding chunk: " e)
     | inr chunk => ASend (chunk_event chunk)
     end).

Definition openai_final (scanErr : option goerr) : option goerr :=
  Some (match scanErr with
        | Some e => ErrWrap "reading stream: " e
        | None => ErrMsg "reading stream: unexpected EOF without [DONE]"
        end).

Definition openai_ChatCompletionStream (req : ChatCompletionRequest) (stop : option (nat * bool))
    : goerr + list StreamEvent :=
  match exchange net (marshal (mkOpenaiRequest req true)) (ac_BaseURL p +:+ "/chat/completions")
          (openai_headers ++ [("Accept", "text/event-stream")]) openai_handleErrorResponse with
  | inl e => inl e
  | inr resp =>
      let '(lines, scanErr) := scan_lines (hp_Body resp) (hp_BodyErr resp) in
      inr (pump openai_line (openai_final scanErr) lines stop tt)
  end.
End OpenAI.
