(* ===== verification/Anthropic.v ===== *)
(** * The Anthropic adapter

    Models src/internal/provider/anthropic/anthropic.go: translation of
    requests and responses between the gateway's format and the Messages API,
    and the reader of its event stream, which keeps the current event type and
    the message's id, model and input tokens. *)

From S2P Require Import Prelude GoStrings Float64 Model Retry Capture Upstream.
From Stdlib Require Import Ascii.
Local Open Scope Z_scope.

Definition anthropic_defaultMaxTokens : Z := 4096.
Definition anthropic_New (cfg : AdapterConfig) : AdapterConfig := adapter_New "https://api.anthropic.com" cfg.
Definition anthropic_Name : string := "anthropic".
Definition anthropic_Models (p : AdapterConfig) : list string := ac_Models p.

(** ** API types *)

Record anthropicMessage := mkAnthropicMessage { am_Role : string; am_Content : string }.

Record anthropicRequest := mkAnthropicRequest {
  ar_Model : string;
  ar_Messages : list anthropicMessage;
  ar_System : string;
  ar_MaxTokens : Z;
  ar_Temperature : option f64;
  ar_TopP : option f64;
  ar_StopSequences : list string;
  ar_Stream : bool;
}.

Record anthropicContent := mkAnthropicContent { an_Type : string; an_Text : string }.
Record anthropicUsage := mkAnthropicUsage { InputTokens : Z; OutputTokens : Z }.

Record anthropicResponse := mkAnthropicResponse {
  ap_ID : string;
  ap_Type : string;
  ap_Role : string;
  ap_Content : list anthropicContent;
  ap_Model : string;
  ap_StopReason : string;
  ap_StopSequence : option string;
  ap_Usage : anthropicUsage;
}.

Record anthropicErrorResponse := mkAnthropicErrorResponse {
  ae_Type : string;
  ae_ErrorType : string;
  ae_ErrorMessage : string;
}.

Record messageStartEvent := mkMessageStart { ms_Type : string; ms_Message : anthropicResponse }.

(** [Delta] has the fields [Type] and [Text]. *)
Record contentBlockDeltaEvent := mkContentBlockDelta {
  cb_EventType : string;
  cb_Index : Z;
  cb_Type : string;
  cb_Text : string;
}.

(** [Delta] has the fields [StopReason] and [StopSequence], [Usage] the field
    [OutputTokens]. *)
Record messageDeltaEvent := mkMessageDelta {
  md_Type : string;
  md_StopReason : string;
  md_StopSequence : option string;
  md_OutputTokens : Z;
}.

(** ** Translation *)

(** The loop over the messages: system parts and the others, in order. *)
Definition split_messages (msgs : list Message) : list string * list anthropicMessage :=
  foldl (λ acc msg,
    if bool_decide (Role msg = "system") then (acc.1 ++ [Content msg], acc.2)
    else (acc.1, acc.2 ++ [mkAnthropicMessage (Role msg) (Content msg)])) ([], []) msgs.

Definition blank_line : string := String nl (String nl "").

Definition anthropic_translateRequest (req : ChatCompletionRequest) : anthropicRequest :=
  let '(systemParts, msgs) := split_messages (rq_Messages req) in
  {| ar_Model := rq_Model req;
     ar_Messages := msgs;
     ar_System := if (0 <? length systemParts)%nat then Join systemParts blank_line else "";
     ar_MaxTokens := match rq_MaxTokens req with Some n => n | None => anthropic_defaultMaxTokens end;
     ar_Temperature := rq_Temperature req;
     ar_TopP := rq_TopP req;
     ar_StopSequences := if (0 <? length (rq_Stop req))%nat then rq_Stop req else [];
     ar_Stream := false |}.

Definition set_stream (b : bool) (r : anthropicRequest) : anthropicRequest :=
  {| ar_Model := ar_Model r; ar_Messages := ar_Messages r; ar_System := ar_System r;
     ar_MaxTokens := ar_MaxTokens r; ar_Temperature := ar_Temperature r; ar_TopP := ar_TopP r;
     ar_StopSequences := ar_StopSequences r; ar_Stream := b |}.

Definition mapStopReason (reason : string) : string :=
  if bool_decide (reason = "end_turn") then "stop"
  else if bool_decide (reason = "max_tokens") then "length"
  else if bool_decide (reason = "stop_sequence") then "stop"
  else reason.

(** [unix] is [time.Now().Unix()]. *)
Definition anthropic_translateResponse (unix : Z) (resp : anthropicResponse) : ChatCompletionResponse :=
  let textParts := foldl (λ acc c, if bool_decide (an_Type c = "text") then acc ++ [an_Text c] else acc)
                     [] (ap_Content resp) in
  {| rs_ID := ap_ID resp;
     rs_Object := "chat.completion";
     rs_Created := unix;
     rs_Model := ap_Model resp;
     rs_Choices := Some [{| ch_Index := 0;
                            ch_Message := mkMessage "assistant" (Join textParts "") "";
                            ch_FinishReason := mapStopReason (ap_StopReason resp) |}];
     rs_Usage := mkUsage (InputTokens (ap_Usage resp)) (OutputTokens (ap_Usage resp))
                   (wrap64 (InputTokens (ap_Usage resp) + OutputTokens (ap_Usage resp)));
     rs_SystemFingerprint := "" |}.

Definition anthropic_errorTypeFromStatus (status : Z) : string :=
  if status =? 401 then "authentication_error"
  else if status =? 429 then "rate_limit_error"
  else if status =? 400 then "invalid_request_error"
  else "upstream_error".

Definition anthropic_retryable (status : Z) : bool :=
  (status =? 429) || (500 <=? status) || (status =? 529).

(** ** The event stream *)

Record AStream := mkAStream {
  msgID : string;
  msgModel : string;
  inputTokens : Z;
  eventType : string;
  reads : nat;
}.

Definition anthropic_start : AStream := mkAStream "" "" 0 "" 0.

(** The clock has been read once more. *)
Definition tick (st : AStream) : AStream :=
  mkAStream (msgID st) (msgModel st) (inputTokens st) (eventType st) (S (reads st)).

Definition text_chunk (unix : Z) (st : AStream) (text : string) : ChatCompletionChunk :=
  mkChunk (msgID st) "chat.completion.chunk" unix (msgModel st)
    (Some [mkChunkChoice 0 (mkDelta "" text) None]) None.

Definition finish_chunk (unix : Z) (st : AStream) (ev : messageDeltaEvent) : ChatCompletionChunk :=
  mkChunk (msgID st) "chat.completion.chunk" unix (msgModel st)
    (Some [mkChunkChoice 0 (mkDelta "" "") (Some (mapStopReason (md_StopReason ev)))])
    (Some (mkUsage (inputTokens st) (md_OutputTokens ev) (wrap64 (inputTokens st + md_OutputTokens ev)))).

Section Anthropic.
(** The JSON codec: marshalling; decoding of a response, of the events'
    payloads, and of an error document. *)
Context (marshal : anthropicRequest → goerr + string)
  (decode : string → option goerr → goerr + anthropicResponse)
  (decode_start : string → goerr + messageStartEvent)
  (decode_block : string → goerr + contentBlockDeltaEvent)
  (decode_delta : string → goerr + messageDeltaEvent)
  (decode_error : string → option anthropicErrorResponse).
(** [unix] is the clock ([time.Now().Unix()]) when a response is translated;
    [clock i] is its value when the stream's goroutine reads it for the
    [i]-th time, once for every chunk it builds. *)
Context (net : Net_) (unix : Z) (clock : nat → Z) (p : AdapterConfig).

Definition anthropic_handleErrorResponse (resp : HTTPResp) : goerr :=
  ErrProvider (error_response anthropic_retryable anthropic_errorTypeFromStatus
    (λ b, (λ d, (ae_ErrorMessage d, ae_ErrorType d)) <$> decode_error b) net resp).

Definition anthropic_setHeaders : list (string * string) :=
  [("Content-Type", "application/json"); ("x-api-key", ac_APIKey p); ("anthropic-version", "2023-06-01")].

Definition anthropic_ChatCompletion (req : ChatCompletionRequest) : goerr + ChatCompletionResponse :=
  match exchange net (marshal (set_stream false (anthropic_translateRequest req)))
          (ac_BaseURL p +:+ "/v1/messages") anthropic_setHeaders anthropic_handleErrorResponse with
  | inl e => inl e
  | inr resp =>
      match decode (hp_Body resp) (hp_BodyErr resp) with
      | inl e => inl (ErrWrap "decoding response: " e)
      | inr ar2 => inr (anthropic_translateResponse unix ar2)
      end
  end.

(** One scanned line. *)
Definition anthropic_line (st : AStream) (line : string) : AStream * Act :=
  match CutPrefix "event: " line with
  | Some val => (mkAStream (msgID st) (msgModel st) (inputTokens st) val (reads st), ASkip)
  | None =>
      match CutPrefix "data: " line with
      | None => (st, ASkip)
      | Some data =>
          if bool_decide (eventType st = "message_start") then
            match decode_start data with
            | inl e => (st, AFail (ErrWrap "decoding message_start: " e))
            | inr ev =>
                let m := ms_Message ev in
                (mkAStream (ap_ID m) (ap_Model m) (InputTokens (ap_Usage m)) (eventType st) (reads st), ASkip)
            end
          else if bool_decide (eventType st = "content_block_delta") then
            match decode_block data with
            | inl e => (st, AFail (ErrWrap "decoding content_block_delta: " e))
            | inr ev =>
                if negb (bool_decide (cb_Type ev = "text_delta")) then (st, ASkip)
                else (tick st, ASend (chunk_event (text_chunk (clock (reads st)) st (cb_Text ev))))
            end
          else if bool_decide (eventType st = "message_delta") then
            match decode_delta data with
            | inl e => (st, AFail (ErrWrap "decoding message_delta: " e))
            | inr ev => (tick st, ASend (chunk_event (finish_chunk (clock (reads st)) st ev)))
            end
          else if bool_decide (eventType st = "message_stop") then (st, AReturn)
          else (st, ASkip)
      end
  end.

Definition anthropic_final (scanErr : option goerr) : option goerr :=
  Some (match scanErr with
        | Some e => ErrWrap "reading stream: " e
        | None => ErrMsg "reading stream: unexpected EOF without message_stop"
        end).

Definition anthropic_ChatCompletionStream (req : ChatCompletionRequest) (stop : option (nat * bool))
    : goerr + list StreamEvent :=
  match exchange net (marshal (set_stream true (anthropic_translateRequest req)))
          (ac_BaseURL p +:+ "/v1/messages")
          (anthropic_setHeaders ++ [("Accept", "text/event-stream")]) anthropic_handleErrorResponse with
  | inl e => inl e
  | inr resp =>
      let '(lines, scanErr) := scan_lines (hp_Body resp) (hp_BodyErr resp) in
      inr (pump anthropic_line (anthropic_final scanErr) lines stop anthropic_start)
  end.
End Anthropic.
