(* ===== verification/Google.v ===== *)
(** * The Google Gemini adapter

    Models src/internal/provider/google/google.go: translation of requests,
    responses and stream chunks between the gateway's format and the Gemini
    API, its URLs, and the reader of its event stream. *)

From S2P Require Import Prelude GoStrings Float64 Model Retry Capture Upstream.
From Stdlib Require Import Ascii.
Local Open Scope Z_scope.

Definition google_New (cfg : AdapterConfig) : AdapterConfig :=
  adapter_New "https://generativelanguage.googleapis.com/v1beta" cfg.
Definition google_Name : string := "google".
Definition google_Models (p : AdapterConfig) : list string := ac_Models p.

(** ** API types *)

Record geminiPart := mkGeminiPart { gp_Text : string }.
Record geminiContent := mkGeminiContent { gc_Role : string; gc_Parts : list geminiPart }.
Record geminiSystemInstruction := mkGeminiSystem { gs_Parts : list geminiPart }.

Record geminiGenerationConfig := mkGeminiConfig {
  gg_Temperature : option f64;
  gg_TopP : option f64;
  gg_MaxOutputTokens : option Z;
  gg_StopSequences : list string;
  gg_CandidateCount : option Z;
}.

Record geminiRequest := mkGeminiRequest {
  gr_Contents : list geminiContent;
  gr_SystemInstruction : option geminiSystemInstruction;
  gr_GenerationConfig : option geminiGenerationConfig;
}.

Record geminiCandidate := mkGeminiCandidate { gd_Content : geminiContent; gd_FinishReason : string }.

Record geminiUsageMetadata := mkGeminiUsage {
  PromptTokenCount : Z;
  CandidatesTokenCount : Z;
  TotalTokenCount : Z;
}.

Record geminiResponse := mkGeminiResponse {
  gq_Candidates : list geminiCandidate;
  gq_UsageMetadata : option geminiUsageMetadata;
}.

(** [Error] has the fields [Code], [Message] and [Status]. *)
Record geminiErrorResponse := mkGeminiError {
  ge_Code : Z;
  ge_Message : string;
  ge_Status : string;
}.

(** ** Translation *)

Definition gemini_role (role : string) : string :=
  if bool_decide (role = "assistant") then "model" else role.

(** The loop over the messages: system parts and contents, in order. *)
Definition gemini_split (msgs : list Message) : list geminiPart * list geminiContent :=
  foldl (λ acc msg,
    if bool_decide (Role msg = "system") then (acc.1 ++ [mkGeminiPart (Content msg)], acc.2)
    else (acc.1, acc.2 ++ [mkGeminiContent (gemini_role (Role msg)) [mkGeminiPart (Content msg)]]))
    ([], []) msgs.

Definition google_translateRequest (req : ChatCompletionRequest) : geminiRequest :=
  let '(systemParts, contents) := gemini_split (rq_Messages req) in
  {| gr_Contents := contents;
     gr_SystemInstruction := if (0 <? length systemParts)%nat then Some (mkGeminiSystem systemParts) else None;
     gr_GenerationConfig :=
       if bool_decide (is_Some (rq_Temperature req)) || bool_decide (is_Some (rq_TopP req))
          || bool_decide (is_Some (rq_MaxTokens req)) || (0 <? length (rq_Stop req))%nat
          || bool_decide (is_Some (rq_N req))
       then Some {| gg_Temperature := rq_Temperature req; gg_TopP := rq_TopP req;
                    gg_MaxOutputTokens := rq_MaxTokens req; gg_StopSequences := rq_Stop req;
                    gg_CandidateCount := rq_N req |}
       else None |}.

Definition mapFinishReason (reason : string) : string :=
  if bool_decide (reason = "STOP") then "stop"
  else if bool_decide (reason = "MAX_TOKENS") then "length"
  else if bool_decide (reason = "SAFETY") then "content_filter"
  else if bool_decide (reason = "RECITATION") then "content_filter"
  else "stop".

(** [b] is the 16 bytes drawn; [%x] prints two digits per byte. *)
Definition hex_bytes (b : list nat) : string :=
  foldr (λ n acc, String (hex_digit (n / 16)) (String (hex_digit (n mod 16)) acc)) "" b.
Definition slice (b : list nat) (i j : nat) : list nat := take (j - i) (drop i b).

Definition generateID (b : list nat) : string :=
  "chatcmpl-" +:+ hex_bytes (slice b 0 4) +:+ "-" +:+ hex_bytes (slice b 4 6) +:+ "-" +:+
  hex_bytes (slice b 6 8) +:+ "-" +:+ hex_bytes (slice b 8 10) +:+ "-" +:+ hex_bytes (slice b 10 16).

Definition parts_text (parts : list geminiPart) : string := foldl (λ acc p, acc +:+ gp_Text p) "" parts.

Definition usage_of (u : geminiUsageMetadata) : Usage :=
  mkUsage (PromptTokenCount u) (CandidatesTokenCount u) (TotalTokenCount u).

(** [b] and [unix] are the random bytes and the clock read. *)
Definition google_translateResponse (b : list nat) (unix : Z) (resp : geminiResponse) (reqModel : string)
    : ChatCompletionResponse :=
  {| rs_ID := generateID b;
     rs_Object := "chat.completion";
     rs_Created := unix;
     rs_Model := reqModel;
     rs_Choices := appended (imap (λ i c,
       {| ch_Index := Z.of_nat i;
          ch_Message := mkMessage "assistant" (parts_text (gc_Parts (gd_Content c))) "";
          ch_FinishReason := mapFinishReason (gd_FinishReason c) |}) (gq_Candidates resp));
     rs_Usage := match gq_UsageMetadata resp with Some u => usage_of u | None => mkUsage 0 0 0 end;
     rs_SystemFingerprint := "" |}.

Definition google_translateChunk (unix : Z) (resp : geminiResponse) (streamID reqModel : string)
    : ChatCompletionChunk :=
  {| ck_ID := streamID;
     ck_Object := "chat.completion.chunk";
     ck_Created := unix;
     ck_Model := reqModel;
     ck_Choices := appended (imap (λ i c,
       {| cc_Index := Z.of_nat i;
          cc_Delta := mkDelta "" (parts_text (gc_Parts (gd_Content c)));
          cc_FinishReason := if bool_decide (gd_FinishReason c = "") then None
                             else Some (mapFinishReason (gd_FinishReason c)) |}) (gq_Candidates resp));
     ck_Usage := usage_of <$> gq_UsageMetadata resp |}.

Definition generateContentURL (p : AdapterConfig) (modelName : string) : string :=
  ac_BaseURL p +:+ "/models/" +:+ modelName +:+ ":generateContent?key=" +:+ ac_APIKey p.

Definition streamGenerateContentURL (p : AdapterConfig) (modelName : string) : string :=
  ac_BaseURL p +:+ "/models/" +:+ modelName +:+ ":streamGenerateContent?alt=sse&key=" +:+ ac_APIKey p.

Definition google_errorTypeFromStatus (status : Z) : string :=
  if status =? 401 then "authentication_error"
  else if status =? 403 then "authentication_error"
  else if status =? 429 then "rate_limit_error"
  else if status =? 400 then "invalid_request_error"
  else "upstream_error".

Definition google_retryable (status : Z) : bool := (status =? 429) || (500 <=? status).

Section Google.
(** The JSON codec: marshalling; decoding of a response, a stream chunk and an
    error document. *)
Context (marshal : geminiRequest → goerr + string)
  (decode : string → option goerr → goerr + geminiResponse)
  (decode_chunk : string → goerr + geminiResponse)
  (decode_error : string → option geminiErrorResponse).
(** [unix] is the clock when a response is translated; [clock i] is its value
    when the stream's goroutine reads it for the [i]-th time, once for every
    chunk it translates. *)
Context (net : Net_) (b : list nat) (unix : Z) (clock : nat → Z) (p : AdapterConfig).

Definition google_handleErrorResponse (resp : HTTPResp) : goerr :=
  ErrProvider (error_response google_retryable google_errorTypeFromStatus
    (λ b, (λ d, (ge_Message d, ge_Status d)) <$> decode_error b) net resp).

Definition google_ChatCompletion (req : ChatCompletionRequest) : goerr + ChatCompletionResponse :=
  match exchange net (marshal (google_translateRequest req)) (generateContentURL p (rq_Model req))
          [("Content-Type", "application/json")] google_handleErrorResponse with
  | inl e => inl e
  | inr resp =>
      match decode (hp_Body resp) (hp_BodyErr resp) with
      | inl e => inl (ErrWrap "decoding response: " e)
      | inr gemResp => inr (google_translateResponse b unix gemResp (rq_Model req))
      end
  end.

(** One scanned line; the state counts the clock readings. *)
Definition google_line (streamID reqModel : string) (reads : nat) (line : string) : nat * Act :=
  if negb (HasPrefix line "data: ") then (reads, ASkip)
  else match decode_chunk (TrimPrefix line "data: ") with
  | inl e => (reads, AFail (ErrWrap "decoding chunk: " e))
  | inr chunk => (S reads, ASend (chunk_event (google_translateChunk (clock reads) chunk streamID reqModel)))
  end.

(** A clean end of the body is the normal end of a Gemini stream. *)
Definition google_final (scanErr : option goerr) : option goerr := ErrWrap "reading stream: " <$> scanErr.

Definition google_ChatCompletionStream (req : ChatCompletionRequest) (stop : option (nat * bool))
    : goerr + list StreamEvent :=
  match exchange net (marshal (google_translateRequest req)) (streamGenerateContentURL p (rq_Model req))
          [("Content-Type", "application/json"); ("Accept", "text/event-stream")]
          google_handleErrorResponse with
  | inl e => inl e
  | inr resp =>
      let '(lines, scanErr) := scan_lines (hp_Body resp) (hp_BodyErr resp) in
      inr (pump (google_line (generateID b) (rq_Model req)) (google_final scanErr) lines stop O)
  end.
End Google.
