(* ===== verification/PipelineProps.v ===== *)
(** * Theorems on the goroutines of a streaming request

    [pipe_inv] is what every reachable state of [Pipeline] satisfies; from it
    follow that no channel operation panics and that some goroutine can move
    until all three have returned ([progress]).  [weight] decreases with every
    step.  [may_end] relates a state to the results the sequential definitions
    still allow from it; steps only shrink it, which gives the refinement. *)

From S2P Require Import Prelude GoStrings Float64 Model Health Metrics Retry Registry.
From S2P Require Import Strategies RateLimit Config Router Auth Http Capture Middleware Handlers Upstream Pipeline.
From S2P Require Import OpenAI Anthropic Google.
Local Open Scope nat_scope.

Ltac inv_opt := repeat match goal with
  | H : Some _ = Some _ |- _ => injection H as <-
  | H : None = Some _ |- _ => discriminate H
  | H : (if ?b then _ else _) = Some _ |- _ => let E := fresh "Eif" in destruct b eqn:E
  end.

(** ** Channels *)

Lemma chan_send_ok {A} (x : A) c c' :
  chan_send x c = ChOk c' →
  ch_closed c = false ∧ length (ch_buf c) < ch_cap c ∧ c' = mkChan (ch_cap c) (ch_buf c ++ [x]) false.
Proof.
  unfold chan_send. destruct (ch_closed c); [done|]. destruct (Nat.ltb_spec (length (ch_buf c)) (ch_cap c)); [|done].
  by intros [= <-].
Qed.

Lemma chan_send_open {A} (x : A) c : ch_closed c = false → chan_send x c ≠ ChPanic.
Proof. unfold chan_send. intros ->. by destruct (_ <? _). Qed.

Lemma chan_recv_some {A} (x : A) c c' :
  chan_recv c = ChOk (Some x, c') → ∃ buf, ch_buf c = x :: buf ∧ c' = mkChan (ch_cap c) buf (ch_closed c).
Proof.
  unfold chan_recv. destruct (ch_buf c); [by destruct (ch_closed c)|]. intros [= <- <-]. eauto.
Qed.

Lemma chan_recv_none {A} (c c' : chan A) :
  chan_recv c = ChOk (None, c') → ch_buf c = [] ∧ ch_closed c = true ∧ c' = c.
Proof.
  unfold chan_recv. destruct (ch_buf c); [|done]. destruct (ch_closed c); [|done]. by intros [= <-].
Qed.

Section Runs.
Context {St : Type} (line_step : St → string → St * Act) (final : option goerr → option goerr).
Context (scanErr : option goerr) (h : HealthTrackingProvider) (start now : Z).
Context (encode : Payload → string) (marshal : option ChatCompletionChunk → option string).
Context (can_flush : bool) (name : string) (d : Decision).
Implicit Types s : Pipe St.

Abbreviation next := (pipe_next line_step final scanErr h start now encode marshal can_flush name d).
Abbreviation step := (pipe_step line_step final scanErr h start now encode marshal can_flush name d).
Abbreviation go_step := (goroutine_step line_step final scanErr h start now encode marshal can_flush name d).

(** ** The invariant *)

Definition chan_inv (c : chan StreamEvent) : Prop :=
  ch_cap c = streamBuffer ∧ length (ch_buf c) ≤ streamBuffer.

(** The tracker is past its loop. *)
Definition tr_past (pc : TrackerPc) : bool :=
  match pc with TrRange _ _ | TrSend _ _ _ => false | _ => true end.

Definition ad_exited (pc : AdapterPc St) : bool := match pc with AdExit => true | _ => false end.
Definition ad_body (pc : AdapterPc St) : bool := match pc with AdClose | AdExit => false | _ => true end.
Definition tr_exited (pc : TrackerPc) : bool := match pc with TrExit => true | _ => false end.
Definition ha_past (pc : HandlerPc) : bool := match pc with HaFinish | HaExit => true | _ => false end.
Definition ha_exited (pc : HandlerPc) : bool := match pc with HaExit => true | _ => false end.

(** While the client is there, what is left to scan is coming or ready. *)
Definition ad_feed (pc : AdapterPc St) (feed : nat) : Prop :=
  match pc with
  | AdScan _ lines => feed = S (length lines)
  | AdLine _ _ lines | AdSend _ (Some (_, lines)) => feed = S (length lines)
  | _ => True
  end.

Record pipe_inv s : Prop := {
  pi_panic : pp_panic s = false;
  pi_ch : chan_inv (pp_ch s);
  pi_out : chan_inv (pp_out s);
  pi_ch_closed : ch_closed (pp_ch s) = ad_exited (pp_adapter s);
  pi_out_closed : ch_closed (pp_out s) = tr_exited (pp_tracker s);
  pi_body : pp_body s = ad_body (pp_adapter s);
  pi_tracker : tr_past (pp_tracker s) = true → pp_ctx s = false →
               ad_exited (pp_adapter s) = true ∧ ch_buf (pp_ch s) = [];
  pi_feed : pp_ctx s = false → ad_feed (pp_adapter s) (pp_coming s + pp_ready s);
  pi_handler : ha_past (pp_handler s) = true → tr_exited (pp_tracker s) = true ∧ ch_buf (pp_out s) = [];
}.

Lemma pipe_start_inv st lines w o : pipe_inv (pipe_start st lines w o).
Proof. split; try done; (split; [done|simpl; lia]). Qed.

Lemma chan_inv_send x c c' : chan_inv c → chan_send x c = ChOk c' → chan_inv c'.
Proof.
  intros [Hc Hl] (_&Hlt&->)%chan_send_ok. split; [done|]. simpl. rewrite length_app. simpl. lia.
Qed.

Lemma chan_inv_recv c x c' : chan_inv c → chan_recv c = ChOk (x, c') → chan_inv c'.
Proof.
  intros [Hc Hl]. destruct x as [x|].
  - intros (buf&Hb&->)%chan_recv_some. split; [done|]. rewrite Hb in Hl. simpl in *. lia.
  - by intros (_&_&->)%chan_recv_none.
Qed.

(** A step of the adapter, case by case. *)
Lemma adapter_step_inv b s s' :
  pipe_inv s → adapter_step line_step final scanErr b s = Some s' → pipe_inv s'.
Proof.
  intros [Hp Hch Hout Hcc Hoc Hb Ht Hf Hh] Hstep. unfold adapter_step, scanned in Hstep.
  assert (∀ pc c r, ad_exited pc = false → ad_body pc = true → (pp_ctx s = false → ad_feed pc (c + r)) →
    ad_exited (pp_adapter s) = false → ad_body (pp_adapter s) = true →
    pipe_inv (adapter_goto pc (set_feed c r s))) as Hgoto.
  { intros pc c r E1 E2 Hfeed E3 E4. split; simpl; try done; [by rewrite Hcc, E3|by rewrite Hb, E4|].
    intros H1 H2. destruct (Ht H1 H2). congruence. }
  assert (∀ err, ad_exited (after_scan final err) = false ∧ ad_body (after_scan final err) = true ∧
    ∀ feed, ad_feed (after_scan final err) feed) as Hafter.
  { intros err. unfold after_scan. by destruct (final err). }
  destruct (pp_adapter s) as [st [|line lines]|st line lines|evt nx| | |] eqn:Epc, b; try done.
  - destruct (pp_ready s) as [|n]; inv_opt. apply Hgoto; (done || by intros; apply Hafter).
  - inv_opt. apply (Hgoto _ (pp_coming s) (pp_ready s)); (done || by intros; apply Hafter).
  - destruct (pp_ready s) as [|n]; inv_opt. apply Hgoto; try done. intros Hc. specialize (Hf Hc). simpl in *. lia.
  - inv_opt. apply (Hgoto _ (pp_coming s) (pp_ready s)); (done || by intros; apply Hafter).
  - inv_opt. by apply (Hgoto _ (pp_coming s) (pp_ready s)).
  - inv_opt. apply (Hgoto _ (pp_coming s) (pp_ready s)); try done; destruct (pp_ctx s); try done;
      unfold handle_line; destruct (line_step st line) as [? []]; try done.
  - destruct (chan_send evt (pp_ch s)) as [| |ch] eqn:Es; inv_opt.
    { by apply chan_send_open in Es. }
    pose proof (chan_inv_send _ _ _ Hch Es) as Hch'. apply chan_send_ok in Es as (_&_&->).
    split; simpl; try done; try (by destruct nx as [[]|]). intros H1 H2. by destruct (Ht H1 H2).
  - inv_opt. by apply (Hgoto _ (pp_coming s) (pp_ready s)).
  - inv_opt. split; simpl in *; try done.
  - destruct (chan_close (pp_ch s)) as [| |ch] eqn:Ec; unfold chan_close in Ec; rewrite Hcc in Ec; try done.
    injection Ec as <-. inv_opt. split; simpl; try done. intros H1 H2. by destruct (Ht H1 H2).
Qed.

Lemma tracker_step_inv b s s' :
  pipe_inv s → tracker_step h start now b s = Some s' → pipe_inv s'.
Proof.
  intros [Hp Hch Hout Hcc Hoc Hb Ht Hf Hh] Hstep. unfold tracker_step in Hstep.
  destruct (pp_tracker s) as [saw last|evt saw last|saw last| |] eqn:Epc, b; try done.
  - destruct (chan_recv (pp_ch s)) as [| |[[evt|] ch]] eqn:Er; inv_opt.
    + pose proof (chan_inv_recv _ _ _ Hch Er) as Hch'. apply chan_recv_some in Er as (buf&Hbuf&->).
      unfold saw_event in Hstep. destruct (Err evt); inv_opt; by split.
    + apply chan_recv_none in Er as (Hbuf&Hcl&_). split; simpl; try done.
      intros _ _. by rewrite <-Hcc.
  - destruct (chan_send evt (pp_out s)) as [| |out] eqn:Es; inv_opt.
    { by apply chan_send_open in Es. }
    pose proof (chan_inv_send _ _ _ Hout Es) as Hout'. apply chan_send_ok in Es as (_&_&->).
    split; simpl; try done. intros Hx. by destruct (Hh Hx).
  - inv_opt. split; simpl; try done; congruence.
  - inv_opt. by split.
  - destruct (chan_close (pp_out s)) as [| |out] eqn:Ec; unfold chan_close in Ec; rewrite Hoc in Ec; try done.
    injection Ec as <-. inv_opt. split; simpl; try done. intros Hx. by destruct (Hh Hx).
Qed.

Lemma handler_step_inv s s' :
  pipe_inv s → handler_step encode marshal can_flush name d s = Some s' → pipe_inv s'.
Proof.
  intros [Hp Hch Hout Hcc Hoc Hb Ht Hf Hh] Hstep. unfold handler_step in Hstep.
  assert (∀ x out pc, chan_recv (pp_out s) = ChOk (x, out) → (x ≠ None → ha_past pc = false) →
    pipe_inv (handler_goto pc out s)) as Hrecv.
  { intros x out pc Er Hx. pose proof (chan_inv_recv _ _ _ Hout Er) as Hout'. destruct x as [evt|].
    - apply chan_recv_some in Er as (buf&Hbuf&->). split; simpl; try done. intros E. by rewrite Hx in E.
    - apply chan_recv_none in Er as (Hbuf&Hcl&->). split; simpl; try done. intros _. by rewrite <-Hoc. }
  destruct (pp_handler s) as [| |evt| | | |] eqn:Epc; try done.
  - destruct can_flush; inv_opt; by split.
  - destruct (chan_recv (pp_out s)) as [| |[[evt|] out]] eqn:Er; inv_opt; by eapply Hrecv.
  - inv_opt. unfold handle_event. destruct (Err evt); [by split|]. destruct (marshal (Chunk evt)); by split.
  - destruct (chan_recv (pp_out s)) as [| |[[evt|] out]] eqn:Er; inv_opt; by eapply Hrecv.
  - destruct (chan_recv (pp_out s)) as [| |[[evt|] out]] eqn:Er; inv_opt; by eapply Hrecv.
  - inv_opt. by split.
Qed.

Lemma pipe_step_inv s s' : pipe_inv s → step s s' → pipe_inv s'.
Proof.
  intros Hinv [l Hl]. unfold pipe_next in Hl. rewrite (pi_panic _ Hinv) in Hl. destruct l as [| |b|b|].
  - inv_opt. destruct Hinv. by split.
  - destruct (pp_coming s) as [|n] eqn:En; inv_opt. destruct Hinv as [Hp Hch Hout Hcc Hoc Hb Ht Hf Hh]. split; try done.
    intros Hc. specialize (Hf Hc). rewrite En in Hf. simpl. by rewrite Nat.add_succ_r.
  - by eapply adapter_step_inv.
  - by eapply tracker_step_inv.
  - by eapply handler_step_inv.
Qed.
(** ** Progress *)

Definition all_returned s : Prop :=
  pp_adapter s = AdExit ∧ pp_tracker s = TrExit ∧ pp_handler s = HaExit.

Lemma go_adapter b s s' :
  pp_panic s = false → adapter_step line_step final scanErr b s = Some s' → ∃ s', go_step s s'.
Proof. intros Hp Hs. exists s', (LAdapter b). split_and!; [done..|]. unfold pipe_next. by rewrite Hp. Qed.

Lemma go_tracker b s s' :
  pp_panic s = false → tracker_step h start now b s = Some s' → ∃ s', go_step s s'.
Proof. intros Hp Hs. exists s', (LTracker b). split_and!; [done..|]. unfold pipe_next. by rewrite Hp. Qed.

Lemma go_handler s s' :
  pp_panic s = false → handler_step encode marshal can_flush name d s = Some s' → ∃ s', go_step s s'.
Proof. intros Hp Hs. exists s', LHandler. split_and!; [done..|]. unfold pipe_next. by rewrite Hp. Qed.

(** The handler can move unless it waits for the tracker or has returned. *)
Lemma handler_progress s :
  pipe_inv s → (∃ s', go_step s s') ∨ pp_handler s = HaExit ∨
    (ch_buf (pp_out s) = [] ∧ tr_exited (pp_tracker s) = false).
Proof.
  intros [Hp _ _ _ Hoc _ _ _ _]. destruct (handler_step encode marshal can_flush name d s) as [s'|] eqn:E.
  { left. by eapply go_handler. }
  right. revert E. unfold handler_step, chan_recv.
  destruct (pp_handler s); try done; try (by left); intros E; right; rewrite <-Hoc;
    destruct (ch_buf (pp_out s)); try done; by destruct (ch_closed (pp_out s)).
Qed.

(** The tracker can move unless it waits for one of its neighbours. *)
Lemma tracker_progress s :
  pipe_inv s → (∃ s', go_step s s') ∨ pp_tracker s = TrExit ∨
    (ch_buf (pp_ch s) = [] ∧ ad_exited (pp_adapter s) = false ∧ tr_exited (pp_tracker s) = false ∧
     tr_past (pp_tracker s) = false) ∨
    (length (ch_buf (pp_out s)) = streamBuffer ∧ pp_ctx s = false ∧ tr_exited (pp_tracker s) = false ∧
     tr_past (pp_tracker s) = false).
Proof.
  intros [Hp _ [Hcap Hlen] Hcc Hoc _ _ _ _].
  destruct (tracker_step h start now BMain s) as [s'|] eqn:E; [left; by eapply go_tracker|].
  revert E. unfold tracker_step, chan_recv, chan_send, chan_close.
  destruct (pp_tracker s) as [saw last|evt saw last|saw last| |] eqn:Epc; try done; simpl in *; try (by right; left).
  - intros E. right. right. left. rewrite <-Hcc. destruct (ch_buf (pp_ch s)) as [|evt buf].
    + destruct (ch_closed (pp_ch s)); done.
    + by destruct (saw_event evt saw last).
  - rewrite Hoc, Hcap. destruct (Nat.ltb_spec (length (ch_buf (pp_out s))) streamBuffer); [done|].
    intros _. destruct (pp_ctx s) eqn:Ec; [|right; right; right; split; [lia|done]].
    left. eapply (go_tracker BDone); [done|]. unfold tracker_step. by rewrite Epc, Ec.
  - rewrite Hoc. done.
Qed.

(** The reader waits for the service, and the client is still there. *)
Definition awaiting_service s : Prop :=
  ∃ st lines, pp_adapter s = AdScan st lines ∧ pp_ctx s = false ∧ pp_ready s = 0 ∧ 0 < pp_coming s.

Lemma adapter_progress s :
  pipe_inv s → (∃ s', go_step s s') ∨ pp_adapter s = AdExit ∨ awaiting_service s ∨
    (length (ch_buf (pp_ch s)) = streamBuffer ∧ pp_ctx s = false ∧ ad_exited (pp_adapter s) = false).
Proof.
  intros [Hp [Hcap Hlen] _ Hcc _ _ _ Hf _].
  assert (∀ st lines, pp_adapter s = AdScan st lines → pp_ready s = 0 →
    (∃ s', go_step s s') ∨ awaiting_service s) as Hscan.
  { intros st lines Epc Hr. destruct (pp_ctx s) eqn:Ec.
    - left. eapply (go_adapter (BBroken (ErrMsg ""))); [done|]. unfold adapter_step. rewrite Epc, Ec. by destruct lines.
    - right. exists st, lines. rewrite Epc in Hf. specialize (Hf eq_refl). simpl in Hf. split_and!; [done..|lia]. }
  destruct (adapter_step line_step final scanErr BMain s) as [s'|] eqn:E; [left; by eapply go_adapter|].
  revert E. unfold adapter_step, scanned, chan_send, chan_close.
  destruct (pp_adapter s) as [st [|line lines]|st line lines|evt nx| | |] eqn:Epc; try done; simpl in *;
    try (by right; left); [destruct (pp_ready s); [|done]..|rewrite Hcc|rewrite Hcc; done].
  1,2: intros _; destruct (Hscan _ _ eq_refl eq_refl); tauto.
  rewrite Hcap. destruct (Nat.ltb_spec (length (ch_buf (pp_ch s))) streamBuffer); [done|].
  intros _. destruct (pp_ctx s) eqn:Ec; [|right; right; right; split; [lia|done]].
  left. eapply (go_adapter BDone); [done|]. unfold adapter_step. by rewrite Epc, Ec.
Qed.

(** No deadlock: some goroutine can move until all have returned, unless the
    service is slow. *)
Lemma progress s : pipe_inv s → (∃ s', go_step s s') ∨ awaiting_service s ∨ all_returned s.
Proof.
  intros Hinv. unfold all_returned.
  destruct (adapter_progress s Hinv) as [?|[Ha|[?|Ha]]]; [tauto| |tauto|];
    (destruct (tracker_progress s Hinv) as [?|Ht]; [tauto|]);
    (destruct (handler_progress s Hinv) as [?|Hh]; [tauto|]); right; right;
    destruct Hinv as [_ _ _ _ _ _ Htr _ Hha];
    assert (tr_exited (pp_tracker s) = true → pp_tracker s = TrExit) as Htx by (by destruct (pp_tracker s)).
  - destruct Hh as [Hh|[Hout Htx']]; [rewrite Hh in Hha; destruct (Hha eq_refl); tauto|].
    destruct Ht as [Ht|[(_&Hne&_)|(Hfull&_)]]; [by rewrite Ht in Htx'|by rewrite Ha in Hne|by rewrite Hout in Hfull].
  - destruct Ha as (Hfull&Hc&Hne). destruct Hh as [Hh|[Hout Htx']].
    + rewrite Hh in Hha. destruct (Hha eq_refl) as [Hx _]. apply Htx in Hx. rewrite Hx in Htr.
      destruct (Htr eq_refl Hc). congruence.
    + destruct Ht as [Ht|[(Hbuf&_)|(Hfull'&_)]]; [by rewrite Ht in Htx'|by rewrite Hbuf in Hfull|by rewrite Hout in Hfull'].
Qed.

(** ** Termination *)

Definition ad_weight (pc : AdapterPc St) : nat :=
  match pc with
  | AdScan _ lines => 7 * length lines + 8
  | AdLine _ _ lines => 7 * length lines + 14
  | AdSend _ (Some (_, lines)) => 7 * length lines + 13
  | AdSend _ None => 7
  | AdBodyClose => 2
  | AdClose => 1
  | AdExit => 0
  end.

Definition tr_weight (pc : TrackerPc) : nat :=
  match pc with TrRange _ _ => 3 | TrSend _ _ _ => 6 | TrRecord _ _ => 2 | TrClose => 1 | TrExit => 0 end.

Definition ha_weight (pc : HandlerPc) : nat :=
  match pc with
  | HaHead => 3 | HaRange => 2 | HaEvent _ => 3 | HaDrain => 2 | HaDrainReturn => 2 | HaFinish => 1 | HaExit => 0
  end.

(** An upper bound on the number of steps left. *)
Definition weight s : nat :=
  (if pp_ctx s then 0 else 1) + ad_weight (pp_adapter s) + 4 * length (ch_buf (pp_ch s)) +
  tr_weight (pp_tracker s) + 2 * length (ch_buf (pp_out s)) + ha_weight (pp_handler s) +
  2 * pp_coming s + pp_ready s.

Lemma adapter_step_weight b s s' :
  pipe_inv s → adapter_step line_step final scanErr b s = Some s' → weight s' < weight s.
Proof.
  intros Hinv Hstep. unfold adapter_step, scanned in Hstep.
  assert (∀ pc r, r ≤ pp_ready s → ad_weight pc < ad_weight (pp_adapter s) →
    weight (adapter_goto pc (set_feed (pp_coming s) r s)) < weight s) as Hgoto.
  { intros pc r. unfold weight. simpl. lia. }
  assert (∀ err, ad_weight (after_scan final err) ≤ 7) as Hafter.
  { intros err. unfold after_scan. destruct (final err); simpl; lia. }
  destruct (pp_adapter s) as [st [|line lines]|st line lines|evt nx| | |] eqn:Epc, b; try done.
  - destruct (pp_ready s) as [|n] eqn:Er; inv_opt. specialize (Hafter scanErr). apply Hgoto; simpl; lia.
  - inv_opt. specialize (Hafter (Some e)). apply (Hgoto _ (pp_ready s)); simpl; lia.
  - destruct (pp_ready s) as [|n] eqn:Er; inv_opt. apply Hgoto; simpl; lia.
  - inv_opt. specialize (Hafter (Some e)). apply (Hgoto _ (pp_ready s)); simpl; lia.
  - inv_opt. apply (Hgoto _ (pp_ready s)); simpl; lia.
  - inv_opt. apply (Hgoto _ (pp_ready s)); [lia|]. unfold handle_line. destruct (pp_ctx s); [simpl; lia|].
    destruct (line_step st line) as [? []]; simpl; lia.
  - destruct (chan_send evt (pp_ch s)) as [| |ch] eqn:Es; inv_opt.
    { apply chan_send_open in Es; [done|]. by rewrite (pi_ch_closed _ Hinv), Epc. }
    apply chan_send_ok in Es as (_&_&->). unfold weight. rewrite Epc. simpl. rewrite length_app. simpl.
    destruct nx as [[]|]; simpl; lia.
  - inv_opt. apply (Hgoto _ (pp_ready s)); [lia|]. destruct nx as [[]|]; simpl; lia.
  - inv_opt. unfold weight. rewrite Epc. simpl. lia.
  - unfold chan_close in Hstep. rewrite (pi_ch_closed _ Hinv), Epc in Hstep. simpl in Hstep. inv_opt.
    unfold weight. rewrite Epc. simpl. lia.
Qed.

Lemma tracker_step_weight b s s' :
  pipe_inv s → tracker_step h start now b s = Some s' → weight s' < weight s.
Proof.
  intros Hinv Hstep. unfold tracker_step in Hstep.
  destruct (pp_tracker s) as [saw last|evt saw last|saw last| |] eqn:Epc, b; inv_opt; try done.
  - destruct (chan_recv (pp_ch s)) as [| |[[evt|] ch]] eqn:Er; inv_opt.
    + apply chan_recv_some in Er as (buf&Hbuf&->). destruct (saw_event evt saw last). inv_opt.
      unfold weight. rewrite Epc, Hbuf. simpl. lia.
    + unfold weight. rewrite Epc. simpl. lia.
  - destruct (chan_send evt (pp_out s)) as [| |out] eqn:Es; inv_opt.
    { apply chan_send_open in Es; [done|]. by rewrite (pi_out_closed _ Hinv), Epc. }
    apply chan_send_ok in Es as (_&_&->). unfold weight. rewrite Epc. simpl. rewrite length_app. simpl. lia.
  - unfold weight. rewrite Epc. simpl. lia.
  - unfold weight. rewrite Epc. simpl. lia.
  - unfold chan_close in Hstep. rewrite (pi_out_closed _ Hinv), Epc in Hstep. simpl in Hstep. inv_opt.
    unfold weight. rewrite Epc. simpl. lia.
Qed.

Lemma handler_step_weight s s' :
  handler_step encode marshal can_flush name d s = Some s' → weight s' < weight s.
Proof.
  intros Hstep. unfold handler_step in Hstep.
  assert (∀ x out pc, chan_recv (pp_out s) = ChOk (x, out) →
    ha_weight pc < ha_weight (pp_handler s) + (if x is Some _ then 2 else 0) → weight (handler_goto pc out s) < weight s)
    as Hrecv.
  { intros [evt|] out pc Er Hw.
    - apply chan_recv_some in Er as (buf&Hbuf&->). unfold weight. rewrite Hbuf. simpl. lia.
    - apply chan_recv_none in Er as (_&_&->). unfold weight. simpl. lia. }
  destruct (pp_handler s) as [| |evt| | | |] eqn:Epc; try done.
  - inv_opt. unfold weight. rewrite Epc. destruct can_flush; simpl; lia.
  - destruct (chan_recv (pp_out s)) as [| |[[evt|] out]] eqn:Er; inv_opt; (eapply Hrecv; [done|simpl; lia]).
  - inv_opt. unfold weight, handle_event. rewrite Epc.
    destruct (Err evt); [|destruct (marshal (Chunk evt))]; simpl; lia.
  - destruct (chan_recv (pp_out s)) as [| |[[evt|] out]] eqn:Er; inv_opt; (eapply Hrecv; [done|simpl; lia]).
  - destruct (chan_recv (pp_out s)) as [| |[[evt|] out]] eqn:Er; inv_opt; (eapply Hrecv; [done|simpl; lia]).
  - inv_opt. unfold weight. rewrite Epc. simpl. lia.
Qed.

Lemma pipe_step_weight s s' : pipe_inv s → step s s' → weight s' < weight s.
Proof.
  intros Hinv [l Hl]. unfold pipe_next in Hl. rewrite (pi_panic _ Hinv) in Hl. destruct l as [| |b|b|].
  - inv_opt. unfold weight. rewrite Eif. simpl. lia.
  - destruct (pp_coming s) as [|n] eqn:En; inv_opt. unfold weight. rewrite En. simpl. lia.
  - by eapply adapter_step_weight.
  - by eapply tracker_step_weight.
  - by eapply handler_step_weight.
Qed.

Lemma pipe_nsteps n s s' :
  pipe_inv s → nsteps step n s s' → pipe_inv s' ∧ n + weight s' ≤ weight s.
Proof.
  intros Hinv Hn. induction Hn as [s|n s s1 s2 H1 _ IH]; [done|].
  pose proof (pipe_step_weight _ _ Hinv H1). destruct (IH (pipe_step_inv _ _ Hinv H1)). split; [done|lia].
Qed.
(** ** What the sequential definitions still allow

    [c]: the context may end.  A read of the body that fails because the
    context has ended cuts it off after some lines. *)

Definition cut_body (c : bool) (lines lines' : list string) (err' : option goerr) : Prop :=
  (lines' = lines ∧ err' = scanErr) ∨ (c = true ∧ ∃ k e, lines' = take k lines ∧ err' = Some e).

Definition may_read (c : bool) (st : St) (lines : list string) (evts : list StreamEvent) : Prop :=
  ∃ lines' err' stop, cut_body c lines lines' err' ∧ (c = false → stop = None) ∧
    evts = pump line_step (final err') lines' stop st.

(** The events an adapter at [pc], not about to handle a line, may send. *)
Definition may_go_on (c : bool) (pc : AdapterPc St) (evts : list StreamEvent) : Prop :=
  match pc with
  | AdScan st lines => may_read c st lines evts
  | AdLine _ _ _ => False
  | AdSend evt next =>
      (c = true ∧ evts = []) ∨
      ∃ evts', evts = evt :: evts' ∧
        match next with Some (st, lines) => may_read c st lines evts' | None => evts' = [] end
  | _ => evts = []
  end.

Definition may_send (ctx c : bool) (pc : AdapterPc St) (evts : list StreamEvent) : Prop :=
  match pc with
  | AdLine st line lines =>
      if ctx then evts = []
      else (c = true ∧ evts = []) ∨ may_go_on c (handle_line line_step st line lines) evts
  | _ => may_go_on c pc evts
  end.

Definition settle (res : option (bool * option goerr)) (w : World) : World :=
  match res with Some (saw, last) => record_health h start now saw last w | None => w end.

Definition may_range (c saw : bool) (last : option goerr) (evts : list StreamEvent) (w : World)
    (outs : list StreamEvent) (w' : World) : Prop :=
  ∃ stop res, (c = false → stop = None) ∧ forward evts stop saw last = (outs, res) ∧ w' = settle res w.

Definition may_track (c : bool) (pc : TrackerPc) (evts : list StreamEvent) (w : World)
    (outs : list StreamEvent) (w' : World) : Prop :=
  match pc with
  | TrRange saw last => may_range c saw last evts w outs w'
  | TrSend evt saw last =>
      (c = true ∧ outs = [] ∧ w' = w) ∨ ∃ outs', outs = evt :: outs' ∧ may_range c saw last evts w outs' w'
  | TrRecord saw last => outs = [] ∧ w' = record_health h start now saw last w
  | TrClose | TrExit => outs = [] ∧ w' = w
  end.

Definition done_ops (cancelled : bool) : list WOp :=
  if cancelled then [] else [OWrite (sse "[DONE]"); OFlush].

Definition may_finish (c : bool) (ops : list WOp) (o : Obs) (ops' : list WOp) (o' : Obs) : Prop :=
  ∃ cancelled, (c = false → cancelled = false) ∧ ops' = ops ++ done_ops cancelled ∧ o' = o.

Definition may_loop (c : bool) (evts : list StreamEvent) (ops : list WOp) (o : Obs)
    (ops' : list WOp) (o' : Obs) : Prop :=
  let '(q, o1) := stream_loop marshal name evts o in may_finish c (ops ++ q) o1 ops' o'.

Definition may_handle (c : bool) (pc : HandlerPc) (evts : list StreamEvent) (ops : list WOp) (o : Obs)
    (ops' : list WOp) (o' : Obs) : Prop :=
  match pc with
  | HaHead =>
      if can_flush then may_loop c evts (ops ++ stream_head d) o ops' o'
      else ops' = ops ++ no_flusher encode ∧ o' = o
  | HaRange => may_loop c evts ops o ops' o'
  | HaEvent evt => may_loop c (evt :: evts) ops o ops' o'
  | HaDrain | HaFinish => may_finish c ops o ops' o'
  | HaDrainReturn | HaExit => ops' = ops ∧ o' = o
  end.

Definition may_end (c : bool) s (ops : list WOp) (o : Obs) (w : World) : Prop :=
  ∃ evts outs, may_send (pp_ctx s) c (pp_adapter s) evts ∧
    may_track c (pp_tracker s) (ch_buf (pp_ch s) ++ evts) (pp_world s) outs w ∧
    may_handle c (pp_handler s) (ch_buf (pp_out s) ++ outs) (pp_ops s) (pp_obs s) ops o.

Lemma may_read_nil c st lines : c = true → may_read c st lines [].
Proof.
  intros ->. exists lines, scanErr, (Some (0, false)). split; [by left|]. split; [done|]. by destruct lines.
Qed.

(** A line that was skipped or sent, in front of the rest. *)
Lemma may_read_cons c st st' line lines evts (pre : list StreamEvent) :
  (∀ lines' stop fin, pump line_step fin (line :: lines')
     ((λ '(n, b), (S n, b)) <$> stop) st = pre ++ pump line_step fin lines' stop st') →
  may_read c st' lines evts → may_read c st (line :: lines) (pre ++ evts).
Proof.
  intros Hp (lines'&err'&stop&Hcut&Hstop&->).
  exists (line :: lines'), err', ((λ '(n, b), (S n, b)) <$> stop). split_and!; [|by intros ->%Hstop|by rewrite Hp].
  destruct Hcut as [[-> ->]|(Hc&k&e&->&->)]; [by left|]. right. split; [done|]. by exists (S k), e.
Qed.

(** Handling a line is one step of [pump]. *)
Lemma may_read_line c st line lines evts :
  may_go_on c (handle_line line_step st line lines) evts → may_read c st (line :: lines) evts.
Proof.
  unfold handle_line. destruct (line_step st line) as [st' [|evt|e|]] eqn:Es; simpl.
  - apply (may_read_cons c st st' line lines evts []). intros lines' [[n b]|] fin; simpl; by rewrite Es.
  - intros [[Hc ->]|(evts'&->&Hr)]; [by apply may_read_nil|].
    apply (may_read_cons c st st' line lines evts' [evt]); [|done].
    intros lines' [[n b]|] fin; simpl; by rewrite Es.
  - intros [[Hc ->]|(evts'&->&->)]; [by apply may_read_nil|].
    exists (line :: lines), scanErr, None. split_and!; [by left|done|]. simpl. by rewrite Es.
  - intros ->. exists (line :: lines), scanErr, None. split_and!; [by left|done|]. simpl. by rewrite Es.
Qed.

Lemma may_read_end c st lines lines' err' evts :
  cut_body c lines lines' err' → lines' = [] → may_go_on c (after_scan final err') evts → may_read c st lines evts.
Proof.
  intros Hcut -> Hgo. unfold after_scan in Hgo. destruct (final err') as [e|] eqn:Ef; simpl in Hgo.
  - destruct Hgo as [[Hc ->]|(evts'&->&->)]; [by apply may_read_nil|].
    exists [], err', None. split_and!; [done..|]. simpl. by rewrite Ef.
  - rewrite Hgo. exists [], err', None. split_and!; [done..|]. simpl. by rewrite Ef.
Qed.
(** ** Steps shrink what may happen *)

Lemma adapter_step_may c b s s' ops o w :
  pipe_inv s → adapter_step line_step final scanErr b s = Some s' → (pp_ctx s = true → c = true) →
  may_end c s' ops o w → may_end c s ops o w.
Proof.
  intros Hinv Hstep Hc. unfold adapter_step, scanned in Hstep.
  assert (∀ pc n m, (∀ evts, may_send (pp_ctx s) c pc evts → may_send (pp_ctx s) c (pp_adapter s) evts) →
    may_end c (adapter_goto pc (set_feed n m s)) ops o w → may_end c s ops o w) as Hgoto.
  { intros pc n m Hpc (evts&outs&Hs&Ht&Hh). exists evts, outs. split; [by apply Hpc|done]. }
  assert (∀ err evts, may_send (pp_ctx s) c (after_scan final err) evts → may_go_on c (after_scan final err) evts)
    as Hafter by (intros err evts; unfold after_scan; by destruct (final err)).
  assert (∀ e st lines evts, pp_ctx s = true → may_send (pp_ctx s) c (after_scan final (Some e)) evts →
    may_read c st lines evts) as Hbroken.
  { intros e st lines evts Hctx He%Hafter. eapply (may_read_end _ _ _ []); [|done|done]. right.
    split; [by apply Hc|]. by exists 0, e. }
  destruct (pp_adapter s) as [st [|line lines]|st line lines|evt nx| | |] eqn:Epc, b; try done.
  - destruct (pp_ready s) as [|n]; inv_opt. apply Hgoto. intros evts He%Hafter. eapply may_read_end; [by left|done|done].
  - destruct (pp_ctx s) eqn:Ec; inv_opt. apply (Hgoto _ (pp_coming s) (pp_ready s)). intros evts. by apply Hbroken.
  - destruct (pp_ready s) as [|n]; inv_opt. apply Hgoto. simpl. intros evts.
    destruct (pp_ctx s); [intros ->; by apply may_read_nil, Hc|].
    intros [[Hct ->]|Hgo]; [by apply may_read_nil|by apply may_read_line].
  - destruct (pp_ctx s) eqn:Ec; inv_opt. apply (Hgoto _ (pp_coming s) (pp_ready s)). intros evts. by apply Hbroken.
  - destruct (pp_ctx s) eqn:Ec; inv_opt. apply (Hgoto _ (pp_coming s) (pp_ready s)). simpl. intros evts ->.
    by apply may_read_nil, Hc.
  - inv_opt. apply (Hgoto _ (pp_coming s) (pp_ready s)). simpl. intros evts. destruct (pp_ctx s); [done|]. intros Hgo.
    right. unfold handle_line in *. by destruct (line_step st line) as [? []].
  - destruct (chan_send evt (pp_ch s)) as [| |ch] eqn:Es; inv_opt.
    { apply chan_send_open in Es; [done|]. by rewrite (pi_ch_closed _ Hinv), Epc. }
    apply chan_send_ok in Es as (_&_&->). intros (evts&outs&Hs&Ht&Hh). simpl in *.
    exists (evt :: evts), outs. rewrite Epc. rewrite <-app_assoc in Ht. split; [|done]. simpl. right.
    exists evts. split; [done|]. by destruct nx as [[]|].
  - destruct (pp_ctx s) eqn:Ec; inv_opt. apply (Hgoto _ (pp_coming s) (pp_ready s)). simpl. intros evts ->. left.
    by split; [apply Hc|].
  - inv_opt. intros (evts&outs&Hs&Ht&Hh). exists evts, outs. by rewrite Epc.
  - unfold chan_close in Hstep. rewrite (pi_ch_closed _ Hinv), Epc in Hstep. simpl in Hstep. inv_opt.
    intros (evts&outs&Hs&Ht&Hh). exists evts, outs. by rewrite Epc.
Qed.

Lemma forward_cons evt evts stop saw last saw' last' outs res :
  saw_event evt saw last = (saw', last') → forward evts stop saw' last' = (outs, res) →
  forward (evt :: evts) (S <$> stop) saw last = (evt :: outs, res).
Proof.
  unfold saw_event. intros E Hf. simpl. rewrite E.
  destruct stop as [n|]; simpl; by rewrite Hf.
Qed.

Lemma tracker_step_may c b s s' ops o w :
  pipe_inv s → tracker_step h start now b s = Some s' → (pp_ctx s = true → c = true) →
  may_end c s' ops o w → may_end c s ops o w.
Proof.
  intros Hinv Hstep Hc. unfold tracker_step in Hstep.
  destruct (pp_tracker s) as [saw last|evt saw last|saw last| |] eqn:Epc, b; inv_opt; try done.
  - destruct (chan_recv (pp_ch s)) as [| |[[evt|] ch]] eqn:Er; inv_opt; try done.
    + apply chan_recv_some in Er as (buf&Hbuf&->). destruct (saw_event evt saw last) as [saw' last'] eqn:Ee. inv_opt.
      intros (evts&outs&Hs&Ht&Hh). exists evts, outs. split_and!; [done| |done]. rewrite Epc, Hbuf. simpl in *.
      destruct Ht as [(Hct&->&->)|(outs'&->&stop&res&Hst&Hf&->)].
      * exists (Some 0), None. split_and!; [congruence| |done]. simpl. by destruct (Err evt).
      * exists (S <$> stop), res. split_and!; [by intros ->%Hst| |done]. by eapply forward_cons.
    + apply chan_recv_none in Er as (Hbuf&Hcl&_). rewrite (pi_ch_closed _ Hinv) in Hcl.
      intros (evts&outs&Hs&Ht&Hh). exists evts, outs. split_and!; [done| |done]. rewrite Epc, Hbuf. simpl in *.
      destruct Ht as [-> ->]. destruct (pp_adapter s); try done. simpl in Hs. rewrite Hs.
      by exists None, (Some (saw, last)).
  - destruct (chan_send evt (pp_out s)) as [| |out] eqn:Es; inv_opt; try done.
    apply chan_send_ok in Es as (_&_&->). intros (evts&outs&Hs&Ht&Hh). exists evts, (evt :: outs).
    simpl in *. rewrite <-app_assoc in Hh. split_and!; [done| |done]. rewrite Epc. right. eauto.
  - intros (evts&outs&Hs&[-> ->]&Hh). exists evts, []. split_and!; [done| |done]. rewrite Epc. left.
    by split; [apply Hc|].
  - intros (evts&outs&Hs&[-> ->]&Hh). exists evts, []. split_and!; [done| |done]. by rewrite Epc.
  - unfold chan_close in Hstep. rewrite (pi_out_closed _ Hinv), Epc in Hstep. simpl in Hstep. inv_opt.
    intros (evts&outs&Hs&Ht&Hh). exists evts, outs. by rewrite Epc.
Qed.

Lemma handler_step_may c s s' ops o w :
  pipe_inv s → handler_step encode marshal can_flush name d s = Some s' → (pp_ctx s = true → c = true) →
  may_end c s' ops o w → may_end c s ops o w.
Proof.
  intros Hinv Hstep Hc (evts&outs&Hs&Ht&Hh).
  assert (∀ out, chan_recv (pp_out s) = ChOk (None, out) → may_track c (pp_tracker s) (ch_buf (pp_ch s) ++ evts)
    (pp_world s) outs w → ch_buf (pp_out s) ++ outs = [] ∧ out = pp_out s) as Hnone.
  { intros out (Hbuf&Hcl&->)%chan_recv_none. rewrite (pi_out_closed _ Hinv) in Hcl. rewrite Hbuf.
    by destruct (pp_tracker s); try done; intros [-> _]. }
  exists evts, outs. unfold handler_step in Hstep.
  destruct (pp_handler s) as [| |evt| | | |] eqn:Epc; try done.
  - inv_opt. unfold may_handle. destruct can_flush; simpl in *; done.
  - destruct (chan_recv (pp_out s)) as [| |[[evt|] out]] eqn:Er; inv_opt.
    + apply chan_recv_some in Er as (buf&Hbuf&->). rewrite Hbuf. done.
    + simpl in Ht. destruct (Hnone _ eq_refl Ht) as [Hnil ->]. rewrite Hnil. split_and!; [done..|].
      unfold may_handle, may_loop. simpl in *. by rewrite app_nil_r.
  - inv_opt. unfold handle_event in *. unfold may_handle at 1, may_loop. simpl stream_loop.
    destruct (Err evt) as [e|]; [by rewrite app_nil_r|].
    destruct (marshal (Chunk evt)); [|by rewrite app_nil_r].
    split_and!; [done..|]. simpl in Hh. unfold may_loop in Hh.
    destruct (stream_loop marshal name (ch_buf (pp_out s) ++ outs) (pp_obs s)) as [q o1].
    by rewrite <-app_assoc in Hh.
  - destruct (chan_recv (pp_out s)) as [| |[[evt|] out]] eqn:Er; inv_opt; done.
  - destruct (chan_recv (pp_out s)) as [| |[[evt|] out]] eqn:Er; inv_opt; done.
  - inv_opt. destruct Hh as [-> ->]. split_and!; [done..|]. exists (pp_ctx s). split_and!; [|done..].
    intros Hf. destruct (pp_ctx s); [|done]. by rewrite Hc in Hf.
Qed.
(** The context stays ended. *)
Lemma adapter_step_ctx b s s' : adapter_step line_step final scanErr b s = Some s' → pp_ctx s' = pp_ctx s.
Proof.
  unfold adapter_step, scanned. destruct (pp_adapter s) as [st [|line lines]|st line lines|evt nx| | |], b; intros E;
    try destruct (chan_send _ _); try destruct (chan_close _); try destruct (pp_ready s); by inv_opt.
Qed.

Lemma tracker_step_ctx b s s' : tracker_step h start now b s = Some s' → pp_ctx s' = pp_ctx s.
Proof.
  unfold tracker_step. destruct (pp_tracker s), b; intros E; try destruct (chan_recv _) as [| |[[]]];
    try destruct (chan_send _ _); try destruct (chan_close _); try destruct (saw_event _ _ _); by inv_opt.
Qed.

Lemma handler_step_ctx s s' : handler_step encode marshal can_flush name d s = Some s' → pp_ctx s' = pp_ctx s.
Proof.
  unfold handler_step, handle_event. destruct (pp_handler s) as [| |evt| | | |]; intros E;
    try destruct (chan_recv _) as [| |[[]]]; try destruct can_flush; try destruct (Err evt);
    try destruct (marshal _); by inv_opt.
Qed.

Lemma pipe_step_ctx s s' : step s s' → pp_ctx s = true → pp_ctx s' = true.
Proof.
  intros [l Hl]. unfold pipe_next in Hl. destruct (pp_panic s); [done|]. destruct l as [| |b|b|].
  - by inv_opt.
  - destruct (pp_coming s); by inv_opt.
  - by rewrite (adapter_step_ctx _ _ _ Hl).
  - by rewrite (tracker_step_ctx _ _ _ Hl).
  - by rewrite (handler_step_ctx _ _ Hl).
Qed.

Lemma pipe_rtc_ctx s s' : rtc step s s' → pp_ctx s = true → pp_ctx s' = true.
Proof. intros Hr. induction Hr; [done|]. eauto using pipe_step_ctx. Qed.

Lemma pipe_step_may c s s' ops o w :
  pipe_inv s → step s s' → (pp_ctx s' = true → c = true) → may_end c s' ops o w → may_end c s ops o w.
Proof.
  intros Hinv [l Hl] Hc. unfold pipe_next in Hl. rewrite (pi_panic _ Hinv) in Hl. destruct l as [| |b|b|].
  - inv_opt. intros (evts&outs&Hs&Ht&Hh). exists evts, outs. split; [|done].
    simpl in Hs. unfold may_send in *. rewrite Eif. destruct (pp_adapter s); try done.
    left. by split; [apply Hc|].
  - by destruct (pp_coming s); inv_opt.
  - eapply adapter_step_may; [done..|]. by rewrite <-(adapter_step_ctx _ _ _ Hl).
  - eapply tracker_step_may; [done..|]. by rewrite <-(tracker_step_ctx _ _ _ Hl).
  - eapply handler_step_may; [done..|]. by rewrite <-(handler_step_ctx _ _ Hl).
Qed.

Lemma pipe_run_may s s' ops o w :
  pipe_inv s → rtc step s s' → may_end (pp_ctx s') s' ops o w → may_end (pp_ctx s') s ops o w.
Proof.
  intros Hinv Hrun. induction Hrun as [s|s s1 s2 H1 Hrun IH]; [done|]. intros Hend.
  eapply pipe_step_may; [done|done| |apply IH; [by eapply pipe_step_inv|done]].
  by apply pipe_rtc_ctx.
Qed.

(** The sequential model of the tracker and of the handler on a stream of
    events ends as the state [s]. *)
Definition ends_as (evts : list StreamEvent) (tstop : option nat) (cancelled : bool) (w : World) (o : Obs) s : Prop :=
  ∃ outs, trackStreamHealth h evts tstop start now w = (outs, pp_world s) ∧
    ∀ S P (G : Gateway S P) (p : P) (req : ChatCompletionRequest) (g g' : S),
      gw_Name p = name → gw_Stream p req g = (ROk outs, g') →
      handleStream encode marshal can_flush cancelled p req d o g = (Done (pp_ops s), pp_obs s, g').

Lemma run_sequential st lines w o s :
  rtc step (pipe_start st lines w o) s → all_returned s →
  ∃ lines' err' stop tstop cancelled,
    cut_body (pp_ctx s) lines lines' err' ∧
    (pp_ctx s = false → stop = None ∧ tstop = None ∧ cancelled = false) ∧
    ends_as (pump line_step (final err') lines' stop st) tstop cancelled w o s.
Proof.
  intros Hrun (Ha&Ht&Hh). pose proof (pipe_run_may _ s (pp_ops s) (pp_obs s) (pp_world s)
    (pipe_start_inv st lines w o) Hrun) as Hmay.
  destruct Hmay as (evts&outs&(lines'&err'&stop&Hcut&Hstop&->)&(tstop&res&Hts&Hf&Hw)&Hhan).
  { exists [], []. rewrite Ha, Ht, Hh. done. }
  assert (∃ cancelled, (pp_ctx s = false → cancelled = false) ∧
    ∀ S P (G : Gateway S P) (p : P) (req : ChatCompletionRequest) (g g' : S),
      gw_Name p = name → gw_Stream p req g = (ROk outs, g') →
      handleStream encode marshal can_flush cancelled p req d o g = (Done (pp_ops s), pp_obs s, g'))
    as (cancelled&Hcan&Hstream).
  { unfold handleStream. simpl in Hhan. destruct can_flush; simpl negb; cbn iota.
    - unfold may_loop in Hhan. destruct (stream_loop marshal name outs o) as [q o1] eqn:El.
      destruct Hhan as (cancelled&Hcan&->&->). exists cancelled. split; [done|].
      intros S P G p req g g' Hn ->. rewrite Hn, El. by rewrite <-(app_assoc (stream_head d)).
    - destruct Hhan as [-> ->]. exists false. split; [done|]. by intros S P G p req g g' Hn ->. }
  exists lines', err', stop, tstop, cancelled. split_and!; [done|by auto|].
  exists outs. split; [|done]. unfold trackStreamHealth. simpl in Hf. rewrite Hf, Hw.
  by destruct res as [[[] ?]|].
Qed.
(** A run under a schedule is a run. *)
Lemma pipe_run_rtc sched s s' :
  pipe_run line_step final scanErr h start now encode marshal can_flush name d sched s = Some s' → rtc step s s'.
Proof.
  revert s. induction sched as [|l sched IH]; intros s; simpl; [intros [= ->]; constructor|].
  destruct (next l s) as [s1|] eqn:E; [|done]. intros Hr. eapply rtc_l; [by exists l|by apply IH].
Qed.

Lemma pipe_run_nsteps sched s s' :
  pipe_run line_step final scanErr h start now encode marshal can_flush name d sched s = Some s' →
  nsteps step (length sched) s s'.
Proof.
  revert s. induction sched as [|l sched IH]; intros s; simpl; [intros [= ->]; constructor|].
  destruct (next l s) as [s1|] eqn:E; [|done]. intros Hr. eapply nsteps_l; [by exists l|by apply IH].
Qed.

(** Once the tracker has returned the health record stands, and the other two
    goroutines can finish. *)
Lemma pipe_step_settled s s' :
  step s s' → pp_tracker s = TrExit → pp_tracker s' = TrExit ∧ pp_world s' = pp_world s.
Proof.
  intros [l Hl] Ht. unfold pipe_next in Hl. destruct (pp_panic s); [done|]. destruct l as [| |b|b|].
  - by inv_opt.
  - destruct (pp_coming s); by inv_opt.
  - revert Hl. unfold adapter_step, scanned. destruct (pp_ready s); destruct (pp_adapter s) as [st [|line lines]|st line lines|evt nx| | |], b;
      intros E; try destruct (chan_send _ _); try destruct (chan_close _); by inv_opt.
  - unfold tracker_step in Hl. by rewrite Ht in Hl; destruct b.
  - revert Hl. unfold handler_step, handle_event. destruct (pp_handler s) as [| |evt| | | |]; intros E;
      try destruct (chan_recv _) as [| |[[]]]; try destruct can_flush; try destruct (Err evt);
      try destruct (marshal _); by inv_opt.
Qed.

Lemma can_finish n s :
  weight s < n → pipe_inv s → pp_ctx s = true → pp_tracker s = TrExit →
  ∃ s', rtc step s s' ∧ all_returned s' ∧ pp_world s' = pp_world s.
Proof.
  revert s. induction n as [|n IH]; intros s Hn Hinv Hc Ht; [lia|].
  destruct (progress s Hinv) as [(s1&l&_&_&Hl)|[(st&lines&_&?&_)|Hall]]; [|congruence|by exists s].
  assert (step s s1) as H1 by (by exists l). pose proof (pipe_step_weight _ _ Hinv H1).
  destruct (pipe_step_settled _ _ H1 Ht) as [Ht1 <-].
  destruct (IH s1) as (s2&H2&Hs2); [lia|by eapply pipe_step_inv|by eapply pipe_step_ctx|done|].
  exists s2. split; [by eapply rtc_l|done].
Qed.

Lemma pipe_rtc_inv s s' : pipe_inv s → rtc step s s' → pipe_inv s'.
Proof. intros Hinv Hr. induction Hr; [done|]. eauto using pipe_step_inv. Qed.

(** C5: the three goroutines of a streaming request, interleaved in any way
    and with the client's context ending at any moment, implement the
    sequential model.  However a run ends, there are a point at which the
    adapter saw the end of the context, a point at which the tracker saw it
    and a value the handler's last test saw, such that the adapter's loop run
    alone ([pump]), then [trackStreamHealth] on its events, then [handleStream]
    on what that forwards give exactly the health record, the response and the
    log lines of the run.  When the context did not end, none of these points
    is used: every schedule gives the one result of the sequential program. *)
Theorem stream_refines_sequential (st : St) (lines : list string) (w : World) (o : Obs) s
    (Hrun : rtc step (pipe_start st lines w o) s) (Hend : all_returned s) :
  ∃ lines' err' stop tstop cancelled,
    cut_body (pp_ctx s) lines lines' err' ∧
    (pp_ctx s = false → stop = None ∧ tstop = None ∧ cancelled = false) ∧
    ends_as (pump line_step (final err') lines' stop st) tstop cancelled w o s.
Proof. by apply run_sequential. Qed.

(** C6: a streaming request leaks nothing and always ends.  Whatever the
    schedule, the number of steps is at most 9 times the number of lines of the
    body plus 17, no goroutine sends on or closes a closed channel, and no
    channel holds more than its 8 events.  At any moment some goroutine can take
    a step of its own; or the reader waits for the service, which has sent
    neither the rest of its body nor its end, and the client is still there
    (nothing else bounds this wait: a stream has no timeout); or all three have
    returned, the body of the upstream response is closed, both channels are
    closed and the handler has consumed every event of its channel.  So once the
    client has left nothing waits for the service any more. *)
Theorem stream_terminates (st : St) (lines : list string) (w : World) (o : Obs) n s
    (Hrun : nsteps step n (pipe_start st lines w o) s) :
  n ≤ 9 * length lines + 17 ∧ pp_panic s = false ∧
  length (ch_buf (pp_ch s)) ≤ 8 ∧ length (ch_buf (pp_out s)) ≤ 8 ∧
  ((∃ s', go_step s s') ∨ awaiting_service s ∨
   (all_returned s ∧ pp_body s = false ∧ ch_closed (pp_ch s) = true ∧ ch_closed (pp_out s) = true ∧
    ch_buf (pp_out s) = [])).
Proof.
  destruct (pipe_nsteps n _ s (pipe_start_inv st lines w o) Hrun) as [Hinv Hn].
  assert (weight (pipe_start st lines w o) = 9 * length lines + 17) as Hw by (unfold weight; simpl; lia).
  destruct (progress s Hinv) as [Hgo|[Hwait|Hall]]; destruct Hinv as [Hp [_ Hl1] [_ Hl2] Hcc Hoc Hb _ _ Hh];
    (split_and!; [lia|done..|]); [tauto|tauto|right; right].
  destruct Hall as (Ha&Ht&Hx). rewrite Ha in *. rewrite Ht in *. rewrite Hx in Hh.
  destruct (Hh eq_refl) as [_ Hbuf]. done.
Qed.
End Runs.

(** ** The three adapters *)

(** A response whose body the goroutine of an adapter reads: every run whose
    context does not end finishes as the sequential model on [evts]. *)
Definition streams_to {St} (line_step : St → string → St * Act) (final : option goerr → option goerr) (st : St)
    (resp : HTTPResp) (evts : list StreamEvent) : Prop :=
  ∀ h start now encode marshal can_flush name d w o s,
    let '(lines, scanErr) := scan_lines (hp_Body resp) (hp_BodyErr resp) in
    rtc (pipe_step line_step final scanErr h start now encode marshal can_flush name d)
      (pipe_start st lines w o) s →
    all_returned s → pp_ctx s = false →
    ends_as h start now encode marshal can_flush name d evts None false w o s.

Lemma streams_to_pump {St} (line_step : St → string → St * Act) final st resp lines scanErr :
  scan_lines (hp_Body resp) (hp_BodyErr resp) = (lines, scanErr) →
  streams_to line_step final st resp (pump line_step (final scanErr) lines None st).
Proof.
  intros E h start now encode marshal can_flush name d w o s. rewrite E. intros Hrun Hend Hctx.
  destruct (run_sequential _ _ _ _ _ _ _ _ _ _ _ _ _ _ _ _ Hrun Hend) as (ls&err&stop&tstop&can&Hcut&Hnone&Hends).
  destruct (Hnone Hctx) as (->&->&->). by destruct Hcut as [[-> ->]|[Hc _]]; [|congruence].
Qed.

Lemma exchange_answered net body url hdrs onerr resp :
  exchange net body url hdrs onerr = inr resp → ∃ q, nt_Do net q = inr resp ∧ hp_StatusCode resp = 200%Z.
Proof.
  unfold exchange. destruct body; [done|]. destruct (nt_newRequest net url); [done|].
  destruct (nt_Do net (mkHTTPReq url hdrs s)) as [|r] eqn:E; [done|]. destruct (Z.eqb_spec (hp_StatusCode r) 200); [|done].
  intros [= <-]. eauto.
Qed.

Section Adapters.
Context (marshal1 : openaiRequest → goerr + string) (decode_chunk1 : string → goerr + ChatCompletionChunk)
  (decode_error1 : string → option openaiErrorResponse).
Context (marshal2 : anthropicRequest → goerr + string) (decode_start : string → goerr + messageStartEvent)
  (decode_block : string → goerr + contentBlockDeltaEvent) (decode_delta : string → goerr + messageDeltaEvent)
  (decode_error2 : string → option anthropicErrorResponse).
Context (marshal3 : geminiRequest → goerr + string) (decode_chunk3 : string → goerr + geminiResponse)
  (decode_error3 : string → option geminiErrorResponse).
Context (net : Net_) (b : list nat) (clock : nat → Z) (p : AdapterConfig).

(** C38: the sequential streams of the three adapters are what their
    goroutines deliver.  When a streaming call of an adapter succeeds, the
    service has answered 200, and every run of the goroutines over that answer
    in which the client stays ends with the health record, the response and
    the log of [trackStreamHealth] and [handleStream] on exactly the events of
    the sequential model. *)
Theorem adapter_streams_delivered (req : ChatCompletionRequest) (evts : list StreamEvent) :
  (openai_ChatCompletionStream marshal1 decode_chunk1 decode_error1 net p req None = inr evts →
   ∃ q resp, nt_Do net q = inr resp ∧ hp_StatusCode resp = 200%Z ∧
     streams_to (openai_line decode_chunk1) openai_final tt resp evts) ∧
  (anthropic_ChatCompletionStream marshal2 decode_start decode_block decode_delta decode_error2 net clock p
     req None = inr evts →
   ∃ q resp, nt_Do net q = inr resp ∧ hp_StatusCode resp = 200%Z ∧
     streams_to (anthropic_line decode_start decode_block decode_delta clock) anthropic_final anthropic_start
       resp evts) ∧
  (google_ChatCompletionStream marshal3 decode_chunk3 decode_error3 net b clock p req None = inr evts →
   ∃ q resp, nt_Do net q = inr resp ∧ hp_StatusCode resp = 200%Z ∧
     streams_to (google_line decode_chunk3 clock (generateID b) (rq_Model req)) google_final O resp evts).
Proof.
  unfold openai_ChatCompletionStream, anthropic_ChatCompletionStream, google_ChatCompletionStream.
  split_and!; (destruct (exchange _ _ _ _ _) as [|resp] eqn:Ex; [done|]);
    destruct (scan_lines (hp_Body resp) (hp_BodyErr resp)) as [lines scanErr] eqn:El; intros [= <-];
    apply exchange_answered in Ex as (q&Hq&H200); exists q, resp; (split_and!; [done|done|]); by apply streams_to_pump.
Qed.
End Adapters.

(** ** The client goes away *)

(** The client leaves before anything was read, and the read of the body
    fails.  What may follow: the tracker forwards the adapter's error, sees the
    end of the context instead of forwarding it, or finds the channel closed
    because the adapter saw the end of the context. *)
Definition gone_failure : list Label := repeat (LAdapter BMain) 3 ++ repeat (LTracker BMain) 5.
Definition gone_skipped : list Label :=
  repeat (LAdapter BMain) 3 ++ [LTracker BMain; LTracker BDone; LTracker BMain].
Definition gone_success : list Label :=
  [LAdapter BDone; LAdapter BMain; LAdapter BMain] ++ repeat (LTracker BMain) 3.

(** C39: what the end of the client's context does to the provider's health
    depends on the schedule.  The comment in [trackStreamHealth] says that it
    is not recorded, as it is not the provider's fault; but the read of the
    body fails with it, and both selects choose at random between their
    channel, which has room, and the end of the context.  For every adapter
    that reports a failed read, every body and every provider there are runs
    that record nothing, a success, and a failure with that error. *)
Theorem disconnect_outcomes {St} (line_step : St → string → St * Act) (final : option goerr → option goerr)
    (scanErr : option goerr) (h : HealthTrackingProvider) (start now : Z) (encode : Payload → string)
    (marshal : option ChatCompletionChunk → option string) (can_flush : bool) (name : string) (d : Decision)
    (st : St) (lines : list string) (w : World) (o : Obs) (e e' : goerr)
    (Hreport : final (Some e) = Some e') (w' : World)
    (Hw' : w' ∈ [w; recordHealthSuccess h start now w; recordHealthFailure h (Some e') start now w]) :
  ∃ s, rtc (pipe_step line_step final scanErr h start now encode marshal can_flush name d)
         (pipe_start st lines w o) s ∧ all_returned s ∧ pp_world s = w'.
Proof.
  set (s1 := adapter_goto (AdSend (fail_event e') None) (cancel (pipe_start st lines w o))).
  assert (rtc (pipe_step line_step final scanErr h start now encode marshal can_flush name d)
    (pipe_start st lines w o) s1) as H1.
  { apply (pipe_run_rtc _ _ _ _ _ _ _ _ _ _ _ [LCancel; LAdapter (BBroken e)]). subst s1. simpl.
    unfold pipe_next, adapter_step, after_scan. simpl. rewrite Hreport. by destruct lines. }
  assert (∀ s, rtc (pipe_step line_step final scanErr h start now encode marshal can_flush name d) s1 s →
    pp_ctx s = true) as Hstay.
  { intros s Hs. eapply pipe_rtc_ctx; [exact Hs|done]. }
  assert (∀ sched, (∃ s, pipe_run line_step final scanErr h start now encode marshal can_flush name d sched s1 =
    Some s ∧ pp_tracker s = TrExit ∧ pp_world s = w') →
    ∃ s, rtc (pipe_step line_step final scanErr h start now encode marshal can_flush name d)
         (pipe_start st lines w o) s ∧ all_returned s ∧ pp_world s = w') as Hsched.
  { intros sched (s&Hr%pipe_run_rtc&Ht&Hw). pose proof (transitivity H1 Hr) as H2.
    destruct (can_finish line_step final scanErr h start now encode marshal can_flush name d (S (weight s)) s) as (s'&H3&Hs'&Hww);
      [lia|by eapply pipe_rtc_inv; [apply pipe_start_inv|]|by apply Hstay|done|].
    exists s'. split; [exact (transitivity H2 H3)|]. by rewrite Hww. }
  repeat (apply elem_of_cons in Hw' as [->|Hw']); [| | |by apply elem_of_nil in Hw'].
  - apply (Hsched gone_skipped). cbn. eexists. split; [reflexivity|done].
  - apply (Hsched gone_success). cbn. eexists. split; [reflexivity|done].
  - apply (Hsched gone_failure). cbn. eexists. split; [reflexivity|done].
Qed.

(** ** A concrete request *)

(** An OpenAI stream of one chunk, with its end marker. *)
Definition demo_line_step : () → string → () * Act :=
  openai_line (λ _, inr (mkChunk "c" "" 0 "m" None None)).
Definition demo_provider : HealthTrackingProvider := mkHTP "openai" ["m"] (mkRetryConfig 0 0).
Definition demo_health : World := mkWorld (NewProviderHealth (mkHealthConfig 0 0)) [] [].
Definition demo_decision : Decision := mkDecision "openai" "m" "priority" "" "" "".
Definition demo_pipe : Pipe () :=
  pipe_start tt ["data: {}"; "data: [DONE]"] demo_health (mkObs None [] []).
Abbreviation demo_step := (pipe_step demo_line_step openai_final None demo_provider 0 1 (λ _, "")
  (λ _, Some "{}") true "openai" demo_decision).
Abbreviation demo_run := (pipe_run demo_line_step openai_final None demo_provider 0 1 (λ _, "")
  (λ _, Some "{}") true "openai" demo_decision).

(** The handler starts before anything is read; the adapter then runs ahead. *)
Definition demo_sched : list Label :=
  repeat LArrive 2 ++ [LHandler] ++ repeat (LAdapter BMain) 7 ++ repeat (LTracker BMain) 5 ++ repeat LHandler 4.

(** The same with the client gone when the chunk has been forwarded. *)
Definition demo_gone_sched : list Label :=
  repeat LArrive 3 ++ [LHandler] ++ repeat (LAdapter BMain) 3 ++ repeat (LTracker BMain) 2 ++ [LCancel] ++
  repeat (LAdapter BMain) 4 ++ repeat (LTracker BMain) 3 ++ repeat LHandler 4.

Definition demo_end : Pipe () := Eval vm_compute in default demo_pipe (demo_run demo_sched demo_pipe).
Definition demo_gone_end : Pipe () := Eval vm_compute in default demo_pipe (demo_run demo_gone_sched demo_pipe).

Lemma demo_reaches : rtc demo_step demo_pipe demo_end.
Proof.
  assert (demo_run demo_sched demo_pipe = Some demo_end) as E by (vm_compute; reflexivity).
  exact (pipe_run_rtc _ _ _ _ _ _ _ _ _ _ _ _ _ _ E).
Qed.

Lemma demo_gone_reaches : nsteps demo_step 21 demo_pipe demo_gone_end.
Proof.
  assert (demo_run demo_gone_sched demo_pipe = Some demo_gone_end) as E by (vm_compute; reflexivity).
  exact (pipe_run_nsteps _ _ _ _ _ _ _ _ _ _ _ _ _ _ E).
Qed.

Lemma stream_refines_sequential_witness :
  pp_ops demo_end = stream_head demo_decision ++
    [OWrite (sse "{}"); OFlush; OWrite (sse "[DONE]"); OFlush] ∧
  ∃ lines' err' stop tstop cancelled,
    cut_body None (pp_ctx demo_end) ["data: {}"; "data: [DONE]"] lines' err' ∧
    (pp_ctx demo_end = false → stop = None ∧ tstop = None ∧ cancelled = false) ∧
    ends_as demo_provider 0 1 (λ _, "") (λ _, Some "{}") true "openai" demo_decision
      (pump demo_line_step (openai_final err') lines' stop tt) tstop cancelled demo_health (mkObs None [] [])
      demo_end.
Proof.
  split; [vm_compute; reflexivity|]. apply stream_refines_sequential; [exact demo_reaches|repeat split].
Defined.

Lemma stream_terminates_witness :
  all_returned demo_gone_end ∧ 21 ≤ 9 * 2 + 17 ∧ pp_panic demo_gone_end = false.
Proof.
  split; [repeat split|].
  destruct (stream_terminates demo_line_step openai_final None demo_provider 0 1 (λ _, "") (λ _, Some "{}") true
    "openai" demo_decision tt ["data: {}"; "data: [DONE]"] demo_health (mkObs None [] []) 21 demo_gone_end
    demo_gone_reaches) as (Hn&Hp&_).
  split; [exact Hn|exact Hp].
Defined.

(** A service that answers 200 with one chunk. *)
Definition demo_body : string := "data: {}" +:+ newline +:+ "data: [DONE]" +:+ newline.
Definition demo_stream_net : Net_ :=
  mkNet (λ _, None) (λ _, inr (mkHTTPResp 200 "" demo_body None)) 0 (λ _ _, None).
Definition demo_stream_req : ChatCompletionRequest :=
  mkRequest "m" [mkMessage "user" "hi" ""] None None None true [] None None None "".

Lemma adapter_streams_delivered_witness :
  ∃ q resp, nt_Do demo_stream_net q = inr resp ∧ hp_StatusCode resp = 200%Z ∧
    streams_to demo_line_step openai_final tt resp [chunk_event (mkChunk "c" "" 0 "m" None None)].
Proof.
  destruct (adapter_streams_delivered (λ _, inr "{}") (λ _, inr (mkChunk "c" "" 0 "m" None None)) (λ _, None)
    (λ _, inr "{}") (λ _, inl (ErrMsg "bad")) (λ _, inl (ErrMsg "bad")) (λ _, inl (ErrMsg "bad")) (λ _, None)
    (λ _, inr "{}") (λ _, inl (ErrMsg "bad")) (λ _, None) demo_stream_net [] (λ _, 0%Z)
    (openai_New (mkAdapterConfig "key" "" 0 ["m"])) demo_stream_req
    [chunk_event (mkChunk "c" "" 0 "m" None None)]) as [H _].
  apply H. vm_compute. reflexivity.
Defined.

Lemma disconnect_outcomes_witness :
  ∃ s, rtc (pipe_step demo_line_step openai_final None demo_provider 0 1 (λ _, "") (λ _, Some "{}") true "openai"
         demo_decision) demo_pipe s ∧ all_returned s ∧
    pp_world s = recordHealthFailure demo_provider
      (Some (ErrWrap "reading stream: " (ErrMsg "context canceled"))) 0 1 demo_health.
Proof.
  apply (disconnect_outcomes demo_line_step openai_final None demo_provider 0 1 (λ _, "") (λ _, Some "{}") true
    "openai" demo_decision tt ["data: {}"; "data: [DONE]"] demo_health (mkObs None [] [])
    (ErrMsg "context canceled") (ErrWrap "reading stream: " (ErrMsg "context canceled")));
    [reflexivity|set_solver].
Defined.
