(* ===== verification/AdapterProps.v ===== *)
(** * What the provider adapters guarantee

    Classification of errors, translation of requests, and the streams the
    three adapters deliver for a given sequence of upstream events. *)

From S2P Require Import Prelude GoStrings Float64 Model Retry Capture Upstream OpenAI Anthropic.
From S2P Require Import Google.
From Stdlib Require Import Ascii.
Local Open Scope Z_scope.

(** ** Lines *)

Definition wire (ls : list string) : string := foldr (λ l acc, l +:+ String nl acc) "" ls.

(** A line the scanner returns as it is. *)
Definition good_line (l : string) : Prop :=
  str_all (λ a, negb (Ascii.eqb a nl) && negb (Ascii.eqb a cr)) l = true ∧ strlen l < maxToken.

Lemma scan_go_line rev l rest err n :
  str_all (λ a, negb (Ascii.eqb a nl) && negb (Ascii.eqb a cr)) l = true →
  n + strlen l < maxToken →
  scan_go rev n (l +:+ String nl rest) err =
    (drop_cr (String.rev l +:+ rev) :: (scan_go "" 0 rest err).1, (scan_go "" 0 rest err).2).
Proof.
  revert rev n. induction l as [|a l IH]; intros rev n Hl Hn.
  - simpl. change (strlen "") with 0 in Hn. rewrite (proj2 (Z.leb_gt _ _)) by lia.
    by destruct (scan_go "" 0 rest err).
  - rewrite str_all_cons in Hl. apply andb_true_iff in Hl as [[Ha _]%andb_true_iff Hl].
    change (String a l +:+ String nl rest) with (String a (l +:+ String nl rest)). cbn [scan_go].
    assert (strlen (String a l) = 1 + strlen l) as Hs by (unfold strlen; simpl; lia).
    pose proof (strlen_nonneg l). rewrite (proj2 (Z.leb_gt _ _)) by lia.
    apply negb_true_iff in Ha. rewrite Ha, IH by (done || lia).
    by rewrite rev_cons, app_assoc_str.
Qed.

Lemma drop_cr_line l :
  str_all (λ a, negb (Ascii.eqb a nl) && negb (Ascii.eqb a cr)) l = true → drop_cr (String.rev l) = l.
Proof.
  intros Hl. destruct (String.rev l) as [|c t] eqn:E.
  - apply (f_equal String.rev) in E. by rewrite rev_rev in E.
  - assert (Ascii.eqb c cr = false) as Hc.
    { assert (l = String.rev (String c t)) as El by (by rewrite <-E, rev_rev).
      rewrite rev_cons in El. rewrite El, str_all_app, str_all_cons in Hl.
      apply andb_true_iff in Hl as [_ [[_ H]%andb_true_iff _]%andb_true_iff]. by apply negb_true_iff in H. }
    simpl. rewrite Hc, <-E. apply rev_rev.
Qed.

(** Scanning recovers the lines of a well-formed body. *)
Lemma scan_wire ls : Forall good_line ls → scan_lines (wire ls) None = (ls, None).
Proof.
  unfold scan_lines. induction 1 as [|l ls [Hl Hn] _ IH]; [done|].
  change (wire (l :: ls)) with (l +:+ String nl (wire ls)).
  rewrite scan_go_line, IH by (done || lia). simpl. by rewrite app_nil_r_str, drop_cr_line.
Qed.

(** ** Errors *)

(** An error of the client library or the JSON codec. *)
Definition plain (e : goerr) : Prop := errors_As e = None.

Definition plain_net (net : Net_) : Prop :=
  (∀ url e, nt_newRequest net url = Some e → plain e) ∧ (∀ rq e, nt_Do net rq = inl e → plain e).

Lemma exchange_error net body url hdrs (mk : HTTPResp → ProviderError) e :
  plain_net net → (∀ e, body = inl e → plain e) →
  exchange net body url hdrs (λ r, ErrProvider (mk r)) = inl e →
  (plain e ∧ isRetryable e = false) ∨
  ∃ rq resp, nt_Do net rq = inr resp ∧ hp_StatusCode resp ≠ 200 ∧ e = ErrProvider (mk resp).
Proof.
  intros [Hnew Hdo] Hb. unfold exchange, plain, isRetryable in *.
  destruct body as [e0|b]; [intros [= <-]; simpl; rewrite (Hb e0 eq_refl); auto|].
  destruct (nt_newRequest net url) as [e0|] eqn:En; [intros [= <-]; simpl; rewrite (Hnew _ _ En); auto|].
  destruct (nt_Do net _) as [e0|resp] eqn:Ed; [intros [= <-]; simpl; rewrite (Hdo _ _ Ed); auto|].
  destruct (Z.eqb_spec (hp_StatusCode resp) 200); [done|]. intros [= <-]. right. eauto.
Qed.

Lemma exchange_ok net body url hdrs mk resp :
  exchange net body url hdrs mk = inr resp →
  hp_StatusCode resp = 200 ∧ ∃ b, body = inr b ∧ nt_Do net (mkHTTPReq url hdrs b) = inr resp.
Proof.
  unfold exchange. destruct body as [|b]; [done|]. destruct (nt_newRequest net url); [done|].
  destruct (nt_Do net _) as [|resp'] eqn:Ed; [done|].
  destruct (Z.eqb_spec (hp_StatusCode resp') 200); [|done]. intros [= <-]. eauto.
Qed.

(** A provider error built from a response. *)
Definition classified (pe : ProviderError) (resp : HTTPResp) : Prop :=
  StatusCode pe = hp_StatusCode resp ∧
  (Retryable pe = true ↔ hp_StatusCode resp = 429 ∨ 500 ≤ hp_StatusCode resp) ∧
  (∀ secs, Atoi (hp_RetryAfter resp) = Some secs → pe_RetryAfter pe = wrap64 (secs * Second)).

Lemma error_response_classified retryable types parse net resp :
  (∀ s, retryable s = true ↔ s = 429 ∨ 500 ≤ s) →
  classified (error_response retryable types parse net resp) resp ∧
  (parse (limit_read (hp_Body resp)) = None →
     let pe := error_response retryable types parse net resp in
     pe_Type pe = types (hp_StatusCode resp) ∧ strlen (pe_Message pe) ≤ 200 ∧
     ∃ rest, limit_read (hp_Body resp) = pe_Message pe +:+ rest).
Proof.
  intros Hr. unfold error_response, classified. split.
  - destruct (match parse _ with Some _ => _ | None => _ end) as [msg ty]. cbn. split; [done|]. split; [apply Hr|].
    intros secs Hs. unfold ParseRetryAfter. rewrite Hs.
    by case_bool_decide as Hh; [rewrite Hh in Hs|].
  - intros ->. cbv beta iota zeta. cbn [pe_Type pe_Message]. split; [done|]. destruct (Z.ltb_spec 200 (strlen (limit_read (hp_Body resp)))).
    + split; [unfold strlen; rewrite str_take_length; lia|]. exists (str_drop 200 (limit_read (hp_Body resp))).
      by rewrite str_take_drop.
    + split; [done|]. exists "". by rewrite app_nil_r_str.
Qed.

Lemma retryable_spec s :
  (openai_retryable s = true ↔ s = 429 ∨ 500 ≤ s) ∧ (anthropic_retryable s = true ↔ s = 429 ∨ 500 ≤ s) ∧
  (google_retryable s = true ↔ s = 429 ∨ 500 ≤ s).
Proof.
  unfold openai_retryable, anthropic_retryable, google_retryable.
  rewrite !orb_true_iff, !Z.eqb_eq, !Z.leb_le. intuition lia.
Qed.

(** C34: classification of upstream failures.  In all three adapters an error
    of a chat call is retryable only when the service itself answered with 429
    or a 5xx status; such an answer is reported with its status and its
    Retry-After delay.  Failures of the network, of encoding and of decoding
    are never retryable.  A reply is only produced from a 200 answer. *)
Theorem adapter_errors_classified (net : Net_) (p : AdapterConfig) (req : ChatCompletionRequest)
    (om : openaiRequest → goerr + string) (od : string → option goerr → goerr + ChatCompletionResponse)
    (oe : string → option openaiErrorResponse)
    (am : anthropicRequest → goerr + string) (ad : string → option goerr → goerr + anthropicResponse)
    (ae : string → option anthropicErrorResponse)
    (gm : geminiRequest → goerr + string) (gd : string → option goerr → goerr + geminiResponse)
    (ge : string → option geminiErrorResponse) (b : list nat) (unix : Z)
    (Hnet : plain_net net)
    (Hmarshal : (∀ r e, om r = inl e → plain e) ∧ (∀ r e, am r = inl e → plain e) ∧
                (∀ r e, gm r = inl e → plain e))
    (Hdecode : (∀ x y e, od x y = inl e → plain e) ∧ (∀ x y e, ad x y = inl e → plain e) ∧
               (∀ x y e, gd x y = inl e → plain e)) :
  ∀ res, res ∈ [openai_ChatCompletion om od oe net p req; anthropic_ChatCompletion am ad ae net unix p req;
                google_ChatCompletion gm gd ge net b unix p req] →
  match res with
  | inr _ => ∃ rq resp, nt_Do net rq = inr resp ∧ hp_StatusCode resp = 200
  | inl e =>
      match errors_As e with
      | None => isRetryable e = false
      | Some pe => ∃ rq resp, nt_Do net rq = inr resp ∧ hp_StatusCode resp ≠ 200 ∧
          classified pe resp
      end
  end.
Proof.
  destruct Hmarshal as (Hom&Ham&Hgm), Hdecode as (Hod&Had&Hgd).
  assert (∀ {A B} body url hdrs mk (dec : string → option goerr → goerr + A) (f : A → B),
    (∀ e, body = inl e → plain e) → (∀ x y e, dec x y = inl e → plain e) →
    (∀ resp, classified (mk resp) resp) →
    match (match exchange net body url hdrs (λ r, ErrProvider (mk r)) with
           | inl e => inl e
           | inr resp => match dec (hp_Body resp) (hp_BodyErr resp) with
                         | inl e => inl (ErrWrap "decoding response: " e)
                         | inr x => inr (f x)
                         end
           end) with
    | inr _ => ∃ rq resp, nt_Do net rq = inr resp ∧ hp_StatusCode resp = 200
    | inl e =>
        match errors_As e with
        | None => isRetryable e = false
        | Some pe => ∃ rq resp, nt_Do net rq = inr resp ∧ hp_StatusCode resp ≠ 200 ∧
            classified pe resp
        end
    end) as Hgen.
  { intros A B body url hdrs mk dec f Hb Hd Hc.
    destruct (exchange _ _ _ _ _) as [e|resp] eqn:Ex.
    - destruct (exchange_error _ _ _ _ _ _ Hnet Hb Ex) as [[Hp Hr]|(rq&resp&Hdo&Hst&->)].
      + unfold plain in Hp. by rewrite Hp.
      + simpl. eauto.
    - apply exchange_ok in Ex as (Hst&bd&_&Hdo). destruct (dec _ _) as [e|x] eqn:Ed; [|eauto].
      pose proof (Hd _ _ _ Ed) as Hp. unfold isRetryable, plain in *. simpl. by rewrite Hp. }
  pose proof retryable_spec as Hret.
  intros res [->|[->|[-> | []%elem_of_nil]%elem_of_cons]%elem_of_cons]%elem_of_cons.
  - apply (Hgen _ _ _ _ _ _ od (λ x, x)); [apply Hom|apply Hod|].
    intros resp. apply error_response_classified. intros s. apply Hret.
  - apply (Hgen _ _ _ _ _ _ ad); [apply Ham|apply Had|].
    intros resp. apply error_response_classified. intros s. apply Hret.
  - apply (Hgen _ _ _ _ _ _ gd); [apply Hgm|apply Hgd|].
    intros resp. apply error_response_classified. intros s. apply Hret.
Qed.

(** ** Requests *)

Lemma split_messages_spec msgs :
  split_messages msgs =
    (Content <$> filter (λ m, Role m = "system") msgs,
     (λ m, mkAnthropicMessage (Role m) (Content m)) <$> filter (λ m, Role m ≠ "system") msgs).
Proof.
  unfold split_messages. induction msgs as [|m msgs IH] using rev_ind; [done|].
  rewrite foldl_snoc, IH, !filter_app. case_bool_decide as Hm; simpl.
  - rewrite !(filter_cons _ m). rewrite decide_True, decide_False by tauto.
    rewrite !filter_nil, !fmap_app, app_nil_r. done.
  - rewrite !(filter_cons _ m). rewrite decide_False, decide_True by tauto.
    rewrite !filter_nil, !fmap_app, app_nil_r. done.
Qed.

Lemma gemini_split_spec msgs :
  gemini_split msgs =
    ((λ m, mkGeminiPart (Content m)) <$> filter (λ m, Role m = "system") msgs,
     (λ m, mkGeminiContent (gemini_role (Role m)) [mkGeminiPart (Content m)])
       <$> filter (λ m, Role m ≠ "system") msgs).
Proof.
  unfold gemini_split. induction msgs as [|m msgs IH] using rev_ind; [done|].
  rewrite foldl_snoc, IH, !filter_app. case_bool_decide as Hm; simpl.
  - rewrite !(filter_cons _ m). rewrite decide_True, decide_False by tauto.
    rewrite !filter_nil, !fmap_app, app_nil_r. done.
  - rewrite !(filter_cons _ m). rewrite decide_False, decide_True by tauto.
    rewrite !filter_nil, !fmap_app, app_nil_r. done.
Qed.

(** C35: translation of requests.  The system messages are taken out: their
    texts, in order, become Anthropic's system text (separated by blank lines)
    and Gemini's system instruction.  All other messages, in order, become the
    conversation with the same text and, for Anthropic, the same role; Gemini's
    role is "model" for "assistant" and the same for the others.
    Temperature, [top_p] and the stop sequences carry over to both, the model
    to Anthropic (Gemini has it in the URL) and [n] to Gemini; Anthropic's token
    limit is the requested one or 4096, and Gemini's generation config is sent
    exactly when one of its parameters is set.  Nothing else of a request has a
    counterpart in these formats: the names of the messages, the penalties and
    the user are dropped, and [n] is for Anthropic. *)
Theorem requests_translated (req : ChatCompletionRequest) :
  let sys := filter (λ m, Role m = "system") (rq_Messages req) in
  let conv := filter (λ m, Role m ≠ "system") (rq_Messages req) in
  let a := anthropic_translateRequest req in
  let g := google_translateRequest req in
  (ar_Model a = rq_Model req ∧ ar_System a = Join (Content <$> sys) blank_line ∧
   ar_Messages a = (λ m, mkAnthropicMessage (Role m) (Content m)) <$> conv ∧
   ar_MaxTokens a = default 4096 (rq_MaxTokens req) ∧ ar_Temperature a = rq_Temperature req ∧
   ar_TopP a = rq_TopP req ∧ ar_StopSequences a = rq_Stop req) ∧
  (from_option (λ i, gp_Text <$> gs_Parts i) [] (gr_SystemInstruction g) = Content <$> sys ∧
   (gr_SystemInstruction g = None ↔ sys = []) ∧
   gr_Contents g = (λ m, mkGeminiContent (gemini_role (Role m)) [mkGeminiPart (Content m)]) <$> conv ∧
   match gr_GenerationConfig g with
   | Some c => c = mkGeminiConfig (rq_Temperature req) (rq_TopP req) (rq_MaxTokens req) (rq_Stop req) (rq_N req)
   | None => rq_Temperature req = None ∧ rq_TopP req = None ∧ rq_MaxTokens req = None ∧
       rq_Stop req = [] ∧ rq_N req = None
   end).
Proof.
  cbv zeta. unfold anthropic_translateRequest, google_translateRequest.
  rewrite split_messages_spec, gemini_split_spec.
  set (sys := filter (λ m, Role m = "system") (rq_Messages req)). cbn. split.
  - split_and!; try done.
    + rewrite length_fmap. by destruct sys.
    + by destruct (rq_Stop req).
  - rewrite length_fmap. split_and!; try done.
    + destruct sys as [|m l]; [done|]. simpl. by rewrite <-list_fmap_compose.
    + by destruct sys.
    + destruct (rq_Temperature req), (rq_TopP req), (rq_MaxTokens req), (rq_Stop req), (rq_N req);
        vm_compute; auto.
Qed.

(** ** Streams *)

Section OpenAIStream.
Context (decode_chunk : string → goerr + ChatCompletionChunk).

Abbreviation line := (openai_line decode_chunk).

Lemma openai_sends : sends_chunks line.
Proof.
  intros st l st' evt. unfold openai_line. destruct (negb _); [done|]. case_bool_decide; [done|].
  destruct (decode_chunk _); [done|]. intros [= <- <-]. by split.
Qed.

Lemma TrimPrefix_app p t : TrimPrefix (p +:+ t) p = t.
Proof. unfold TrimPrefix. by rewrite (proj2 (CutPrefix_Some p _ t) eq_refl). Qed.

Lemma HasPrefix_app p t : HasPrefix (p +:+ t) p = true.
Proof. apply HasPrefix_true. by exists t. Qed.

Lemma openai_return st l : (line st l).2 = AReturn → l = "data: [DONE]".
Proof.
  unfold openai_line. destruct (HasPrefix l "data: ") eqn:Ep; [|done].
  apply HasPrefix_true in Ep as [t ->]. rewrite TrimPrefix_app. simpl.
  case_bool_decide as Hd; [by rewrite Hd|]. by destruct (decode_chunk t).
Qed.

(** Lines that carry no terminator. *)
Lemma openai_no_done lines final :
  "data: [DONE]" ∉ lines → final ≠ None →
  ∃ cs e, pump line final lines None tt = cs ++ [fail_event e] ∧ Forall is_chunk cs.
Proof.
  intros Hno Hfin. induction lines as [|l lines IH]; cbn [pump].
  { destruct final as [e|]; [|done]. by exists [], e. }
  apply not_elem_of_cons in Hno as [Hl Hno]. destruct (IH Hno) as (cs&e&Heq&Hc).
  destruct (line tt l) as [[] [|evt|e'|]] eqn:Ea.
  - by exists cs, e.
  - exists (evt :: cs), e. rewrite Heq. split; [done|]. constructor; [by eapply openai_sends|done].
  - by exists [], e'.
  - destruct Hl. symmetry. apply (openai_return tt). by rewrite Ea.
Qed.

(** One event per chunk: its data line and a blank line. *)
Definition data_lines (ds : list (string * ChatCompletionChunk)) : list string :=
  foldr (λ d acc, ("data: " +:+ d.1) :: "" :: acc) [] ds.

Lemma openai_through (ds : list (string * ChatCompletionChunk)) :
  Forall (λ d, d.1 ≠ "[DONE]" ∧ decode_chunk d.1 = inr d.2) ds →
  through line tt (data_lines ds) = Some (tt, chunk_event <$> ds.*2).
Proof.
  induction 1 as [|[d c] ds [Hne Hd] _ IH]; [done|]. simpl in Hne, Hd.
  change (data_lines ((d, c) :: ds)) with (("data: " +:+ d) :: "" :: data_lines ds).
  assert (line tt ("data: " +:+ d) = (tt, ASend (chunk_event c))) as Hl.
  { unfold openai_line. rewrite HasPrefix_app, TrimPrefix_app. cbn [negb].
    rewrite bool_decide_false by done. by rewrite Hd. }
  cbn [through]. rewrite Hl. change (line tt "") with (tt, ASkip). cbv iota beta. by rewrite IH.
Qed.
End OpenAIStream.

(** The OpenAI stream.  A body whose events carry the chunks [ds] and
    which is closed by the DONE marker is delivered as exactly those chunks,
    in order, without an error.  A body that ends without the marker is
    delivered as chunks closed by exactly one error event, so that a cut-off
    answer is never taken for a complete one. *)
Theorem openai_stream (decode_chunk : string → goerr + ChatCompletionChunk)
    (ds : list (string * ChatCompletionChunk)) (rest : list string) (body : string) (err : option goerr)
    (Hds : Forall (λ d, d.1 ≠ "[DONE]" ∧ decode_chunk d.1 = inr d.2 ∧ good_line ("data: " +:+ d.1)) ds)
    (Hrest : Forall good_line rest) (Hcut : "data: [DONE]" ∉ (scan_lines body err).1) :
  let good := data_lines ds ++ "data: [DONE]" :: rest in
  (let '(ls, e) := scan_lines (wire good) None in
   pump (openai_line decode_chunk) (openai_final e) ls None tt = chunk_event <$> ds.*2) ∧
  (let '(ls, e) := scan_lines body err in
   ∃ cs x, pump (openai_line decode_chunk) (openai_final e) ls None tt = cs ++ [fail_event x] ∧
     Forall is_chunk cs).
Proof.
  cbv zeta. split.
  - rewrite scan_wire.
    + rewrite (pump_through _ _ _ _ _ tt (chunk_event <$> ds.*2)); [by rewrite app_nil_r|].
      apply openai_through. eapply Forall_impl; [exact Hds|]. naive_solver.
    + apply Forall_app. split; [|constructor; [by split|done]].
      induction Hds as [|d ds (_&_&Hg) _ IH]; [constructor|]. constructor; [done|]. by constructor.
  - destruct (scan_lines body err) as [ls e]. by apply openai_no_done.
Qed.

Definition demo_chunk : ChatCompletionChunk := mkChunk "c" "" 0 "m" None None.

Lemma openai_stream_witness :
  let '(ls, e) := scan_lines (wire ["data: {}"; ""; "data: [DONE]"; ""]) None in
  pump (openai_line (λ _, inr demo_chunk)) (openai_final e) ls None tt = [chunk_event demo_chunk].
Proof.
  destruct (openai_stream (λ _, inr demo_chunk) [("{}", demo_chunk)] [""] "data: {}" None) as [H _].
  - repeat constructor; discriminate.
  - repeat constructor.
  - vm_compute. intros H. inversion H as [|? ? ? H']. inversion H'.
  - exact H.
Defined.

Section AnthropicStream.
Context (decode_start : string → goerr + messageStartEvent)
  (decode_block : string → goerr + contentBlockDeltaEvent)
  (decode_delta : string → goerr + messageDeltaEvent) (clock : nat → Z).

Abbreviation line := (anthropic_line decode_start decode_block decode_delta clock).

(** The events between the start and the end of a message: a text delta with
    its encoding, or an event of a type the adapter ignores. *)
Inductive AEv :=
| EvText (ev : contentBlockDeltaEvent) (data : string)
| EvOther (type data : string).

Definition handled (type : string) : Prop :=
  type ∈ ["message_start"; "content_block_delta"; "message_delta"; "message_stop"].

Definition ev_ok (e : AEv) : Prop :=
  match e with
  | EvText ev data => decode_block data = inr ev ∧ cb_Type ev = "text_delta"
  | EvOther type _ => ¬ handled type
  end.

Definition event_lines (type data : string) : list string := ["event: " +:+ type; "data: " +:+ data; ""].

Definition ev_lines (e : AEv) : list string :=
  match e with
  | EvText _ data => event_lines "content_block_delta" data
  | EvOther type data => event_lines type data
  end.

Definition ev_text (e : AEv) : list string :=
  match e with EvText ev _ => [cb_Text ev] | EvOther _ _ => [] end.

(** The state after [n] chunks, at an event type. *)
Definition moved (st : AStream) (type : string) (n : nat) : AStream :=
  mkAStream (msgID st) (msgModel st) (inputTokens st) type (n + reads st).

Abbreviation at_type st type := (moved st type 0).

(** The chunks of some texts, with the clock of each. *)
Definition text_chunks (st : AStream) (texts : list string) : list StreamEvent :=
  imap (λ i t, chunk_event (text_chunk (clock (i + reads st)) st t)) texts.

Lemma text_chunks_app st ty ts1 ts2 :
  text_chunks st (ts1 ++ ts2) = text_chunks st ts1 ++ text_chunks (moved st ty (length ts1)) ts2.
Proof.
  unfold text_chunks. rewrite imap_app. f_equal. apply imap_ext. intros i t _. cbn.
  by replace (length ts1 + i + reads st)%nat with (i + (length ts1 + reads st))%nat by lia.
Qed.

Lemma line_event st type : line st ("event: " +:+ type) = (at_type st type, ASkip).
Proof. unfold anthropic_line. by rewrite (proj2 (CutPrefix_Some "event: " _ type) eq_refl). Qed.

Lemma cut_event_data data : CutPrefix "event: " ("data: " +:+ data) = None.
Proof. reflexivity. Qed.

Lemma line_blank st : line st "" = (st, ASkip).
Proof. reflexivity. Qed.

(** The data line of an event, by event type. *)
Lemma line_data st type data :
  line (at_type st type) ("data: " +:+ data) =
    if bool_decide (type = "message_start") then
      match decode_start data with
      | inl e => (at_type st type, AFail (ErrWrap "decoding message_start: " e))
      | inr ev => let m := ms_Message ev in
          (mkAStream (ap_ID m) (ap_Model m) (InputTokens (ap_Usage m)) type (reads st), ASkip)
      end
    else if bool_decide (type = "content_block_delta") then
      match decode_block data with
      | inl e => (at_type st type, AFail (ErrWrap "decoding content_block_delta: " e))
      | inr ev => if negb (bool_decide (cb_Type ev = "text_delta")) then (at_type st type, ASkip)
                  else (moved st type 1, ASend (chunk_event (text_chunk (clock (reads st)) st (cb_Text ev))))
      end
    else if bool_decide (type = "message_delta") then
      match decode_delta data with
      | inl e => (at_type st type, AFail (ErrWrap "decoding message_delta: " e))
      | inr ev => (moved st type 1, ASend (chunk_event (finish_chunk (clock (reads st)) st ev)))
      end
    else if bool_decide (type = "message_stop") then (at_type st type, AReturn)
    else (at_type st type, ASkip).
Proof.
  unfold anthropic_line. rewrite cut_event_data, (proj2 (CutPrefix_Some "data: " _ data) eq_refl). reflexivity.
Qed.

Lemma ev_through st e :
  ev_ok e → ∃ type, through line st (ev_lines e) =
    Some (moved st type (length (ev_text e)), text_chunks st (ev_text e)).
Proof.
  intros He. destruct e as [ev data|type data]; cbn [ev_lines ev_text event_lines through ev_ok] in *.
  - destruct He as [Hd Ht]. exists "content_block_delta". rewrite line_event, line_data, Hd, Ht. reflexivity.
  - exists type. rewrite line_event, line_data. unfold handled in He.
    rewrite !bool_decide_false by set_solver. reflexivity.
Qed.

Lemma through_app {St} (step : St → string → St * Act) st ls1 ls2 st1 evs1 st2 evs2 :
  through step st ls1 = Some (st1, evs1) → through step st1 ls2 = Some (st2, evs2) →
  through step st (ls1 ++ ls2) = Some (st2, evs1 ++ evs2).
Proof.
  revert st evs1. induction ls1 as [|l ls1 IH]; intros st evs1 H1 H2; simpl in *.
  { by injection H1 as -> <-. }
  destruct (step st l) as [st' [|evt|e|]]; try done; [by eapply IH|].
  destruct (through step st' ls1) as [[st3 evs3]|] eqn:E; [|done]. injection H1 as -> <-.
  by rewrite (IH _ _ E H2).
Qed.

Definition body_lines (es : list AEv) : list string := foldr (λ e acc, ev_lines e ++ acc) [] es.

Lemma body_through st es :
  Forall ev_ok es → ∃ type, through line st (body_lines es) =
    Some (moved st type (length (es ≫= ev_text)), text_chunks st (es ≫= ev_text)).
Proof.
  intros Hes. revert st. induction Hes as [|e es He _ IH]; intros st.
  { exists (eventType st). by destruct st. }
  destruct (ev_through st e He) as [t1 H1]. destruct (IH (moved st t1 (length (ev_text e)))) as [t2 H2].
  exists t2. change (body_lines (e :: es)) with (ev_lines e ++ body_lines es). 
  rewrite (through_app _ _ _ _ _ _ _ _ H1 H2), bind_cons, (text_chunks_app st t1), length_app.
  do 2 f_equal. unfold moved. simpl. f_equal. lia.
Qed.

(** The lines of a whole message. *)
Definition message_lines (start_data : string) (es : list AEv) (delta_data stop_data : string) : list string :=
  event_lines "message_start" start_data ++ body_lines es ++ event_lines "message_delta" delta_data ++
  event_lines "message_stop" stop_data.

Lemma pump_message final m start_data es ev delta_data stop_data :
  decode_start start_data = inr m → Forall ev_ok es → decode_delta delta_data = inr ev →
  let st := mkAStream (ap_ID (ms_Message m)) (ap_Model (ms_Message m))
              (InputTokens (ap_Usage (ms_Message m))) "" 0 in
  pump line final (message_lines start_data es delta_data stop_data) None anthropic_start =
    text_chunks st (es ≫= ev_text) ++ [chunk_event (finish_chunk (clock (length (es ≫= ev_text))) st ev)].
Proof.
  intros Hm Hes Hd st. unfold message_lines.
  assert (through line anthropic_start (event_lines "message_start" start_data) =
    Some (at_type st "message_start", [])) as H1.
  { cbn [event_lines through]. rewrite line_event, line_data, Hm. reflexivity. }
  destruct (body_through (at_type st "message_start") es Hes) as [ty H2].
  set (n := length (es ≫= ev_text)) in *.
  assert (through line (moved (at_type st "message_start") ty n) (event_lines "message_delta" delta_data) =
    Some (moved st "message_delta" (S n), [chunk_event (finish_chunk (clock n) st ev)])) as H3.
  { cbn [event_lines through]. rewrite line_event, line_data, Hd. cbn. by rewrite Nat.add_0_r. }
  pose proof (through_app _ _ _ _ _ _ _ _ H1 (through_app _ _ _ _ _ _ _ _ H2 H3)) as H4.
  rewrite !app_assoc in H4 |- *. rewrite (pump_through _ _ _ _ _ _ _ H4). simpl app at 2.
  cbn [event_lines pump]. rewrite line_event, line_data. cbn. by rewrite app_nil_r.
Qed.

Lemma anthropic_sends : sends_chunks line.
Proof.
  intros st l st' evt. unfold anthropic_line.
  repeat (case_match; try done); intros [= <- <-]; by split.
Qed.

(** The event type is never the stop type when no line announces it. *)
Lemma anthropic_no_stop lines final st :
  "event: message_stop" ∉ lines → final ≠ None → eventType st ≠ "message_stop" →
  ∃ cs e, pump line final lines None st = cs ++ [fail_event e] ∧ Forall is_chunk cs.
Proof.
  intros Hno Hfin. revert st. induction lines as [|l lines IH]; intros st Hst; cbn [pump].
  { destruct final as [e|]; [|done]. by exists [], e. }
  apply not_elem_of_cons in Hno as [Hl Hno]. specialize (IH Hno).
  assert (eventType (line st l).1 ≠ "message_stop" ∧ (line st l).2 ≠ AReturn) as [Hst' Hret].
  { unfold anthropic_line. destruct (CutPrefix "event: " l) as [v|] eqn:Ec.
    - split; [|done]. simpl. intros ->. by apply CutPrefix_Some in Ec as ->.
    - repeat (case_match; try done); simpl in *; try done.
      by match goal with H : bool_decide (_ = "message_stop") = true |- _ => apply bool_decide_eq_true in H end. }
  destruct (line st l) as [st' [|evt|e'|]] eqn:Ea; simpl in *; [by apply IH| |by exists [], e'|done].
  destruct (IH st' Hst') as (cs&e&Heq&Hc). exists (evt :: cs), e. rewrite Heq.
  split; [done|]. constructor; [by eapply anthropic_sends|done].
Qed.
End AnthropicStream.

(** C23: the Anthropic stream.  A message whose events are a start, text
    deltas mixed with events of other types, a delta with the stop reason and
    a stop, is delivered as one chunk per text delta, in order, each carrying
    the message's id and model and the second in which it was built, followed by one chunk with the mapped stop
    reason and the token usage, and no error.  A body in which no stop event
    is announced is delivered as chunks closed by exactly one error. *)
Theorem anthropic_stream
    (decode_start : string → goerr + messageStartEvent)
    (decode_block : string → goerr + contentBlockDeltaEvent)
    (decode_delta : string → goerr + messageDeltaEvent) (clock : nat → Z)
    (m : messageStartEvent) (es : list AEv) (ev : messageDeltaEvent)
    (start_data delta_data stop_data body : string) (err : option goerr)
    (Hstart : decode_start start_data = inr m) (Hes : Forall (ev_ok decode_block) es)
    (Hdelta : decode_delta delta_data = inr ev)
    (Hlines : Forall good_line (message_lines start_data es delta_data stop_data))
    (Hcut : "event: message_stop" ∉ (scan_lines body err).1) :
  let line := anthropic_line decode_start decode_block decode_delta clock in
  let msg := ms_Message m in
  let usage := mkUsage (InputTokens (ap_Usage msg)) (md_OutputTokens ev)
                 (wrap64 (InputTokens (ap_Usage msg) + md_OutputTokens ev)) in
  let texts := es ≫= ev_text in
  let chunk i delta fin u := chunk_event
    (mkChunk (ap_ID msg) "chat.completion.chunk" (clock i) (ap_Model msg) (Some [mkChunkChoice 0 (mkDelta "" delta) fin]) u) in
  (let '(ls, e) := scan_lines (wire (message_lines start_data es delta_data stop_data)) None in
   pump line (anthropic_final e) ls None anthropic_start =
     imap (λ i t, chunk i t None None) texts ++
     [chunk (length texts) "" (Some (mapStopReason (md_StopReason ev))) (Some usage)]) ∧
  (let '(ls, e) := scan_lines body err in
   ∃ cs x, pump line (anthropic_final e) ls None anthropic_start = cs ++ [fail_event x] ∧ Forall is_chunk cs).
Proof.
  cbv zeta. split.
  - rewrite scan_wire by done. erewrite pump_message by done.
    f_equal. apply imap_ext. intros i t _. simpl. by rewrite Nat.add_0_r.
  - destruct (scan_lines body err) as [ls e]. by apply anthropic_no_stop.
Qed.

Definition demo_start : messageStartEvent :=
  mkMessageStart "message_start"
    (mkAnthropicResponse "msg_1" "message" "assistant" [] "claude-3" "" None (mkAnthropicUsage 12 0)).
Definition demo_block : contentBlockDeltaEvent := mkContentBlockDelta "content_block_delta" 0 "text_delta" "Hi".
Definition demo_delta : messageDeltaEvent := mkMessageDelta "message_delta" "max_tokens" None 5.

(** A clock that moves on between two chunks. *)
Definition demo_clock (i : nat) : Z := 7 + Z.of_nat i.

Lemma anthropic_stream_witness :
  let '(ls, e) := scan_lines (wire (message_lines "s" [EvOther "ping" "{}"; EvText demo_block "b"] "d" "x")) None in
  pump (anthropic_line (λ _, inr demo_start) (λ _, inr demo_block) (λ _, inr demo_delta) demo_clock)
    (anthropic_final e) ls None anthropic_start =
  [chunk_event (mkChunk "msg_1" "chat.completion.chunk" 7 "claude-3" (Some [mkChunkChoice 0 (mkDelta "" "Hi") None]) None);
   chunk_event (mkChunk "msg_1" "chat.completion.chunk" 8 "claude-3"
     (Some [mkChunkChoice 0 (mkDelta "" "") (Some "length")]) (Some (mkUsage 12 5 17)))].
Proof.
  destruct (anthropic_stream (λ _, inr demo_start) (λ _, inr demo_block) (λ _, inr demo_delta) demo_clock demo_start
    [EvOther "ping" "{}"; EvText demo_block "b"] demo_delta "s" "d" "x" "data: {}" None) as [H _].
  - reflexivity.
  - constructor; [|repeat constructor]. simpl. unfold handled. set_solver.
  - reflexivity.
  - repeat constructor.
  - vm_compute. intros H. inversion H as [|? ? ? H']. inversion H'.
  - exact H.
Defined.

(** ** Gemini *)

Lemma parts_text_join parts : parts_text parts = Join (gp_Text <$> parts) "".
Proof.
  assert (∀ acc, foldl (λ acc p, acc +:+ gp_Text p) acc parts = acc +:+ Join (gp_Text <$> parts) "") as H.
  { induction parts as [|p parts IH]; intros acc; [by rewrite app_nil_r_str|]. simpl foldl. rewrite IH.
    destruct parts as [|p' parts]; [by rewrite app_nil_r_str|]. cbn [fmap list_fmap Join].
    by rewrite app_assoc_str. }
  unfold parts_text. rewrite H. done.
Qed.

Lemma google_sends decode_chunk clock id m : sends_chunks (google_line decode_chunk clock id m).
Proof.
  intros st l st' evt. unfold google_line. destruct (negb _); [done|].
  destruct (decode_chunk _); [done|]. intros [= <- <-]. by split.
Qed.

Lemma google_pump decode_chunk clock id m (ds : list (string * geminiResponse)) e n :
  Forall (λ d, decode_chunk d.1 = inr d.2) ds →
  pump (google_line decode_chunk clock id m) (google_final e) ((λ d, "data: " +:+ d.1) <$> ds) None n =
    imap (λ i d, chunk_event (google_translateChunk (clock (n + i)%nat) d.2 id m)) ds ++
    from_option (λ e, [fail_event (ErrWrap "reading stream: " e)]) [] e.
Proof.
  intros Hds. revert n. induction Hds as [|[d g] ds Hd _ IH]; intros n; [by destruct e|]. simpl in Hd.
  rewrite fmap_cons, imap_cons. cbn [pump fst snd].
  assert (google_line decode_chunk clock id m n ("data: " +:+ d) =
    (S n, ASend (chunk_event (google_translateChunk (clock n) g id m)))) as ->.
  { unfold google_line. rewrite HasPrefix_app, TrimPrefix_app. simpl. by rewrite Hd. }
  cbv iota beta. rewrite IH, Nat.add_0_r. simpl. do 2 f_equal. apply imap_ext. intros i x _. simpl.
  by rewrite Nat.add_succ_r.
Qed.

(** Gemini answers.  Every candidate becomes one choice with its position
    as index and the concatenation of its parts as text, in a reply as well as
    in a stream chunk; a finish reason of a reply is always one of the three
    OpenAI ones; a stream of chunks is delivered one to one under one stream
    id, with an error only when reading fails. *)
Theorem gemini_translated (decode_chunk : string → goerr + geminiResponse) (b : list nat) (unix : Z) (clock : nat → Z)
    (resp : geminiResponse) (id m : string) (ds : list (string * geminiResponse))
    (Hds : Forall (λ d, decode_chunk d.1 = inr d.2) ds) :
  (∀ i c, gq_Candidates resp !! i = Some c →
     (∃ ch, elems (rs_Choices (google_translateResponse b unix resp m)) !! i = Some ch ∧ ch_Index ch = Z.of_nat i ∧
        Content (ch_Message ch) = Join (gp_Text <$> gc_Parts (gd_Content c)) "" ∧
        ch_FinishReason ch ∈ ["stop"; "length"; "content_filter"]) ∧
     (∃ cc, elems (ck_Choices (google_translateChunk unix resp id m)) !! i = Some cc ∧ cc_Index cc = Z.of_nat i ∧
        dl_Content (cc_Delta cc) = Join (gp_Text <$> gc_Parts (gd_Content c)) "" ∧
        (cc_FinishReason cc = None ↔ gd_FinishReason c = ""))) ∧
  length (elems (rs_Choices (google_translateResponse b unix resp m))) = length (gq_Candidates resp) ∧
  (∀ e, pump (google_line decode_chunk clock id m) (google_final e) ((λ d, "data: " +:+ d.1) <$> ds) None O =
     imap (λ i d, chunk_event (google_translateChunk (clock i) d.2 id m)) ds ++
     from_option (λ e, [fail_event (ErrWrap "reading stream: " e)]) [] e).
Proof.
  split; [|split].
  - intros i c Hc. cbn [rs_Choices ck_Choices google_translateResponse google_translateChunk]. rewrite !elems_appended.
    rewrite !list_lookup_imap, Hc. split; eexists; (split; [done|]); (split; [done|]).
    + split; [apply parts_text_join|]. simpl. unfold mapFinishReason. repeat case_match; set_solver.
    + split; [apply parts_text_join|]. simpl. case_bool_decide; naive_solver.
  - cbn [rs_Choices google_translateResponse]. rewrite elems_appended. apply length_imap.
  - intros e. by apply google_pump.
Qed.

Lemma gemini_translated_witness :
  length (elems (rs_Choices (google_translateResponse (repeat 0%nat 16) 7
    (mkGeminiResponse [mkGeminiCandidate (mkGeminiContent "model" [mkGeminiPart "a"; mkGeminiPart "b"]) "SAFETY"] None)
    "gemini-pro"))) = 1%nat.
Proof.
  destruct (gemini_translated (λ _, inr (mkGeminiResponse [] None)) (repeat 0%nat 16) 7 demo_clock
    (mkGeminiResponse [mkGeminiCandidate (mkGeminiContent "model" [mkGeminiPart "a"; mkGeminiPart "b"]) "SAFETY"] None)
    "id" "gemini-pro" [("{}", mkGeminiResponse [] None)]) as (_&H&_).
  - repeat constructor.
  - exact H.
Defined.

(** A service that answers 503 with a retry delay. *)
Definition demo_net : Net_ :=
  mkNet (λ _, None) (λ _, inr (mkHTTPResp 503 "7" "overloaded" None)) 0 (λ _ _, None).
Definition demo_adapter : AdapterConfig := openai_New (mkAdapterConfig "key" "" 0 ["gpt-4o"]).
Definition demo_call : ChatCompletionRequest :=
  mkRequest "gpt-4o" [mkMessage "user" "hi" ""] None None None false [] None None None "".
Definition demo_openai : goerr + ChatCompletionResponse :=
  openai_ChatCompletion (λ _, inr "{}") (λ _ _, inl (ErrMsg "bad")) (λ _, None) demo_net demo_adapter demo_call.

Lemma adapter_errors_classified_witness :
  ∃ e pe, demo_openai = inl e ∧ errors_As e = Some pe ∧
    ∃ rq resp, nt_Do demo_net rq = inr resp ∧ hp_StatusCode resp ≠ 200 ∧ classified pe resp.
Proof.
  pose proof (adapter_errors_classified demo_net demo_adapter demo_call (λ _, inr "{}")
    (λ _ _, inl (ErrMsg "bad")) (λ _, None) (λ _, inr "{}") (λ _ _, inl (ErrMsg "bad")) (λ _, None)
    (λ _, inr "{}") (λ _ _, inl (ErrMsg "bad")) (λ _, None) [] 0) as H.
  specialize (H ltac:(by split) ltac:(done) ltac:(split_and!; intros ??? [= <-]; done)
    demo_openai ltac:(left)).
  eexists _, _. split; [reflexivity|]. split; [reflexivity|]. exact H.
Defined.
