(* ===== verification/Wire.v ===== *)
(** * The bytes on the wire

    The concrete JSON codec of the gateway: what the handlers read and write,
    what the adapters send and receive, instead of the codec arguments of
    [Handlers], [Middleware], [AdminKeys] and the adapter files.  The kinds
    here are the struct tags of src/internal/handler, of
    src/internal/provider/{openai,anthropic,google}, of
    src/internal/provider/health.go and of the usage document in
    src/internal/middleware/ratelimit.go; those of src/internal/model are in
    [Codec].

    [jerr_text] is the text of encoding/json's errors, which the handlers only
    pass on. *)

From S2P Require Import Prelude GoStrings Float64 JsonString JsonNumber JsonText Reflect Model Codec.
From S2P Require Import Health Metrics Retry Registry Strategies RateLimit Config Router Store Auth Http.
From S2P Require Import Capture AdminKeys Middleware Handlers HandlerProps.
From S2P Require Import Upstream OpenAI Anthropic Google AdapterProps.
From Stdlib Require Import Ascii.
Local Open Scope Z_scope.

(** ** openai.go *)

(** [openaiRequest] as one struct: the embedded request's fields, of which the
    outer [stream] replaces the inner one. *)
Definition set_Stream (b : bool) (r : ChatCompletionRequest) : ChatCompletionRequest :=
  {| rq_Model := rq_Model r; rq_Messages := rq_Messages r; rq_Temperature := rq_Temperature r;
     rq_TopP := rq_TopP r; rq_N := rq_N r; rq_Stream := b; rq_Stop := rq_Stop r;
     rq_MaxTokens := rq_MaxTokens r; rq_PresencePenalty := rq_PresencePenalty r;
     rq_FrequencyPenalty := rq_FrequencyPenalty r; rq_User := rq_User r |}.

Definition flattened (r : openaiRequest) : ChatCompletionRequest := set_Stream (oq_Stream r) (oq_Request r).

Definition openaiRequest_json : kind ChatCompletionRequest :=
  k_struct [Field "model" false k_string rq_Model; Field "messages" false (k_list Message_json) rq_Messages;
            Field "temperature" true (k_ptr k_float) rq_Temperature; Field "top_p" true (k_ptr k_float) rq_TopP;
            Field "n" true (k_ptr k_int) rq_N;
            Field "stop" true (k_list k_string) rq_Stop; Field "max_tokens" true (k_ptr k_int) rq_MaxTokens;
            Field "presence_penalty" true (k_ptr k_float) rq_PresencePenalty;
            Field "frequency_penalty" true (k_ptr k_float) rq_FrequencyPenalty;
            Field "user" true k_string rq_User; Field "stream" false k_bool rq_Stream]
    (λ v, mkRequest (k_of k_string (v 0%nat)) (k_of (k_list Message_json) (v 1%nat))
            (k_of (k_ptr k_float) (v 2%nat)) (k_of (k_ptr k_float) (v 3%nat)) (k_of (k_ptr k_int) (v 4%nat))
            (k_of k_bool (v 10%nat)) (k_of (k_list k_string) (v 5%nat)) (k_of (k_ptr k_int) (v 6%nat))
            (k_of (k_ptr k_float) (v 7%nat)) (k_of (k_ptr k_float) (v 8%nat)) (k_of k_string (v 9%nat))).

(** The anonymous struct of the field [error]. *)
Definition openaiError_json : kind openaiErrorResponse :=
  k_struct [Field "message" false k_string oe_Message; Field "type" false k_string oe_Type;
            Field "code" false k_string oe_Code]
    (λ v, mkOpenaiErrorResponse (k_of k_string (v 0%nat)) (k_of k_string (v 1%nat)) (k_of k_string (v 2%nat))).
Definition openaiErrorResponse_json : kind openaiErrorResponse :=
  k_struct [Field "error" false openaiError_json id] (λ v, k_of openaiError_json (v 0%nat)).

(** ** anthropic.go *)

Definition anthropicMessage_json : kind anthropicMessage :=
  k_struct [Field "role" false k_string am_Role; Field "content" false k_string am_Content]
    (λ v, mkAnthropicMessage (k_of k_string (v 0%nat)) (k_of k_string (v 1%nat))).

Definition anthropicRequest_json : kind anthropicRequest :=
  k_struct [Field "model" false k_string ar_Model;
            Field "messages" false (k_list anthropicMessage_json) ar_Messages;
            Field "system" true k_string ar_System; Field "max_tokens" false k_int ar_MaxTokens;
            Field "temperature" true (k_ptr k_float) ar_Temperature; Field "top_p" true (k_ptr k_float) ar_TopP;
            Field "stop_sequences" true (k_list k_string) ar_StopSequences;
            Field "stream" false k_bool ar_Stream]
    (λ v, mkAnthropicRequest (k_of k_string (v 0%nat)) (k_of (k_list anthropicMessage_json) (v 1%nat))
            (k_of k_string (v 2%nat)) (k_of k_int (v 3%nat)) (k_of (k_ptr k_float) (v 4%nat))
            (k_of (k_ptr k_float) (v 5%nat)) (k_of (k_list k_string) (v 6%nat)) (k_of k_bool (v 7%nat))).

Definition anthropicContent_json : kind anthropicContent :=
  k_struct [Field "type" false k_string an_Type; Field "text" false k_string an_Text]
    (λ v, mkAnthropicContent (k_of k_string (v 0%nat)) (k_of k_string (v 1%nat))).

Definition anthropicUsage_json : kind anthropicUsage :=
  k_struct [Field "input_tokens" false k_int InputTokens; Field "output_tokens" false k_int OutputTokens]
    (λ v, mkAnthropicUsage (k_of k_int (v 0%nat)) (k_of k_int (v 1%nat))).

Definition anthropicResponse_json : kind anthropicResponse :=
  k_struct [Field "id" false k_string ap_ID; Field "type" false k_string ap_Type;
            Field "role" false k_string ap_Role;
            Field "content" false (k_list anthropicContent_json) ap_Content;
            Field "model" false k_string ap_Model; Field "stop_reason" false k_string ap_StopReason;
            Field "stop_sequence" false (k_ptr k_string) ap_StopSequence;
            Field "usage" false anthropicUsage_json ap_Usage]
    (λ v, mkAnthropicResponse (k_of k_string (v 0%nat)) (k_of k_string (v 1%nat)) (k_of k_string (v 2%nat))
            (k_of (k_list anthropicContent_json) (v 3%nat)) (k_of k_string (v 4%nat))
            (k_of k_string (v 5%nat)) (k_of (k_ptr k_string) (v 6%nat)) (k_of anthropicUsage_json (v 7%nat))).

(** The anonymous structs of the error document and of the event payloads are
    pairs. *)
Definition anthropicError_json : kind (string * string) :=
  k_struct [Field "type" false k_string fst; Field "message" false k_string snd]
    (λ v, (k_of k_string (v 0%nat), k_of k_string (v 1%nat))).
Definition anthropicErrorResponse_json : kind anthropicErrorResponse :=
  k_struct [Field "type" false k_string ae_Type;
            Field "error" false anthropicError_json (λ r, (ae_ErrorType r, ae_ErrorMessage r))]
    (λ v, let e := k_of anthropicError_json (v 1%nat) in
          mkAnthropicErrorResponse (k_of k_string (v 0%nat)) e.1 e.2).

Definition messageStartEvent_json : kind messageStartEvent :=
  k_struct [Field "type" false k_string ms_Type; Field "message" false anthropicResponse_json ms_Message]
    (λ v, mkMessageStart (k_of k_string (v 0%nat)) (k_of anthropicResponse_json (v 1%nat))).

Definition textDelta_json : kind (string * string) :=
  k_struct [Field "type" false k_string fst; Field "text" false k_string snd]
    (λ v, (k_of k_string (v 0%nat), k_of k_string (v 1%nat))).
Definition contentBlockDeltaEvent_json : kind contentBlockDeltaEvent :=
  k_struct [Field "type" false k_string cb_EventType; Field "index" false k_int cb_Index;
            Field "delta" false textDelta_json (λ r, (cb_Type r, cb_Text r))]
    (λ v, let d := k_of textDelta_json (v 2%nat) in
          mkContentBlockDelta (k_of k_string (v 0%nat)) (k_of k_int (v 1%nat)) d.1 d.2).

Definition stopDelta_json : kind (string * option string) :=
  k_struct [Field "stop_reason" false k_string fst; Field "stop_sequence" false (k_ptr k_string) snd]
    (λ v, (k_of k_string (v 0%nat), k_of (k_ptr k_string) (v 1%nat))).
Definition outputUsage_json : kind Z :=
  k_struct [Field "output_tokens" false k_int id] (λ v, k_of k_int (v 0%nat)).
Definition messageDeltaEvent_json : kind messageDeltaEvent :=
  k_struct [Field "type" false k_string md_Type;
            Field "delta" false stopDelta_json (λ r, (md_StopReason r, md_StopSequence r));
            Field "usage" false outputUsage_json md_OutputTokens]
    (λ v, let d := k_of stopDelta_json (v 1%nat) in
          mkMessageDelta (k_of k_string (v 0%nat)) d.1 d.2 (k_of outputUsage_json (v 2%nat))).

(** ** google.go *)

Definition geminiPart_json : kind geminiPart :=
  k_struct [Field "text" false k_string gp_Text] (λ v, mkGeminiPart (k_of k_string (v 0%nat))).

Definition geminiContent_json : kind geminiContent :=
  k_struct [Field "role" false k_string gc_Role; Field "parts" false (k_list geminiPart_json) gc_Parts]
    (λ v, mkGeminiContent (k_of k_string (v 0%nat)) (k_of (k_list geminiPart_json) (v 1%nat))).

Definition geminiSystemInstruction_json : kind geminiSystemInstruction :=
  k_struct [Field "parts" false (k_list geminiPart_json) gs_Parts]
    (λ v, mkGeminiSystem (k_of (k_list geminiPart_json) (v 0%nat))).

Definition geminiGenerationConfig_json : kind geminiGenerationConfig :=
  k_struct [Field "temperature" true (k_ptr k_float) gg_Temperature; Field "topP" true (k_ptr k_float) gg_TopP;
            Field "maxOutputTokens" true (k_ptr k_int) gg_MaxOutputTokens;
            Field "stopSequences" true (k_list k_string) gg_StopSequences;
            Field "candidateCount" true (k_ptr k_int) gg_CandidateCount]
    (λ v, mkGeminiConfig (k_of (k_ptr k_float) (v 0%nat)) (k_of (k_ptr k_float) (v 1%nat))
            (k_of (k_ptr k_int) (v 2%nat)) (k_of (k_list k_string) (v 3%nat)) (k_of (k_ptr k_int) (v 4%nat))).

Definition geminiRequest_json : kind geminiRequest :=
  k_struct [Field "contents" false (k_list geminiContent_json) gr_Contents;
            Field "systemInstruction" true (k_ptr geminiSystemInstruction_json) gr_SystemInstruction;
            Field "generationConfig" true (k_ptr geminiGenerationConfig_json) gr_GenerationConfig]
    (λ v, mkGeminiRequest (k_of (k_list geminiContent_json) (v 0%nat))
            (k_of (k_ptr geminiSystemInstruction_json) (v 1%nat))
            (k_of (k_ptr geminiGenerationConfig_json) (v 2%nat))).

Definition geminiCandidate_json : kind geminiCandidate :=
  k_struct [Field "content" false geminiContent_json gd_Content;
            Field "finishReason" false k_string gd_FinishReason]
    (λ v, mkGeminiCandidate (k_of geminiContent_json (v 0%nat)) (k_of k_string (v 1%nat))).

Definition geminiUsageMetadata_json : kind geminiUsageMetadata :=
  k_struct [Field "promptTokenCount" false k_int PromptTokenCount;
            Field "candidatesTokenCount" false k_int CandidatesTokenCount;
            Field "totalTokenCount" false k_int TotalTokenCount]
    (λ v, mkGeminiUsage (k_of k_int (v 0%nat)) (k_of k_int (v 1%nat)) (k_of k_int (v 2%nat))).

Definition geminiResponse_json : kind geminiResponse :=
  k_struct [Field "candidates" false (k_list geminiCandidate_json) gq_Candidates;
            Field "usageMetadata" true (k_ptr geminiUsageMetadata_json) gq_UsageMetadata]
    (λ v, mkGeminiResponse (k_of (k_list geminiCandidate_json) (v 0%nat))
            (k_of (k_ptr geminiUsageMetadata_json) (v 1%nat))).

(** The anonymous struct of the field [error]. *)
Definition geminiError_json : kind geminiErrorResponse :=
  k_struct [Field "code" false k_int ge_Code; Field "message" false k_string ge_Message;
            Field "status" false k_string ge_Status]
    (λ v, mkGeminiError (k_of k_int (v 0%nat)) (k_of k_string (v 1%nat)) (k_of k_string (v 2%nat))).
Definition geminiErrorResponse_json : kind geminiErrorResponse :=
  k_struct [Field "error" false geminiError_json id] (λ v, k_of geminiError_json (v 0%nat)).

(** ** The handlers' documents *)

Definition modelObject_json : kind modelObject :=
  k_struct [Field "id" false k_string mo_ID; Field "object" false k_string mo_Object;
            Field "owned_by" false k_string mo_OwnedBy]
    (λ v, mkModelObject (k_of k_string (v 0%nat)) (k_of k_string (v 1%nat)) (k_of k_string (v 2%nat))).

Definition modelsResponse_json : kind modelsResponse :=
  k_struct [Field "object" false k_string mr_Object; Field "data" false (k_array modelObject_json) mr_Data]
    (λ v, mkModelsResponse (k_of k_string (v 0%nat)) (k_of (k_array modelObject_json) (v 1%nat))).

(** The document the rate limiter reads the usage from. *)
Definition parsedUsage_json : kind Usage :=
  k_struct [Field "usage" false Usage_json id] (λ v, k_of Usage_json (v 0%nat)).

Section Wire.
Context `{TimeText}.

Definition CreateKeyRequest_json : kind CreateKeyRequest :=
  k_struct [Field "org_id" false k_string cq_OrgID; Field "name" false k_string cq_Name;
            Field "rate_limit_rpm" true (k_ptr k_int) cq_RateLimitRPM;
            Field "rate_limit_tpm" true (k_ptr k_int) cq_RateLimitTPM;
            Field "expires_at" true (k_ptr k_time) cq_ExpiresAt]
    (λ v, mkCreateKeyRequest (k_of k_string (v 0%nat)) (k_of k_string (v 1%nat)) (k_of (k_ptr k_int) (v 2%nat))
            (k_of (k_ptr k_int) (v 3%nat)) (k_of (k_ptr k_time) (v 4%nat))).

Definition CreateKeyResponse_json : kind CreateKeyResponse :=
  k_struct [Field "id" false k_string kr_ID; Field "key" false k_string kr_Key;
            Field "key_prefix" false k_string kr_KeyPrefix; Field "name" false k_string kr_Name;
            Field "rate_limit_rpm" false k_int kr_RateLimitRPM; Field "rate_limit_tpm" false k_int kr_RateLimitTPM;
            Field "expires_at" true (k_ptr k_time) kr_ExpiresAt; Field "created_at" false k_time kr_CreatedAt]
    (λ v, mkCreateKeyResponse (k_of k_string (v 0%nat)) (k_of k_string (v 1%nat)) (k_of k_string (v 2%nat))
            (k_of k_string (v 3%nat)) (k_of k_int (v 4%nat)) (k_of k_int (v 5%nat))
            (k_of (k_ptr k_time) (v 6%nat)) (k_of k_time (v 7%nat))).

Definition HealthStatus_json : kind HealthStatus :=
  k_struct [Field "healthy" false k_bool Healthy; Field "consecutive_fails" false k_int ConsecutiveFails;
            Field "last_success" true (k_ptr k_time) LastSuccess;
            Field "last_failure" true (k_ptr k_time) LastFailure; Field "last_error" true k_string LastError]
    (λ v, mkHealthStatus (k_of k_bool (v 0%nat)) (k_of k_int (v 1%nat)) (k_of (k_ptr k_time) (v 2%nat))
            (k_of (k_ptr k_time) (v 3%nat)) (k_of k_string (v 4%nat))).

(** A Go map with string keys is printed in the order of its keys. *)
Definition map_json {A} (k : kind A) (m : gmap string A) : option json :=
  JObj <$> mapM (λ key, a ← m !! key; j ← to_json (k_ty k) (k_to k a); Some (key, j))
             (sort_Strings (map_to_list m).*1).

Definition internalHealth_json (r : internalHealthResponse) : option json :=
  providers ← map_json HealthStatus_json (ih_Providers r);
  Some (JObj [("status", JStr (json_quote (ih_Status r))); ("providers", providers)]).

Definition encode_json (j : option json) : string :=
  match j with Some j => json_print j +:+ String (ascii_of_nat 10) "" | None => "" end.

(** [json.NewEncoder(w).Encode] of every document the handlers write. *)
Definition encode_payload (p : Payload) : string :=
  match p with
  | PError e => encode_as APIError_json e
  | PChat r => encode_as ChatCompletionResponse_json r
  | PKey r => encode_as CreateKeyResponse_json r
  | PModels r => encode_as modelsResponse_json r
  | PHealth r => encode_json (internalHealth_json r)
  | PStatusOk => encode_json (map_json k_string {[ "status" := "ok" ]})
  end.

(** [json.Marshal(evt.Chunk)]: a nil pointer is printed as [null]. *)
Definition marshal_chunk (c : option ChatCompletionChunk) : option string :=
  match c with None => Some "null" | Some c => marshal_as ChatCompletionChunk_json c end.

(** [json.Unmarshal(body, &parsed)] and [parsed.Usage.TotalTokens]. *)
Definition parse_total (body : string) : option Z :=
  match unmarshal_as parsedUsage_json body with inr u => Some (TotalTokens u) | inl _ => None end.

(** ** Request bodies *)

Definition maxRequestBodySize : Z := Z.shiftl 10 20.
Definition adminBodyLimit : Z := Z.shiftl 1 20.

(** How reading a limited body can fail. *)
Inductive read_err := RTooLarge | RRead (msg : string).

(** [http.MaxBytesReader]: what it yields before it ends or fails. *)
Definition MaxBytesReader (limit : Z) (b : Body) : string * option read_err :=
  match b with
  | NoBody => ("", None)
  | Reader data err =>
      if strlen data <=? limit then (data, RRead <$> err)
      else (str_take (Z.to_nat limit) data, Some RTooLarge)
  end.

Context (jerr_text : jerr → string).

(** [errors.As] with an [*http.MaxBytesError]. *)
Definition isMaxBytesError (e : read_err + jerr) : bool := match e with inl RTooLarge => true | _ => false end.

(** [err.Error()]. *)
Definition body_err_Error (e : read_err + jerr) : string :=
  match e with
  | inl RTooLarge => "http: request body too large"
  | inl (RRead msg) => msg
  | inr e => jerr_text e
  end.

(** The decoding step of [HandleChatCompletion]. *)
Definition decode_chat (b : Body) : Decoded :=
  let '(data, err) := MaxBytesReader maxRequestBodySize b in
  match decode_as ChatCompletionRequest_json data err with
  | inr req => DOk req
  | inl e => if isMaxBytesError e then DTooLarge else DBad (body_err_Error e)
  end.

(** The decoding step of [AdminKeysHandler.Create]. *)
Definition decode_create (b : Body) : option CreateKeyRequest :=
  let '(data, err) := MaxBytesReader adminBodyLimit b in
  match decode_as CreateKeyRequest_json data err with inr req => Some req | inl _ => None end.

(** ** The adapters' codec *)

Definition or_json {A} (r : jerr + A) : goerr + A := match r with inr a => inr a | inl e => inl (ErrMsg (jerr_text e)) end.

Definition unsupported : goerr := ErrMsg "json: unsupported value".
Definition marshaled (r : option string) : goerr + string :=
  match r with Some s => inr s | None => inl unsupported end.

Definition openai_marshal (r : openaiRequest) : goerr + string :=
  marshaled (marshal_as openaiRequest_json (flattened r)).
Definition anthropic_marshal (r : anthropicRequest) : goerr + string := marshaled (marshal_as anthropicRequest_json r).
Definition google_marshal (r : geminiRequest) : goerr + string := marshaled (marshal_as geminiRequest_json r).

(** [json.NewDecoder(resp.Body).Decode]. *)
Definition decode_body {A} (k : kind A) (body : string) (err : option goerr) : goerr + A :=
  match decode_as k body err with
  | inr a => inr a
  | inl (inl e) => inl e
  | inl (inr e) => inl (ErrMsg (jerr_text e))
  end.

(** An error document that parses. *)
Definition decode_error {A} (k : kind A) (body : string) : option A :=
  match unmarshal_as k body with inr a => Some a | inl _ => None end.

Definition decode_event {A} (k : kind A) (data : string) : goerr + A := or_json (unmarshal_as k data).

(** The adapters' calls with their codec. *)
Definition openai_chat : Net_ → AdapterConfig → ChatCompletionRequest → goerr + ChatCompletionResponse :=
  openai_ChatCompletion openai_marshal (decode_body ChatCompletionResponse_json)
    (decode_error openaiErrorResponse_json).
Definition openai_stream_chat : Net_ → AdapterConfig → ChatCompletionRequest → option (nat * bool) →
    goerr + list StreamEvent :=
  openai_ChatCompletionStream openai_marshal (decode_event ChatCompletionChunk_json)
    (decode_error openaiErrorResponse_json).
Definition anthropic_chat : Net_ → Z → AdapterConfig → ChatCompletionRequest → goerr + ChatCompletionResponse :=
  anthropic_ChatCompletion anthropic_marshal (decode_body anthropicResponse_json)
    (decode_error anthropicErrorResponse_json).
Definition anthropic_stream_chat : Net_ → (nat → Z) → AdapterConfig → ChatCompletionRequest → option (nat * bool) →
    goerr + list StreamEvent :=
  anthropic_ChatCompletionStream anthropic_marshal (decode_event messageStartEvent_json)
    (decode_event contentBlockDeltaEvent_json) (decode_event messageDeltaEvent_json)
    (decode_error anthropicErrorResponse_json).
Definition google_chat : Net_ → list nat → Z → AdapterConfig → ChatCompletionRequest →
    goerr + ChatCompletionResponse :=
  google_ChatCompletion google_marshal (decode_body geminiResponse_json)
    (decode_error geminiErrorResponse_json).
Definition google_stream_chat : Net_ → list nat → (nat → Z) → AdapterConfig → ChatCompletionRequest →
    option (nat * bool) → goerr + list StreamEvent :=
  google_ChatCompletionStream google_marshal (decode_event geminiResponse_json)
    (decode_error geminiErrorResponse_json).
End Wire.

(** Times are not printed here: the instance for everything without one. *)
Definition no_times : TimeText := {| fmt_time _ := None; parse_time _ := None |}.

Definition demo_json : string :=
  "{ 'Model':'m', 'messages':[{'role':'user','content':'hi <b>'}], 'temperature':0.7, 'stream':true, 'x':[1]} tail".
Definition dq (s : string) : string := str_map (λ a, if Ascii.eqb a "'" then dquote else a) s.

Example decode_chat_ex :
  decode_chat (H := no_times) (λ _, "bad json") (Reader (dq demo_json) None) =
    DOk (mkRequest "m" [mkMessage "user" "hi <b>" ""] (Some (f64_of_dec false 7 (-1))) None None true [] None
           None None "").
Proof. vm_compute. reflexivity. Qed.
Example encode_chat_ex :
  encode_payload (H := no_times) (PChat (mkResponse "id" "" 1 "m"
    (Some [mkChoice 0 (mkMessage "assistant" "<hi>" "") "stop"]) (mkUsage 1 2 3) "")) =
  dq "{'id':'id','object':'','created':1,'model':'m','choices':[{'index':0,'message':{'role':'assistant','content':'\u003chi\u003e'},'finish_reason':'stop'}],'usage':{'prompt_tokens':1,'completion_tokens':2,'total_tokens':3}}"
    +:+ newline.
Proof. vm_compute. reflexivity. Qed.
