(* ===== verification/WireProps.v ===== *)
(** * What the codec guarantees

    Round trips of the documents the gateway exchanges, what is accepted as a
    request body, that every accepted request can be sent to every provider,
    that the usage charged is the usage reported, and that a client (or
    another gateway) reads back the chunks that were streamed. *)

From S2P Require Import Prelude GoStrings Float64 JsonString JsonNumber JsonText Reflect Model Codec.
From S2P Require Import Health Metrics Retry Registry Strategies RateLimit Config Router Store Auth Http.
From S2P Require Import Capture AdminKeys Middleware Handlers HandlerProps.
From S2P Require Import Upstream OpenAI Anthropic Google AdapterProps Wire.
From Stdlib Require Import Ascii.
Local Open Scope Z_scope.

(** ** The adapters' kinds *)

Section Kinds1.
Context `{TimeLaws}.
Lemma openaiRequest_json_laws : kind_laws openaiRequest_json. Proof. struct_laws. Qed.
Lemma openaiError_json_laws : kind_laws openaiError_json. Proof. struct_laws. Qed.
Lemma anthropicMessage_json_laws : kind_laws anthropicMessage_json. Proof. struct_laws. Qed.
Lemma anthropicContent_json_laws : kind_laws anthropicContent_json. Proof. struct_laws. Qed.
Lemma anthropicUsage_json_laws : kind_laws anthropicUsage_json. Proof. struct_laws. Qed.
Lemma textDelta_json_laws : kind_laws textDelta_json. Proof. struct_laws. Qed.
Lemma stopDelta_json_laws : kind_laws stopDelta_json. Proof. struct_laws. Qed.
Lemma geminiPart_json_laws : kind_laws geminiPart_json. Proof. struct_laws. Qed.
Lemma geminiGenerationConfig_json_laws : kind_laws geminiGenerationConfig_json. Proof. struct_laws. Qed.
Lemma geminiUsageMetadata_json_laws : kind_laws geminiUsageMetadata_json. Proof. struct_laws. Qed.
Lemma CreateKeyRequest_json_laws : kind_laws CreateKeyRequest_json. Proof. struct_laws. Qed.
Lemma CreateKeyResponse_json_laws : kind_laws CreateKeyResponse_json. Proof. struct_laws. Qed.
Lemma modelObject_json_laws : kind_laws modelObject_json. Proof. struct_laws. Qed.
End Kinds1.
#[export] Hint Resolve openaiError_json_laws anthropicMessage_json_laws anthropicContent_json_laws
  anthropicUsage_json_laws textDelta_json_laws stopDelta_json_laws geminiPart_json_laws
  geminiGenerationConfig_json_laws geminiUsageMetadata_json_laws modelObject_json_laws : kinds.

Section Kinds2.
Context `{TimeLaws}.
Lemma anthropicRequest_json_laws : kind_laws anthropicRequest_json. Proof. struct_laws. Qed.
Lemma anthropicResponse_json_laws : kind_laws anthropicResponse_json. Proof. struct_laws. Qed.
Lemma contentBlockDeltaEvent_json_laws : kind_laws contentBlockDeltaEvent_json. Proof. struct_laws. Qed.
Lemma geminiContent_json_laws : kind_laws geminiContent_json. Proof. struct_laws. Qed.
Lemma geminiSystemInstruction_json_laws : kind_laws geminiSystemInstruction_json. Proof. struct_laws. Qed.
Lemma modelsResponse_json_laws : kind_laws modelsResponse_json. Proof. struct_laws. Qed.
Lemma parsedUsage_json_laws : kind_laws parsedUsage_json. Proof. struct_laws. Qed.
End Kinds2.
#[export] Hint Resolve geminiContent_json_laws geminiSystemInstruction_json_laws anthropicResponse_json_laws : kinds.

Section Kinds3.
Context `{TimeLaws}.
Lemma geminiRequest_json_laws : kind_laws geminiRequest_json. Proof. struct_laws. Qed.
Lemma geminiCandidate_json_laws : kind_laws geminiCandidate_json. Proof. struct_laws. Qed.
Lemma messageStartEvent_json_laws : kind_laws messageStartEvent_json. Proof. struct_laws. Qed.
End Kinds3.
#[export] Hint Resolve openaiRequest_json_laws anthropicRequest_json_laws geminiRequest_json_laws
  ChatCompletionRequest_json_laws ChatCompletionResponse_json_laws ChatCompletionChunk_json_laws
  ChatCompletionRequest_json_sane ChatCompletionResponse_json_sane ChatCompletionChunk_json_sane : kinds.

(** ** Round trips *)

(** Whatever a document can be read as is printed as a document that reads as
    the same value, also with more of a stream behind it. *)
Definition faithful `{TimeText} {A} (k : kind A) : Prop :=
  ∀ text a, unmarshal_as k text = inr a →
    ∃ s, marshal_as k a = Some s ∧ unmarshal_as k s = inr a ∧
      (∀ sp, str_all is_space sp = true → unmarshal_as k (s +:+ sp) = inr a) ∧
      ∀ E rest (err : option E), decode_as k (s +:+ rest) err = inr a.

Lemma faithful_laws `{TimeLaws} {A} (k : kind A) :
  kind_laws k → kind_sane k → is_doc k = true → faithful k.
Proof.
  intros Hk Hs Hd text a Ha. apply (proj1 (as_sane k Hs)) in Ha.
  destruct (as_roundtrip k Hk Hd a Ha) as (s&Hm&_&Hu&Hdec). exists s. split; [done|].
  split; [|done]. specialize (Hu "" eq_refl). by rewrite app_nil_r_str in Hu.
Qed.

(** The gateway's wire format.  A chat request, a response or a stream
    chunk that was read from any JSON text is printed as a text that reads back
    as the same value: nil and empty choices, absent and zero parameters, and
    every double survive, whatever white space or further input follows. *)
Theorem chat_documents_roundtrip `{TimeLaws} :
  faithful ChatCompletionRequest_json ∧ faithful ChatCompletionResponse_json ∧
  faithful ChatCompletionChunk_json.
Proof. split_and!; apply faithful_laws; eauto with kinds; vm_compute; reflexivity. Qed.

(** ** Request bodies *)

Section Bodies.
Context `{TimeLaws} (jerr_text : jerr → string).

Lemma str_take_app_ge n s t : (String.length s ≤ n)%nat → str_take n (s +:+ t) = s +:+ str_take (n - String.length s) t.
Proof.
  revert n. induction s as [|a s IH]; intros n Hn; [by rewrite Nat.sub_0_r|].
  destruct n as [|n]; [simpl in Hn; lia|]. rewrite !str_cons_app. simpl in *. rewrite IH by lia. done.
Qed.

Lemma MaxBytesReader_prefix limit s rest err :
  strlen s ≤ limit → ∃ rest' err', MaxBytesReader limit (Reader (s +:+ rest) err) = (s +:+ rest', err').
Proof.
  intros Hs. unfold MaxBytesReader. destruct (_ <=? limit); [eauto|]. unfold strlen in Hs.
  rewrite str_take_app_ge by lia. eauto.
Qed.

Lemma decode_chat_ok b req : decode_chat jerr_text b = DOk req → k_ok ChatCompletionRequest_json req.
Proof.
  unfold decode_chat. destruct (MaxBytesReader _ b) as [data err].
  destruct (decode_as _ data err) as [e|r] eqn:E; [by destruct (isMaxBytesError e)|]. intros [= <-].
  by eapply (proj2 (as_sane _ ChatCompletionRequest_json_sane)).
Qed.

(** C16: reading a chat request.  The body is refused as too large exactly when
    it is longer than 10 MiB and its first 10 MiB are an unfinished document;
    a decoded request has well-formed text, 64-bit numbers and finite
    parameters; and every such request is decoded from its printed form when
    that fits the limit, whatever follows it on the connection. *)
Theorem chat_body_decoding (b : Body) :
  (decode_chat jerr_text b = DTooLarge ↔
     ∃ data err v, b = Reader data err ∧ maxRequestBodySize < strlen data ∧
       parse_json (str_take (Z.to_nat maxRequestBodySize) data) = PMore v) ∧
  (∀ req, decode_chat jerr_text b = DOk req → k_ok ChatCompletionRequest_json req) ∧
  (∀ req, k_ok ChatCompletionRequest_json req →
     ∃ s, marshal_as ChatCompletionRequest_json req = Some s ∧
       (strlen s ≤ maxRequestBodySize → ∀ rest err, decode_chat jerr_text (Reader (s +:+ rest) err) = DOk req)).
Proof.
  split_and!.
  - unfold decode_chat, MaxBytesReader, decode_as, Decode, stream_value. destruct b as [|data err].
    { split; [done|]. by intros (?&?&?&?&_). }
    generalize maxRequestBodySize. intros limit. destruct (Z.leb_spec (strlen data) limit) as [Hle|Hgt].
    + split; [|intros (d&e&v&[= -> ->]&Hlt&_); lia].
      destruct (parse_json data) as [v t|v|]; cbv beta iota; [by destruct (unmarshal _ _ _)| |done].
      destruct err as [e|]; [done|]. destruct v as [v|]; [|done].
      cbv beta iota delta [fmap option_fmap option_map]. by destruct (unmarshal _ _ _).
    + destruct (parse_json _) as [v t|v|] eqn:Ep; cbv beta iota.
      * destruct (unmarshal _ _ _); (split; [done|]); intros (d&e&w&[= -> ->]&_&Hp); congruence.
      * split; [|done]. intros _. eauto 10.
      * split; [done|]. intros (d&e&w&[= -> ->]&_&Hp). congruence.
  - apply decode_chat_ok.
  - intros req Hreq.
    destruct (as_roundtrip _ ChatCompletionRequest_json_laws ltac:(vm_compute; reflexivity) req Hreq)
      as (s&Hm&_&_&Hd).
    exists s. split; [done|]. intros Hs rest err. unfold decode_chat.
    destruct (MaxBytesReader_prefix _ s rest err Hs) as (rest'&err'&->). by rewrite Hd.
Qed.
End Bodies.

(** ** Requests to the providers *)

Lemma utf8_valid_app s t : utf8_valid 0 s = true → utf8_valid 0 t = true → utf8_valid 0 (s +:+ t) = true.
Proof.
  intros Hs Ht. revert Hs. induction s as [|a t' Hl _|r t' Hr IH] using rune_ind; [done| |].
  - cbn [utf8_valid]. by rewrite Hl.
  - rewrite app_assoc_str, !utf8_valid_rune by done. exact IH.
Qed.

Lemma utf8_valid_Join ss sep :
  Forall (λ s, utf8_valid 0 s = true) ss → utf8_valid 0 sep = true → utf8_valid 0 (Join ss sep) = true.
Proof.
  intros Hss Hsep. induction Hss as [|s [|s' ss] Hs _ IH]; [done|done|].
  rewrite Join_cons2. by apply utf8_valid_app; [|apply utf8_valid_app].
Qed.

Lemma Forall_kept {A} (P Q : A → Prop) `{!∀ x, base.Decision (Q x)} l : Forall P l → Forall P (filter Q l).
Proof. intros Hl. apply Forall_forall. intros x [_ Hx]%list_elem_of_filter. by eapply Forall_forall. Qed.

(** Field by field. *)
Ltac struct_ok := first [exact I|split; [cbn [f_kind f_get]|struct_ok]].

Section Sendable.
Context `{TimeLaws}.

Lemma anthropic_request_ok req :
  k_ok ChatCompletionRequest_json req → k_ok anthropicRequest_json (anthropic_translateRequest req).
Proof.
  intros (Hm&Hmsgs&Ht&Hp&Hn&_&Hstop&Hmax&_). unfold anthropic_translateRequest. rewrite split_messages_spec.
  assert (Forall (λ s, utf8_valid 0 s = true) (Content <$> filter (λ m, Role m = "system") (rq_Messages req))) as Hsys.
  { apply Forall_fmap, Forall_kept. eapply Forall_impl; [exact Hmsgs|]. intros m Hok. apply Hok. }
  struct_ok; try done; cbn [ar_Messages ar_System ar_MaxTokens ar_StopSequences].
  - apply Forall_fmap, Forall_kept. eapply Forall_impl; [exact Hmsgs|]. intros m (Hr&Hc&_). by struct_ok.
  - destruct (0 <? _)%nat; [|done]. by apply utf8_valid_Join.
  - simpl in Hmax. destruct (rq_MaxTokens req); [done|]. vm_compute. by split.
  - destruct (0 <? _)%nat; [exact Hstop|constructor].
Qed.

Lemma google_request_ok req :
  k_ok ChatCompletionRequest_json req → k_ok geminiRequest_json (google_translateRequest req).
Proof.
  intros (Hm&Hmsgs&Ht&Hp&Hn&_&Hstop&Hmax&_). unfold google_translateRequest. rewrite gemini_split_spec.
  struct_ok; try done; cbn [gr_Contents gr_SystemInstruction gr_GenerationConfig].
  - apply Forall_fmap, Forall_kept. eapply Forall_impl; [exact Hmsgs|]. intros m (Hr&Hc&_). struct_ok; try done.
    + cbn. unfold gemini_role. by case_bool_decide.
    + by repeat constructor.
  - destruct (0 <? _)%nat; [|done]. struct_ok. apply Forall_fmap, Forall_kept.
    eapply Forall_impl; [exact Hmsgs|]. intros m (Hr&Hc&_). by struct_ok.
  - destruct (_ || _); [|done]. by struct_ok.
Qed.

Lemma openai_request_ok req b :
  k_ok ChatCompletionRequest_json req → k_ok openaiRequest_json (flattened (mkOpenaiRequest req b)).
Proof. intros (Hm&Hmsgs&Ht&Hp&Hn&_&Hstop&Hmax&Hpp&Hfp&Hu&_). by struct_ok. Qed.

Lemma set_stream_ok b r : k_ok anthropicRequest_json r → k_ok anthropicRequest_json (set_stream b r).
Proof. intros (H1&H2&H3&H4&H5&H6&H7&_). by struct_ok. Qed.

Lemma set_Model_ok m req :
  utf8_valid 0 m = true → k_ok ChatCompletionRequest_json req → k_ok ChatCompletionRequest_json (set_Model m req).
Proof. intros Hm (_&H2&H3&H4&H5&H6&H7&H8&H9&H10&H11&_). by struct_ok. Qed.

Lemma set_Stream_ok b req :
  k_ok ChatCompletionRequest_json req → k_ok ChatCompletionRequest_json (set_Stream b req).
Proof. intros (H1&H2&H3&H4&H5&_&H7&H8&H9&H10&H11&_). by struct_ok. Qed.

(** What is marshalled is read back from the text that was sent. *)
Lemma marshaled_reads {A} (k : kind A) a :
  kind_laws k → is_doc k = true → k_ok k a →
  ∃ s, marshaled (marshal_as k a) = inr s ∧ unmarshal_as k s = inr a.
Proof.
  intros Hk Hd Ha. destruct (as_roundtrip k Hk Hd a Ha) as (s&Hm&_&Hu&_). exists s. rewrite Hm.
  split; [done|]. specialize (Hu "" eq_refl). by rewrite app_nil_r_str in Hu.
Qed.

Lemma openai_chat_compatible : compatible openaiRequest_json ChatCompletionRequest_json.
Proof. split; [apply (bool_decide_eq_true_1 _); vm_compute; reflexivity|]. repeat constructor. Qed.

(** The request the OpenAI adapter sends, as a chat request. *)
Lemma openai_as_chat r : convert openaiRequest_json ChatCompletionRequest_json r = r.
Proof.
  pose proof (kl_of _ (k_list_laws _ Message_json_laws)) as Hm.
  pose proof (kl_of _ (k_list_laws _ k_string_laws)) as Hs.
  pose proof (kl_of _ (k_ptr_laws k_float eq_refl k_float_laws)) as Hf.
  pose proof (kl_of _ (k_ptr_laws k_int eq_refl k_int_laws)) as Hi.
  destruct r as [m msgs t p n st stop mx pp fp u].
  transitivity (mkRequest m (k_of (k_list Message_json) (k_to (k_list Message_json) msgs))
    (k_of (k_ptr k_float) (k_to (k_ptr k_float) t)) (k_of (k_ptr k_float) (k_to (k_ptr k_float) p))
    (k_of (k_ptr k_int) (k_to (k_ptr k_int) n)) st (k_of (k_list k_string) (k_to (k_list k_string) stop))
    (k_of (k_ptr k_int) (k_to (k_ptr k_int) mx)) (k_of (k_ptr k_float) (k_to (k_ptr k_float) pp))
    (k_of (k_ptr k_float) (k_to (k_ptr k_float) fp)) u); [reflexivity|].
  by rewrite Hm, Hs, !Hf, !Hi.
Qed.
End Sendable.

(** C9: every accepted request can be sent.  Whatever body was decoded, the
    request, with the model the router chose, is marshalled by each adapter,
    streaming or not, without an error, and a service that reads the fields
    gets exactly the translated request; another gateway that the OpenAI
    adapter sends it to decodes the very same request. *)
Theorem requests_sendable `{TimeLaws} (jerr_text : jerr → string) (b : Body) (req : ChatCompletionRequest)
    (m : string) (stream : bool) (Hreq : decode_chat jerr_text b = DOk req) (Hm : utf8_valid 0 m = true) :
  let req := set_Model m req in
  let a := set_stream stream (anthropic_translateRequest req) in
  let g := google_translateRequest req in
  (∃ s, anthropic_marshal a = inr s ∧ unmarshal_as anthropicRequest_json s = inr a) ∧
  (∃ s, google_marshal g = inr s ∧ unmarshal_as geminiRequest_json s = inr g) ∧
  (∃ s, openai_marshal (mkOpenaiRequest req stream) = inr s ∧
     unmarshal_as openaiRequest_json s = inr (set_Stream stream req) ∧
     (strlen s ≤ maxRequestBodySize → decode_chat jerr_text (Reader s None) = DOk (set_Stream stream req))).
Proof.
  apply decode_chat_ok in Hreq. apply (set_Model_ok m) in Hreq; [|done]. cbv zeta. revert Hreq.
  generalize (set_Model m req). clear req Hm. intros req Hreq. split_and!.
  - apply marshaled_reads; [eauto with kinds|vm_compute; reflexivity|]. by apply set_stream_ok, anthropic_request_ok.
  - apply marshaled_reads; [eauto with kinds|vm_compute; reflexivity|]. by apply google_request_ok.
  - unfold openai_marshal. pose proof (openai_request_ok req stream Hreq) as Hok.
    change (set_Stream stream req) with (flattened (mkOpenaiRequest req stream)). revert Hok.
    generalize (flattened (mkOpenaiRequest req stream)). intros r Hok.
    destruct (as_cross openaiRequest_json ChatCompletionRequest_json) with (a := r) as (s&Hs&_&_&Hd);
      [eauto with kinds|vm_compute; reflexivity..|apply openai_chat_compatible|done|].
    destruct (marshaled_reads openaiRequest_json r) as (s'&Hs'&Hu); [eauto with kinds|vm_compute; reflexivity|done|].
    exists s'. split; [done|]. split; [done|]. rewrite Hs in Hs'. injection Hs' as <-. intros Hlen.
    unfold decode_chat. destruct (MaxBytesReader_prefix _ s "" None Hlen) as (rest&err&Hr).
    rewrite app_nil_r_str in Hr. by rewrite Hr, Hd, openai_as_chat.
Qed.

(** ** Answers of the providers *)

Section Sane1.
Context `{TimeText}.
Lemma anthropicContent_json_sane : kind_sane anthropicContent_json. Proof. struct_sane. Qed.
Lemma anthropicUsage_json_sane : kind_sane anthropicUsage_json. Proof. struct_sane. Qed.
Lemma textDelta_json_sane : kind_sane textDelta_json. Proof. struct_sane. Qed.
Lemma stopDelta_json_sane : kind_sane stopDelta_json. Proof. struct_sane. Qed.
Lemma outputUsage_json_sane : kind_sane outputUsage_json. Proof. struct_sane. Qed.
Lemma geminiPart_json_sane : kind_sane geminiPart_json. Proof. struct_sane. Qed.
Lemma geminiUsageMetadata_json_sane : kind_sane geminiUsageMetadata_json. Proof. struct_sane. Qed.
End Sane1.
#[export] Hint Resolve anthropicContent_json_sane anthropicUsage_json_sane textDelta_json_sane
  stopDelta_json_sane outputUsage_json_sane geminiPart_json_sane geminiUsageMetadata_json_sane : kinds.

Section Sane2.
Context `{TimeText}.
Lemma anthropicResponse_json_sane : kind_sane anthropicResponse_json. Proof. struct_sane. Qed.
Lemma contentBlockDeltaEvent_json_sane : kind_sane contentBlockDeltaEvent_json. Proof. struct_sane. Qed.
Lemma messageDeltaEvent_json_sane : kind_sane messageDeltaEvent_json. Proof. struct_sane. Qed.
Lemma geminiContent_json_sane : kind_sane geminiContent_json. Proof. struct_sane. Qed.
End Sane2.
#[export] Hint Resolve anthropicResponse_json_sane contentBlockDeltaEvent_json_sane messageDeltaEvent_json_sane
  geminiContent_json_sane : kinds.

Section Sane3.
Context `{TimeText}.
Lemma messageStartEvent_json_sane : kind_sane messageStartEvent_json. Proof. struct_sane. Qed.
Lemma geminiCandidate_json_sane : kind_sane geminiCandidate_json. Proof. struct_sane. Qed.
End Sane3.
#[export] Hint Resolve messageStartEvent_json_sane geminiCandidate_json_sane : kinds.

Section Sane4.
Context `{TimeText}.
Lemma geminiResponse_json_sane : kind_sane geminiResponse_json. Proof. struct_sane. Qed.
End Sane4.
#[export] Hint Resolve geminiResponse_json_sane : kinds.

Lemma hex_digit_ascii n : (n < 16)%nat → byte_val (hex_digit n) < 128.
Proof. intros Hn. do 16 (destruct n as [|n]; [vm_compute; reflexivity|]). lia. Qed.

Lemma hex_bytes_valid b : Forall (λ n, (n < 256)%nat) b → utf8_valid 0 (hex_bytes b) = true.
Proof.
  induction 1 as [|n b Hn _ IH]; [done|]. change (hex_bytes (n :: b)) with
    (String (hex_digit (n / 16)) (String (hex_digit (n mod 16)) (hex_bytes b))).
  apply utf8_valid_cons; [apply hex_digit_ascii, Nat.Div0.div_lt_upper_bound; lia|].
  apply utf8_valid_cons; [apply hex_digit_ascii, Nat.mod_upper_bound; lia|done].
Qed.

Lemma generateID_valid b : Forall (λ n, (n < 256)%nat) b → utf8_valid 0 (generateID b) = true.
Proof.
  intros Hb. unfold generateID, slice.
  repeat (apply utf8_valid_app; [first [done|by apply hex_bytes_valid, Forall_take, Forall_drop]|]).
  by apply hex_bytes_valid, Forall_take, Forall_drop.
Qed.

Lemma parts_text_valid ps : Forall (k_ok geminiPart_json) ps → utf8_valid 0 (parts_text ps) = true.
Proof.
  intros Hps. rewrite parts_text_join. apply utf8_valid_Join; [|done]. apply Forall_fmap.
  eapply Forall_impl; [exact Hps|]. intros p Hp. apply Hp.
Qed.

Lemma in64_index {A} (l : list A) i x : Z.of_nat (length l) ≤ 2 ^ 63 → l !! i = Some x → in64 (Z.of_nat i).
Proof. intros Hl Hi%lookup_lt_Some. unfold in64, min64, max64. lia. Qed.

(** The decoded candidates, by position. *)
Lemma candidates_ok {A} (k : kind A) (f : nat → geminiCandidate → A) cs :
  Z.of_nat (length cs) ≤ 2 ^ 63 → Forall (k_ok geminiCandidate_json) cs →
  (∀ i c, in64 (Z.of_nat i) → k_ok geminiCandidate_json c → k_ok k (f i c)) →
  Forall (k_ok k) (elems (appended (imap f cs))).
Proof.
  intros Hlen Hcs Hf. rewrite elems_appended. apply Forall_lookup. intros i x Hx. rewrite list_lookup_imap in Hx.
  apply fmap_Some in Hx as (c&Hc&->). apply Hf; [by eapply in64_index|]. by eapply Forall_lookup_1.
Qed.

Lemma text_parts_valid cs acc :
  Forall (k_ok anthropicContent_json) cs → Forall (λ s, utf8_valid 0 s = true) acc →
  Forall (λ s, utf8_valid 0 s = true)
    (foldl (λ acc c, if bool_decide (an_Type c = "text") then acc ++ [an_Text c] else acc) acc cs).
Proof.
  intros Hcs. revert acc. induction Hcs as [|c cs (_&Ht&_) _ IH]; intros acc Hacc; [done|]. cbn [foldl]. apply IH.
  case_bool_decide; [|done]. apply Forall_app. split; [done|]. by constructor.
Qed.

Section Answers.
Context `{TimeText} (jerr_text : jerr → string).

Lemma anthropic_response_ok unix resp :
  in64 unix → k_ok anthropicResponse_json resp → k_ok ChatCompletionResponse_json (anthropic_translateResponse unix resp).
Proof.
  intros Hu (Hid&_&_&Hc&Hm&Hstop&_&(Hin&Hout&_)&_). unfold anthropic_translateResponse. struct_ok; try done.
  - constructor; [|constructor]. struct_ok; try done.
    + struct_ok; try done. cbn. apply utf8_valid_Join; [|done]. cbn in Hc.
      by apply text_parts_valid; [|constructor].
    + cbn. unfold mapStopReason. by repeat case_bool_decide.
  - struct_ok; try done. apply wrap64_in64.
Qed.

Lemma google_response_ok b unix resp m :
  Forall (λ n, (n < 256)%nat) b → in64 unix → utf8_valid 0 m = true →
  Z.of_nat (length (gq_Candidates resp)) ≤ 2 ^ 63 → k_ok geminiResponse_json resp →
  k_ok ChatCompletionResponse_json (google_translateResponse b unix resp m).
Proof.
  intros Hb Hu Hm Hlen (Hcs&Husage&_). unfold google_translateResponse. struct_ok; try done.
  - by apply generateID_valid.
  - apply candidates_ok; [done|exact Hcs|]. intros i c Hi ((_&Hp&_)&_). struct_ok; try done.
    + struct_ok; try done. by apply parts_text_valid.
    + cbn. unfold mapFinishReason. by repeat case_bool_decide.
  - cbn in Husage |- *. destruct (gq_UsageMetadata resp); [done|]. by struct_ok; vm_compute.
Qed.

Lemma google_chunk_ok unix resp id m :
  in64 unix → utf8_valid 0 id = true → utf8_valid 0 m = true →
  Z.of_nat (length (gq_Candidates resp)) ≤ 2 ^ 63 → k_ok geminiResponse_json resp →
  k_ok ChatCompletionChunk_json (google_translateChunk unix resp id m).
Proof.
  intros Hu Hid Hm Hlen (Hcs&Husage&_). unfold google_translateChunk. struct_ok; try done.
  - apply candidates_ok; [done|exact Hcs|]. intros i c Hi ((_&Hp&_)&_). struct_ok; try done.
    + struct_ok; try done. by apply parts_text_valid.
    + cbn. case_bool_decide; [done|]. unfold mapFinishReason. by repeat case_bool_decide.
  - cbn in Husage |- *. by destruct (gq_UsageMetadata resp).
Qed.

Lemma decode_body_ok {A} (k : kind A) body err a : kind_sane k → decode_body jerr_text k body err = inr a → k_ok k a.
Proof.
  intros Hk. unfold decode_body. destruct (decode_as k body err) as [[e|e]|x] eqn:E; [done..|]. intros [= <-].
  by eapply (proj2 (as_sane k Hk)).
Qed.

Lemma decode_event_ok {A} (k : kind A) data a : kind_sane k → decode_event jerr_text k data = inr a → k_ok k a.
Proof.
  intros Hk. unfold decode_event, or_json. destruct (unmarshal_as k data) as [e|x] eqn:E; [done|]. intros [= <-].
  by eapply (proj1 (as_sane k Hk)).
Qed.

(** An event whose chunk is well formed. *)
Definition printable_ok (evt : StreamEvent) : Prop :=
  ∀ c, Chunk evt = Some c → Z.of_nat (length (elems (ck_Choices c))) ≤ 2 ^ 63 → k_ok ChatCompletionChunk_json c.

Definition astream_ok (st : AStream) : Prop :=
  utf8_valid 0 (msgID st) = true ∧ utf8_valid 0 (msgModel st) = true ∧ in64 (inputTokens st).

Lemma anthropic_line_ok clock st line :
  let step := anthropic_line (decode_event jerr_text messageStartEvent_json)
    (decode_event jerr_text contentBlockDeltaEvent_json) (decode_event jerr_text messageDeltaEvent_json) clock in
  (∀ i, in64 (clock i)) → astream_ok st →
  astream_ok (step st line).1 ∧ ∀ evt, (step st line).2 = ASend evt → printable_ok evt.
Proof.
  cbv zeta. intros Hu Hst. specialize (Hu (reads st)). pose proof Hst as (Hid&Hm&Hin). unfold anthropic_line.
  destruct (CutPrefix "event: " line); [done|]. destruct (CutPrefix "data: " line) as [data|]; [|done].
  repeat case_bool_decide; try done.
  - destruct (decode_event _ _ _) as [e|ev] eqn:E; [done|]. split; [|done].
    apply decode_event_ok in E as (_&(?&_&_&_&?&_&_&(?&_)&_)&_); [done|eauto with kinds].
  - destruct (decode_event _ _ _) as [e|ev] eqn:E; [done|]. destruct (negb _); [done|]. split; [done|].
    intros evt [= <-] c [= <-] _. apply decode_event_ok in E as (_&_&(_&Ht&_)&_); [|eauto with kinds].
    struct_ok; try done. constructor; [|constructor]. by struct_ok; [|struct_ok|].
  - destruct (decode_event _ _ _) as [e|ev] eqn:E; [done|]. split; [done|].
    intros evt [= <-] c [= <-] _. apply decode_event_ok in E as (_&(Hs&_)&(Ho&_)&_); [|eauto with kinds].
    struct_ok; try done.
    + constructor; [|constructor]. struct_ok; [done|by struct_ok|]. cbn. unfold mapStopReason. by repeat case_bool_decide.
    + cbn. struct_ok; try done. apply wrap64_in64.
Qed.

Lemma openai_line_ok st line evt :
  (openai_line (decode_event jerr_text ChatCompletionChunk_json) st line).2 = ASend evt → printable_ok evt.
Proof.
  unfold openai_line. cbn [snd]. destruct (negb _); [done|]. case_bool_decide; [done|].
  destruct (decode_event _ _ _) as [|x] eqn:E; [done|]. intros [= <-] c [= <-] _.
  apply decode_event_ok in E; [done|eauto with kinds].
Qed.

Lemma google_line_ok clock id m st line evt :
  (∀ i, in64 (clock i)) → utf8_valid 0 id = true → utf8_valid 0 m = true →
  (google_line (decode_event jerr_text geminiResponse_json) clock id m st line).2 = ASend evt → printable_ok evt.
Proof.
  intros Hu Hid Hm. unfold google_line. cbn [snd]. destruct (negb _); [done|].
  destruct (decode_event _ _ _) as [|x] eqn:E; [done|]. intros [= <-] c [= <-] Hlen.
  apply google_chunk_ok; [done..| |apply decode_event_ok in E; [done|eauto with kinds]].
  cbn [ck_Choices google_translateChunk] in Hlen. by rewrite elems_appended, length_imap in Hlen.
Qed.
End Answers.

(** The value is printed, and reads back unchanged. *)
Definition prints `{TimeText} {A} (k : kind A) (a : A) : Prop :=
  ∃ s, marshal_as k a = Some s ∧ unmarshal_as k s = inr a.

(** An event the stream handler can print. *)
Definition printable `{TimeText} (evt : StreamEvent) : Prop :=
  ∀ c, Chunk evt = Some c → Z.of_nat (length (elems (ck_Choices c))) ≤ 2 ^ 63 → prints ChatCompletionChunk_json c.

(** The decoded values are well formed. *)
Lemma answers_ok `{TimeText} (jerr_text : jerr → string) (net : Net_) (p : AdapterConfig)
    (b : list nat) (unix : Z) (clock : nat → Z) (req : ChatCompletionRequest)
    (stop : option (nat * bool)) (Hb : Forall (λ n, (n < 256)%nat) b) (Hunix : in64 unix)
    (Hclock : ∀ i, in64 (clock i)) (Hm : utf8_valid 0 (rq_Model req) = true) :
  (∀ resp, resp ∈ [openai_chat jerr_text net p req; anthropic_chat jerr_text net unix p req;
                   google_chat jerr_text net b unix p req] →
     ∀ r, resp = inr r → Z.of_nat (length (elems (rs_Choices r))) ≤ 2 ^ 63 →
       k_ok ChatCompletionResponse_json r) ∧
  (∀ evts, evts ∈ [openai_stream_chat jerr_text net p req stop; anthropic_stream_chat jerr_text net clock p req stop;
                   google_stream_chat jerr_text net b clock p req stop] →
     ∀ es, evts = inr es → Forall printable_ok es).
Proof.
  split.
  - intros resp Hin r -> Hlen. rewrite !elem_of_cons, elem_of_nil in Hin. destruct Hin as [Hr|[Hr|[Hr|[]]]]; symmetry in Hr.
    + unfold openai_chat, openai_ChatCompletion in Hr. destruct (exchange _ _ _ _ _) as [|h]; [done|].
      destruct (decode_body _ _ _ _) as [|x] eqn:E; [done|]. injection Hr as <-.
      apply decode_body_ok in E; [done|eauto with kinds].
    + unfold anthropic_chat, anthropic_ChatCompletion in Hr. destruct (exchange _ _ _ _ _) as [|h]; [done|].
      destruct (decode_body _ _ _ _) as [|x] eqn:E; [done|]. injection Hr as <-.
      apply anthropic_response_ok; [done|]. apply decode_body_ok in E; [done|eauto with kinds].
    + unfold google_chat, google_ChatCompletion in Hr. destruct (exchange _ _ _ _ _) as [|h]; [done|].
      destruct (decode_body _ _ _ _) as [|x] eqn:E; [done|]. injection Hr as <-.
      apply google_response_ok; [done..| |apply decode_body_ok in E; [done|eauto with kinds]].
      cbn [rs_Choices google_translateResponse] in Hlen. by rewrite elems_appended, length_imap in Hlen.
  - intros evts Hin es ->. rewrite !elem_of_cons, elem_of_nil in Hin. destruct Hin as [Hr|[Hr|[Hr|[]]]]; symmetry in Hr.
    + unfold openai_stream_chat, openai_ChatCompletionStream in Hr. destruct (exchange _ _ _ _ _) as [|h]; [done|].
      destruct (scan_lines _ _) as [lines e]. injection Hr as <-. apply (pump_Forall _ _ (λ _, True)); [|done|done].
      intros st line _. split; [done|]. intros evt. apply openai_line_ok.
    + unfold anthropic_stream_chat, anthropic_ChatCompletionStream in Hr. destruct (exchange _ _ _ _ _) as [|h]; [done|].
      destruct (scan_lines _ _) as [lines e]. injection Hr as <-. apply (pump_Forall _ _ astream_ok); [|done|done].
      intros st line. by apply anthropic_line_ok.
    + unfold google_stream_chat, google_ChatCompletionStream in Hr. destruct (exchange _ _ _ _ _) as [|h]; [done|].
      destruct (scan_lines _ _) as [lines e]. injection Hr as <-. apply (pump_Forall _ _ (λ _, True)); [|done|done].
      intros st line _. split; [done|]. intros evt. apply google_line_ok; [done|by apply generateID_valid|done].
Qed.

Lemma prints_ok `{TimeLaws} {A} (k : kind A) a : kind_laws k → is_doc k = true → k_ok k a → prints k a.
Proof.
  intros Hk Hd Ha. destruct (marshaled_reads k a Hk Hd Ha) as (s&Hs&Hu). exists s. split; [|done].
  unfold marshaled in Hs. destruct (marshal_as k a); [|done]. by injection Hs as ->.
Qed.

(** C18: every answer can be passed on.  Whatever bytes a service sends, a
    response or a chunk that one of the three adapters makes of them is printed
    without an error and reads back unchanged, so that the handlers' branches
    for a value that cannot be marshalled are never taken.  The random bytes, the clock and the routed model name are
    what the runtime supplies; a position in a list fits an int. *)
Theorem answers_printable `{TimeLaws} (jerr_text : jerr → string) (net : Net_) (p : AdapterConfig)
    (b : list nat) (unix : Z) (clock : nat → Z) (req : ChatCompletionRequest)
    (stop : option (nat * bool)) (Hb : Forall (λ n, (n < 256)%nat) b) (Hunix : in64 unix)
    (Hclock : ∀ i, in64 (clock i)) (Hm : utf8_valid 0 (rq_Model req) = true) :
  (∀ resp, resp ∈ [openai_chat jerr_text net p req; anthropic_chat jerr_text net unix p req;
                   google_chat jerr_text net b unix p req] →
     ∀ r, resp = inr r → Z.of_nat (length (elems (rs_Choices r))) ≤ 2 ^ 63 →
       prints ChatCompletionResponse_json r) ∧
  (∀ evts, evts ∈ [openai_stream_chat jerr_text net p req stop; anthropic_stream_chat jerr_text net clock p req stop;
                   google_stream_chat jerr_text net b clock p req stop] →
     ∀ es, evts = inr es → Forall printable es).
Proof.
  destruct (answers_ok jerr_text net p b unix clock req stop Hb Hunix Hclock Hm) as [Hchat Hstream]. split.
  - intros resp Hin r Hr Hlen. apply prints_ok; [eauto with kinds|vm_compute; reflexivity|]. by eapply Hchat.
  - intros evts Hin es Hes. eapply Forall_impl; [by eapply Hstream|]. intros evt Hevt c Hc Hlen.
    apply prints_ok; [eauto with kinds|vm_compute; reflexivity|]. by apply Hevt.
Qed.

(** ** Usage *)

Lemma response_usage_compatible : compatible ChatCompletionResponse_json parsedUsage_json.
Proof. split; [apply (bool_decide_eq_true_1 _); vm_compute; reflexivity|]. repeat constructor. Qed.

Lemma usage_of_response r : convert ChatCompletionResponse_json parsedUsage_json r = rs_Usage r.
Proof. by destruct r as [id ob cr m ch [p c t] fp]. Qed.

Section Usage.
Context `{TimeLaws}.

(** The headers of a chat answer leave the content type alone. *)
Lemma routing_content_type d w ops :
  first_status (setRoutingHeaders d ++ OWrite ops :: []) w =
    Some (200, w_hdr (wrun w (setRoutingHeaders d))) ∧
  Header_Get (w_hdr (wrun w (setRoutingHeaders d))) "Content-Type" = Header_Get (w_hdr w) "Content-Type".
Proof.
  unfold setRoutingHeaders. case_bool_decide; (split; [reflexivity|]); unfold Header_Get, wrun; cbn [app foldl wstep w_hdr];
    rewrite !lookup_insert_ne by (vm_compute; discriminate); reflexivity.
Qed.

(** What a client and the rate limiter read in the body of an answer. *)
Lemma answer_recorded (w0 : Writer) (d : Decision) (resp : ChatCompletionResponse) :
  k_ok ChatCompletionResponse_json resp →
  let total := TotalTokens (rs_Usage resp) in
  let ops := [OSet "Content-Type" "application/json"] ++ setRoutingHeaders d ++ [OWrite (encode_payload (PChat resp))] in
  body_of ops = encode_payload (PChat resp) ∧
  unmarshal_as ChatCompletionResponse_json (body_of ops) = inr resp ∧
  (finish parse_total (cw_run w0 ops)).1 =
    (if (0 <? total) && (strlen (body_of ops) <=? captureBodyLimit) then Some total else None).
Proof.
  cbv zeta. intros Hok.
  destruct (as_roundtrip _ ChatCompletionResponse_json_laws ltac:(vm_compute; reflexivity) resp Hok) as (t&Ht&He&Hr&_).
  destruct (as_cross _ parsedUsage_json ChatCompletionResponse_json_laws ltac:(vm_compute; reflexivity)
    ltac:(vm_compute; reflexivity) response_usage_compatible resp Hok) as (t'&Ht'&_&Hu&_).
  rewrite Ht in Ht'. injection Ht' as <-. rewrite usage_of_response in Hu.
  change (encode_payload (PChat resp)) with (encode_as ChatCompletionResponse_json resp). rewrite He.
  set (body := t +:+ String (ascii_of_nat 10) "").
  assert (body_of ([OSet "Content-Type" "application/json"] ++ setRoutingHeaders d ++ [OWrite body]) = body) as Hb.
  { unfold setRoutingHeaders. case_bool_decide; cbn [app body_of foldr]; apply app_nil_r_str. }
  rewrite Hb. split; [done|]. split; [by apply Hr|]. set (ops := _ ++ _ ++ _) in *.
  apply option_eq. intros n. rewrite records_usage. unfold recorded_spec. rewrite Hb.
  destruct (routing_content_type d (wstep w0 (OSet "Content-Type" "application/json")) body) as [Hf Hct].
  assert (parse_total body = Some (TotalTokens (rs_Usage resp))) as Hp.
  { unfold parse_total, body. by rewrite (Hu (String (ascii_of_nat 10) "") eq_refl). }
  change (first_status ops w0) with
    (first_status (setRoutingHeaders d ++ [OWrite body]) (wstep w0 (OSet "Content-Type" "application/json"))).
  rewrite Hf, Hp. split.
  - intros (st&h&[= <- <-]&_&_&_&Hlen&[= <-]&Hpos).
    by rewrite (proj2 (Z.ltb_lt _ _) Hpos), (proj2 (Z.leb_le _ _) Hlen).
  - destruct (Z.ltb_spec 0 (TotalTokens (rs_Usage resp))); [|done]. destruct (Z.leb_spec (strlen body) captureBodyLimit); [|done].
    intros [= <-]. do 2 eexists. split; [reflexivity|]. rewrite Hct. split_and!; try done; try lia.
    + unfold Header_Get. cbn [wstep w_hdr]. rewrite lookup_insert_eq. reflexivity.
    + unfold body. by destruct t.
Qed.

(** C8: tokens are charged for what was answered.  For every response a
    provider gives to a non-streaming request, the handler's body, read by a
    client, is that response; and the rate limiter, which reads only the usage
    out of the captured body, records exactly the response's total tokens, if
    they are positive and the body is at most 1 MiB, and nothing otherwise. *)
Theorem usage_charged {S P : Type} `{Gateway S P} (w0 : Writer) (p : P) (req : ChatCompletionRequest) (d : Decision) (o : Obs) (s s' : S)
    (resp : ChatCompletionResponse)
    (Hchat : gw_Chat p req s = (ROk resp, s')) (Hok : k_ok ChatCompletionResponse_json resp) :
  let total := TotalTokens (rs_Usage resp) in
  ∃ ops o', handleNonStream encode_payload p req d o s = (Done ops, o', s') ∧
    unmarshal_as ChatCompletionResponse_json (body_of ops) = inr resp ∧
    (finish parse_total (cw_run w0 ops)).1 =
      (if (0 <? total) && (strlen (body_of ops) <=? captureBodyLimit) then Some total else None).
Proof.
  cbv zeta. unfold handleNonStream. rewrite Hchat. do 2 eexists. split; [reflexivity|]. by apply answer_recorded.
Qed.
End Usage.

(** ** Streams *)

Lemma frames_wire (ds : list (string * ChatCompletionChunk)) rest :
  frames (ds.*1 ++ rest) = wire (data_lines ds) +:+ frames rest.
Proof.
  rewrite frames_app. f_equal. induction ds as [|[d c] ds IH]; [done|]. cbn [fmap list_fmap fst].
  change (frames (d :: ds.*1)) with (sse d +:+ frames ds.*1).
  change (wire (data_lines ((d, c) :: ds))) with
    (("data: " +:+ d) +:+ String nl ("" +:+ String nl (wire (data_lines ds)))).
  fold (list_fmap _ _ (@fst string ChatCompletionChunk) ds). rewrite IH. unfold sse. by rewrite !app_assoc_str.
Qed.

Lemma wire_app ls ls' : wire (ls ++ ls') = wire ls +:+ wire ls'.
Proof. induction ls as [|l ls IH]; [done|]. cbn [app wire foldr]. unfold wire in *. rewrite IH, app_assoc_str. done. Qed.

Lemma graphic_line s : str_all graphic s = true → strlen s < maxToken → good_line s.
Proof.
  intros Hs Hl. split; [|done]. eapply str_all_impl; [|exact Hs]. intros a Ha.
  destruct (Ascii.eqb_spec a nl) as [->|]; [done|]. by destruct (Ascii.eqb_spec a cr) as [->|].
Qed.

Section Relay.
Context `{TimeLaws} (jerr_text : jerr → string) {S P : Type} `{Gateway S P}.

(** The text of a chunk: one line that is not the marker, and reads back. *)
Lemma chunk_text c t :
  k_ok ChatCompletionChunk_json c → marshal_as ChatCompletionChunk_json c = Some t →
  t ≠ "[DONE]" ∧ unmarshal_as ChatCompletionChunk_json t = inr c ∧ str_all graphic t = true.
Proof.
  intros Hc Ht.
  destruct (marshal_as_line _ ChatCompletionChunk_json_laws ltac:(vm_compute; reflexivity) c t Hc Ht) as [Hg [u Hu]].
  destruct (marshaled_reads _ c ChatCompletionChunk_json_laws ltac:(vm_compute; reflexivity) Hc) as (t'&Ht'&Hr).
  rewrite Ht in Ht'. injection Ht' as <-. split; [by rewrite Hu|done].
Qed.

(** The text of a chunk fits the line buffer of the reader. *)
Definition fits_line (c : ChatCompletionChunk) : Prop :=
  ∀ s, marshal_as ChatCompletionChunk_json c = Some s → strlen ("data: " +:+ s) < maxToken.

Lemma forwarded_chunks cs tail :
  Forall (k_ok ChatCompletionChunk_json) cs → (tail = [] ∨ ∃ e rest, tail = fail_event e :: rest) →
  ∃ ds, ds.*2 = cs ∧ forwarded marshal_chunk ((chunk_event <$> cs) ++ tail) = ds.*1 ∧
    Forall (λ d, marshal_as ChatCompletionChunk_json d.2 = Some d.1) ds.
Proof.
  intros Hcs Htail. induction Hcs as [|c cs Hc _ (ds&Hds&Hf&Hm)].
  { exists []. by destruct Htail as [->|(e&rest&->)]. }
  destruct (as_roundtrip _ ChatCompletionChunk_json_laws ltac:(vm_compute; reflexivity) c Hc) as (s&Hs&_).
  exists ((s, c) :: ds). split; [by rewrite <-Hds|]. split; [|by constructor].
  cbn [fmap list_fmap app forwarded]. cbn [chunk_event Err Chunk marshal_chunk]. by rewrite Hs, Hf.
Qed.

Lemma data_lines_good ds :
  Forall (λ d, marshal_as ChatCompletionChunk_json d.2 = Some d.1) ds →
  Forall (k_ok ChatCompletionChunk_json) ds.*2 → Forall fits_line ds.*2 → Forall good_line (data_lines ds).
Proof.
  rewrite !Forall_fmap. intros Hm Hok Hfit. induction ds as [|[t c] ds IH]; [constructor|].
  apply Forall_cons in Hm as [Ht Hm], Hok as [Hc Hok], Hfit as [Hl Hfit]. cbn [compose fst snd] in Ht, Hc, Hl.
  change (data_lines ((t, c) :: ds)) with (("data: " +:+ t) :: "" :: data_lines ds).
  constructor; [|constructor; [by split|by apply IH]]. apply graphic_line; [|by apply Hl]. rewrite str_all_app.
  by destruct (chunk_text c t Hc Ht) as (_&_&->).
Qed.

(** C17: streams compose.  When a provider's stream carries the chunks [cs],
    then ends or fails, the body the gateway serves, read by the OpenAI adapter
    of another gateway, is delivered as exactly the chunks [cs], in order; a
    failure after them is not visible there, since the DONE marker is sent in
    either case. *)
Theorem stream_relayed (p : P) (req : ChatCompletionRequest) (d : Decision) (o : Obs) (s s' : S)
    (cs : list ChatCompletionChunk) (tail : list StreamEvent)
    (Hopen : gw_Stream p req s = (ROk ((chunk_event <$> cs) ++ tail), s'))
    (Htail : tail = [] ∨ ∃ e rest, tail = fail_event e :: rest)
    (Hcs : Forall (λ c, k_ok ChatCompletionChunk_json c ∧ fits_line c) cs) :
  ∃ ops o', handleStream encode_payload marshal_chunk true false p req d o s = (Done ops, o', s') ∧
    ∀ net cfg req', k_ok ChatCompletionRequest_json req' → (∀ url, nt_newRequest net url = None) →
      (∀ rq, nt_Do net rq = inr (mkHTTPResp 200 "" (serve_ops ops).2 None)) →
      openai_stream_chat jerr_text net cfg req' None = inr (chunk_event <$> cs).
Proof.
  destruct (handleStream_ok encode_payload marshal_chunk false p req d o s s' _ Hopen) as (ops&o'&Hh&Hserve).
  exists ops, o'. split; [done|]. rewrite Hserve. clear Hserve. intros net cfg req' Hreq Hnew Hdo.
  apply Forall_and in Hcs as [Hok Hfit].
  destruct (forwarded_chunks cs tail Hok Htail) as (ds&<-&Hf&Hm). rewrite Hf in Hdo. cbn [snd] in Hdo.
  unfold openai_stream_chat, openai_ChatCompletionStream, exchange.
  destruct (marshaled_reads openaiRequest_json _ openaiRequest_json_laws ltac:(vm_compute; reflexivity)
    (openai_request_ok req' true Hreq)) as (b&Hb&_).
  unfold openai_marshal. rewrite Hb, Hnew, Hdo. cbn [hp_StatusCode]. change (200 =? 200) with true.
  cbv iota. cbn [hp_Body hp_BodyErr]. rewrite frames_wire. change (frames ["[DONE]"]) with (wire ["data: [DONE]"; ""]).
  rewrite <-wire_app, scan_wire.
  - rewrite (pump_through _ _ _ _ _ tt (chunk_event <$> ds.*2)); [by rewrite app_nil_r|].
    apply openai_through. rewrite Forall_fmap in Hok. apply Forall_forall. intros [t c] Hd. cbn [fst snd].
    rewrite Forall_forall in Hm, Hok. specialize (Hm _ Hd). specialize (Hok _ Hd). cbn [compose fst snd] in Hm, Hok.
    destruct (chunk_text c t Hok Hm) as (Hne&Hr&_). split; [done|]. unfold decode_event. by rewrite Hr.
  - apply Forall_app. split; [|repeat constructor].
    by apply data_lines_good.
Qed.
End Relay.

(** ** Errors *)

Section ErrorDocuments.
Context `{TimeLaws} (jerr_text : jerr → string).

Definition error_doc (message errType code : string) : json :=
  JObj [("error", JObj ([("message", JStr (json_quote message)); ("type", JStr (json_quote errType))] ++
    (if bool_decide (code = "") then [] else [("code", JStr (json_quote code))])))].

Lemma error_body message errType code :
  encode_payload (PError (mkAPIError (mkErrorDetail message errType code))) =
    json_print (error_doc message errType code) +:+ newline.
Proof.
  unfold encode_payload, encode_as, Encode, Marshal, error_doc. cbn. by case_bool_decide.
Qed.

Lemma error_doc_text message errType code t :
  parse_json (json_print (error_doc message errType code) +:+ t) = POk (error_doc message errType code) t.
Proof.
  unfold error_doc. rewrite parse_print_top.
  - cbn [json_san map fst snd]. by case_bool_decide.
  - case_bool_decide; cbn; rewrite !str_run_quote; done.
  - apply Nat.leb_le. by case_bool_decide; vm_compute.
Qed.

Lemma sanitize_ne s : s ≠ "" → sanitize 0 s ≠ "".
Proof.
  destruct s as [|a t _|r t Hr] using rune_ind; [done| |].
  - intros _. cbn [sanitize]. destruct (rune_len _); [by destruct (sanitize 0 t)|done].
  - intros _. rewrite sanitize_rune by done. destruct r as [|b r]; [by destruct Hr|done].
Qed.

(** What a caller reads when the document does not speak: the start of the
    body, and the type the status suggests. *)
Definition raw_error (status : Z) (body : string) : string * string :=
  (str_take 200 body, openai_errorTypeFromStatus status).

(** The document, and all that can be read of it when it is cut off. *)
Lemma error_text_reads message errType code sp :
  str_all is_space sp = true →
  decode_error openaiErrorResponse_json (json_print (error_doc message errType code) +:+ sp) =
    Some (mkOpenaiErrorResponse (sanitize 0 message) (sanitize 0 errType) (sanitize 0 code)).
Proof.
  intros Hsp. unfold decode_error, unmarshal_as, Unmarshal, text_value. rewrite error_doc_text, Hsp.
  rewrite <-!unquote_quote. unfold error_doc. case_bool_decide as Hc; [rewrite Hc|]; reflexivity.
Qed.

Lemma cut_error_reads n message errType code :
  let doc := json_print (error_doc message errType code) in
  (0 < n)%nat →
  decode_error openaiErrorResponse_json (str_take n (doc +:+ newline)) =
    if (String.length doc <=? n)%nat
    then Some (mkOpenaiErrorResponse (sanitize 0 message) (sanitize 0 errType) (sanitize 0 code))
    else None.
Proof.
  cbv zeta. set (doc := json_print (error_doc message errType code)). intros Hn.
  destruct (Nat.leb_spec (String.length doc) n) as [Hle|Hgt].
  { rewrite str_take_app_ge by done. apply error_text_reads. by destruct (n - String.length doc)%nat as [|[|?]]. }
  assert (∃ q, doc +:+ newline = String "{" q) as [q Hq] by (eexists; reflexivity).
  pose proof (str_take_drop n (doc +:+ newline)) as Hcut. pose proof (str_take_length n (doc +:+ newline)) as Hlen.
  rewrite app_length in Hlen. unfold decode_error, unmarshal_as, Unmarshal.
  assert (str_take n (doc +:+ newline) = String "{" (str_take (pred n) q)) as Hhead.
  { rewrite Hq. destruct n as [|n]; [lia|done]. }
  rewrite Hhead in Hcut, Hlen |- *.
  destruct (cut_object (str_take (pred n) q) (str_drop n (doc +:+ newline)) (error_doc message errType code) newline)
    as [e ->]; [| |done].
  - unfold parse_json. rewrite Hcut. apply error_doc_text.
  - apply (f_equal String.length) in Hcut. rewrite !app_length in Hcut. change (String.length newline) with 1%nat in *. lia.
Qed.

(** The adapter reads 1 MiB of a body; all but its last byte, a newline, is the
    document. *)
Lemma limited_error_reads message errType code :
  let body := encode_payload (PError (mkAPIError (mkErrorDetail message errType code))) in
  decode_error openaiErrorResponse_json (limit_read body) =
    if strlen body <=? 2 ^ 20 + 1
    then Some (mkOpenaiErrorResponse (sanitize 0 message) (sanitize 0 errType) (sanitize 0 code))
    else None.
Proof.
  cbv zeta. rewrite error_body. unfold limit_read. set (doc := json_print (error_doc message errType code)).
  destruct (Z.leb_spec (strlen (doc +:+ newline)) (2 ^ 20)) as [Hle|Hgt].
  { rewrite (proj2 (Z.leb_le _ _)) by lia. by apply error_text_reads. }
  unfold doc. rewrite cut_error_reads by lia. fold doc. rewrite strlen_app. unfold strlen.
  change (Z.of_nat (String.length newline)) with 1.
  destruct (Nat.leb_spec (String.length doc) (Z.to_nat (2 ^ 20))), (Z.leb_spec (Z.of_nat (String.length doc) + 1) (2 ^ 20 + 1));
    first [done|lia].
Qed.

Lemma raw_body body :
  (if 200 <? strlen (limit_read body) then str_take 200 (limit_read body) else limit_read body) = str_take 200 body.
Proof.
  assert (str_take 200 (limit_read body) = str_take 200 body) as Ht.
  { unfold limit_read. destruct (_ <=? _); [done|]. apply str_take_take. lia. }
  destruct (Z.ltb_spec 200 (strlen (limit_read body))) as [Hb|Hb]; [done|].
  rewrite <-Ht. symmetry. apply str_take_all. unfold strlen in Hb. lia.
Qed.

(** The message and the type that reach the caller: those of the document, or,
    when its message is empty or it is longer than what is read, the start of
    the body and what the status suggests. *)
Definition relayed (status : Z) (errType message body : string) : string * string :=
  if bool_decide (message = "") || (2 ^ 20 + 1 <? strlen body)
  then (str_take 200 body, openai_errorTypeFromStatus status)
  else (sanitize 0 message, sanitize 0 errType).

(** The error the OpenAI adapter makes of such an answer. *)
Lemma openai_error_of_gateway net status errType code message after :
  let body := encode_payload (PError (mkAPIError (mkErrorDetail message errType code))) in
  let '(msg, ty) := relayed status errType message body in
  openai_handleErrorResponse (decode_error openaiErrorResponse_json) net (mkHTTPResp status after body None) =
    ErrProvider (mkProviderError status ty msg
      (openai_retryable status) (ParseRetryAfter (nt_lookupName net) (nt_now net) after)).
Proof.
  cbv zeta. destruct (relayed _ _ _ _) as [msg ty] eqn:Er. revert Er.
  unfold openai_handleErrorResponse, error_response, relayed. cbn [hp_Body hp_StatusCode hp_RetryAfter].
  rewrite limited_error_reads, raw_body. set (body := encode_payload _). rewrite Z.ltb_antisym.
  destruct (strlen body <=? 2 ^ 20 + 1); cbn [fmap option_fmap option_map oe_Message oe_Type negb].
  - rewrite orb_false_r. destruct (decide (message = "")) as [Hm|Hm].
    + rewrite !bool_decide_true by (by rewrite ?Hm). by intros [= <- <-].
    + rewrite !bool_decide_false by auto using sanitize_ne. by intros [= <- <-].
  - rewrite orb_true_r. by intros [= <- <-].
Qed.

(** C27: errors compose.  Every error answer of the gateway, whatever bytes its
    texts have, reaches the caller of the OpenAI adapter of another gateway
    with its status and its Retry-After delay, from both kinds of call.  Its
    message and type (malformed bytes replaced) are recovered too, unless the
    message is empty or the body is longer than the 1 MiB the adapter reads
    (and the newline that ends it): then the message is the first 200 bytes of
    the body and the type follows from the status. *)
Theorem error_relayed (net : Net_) (cfg : AdapterConfig) (req : ChatCompletionRequest) (stop : option (nat * bool))
    (status : Z) (errType code message after : string)
    (Hreq : k_ok ChatCompletionRequest_json req) (Hstatus : status ≠ 200)
    (Hnew : ∀ url, nt_newRequest net url = None)
    (Hdo : ∀ rq, nt_Do net rq =
       inr (mkHTTPResp status after (serve_ops (apierr_Write encode_payload status errType code message)).2 None)) :
  let body := (serve_ops (apierr_Write encode_payload status errType code message)).2 in
  let '(msg, ty) := relayed status errType message body in
  let e := ErrProvider (mkProviderError status ty msg
             (openai_retryable status) (ParseRetryAfter (nt_lookupName net) (nt_now net) after)) in
  openai_chat jerr_text net cfg req = inl e ∧ openai_stream_chat jerr_text net cfg req stop = inl e.
Proof.
  assert ((serve_ops (apierr_Write encode_payload status errType code message)).2 =
    encode_payload (PError (mkAPIError (mkErrorDetail message errType code)))) as Hbody.
  { unfold serve_ops. by rewrite serve_error. }
  rewrite Hbody in *. assert (∀ b, ∃ s, openai_marshal (mkOpenaiRequest req b) = inr s) as Hsend.
  { intros b. destruct (marshaled_reads openaiRequest_json _ openaiRequest_json_laws ltac:(vm_compute; reflexivity)
      (openai_request_ok req b Hreq)) as (s&Hs&_). eauto. }
  pose proof (openai_error_of_gateway net status errType code message after) as He.
  cbv zeta in *. destruct (relayed _ _ _ _) as [msg ty].
  rewrite <-He. unfold openai_chat, openai_ChatCompletion, openai_stream_chat, openai_ChatCompletionStream, exchange.
  destruct (Hsend false) as [s1 ->], (Hsend true) as [s2 ->]. rewrite !Hnew, !Hdo. cbn [hp_StatusCode].
  by rewrite (proj2 (Z.eqb_neq _ _) Hstatus).
Qed.
End ErrorDocuments.

(** ** Admin bodies *)

(** A printed create request is decoded to itself. *)
Lemma create_body_decoding `{TimeLaws} req :
  k_ok CreateKeyRequest_json req → ∃ s, marshal_as CreateKeyRequest_json req = Some s ∧
    (strlen s ≤ adminBodyLimit → ∀ rest err, decode_create (Reader (s +:+ rest) err) = Some req).
Proof.
  intros Hreq.
  destruct (as_roundtrip _ CreateKeyRequest_json_laws ltac:(vm_compute; reflexivity) req Hreq) as (s&Hm&_&_&Hd).
  exists s. split; [done|]. intros Hs rest err. unfold decode_create.
  destruct (MaxBytesReader_prefix _ s rest err Hs) as (rest'&err'&->). by rewrite Hd.
Qed.

(** ** Witnesses *)

#[export] Instance no_times_laws : @TimeLaws no_times.
Proof. by split. Qed.

Definition demo_text : jerr → string := λ _, "bad json".
Definition demo_wire_req : ChatCompletionRequest :=
  mkRequest "m" [mkMessage "user" "hi <b>" ""] (Some (f64_of_dec false 7 (-1))) None None true [] None None None "".

Lemma chat_documents_roundtrip_witness :
  unmarshal_as (H := no_times) ChatCompletionRequest_json (dq (str_take 106 demo_json)) = inr demo_wire_req ∧
  ∃ s, marshal_as (H := no_times) ChatCompletionRequest_json demo_wire_req = Some s ∧
    unmarshal_as (H := no_times) ChatCompletionRequest_json s = inr demo_wire_req.
Proof.
  assert (unmarshal_as (H := no_times) ChatCompletionRequest_json (dq (str_take 106 demo_json)) = inr demo_wire_req)
    as Hu by (vm_compute; reflexivity).
  split; [exact Hu|].
  destruct (proj1 (chat_documents_roundtrip (H := no_times) (H0 := no_times_laws)) _ _ Hu) as (s&Hm&Hr&_).
  exists s. split; [exact Hm|exact Hr].
Defined.

Lemma chat_body_decoding_witness :
  k_ok ChatCompletionRequest_json demo_wire_req ∧
  decode_chat (H := no_times) demo_text (Reader (dq demo_json) None) = DOk demo_wire_req.
Proof.
  assert (decode_chat (H := no_times) demo_text (Reader (dq demo_json) None) = DOk demo_wire_req) as Hd
    by (vm_compute; reflexivity).
  split; [|exact Hd].
  destruct (chat_body_decoding (H := no_times) (H0 := no_times_laws) demo_text (Reader (dq demo_json) None)) as (_&Hok&_).
  exact (Hok _ Hd).
Defined.

Lemma requests_sendable_witness :
  ∃ s, openai_marshal (H := no_times) (mkOpenaiRequest (set_Model "gpt-4o" demo_wire_req) true) = inr s ∧
    (strlen s ≤ maxRequestBodySize →
     decode_chat (H := no_times) demo_text (Reader s None) = DOk (set_Stream true (set_Model "gpt-4o" demo_wire_req))).
Proof.
  destruct (requests_sendable (H := no_times) (H0 := no_times_laws) demo_text (Reader (dq demo_json) None) demo_wire_req
    "gpt-4o" true ltac:(vm_compute; reflexivity) ltac:(vm_compute; reflexivity)) as (_&_&s&Hs&_&Hd).
  exists s. split; [exact Hs|exact Hd].
Defined.

Definition demo_reply_text : string :=
  dq "{'id':'x','object':'chat.completion','created':1,'model':'m','choices':[],'usage':{'prompt_tokens':1,'completion_tokens':2,'total_tokens':3}}".
Definition demo_reply : ChatCompletionResponse := mkResponse "x" "chat.completion" 1 "m" (Some []) (mkUsage 1 2 3) "".
Definition demo_wire_net : Net_ := mkNet (λ _, None) (λ _, inr (mkHTTPResp 200 "" demo_reply_text None)) 0 (λ _ _, None).

Lemma answers_printable_witness :
  openai_chat (H := no_times) demo_text demo_wire_net demo_adapter demo_wire_req = inr demo_reply ∧
  prints (H := no_times) ChatCompletionResponse_json demo_reply.
Proof.
  assert (openai_chat (H := no_times) demo_text demo_wire_net demo_adapter demo_wire_req = inr demo_reply) as Hr
    by (vm_compute; reflexivity).
  split; [exact Hr|].
  destruct (answers_printable (H := no_times) (H0 := no_times_laws) demo_text demo_wire_net demo_adapter [] 0
    (λ _, 0) demo_wire_req None
    ltac:(constructor) ltac:(vm_compute; split; discriminate) (λ _, ltac:(vm_compute; split; discriminate))
    ltac:(vm_compute; reflexivity)) as [Hok _].
  apply (Hok (inr demo_reply)); [rewrite Hr; left|reflexivity|vm_compute; discriminate].
Defined.

(** A provider that answers [demo_reply], and streams one chunk before it
    breaks off. *)
Definition demo_wire_gateway : Gateway unit unit :=
  {| gw_Route _ _ s := (Error ErrUnknownModel, s);
     gw_Chat _ _ s := (ROk demo_reply, s);
     gw_Stream _ _ s := (ROk [chunk_event demo_chunk; fail_event (ErrMsg "reset")], s);
     gw_Name _ := "demo" |}.
Definition demo_decision : Decision := mkDecision "demo" "m" "priority" "" "" "".

(** The fields of a concrete value. *)
Ltac demo_ok :=
  struct_ok; first [exact I|apply Forall_nil_2|vm_compute; reflexivity|vm_compute; split; discriminate|demo_ok].

Lemma usage_charged_witness :
  ∃ ops o', handleNonStream (H := demo_wire_gateway) (encode_payload (H := no_times)) tt demo_wire_req demo_decision
      (mkObs None [] []) tt = (Done ops, o', tt) ∧
    (finish (parse_total (H := no_times)) (cw_run new_writer ops)).1 =
      (if strlen (body_of ops) <=? captureBodyLimit then Some 3 else None).
Proof.
  destruct (usage_charged (H := no_times) (H0 := no_times_laws) (H1 := demo_wire_gateway) new_writer tt demo_wire_req
    demo_decision (mkObs None [] []) tt tt demo_reply eq_refl) as (ops&o'&Hops&_&Hrec).
  { demo_ok. }
  exists ops, o'. split; [exact Hops|exact Hrec].
Defined.

Lemma demo_chunk_ok : k_ok ChatCompletionChunk_json demo_chunk ∧ fits_line (H := no_times) demo_chunk.
Proof.
  split; [demo_ok|].
  intros s Hs. vm_compute in Hs. injection Hs as <-. vm_compute. reflexivity.
Qed.

Lemma stream_relayed_witness :
  ∃ ops o', handleStream (H := demo_wire_gateway) (encode_payload (H := no_times)) (marshal_chunk (H := no_times))
      true false tt demo_wire_req demo_decision (mkObs None [] []) tt = (Done ops, o', tt) ∧
    openai_stream_chat (H := no_times) demo_text
      (mkNet (λ _, None) (λ _, inr (mkHTTPResp 200 "" (serve_ops ops).2 None)) 0 (λ _ _, None)) demo_adapter
      demo_wire_req None = inr [chunk_event demo_chunk].
Proof.
  destruct (stream_relayed (H := no_times) (H0 := no_times_laws) demo_text (H1 := demo_wire_gateway) tt demo_wire_req
    demo_decision (mkObs None [] []) tt tt [demo_chunk] [fail_event (ErrMsg "reset")] eq_refl) as (ops&o'&Hops&Hrelay).
  - right. exists (ErrMsg "reset"), []. reflexivity.
  - constructor; [exact demo_chunk_ok|constructor].
  - exists ops, o'. split; [exact Hops|]. apply Hrelay; [|reflexivity|reflexivity].
    apply (decode_chat_ok (H := no_times) demo_text (Reader (dq demo_json) None)). vm_compute. reflexivity.
Defined.

Lemma error_relayed_witness :
  openai_chat (H := no_times) demo_text
    (mkNet (λ _, None) (λ _, inr (mkHTTPResp 503 "7"
       (serve_ops (apierr_Write (encode_payload (H := no_times)) 503 "service_unavailable" "all_providers_down" "down")).2 None))
       0 (λ _ _, None)) demo_adapter demo_wire_req =
  inl (ErrProvider (mkProviderError 503 "service_unavailable" "down" true (7 * Second))).
Proof.
  set (body := (serve_ops _).2). set (net := mkNet _ _ _ _).
  assert (relayed 503 "service_unavailable" "down" body = ("down", "service_unavailable")) as Hr
    by (vm_compute; reflexivity).
  pose proof (error_relayed (H := no_times) (H0 := no_times_laws) demo_text net demo_adapter demo_wire_req None 503
    "service_unavailable" "all_providers_down" "down" "7") as H.
  cbv zeta in H. fold body in H. rewrite Hr in H. apply H.
  - apply (decode_chat_ok (H := no_times) demo_text (Reader (dq demo_json) None)). vm_compute. reflexivity.
  - discriminate.
  - reflexivity.
  - reflexivity.
Defined.
