(* ===== verification/KeyDocs.v ===== *)
(** * Key documents

    The admin endpoint over the wire: a create request as a JSON document, the
    handler of [AdminKeys], and the document that answers it, with the times
    written and read as in [Calendar].  The answer is the only place where the
    key can be learnt, so what matters is that it can be read. *)

From S2P Require Import Prelude GoStrings Float64 JsonString JsonNumber JsonText Reflect Calendar.
From S2P Require Import Model Codec RateLimit Sha256 Store Auth Http Capture Middleware AdminKeys AuthProps Wire WireProps.
From Stdlib Require Import Ascii.
Local Open Scope Z_scope.

(** The same texts read, with a text for every instant: what is decoded does
    not depend on which times can be written. *)
Definition any_time : TimeText := {| fmt_time _ := Some ""; parse_time := unmarshal_time |}.

Lemma k_time_sane_any : kind_sane (k_time (H := any_time)).
Proof. intros v _. by exists "". Qed.

Lemma CreateKeyRequest_json_sane_any : kind_sane (CreateKeyRequest_json (H := any_time)).
Proof.
  apply k_struct_sane; [|intros; repeat split]. unfold fields_sane. cbn [foldr f_kind].
  repeat match goal with |- _ ∧ _ => split end; eauto using k_time_sane_any with kinds.
Qed.

(** ** Characters *)

Lemma alphabet_valid s : str_all in_alphabet s = true → utf8_valid 0 s = true.
Proof.
  induction s as [|a s IH]; [done|]. rewrite str_all_cons, andb_true_iff. intros [Ha Hs].
  apply in_alphabet_ascii in Ha. apply utf8_valid_cons; [lia|by apply IH].
Qed.

(** A generated key, and its prefix, are ASCII. *)
Lemma generated_key_valid src key n :
  generatePlaintextKey src = Some (inr key) →
  utf8_valid 0 key = true ∧ utf8_valid 0 (str_take n key) = true.
Proof.
  unfold generatePlaintextKey. destruct (generate_body keyBodyLen src) as [[e|s]|] eqn:E; try done. intros [= <-].
  apply generate_body_shape in E as [_ Hs]. assert (utf8_valid 0 ("sk-gw-" +:+ s) = true) as Hk.
  { apply utf8_valid_app; [reflexivity|by apply alphabet_valid]. }
  split; [done|].
  assert (∀ t, str_all (λ a, byte_val a <? 128) t = true → utf8_valid 0 t = true) as Hascii.
  { induction t as [|a t IH]; [done|]. rewrite str_all_cons, andb_true_iff. intros [Ha Ht].
    apply utf8_valid_cons; [lia|by apply IH]. }
  apply Hascii, str_all_take. rewrite str_all_app, andb_true_iff. split; [reflexivity|].
  eapply str_all_impl; [|exact Hs]. intros a Ha%in_alphabet_ascii. lia.
Qed.

Section Keys.
Context (zone : Z → Z) (Hzone : ∀ sec, zone sec mod 60 = 0).
Context (parse_uuid : string → option string).

Abbreviation encode := (encode_payload (H := rfc3339 zone)).
Abbreviation decode := (decode_create (H := rfc3339 zone)).
Abbreviation response := (CreateKeyResponse_json (H := rfc3339 zone)).
Abbreviation read_response := (unmarshal_as (H := rfc3339 zone) response).

(** A decoded request holds well-formed text. *)
Lemma decode_create_ok b q : decode b = Some q → utf8_valid 0 (cq_OrgID q) = true ∧ utf8_valid 0 (cq_Name q) = true.
Proof.
  unfold decode_create. destruct (MaxBytesReader adminBodyLimit b) as [data err].
  destruct (decode_as CreateKeyRequest_json data err) as [e|r] eqn:E; [done|]. intros [= <-].
  change (decode_as (H := any_time) (CreateKeyRequest_json (H := any_time)) data err = inr r) in E.
  apply (proj2 (as_sane _ CreateKeyRequest_json_sane_any)) in E. by destruct E as (?&?&_).
Qed.

(** Whether a time can be written depends on its second only. *)
Lemma micros_second t : micros t / Second = t / Second.
Proof.
  unfold micros, Second. change 1000000000 with (1000 * 1000000).
  rewrite <-(Z.div_div (t / 1000 * 1000)), Z.div_mul, Z.div_div by lia. done.
Qed.

Lemma marshal_micros t : is_Some (marshal_time zone (micros t)) ↔ is_Some (marshal_time zone t).
Proof.
  unfold marshal_time. rewrite micros_second. destruct (date _) as [[? ?] ?].
  destruct (_ && _); [|done]. destruct (fmt_zone _); simpl; [|done]. split; eauto.
Qed.

(** The times of an answer can be written. *)
Definition writable (r : CreateKeyResponse) : Prop :=
  is_Some (marshal_time zone (kr_CreatedAt r)) ∧
  match kr_ExpiresAt r with Some t => is_Some (marshal_time zone t) | None => True end.

Lemma response_reads r :
  utf8_valid 0 (kr_ID r) = true → utf8_valid 0 (kr_Key r) = true → utf8_valid 0 (kr_KeyPrefix r) = true →
  utf8_valid 0 (kr_Name r) = true → in64 (kr_RateLimitRPM r) → in64 (kr_RateLimitTPM r) → writable r →
  read_response (encode (PKey r)) = inr r.
Proof.
  intros. destruct (as_roundtrip (H := rfc3339 zone) (HT := rfc3339_laws zone Hzone) response
    (CreateKeyResponse_json_laws (H := rfc3339 zone)) ltac:(vm_compute; reflexivity) r)
    as (s&_&Henc&Hu&_).
  - destruct r as [? ? ? ? ? ? [?|] ?]; unfold writable in *; simpl in *; tauto.
  - change (encode (PKey r)) with (encode_as (H := rfc3339 zone) response r). rewrite Henc. by apply Hu.
Qed.

Lemma response_empty r t :
  kr_ExpiresAt r = Some t → marshal_time zone t = None → encode (PKey r) = "".
Proof.
  intros Ht Hn. change (encode (PKey r)) with (encode_as (H := rfc3339 zone) response r).
  destruct r as [id key prefix nm rpm tpm e c]. simpl in Ht. subst e. unfold encode_as, Encode, Marshal. cbn.
  rewrite Hn. by destruct (marshal_time zone c).
Qed.

(** C29: a minted key reaches the administrator.  When the server, in a time
    zone of whole minutes, answers a create request with 201, the request was
    decoded and its row stored with the requested expiry, cut to the
    microsecond as Postgres keeps it; and if the expiry can
    be written as a time of that zone (years 0 to 9999), the JSON body of the
    answer reads back as exactly the id, the plaintext key, its prefix, the
    name, the limits and the times of that row, whose hash is the key's.
    Otherwise the answer is still 201 but its body is empty: the row is stored
    and nobody ever learns the key. *)
Theorem key_delivered (b : Body) (src : list (string + Z)) (conn : option dberr) (now : Z) (newid : string)
    (db db' : DB) (ops : list WOp)
    (Hid : utf8_valid 0 newid = true) (Hnow : is_Some (marshal_time zone now))
    (Hcreate : admin_Create encode parse_uuid (decode b) src conn now newid db = Some (ops, db'))
    (Hok : status_of ops = 201) :
  ∃ q key row, decode b = Some q ∧ api_keys db' !! newid = Some row ∧
    ak_KeyHash row = HashKey key ∧ ak_ExpiresAt row = micros <$> cq_ExpiresAt q ∧
    let body := (serve_ops ops).2 in
    (match cq_ExpiresAt q with Some t => is_Some (marshal_time zone t) | None => True end →
       read_response body = inr (key_response key row)) ∧
    (∀ t, cq_ExpiresAt q = Some t → marshal_time zone t = None → body = "").
Proof.
  destruct (admin_Create_cases encode parse_uuid _ _ _ _ _ _ _ _ Hcreate) as [(q&key&org&Hc&->&->)|(_&_&[?|?])];
    [|congruence..].
  destruct Hc as (Hq&_&_&Hkey&(_&Hrpm&Htpm&_)). destruct (decode_create_ok b q Hq) as [_ Hname].
  set (row := fresh_row now newid (requested q) (HashKey key) (str_take 14 key) org).
  destruct (generated_key_valid src key 14 Hkey) as [Hk Hp].
  exists q, key, row. split; [done|]. split; [apply lookup_insert_eq|]. split; [done|]. split; [done|].
  change (serve_ops _).2 with (encode (PKey (key_response key row))). cbv zeta. split.
  - intros Hw. assert (∀ z, int32 z = true → in64 z) as H64 by (unfold int32, in64, min64, max64; intros z; lia).
    apply response_reads; simpl; try done; [by apply H64..|]. split; [by apply marshal_micros|].
    simpl. destruct (cq_ExpiresAt q); [by apply marshal_micros|done].
  - intros t Ht Hn. apply (response_empty _ (micros t)); [simpl; by rewrite Ht|].
    apply eq_None_not_Some. rewrite marshal_micros. by rewrite Hn; intros [? ?].
Qed.
End Keys.

(** ** A request from the wire *)

Definition utc : Z → Z := λ _, 0.

Lemma utc_minutes sec : utc sec mod 60 = 0.
Proof. done. Qed.

Definition key_body (expiry : string) : Body :=
  Reader (dq ("{'org_id':'org1','name':'ci','expires_at':'" +:+ expiry +:+ "'}")) None.

(** 2024-02-15, noon. *)
Definition wire_now : Z := 63843595200 * Second.

Definition wire_created (expiry : string) : option (list WOp * DB) :=
  admin_Create (encode_payload (H := rfc3339 utc)) demo_uuid
    (decode_create (H := rfc3339 utc) (key_body expiry)) mint_src None wire_now "key1" demo_db.

Definition wire_out (expiry : string) : list WOp * DB := default ([], demo_db) (wire_created expiry).
Definition wire_expiry : string := "2025-01-01T00:00:00.000000999+02:00".
Definition wire_ops : list WOp := Eval vm_compute in (wire_out wire_expiry).1.
Definition wire_db : DB := Eval vm_compute in (wire_out wire_expiry).2.

Lemma wire_created_ok : wire_created wire_expiry = Some (wire_ops, wire_db).
Proof. vm_compute. reflexivity. Qed.

Lemma key_delivered_witness :
  ∃ q key row, decode_create (H := rfc3339 utc) (key_body wire_expiry) = Some q ∧
    api_keys wire_db !! "key1" = Some row ∧ ak_KeyHash row = HashKey key ∧
    unmarshal_as (H := rfc3339 utc) (CreateKeyResponse_json (H := rfc3339 utc)) (serve_ops wire_ops).2 =
      inr (key_response key row).
Proof.
  destruct (key_delivered utc utc_minutes demo_uuid (key_body wire_expiry) mint_src None wire_now "key1"
    demo_db wire_db wire_ops) as (q&key&row&Hq&Hrow&Hk&_&Hread&_).
  - vm_compute. reflexivity.
  - eexists. vm_compute. reflexivity.
  - exact wire_created_ok.
  - vm_compute. reflexivity.
  - exists q, key, row. split; [exact Hq|]. split; [exact Hrow|]. split; [exact Hk|]. apply Hread.
    assert (decode_create (H := rfc3339 utc) (key_body wire_expiry) =
      Some (mkCreateKeyRequest "org1" "ci" None None (Some 63871279200000000999))) as Hd by (vm_compute; reflexivity).
    rewrite Hd in Hq. injection Hq as <-. eexists. vm_compute. reflexivity.
Defined.

(** An expiry in the last hours of year 9999, west of Greenwich, is in year
    10000 in UTC: the request is accepted, the key stored, and the answer is
    a 201 without a body. *)
Example unwritable_expiry_loses_key :
  (λ r, (serve_ops r.1, ak_IsActive <$> api_keys r.2 !! "key1")) <$> wire_created "9999-12-31T23:59:59-01:00" =
  Some ((201, {["Content-Type" := "application/json"]}, ""), Some true).
Proof. vm_compute. reflexivity. Qed.
