(* ===== verification/OpenaiCompat.v ===== *)
(** * The types for clients

    Models src/pkg/openaicompat/types.go: aliases of the chat data model, with
    which a Go client builds requests and parses responses.  What the package
    promises is that the types stay in sync with the gateway's: a request built
    with them is the request the gateway works on, and the answer parses to
    what the provider gave ([client_answered]). *)

From S2P Require Import Prelude GoStrings Float64 JsonString JsonNumber JsonText Reflect Model Codec.
From S2P Require Import Health Metrics Retry Registry Strategies RateLimit Config Router Store Auth Http.
From S2P Require Import Capture AdminKeys Middleware Handlers HandlerProps.
From S2P Require Import Upstream OpenAI Anthropic Google AdapterProps Wire WireProps.
From Stdlib Require Import Ascii.
Local Open Scope Z_scope.

Definition openaicompat_ChatCompletionRequest : Type := ChatCompletionRequest.
Definition openaicompat_Message : Type := Message.
Definition openaicompat_ChatCompletionResponse : Type := ChatCompletionResponse.
Definition openaicompat_Choice : Type := Choice.
Definition openaicompat_Usage : Type := Usage.
Definition openaicompat_ChatCompletionChunk : Type := ChatCompletionChunk.
Definition openaicompat_ChunkChoice : Type := ChunkChoice.
Definition openaicompat_DeltaMessage : Type := DeltaMessage.

Section Client.
Context `{TimeLaws} (jerr_text : jerr → string) {S P : Type} `{Gateway S P}.

Definition answer (can_flush cancelled : bool) : Handler S :=
  chat_handler encode_payload marshal_chunk can_flush cancelled (decode_chat jerr_text).

Lemma serve_written hdrs b :
  Forall (λ op, ∃ k v, op = OSet k v) hdrs → ∃ h, serve_ops (hdrs ++ [OWrite b]) = (200, h, b).
Proof.
  intros Hh. destruct (wrun_sets new_writer hdrs Hh) as [Hs Hb]. unfold serve_ops. rewrite wrun_app.
  set (w := wrun new_writer hdrs) in *. change (wrun w [OWrite b]) with (wstep w (OWrite b)).
  unfold response. cbn [wstep]. unfold write_header. rewrite Hs. cbn. rewrite Hb. eauto.
Qed.

(** A printed request reaches the router unchanged. *)
Lemma answer_decoded can_flush cancelled r req text o s p d s1 :
  k_ok ChatCompletionRequest_json req → rq_Model req ≠ "" → rq_Messages req ≠ [] →
  marshal_as ChatCompletionRequest_json req = Some text → strlen text ≤ maxRequestBodySize →
  gw_Route req (routerMeta r) s = (Ret (p, d), s1) →
  answer can_flush cancelled (with_body (Reader text None) r) o s =
    let o := SetGroup (dc_Group d) (SetStrategy (dc_Strategy d) (SetProvider (dc_Provider d) (SetModel (dc_Model d) o))) in
    let req := set_Model (dc_Model d) req in
    let '(e, o, s) := if rq_Stream req then handleStream encode_payload marshal_chunk can_flush cancelled p req d o s1
                      else handleNonStream encode_payload p req d o s1 in
    (chat_ops e, o, s).
Proof.
  intros Hreq Hmodel Hmsgs Htext Hlen Hroute. unfold answer, chat_handler. cbn [r_Body with_body].
  assert (decode_chat jerr_text (Reader text None) = DOk req) as ->.
  { destruct (as_roundtrip _ ChatCompletionRequest_json_laws ltac:(vm_compute; reflexivity) req Hreq) as (t&Ht&_&_&Hd).
    rewrite Htext in Ht. injection Ht as <-. unfold decode_chat.
    destruct (MaxBytesReader_prefix _ text "" None Hlen) as (rest&err&Hr). rewrite app_nil_r_str in Hr. by rewrite Hr, Hd. }
  unfold HandleChatCompletion. rewrite bool_decide_false by done. destruct (rq_Messages req) as [|m l] eqn:Em; [done|].
  change (length (m :: l) =? 0)%nat with false. cbv iota.
  change (routerMeta (with_body (Reader text None) r)) with (routerMeta r). by rewrite Hroute.
Qed.

(** C7: a client of the package.  A request built with its types, printed and
    posted, is routed as it was built.  When the provider answers, the body
    parses to exactly that response; when it streams, the data of the events
    parse to exactly its chunks, in order, before the DONE marker. *)
Theorem client_answered (r : Req) (req : openaicompat_ChatCompletionRequest) (text : string) (o : Obs) (s s1 s2 : S)
    (p : P) (d : Decision)
    (Hreq : k_ok ChatCompletionRequest_json req) (Hmodel : rq_Model req ≠ "") (Hmsgs : rq_Messages req ≠ [])
    (Htext : marshal_as ChatCompletionRequest_json req = Some text) (Hlen : strlen text ≤ maxRequestBodySize)
    (Hroute : gw_Route req (routerMeta r) s = (Ret (p, d), s1)) :
  let sent := set_Model (dc_Model d) req in
  let run := answer true false (with_body (Reader text None) r) o s in
  (∀ resp : openaicompat_ChatCompletionResponse, rq_Stream req = false →
     gw_Chat p sent s1 = (ROk resp, s2) → k_ok ChatCompletionResponse_json resp →
     run.2 = s2 ∧ ∃ h body, serve_ops run.1.1 = (200, h, body) ∧
       unmarshal_as ChatCompletionResponse_json body = inr resp) ∧
  (∀ cs : list openaicompat_ChatCompletionChunk, rq_Stream req = true →
     gw_Stream p sent s1 = (ROk (chunk_event <$> cs), s2) → Forall (k_ok ChatCompletionChunk_json) cs →
     run.2 = s2 ∧ ∃ h body texts, serve_ops run.1.1 = (200, h, body) ∧ client_data body = texts ++ ["[DONE]"] ∧
       Forall2 (λ t c, unmarshal_as ChatCompletionChunk_json t = inr c) texts cs).
Proof.
  cbv zeta. rewrite (answer_decoded _ _ r req text o s p d s1) by done. cbv zeta. cbn [rq_Stream set_Model]. split.
  - intros resp -> Hchat Hok. unfold handleNonStream. rewrite Hchat. cbn [chat_ops fst snd]. split; [done|].
    rewrite app_assoc. destruct (serve_written ([OSet "Content-Type" "application/json"] ++ setRoutingHeaders d)
      (encode_payload (PChat resp))) as [h Hh].
    { apply Forall_app. split; [repeat constructor; eauto|apply routing_headers_sets]. }
    exists h, (encode_payload (PChat resp)). split; [done|].
    destruct (as_roundtrip _ ChatCompletionResponse_json_laws ltac:(vm_compute; reflexivity) resp Hok) as (t&_&He&Hr&_).
    change (encode_payload (PChat resp)) with (encode_as ChatCompletionResponse_json resp). rewrite He. by apply Hr.
  - intros cs -> Hstream Hok. rewrite <-(app_nil_r (chunk_event <$> cs)) in Hstream.
    destruct (handleStream_ok encode_payload marshal_chunk false p _ d (SetGroup (dc_Group d) (SetStrategy (dc_Strategy d)
      (SetProvider (dc_Provider d) (SetModel (dc_Model d) o)))) s1 s2 _ Hstream) as (ops&o'&->&Hserve).
    cbn [chat_ops fst snd]. split; [done|].
    destruct (forwarded_chunks cs [] Hok (or_introl eq_refl)) as (ds&<-&Hf&Hm). rewrite Hf in Hserve.
    do 2 eexists. exists ds.*1. split; [exact Hserve|]. rewrite Forall_fmap in Hok. split.
    + apply client_reads, Forall_app. split; [|by repeat constructor]. apply Forall_fmap, Forall_forall.
      intros [t c] Hd. rewrite Forall_forall in Hm, Hok. specialize (Hm _ Hd). specialize (Hok _ Hd). cbn [compose fst snd] in *.
      destruct (chunk_text c t Hok Hm) as (_&_&Hg).
      eapply str_all_impl; [|exact Hg]. intros a Ha. by destruct (Ascii.eqb_spec a (ascii_of_nat 10)) as [->|].
    + apply Forall2_fmap. apply Forall_Forall2_diag, Forall_forall. intros [t c] Hd.
      rewrite Forall_forall in Hm, Hok. specialize (Hm _ Hd). specialize (Hok _ Hd). cbn [compose fst snd] in *.
      by destruct (chunk_text c t Hok Hm) as (_&Hr&_).
Qed.
End Client.

(** ** Witness *)

Definition demo_compat_gateway : Gateway unit unit :=
  {| gw_Route _ _ s := (Ret (tt, demo_decision), s);
     gw_Chat _ _ s := (ROk demo_reply, s);
     gw_Stream _ _ s := (ROk [chunk_event demo_chunk], s);
     gw_Name _ := "demo" |}.
Definition demo_post : Req := mkReq "POST" "/v1/chat/completions" "" NoBody None.
Definition demo_compat_text : string :=
  default "" (marshal_as (H := no_times) ChatCompletionRequest_json demo_wire_req).

Lemma client_answered_witness :
  ∃ h body texts,
    serve_ops (answer (H := no_times) (H1 := demo_compat_gateway) demo_text true false
      (with_body (Reader demo_compat_text None) demo_post) (mkObs None [] []) tt).1.1 = (200, h, body) ∧
    client_data body = texts ++ ["[DONE]"] ∧
    Forall2 (λ t c, unmarshal_as (H := no_times) ChatCompletionChunk_json t = inr c) texts [demo_chunk].
Proof.
  destruct (client_answered (H := no_times) (H0 := no_times_laws) demo_text (H1 := demo_compat_gateway) demo_post
    demo_wire_req demo_compat_text (mkObs None [] []) tt tt tt tt demo_decision) as [_ Hstream].
  - apply (decode_chat_ok (H := no_times) demo_text (Reader (dq demo_json) None)). vm_compute. reflexivity.
  - discriminate.
  - discriminate.
  - vm_compute. reflexivity.
  - vm_compute. discriminate.
  - reflexivity.
  - destruct (Hstream [demo_chunk]) as (_&h&body&texts&Hs&Hc&Ht);
      [reflexivity|reflexivity|constructor; [apply demo_chunk_ok|constructor]|].
    exists h, body, texts. split; [exact Hs|]. split; [exact Hc|exact Ht].
Defined.
