(* ===== verification/Billing.v ===== *)
(** * What a key is charged, over whole executions

    The token half of the rate limit for the whole gateway, with its concrete
    codec: [System]'s executions, in which every answer is printed, captured
    and parsed again by the rate limiter's middleware before its tokens are
    recorded in Redis.  The record of what should be charged is kept beside
    the execution ([bill_step]): one entry per answered chat request, with the
    total of the response the provider gave.  The theorem is that the limiter
    decides by exactly these entries. *)

From S2P Require Import Prelude GoStrings Float64 JsonString JsonNumber JsonText Reflect Model Codec.
From S2P Require Import Sha256 Health Metrics Retry Registry Strategies Redis RateLimit RateLimitWindow RateLimitProps.
From S2P Require Import RateLimitTokens Config Router RouterProps Store Auth Http AdminKeys AuthProps Capture.
From S2P Require Import Middleware MiddlewareProps Handlers HandlerProps Integration Server System.
From S2P Require Import Upstream OpenAI Anthropic Google AdapterProps Wire WireProps.
From Stdlib Require Import Ascii.
Local Open Scope Z_scope.

(** ** Answers that carry no usage *)

(** Operations without a header among them leave the headers alone. *)
Lemma first_status_sets hdrs ops w :
  Forall (λ op, ∃ k v, op = OSet k v) hdrs → first_status (hdrs ++ ops) w = first_status ops (wrun w hdrs).
Proof. intros Hh. revert w. induction Hh as [|op hdrs (k&v&->) _ IH]; intros w; [done|]. apply IH. Qed.

Lemma first_status_hdr ops w st h :
  Forall body_op ops → first_status ops w = Some (st, h) → h = w_hdr w.
Proof.
  intros Hops. revert w. induction Hops as [|op ops Hop _ IH]; intros w; [done|].
  destruct op as [k v|st'|b|]; [done|done|cbn; by intros [= _ <-]|].
  cbn [first_status]. intros Hf. apply IH in Hf. rewrite Hf. cbn. unfold write_header. by destruct (w_sent w).
Qed.

Section Unbilled.
Context `{TimeText}.

(** A body whose document has no usage. *)
Lemma unbilled (w0 : Writer) (ops : list WOp) :
  (∀ n, parse_total (body_of ops) = Some n → n ≤ 0) → (finish parse_total (cw_run w0 ops)).1 = None.
Proof.
  intros Hp. destruct (finish _ _).1 as [n|] eqn:E; [|done]. apply records_usage in E as (st&h&_&_&_&_&_&Hn&Hpos).
  specialize (Hp n Hn). lia.
Qed.

Lemma parse_total_doc body ms t :
  parse_json body = POk (JObj ms) t → str_all is_space t = true →
  Forall (λ kv, find_field ["usage"] kv.1 = None) ms → parse_total body = Some 0.
Proof.
  intros Hp Ht Hms. unfold parse_total, unmarshal_as, Unmarshal, text_value. rewrite Hp, Ht.
  set (ty := k_ty parsedUsage_json).
  assert (unmarshal ty (JObj ms) (zero_val ty) = Some (zero_val ty)) as ->; [|reflexivity].
  assert (∀ decs z, set_fields ["usage"] decs ms z = Some z) as Hs.
  { intros decs z. clear Hp. induction Hms as [|[k v] ms Hk _ IH]; [done|]. cbn [set_fields fst] in *. by rewrite Hk. }
  change (VStruct <$> set_fields ["usage"] (map (λ f : string * bool * gty, unmarshal f.2) (tags parsedUsage_json)) ms
    (parts (zero_val ty)) = Some (zero_val ty)). by rewrite Hs.
Qed.

(** An error answer, whatever its status. *)
Lemma error_unbilled w0 status errType code message :
  (finish parse_total (cw_run w0 (apierr_Write encode_payload status errType code message))).1 = None.
Proof.
  apply unbilled. intros n. cbn [apierr_Write body_of foldr]. rewrite app_nil_r_str, error_body.
  rewrite (parse_total_doc _ _ newline (error_doc_text _ _ _ _) eq_refl); [intros [= <-]; lia|].
  by repeat constructor.
Qed.

(** A stream. *)
Lemma stream_unbilled w0 hdrs ops :
  Forall (λ op, ∃ k v, op = OSet k v) hdrs → Forall body_op ops →
  Header_Get (w_hdr (wrun w0 hdrs)) "Content-Type" = "text/event-stream" →
  (finish parse_total (cw_run w0 (hdrs ++ ops))).1 = None.
Proof.
  intros Hh Hops Hct. destruct (finish _ _).1 as [n|] eqn:E; [|done].
  apply records_usage in E as (st&h&Hf&Hj&_). rewrite first_status_sets in Hf by done.
  apply first_status_hdr in Hf as ->; [|done]. by rewrite Hct in Hj.
Qed.

Lemma stream_content_type w d :
  Header_Get (w_hdr (wrun w (stream_headers d))) "Content-Type" = "text/event-stream".
Proof.
  unfold stream_headers. rewrite wrun_app. destruct (routing_content_type d (wrun w
    [OSet "Content-Type" "text/event-stream"; OSet "Cache-Control" "no-cache"; OSet "Connection" "keep-alive"]) "") as [_ ->].
  unfold Header_Get, wrun. cbn [foldl wstep w_hdr].
  rewrite !lookup_insert_ne by (vm_compute; discriminate). by rewrite lookup_insert_eq.
Qed.

(** The list of models. *)
Lemma models_text r t :
  ∃ ms, encode_payload (PModels r) = json_print (JObj ms) +:+ newline ∧
    parse_json (json_print (JObj ms) +:+ t) = POk (JObj ms) t ∧
    Forall (λ kv, find_field ["usage"] kv.1 = None) ms.
Proof.
  set (item m := JObj [("id", JStr (json_quote (mo_ID m))); ("object", JStr (json_quote (mo_Object m)));
    ("owned_by", JStr (json_quote (mo_OwnedBy m)))]).
  exists [("object", JStr (json_quote (mr_Object r))); ("data", JArr (map item (mr_Data r)))].
  assert (mapM (to_json (k_ty modelObject_json)) (map (k_to modelObject_json) (mr_Data r)) =
    Some (map item (mr_Data r))) as Hm.
  { induction (mr_Data r) as [|m l IH]; [done|]. cbn [map mapM]. change (to_json _ _) with (Some (item m)). cbn.
    change (mapM _ _) with (mapM (to_json (k_ty modelObject_json)) (map (k_to modelObject_json) l)). by rewrite IH. }
  assert (to_json (k_ty modelsResponse_json) (k_to modelsResponse_json r) =
    Some (JObj [("object", JStr (json_quote (mr_Object r))); ("data", JArr (map item (mr_Data r)))])) as Hj.
  { unfold modelsResponse_json, k_struct.
    cbn [k_ty k_to map f_tag f_name f_omit f_kind f_get to_json members fst snd andb k_string k_array k_slice fmap option_fmap option_map].
    rewrite Hm. reflexivity. }
  split; [|split].
  - cbn [encode_payload]. unfold encode_as, Encode, Marshal. by rewrite Hj.
  - rewrite parse_print_top.
    + cbn [json_san map fst snd]. by rewrite map_map.
    + cbn [json_lits foldr fst snd]. split; [apply str_run_quote|]. split; [|done].
      clear Hm Hj. induction (mr_Data r) as [|m l IH]; [done|]. cbn [map foldr]. split; [|exact IH].
      cbn [item json_lits foldr fst snd]. rewrite !str_run_quote. done.
    + etrans; [|apply (proj1 (Nat.leb_le 3 maxNestingDepth)); vm_compute; reflexivity].
      cbn [json_depth foldr fst snd]. do 2 apply le_n_S.
      assert (foldr (λ v, Nat.max (json_depth v)) 0%nat (map item (mr_Data r)) ≤ 1)%nat; [|lia].
      clear Hm Hj. induction (mr_Data r) as [|m l IH]; [simpl; lia|]. cbn [map foldr]. change (json_depth (item m)) with 1%nat. lia.
  - by repeat constructor.
Qed.

Lemma models_unbilled w0 reg : (finish parse_total (cw_run w0 (HandleListModels encode_payload reg))).1 = None.
Proof.
  apply unbilled. intros n. cbn [HandleListModels body_of foldr]. rewrite app_nil_r_str.
  destruct (models_text {| mr_Object := "list"; mr_Data := (λ d, mkModelObject (ModelName d) "model" (ProviderName d)) <$> ListModelDetails reg |} newline)
    as (ms&->&Hp&Hms).
  rewrite (parse_total_doc _ _ newline Hp eq_refl Hms). intros [= <-]. lia.
Qed.
End Unbilled.

(** ** The chat handler *)

Section Answered.
Context `{TimeLaws} {S P : Type} `{Gateway S P}.

(** The response the provider gave to the request, when it gave one and it is
    not a stream. *)
Definition answered (decoded : Decoded) (r : Req) (s : S) : option ChatCompletionResponse :=
  match decoded with
  | DOk req =>
      if bool_decide (rq_Model req = "") || (length (rq_Messages req) =? 0)%nat then None
      else match gw_Route req (routerMeta r) s with
      | (Ret (p, d), s) =>
          let req := set_Model (dc_Model d) req in
          if rq_Stream req then None
          else match (gw_Chat p req s).1 with ROk resp => Some resp | _ => None end
      | _ => None
      end
  | _ => None
  end.

(** What it is to be charged. *)
Definition due (resp : ChatCompletionResponse) : option Z :=
  let total := TotalTokens (rs_Usage resp) in
  if (0 <? total) && (strlen (encode_payload (PChat resp)) <=? captureBodyLimit) then Some total else None.

(** The middleware records what is due for the answer, and nothing for
    anything else the handler sends. *)
Lemma chat_recorded w0 can_flush cancelled decode r o s :
  (∀ resp, answered (decode (r_Body r)) r s = Some resp → k_ok ChatCompletionResponse_json resp) →
  (finish parse_total (cw_run w0 (chat_handler encode_payload marshal_chunk can_flush cancelled decode r o s).1.1)).1 =
    answered (decode (r_Body r)) r s ≫= due.
Proof.
  unfold chat_handler, HandleChatCompletion, answered. destruct (decode (r_Body r)) as [req| |];
    [|intros _; apply error_unbilled..].
  case_bool_decide; [intros _; apply error_unbilled|]. cbn [orb].
  destruct (_ =? _)%nat; [intros _; apply error_unbilled|].
  destruct (gw_Route req (routerMeta r) s) as [[[p d]|err|] s1].
  2:{ intros _. destruct err; apply error_unbilled. }
  2:{ intros _. apply unbilled. intros n. by cbn. }
  cbv zeta. destruct (rq_Stream _).
  - intros _. unfold handleStream. destruct (gw_Stream p _ s1) as [[evts|err|] s2].
    + destruct can_flush; [|apply error_unbilled]. cbn [negb].
      pose proof (stream_loop_body_ops marshal_chunk (gw_Name p) evts (SetGroup (dc_Group d) (SetStrategy (dc_Strategy d)
        (SetProvider (dc_Provider d) (SetModel (dc_Model d) o))))) as Hns.
      destruct (stream_loop _ _ _ _) as [ops o2]. cbn [fst] in Hns. cbn [fst chat_ops]. apply stream_unbilled.
      * apply Forall_app; split; [repeat constructor; eauto|apply routing_headers_sets].
      * apply Forall_app. split; [done|]. by destruct cancelled; repeat constructor.
      * apply stream_content_type.
    + unfold handleProviderError. destruct (errors_As err); apply error_unbilled.
    + destruct can_flush; [|apply error_unbilled]. cbn [negb fst chat_ops]. rewrite <-(app_nil_r (_ ++ _)).
      apply stream_unbilled; [apply Forall_app; split; [repeat constructor; eauto|apply routing_headers_sets]|constructor|].
      apply stream_content_type.
  - unfold handleNonStream. destruct (gw_Chat p _ s1) as [[resp|err|] s2]; cbn [fst chat_ops]; intros Hok.
    + destruct (answer_recorded w0 d resp (Hok _ eq_refl)) as (Hb&_&->). by rewrite Hb.
    + unfold handleProviderError. destruct (errors_As err); apply error_unbilled.
    + apply unbilled. intros n. by cbn.
Qed.
End Answered.

(** ** Where answers come from *)

Lemma attempts_from h (env : CallEnv ChatCompletionResponse) fuel i last w resp :
  (attempts h env (λ k resp w, (resp, recordHealthSuccess h (ce_start env) (ce_now env k) w)) fuel i last w).1 = ROk resp →
  ∃ k, ce_call env k = inl resp.
Proof.
  assert (∀ last i w, (after_loop (B := ChatCompletionResponse) h last (ce_start env) (ce_now env i) w).1 ≠ ROk resp) as Hgive.
  { clear. intros [e|] i w; done. }
  revert i last w. induction fuel as [|fuel IH]; intros i last w; cbn [attempts]; [by intros ?%Hgive|].
  destruct (i <=? _); [|by intros ?%Hgive]. destruct (if 0 <? i then _ else _) as [[e|] w1]; [done|].
  destruct (ce_call env i) as [r|err] eqn:Ec; cbn [fst]; [intros [= ->]; eauto|].
  destruct (negb _); [done|]. destruct (i =? _); [by intros ?%Hgive|]. apply IH.
Qed.

Lemma ChatCompletion_from h env w resp :
  (ChatCompletion h env w).1 = ROk resp → ∃ k, ce_call env k = inl resp.
Proof. apply attempts_from. Qed.

(** A response that one of the adapters made of what its service sent. *)
Definition from_adapter `{TimeText} (jerr_text : jerr → string) (resp : ChatCompletionResponse) : Prop :=
  ∃ net p b unix req, Forall (λ n, (n < 256)%nat) b ∧ in64 unix ∧ utf8_valid 0 (rq_Model req) = true ∧
    Z.of_nat (length (elems (rs_Choices resp))) ≤ 2 ^ 63 ∧
    inr resp ∈ [openai_chat jerr_text net p req; anthropic_chat jerr_text net unix p req;
                google_chat jerr_text net b unix p req].

Lemma from_adapter_ok `{TimeText} jerr_text resp : from_adapter jerr_text resp → k_ok ChatCompletionResponse_json resp.
Proof.
  intros (net&p&b&unix&req&Hb&Hu&Hm&Hlen&Hin).
  by apply (proj1 (answers_ok jerr_text net p b unix (λ _, unix) req None Hb Hu (λ _, Hu) Hm) (inr resp) Hin).
Qed.

(** ** Executions with their bills *)

Section Bills.
Context {L : Type → Type} `{LRULaws L} {rdb : Type} `{RedisLaws rdb} `{TimeLaws}.
Context (jerr_text : jerr → string) (parse_uuid : string → option string).
Context (rl : redisLimiter) (inst admin_token : string).
Context (rt : defaultRouter) (htps : gmap nat HealthTrackingProvider).
Implicit Types (s : Sys (L := L) (rdb := rdb)) (log : list TokenRec).

(** The gateway's steps, with its codec and body logging off. *)
Abbreviation gw_step := (sys_step encode_payload marshal_chunk parse_total parse_uuid (decode_chat jerr_text)
  decode_create rl inst admin_token false rt htps).
Abbreviation leaf := (gw_leaf encode_payload marshal_chunk (decode_chat jerr_text) rt htps).
Abbreviation gw_at e := (gateway rt htps (ce_upstream e) (ce_stream e) (ce_rnd e) (ce_clock e) (ce_stop e)).

(** The answer to a request in its handler. *)
Definition answer_of (e : ChatEnv) (p : Pending) s : option ChatCompletionResponse :=
  if pd_chat p then
    answered (H1 := gw_at e) (decode_chat jerr_text (r_Body (pd_req p))) (pd_req p) (y_gw s)
  else None.

(** What its key owes for it when it leaves at [t]; only a call of the limiter
    that does not reach Redis leaves it out. *)
Definition owed (t : Z) (net : Net) (p : Pending) (e : ChatEnv) s : list TokenRec :=
  match pd_ticket p with
  | Reserved info _ =>
      match (resp ← answer_of e p s; n ← due resp; recorded rl inst (ms t) info n net (y_lim s)) with
      | Some b => [b]
      | None => []
      end
  | _ => []
  end.

(** The providers are the adapters: their responses are those of an adapter's
    call. *)
Definition wired (e : ChatEnv) : Prop :=
  ∀ id req k resp, ce_call (ce_upstream e id req) k = inl resp → from_adapter jerr_text resp.

Lemma wired_ok e p s resp : wired e → answer_of e p s = Some resp → k_ok ChatCompletionResponse_json resp.
Proof.
  intros Hw. unfold answer_of, answered. destruct (pd_chat p); [|done].
  destruct (decode_chat _ _) as [req| |]; [|done..]. destruct (_ || _); [done|].
  destruct (gw_Route _ _ _) as [[[pr d]|err|] g]; [|done..]. destruct (rq_Stream _); [done|].
  cbn [gw_Chat gateway]. destruct (call _ _ pr g) as [[resp'|err|] g'] eqn:Ec; [|done..]. intros [= ->].
  unfold call in Ec. destruct pr as [id name|name]; [|done]. destruct (htps !! id) as [h|]; [|done].
  destruct (g_worlds g !! id) as [w|]; [|done]. destruct (ChatCompletion _ _ w) as [reply w'] eqn:Ew.
  injection Ec as -> _. apply (f_equal fst), ChatCompletion_from in Ew as [k Hk].
  by eapply (from_adapter_ok jerr_text), Hw.
Qed.

(** A step and the bills it makes due. *)
Inductive bill_step s (t : Z) : Sys → list TokenRec → Prop :=
| bs_leave i p e net ops o s1 :
    y_pend s !! i = Some p →
    wired e →
    leave parse_total (sys_limiter rl inst t net t net) false (pd_env p) (lift (leaf (pd_chat p) e))
      (pd_ticket p) (pd_req p) (pd_obs p) s = (ops, o, s1) →
    bill_step s t (on_pend (delete i (y_pend s1)) (y_served s1) s1) (owed t net p e s)
| bs_other s' : gw_step s t s' → y_pend s ⊆ y_pend s' → bill_step s t s' [].

Inductive bill_reach s0 : nat → Sys → list TokenRec → Prop :=
| br_init : bill_reach s0 0 s0 []
| br_step n s log t s' bills :
    bill_reach s0 n s log → st_clock (y_auth s) ≤ t → bill_step s t s' bills →
    bill_reach s0 (S n) (at_time t s') (bills ++ log).

(** *** Nothing but a leaving request is billed *)

Lemma enter_frame t conn net env r o s res s1 :
  enter encode_payload (sys_auth t conn) (sys_limiter rl inst t net t net) env r o s = (res, s1) →
  y_pend s1 = y_pend s ∧
  (y_lim s1 = y_lim s ∨ ∃ info, y_lim s1 = (Reserve rl inst info (ms t) net (y_lim s)).2).
Proof.
  unfold enter. destruct (auth_enter _ _ r o s) as [ra sa] eqn:Ea.
  assert (y_pend sa = y_pend s ∧ y_lim sa = y_lim s) as [Hp Hl].
  { revert Ea. unfold auth_enter, sys_auth. case_bool_decide; [by intros [= <- <-]|].
    destruct (bearerToken _); [|by intros [= <- <-]].
    destruct (Authenticate _ _ _ _) as [[[[|]|] c] ts]; by intros [= <- <-]. }
  destruct ra as [eo|[r1 o1]]; [intros [= <- <-]; auto|]. rewrite <-Hp, <-Hl. clear.
  unfold rl_enter. destruct (KeyInfoFromContext _) as [info|]; [|intros [= <- <-]; auto]. cbn [rv_Reserve sys_limiter].
  destruct (Reserve rl inst info (ms t) net (y_lim sa)) as [[err|x] l] eqn:Er.
  - unfold warnFailOpen. cbn [rv_lastWarn rv_setLastWarn sys_limiter].
    destruct (_ && _); [|destruct (en_racer env)]; intros [= <- <-]; (split; [done|]); right; exists info; by rewrite Er.
  - destruct (negb _); intros [= <- <-]; (split; [done|]); right; exists info; by rewrite Er.
Qed.

(** The other steps keep the requests in their handlers. *)
Lemma step_kinds s t s' :
  gw_step s t s' →
  (∃ i p e net ops o s1, y_pend s !! i = Some p ∧
     leave parse_total (sys_limiter rl inst t net t net) false (pd_env p) (lift (leaf (pd_chat p) e))
       (pd_ticket p) (pd_req p) (pd_obs p) s = (ops, o, s1) ∧
     s' = on_pend (delete i (y_pend s1)) (y_served s1) s1) ∨
  (y_pend s ⊆ y_pend s' ∧
   (y_lim s' = y_lim s ∨ (∃ info net, y_lim s' = (Reserve rl inst info (ms t) net (y_lim s)).2) ∨
    y_lim s' = mkLimState (expire_due (ms t) (store (y_lim s))) (reqIDCounter (y_lim s)))).
Proof.
  intros [i env conn net r o chat res s1 Hi He|i p e net ops o s1 Hi Hl|r o src newid id conn cg cr _ _
    |r o src newid id conn cg cr _|id err d _|conn id err d _|]; [right|left|right..]; eauto 10.
  - destruct (enter_frame _ _ _ _ _ _ _ _ _ He) as [Hp Hlim]. unfold settle.
    destruct res as [eo|[[tk r1] o1]]; cbn [y_pend y_lim on_pend]; rewrite Hp.
    + split; [done|]. destruct Hlim as [->|[info ->]]; eauto.
    + split; [by apply insert_subseteq|]. destruct Hlim as [->|[info ->]]; eauto.
  - destruct (admin_gate_state encode_payload admin_token (ah_Create (sys_admin encode_payload parse_uuid decode_create t src
      newid id conn cg cr)) r o s) as [-> | ->]; [auto|]. cbn [ah_Create sys_admin]. destruct (admin_Create _ _ _ _ _ _ _ _) as [[ops d]|]; auto.
  - destruct (admin_gate_state encode_payload admin_token (ah_Revoke (sys_admin encode_payload parse_uuid decode_create t src
      newid id conn cg cr)) r o s) as [-> | ->]; [auto|]. cbn [ah_Revoke sys_admin]. destruct (admin_Revoke _ _ _ _ _ _ _ _) as [[ops d] c]; auto.
Qed.

(** Every step of the gateway is one with a bill. *)
Lemma every_step_billed s t s' :
  (∀ e, wired e) → gw_step s t s' → ∃ bills, bill_step s t s' bills.
Proof.
  intros Hw Hst. destruct (step_kinds s t s' Hst) as [(i&p&e&net&ops&o&s1&Hi&Hl&->)|[Hp _]].
  - eexists. by eapply bs_leave.
  - exists []. by apply bs_other.
Qed.

(** *** A leaving request records what is owed *)

Lemma leave_owed i p e net t ops o s s1 log :
  y_pend s !! i = Some p → wired e →
  leave parse_total (sys_limiter rl inst t net t net) false (pd_env p) (lift (leaf (pd_chat p) e))
    (pd_ticket p) (pd_req p) (pd_obs p) s = (ops, o, s1) →
  (y_lim s1 = y_lim s ∧ owed t net p e s = []) ∨
  ∃ info n, (y_lim s1, owed t net p e s ++ log) = tstep rl inst (y_lim s, log) (ERecord (ms t) info n net).
Proof.
  intros _ Hw. pose proof (λ resp, wired_ok e p s resp Hw) as Hok. unfold leave, rl_leave, owed, lift.
  assert (∀ w0, (finish parse_total (cw_run w0 (leaf (pd_chat p) e (pd_req p) (pd_obs p) (y_gw s)).1.1)).1 =
    answer_of e p s ≫= due) as Hrec.
  { intros w0. unfold gw_leaf, answer_of in *. destruct (pd_chat p); [by apply chat_recorded|]. apply models_unbilled. }
  destruct (leaf _ _ _ _ _) as [[ops1 o1] g]. cbn [fst] in Hrec.
  destruct (pd_ticket p) as [|info|info hdrs]; [intros [= <- <- <-]; by left..|].
  specialize (Hrec (wrun (entry_writer (pd_env p)) hdrs)). destruct (finish _ _) as [rec out]. cbn [fst] in Hrec. rewrite Hrec.
  destruct (answer_of e p s) as [resp|]; [|intros [= <- <- <-]; by left]. cbn [mbind option_bind].
  destruct (due resp) as [n|]; [|intros [= <- <- <-]; by left]. cbn [mbind option_bind rv_RecordTokens sys_limiter y_lim on_gw].
  intros Hl. right. exists info, n. cbn [tstep].
  assert (y_lim s1 = (RecordTokens rl inst info n (ms t) net (y_lim s)).2) as ->.
  { destruct (RecordTokens _ _ _ _ _ _ _) as [[err|] l]; by injection Hl as <- <- <-. }
  by destruct (recorded _ _ _ _ _ _ _).
Qed.

Lemma bill_step_inv k0 s t s' bills log :
  let K := tpmKey k0 in
  exact_window (W rl) → exact_clock (ms t) → st_clock (y_auth s) ≤ t → reqIDCounter (y_lim s) + 1 < 2 ^ 64 →
  token_inv rl inst K (ms (st_clock (y_auth s))) (y_lim s) log → bill_step s t s' bills →
  token_inv rl inst K (ms t) (y_lim s') (bills ++ log) ∧
  reqIDCounter (y_lim s') ≤ reqIDCounter (y_lim s) + 1.
Proof.
  intros K HW Ht53 Hclk Hc Hinv Hst. pose proof (tinv_counter _ _ _ _ _ _ Hinv) as Hc0.
  assert (ms (st_clock (y_auth s)) ≤ ms t) as Hms by (apply Z.div_le_mono; [by compute|done]).
  assert (token_inv rl inst K (ms t) (y_lim s) log) as Hsame.
  { eapply token_inv_same; [exact Hms|done|apply Hinv|lia|exact Hinv]. }
  destruct Hst as [i p e net ops o s1 Hi Hok Hl|s' Hst Hp].
  - cbn [y_lim on_pend]. destruct (leave_owed _ _ _ _ _ _ _ _ _ log Hi Hok Hl) as [[-> ->]|(info&n&Heq)]; [split; [done|lia]|].
    pose proof (token_inv_record rl inst k0 _ (ms t) info n net (y_lim s) log Hms Ht53 HW Hc Hinv) as Hrec.
    cbv zeta in Hrec. rewrite <-Heq in Hrec. split; [done|].
    assert (y_lim s1 = (RecordTokens rl inst info n (ms t) net (y_lim s)).2) as -> by (by injection Heq).
    by apply RecordTokens_counter.
  - destruct (step_kinds s t s' Hst) as [(i&p&e&net&ops&o&s1&Hi&Hl&->)|[_ Hlim]].
    { destruct (leave_state _ _ _ _ _ _ _ _ _ _ _ _ _ _ _ Hl) as (g&l&->&_). cbn [y_pend on_pend on_gw on_lim] in Hp.
      apply (lookup_weaken _ _ _ _ Hi) in Hp. by rewrite lookup_delete_eq in Hp. }
    destruct Hlim as [->|[(info&net&->)| ->]].
    + split; [done|lia].
    + split; [by eapply token_inv_reserve|]. by apply Reserve_counter.
    + split; [by eapply token_inv_expire|]. cbn. lia.
Qed.

Lemma bill_reach_clock s0 n s log : bill_reach s0 n s log → st_clock (y_auth s0) ≤ st_clock (y_auth s).
Proof. induction 1 as [|n s log t s' bills _ IH Hclk _]; [done|]. cbn. lia. Qed.

Lemma bill_reach_inv k0 s0 n s log :
  let K := tpmKey k0 in
  exact_window (W rl) → 0 ≤ st_clock (y_auth s0) → exact_clock (ms (st_clock (y_auth s))) →
  reqIDCounter (y_lim s0) + Z.of_nat n < 2 ^ 64 →
  token_inv rl inst K (ms (st_clock (y_auth s0))) (y_lim s0) [] → bill_reach s0 n s log →
  token_inv rl inst K (ms (st_clock (y_auth s))) (y_lim s) log ∧
  reqIDCounter (y_lim s) ≤ reqIDCounter (y_lim s0) + Z.of_nat n.
Proof.
  intros K HW Hpos Hck Hc Hi Hr. induction Hr as [|n s log t s' bills Hr IH Hclk Hst]; [split; [done|lia]|].
  pose proof (bill_reach_clock _ _ _ _ Hr). cbn in Hck.
  destruct IH as [Hinv Hcnt]; [by eapply (exact_between (st_clock (y_auth s0)) _ t)|lia|].
  destruct (bill_step_inv k0 s t s' bills log HW Hck Hclk ltac:(lia) Hinv Hst) as [Hinv' Hcnt'].
  split; [done|]. cbn [y_lim at_time on_auth]. lia.
Qed.

End Bills.

(** ** Witness: three tokens per minute, spent by one answer *)

Definition bill_row : APIKey :=
  mkAPIKey "key1" demo_hash "sk-gw-abc" "org1" "ci" [] 60 3 true 0 (Some 1000000000000) None.
Definition bill_sys : Sys (L := MapLRU.lru) (rdb := MapRedis.db) :=
  mkSys (mksys (mkDB {[ "key1" := bill_row ]} {[ "org1" := demo_org ]}) (NewCached (60 * Second) 100) ∅ 0)
    (mkLimState MapRedis.empty_db 0) 0 Integration.demo_state ∅ [].
Definition bill_req : Req :=
  mkReq "POST" "/v1/chat/completions" "Bearer sk-gw-abc"
    (Reader (dq "{'model':'claude','messages':[{'role':'user','content':'hi'}]}") None) None.
Definition bill_up (id : nat) (req : ChatCompletionRequest) : CallEnv ChatCompletionResponse :=
  mkCallEnv (λ _, inl WireProps.demo_reply) (λ _, None) (λ _, f64_zero) 0 (λ _, 10).
Definition bill_chat : ChatEnv := mkChatEnv bill_up demo_up_stream (rand_Float64 3) 10 None true false.

(** The request has entered, and has left. *)
Definition bill_entered := enter (encode_payload (H := no_times)) (sys_auth Second None)
  (sys_limiter tight_rl "abc" Second NetOk Second NetOk) tight_env bill_req (mkObs None [] []) bill_sys.
Definition bill_in : Sys := at_time Second (settle 0 tight_env true Second bill_entered.1 bill_entered.2).
Definition bill_pending : Pending :=
  default (mkPending NoKey bill_req (mkObs None [] []) tight_env true) (y_pend bill_in !! 0%nat).
Definition bill_left := leave (parse_total (H := no_times))
  (sys_limiter tight_rl "abc" (2 * Second) NetOk (2 * Second) NetOk) false (pd_env bill_pending)
  (lift (gw_leaf (encode_payload (H := no_times)) (marshal_chunk (H := no_times)) (decode_chat (H := no_times) demo_text)
    demo_router demo_htps (pd_chat bill_pending) bill_chat)) (pd_ticket bill_pending) (pd_req bill_pending) (pd_obs bill_pending) bill_in.
Definition bill_out : Sys :=
  at_time (2 * Second) (on_pend (delete 0%nat (y_pend bill_left.2)) (y_served bill_left.2) bill_left.2).
Definition bill_log : list TokenRec :=
  owed (H3 := no_times) demo_text tight_rl "abc" demo_router demo_htps (2 * Second) NetOk bill_pending bill_chat bill_in.

Abbreviation bill_runs := (bill_reach (H3 := no_times) (L := MapLRU.lru) (rdb := MapRedis.db) demo_text demo_uuid tight_rl
  "abc" "admin" demo_router demo_htps bill_sys).

Lemma bill_in_reach : bill_runs 1 bill_in [].
Proof.
  change (@nil TokenRec) with (@nil TokenRec ++ []). unfold bill_in. apply br_step with (s := bill_sys); [constructor|vm_compute; discriminate|].
  apply bs_other.
  - apply sy_enter with (conn := None) (net := NetOk) (r := bill_req) (o := mkObs None [] []); [reflexivity|].
    by destruct bill_entered eqn:E.
  - apply map_empty_subseteq.
Qed.

Lemma bill_wired : wired (H3 := no_times) demo_text bill_chat.
Proof.
  intros id req k resp [= <-]. exists demo_wire_net, demo_adapter, [], 0, demo_wire_req.
  split; [constructor|]. split; [vm_compute; split; discriminate|]. split; [reflexivity|]. split; [vm_compute; discriminate|].
  apply elem_of_cons. left. vm_compute. reflexivity.
Qed.

Lemma bill_out_reach : bill_runs 2 bill_out (bill_log ++ []).
Proof.
  unfold bill_out. eapply br_step; [exact bill_in_reach|vm_compute; discriminate|].
  destruct bill_left as [[ops o] s1] eqn:E. cbn [snd].
  apply (bs_leave _ _ _ _ _ _ _ _ _ 0%nat bill_pending bill_chat NetOk ops o s1).
  - vm_compute. reflexivity.
  - exact bill_wired.
  - exact E.
Qed.

