(* ===== verification/Startup.v ===== *)
(** * Start-up

    Models the wiring of src/cmd/gateway/main.go: [buildProviders],
    [buildAuth], [buildRateLimiter] and [setupLogger].  A [log.Fatalf] is the
    error of a sum; connections are opened and closed through [Connect].  The
    loop over the provider map is run in the order [order] in which Go happens
    to iterate it. *)

From stdpp Require Import sorting.
From S2P Require Import Prelude GoStrings Float64 Model Health Metrics Retry Registry RateLimit.
From S2P Require Import Strategies Config Router Auth Upstream OpenAI Anthropic Google.
From S2P Require Import Store Connect Middleware Integration.
Local Open Scope Z_scope.

(** ** Providers *)

(** What the loop has built so far: the registry, the decorated providers with
    their health objects, by identity, [healthProviders], and the metrics and
    log lines emitted. *)
Record Built := mkBuilt {
  bt_registry : Registry;
  bt_htps : gmap nat HealthTrackingProvider;
  bt_worlds : gmap nat World;
  bt_healthProviders : gmap string nat;
  bt_metrics : list MetricEvent;
  bt_log : list LogLine;
}.

Definition bt_warn (line : LogLine) (b : Built) : Built :=
  {| bt_registry := bt_registry b; bt_htps := bt_htps b; bt_worlds := bt_worlds b;
     bt_healthProviders := bt_healthProviders b; bt_metrics := bt_metrics b;
     bt_log := bt_log b ++ [line] |}.

(** The [switch] on the provider's name: the identity given to the object, its
    own name, and the adapter. *)
Definition new_adapter (name : string) (cfg : AdapterConfig) : option (nat * string * AdapterConfig) :=
  if bool_decide (name = "openai") then Some (0%nat, openai_Name, openai_New cfg)
  else if bool_decide (name = "anthropic") then Some (1%nat, anthropic_Name, anthropic_New cfg)
  else if bool_decide (name = "google") then Some (2%nat, google_Name, google_New cfg)
  else None.

Definition adapter_config (pc : ProviderConfig) : AdapterConfig :=
  mkAdapterConfig (pc_APIKey pc) (pc_BaseURL pc) (pc_Timeout pc) (pc_Models pc).

(** One iteration of the loop over [cfg.Providers]. *)
Definition build_provider (healthCfg : HealthConfig) (acc : Built) (entry : string * ProviderConfig) : Built :=
  let '(name, pc) := entry in
  if bool_decide (pc_APIKey pc = "") then
    bt_warn (mkLogLine Warn "skipping provider with no API key" [("provider", AStr name)]) acc
  else match new_adapter name (adapter_config pc) with
  | None => bt_warn (mkLogLine Warn "unknown provider, skipping" [("provider", AStr name)]) acc
  | Some (id, own, base) =>
      let '(wrapped, w) := NewHealthTrackingProvider own (ac_Models base) healthCfg
                             (mkRetryConfig (pc_MaxRetries pc) (pc_RetryBackoff pc)) in
      {| bt_registry := Register (Tracked id (Name wrapped)) (Models wrapped) (bt_registry acc);
         bt_htps := <[id := wrapped]> (bt_htps acc);
         bt_worlds := <[id := w]> (bt_worlds acc);
         bt_healthProviders := <[name := id]> (bt_healthProviders acc);
         bt_metrics := bt_metrics acc ++ SetProviderHealth name true;
         bt_log := bt_log acc |}
  end.

Definition no_providers : Built := mkBuilt NewRegistry ∅ ∅ ∅ [] [].

(** One iteration of the loop over the sorted aliases. *)
Definition register_alias (als : gmap string string) (acc : Registry * list LogLine) (alias : string)
    : Registry * list LogLine :=
  let target := default "" (als !! alias) in
  match RegisterAlias alias target acc.1 with
  | (Some err, r) =>
      (r, acc.2 ++ [mkLogLine Warn "skipping model alias with unregistered target"
             [("alias", AStr alias); ("target", AStr target); ("err", AStr err)]])
  | (None, r) =>
      (r, acc.2 ++ [mkLogLine Info "registered model alias" [("alias", AStr alias); ("target", AStr target)]])
  end.

Definition register_aliases (als : gmap string string) (acc : Registry * list LogLine)
    : Registry * list LogLine :=
  foldl (register_alias als) acc (sort_Strings (map_to_list als).*1).

Definition buildProviders (cfg : Config) (order : list (string * ProviderConfig)) : Built :=
  let healthCfg := mkHealthConfig (hs_FailureThreshold (HealthCfg cfg)) (hs_CooldownPeriod (HealthCfg cfg)) in
  let b := foldl (build_provider healthCfg) no_providers order in
  let al := register_aliases (ModelAliases cfg) (bt_registry b, []) in
  {| bt_registry := al.1; bt_htps := bt_htps b; bt_worlds := bt_worlds b;
     bt_healthProviders := bt_healthProviders b; bt_metrics := bt_metrics b;
     bt_log := bt_log b ++ al.2 |}.

(** ** Authentication, rate limiting, logging *)

Inductive AuthMode := AuthAllowAll | AuthCached (ttl size : Z).

(** [NewAllowAll] warns that authentication is off. *)
Definition NewAllowAll : list IO :=
  [IWarn ("auth disabled " +:+ bytes [226; 128; 148]%N +:+
          " every request will be authenticated as the dev key (do NOT run this in production)")].

Section Wiring.
Context `{ConnLib}.

(** The authenticator, whether the admin handler exists, and the deferred
    closer, with the handles opened and closed on the way. *)
Definition buildAuth (cfg : Config) : (string + AuthMode * bool * list Handle) * list IO :=
  if negb (au_Enabled (AuthCfg cfg)) then (inr (AuthAllowAll, false, []), NewAllowAll)
  else
    let pg := db_Postgres (Database cfg) in
    match NewPool (pg_DSN pg) (pg_MaxConnections pg) with
    | (inl e, io) => (inl ("failed to connect to postgres: " +:+ e), io)
    | (inr _, io) =>
        let done := inr (AuthCached (au_CacheTTL (AuthCfg cfg)) (au_CacheSize (AuthCfg cfg)), true, [HPool]) in
        if pg_AutoMigrate pg then
          match RunMigrations (pg_DSN pg) with
          | (Some e, io') => (inl ("failed to apply migrations: " +:+ e), io ++ io' ++ [IClose HPool])
          | (None, io') => (done, io ++ io')
          end
        else (done, io)
    end.

(** The limiter and its deferred closer. *)
Definition buildRateLimiter (cfg : Config) : (string + option redisLimiter * list Handle) * list IO :=
  if negb (RLEnabled (RateLimitCfg cfg)) then (inr (None, []), [])
  else match Connect.NewRedis (rd_DSN (db_Redis (Database cfg))) with
  | (Some e, io) => (inl ("failed to connect to redis: " +:+ e), io)
  | (None, io) => (inr (Some (RateLimit.NewRedis (RateLimitCfg cfg)), [HRedis]), io)
  end.
End Wiring.

Definition setupLogger_level (cfg : LogConfig) : Level :=
  if bool_decide (lg_Level cfg = "debug") then Debug
  else if bool_decide (lg_Level cfg = "warn") then Warn
  else if bool_decide (lg_Level cfg = "error") then LError
  else Info.

Inductive LogFormat := TextHandler | JSONHandler.

(** The default logger: its handler and its level. *)
Definition setupLogger (cfg : LogConfig) : LogFormat * Level :=
  (if bool_decide (lg_Format cfg = "text") then TextHandler else JSONHandler, setupLogger_level cfg).

(** ** The registry that is built *)

Lemma Register_lookup p ms r m :
  models (Register p ms r) !! m = if bool_decide (m ∈ ms) then Some p else models r !! m.
Proof.
  simpl. generalize (models r). induction ms as [|x ms IH] using rev_ind; intros M.
  { rewrite bool_decide_false; [done|]. by intros ?%elem_of_nil. }
  rewrite foldl_snoc, lookup_insert. destruct (decide (x = m)) as [->|Hx].
  - rewrite bool_decide_true; [done|set_solver].
  - rewrite IH. repeat case_bool_decide; set_solver.
Qed.

(** Every model goes to a tracked provider whose decorator and health object
    exist. *)
Definition built_wf (b : Built) : Prop :=
  ∀ m p, models (bt_registry b) !! m = Some p →
    ∃ id h w, p = Tracked id (wrapped_Name h) ∧ bt_htps b !! id = Some h ∧ bt_worlds b !! id = Some w ∧
      0 ≤ MaxRetries (retry h) ∧ ∀ t, IsHealthy t (w_health w) = true.

Definition retries_ok (entry : string * ProviderConfig) : Prop := 0 ≤ pc_MaxRetries entry.2.

Lemma new_adapter_name name cfg id own base :
  new_adapter name cfg = Some (id, own, base) → own = name ∧ ac_Models base = ac_Models cfg ∧
  (name = "openai" ∧ id = 0%nat ∨ name = "anthropic" ∧ id = 1%nat ∨ name = "google" ∧ id = 2%nat).
Proof. unfold new_adapter. repeat case_bool_decide; intros [= <- <- <-]; subst; auto 10. Qed.

(** Provider objects keep their identity: one per name. *)
Definition ids_ok (b : Built) : Prop :=
  ∀ id h, bt_htps b !! id = Some h → ∀ name cfg own base,
    new_adapter name cfg = Some (id, own, base) → wrapped_Name h = own.

Lemma new_adapter_id n1 n2 c1 c2 id o1 o2 b1 b2 :
  new_adapter n1 c1 = Some (id, o1, b1) → new_adapter n2 c2 = Some (id, o2, b2) → n1 = n2.
Proof. intros H1%new_adapter_name H2%new_adapter_name. naive_solver. Qed.

Lemma build_provider_wf healthCfg acc entry :
  retries_ok entry → built_wf acc ∧ ids_ok acc →
  built_wf (build_provider healthCfg acc entry) ∧ ids_ok (build_provider healthCfg acc entry).
Proof.
  destruct entry as [name pc]. unfold retries_ok. simpl. intros Hret [Hwf Hids].
  case_bool_decide; [done|]. destruct (new_adapter name (adapter_config pc)) as [[[id own] base]|] eqn:Ea; [|done].
  destruct (new_adapter_name _ _ _ _ _ Ea) as (->&_&_).
  set (hw := NewHealthTrackingProvider name (ac_Models base) healthCfg
    (mkRetryConfig (pc_MaxRetries pc) (pc_RetryBackoff pc))). split.
  - intros m p. cbn [bt_registry]. rewrite Register_lookup. case_bool_decide.
    + intros [= <-]. exists id, hw.1, hw.2. simpl. rewrite !lookup_insert_eq. done.
    + intros Hm. destruct (Hwf m p Hm) as (id'&h&w&->&Hh&Hw&Hmax&Hhl). simpl.
      destruct (decide (id' = id)) as [->|Hne].
      * pose proof (Hids id h Hh _ _ _ _ Ea) as Hn. exists id, hw.1, hw.2.
        by rewrite !lookup_insert_eq, Hn.
      * exists id', h, w. rewrite !lookup_insert_ne by done. done.
  - intros id' h. simpl. rewrite lookup_insert. case_decide as Hid; [|apply Hids].
    subst id'. intros [= <-] name' cfg own base' Ea'. simpl.
    rewrite (new_adapter_id _ _ _ _ _ _ _ _ _ Ea Ea'). by apply new_adapter_name in Ea' as [-> _].
Qed.

Lemma build_loop_wf healthCfg order acc :
  Forall retries_ok order → built_wf acc ∧ ids_ok acc →
  built_wf (foldl (build_provider healthCfg) acc order).
Proof.
  intros Hok. revert acc. induction Hok as [|e order He _ IH]; intros acc Hacc; [by destruct Hacc|].
  simpl. apply IH. by apply build_provider_wf.
Qed.

(** An alias adds a name for a provider that is already registered. *)
Lemma RegisterAlias_lookup alias target r m p :
  models (RegisterAlias alias target r).2 !! m = Some p → ∃ m', models r !! m' = Some p.
Proof.
  unfold RegisterAlias. destruct (models r !! alias); [by eauto|].
  destruct (models r !! target) as [q|] eqn:Et; [|by eauto]. simpl. rewrite lookup_insert.
  case_decide; [intros [= <-]|]; by eauto.
Qed.

Lemma register_aliases_lookup als r lines m p :
  models (register_aliases als (r, lines)).1 !! m = Some p → ∃ m', models r !! m' = Some p.
Proof.
  unfold register_aliases. generalize (sort_Strings (map_to_list als).*1). intros l.
  revert r lines m. induction l as [|a l IH]; intros r lines m; simpl; [by eauto|].
  unfold register_alias at 2. simpl.
  destruct (RegisterAlias a (default "" (als !! a)) r) as [[e|] r1] eqn:E;
    intros [m' Hm']%IH; eapply (RegisterAlias_lookup a); by rewrite E.
Qed.

(** Start-up establishes what request handling relies on.  Whatever the
    iteration order and the aliases, every resolvable name of the registry
    goes to a provider whose decorator and health object were created, that
    starts out available, and whose retry count is the configured one. *)
Theorem startup_providers_wf (cfg : Config) (order : list (string * ProviderConfig)) (r : defaultRouter)
    (st : RouteState) (Hret : Forall retries_ok order)
    (Hr : rt_registry r = bt_registry (buildProviders cfg order)) :
  let b := buildProviders cfg order in
  providers_wf r (bt_htps b) (mkGwState st (bt_worlds b)) ∧
  ∀ m p, models (rt_registry r) !! m = Some p → ∃ id n w, p = Tracked id n ∧
    bt_worlds b !! id = Some w ∧ ∀ t, IsHealthy t (w_health w) = true.
Proof.
  set (hc := mkHealthConfig (hs_FailureThreshold (HealthCfg cfg)) (hs_CooldownPeriod (HealthCfg cfg))).
  assert (built_wf (foldl (build_provider hc) no_providers order)) as Hwf.
  { apply build_loop_wf; [done|]. split; [intros m p|intros id h]; simpl; rewrite lookup_empty; done. }
  assert (∀ m p, models (rt_registry r) !! m = Some p →
    ∃ m', models (bt_registry (foldl (build_provider hc) no_providers order)) !! m' = Some p) as Hm.
  { intros m p. rewrite Hr. apply register_aliases_lookup. }
  split; intros m p Hp; destruct (Hm m p Hp) as [m' Hp'];
    destruct (Hwf m' p Hp') as (id&h&w&->&Hh&Hw&Hmax&Hhl); [by exists id, h, w|by exists id, (wrapped_Name h), w].
Qed.

(** ** Independence of the iteration order *)

Lemma Register_comm p1 p2 ms1 ms2 r :
  (∀ m, m ∈ ms1 → m ∉ ms2) → Register p1 ms1 (Register p2 ms2 r) = Register p2 ms2 (Register p1 ms1 r).
Proof.
  intros Hd. assert (∀ x y, models x = models y → aliases x = aliases y → x = y) as Heq.
  { intros [] []; simpl; congruence. }
  apply Heq; [|done]. apply map_eq. intros m. rewrite !Register_lookup.
  repeat case_bool_decide; try done. by destruct (Hd m).
Qed.

(** Entries with different names whose models do not overlap. *)
Definition independent (e1 e2 : string * ProviderConfig) : Prop :=
  e1.1 ≠ e2.1 ∧ ∀ m, m ∈ pc_Models e1.2 → m ∉ pc_Models e2.2.

(** Results that differ at most in the order of their metrics and log lines. *)
Record built_eqv (b1 b2 : Built) : Prop := {
  be_registry : bt_registry b1 = bt_registry b2;
  be_htps : bt_htps b1 = bt_htps b2;
  be_worlds : bt_worlds b1 = bt_worlds b2;
  be_health : bt_healthProviders b1 = bt_healthProviders b2;
  be_metrics : bt_metrics b1 ≡ₚ bt_metrics b2;
  be_log : bt_log b1 ≡ₚ bt_log b2;
}.

#[export] Instance built_eqv_equivalence : Equivalence built_eqv.
Proof.
  split.
  - intros b. by split.
  - intros b1 b2 []. by split; symmetry.
  - intros b1 b2 b3 [] []. split; by etrans.
Qed.

#[export] Instance build_provider_proper hc : Proper (built_eqv ==> eq ==> built_eqv) (build_provider hc).
Proof.
  intros b1 b2 [Hr Hh Hw Hp Hm Hl] ? [name pc] ->. unfold build_provider, bt_warn.
  case_bool_decide; [split; simpl; by rewrite ?Hm, ?Hl|].
  destruct (new_adapter _ _) as [[[id own] base]|]; split; simpl; congruence || by rewrite ?Hm, ?Hl.
Qed.

Lemma build_provider_comm hc acc e1 e2 :
  independent e1 e2 →
  built_eqv (build_provider hc (build_provider hc acc e1) e2) (build_provider hc (build_provider hc acc e2) e1).
Proof.
  assert (∀ {A} (l l1 l2 : list A), (l ++ l1) ++ l2 ≡ₚ (l ++ l2) ++ l1) as Hswap.
  { intros A l l1 l2. rewrite <-!(assoc_L (++)). f_equiv. apply Permutation_app_comm. }
  destruct e1 as [n1 c1], e2 as [n2 c2]. intros [Hn Hd]. simpl in Hn, Hd. unfold build_provider, bt_warn.
  destruct (bool_decide (pc_APIKey c1 = "")), (bool_decide (pc_APIKey c2 = ""));
    destruct (new_adapter n1 (adapter_config c1)) as [[[id1 o1] b1]|] eqn:E1;
    destruct (new_adapter n2 (adapter_config c2)) as [[[id2 o2] b2]|] eqn:E2;
    try (split; simpl; done || apply Hswap).
  assert (id1 ≠ id2) as Hid by (intros ->; apply Hn; by eapply new_adapter_id).
  apply new_adapter_name in E1 as (_&Hm1&_), E2 as (_&Hm2&_). simpl in Hm1, Hm2.
  split; simpl; [|by apply insert_insert_ne..|apply Hswap|done].
  apply Register_comm. unfold Models. simpl. rewrite Hm1, Hm2. intros m H2 H1. by apply (Hd m).
Qed.

Lemma foldl_perm {A B} (R : relation B) `{!Equivalence R} (f : B → A → B)
    `{!Proper (R ==> eq ==> R) f} (l1 l2 : list A) :
  l1 ≡ₚ l2 → NoDup l1 →
  (∀ x y b, x ∈ l1 → y ∈ l1 → x ≠ y → R (f (f b x) y) (f (f b y) x)) →
  ∀ b1 b2, R b1 b2 → R (foldl f b1 l1) (foldl f b2 l2).
Proof.
  assert (∀ l b1 b2, R b1 b2 → R (foldl f b1 l) (foldl f b2 l)) as Hfold.
  { intros l. induction l as [|x l IH]; intros b1 b2 Hb; [done|]. simpl. apply IH. by rewrite Hb. }
  induction 1 as [|x l1 l2 Hp IH|x y l|l1 l2 l3 Hp1 IH1 Hp2 IH2]; intros Hnd Hc b1 b2 Hb; simpl; [done| | |].
  - apply NoDup_cons in Hnd as [_ Hnd]. apply IH; [done| |by rewrite Hb]. intros; apply Hc; set_solver.
  - apply NoDup_cons in Hnd as [Hy _]. apply Hfold. rewrite Hb. apply Hc; set_solver.
  - etrans; [apply (IH1 Hnd Hc b1 b2 Hb)|]. apply IH2; [by rewrite <-Hp1| |done].
    intros x y b' Hx Hy. apply Hc; by rewrite Hp1.
Qed.

(** Start-up does not depend on Go's map iteration order, provided no
    model is listed by two of the configured providers: any two orders of the
    provider map build the same registry, decorators and health objects, and
    emit the same metrics and log lines up to their order. *)
Theorem startup_order_independent (cfg : Config) (order1 order2 : list (string * ProviderConfig))
    (H1 : order1 ≡ₚ map_to_list (Providers cfg)) (H2 : order2 ≡ₚ map_to_list (Providers cfg))
    (Hd : ∀ n1 n2 c1 c2, Providers cfg !! n1 = Some c1 → Providers cfg !! n2 = Some c2 → n1 ≠ n2 →
       ∀ m, m ∈ pc_Models c1 → m ∉ pc_Models c2) :
  built_eqv (buildProviders cfg order1) (buildProviders cfg order2).
Proof.
  unfold buildProviders. set (hc := mkHealthConfig _ _).
  enough (built_eqv (foldl (build_provider hc) no_providers order1) (foldl (build_provider hc) no_providers order2))
    as [-> Hh Hw Hp Hm Hl] by (split; simpl; done || by rewrite Hl).
  apply foldl_perm; [apply _..|by rewrite H1, H2|rewrite H1; apply NoDup_map_to_list| |done].
  intros [n1 c1] [n2 c2] b Hx Hy Hne. rewrite H1 in Hx, Hy.
  apply elem_of_map_to_list in Hx, Hy. assert (n1 ≠ n2) as Hn by congruence.
  apply build_provider_comm. split; [done|]. simpl. by apply (Hd n1 n2).
Qed.

(** ** Witnesses and an order-dependent configuration *)

Definition demo_pc (ms : list string) : ProviderConfig := mkProviderConfig "key" "" 0 ms 2 Second.
Definition demo_cfg (ps : gmap string ProviderConfig) (als : gmap string string) : Config :=
  mkConfig (mkServerConfig 8080 0 0) ps als (mkHealthSettings 3 (30 * Second)) (mkLogConfig "info" "json" false)
    (mkDatabaseConfig (mkPostgresConfig "" false 0) (mkRedisConfig "")) (mkAuthConfig false "" 0 0)
    (mkRateLimitConfig false 0 0) (mkMetricsConfig false 0) (mkRoutingConfig "priority" 3 ∅ ∅).

Definition two : gmap string ProviderConfig :=
  <["openai" := demo_pc ["gpt-4o"]]> (<["google" := demo_pc ["gemini"]]> ∅).

Lemma startup_order_independent_witness :
  built_eqv
    (buildProviders (demo_cfg two ∅) [("openai", demo_pc ["gpt-4o"]); ("google", demo_pc ["gemini"])])
    (buildProviders (demo_cfg two ∅) [("google", demo_pc ["gemini"]); ("openai", demo_pc ["gpt-4o"])]).
Proof.
  assert (map_to_list (Providers (demo_cfg two ∅)) ≡ₚ
    [("openai", demo_pc ["gpt-4o"]); ("google", demo_pc ["gemini"])]) as Hp.
  { simpl. unfold two. rewrite map_to_list_insert, map_to_list_insert, map_to_list_empty; try done. }
  apply (startup_order_independent (demo_cfg two ∅)).
  - by rewrite Hp.
  - rewrite Hp. apply Permutation_swap.
  - simpl. unfold two. intros n1 n2 c1 c2. rewrite !lookup_insert_Some, lookup_empty.
    intros [[<- <-]|[? [[<- <-]|[_ [=]]]]] [[<- <-]|[? [[<- <-]|[_ [=]]]]] ? m; simpl; set_solver.
Defined.

Lemma startup_providers_wf_witness :
  let b := buildProviders (demo_cfg two ∅) [("openai", demo_pc ["gpt-4o"])] in
  providers_wf (mkRouter (bt_registry b) ∅ ∅ 0 ∅) (bt_htps b) (mkGwState (mkRouteState ∅ ∅ []) (bt_worlds b)).
Proof.
  apply (startup_providers_wf (demo_cfg two ∅) [("openai", demo_pc ["gpt-4o"])]); [|reflexivity].
  repeat constructor; done.
Defined.

(** Two providers that list the same model: the iteration order decides which
    one serves it. *)
Example shared_model_order :
  let a := ("openai", demo_pc ["shared"]) in
  let b := ("google", demo_pc ["shared"]) in
  let cfg := demo_cfg (<["openai" := demo_pc ["shared"]]> (<["google" := demo_pc ["shared"]]> ∅)) ∅ in
  Resolve "shared" (bt_registry (buildProviders cfg [a; b])) = inr (Tracked 2 "google") ∧
  Resolve "shared" (bt_registry (buildProviders cfg [b; a])) = inr (Tracked 0 "openai").
Proof. vm_compute. split; reflexivity. Qed.
