(* ===== verification/Lifecycle.v ===== *)
(** * The life of the process

    Models [main], [buildMetricsServer] and [shutdownAll] of
    src/cmd/gateway/main.go.  [boot] is everything up to the two listeners;
    from there the process is a state machine: the listener goroutines and the
    signal handler are the environment ([env_step]), the [select] and the
    shutdown are the steps of the main goroutine ([main_step]). *)

From S2P Require Import Prelude GoStrings Float64 Model Health Metrics Retry Registry RateLimit.
From S2P Require Import Strategies Config Router Auth Http Middleware Store Connect Startup.
Local Open Scope Z_scope.

Definition shutdownTimeout : Z := 30 * Second.

(** [http.Server]; [hs_Patterns] are the patterns of the mux, for the metrics
    server. *)
Record HTTPServer := mkHTTPServer {
  hs_Addr : string;
  hs_ReadTimeout : Z;
  hs_ReadHeaderTimeout : Z;
  hs_WriteTimeout : Z;
  hs_Patterns : list string;
}.

Definition buildMetricsServer (cfg : MetricsConfig) : option HTTPServer :=
  if negb (mc_Enabled cfg) then None
  else Some {| hs_Addr := ":" +:+ Itoa (mc_Port cfg); hs_ReadTimeout := 0;
               hs_ReadHeaderTimeout := 5 * Second; hs_WriteTimeout := 10 * Second;
               hs_Patterns := ["/metrics"; "/health"] |}.

(** ** Boot *)

(** What [main] reads: the environment variable, the configuration decoder,
    the iteration orders of two maps, and [math.Exp]. *)
Record MainEnv := mkMainEnv {
  me_configPath : string;
  me_decode : string → string + Config;
  me_order : Config → list (string * ProviderConfig);
  me_groups : Config → list (string * ModelGroupConfig);
  me_exp : f64 → f64;
}.

(** The running gateway; [ap_defers] are the handles that the deferred calls
    of [main] close, in the order in which they run. *)
Record App := mkApp {
  ap_cfg : Config;
  ap_logger : LogFormat * Level;
  ap_built : Built;
  ap_auth : AuthMode;
  ap_admin : bool;
  ap_limiter : option redisLimiter;
  ap_router : defaultRouter;
  ap_strategies : Builder;
  ap_http : HTTPServer;
  ap_metrics : option HTTPServer;
  ap_defers : list Handle;
}.

Section Boot.
Context `{ConnLib}.

Definition boot (env : MainEnv) : (string + App) * list IO :=
  let configPath := if bool_decide (me_configPath env = "") then "configs/gateway.yaml"
                    else me_configPath env in
  match Load (me_decode env) configPath with
  | inl e => (inl ("failed to load config: " +:+ e), [])
  | inr cfg =>
      let b := buildProviders cfg (me_order env cfg) in
      match buildAuth cfg with
      | (inl e, io1) => (inl e, io1)
      | (inr (authenticator, adminKeys, closer), io1) =>
          match buildRateLimiter cfg with
          | (inl e, io2) => (inl e, io1 ++ io2)
          | (inr (limiter, limiterCloser), io2) =>
              match NewRouter (Some (bt_registry b)) (Routing cfg) (me_groups env cfg) (Providers cfg)
                      (Some (Builder_Build (me_exp env))) NewBuilder with
              | (inl e, _) => (inl ("failed to build router: " +:+ e), io1 ++ io2)
              | (inr rtr, strategies) =>
                  (inr {| ap_cfg := cfg; ap_logger := setupLogger (Log cfg); ap_built := b;
                          ap_auth := authenticator; ap_admin := adminKeys; ap_limiter := limiter;
                          ap_router := rtr; ap_strategies := strategies;
                          ap_http := {| hs_Addr := ":" +:+ Itoa (sv_Port (Server cfg));
                                        hs_ReadTimeout := sv_ReadTimeout (Server cfg);
                                        hs_ReadHeaderTimeout := 0;
                                        hs_WriteTimeout := sv_WriteTimeout (Server cfg);
                                        hs_Patterns := [] |};
                          ap_metrics := buildMetricsServer (MetricsCfg cfg);
                          ap_defers := limiterCloser ++ closer |}, io1 ++ io2)
              end
          end
      end
  end.
End Boot.

(** ** Shutdown *)

(** How a server's [Shutdown] goes by itself: the time until its connections
    are idle, and the error of closing its listeners, if any. *)
Record Drain := mkDrain { dr_time : Z; dr_err : option string }.

(** [Shutdown] returns when the connections are idle or the context ends. *)
Definition Shutdown (timeout : Z) (d : Drain) : option string * Z :=
  if dr_time d <=? timeout then (dr_err d, dr_time d)
  else (Some "context deadline exceeded", timeout).

(** One goroutine per server that is not nil, and the wait for all of them:
    the log lines (in the order of the servers) and the time taken. *)
Fixpoint shutdownAll (timeout : Z) (servers : list (option HTTPServer * Drain)) : list LogLine * Z :=
  match servers with
  | [] => ([], 0)
  | (None, _) :: servers => shutdownAll timeout servers
  | (Some s, d) :: servers =>
      let '(err, t) := Shutdown timeout d in
      let '(lines, t') := shutdownAll timeout servers in
      (match err with
       | Some e => [mkLogLine LError "graceful shutdown failed" [("addr", AStr (hs_Addr s)); ("err", AStr e)]]
       | None => []
       end ++ lines, Z.max t t')
  end.

(** ** The running process *)

(** An error channel of capacity 1; the listener goroutine sends at most one
    error and closes it. *)
Record Chan := mkChan { ch_buf : list string; ch_closed : bool }.
Definition fresh_chan : Chan := mkChan [] false.

(** What a receive yields: [None] while it blocks, [Some None] once the
    channel is closed and empty. *)
Definition recv (c : Chan) : option (option string) :=
  match ch_buf c with
  | e :: _ => Some (Some e)
  | [] => if ch_closed c then Some None else None
  end.

(** The listener goroutine after [ListenAndServe] has returned; [None] stands
    for [http.ErrServerClosed]. *)
Definition listener_end (err : option string) : Chan :=
  mkChan (match err with Some e => [e] | None => [] end) true.

(** Waiting in the [select]; shutting the servers down since [start]; running
    the deferred closers that are left, the servers having been shut down at
    [ended]; gone. *)
Inductive Phase :=
| PSelect
| PShutdown (exitCode start : Z)
| PClosing (start ended : Z) (closers : list Handle)
| PExited (exitCode start : Z).

(** [mn_metrics = None]: the nil channel of a disabled metrics server. *)
Record Main := mkMain {
  mn_http : Chan;
  mn_metrics : option Chan;
  mn_signalled : bool;
  mn_phase : Phase;
  mn_now : Z;
  mn_log : list LogLine;
  mn_io : list IO;
}.

Definition started (app : App) (io : list IO) (t0 : Z) : Main :=
  {| mn_http := fresh_chan; mn_metrics := (λ _, fresh_chan) <$> ap_metrics app; mn_signalled := false;
     mn_phase := PSelect; mn_now := t0; mn_log := []; mn_io := io |}.

(** Leaving the [select] with this exit code and log line. *)
Definition wake (code : Z) (lines : list LogLine) (t : Z) (st : Main) : Main :=
  {| mn_http := mn_http st; mn_metrics := mn_metrics st; mn_signalled := mn_signalled st;
     mn_phase := PShutdown code t; mn_now := t; mn_log := mn_log st ++ lines; mn_io := mn_io st |}.

(** The [select] case of an error channel. *)
Definition on_chan (msg : string) (e : option string) (t : Z) (st : Main) : Main :=
  match e with
  | Some err => wake 1 [mkLogLine LError msg [("err", AStr err)]] t st
  | None => wake 0 [] t st
  end.

(** The end of the shutdown: [os.Exit] does not run the deferred closers. *)
Definition finish_shutdown (app : App) (dh dm : Drain) (code start : Z) (st : Main) : Main :=
  let '(lines, took) := shutdownAll shutdownTimeout [(Some (ap_http app), dh); (ap_metrics app, dm)] in
  let now := mn_now st + took in
  {| mn_http := mn_http st; mn_metrics := mn_metrics st; mn_signalled := mn_signalled st;
     mn_phase := if code =? 0 then PClosing start now (ap_defers app) else PExited code start;
     mn_now := now; mn_log := mn_log st ++ lines; mn_io := mn_io st |}.

(** One deferred closer, which takes [dt]. *)
Definition run_closer (start ended dt : Z) (h : Handle) (hs : list Handle) (st : Main) : Main :=
  {| mn_http := mn_http st; mn_metrics := mn_metrics st; mn_signalled := mn_signalled st;
     mn_phase := PClosing start ended hs; mn_now := mn_now st + dt; mn_log := mn_log st;
     mn_io := mn_io st ++ [IClose h] |}.

Definition return_main (start : Z) (st : Main) : Main :=
  {| mn_http := mn_http st; mn_metrics := mn_metrics st; mn_signalled := mn_signalled st;
     mn_phase := PExited 0 start; mn_now := mn_now st; mn_log := mn_log st; mn_io := mn_io st |}.

Definition set_http (c : Chan) (t : Z) (st : Main) : Main :=
  {| mn_http := c; mn_metrics := mn_metrics st; mn_signalled := mn_signalled st;
     mn_phase := mn_phase st; mn_now := t; mn_log := mn_log st; mn_io := mn_io st |}.
Definition set_metrics (c : Chan) (t : Z) (st : Main) : Main :=
  {| mn_http := mn_http st; mn_metrics := Some c; mn_signalled := mn_signalled st;
     mn_phase := mn_phase st; mn_now := t; mn_log := mn_log st; mn_io := mn_io st |}.
Definition set_signalled (t : Z) (st : Main) : Main :=
  {| mn_http := mn_http st; mn_metrics := mn_metrics st; mn_signalled := true;
     mn_phase := mn_phase st; mn_now := t; mn_log := mn_log st; mn_io := mn_io st |}.

(** A listener stops, or a signal arrives, while the process waits. *)
Inductive env_step : Main → Main → Prop :=
| es_http st t err :
    mn_phase st = PSelect → mn_now st ≤ t → ch_closed (mn_http st) = false →
    env_step st (set_http (listener_end err) t st)
| es_metrics st t c err :
    mn_phase st = PSelect → mn_now st ≤ t → mn_metrics st = Some c → ch_closed c = false →
    env_step st (set_metrics (listener_end err) t st)
| es_signal st t :
    mn_phase st = PSelect → mn_now st ≤ t → mn_signalled st = false →
    env_step st (set_signalled t st).

Section Steps.
(** How long the [Close] of a handle blocks, [None] for ever: pgx's pool waits
    for every borrowed connection to be given back. *)
Context (closes : Handle → option Z).

(** The main goroutine: the cases of the [select] (any that is ready), then
    the shutdown and the deferred closers. *)
Inductive main_step (app : App) : Main → Main → Prop :=
| ms_http st t e :
    mn_phase st = PSelect → mn_now st ≤ t → recv (mn_http st) = Some e →
    main_step app st (on_chan "http server stopped with error" e t st)
| ms_metrics st t c e :
    mn_phase st = PSelect → mn_now st ≤ t → mn_metrics st = Some c → recv c = Some e →
    main_step app st (on_chan "metrics server stopped with error" e t st)
| ms_signal st t :
    mn_phase st = PSelect → mn_now st ≤ t → mn_signalled st = true →
    main_step app st (wake 0 [mkLogLine Info "shutdown signal received, draining" []] t st)
| ms_shutdown st code start dh dm :
    mn_phase st = PShutdown code start → 0 ≤ dr_time dh → 0 ≤ dr_time dm →
    main_step app st (finish_shutdown app dh dm code start st)
| ms_close st start ended h hs dt :
    mn_phase st = PClosing start ended (h :: hs) → closes h = Some dt →
    main_step app st (run_closer start ended dt h hs st)
| ms_return st start ended :
    mn_phase st = PClosing start ended [] →
    main_step app st (return_main start st).

Definition proc_step (app : App) (st st' : Main) : Prop := env_step st st' ∨ main_step app st st'.
End Steps.

(** ** Handles across boot *)

Section BootFacts.
Context `{ConnLib}.

Lemma buildAuth_handles cfg hs :
  HPool ∉ hs → HMigrate ∉ hs →
  open_after hs (buildAuth cfg).2 =
    match (buildAuth cfg).1 with inl _ => hs | inr (_, _, closer) => closer ++ hs end.
Proof.
  intros Hp Hm. unfold buildAuth. destruct (au_Enabled (AuthCfg cfg)); [cbn [negb]|done].
  pose proof (NewPool_handles (pg_DSN (db_Postgres (Database cfg)))
    (pg_MaxConnections (db_Postgres (Database cfg))) hs Hp) as Hnp.
  destruct (NewPool _ _) as [[e|mc] io]; simpl in Hnp; [done|].
  destruct (pg_AutoMigrate _); [|done].
  pose proof (RunMigrations_handles (pg_DSN (db_Postgres (Database cfg))) (HPool :: hs)) as Hrm.
  destruct (RunMigrations _) as [[e|] io']; simpl in *; rewrite !open_after_app, Hnp, Hrm by set_solver.
  - by apply close_fresh.
  - done.
Qed.

Lemma buildRateLimiter_handles cfg hs :
  HRedis ∉ hs →
  open_after hs (buildRateLimiter cfg).2 =
    match (buildRateLimiter cfg).1 with inl _ => hs | inr (_, closer) => closer ++ hs end.
Proof.
  intros Hr. unfold buildRateLimiter. destruct (RLEnabled (RateLimitCfg cfg)); [cbn [negb]|done].
  pose proof (NewRedis_handles (rd_DSN (db_Redis (Database cfg))) hs Hr) as Hn.
  destruct (Connect.NewRedis _) as [[e|] io]; exact Hn.
Qed.

Lemma boot_handles env app io :
  boot env = (inr app, io) → open_after [] io = ap_defers app.
Proof.
  unfold boot. destruct (Load _ _) as [|cfg]; [done|].
  pose proof (buildAuth_handles cfg [] ltac:(set_solver) ltac:(set_solver)) as Ha.
  assert (∀ m a cl io, buildAuth cfg = (inr (m, a, cl), io) → HRedis ∉ cl) as Hcl.
  { unfold buildAuth. intros m a cl io1. destruct (negb _); [intros [= _ _ <- _]; set_solver|].
    repeat case_match; intros; simplify_eq; set_solver. }
  destruct (buildAuth cfg) as [[e|[[mode admin] closer]] io1] eqn:Ea; [done|]. simpl in Ha.
  pose proof (buildRateLimiter_handles cfg closer (Hcl _ _ _ _ eq_refl)) as Hr.
  destruct (buildRateLimiter cfg) as [[e|[lim closer2]] io2]; [done|]. simpl in Hr.
  destruct (NewRouter _ _ _ _ _ _) as [[e|rtr] bld]; [done|]. intros [= <- <-].
  rewrite open_after_app, Ha, app_nil_r. exact Hr.
Qed.

(** [main] defers at most the closing of the Redis client and of the pool. *)
Lemma boot_defers env app io : boot env = (inr app, io) → ap_defers app `sublist_of` [HRedis; HPool].
Proof.
  unfold boot. destruct (Load _ _) as [|cfg]; [done|].
  assert (∀ m a cl io, buildAuth cfg = (inr (m, a, cl), io) → cl `sublist_of` [HPool]) as Ha.
  { unfold buildAuth. intros m a cl io1. destruct (negb _); [intros [= _ _ <- _]; apply sublist_nil_l|].
    repeat case_match; intros; simplify_eq; done. }
  assert (∀ l cl io, buildRateLimiter cfg = (inr (l, cl), io) → cl `sublist_of` [HRedis]) as Hl.
  { unfold buildRateLimiter. intros l cl io1. destruct (negb _); [intros [= _ <- _]; apply sublist_nil_l|].
    repeat case_match; intros; simplify_eq; done. }
  destruct (buildAuth cfg) as [[e|[[mode admin] closer]] io1]; [done|].
  destruct (buildRateLimiter cfg) as [[e|[lim closer2]] io2]; [done|].
  destruct (NewRouter _ _ _ _ _ _) as [[e|rtr] bld]; [done|]. intros [= <- <-].
  apply (sublist_app closer2 [HRedis] closer [HPool]); eauto.
Qed.
End BootFacts.

(** Closing the open handles one after the other. *)
Lemma close_first h hs : NoDup (h :: hs) → open_after (h :: hs) [IClose h] = hs.
Proof.
  intros [Hn _]%NoDup_cons. exact (close_fresh h hs Hn).
Qed.

(** ** Bounds *)

Lemma shutdownAll_bounds timeout servers :
  0 ≤ timeout → Forall (λ sd, 0 ≤ dr_time sd.2) servers →
  0 ≤ (shutdownAll timeout servers).2 ≤ timeout ∧
  Forall (λ l, ll_msg l = "graceful shutdown failed") (shutdownAll timeout servers).1.
Proof.
  intros Ht Hs. induction Hs as [|[[s|] d] servers Hd Hs IH]; simpl; [split; [lia|constructor]| |exact IH].
  unfold Shutdown. destruct (shutdownAll timeout servers) as [lines t']. simpl in *.
  destruct IH as [Hb Hl]. destruct (dr_time d <=? timeout) eqn:E; simpl;
    (split; [lia|]); [destruct (dr_err d); [by constructor|done]|by constructor].
Qed.

Definition chan_weight (c : Chan) : nat := if ch_closed c then 0 else 1.
Definition weight (app : App) (st : Main) : nat :=
  (chan_weight (mn_http st) + from_option chan_weight 0 (mn_metrics st) +
   (if mn_signalled st then 0 else 1) +
   match mn_phase st with
   | PSelect => 3 + length (ap_defers app)
   | PShutdown _ _ => 2 + length (ap_defers app)
   | PClosing _ _ hs => 1 + length hs
   | PExited _ _ => 0
   end)%nat.

Section Runs.
Context (closes : Handle → option Z) (Hcloses : ∀ h dt, closes h = Some dt → 0 ≤ dt).

Lemma step_decreases app st st' : proc_step closes app st st' → (weight app st' < weight app st)%nat.
Proof.
  unfold weight. intros [Hs|Hs].
  - destruct Hs as [st t err Hp Ht Hc|st t c err Hp Ht Hm Hc|st t Hp Ht Hc];
      unfold chan_weight; simpl; rewrite ?Hp, ?Hm; simpl; rewrite ?Hc; lia.
  - destruct Hs as [st t [e|] Hp Ht Hr|st t c [e|] Hp Ht Hm Hr|st t Hp Ht Hs|st code start dh dm Hp Hh Hm
      |st start ended h hs dt Hp Hd|st start ended Hp];
      rewrite ?Hp; simpl; try lia.
    unfold finish_shutdown. destruct (shutdownAll _ _). simpl. destruct (code =? 0); simpl; lia.
Qed.

(** ** The invariant *)

(** The [select] was left because of a listener's error. *)
Definition stopped_with_error (lines : list LogLine) : Prop :=
  ∃ l, l ∈ lines ∧ (ll_msg l = "http server stopped with error" ∨ ll_msg l = "metrics server stopped with error").

Definition chan_ok (c : Chan) : Prop := ch_closed c = false → ch_buf c = [].

Definition code_ok (code : Z) (lines : list LogLine) : Prop :=
  (code = 0 ∨ code = 1) ∧ (code = 1 ↔ stopped_with_error lines).

(** The time the deferred closers take. *)
Definition closing_time (hs : list Handle) : Z := foldr (λ h acc, default 0 (closes h) + acc) 0 hs.

Definition proc_inv (app : App) (io : list IO) (st : Main) : Prop :=
  chan_ok (mn_http st) ∧ (∀ c, mn_metrics st = Some c → chan_ok c) ∧
  (mn_metrics st = None ↔ ap_metrics app = None) ∧
  match mn_phase st with
  | PSelect => mn_log st = [] ∧ mn_io st = io
  | PShutdown code start => mn_now st = start ∧ mn_io st = io ∧ code_ok code (mn_log st)
  | PClosing start ended hs =>
      start ≤ ended ≤ start + shutdownTimeout ∧ code_ok 0 (mn_log st) ∧
      ended ≤ mn_now st ∧ mn_now st + closing_time hs = ended + closing_time (ap_defers app) ∧
      open_after [] (mn_io st) = hs ∧ NoDup hs
  | PExited code start =>
      code_ok code (mn_log st) ∧ start ≤ mn_now st ∧
      if code =? 0 then
        mn_now st ≤ start + shutdownTimeout + closing_time (ap_defers app) ∧ open_after [] (mn_io st) = []
      else mn_now st ≤ start + shutdownTimeout ∧ mn_io st = io
  end.

Lemma listener_end_ok err : chan_ok (listener_end err).
Proof. done. Qed.

Lemma recv_closed c : chan_ok c → ((∃ e, recv c = Some e) ↔ ch_closed c = true).
Proof.
  unfold chan_ok, recv. intros Hc. destruct (ch_closed c); [split; [done|]; destruct (ch_buf c); eauto|].
  rewrite Hc by done. split; [by intros []|done].
Qed.

Lemma on_chan_inv app io st t e msg :
  msg = "http server stopped with error" ∨ msg = "metrics server stopped with error" →
  mn_phase st = PSelect → proc_inv app io st → proc_inv app io (on_chan msg e t st).
Proof.
  unfold proc_inv. intros Hmsg -> (Hh&Hm&Hd&Hlog&Hio).
  destruct e as [e|]; simpl; rewrite Hlog; split_and!; try done; split; try (by auto); simpl.
  - split; [intros _|done]. eexists. split; [by left|]. simpl. tauto.
  - split; [done|]. intros (l&[]%elem_of_nil&_).
Qed.

Lemma finish_inv app io dh dm code start st :
  open_after [] io = ap_defers app → NoDup (ap_defers app) →
  mn_phase st = PShutdown code start → 0 ≤ dr_time dh → 0 ≤ dr_time dm →
  proc_inv app io st → proc_inv app io (finish_shutdown app dh dm code start st).
Proof.
  intros Hopen Hnd Hp Hh Hm Hinv. unfold proc_inv in *. rewrite Hp in Hinv.
  destruct Hinv as (?&?&?&Hnow&Hio&Hc&Hcode). unfold finish_shutdown.
  pose proof (shutdownAll_bounds shutdownTimeout [(Some (ap_http app), dh); (ap_metrics app, dm)]) as Hb.
  destruct (shutdownAll _ _) as [lines took]. destruct Hb as [Hb Hl]; [done|by repeat constructor|]. cbn [snd fst] in Hb, Hl.
  assert (code_ok code (mn_log st ++ lines)) as Hok.
  { split; [done|]. rewrite Hcode. unfold stopped_with_error. setoid_rewrite elem_of_app. rewrite Forall_forall in Hl.
    split; intros (l&Hin&Hmsg); exists l; [by auto|]. destruct Hin as [|Hin%Hl]; [done|].
    rewrite Hin in Hmsg. by destruct Hmsg. }
  simpl. destruct Hc as [->| ->]; simpl; rewrite ?Hio; split_and!; try done; lia.
Qed.

Lemma step_inv app io st st' :
  open_after [] io = ap_defers app → NoDup (ap_defers app) →
  proc_inv app io st → proc_step closes app st st' → proc_inv app io st'.
Proof.
  intros Hopen Hnd Hinv [Hs|Hs].
  - destruct Hs as [st t err Hp Ht Hc|st t c err Hp Ht Hm Hc|st t Hp Ht Hc]; unfold proc_inv in *;
      simpl; rewrite Hp in *; try done.
    + destruct Hinv as (_&?&?&?). done.
    + destruct Hinv as (Hh&_&Hd&Hlog&Hio). rewrite Hm in Hd.
      split; [done|]. split; [by intros c' [= <-]|]. split; [|done]. rewrite <-Hd. by split.
  - destruct Hs as [st t e Hp Ht Hr|st t c e Hp Ht Hm Hr|st t Hp Ht Hs|st code start dh dm Hp Hh Hm
      |st start ended h hs dt Hp Hd|st start ended Hp].
    + apply on_chan_inv; auto.
    + apply on_chan_inv; auto.
    + unfold proc_inv in *. simpl. rewrite Hp in Hinv. destruct Hinv as (?&?&?&Hlog&?).
      rewrite Hlog. split_and!; try done; split; [by auto|]. split; [done|].
      intros (l&Hl%list_elem_of_singleton&Hmsg). subst l. simpl in Hmsg. by destruct Hmsg.
    + by apply finish_inv.
    + unfold proc_inv in *. rewrite Hp in Hinv. destruct Hinv as (?&?&?&?&?&Hnow&Hsum&Hio&Hndh).
      unfold run_closer. cbn [mn_http mn_metrics mn_phase mn_now mn_log mn_io].
      assert (closing_time (h :: hs) = dt + closing_time hs) as Hct by (unfold closing_time; cbn [foldr]; by rewrite Hd).
      rewrite Hct in Hsum. specialize (Hcloses h dt Hd).
      split_and!; try done; try lia.
      * by rewrite open_after_app, Hio, close_first.
      * by apply NoDup_cons in Hndh as [_ ?].
    + unfold proc_inv in *. rewrite Hp in Hinv. destruct Hinv as (?&?&?&[? ?]&?&?&Hsum&?&?). cbn in *.
      split_and!; try done; lia.
Qed.

Lemma nsteps_inv app io n st st' :
  open_after [] io = ap_defers app → NoDup (ap_defers app) →
  nsteps (proc_step closes app) n st st' → proc_inv app io st →
  proc_inv app io st' ∧ (n + weight app st' ≤ weight app st)%nat.
Proof.
  intros Ho Hnd. induction 1 as [st|n st1 st2 st3 Hs _ IH]; intros Hinv; [split; [done|lia]|].
  destruct (IH (step_inv _ _ _ _ Ho Hnd Hinv Hs)) as [? ?]. pose proof (step_decreases _ _ _ Hs). split; [done|lia].
Qed.

Lemma main_step_ready app io st :
  proc_inv app io st → mn_phase st = PSelect →
  ((∃ st', main_step closes app st st') ↔
   ch_closed (mn_http st) = true ∨ (∃ c, mn_metrics st = Some c ∧ ch_closed c = true) ∨ mn_signalled st = true).
Proof.
  intros (Hh&Hm&_&_) Hp. split.
  - intros [st' Hs]. destruct Hs as [st t e _ _ Hr|st t c e _ _ Hc Hr|st t _ _ Hs|st ????? _ _|st ???????|st ???];
      try congruence.
    + left. apply recv_closed; eauto.
    + right; left. exists c. split; [done|]. apply recv_closed; eauto.
    + by right; right.
  - intros [Hc|[(c&Hc&Hcl)|Hs]].
    + apply recv_closed in Hc as [e He]; [|done]. eexists. by apply (ms_http _ _ st (mn_now st) e).
    + apply recv_closed in Hcl as [e He]; [|by apply Hm]. eexists. by apply (ms_metrics _ _ st (mn_now st) c e).
    + eexists. by apply (ms_signal _ _ st (mn_now st)).
Qed.
End Runs.

Section Exit.
Context `{ConnLib}.

(** C20: the life of the process.  Once booted, it takes at most six more
    steps and one per deferred closer, whatever happens.  While the main
    goroutine waits it can go on exactly when a listener has stopped or a signal
    has arrived (with metrics disabled, never because of the metrics channel).
    Shutting the servers down is then always possible and takes at most 30
    seconds.  If the [select] took a listener's error, the process exits there
    with code 1 and leaves every connection it opened to the operating system;
    otherwise, also when an error was ready next to a signal that was taken, it
    goes through the deferred closers, each of which runs as soon as its [Close]
    returns, and exits with code 0 and every connection closed, by the 30
    seconds plus the time the closers blocked. *)
Theorem process_lifecycle (closes : Handle → option Z) (env : MainEnv) (app : App) (io : list IO) (t0 : Z)
    (n : nat) (st : Main)
    (Hcloses : ∀ h dt, closes h = Some dt → 0 ≤ dt)
    (Hboot : boot env = (inr app, io))
    (Hrun : nsteps (proc_step closes app) n (started app io t0) st) :
  (n ≤ 6 + length (ap_defers app))%nat ∧
  match mn_phase st with
  | PSelect =>
      ((∃ st', main_step closes app st st') ↔
       ch_closed (mn_http st) = true ∨ (∃ c, mn_metrics st = Some c ∧ ch_closed c = true) ∨
       mn_signalled st = true) ∧
      (ap_metrics app = None → mn_metrics st = None)
  | PShutdown code start =>
      (code = 1 ↔ stopped_with_error (mn_log st)) ∧
      ∃ st', main_step closes app st st' ∧
        (code = 0 ∧ (∃ ended, mn_phase st' = PClosing start ended (ap_defers app)) ∨
         code = 1 ∧ mn_phase st' = PExited 1 start)
  | PClosing start ended hs =>
      start ≤ ended ≤ start + 30 * Second ∧ ¬ stopped_with_error (mn_log st) ∧ open_after [] (mn_io st) = hs ∧
      ((∃ st', main_step closes app st st') ↔ match hs with [] => True | h :: _ => is_Some (closes h) end)
  | PExited code start =>
      start ≤ mn_now st ∧
      (code = 0 ∧ ¬ stopped_with_error (mn_log st) ∧ open_after [] (mn_io st) = [] ∧
         mn_now st ≤ start + 30 * Second + closing_time closes (ap_defers app) ∨
       code = 1 ∧ stopped_with_error (mn_log st) ∧ open_after [] (mn_io st) = ap_defers app ∧
         mn_now st ≤ start + 30 * Second)
  end.
Proof.
  pose proof (boot_handles _ _ _ Hboot) as Ho.
  assert (NoDup (ap_defers app)) as Hnd.
  { eapply sublist_NoDup; [|by eapply boot_defers]. repeat constructor; set_solver. }
  destruct (nsteps_inv closes Hcloses app io n (started app io t0) st Ho Hnd Hrun) as [Hinv Hw].
  { unfold proc_inv, started. simpl. split_and!; try done.
    - by destruct (ap_metrics app); intros c; intros [= <-].
    - by destruct (ap_metrics app). }
  split. { unfold weight at 2, started in Hw. simpl in Hw. destruct (ap_metrics app); simpl in Hw; lia. }
  destruct (mn_phase st) as [|code start|start ended hs|code start] eqn:Hp.
  - split; [by apply (main_step_ready closes app io)|]. by apply Hinv.
  - unfold proc_inv in Hinv. rewrite Hp in Hinv. destruct Hinv as (_&_&_&_&_&Hc&Hcode). split; [done|].
    eexists. split; [apply (ms_shutdown _ app st code start (mkDrain 0 None) (mkDrain 0 None)); done|].
    unfold finish_shutdown. destruct (shutdownAll _ _). simpl.
    destruct Hc as [->| ->]; [left|right]; simpl; split; eauto.
  - unfold proc_inv in Hinv. rewrite Hp in Hinv. destruct Hinv as (_&_&_&Hb&[_ Hcode]&_&_&Hio&_).
    split; [done|]. split; [by intros ?%Hcode|]. split; [done|]. split.
    + intros [st' Hs]. destruct Hs; try congruence; replace hs with (h :: hs0) || replace hs with (@nil Handle); by try congruence.
    + destruct hs as [|h hs]; [intros _|intros [dt Hdt]]; eexists; [by eapply ms_return|by eapply ms_close].
  - unfold proc_inv in Hinv. rewrite Hp in Hinv.
    destruct Hinv as (_&_&_&[Hc Hcode]&Ht&Hio). split; [done|]. destruct Hc as [->| ->]; simpl in Hio; [left|right].
    + split; [done|]. split; [by intros ?%Hcode|]. tauto.
    + destruct Hio as [? ->]. split; [done|]. split; [by apply Hcode|]. done.
Qed.

(** C36: no connection leaks while the gateway starts.  Opening the pool, the
    Redis client and running the migrations leave exactly what they return:
    one more open handle on success, none on failure, also when a later step
    (the ping, the migrations) fails; migrations release their handle in any
    case.  The pool is sized as configured when that fits an [int32]. *)
Theorem connections_no_leak (cfg : Config) :
  let pg := db_Postgres (Database cfg) in
  open_after [] (buildAuth cfg).2 =
    match (buildAuth cfg).1 with inr (AuthCached _ _, _, _) => [HPool] | _ => [] end ∧
  open_after [] (buildRateLimiter cfg).2 =
    match (buildRateLimiter cfg).1 with inr (Some _, _) => [HRedis] | _ => [] end ∧
  (∀ dsn hs, HMigrate ∉ hs → open_after hs (RunMigrations dsn).2 = hs) ∧
  (∀ n, 0 < pg_MaxConnections pg < 2 ^ 31 →
     (NewPool (pg_DSN pg) (pg_MaxConnections pg)).1 = inr n → n = pg_MaxConnections pg).
Proof.
  intros pg. split; [|split; [|split]].
  - rewrite buildAuth_handles by set_solver. unfold buildAuth.
    destruct (negb _); [done|]. destruct (NewPool _ _) as [[e|mc] pio]; [done|].
    destruct (pg_AutoMigrate _); [|done]. by destruct (RunMigrations _) as [[e|] mio].
  - rewrite buildRateLimiter_handles by set_solver. unfold buildRateLimiter.
    destruct (negb _); [done|]. by destruct (Connect.NewRedis _) as [[e|] rio].
  - intros dsn hs. apply RunMigrations_handles.
  - intros n Hn. unfold NewPool. destruct (pgx_ParseConfig _); [done|].
    rewrite (proj2 (Z.ltb_lt _ _)) by lia. repeat case_match; simpl; intros; simplify_eq.
    apply wrap32_id. lia.
Qed.
End Exit.

(** ** Witness: authentication and rate limiting enabled, everything reachable *)

Definition demo_lib : ConnLib :=
  {| pgx_ParseConfig := λ _, inr 4; pgx_NewWithConfig := λ _ _, None; pgx_Ping := λ _, None;
     redis_ParseURL := λ _, None; redis_Ping := λ _, None; iofs_New := None; migrate_New := λ _, None;
     migrate_Up := λ _, Some None; migrate_Close := None |}.

Definition full_cfg : Config :=
  mkConfig (mkServerConfig 8080 0 0) two ∅ (mkHealthSettings 3 (30 * Second)) (mkLogConfig "info" "json" false)
    (mkDatabaseConfig (mkPostgresConfig "postgres://db" true 20) (mkRedisConfig "redis://cache"))
    (mkAuthConfig true "admin" 0 0) (mkRateLimitConfig true 60 100000) (mkMetricsConfig true 9090)
    (mkRoutingConfig "priority" 3 ∅ ∅).
Definition full_env : MainEnv :=
  mkMainEnv "" (λ _, inr full_cfg) (λ cfg, map_to_list (Providers cfg)) (λ _, []) (λ x, x).

Definition full_boot := @boot demo_lib full_env.

(** Closing Redis takes no time, the pool waits 3 seconds for a connection. *)
Definition demo_closes (h : Handle) : option Z := match h with HPool => Some (3 * Second) | _ => Some 0 end.

(** A signal at second 1, both servers drained after 40 and 2 seconds. *)
Lemma process_lifecycle_witness :
  ∃ app io st, full_boot = (inr app, io) ∧ ap_defers app = [HRedis; HPool] ∧
    mn_phase st = PExited 0 Second ∧ mn_now st = 34 * Second ∧ open_after [] (mn_io st) = [].
Proof.
  assert (match full_boot with (inr app, _) => ap_defers app | _ => [] end = [HRedis; HPool]) as Hd
    by (vm_compute; reflexivity).
  destruct full_boot as [[e|app] io] eqn:E; [discriminate|].
  set (s0 := started app io 0).
  set (s2 := wake 0 [mkLogLine Info "shutdown signal received, draining" []] Second (set_signalled Second s0)).
  set (s3 := finish_shutdown app (mkDrain (40 * Second) None) (mkDrain (2 * Second) None) 0 Second s2).
  set (s5 := run_closer Second (31 * Second) (3 * Second) HPool [] (run_closer Second (31 * Second) 0 HRedis [HPool] s3)).
  assert (mn_phase s3 = PClosing Second (31 * Second) [HRedis; HPool] ∧ mn_now s3 = 31 * Second) as [H3 Hn3].
  { unfold s3, finish_shutdown, s2, s0, started. rewrite <-Hd. destruct (ap_metrics app); vm_compute; split; reflexivity. }
  assert (nsteps (proc_step demo_closes app) 6 s0 (return_main Second s5)) as Hrun.
  { apply (nsteps_l _ _ _ (set_signalled Second s0)); [left; by apply es_signal|].
    apply (nsteps_l _ _ _ s2); [right; by apply ms_signal|].
    apply (nsteps_l _ _ _ s3); [right; by apply ms_shutdown|].
    apply (nsteps_l _ _ _ (run_closer Second (31 * Second) 0 HRedis [HPool] s3)); [right; by apply ms_close|].
    apply (nsteps_l _ _ _ s5); [right; by apply ms_close|].
    apply (nsteps_l _ _ _ (return_main Second s5)); [right; by eapply ms_return|apply nsteps_O]. }
  pose proof (@process_lifecycle demo_lib demo_closes full_env app io 0 6 (return_main Second s5)) as Hl.
  specialize (Hl ltac:(intros [] dt [= <-]; vm_compute; discriminate) E Hrun) as [_ Hl].
  assert (mn_phase (return_main Second s5) = PExited 0 Second) as Hp by reflexivity.
  rewrite Hp in Hl. destruct Hl as [_ [(_&_&Ho&_)|(?&_)]]; [|done].
  exists app, io, (return_main Second s5). split; [reflexivity|]. split; [exact Hd|]. split; [exact Hp|].
  split; [|exact Ho]. unfold s5. cbn [return_main run_closer mn_now]. rewrite Hn3. reflexivity.
Defined.

(** A connection that is never given back: the pool's closer does not return
    and neither does [main], however long ago the 30 seconds ended. *)
Example pool_close_blocks app io lines t :
  let st := mkMain fresh_chan None true (PClosing 0 (30 * Second) [HPool]) t lines io in
  ¬ ∃ st', main_step (λ h, match h with HPool => None | _ => Some 0 end) app st st'.
Proof. intros st [st' Hs]. inversion Hs; simplify_eq/=; done. Qed.

(** A listener that fails to bind: [os.Exit(1)] skips the deferred closers. *)
Example failed_listener_keeps_handles :
  match full_boot with
  | (inr app, io) =>
      let st := on_chan "http server stopped with error" (Some "address already in use") 1
                  (set_http (listener_end (Some "address already in use")) 1 (started app io 0)) in
      let st := finish_shutdown app (mkDrain 0 None) (mkDrain 0 None) 1 1 st in
      mn_phase st = PExited 1 1 ∧ open_after [] (mn_io st) = [HRedis; HPool]
  | _ => False
  end.
Proof. vm_compute. split; reflexivity. Qed.

(** The same failure with a signal that arrives before the [select] runs: the
    signal may be taken, and the process is on its way to exit code 0. *)
Example signal_hides_failure app io :
  ∃ st st', nsteps (proc_step demo_closes app) 2 (started app io 0) st ∧
    recv (mn_http st) = Some (Some "address already in use") ∧
    main_step demo_closes app st st' ∧ mn_phase st' = PShutdown 0 1.
Proof.
  set (s1 := set_http (listener_end (Some "address already in use")) 1 (started app io 0)).
  exists (set_signalled 1 s1), (wake 0 [mkLogLine Info "shutdown signal received, draining" []] 1 (set_signalled 1 s1)).
  split; [|split; [done|split; [by apply ms_signal|done]]].
  apply (nsteps_l _ _ _ s1); [left; by apply es_http|].
  apply (nsteps_l _ _ _ (set_signalled 1 s1)); [left; by apply es_signal|apply nsteps_O].
Qed.
